(* ===== verification/_CoqProject ===== *)
-Q . S2P
Prelude.v
Net.v
Errors.v
Ffi.v
World.v
Sim.v
Session.v
App.v
Threads.v
Prewarm.v
Reactor.v
Replay.v
Ownership.v
Stream.v
Channel.v
Scheduler.v
Dgram.v
Mailbox.v
Listener.v
Echo.v
Framing.v
Query.v
Agreement.v
Deadline.v
Waits.v
Typing.v
Workers.v
Tests.v
Witnesses.v
Schedules.v
