(* ===== verification/Prelude.v ===== *)
(** * vcl-rs: a verification development

    vcl-rs is a Rust crate that wraps libvppcom, the C client library of VPP's
    host stack, for tokio programs: TCP streams and listeners, UDP sockets, and
    one-shot DNS queries over both.  This development models the whole crate
    (src/src/, the fuzz target and the echo example) and proves what makes its
    parts correct.

    ** The program and its model

    The crate is a stack of components.  Each is a file here, named after
    what it models; a definition keeps the name of the Rust function, prefixed
    by its type where Rust's method names would clash.

    - error.rs: [Errors].  [VclError], the classification of return codes
      ([from_rc_with]) and stream.rs's [vcl_to_io].
    - ffi.rs: [Ffi].  Constants, C structures, and a constructor of [call] for
      every extern function and for every entry point of tokio, rand and the
      standard library the crate uses, a call that fills a buffer or an array
      taking it as an argument next to its length; observations of a trace of such calls
      (handles opened and closed, payload moved, clock readings, wake-ups) and
      the ownership interpreter [pool_run].
    - session.rs: [Session].  The endpoint marshalling and the one-call
      methods of [SessionHandle].
    - app.rs: [App] (initialisation flag, worker registration), [Threads] (the
      same operations interleaved access by access) and [Prewarm]
      ([prewarm]: its caller, its tasks and their barrier as a step relation,
      on a pool that reuses the thread of a task that returned).
    - reactor.rs: [Reactor].  The epoll set with its waiters map, the drain
      loop, the periodic task and [wait_event].  An async function is a state
      machine with a poll function; [await] polls it and yields.  [Scheduler]
      interleaves the waits of several tasks with the periodic task.
    - stream.rs: [Stream].  Both connect paths, read, read_exact, write_all,
      poll_read, poll_write and the drop order.  [Channel] is its abstract
      specification, a pair of byte queues, and the refinement; [Replay]
      links the trace of a run to the state of the environment.
    - listener.rs: [Listener].
    - dgram.rs: [Dgram] (bind verification, ephemeral ports, the async
      socket), [Mailbox] (the abstract specification of that socket, two
      queues of letters, and the refinement), [Framing] (the two-byte DNS length prefix, with the fuzz
      target), [Query] (the one-shot queries and the long-lived UDP socket),
      [Agreement] (the two TCP queries against one reference function),
      [Deadline] (termination of the polling loops) and [Waits] (termination
      of waiting and connecting, and what it does not bound).
    - examples/udp_echo.rs: [Echo].
    - across components: [Ownership] (who closes which handle), [Workers]
      (registration before use) and [Typing] (the C signatures).
    - the unit tests of error.rs, session.rs and dgram.rs: [Tests].
    - std::net's address type and text parser, which bind_random_ephemeral
      relies on: [Net].

    ** State, effects and the environment

    [World] defines the program monad.  A computation transforms a [World]: the
    statics and thread-locals of app.rs, the current thread, the reactor
    shared by the tasks, and a log.  Every call out of the crate is answered
    by an environment ([Env]), an arbitrary state machine, and recorded with
    its answer.  A task that awaits lets the other tasks change the reactor
    arbitrarily, and may never be resumed because its owner dropped the future
    ([yield_now]).  A computation returns, unwinds its locals (it panicked, or
    was dropped at an [await]), or exhausts the fuel of a loop.  Drop is
    [unless_ok] (a value a success hands on) and [finally] (a value that always
    leaves scope); both run on every unwinding.

    Nothing is assumed of the environment unless a theorem says so.  The
    assumptions are documented properties of the foreign code, each a
    predicate or class with a concrete instance in [Witnesses] or [Schedules],
    which run the code in the scripted environments of [Sim]: [io_ok],
    [recv_ok] and [epoll_ok] (counts fit the buffers and match the data),
    [rand_ok] (a draw lies in its range), [prompt_ok] (a session that makes
    progress), [typed_answer] (the callee's side of the C signatures),
    [smooth_ok] (a network on which nothing fails), [write_moves_ok],
    [explicit_ok], [EpollQueue], [NotifyPermits], [FreshNotifies],
    [SleepingClock], [PollTakesTime], [TimedRuntime], [ByteChannel], [LivelyChannel],
    [DatagramChannel] and [PromptMailbox].

    A few small logics carry the proofs: [wp] (the world after a run), [emits]
    (the trace a run appends, for any starting world), [honest] (the log is a
    run of the environment, so facts about traces become facts about its
    state), and on top of them [accounts] and [only] of [Ownership] (which
    handles a computation owns, which calls it can make), [typed], [secured],
    [returns], [halts], [ends_later], and [steady] (the reactor is the same
    until a computation first suspends).  Interfaces between components are
    classes: [WaitContract] is what the reactor promises its clients,
    [Transport] what the DNS exchange asks of a byte stream; the async and the
    blocking query are both instances of it.

    ** What is proved

    - Data paths: reads, writes and datagrams move exactly the bytes libvppcom
      moved, once and in order, and a buffer is untouched beyond them
      ([read_delivers], [read_exact_fills], [write_all_writes_once],
      [poll_read_contract], [poll_write_contract], [recv_from_one],
      [send_to_once]); the queries return the body of one framed message
      ([tcp_sync_answer], [tcp_async_answer]) or one datagram
      ([udp_query_answer], [udp_sync_query_peer]); the echo server returns
      every datagram to its sender ([echo_replies], [echo_mirrors],
      [echo_serves_backlog]).
    - Handles: every component closes what it opens, exactly once, on success,
      error and panic and when its future is dropped ([connect_async_owns], [accept_owns],
      [queries_leak_nothing], [dgram_bind_confirmed],
      [listener_bind_confirmed]), with the exceptions listed below.
    - Wake-ups: draining wakes exactly the reported waiters and empties the
      queue; a wait succeeds only when the Notify of its own session was
      signalled ([drain_wakes_reported], [drain_empties_queue],
      [wait_event_reasons]), and the waits a stream stores between polls are
      on its own session ([polls_keep_own_waits]); under every interleaving
      of the tasks no wait loses its entry in the waiters map, and a tick of
      the periodic task reaches the waits of all sessions
      ([no_wait_orphaned], [tick_reaches_every_session]).
    - Refinement and equivalence: whatever a client does with a stream or a
      UDP socket, dropping futures as it likes, a byte pipe or a mailbox could
      have answered it ([stream_refines_pipe], [dgram_refines_mailbox]); this
      includes cancel safety: a dropped [read], [recv_from], [send_to] or
      [wait_readable] has moved nothing, a dropped [read_exact] or [write_all]
      no more than its buffer; the two TCP queries
      compute the same function of the query and the peer's bytes
      ([tcp_queries_agree]).
    - Order: registration of the thread precedes its first session call in
      every operation that creates a session ([registration_precedes_use];
      [accept_never_registers] is about the one that receives them), a bind
      is confirmed only after its epoll set was polled for 200 ms
      ([dgram_bind_confirmed]), registration with the epoll set precedes
      connect, O_NONBLOCK precedes use, removal from the epoll set precedes
      close ([connect_async_order], [from_accepted_nonblocking],
      [stream_drop_deregisters]).
    - Types: every program over the public operations keeps to the C
      signatures, the length passed for each buffer and array included
      ([programs_well_typed]).
    - Life cycle, with threads interleaved access by access: at most one
      application, as libvppcom sees it too ([app_exclusive]); registrations
      do not overlap and take effect as whole calls
      ([registrations_serialised], [registration_atomic]); [prewarm]
      succeeds only with distinct threads, which is what its barrier is for,
      fails only with the join error of a runtime that shuts down, and cannot
      deadlock in a pool that is large enough while the runtime runs
      ([prewarm_outcome], [prewarm_terminates],
      [prewarm_small_pool_deadlocks], [prewarm_shutdown_hangs]), and after it no registration is left to
      race with session calls ([prewarm_quiesces]).
    - Formats: endpoint marshalling on both byte orders, DNS framing, error
      classification, the fuzz target for all inputs, the unit tests.
    - Termination: read_exact, write_all, the drain loop, prewarm, the
      verified binds, the blocking queries over UDP and TCP, a wait, and
      [connect_async] with the retries of the async query
      ([waits_terminate]); other loops wait on the network and are bounded
      only by what their theorems say.

    Behaviour the code did not intend is stated as well: [app_init_nul_poisons],
    [rejected_bind_closes_twice], [ephemeral_v6_never_binds],
    [stream_connect_leaks], [connect_timeout_keeps_waiter],
    [stray_flood_never_returns], [silent_peer_holds_query],
    [connect_before_handshake], [refused_registration_proceeds] and
    [accept_never_registers].

    ** Fuel

    Every source loop is [loop fuel body]; running out of fuel is an outcome
    of its own and stands for a run that is still going.  Statements about
    traces hold at every fuel, of the unfinished runs too; the termination
    theorems give the fuel that is enough, from the length of a buffer, of a
    queue or of a timeout ([rounds_enough], [deadline_rounds], [wait_rounds]).

    ** What is not modelled

    Poisoned mutexes; when the ticks of an interval fire (its configuration is
    modelled, its timing belongs to tokio); the bodies of libvppcom, tokio,
    rand and tracing, which the environment stands for (a log line is a call
    with its level, text and fields; a field that shows an elapsed time keeps
    the instant it is measured from); setting up the example's log subscriber;
    lib.rs, which only declares and re-exports modules.  In [Scheduler] the
    tasks' own code is abstract: a task is the waits it performs, and what it
    does between them leaves the reactor alone.

    This file holds what all others share: Rust's [Result], fixed-width
    integers and bytes, buffers, and the development's tactics and hint
    databases. *)

From stdpp Require Export base numbers list gmap strings.
From Stdlib Require Export ZArith Lia.
From Stdlib Require Strings.Byte.

#[global] Open Scope Z_scope.

(** ** Scopes, hint databases and tactics *)

Create HintDb vcl.
Create Rewrite HintDb vcl.

(** Splits every conjunction and existential of the context. *)
Ltac destruct_conj :=
  repeat match goal with
  | H : _ /\ _ |- _ => destruct H
  | H : exists _, _ |- _ => destruct H
  end.

(** Turns boolean comparisons of the context and goal into propositions. *)
Ltac bool_to_prop :=
  repeat match goal with
  | H : (_ <? _) = true |- _ => apply Z.ltb_lt in H
  | H : (_ <? _) = false |- _ => apply Z.ltb_ge in H
  | H : (_ <=? _) = true |- _ => apply Z.leb_le in H
  | H : (_ <=? _) = false |- _ => apply Z.leb_gt in H
  | H : (_ =? _) = true |- _ => apply Z.eqb_eq in H
  | H : (_ =? _) = false |- _ => apply Z.eqb_neq in H
  | H : (_ && _) = true |- _ => apply andb_prop in H; destruct H
  | H : (_ || _) = false |- _ => apply orb_false_elim in H; destruct H
  end.

(** Linear arithmetic with division and modulo by constants. *)
Ltac lia_div := Z.to_euclidean_division_equations; lia.

(** ** std::result::Result *)

Inductive result (A E : Type) : Type :=
| Ok (a : A)
| Err (e : E).

Arguments Ok {A E} a.
Arguments Err {A E} e.

Definition is_ok {A E} (r : result A E) : bool :=
  match r with Ok _ => true | Err _ => false end.

(** [Result::ok]. *)
Definition ok {A E} (r : result A E) : option A :=
  match r with Ok a => Some a | Err _ => None end.

(** [Result::map_err]. *)
Definition map_err {A E F} (f : E -> F) (r : result A E) : result A F :=
  match r with Ok a => Ok a | Err e => Err (f e) end.

(** [Option::ok_or_else] and [Option::unwrap_or_else], whose closures are
    pure in this crate. *)
Definition ok_or_else {A E} (o : option A) (e : E) : result A E :=
  match o with Some a => Ok a | None => Err e end.

Definition unwrap_or_else {A} (o : option A) (d : A) : A :=
  match o with Some a => a | None => d end.

(** ** Machine integers

    Every fixed-width integer is a [Z]; a cast that can lose bits is written
    with the modulus of its target. *)

Definition U16_MAX : Z := 65535.
Definition as_u16 (z : Z) : Z := z mod 2 ^ 16.
Definition as_u32 (z : Z) : Z := z mod 2 ^ 32.
Definition as_u64 (z : Z) : Z := z mod 2 ^ 64.
Definition is_u16 (z : Z) : Prop := 0 <= z < 2 ^ 16.
Definition is_u32 (z : Z) : Prop := 0 <= z < 2 ^ 32.

(** [u16::try_from] on a usize. *)
Definition u16_try_from (n : Z) : option Z :=
  if (0 <=? n) && (n <=? U16_MAX) then Some n else None.

(** Converts a boolean the way [b as u8] does. *)
Definition bool_as_u8 (b : bool) : Z := if b then 1 else 0.

(** ** Bytes *)

Definition u8 : Set := Byte.byte.

#[global] Instance u8_eq_dec : EqDecision u8 := Byte.byte_eq_dec.

Definition Z_of_u8 (b : u8) : Z := Z.of_N (Byte.to_N b).

Definition u8_of_Z (z : Z) : u8 :=
  match Byte.of_N (Z.to_N (z mod 256)) with Some b => b | None => Byte.x00 end.

(** [u16::to_be_bytes] and [u16::from_be_bytes]. *)
Definition to_be_bytes (n : Z) : list u8 := [u8_of_Z (n / 256); u8_of_Z n].

Definition from_be_bytes (hi lo : u8) : Z := Z_of_u8 hi * 256 + Z_of_u8 lo.

(** [u16::swap_bytes]. *)
Definition swap_bytes (p : Z) : Z := (p mod 256) * 256 + p / 256.

(** The byte order of the target machine; [u16::to_be] and [u16::from_be]
    swap on a little-endian one and do nothing on a big-endian one. *)
Inductive Endian : Set := Little | Big.

Definition to_be (e : Endian) (p : Z) : Z :=
  match e with Little => swap_bytes p | Big => p end.

Definition from_be (e : Endian) (p : Z) : Z := to_be e p.

(** How the target lays a u16 out in memory. *)
Definition mem_u16 (e : Endian) (p : Z) : list u8 :=
  match e with
  | Little => [u8_of_Z p; u8_of_Z (p / 256)]
  | Big => [u8_of_Z (p / 256); u8_of_Z p]
  end.

(** A foreign call that fills the start of a buffer with [data]: the buffer
    keeps its length. *)
Definition fill {A} (buf data : list A) : list A :=
  take (length buf) data ++ drop (length data) buf.

(** Length of a slice as a usize. *)
Definition len {A} (l : list A) : Z := Z.of_nat (length l).

(** ** Lemmas on bytes and integers *)

Lemma Z_of_u8_range (b : u8) : 0 <= Z_of_u8 b < 256.
Proof.
  unfold Z_of_u8. pose proof (Byte.to_N_bounded b). lia.
Qed.

Lemma Z_of_u8_of_Z (z : Z) : Z_of_u8 (u8_of_Z z) = z mod 256.
Proof.
  unfold Z_of_u8, u8_of_Z.
  pose proof (Z.mod_pos_bound z 256 ltac:(lia)) as Hb.
  destruct (Byte.of_N (Z.to_N (z mod 256))) eqn:E.
  - apply Byte.to_of_N in E. rewrite E. lia.
  - apply Byte.of_N_None_iff in E. lia.
Qed.

Lemma u8_of_Z_of_u8 (b : u8) : u8_of_Z (Z_of_u8 b) = b.
Proof.
  unfold u8_of_Z. rewrite Z.mod_small by apply Z_of_u8_range.
  unfold Z_of_u8. rewrite N2Z.id. by rewrite Byte.of_to_N.
Qed.

#[export] Hint Resolve Z_of_u8_range : vcl.
#[export] Hint Rewrite Z_of_u8_of_Z u8_of_Z_of_u8 : vcl.

Lemma Z_of_u8_inj (a b : u8) : Z_of_u8 a = Z_of_u8 b -> a = b.
Proof. intros H. by rewrite <- (u8_of_Z_of_u8 a), H, u8_of_Z_of_u8. Qed.

Lemma from_be_bytes_range (a b : u8) : 0 <= from_be_bytes a b <= U16_MAX.
Proof.
  unfold from_be_bytes, U16_MAX.
  pose proof (Z_of_u8_range a). pose proof (Z_of_u8_range b). lia.
Qed.

(** Reading back the two bytes [to_be_bytes] wrote gives the number, for
    every u16. *)
Lemma be_bytes_roundtrip (n : Z) :
  is_u16 n -> from_be_bytes (u8_of_Z (n / 256)) (u8_of_Z n) = n.
Proof.
  unfold is_u16, from_be_bytes. intros Hn.
  rewrite !Z_of_u8_of_Z. lia_div.
Qed.

Lemma swap_bytes_involutive (p : Z) : is_u16 p -> swap_bytes (swap_bytes p) = p.
Proof. unfold is_u16, swap_bytes. intros. lia_div. Qed.

Lemma swap_bytes_range (p : Z) : is_u16 p -> is_u16 (swap_bytes p).
Proof. unfold is_u16, swap_bytes. intros. lia_div. Qed.

Lemma from_be_to_be (e : Endian) (p : Z) : is_u16 p -> from_be e (to_be e p) = p.
Proof. intros. destruct e; simpl; auto using swap_bytes_involutive. Qed.

(** In memory [to_be] puts the high byte first, whatever the target. *)
Lemma mem_to_be (e : Endian) (p : Z) :
  is_u16 p -> mem_u16 e (to_be e p) = to_be_bytes p.
Proof.
  unfold is_u16. intros Hp. destruct e; simpl; [|done].
  unfold to_be_bytes, swap_bytes.
  f_equal; [|f_equal]; apply Z_of_u8_inj; rewrite !Z_of_u8_of_Z; lia_div.
Qed.

Lemma u16_try_from_spec (n : Z) :
  0 <= n -> u16_try_from n = if decide (n <= U16_MAX) then Some n else None.
Proof.
  intros. unfold u16_try_from. replace (0 <=? n) with true by (symmetry; lia).
  simpl. case_decide; [by rewrite (proj2 (Z.leb_le _ _)) | by rewrite (proj2 (Z.leb_gt _ _)) by lia].
Qed.

(** ** Lemmas on buffers *)

Section Buffers.
Context {A : Type}.
Implicit Types buf data : list A.

Lemma length_fill buf data : length (fill buf data) = length buf.
Proof. unfold fill. rewrite length_app, length_take, length_drop. lia. Qed.

Lemma take_fill buf data n :
  (n <= length data)%nat -> (length data <= length buf)%nat ->
  take n (fill buf data) = take n data.
Proof.
  intros. unfold fill. rewrite (take_ge data) by lia.
  by rewrite take_app_le by lia.
Qed.

Lemma drop_fill buf data :
  (length data <= length buf)%nat ->
  drop (length data) (fill buf data) = drop (length data) buf.
Proof.
  intros. unfold fill. rewrite (take_ge data) by lia. by rewrite drop_app_length.
Qed.

Lemma fill_nil buf : fill buf [] = buf.
Proof. unfold fill. by rewrite take_nil, drop_0. Qed.

Lemma fill_all buf data : length data = length buf -> fill buf data = data.
Proof. intros H. unfold fill. rewrite take_ge by lia. rewrite drop_ge by lia. by rewrite app_nil_r. Qed.

Lemma len_nonneg (l : list A) : 0 <= len l.
Proof. unfold len. lia. Qed.

Lemma len_app (l k : list A) : len (l ++ k) = len l + len k.
Proof. unfold len. rewrite length_app. lia. Qed.

Lemma len_drop (n : nat) (l : list A) : (n <= length l)%nat -> len (drop n l) = len l - Z.of_nat n.
Proof. unfold len. rewrite length_drop. lia. Qed.
End Buffers.

#[export] Hint Resolve len_nonneg from_be_bytes_range swap_bytes_range : vcl.
#[export] Hint Rewrite @length_fill @len_app : vcl.
