(* ===== verification/Net.v ===== *)
(** * std::net: addresses and their textual form

    The part of the Rust standard library the crate computes with:
    [IpAddr], [SocketAddr], the decimal [Display] of a port and the
    recursive-descent parser behind [str::parse::<SocketAddr>] and
    [str::parse::<IpAddr>].  The parser is the one of [core::net::parser]:
    decimal IPv4 octets of at most three digits without leading zeros,
    hexadecimal IPv6 groups of at most four digits, one [::], an optional
    embedded IPv4 tail, and brackets around the address of an IPv6 socket
    address. *)

From S2P Require Import Prelude.
From Stdlib Require Import Strings.Ascii.

(** [IpAddr]: the octets are the arrays [[u8; 4]] and [[u8; 16]]; [wf_ip]
    is the length their Rust type fixes. *)
Inductive IpAddr : Set :=
| V4 (octets : list u8)
| V6 (octets : list u8).

(** [SocketAddr]: an IPv6 socket address also carries a flow label and a
    scope id. *)
Inductive SocketAddr : Set :=
| SockV4 (ip : list u8) (port : Z)
| SockV6 (ip : list u8) (port flowinfo scope_id : Z).

#[global] Instance IpAddr_eq_dec : EqDecision IpAddr.
Proof. solve_decision. Defined.

#[global] Instance SocketAddr_eq_dec : EqDecision SocketAddr.
Proof. solve_decision. Defined.

Module Sock.
Definition new (ip : IpAddr) (port : Z) : SocketAddr :=
  match ip with V4 o => SockV4 o port | V6 o => SockV6 o port 0 0 end.

Definition ip (a : SocketAddr) : IpAddr :=
  match a with SockV4 o _ => V4 o | SockV6 o _ _ _ => V6 o end.

Definition port (a : SocketAddr) : Z :=
  match a with SockV4 _ p => p | SockV6 _ p _ _ => p end.

Definition is_ipv4 (a : SocketAddr) : bool :=
  match a with SockV4 _ _ => true | SockV6 _ _ _ _ => false end.
End Sock.

Definition ip_is_ipv4 (a : IpAddr) : bool :=
  match a with V4 _ => true | V6 _ => false end.

Definition wf_ip (a : IpAddr) : Prop :=
  match a with V4 o => length o = 4%nat | V6 o => length o = 16%nat end.

Definition wf_addr (a : SocketAddr) : Prop :=
  wf_ip (Sock.ip a) /\ is_u16 (Sock.port a).

Definition IPV4_UNSPECIFIED : IpAddr := V4 (replicate 4 Byte.x00).
Definition IPV6_UNSPECIFIED : IpAddr := V6 (replicate 16 Byte.x00).

(** ** The parser *)

Module Parser.
Definition parser (A : Type) : Type := string -> option (A * string).

Definition digit_of (c : Ascii.ascii) : Z :=
  let n := Z.of_N (Ascii.N_of_ascii c) in
  if (48 <=? n) && (n <=? 57) then n - 48
  else if (97 <=? n) && (n <=? 122) then n - 87
  else if (65 <=? n) && (n <=? 90) then n - 55
  else 255.

(** [char::to_digit]. *)
Definition to_digit (radix : Z) (c : Ascii.ascii) : option Z :=
  let d := digit_of c in if d <? radix then Some d else None.

Definition read_given_char (target : Ascii.ascii) : parser unit := fun s =>
  match s with
  | String c rest => if Ascii.eqb c target then Some (tt, rest) else None
  | EmptyString => None
  end.

(** The digit loop of [read_number]; [None] is the early return taken when
    there are more than [max_digits] digits or the checked arithmetic of the
    unlimited case overflows [tmax]. *)
Fixpoint read_digits (radix : Z) (max_digits : option nat) (tmax acc : Z)
    (count : nat) (s : string) : option (Z * nat * string) :=
  match s with
  | String c rest =>
      match to_digit radix c with
      | Some d =>
          let acc' := acc * radix + d in
          match max_digits with
          | Some m =>
              if (m <? S count)%nat then None
              else read_digits radix max_digits tmax acc' (S count) rest
          | None =>
              if tmax <? acc' then None
              else read_digits radix max_digits tmax acc' (S count) rest
          end
      | None => Some (acc, count, s)
      end
  | EmptyString => Some (acc, count, s)
  end.

Definition starts_with_zero (s : string) : bool :=
  match s with String c _ => Ascii.eqb c "0"%char | EmptyString => false end.

(** [read_number::<T>] where [tmax] is [T::MAX]. *)
Definition read_number (radix : Z) (max_digits : option nat)
    (allow_zero_prefix : bool) (tmax : Z) : parser Z := fun s =>
  match read_digits radix max_digits tmax 0 0 s with
  | Some (v, count, rest) =>
      if (count =? 0)%nat then None
      else if negb allow_zero_prefix && starts_with_zero s && (1 <? count)%nat then None
      else if tmax <? v then None
      else Some (v, rest)
  | None => None
  end.

Definition read_separator {A} (sep : Ascii.ascii) (index : nat) (inner : parser A) : parser A :=
  fun s =>
  match index with
  | O => inner s
  | S _ => match read_given_char sep s with Some (_, s') => inner s' | None => None end
  end.

Definition read_octet (i : nat) : parser Z :=
  read_separator "."%char i (read_number 10 (Some 3%nat) false 255).

Definition read_ipv4_addr : parser (list u8) := fun s =>
  '(a, s) ← read_octet 0 s;
  '(b, s) ← read_octet 1 s;
  '(c, s) ← read_octet 2 s;
  '(d, s) ← read_octet 3 s;
  Some (u8_of_Z <$> [a; b; c; d], s).

Definition group_bytes (gs : list Z) : list u8 := gs ≫= to_be_bytes.

(** [read_groups] into a slice of [left] remaining slots, [i] already
    filled: the groups read, whether an IPv4 tail ended them, and the rest of
    the input. *)
Fixpoint read_groups (left i : nat) (s : string) : list Z * bool * string :=
  match left with
  | O => ([], false, s)
  | S left' =>
      let group :=
        match read_separator ":"%char i (read_number 16 (Some 4%nat) true U16_MAX) s with
        | Some (g, s') => let '(gs, v4, rest) := read_groups left' (S i) s' in (g :: gs, v4, rest)
        | None => ([], false, s)
        end in
      match left' with
      | O => group
      | S _ =>
          match read_separator ":"%char i read_ipv4_addr s with
          | Some ([a; b; c; d], s') => ([from_be_bytes a b; from_be_bytes c d], true, s')
          | _ => group
          end
      end
  end.

Definition read_ipv6_addr : parser (list u8) := fun s =>
  let '(head, head_ipv4, s1) := read_groups 8 0 s in
  let head_size := length head in
  if (head_size =? 8)%nat then Some (group_bytes head, s1)
  else if head_ipv4 then None
  else
    '(_, s2) ← read_given_char ":"%char s1;
    '(_, s3) ← read_given_char ":"%char s2;
    let '(tail, _, s4) := read_groups (8 - (head_size + 1)) 0 s3 in
    let zeros := replicate (8 - head_size - length tail) 0 in
    Some (group_bytes (head ++ zeros ++ tail), s4).

Definition read_ip_addr : parser IpAddr := fun s =>
  match read_ipv4_addr s with
  | Some (o, r) => Some (V4 o, r)
  | None => match read_ipv6_addr s with Some (o, r) => Some (V6 o, r) | None => None end
  end.

Definition read_port : parser Z := fun s =>
  '(_, s) ← read_given_char ":"%char s; read_number 10 None true U16_MAX s.

Definition read_scope_id : parser Z := fun s =>
  '(_, s) ← read_given_char "%"%char s; read_number 10 None true (2 ^ 32 - 1) s.

Definition read_socket_addr_v4 : parser SocketAddr := fun s =>
  '(ip, s) ← read_ipv4_addr s;
  '(port, s) ← read_port s;
  Some (SockV4 ip port, s).

Definition read_socket_addr_v6 : parser SocketAddr := fun s =>
  '(_, s) ← read_given_char "["%char s;
  '(ip, s) ← read_ipv6_addr s;
  let '(scope_id, s) := match read_scope_id s with Some (i, r) => (i, r) | None => (0, s) end in
  '(_, s) ← read_given_char "]"%char s;
  '(port, s) ← read_port s;
  Some (SockV6 ip port 0 scope_id, s).

Definition read_socket_addr : parser SocketAddr := fun s =>
  match read_socket_addr_v4 s with Some r => Some r | None => read_socket_addr_v6 s end.

(** [parse_with]: the whole input must be consumed. *)
Definition parse_with {A} (p : parser A) (s : string) : option A :=
  match p s with Some (a, EmptyString) => Some a | _ => None end.
End Parser.

(** [str::parse::<SocketAddr>] and [str::parse::<IpAddr>]; [None] is an
    [AddrParseError]. *)
Definition parse_socket_addr (s : string) : option SocketAddr :=
  Parser.parse_with Parser.read_socket_addr s.

Definition parse_ip_addr (s : string) : option IpAddr :=
  Parser.parse_with Parser.read_ip_addr s.

(** ** Display of a u16 *)

Definition digit_char (d : Z) : Ascii.ascii := Ascii.ascii_of_N (Z.to_N (48 + d)).

(** The decimal digits of [n] in front of [acc]; five rounds cover a u16. *)
Fixpoint dec_digits (fuel : nat) (n : Z) (acc : string) : string :=
  match fuel with
  | O => acc
  | S fuel' =>
      let acc' := String (digit_char (n mod 10)) acc in
      if n <? 10 then acc' else dec_digits fuel' (n / 10) acc'
  end.

Definition u16_to_string (n : Z) : string := dec_digits 5 n EmptyString.

(** ** Lemmas *)

Example parse_v4_any : parse_ip_addr "0.0.0.0" = Some IPV4_UNSPECIFIED.
Proof. vm_compute. reflexivity. Qed.

Example parse_v6_any : parse_ip_addr "::" = Some IPV6_UNSPECIFIED.
Proof. vm_compute. reflexivity. Qed.

Example parse_v6_doc :
  parse_socket_addr "[2001:db8::1]:53"
  = Some (SockV6 (u8_of_Z <$> [32; 1; 13; 184; 0; 0; 0; 0; 0; 0; 0; 0; 0; 0; 0; 1]) 53 0 0).
Proof. vm_compute. reflexivity. Qed.

Example parse_v6_embedded_v4 :
  parse_ip_addr "::ffff:192.0.2.7"
  = Some (V6 (u8_of_Z <$> [0; 0; 0; 0; 0; 0; 0; 0; 0; 0; 255; 255; 192; 0; 2; 7])).
Proof. vm_compute. reflexivity. Qed.

Example parse_rejects_leading_zero : parse_socket_addr "10.01.0.1:80" = None.
Proof. vm_compute. reflexivity. Qed.

Lemma to_digit_char (d : Z) : 0 <= d < 10 -> Parser.to_digit 10 (digit_char d) = Some d.
Proof.
  intros Hd.
  assert (d = 0 \/ d = 1 \/ d = 2 \/ d = 3 \/ d = 4 \/ d = 5 \/ d = 6 \/ d = 7 \/ d = 8 \/ d = 9)
    as Hc by lia.
  repeat destruct Hc as [->|Hc]; [..|subst d]; reflexivity.
Qed.

(** Reading back what [dec_digits] printed: the digits of [n], read onto an
    accumulator [a], leave [a * 10^k + n] where [k] digits were printed. *)
Lemma read_dec_digits (fuel : nat) (n a tmax : Z) (count : nat) (tail : string) :
  0 <= n < 10 ^ Z.of_nat fuel -> 0 <= a ->
  (0 < fuel)%nat ->
  exists k : nat, (0 < k)%nat /\
    (a * 10 ^ Z.of_nat k + n <= tmax ->
     Parser.read_digits 10 None tmax a count (dec_digits fuel n tail)
     = Parser.read_digits 10 None tmax (a * 10 ^ Z.of_nat k + n) (count + k) tail).
Proof.
  revert n a count tail. induction fuel as [|fuel IH]; intros n a count tail Hn Ha Hf; [lia|].
  simpl. assert (0 <= n mod 10 < 10) as Hm by (apply Z.mod_pos_bound; lia).
  destruct (n <? 10) eqn:E; bool_to_prop.
  - exists 1%nat. split; [lia|]. intros Hb.
    simpl. rewrite to_digit_char by done. rewrite Z.mod_small by lia.
    change (10 ^ Z.of_nat 1) with 10 in Hb |- *.
    replace (tmax <? a * 10 + n) with false by (symmetry; apply Z.ltb_ge; lia).
    f_equal; lia.
  - assert (0 < fuel)%nat as Hf'.
    { destruct fuel; [|lia]. change (10 ^ Z.of_nat 1) with 10 in Hn. lia. }
    rewrite Nat2Z.inj_succ, Z.pow_succ_r in Hn by lia.
    destruct (IH (n / 10) a count (String (digit_char (n mod 10)) tail))
      as (k & Hk & Hread); [lia_div|done|done|].
    exists (S k). split; [lia|]. intros Hb.
    rewrite Nat2Z.inj_succ, Z.pow_succ_r in Hb |- * by lia.
    pose proof (Z.pow_pos_nonneg 10 (Z.of_nat k) ltac:(lia) ltac:(lia)) as Hp.
    assert (n = 10 * (n / 10) + n mod 10) as Hdm by (apply Z.div_mod; lia).
    rewrite Hread by nia.
    simpl. rewrite to_digit_char by done.
    replace ((a * 10 ^ Z.of_nat k + n / 10) * 10 + n mod 10)
      with (a * (10 * 10 ^ Z.of_nat k) + n) by lia.
    replace (tmax <? a * (10 * 10 ^ Z.of_nat k) + n) with false
      by (symmetry; apply Z.ltb_ge; lia).
    f_equal; lia.
Qed.

Lemma read_port_to_string (p : Z) :
  is_u16 p -> Parser.read_port (String ":" (u16_to_string p)) = Some (p, EmptyString).
Proof.
  intros Hp. unfold is_u16 in Hp. unfold Parser.read_port. simpl.
  unfold Parser.read_number, u16_to_string.
  destruct (read_dec_digits 5 p 0 U16_MAX 0 EmptyString) as (k & Hk & Hread);
    [simpl; lia|lia|lia|].
  rewrite Hread by (unfold U16_MAX; lia).
  replace (0 * 10 ^ Z.of_nat k + p) with p by lia.
  cbn [Parser.read_digits Nat.add negb andb].
  replace (k =? 0)%nat with false by (symmetry; apply Nat.eqb_neq; lia).
  replace (U16_MAX <? p) with false by (symmetry; apply Z.ltb_ge; unfold U16_MAX; lia).
  done.
Qed.

(** [format!("0.0.0.0:{port}").parse()] is the wildcard address with that
    port, for every u16. *)
Lemma parse_v4_wildcard (p : Z) :
  is_u16 p ->
  parse_socket_addr ("0.0.0.0:" +:+ u16_to_string p) = Some (SockV4 (replicate 4 Byte.x00) p).
Proof.
  intros Hp. unfold parse_socket_addr, Parser.parse_with, Parser.read_socket_addr.
  unfold Parser.read_socket_addr_v4.
  change ("0.0.0.0:" +:+ u16_to_string p) with ("0.0.0.0" +:+ String ":" (u16_to_string p)).
  assert (Parser.read_ipv4_addr ("0.0.0.0" +:+ String ":" (u16_to_string p))
          = Some (replicate 4 Byte.x00, String ":" (u16_to_string p))) as -> by reflexivity.
  simpl mbind. by rewrite read_port_to_string.
Qed.

(** [format!(":::{port}").parse()] is never an address: the text of an IPv6
    socket address starts with a bracket. *)
Lemma parse_v6_unbracketed (rest : string) : parse_socket_addr (":::" +:+ rest) = None.
Proof. reflexivity. Qed.

(** ** What the parser accepts is well-formed *)

Lemma to_digit_nonneg radix c d : Parser.to_digit radix c = Some d -> 0 <= d.
Proof.
  unfold Parser.to_digit, Parser.digit_of. destruct (_ <? radix); [|done]. intros [= <-].
  repeat case_match; bool_to_prop; lia.
Qed.

Lemma read_digits_nonneg radix m tmax acc count s v n rest :
  0 < radix -> 0 <= acc -> Parser.read_digits radix m tmax acc count s = Some (v, n, rest) -> 0 <= v.
Proof.
  intros Hr. revert acc count. induction s as [|c s IH]; intros acc count Ha; simpl; [by intros [= <- _ _]|].
  destruct (Parser.to_digit radix c) as [d|] eqn:Hd; [|by intros [= <- _ _]].
  apply to_digit_nonneg in Hd. repeat case_match; try done; apply IH; nia.
Qed.

Lemma read_number_range radix m z tmax s v rest :
  0 < radix -> Parser.read_number radix m z tmax s = Some (v, rest) -> 0 <= v <= tmax.
Proof.
  intros Hr. unfold Parser.read_number.
  destruct (Parser.read_digits _ _ _ _ _ _) as [[[v' n] rest']|] eqn:Hd; [|done].
  repeat case_match; try done. intros [= <- <-]. bool_to_prop. split; [|done].
  by eapply read_digits_nonneg in Hd.
Qed.

Lemma read_ipv4_addr_length s o rest : Parser.read_ipv4_addr s = Some (o, rest) -> length o = 4%nat.
Proof.
  unfold Parser.read_ipv4_addr. intros H.
  do 4 (apply bind_Some in H as ([? ?] & _ & H)). by injection H as <- _.
Qed.

Lemma length_group_bytes gs : length (Parser.group_bytes gs) = (2 * length gs)%nat.
Proof. unfold Parser.group_bytes. induction gs as [|g gs IH]; [done|]. csimpl. rewrite IH. lia. Qed.

Lemma read_groups_length left i s gs v4 rest :
  Parser.read_groups left i s = (gs, v4, rest) -> (length gs <= left)%nat.
Proof.
  revert i s gs v4 rest. induction left as [|left IH]; intros i s gs v4 rest; cbn [Parser.read_groups].
  { intros [= <- _ _]. done. }
  set (group := match Parser.read_separator ":" i (Parser.read_number 16 (Some 4%nat) true U16_MAX) s with
    | Some (g, s') => let '(gs, v4, rest) := Parser.read_groups left (S i) s' in (g :: gs, v4, rest)
    | None => ([], false, s) end).
  assert (forall gs v4 rest, group = (gs, v4, rest) -> (length gs <= S left)%nat) as Hgroup.
  { intros gs' v4' rest'. unfold group. destruct (Parser.read_separator _ _ _ _) as [[g s']|]; [|intros [= <- _ _]; simpl; lia].
    destruct (Parser.read_groups left (S i) s') as [[gs1 v1] r1] eqn:Hg. intros [= <- _ _].
    apply IH in Hg. simpl. lia. }
  destruct left as [|left']; [apply Hgroup|].
  destruct (Parser.read_separator ":" i Parser.read_ipv4_addr s) as [[o s']|]; [|apply Hgroup].
  destruct o as [|a [|b [|c [|d [|]]]]]; try apply Hgroup. intros [= <- _ _]. simpl. lia.
Qed.

Lemma read_ipv6_addr_length s o rest : Parser.read_ipv6_addr s = Some (o, rest) -> length o = 16%nat.
Proof.
  unfold Parser.read_ipv6_addr. destruct (Parser.read_groups 8 0 s) as [[hd v4] s1] eqn:Hh.
  apply read_groups_length in Hh. destruct (length hd =? 8)%nat eqn:H8.
  { intros [= <- _]. rewrite length_group_bytes. apply Nat.eqb_eq in H8. lia. }
  apply Nat.eqb_neq in H8. destruct v4; [done|]. intros H.
  apply bind_Some in H as ([? s2] & _ & H). apply bind_Some in H as ([? s3] & _ & H).
  destruct (Parser.read_groups (8 - (length hd + 1)) 0 s3) as [[tl b] s4] eqn:Ht.
  apply read_groups_length in Ht. injection H as <- _.
  rewrite length_group_bytes, !length_app, length_replicate. lia.
Qed.

Lemma read_port_range s p rest : Parser.read_port s = Some (p, rest) -> is_u16 p.
Proof.
  unfold Parser.read_port. intros H. apply bind_Some in H as ([? ?] & _ & H).
  apply read_number_range in H; [|lia]. unfold is_u16, U16_MAX in *. lia.
Qed.

Lemma parse_ip_addr_wf s ip : parse_ip_addr s = Some ip -> wf_ip ip.
Proof.
  unfold parse_ip_addr, Parser.parse_with, Parser.read_ip_addr.
  destruct (Parser.read_ipv4_addr s) as [[o r]|] eqn:H4.
  { destruct r; [|done]. intros [= <-]. by eapply read_ipv4_addr_length. }
  destruct (Parser.read_ipv6_addr s) as [[o r]|] eqn:H6; [|done].
  destruct r; [|done]. intros [= <-]. by eapply read_ipv6_addr_length.
Qed.

(** Every text [SocketAddr]'s parser accepts denotes an address with the
    right number of octets and a 16-bit port. *)
Lemma parse_socket_addr_wf s a : parse_socket_addr s = Some a -> wf_addr a.
Proof.
  unfold parse_socket_addr, Parser.parse_with, Parser.read_socket_addr. intros H.
  destruct (Parser.read_socket_addr_v4 s) as [[a4 r]|] eqn:H4.
  - destruct r; [|done]. injection H as <-. unfold Parser.read_socket_addr_v4 in H4.
    apply bind_Some in H4 as ([ip s1] & Hip & H4). apply bind_Some in H4 as ([p s2] & Hp & H4).
    injection H4 as <- _. split; [by eapply read_ipv4_addr_length|by eapply read_port_range].
  - destruct (Parser.read_socket_addr_v6 s) as [[a6 r]|] eqn:H6; [|done].
    destruct r; [|done]. injection H as <-. unfold Parser.read_socket_addr_v6 in H6.
    apply bind_Some in H6 as ([? s1] & _ & H6). apply bind_Some in H6 as ([ip s2] & Hip & H6).
    destruct (match Parser.read_scope_id s2 with Some (i, r) => (i, r) | None => (0, s2) end) as [sc s3].
    apply bind_Some in H6 as ([? s4] & _ & H6). apply bind_Some in H6 as ([p s5] & Hp & H6).
    injection H6 as <- _. split; [by eapply read_ipv6_addr_length|by eapply read_port_range].
Qed.
