(* ===== verification/Errors.v ===== *)
(** * Error values (src/error.rs)

    [VclError], the classification of libvppcom return codes by
    [VclError::from_rc], and the [std::io::Error] values the tokio traits
    return.  The text of a message is kept as its format string together
    with the values substituted into it: two messages are equal here only
    if the code formats the same values with the same template. *)

From S2P Require Import Prelude Net.

(** The [io::ErrorKind]s the crate builds; [OtherKind] stands for the kinds
    only the operating system produces. *)
Inductive ErrorKind : Set :=
| KUnexpectedEof
| KWouldBlock
| KOther
| OtherKind (k : Z).

Inductive VclError : Set :=
| Api (msg : Message) (rc : Z)
| Io (e : IoError)
| Closed
| NotConnected
| WouldBlock
| Timeout
with Message : Set :=
| Fmt (template : string) (args : list Arg)
with Arg : Set :=
| AText (s : string)
| AInt (z : Z)
| ABool (b : bool)
| AAddr (a : SocketAddr)
| AIp (a : IpAddr)
| AErr (e : VclError)
| AOption (o : option VclError)
| AResult (r : result unit VclError)
| AElapsed (since : Z)
with IoError : Set :=
| IoNew (kind : ErrorKind) (msg : Message).

Definition Lit (s : string) : Message := Fmt s [].

Abbreviation Result A := (result A VclError).

(** libc's errno values on Linux. *)
Definition EPIPE : Z := 32.
Definition EAGAIN : Z := 11.
Definition EWOULDBLOCK : Z := 11.
Definition ECONNRESET : Z := 104.
Definition ENOTCONN : Z := 107.
Definition EINPROGRESS : Z := 115.

Section FromRc.
(** [vppcom_retval_str]: the text libvppcom gives for a return code, [None]
    for a null pointer. *)
Context (vppcom_retval_str : Z -> option string).

Definition vcl_retval_str (rc : Z) : Message :=
  match vppcom_retval_str rc with
  | None => Fmt "unknown error {}" [AInt rc]
  | Some s => Fmt "{}" [AText s]
  end.

Definition from_rc_with (rc : Z) : VclError :=
  if (rc =? - EWOULDBLOCK) || (rc =? - EAGAIN) || (rc =? - EINPROGRESS) then WouldBlock
  else if rc =? - ENOTCONN then NotConnected
  else if (rc =? - ECONNRESET) || (rc =? - EPIPE) then Closed
  else Api (vcl_retval_str rc) rc.
End FromRc.

(** [vcl_to_io] of src/stream.rs. *)
Definition vcl_to_io (e : VclError) : IoError :=
  match e with
  | Closed => IoNew KUnexpectedEof (Lit "VCL session closed")
  | WouldBlock => IoNew KWouldBlock (Lit "VCL would block")
  | other => IoNew KOther (Fmt "{}" [AErr other])
  end.

(** The errors a poll loop retries. *)
Definition retryable (e : VclError) : bool :=
  match e with WouldBlock | NotConnected => true | _ => false end.

(** Case analysis on a return code, one case per errno of [from_rc_with]. *)
Ltac case_rc rc :=
  unfold from_rc_with; change EWOULDBLOCK with EAGAIN;
  destruct (rc =? - EAGAIN) eqn:?; destruct (rc =? - EINPROGRESS) eqn:?;
  destruct (rc =? - ENOTCONN) eqn:?; destruct (rc =? - ECONNRESET) eqn:?;
  destruct (rc =? - EPIPE) eqn:?; bool_to_prop;
  unfold EAGAIN, EINPROGRESS, ENOTCONN, ECONNRESET, EPIPE in *; try lia; simpl.

(** C40. The classification of return codes is exactly the documented one:
    the three in-progress codes read as [WouldBlock], ENOTCONN as
    [NotConnected], ECONNRESET and EPIPE as [Closed], and every other code is
    an [Api] error that carries the code unchanged. *)
Theorem from_rc_classification f rc :
  (from_rc_with f rc = WouldBlock <-> rc = - EWOULDBLOCK \/ rc = - EAGAIN \/ rc = - EINPROGRESS) /\
  (from_rc_with f rc = NotConnected <-> rc = - ENOTCONN) /\
  (from_rc_with f rc = Closed <-> rc = - ECONNRESET \/ rc = - EPIPE) /\
  (from_rc_with f rc = WouldBlock \/ from_rc_with f rc = NotConnected \/
   from_rc_with f rc = Closed \/ exists m, from_rc_with f rc = Api m rc).
Proof.
  case_rc rc; (split_and!; [split; intros; (congruence || lia)..|]); eauto 10.
Qed.
