(* ===== verification/Ffi.v ===== *)
(** * The foreign interface (src/ffi.rs) and the runtime's entry points

    The constants and C structures of ffi.rs, and one constructor of [call]
    per function of its [extern] block.  libvppcom itself, the clock, the
    random generator and the tokio runtime are code outside the repository:
    [call] lists what the crate asks of them, [ret] the type of the answer,
    and World.v leaves the answers to an arbitrary environment. *)

From S2P Require Import Prelude Net Errors.

Definition VPPCOM_PROTO_TCP : Z := 0.
Definition VPPCOM_PROTO_UDP : Z := 1.

(** The [ip] pointer always points at the caller's 16-byte [ip_buf], so the
    field holds the bytes it points at ([None] is the null pointer). *)
Record vppcom_endpt_t : Set := mkEndpt {
  ep_unused : Z;
  ep_is_ip4 : Z;
  ep_ip : option (list u8);
  ep_port : Z;
  ep_unused2 : Z;
  ep_app_tlv_len : Z;
  ep_app_tlvs : option (list u8)
}.

(** [Default for vppcom_endpt_t]. *)
Definition endpt_default : vppcom_endpt_t := mkEndpt 0 1 None 0 0 0 None.

(** [std::mem::size_of::<vppcom_endpt_t>()] on a 64-bit target: two bytes,
    padding to 8, the pointer, the port padded to 8, the u64, the u32 padded
    to 8 and the pointer. *)
Definition sizeof_endpt : Z := 48.

Definition VPPCOM_ATTR_GET_FLAGS : Z := 2.
Definition VPPCOM_ATTR_SET_FLAGS : Z := 3.
Definition VPPCOM_ATTR_GET_LCL_ADDR : Z := 4.
Definition VPPCOM_ATTR_GET_PEER_ADDR : Z := 6.
Definition VPPCOM_ATTR_SET_TCP_NODELAY : Z := 27.

Definition EPOLL_CTL_ADD : Z := 1.
Definition EPOLL_CTL_DEL : Z := 2.
Definition EPOLL_CTL_MOD : Z := 3.

Definition EPOLLIN : Z := 1.
Definition EPOLLOUT : Z := 4.
Definition EPOLLET : Z := Z.shiftl 1 31.
Definition EPOLLHUP : Z := 16.
Definition EPOLLRDHUP : Z := 8192.

Record epoll_event : Set := mkEvent { ev_events : Z; ev_data : Z }.

(** libc's [SHUT_WR]. *)
Definition SHUT_WR : Z := 1.

(** ** The reactor's shared state

    [ReactorInner] of src/reactor.rs: the VCL epoll handle and, per session,
    the identity of the [Arc<Notify>] its waiters share. *)
Record ReactorInner : Set := mkReactor {
  vep : Z;
  waiters : gmap Z nat
}.

(** The branches of the [select!] in [wait_event]. *)
Inductive Branch : Set := BrMq | BrNotified | BrDeadline.

(** [tracing]'s levels the crate uses. *)
Inductive Level : Set := Trace | Debug | Info | Warn.

(** How a pending [await] ends: the task is polled again, or the future it
    belongs to is dropped (a [select!] or [timeout] of the caller gave up on
    it, its task was aborted, the runtime shut down). *)
Inductive Wake : Set := Resumed | Dropped.

(** [tokio::time::MissedTickBehavior]. *)
Inductive MissedTickBehavior : Set := Burst | Delay | Skip.

(** ** Calls out of the crate

    A buffer or array the callee fills is an argument too, with the contents
    it has when the call is made, next to the length passed for it. *)

Inductive call : Set :=
(* extern "C" *)
| vppcom_app_create (app_name : string)
| vppcom_app_destroy
| vppcom_session_create (proto is_nonblocking : Z)
| vppcom_session_close (h : Z)
| vppcom_session_shutdown (h how : Z)
| vppcom_session_bind (h : Z) (ep : vppcom_endpt_t)
| vppcom_session_listen (h q_len : Z)
| vppcom_session_accept (h : Z) (client_ep : vppcom_endpt_t) (flags : Z)
| vppcom_session_connect (h : Z) (server_ep : vppcom_endpt_t)
| vppcom_session_read (h : Z) (buf : list u8) (n : Z)
| vppcom_session_write (h : Z) (buf : list u8) (n : Z)
| vppcom_session_sendto (h : Z) (buf : list u8) (n flags : Z) (ep : vppcom_endpt_t)
| vppcom_session_recvfrom (h : Z) (buf : list u8) (n flags : Z) (ep : vppcom_endpt_t)
| vppcom_session_attr_set (h op value buflen : Z)
| vppcom_session_attr_get (h op : Z) (buffer : vppcom_endpt_t) (buflen : Z)
| vppcom_epoll_create
| vppcom_epoll_ctl (vep_handle op h : Z) (event : option epoll_event)
| vppcom_epoll_wait (vep_handle : Z) (events : list epoll_event) (maxevents wait_for_time : Z)
| vppcom_mq_epoll_fd
| vppcom_worker_register
| vppcom_worker_unregister
| vppcom_worker_index
(* the standard library, rand and tokio *)
| instant_now
| thread_sleep (nanos : Z)
| thread_name
| gen_range (low high : Z)
| spawn_blocking
| spawn_task
| interval_new (period : Z)
| interval_set_missed_tick_behavior (b : MissedTickBehavior)
| async_fd_with_interest (fd : Z)
| notify_new
| notify_one (n : nat)
| poll_notified (n : nat)
| select_order
| poll_mq_readable
| clear_ready
| poll_sleep_until (deadline : Z)
| poll_timeout_zero
| weak_upgrade
| tracing (level : Level) (msg : Message)
| suspend (current : ReactorInner).

(** What each call answers.  A C [int] is a [Z]; a call that fills a buffer
    also returns the bytes it wrote, one that fills an endpoint the endpoint.
    [spawn_blocking] answers the thread the closure runs on, or the text of a
    join error; [thread_name] the current thread's name, if it has one;
    [spawn_task] is [tokio::spawn]; [notify_new] the identity of a fresh
    [Arc<Notify>]; the polls answer whether they are ready; [weak_upgrade]
    whether the reactor is still referenced; [suspend] is the task yielding to
    the runtime at an [await], and answers whether it is polled again and the
    reactor as the other tasks left it. *)
Definition ret (c : call) : Set :=
  match c with
  | vppcom_app_destroy | vppcom_worker_unregister => unit
  | vppcom_session_accept _ _ _ => Z * vppcom_endpt_t
  | vppcom_session_read _ _ _ => Z * list u8
  | vppcom_session_recvfrom _ _ _ _ _ => Z * list u8 * vppcom_endpt_t
  | vppcom_session_attr_get _ _ _ _ => Z * vppcom_endpt_t
  | vppcom_epoll_wait _ _ _ _ => Z * list epoll_event
  | thread_sleep _ | notify_one _ | clear_ready | tracing _ _ | spawn_task | interval_new _
  | interval_set_missed_tick_behavior _ => unit
  | thread_name => option string
  | spawn_blocking => result Z string
  | async_fd_with_interest _ => option IoError
  | notify_new => nat
  | poll_notified _ | poll_sleep_until _ | poll_timeout_zero | weak_upgrade => bool
  | select_order => list Branch
  | poll_mq_readable => option (option IoError)
  | suspend _ => Wake * ReactorInner
  | _ => Z
  end.

(** One interaction: the thread, the call and its answer. *)
Inductive event : Set := Ev (tid : Z) (c : call) (r : ret c).

Definition trace : Set := list event.

(** ** What a trace did to libvppcom's handle pool

    Sessions and epoll sets come from one pool and are both released by
    [vppcom_session_close]. *)

Definition opened_by (e : event) : list Z :=
  match e with
  | Ev _ (vppcom_session_create _ _) rc => if rc <? 0 then [] else [as_u32 rc]
  | Ev _ vppcom_epoll_create rc => if rc <? 0 then [] else [as_u32 rc]
  | Ev _ (vppcom_session_accept _ _ _) (rc, _) => if rc <? 0 then [] else [as_u32 rc]
  | _ => []
  end.

Definition closed_by (e : event) : list Z :=
  match e with Ev _ (vppcom_session_close h) _ => [h] | _ => [] end.

(** The handles a call is made on. *)
Definition used_by (e : event) : list Z :=
  match e with
  | Ev _ (vppcom_session_shutdown h _) _ | Ev _ (vppcom_session_bind h _) _
  | Ev _ (vppcom_session_listen h _) _ | Ev _ (vppcom_session_accept h _ _) _
  | Ev _ (vppcom_session_connect h _) _ | Ev _ (vppcom_session_read h _ _) _
  | Ev _ (vppcom_session_write h _ _) _ | Ev _ (vppcom_session_sendto h _ _ _ _) _
  | Ev _ (vppcom_session_recvfrom h _ _ _ _) _ | Ev _ (vppcom_session_attr_set h _ _ _) _
  | Ev _ (vppcom_session_attr_get h _ _ _) _ => [h]
  | Ev _ (vppcom_epoll_ctl v _ h _) _ => [v; h]
  | Ev _ (vppcom_epoll_wait v _ _ _) _ => [v]
  | _ => []
  end.

Definition opened (l : trace) : list Z := l ≫= opened_by.
Definition closed (l : trace) : list Z := l ≫= closed_by.
Definition used (l : trace) : list Z := l ≫= used_by.

(** Payload moved by successful reads and writes on session [h]. *)
Definition received_by (h : Z) (e : event) : list u8 :=
  match e with
  | Ev _ (vppcom_session_read h' _ _) (rc, data) =>
      if (h' =? h) && (0 <=? rc) then take (Z.to_nat rc) data else []
  | _ => []
  end.

Definition written_by (h : Z) (e : event) : list u8 :=
  match e with
  | Ev _ (vppcom_session_write h' buf _) rc =>
      if (h' =? h) && (0 <=? rc) then take (Z.to_nat rc) buf else []
  | _ => []
  end.

Definition received (h : Z) (l : trace) : list u8 := l ≫= received_by h.
Definition written (h : Z) (l : trace) : list u8 := l ≫= written_by h.

(** The clock readings and random draws of a trace, in order. *)
Definition clock_of (e : event) : list Z :=
  match e with Ev _ instant_now t => [t] | _ => [] end.
Definition clocks (l : trace) : list Z := l ≫= clock_of.

(** The sessions notified, by the identity of their [Notify]. *)
Definition notified_by (e : event) : list nat :=
  match e with Ev _ (notify_one n) _ => [n] | _ => [] end.
Definition notified (l : trace) : list nat := l ≫= notified_by.

(** Endpoints bound on session [h], in order. *)
Definition bound_by (h : Z) (e : event) : list vppcom_endpt_t :=
  match e with
  | Ev _ (vppcom_session_bind h' ep) _ => if h' =? h then [ep] else []
  | _ => []
  end.
Definition bound (h : Z) (l : trace) : list vppcom_endpt_t := l ≫= bound_by h.

(** The epoll events a trace was handed. *)
Definition delivered_by (e : event) : list epoll_event :=
  match e with
  | Ev _ (vppcom_epoll_wait _ _ _ _) (n, evs) => if n <=? 0 then [] else take (Z.to_nat n) evs
  | _ => []
  end.
Definition delivered (l : trace) : list epoll_event := l ≫= delivered_by.

(** An event that neither touches the handle pool nor moves payload: waiting
    on the reactor produces only such events. *)
Definition quiet_event (e : event) : bool :=
  match e with
  | Ev _ (vppcom_epoll_wait _ _ _ _) _ | Ev _ instant_now _ | Ev _ notify_new _
  | Ev _ (notify_one _) _ | Ev _ (poll_notified _) _ | Ev _ select_order _
  | Ev _ poll_mq_readable _ | Ev _ clear_ready _ | Ev _ (poll_sleep_until _) _
  | Ev _ poll_timeout_zero _ | Ev _ (suspend _) _ | Ev _ (tracing _ _) _
  | Ev _ weak_upgrade _ => true
  | _ => false
  end.
Definition quiet (l : trace) : Prop := Forall (fun e => quiet_event e = true) l.

(** ** Ownership of handles

    [pool_run hs l]: the handles owned after [l], starting from the owned
    handles [hs]; [None] if [l] closes a handle it does not own (a second
    close, or a close of a handle it never opened). *)

Fixpoint disown (h : Z) (hs : list Z) : option (list Z) :=
  match hs with
  | [] => None
  | h' :: hs' => if h =? h' then Some hs' else (cons h') <$> disown h hs'
  end.

Definition pool_step (hs : list Z) (e : event) : option (list Z) :=
  match closed_by e with
  | [] => Some (opened_by e ++ hs)
  | h :: _ => disown h hs
  end.

Fixpoint pool_run (hs : list Z) (l : trace) : option (list Z) :=
  match l with
  | [] => Some hs
  | e :: l' => hs' ← pool_step hs e; pool_run hs' l'
  end.

(** A trace that leaves libvppcom's handle pool alone. *)
Definition pool_quiet (l : trace) : Prop := opened l = [] /\ closed l = [].

(** ** Every observation distributes over concatenation *)

Section Distribution.
Implicit Types l k : trace.
Lemma opened_app l k : opened (l ++ k) = opened l ++ opened k.
Proof. apply bind_app. Qed.
Lemma closed_app l k : closed (l ++ k) = closed l ++ closed k.
Proof. apply bind_app. Qed.
Lemma used_app l k : used (l ++ k) = used l ++ used k.
Proof. apply bind_app. Qed.
Lemma received_app h l k : received h (l ++ k) = received h l ++ received h k.
Proof. apply bind_app. Qed.
Lemma written_app h l k : written h (l ++ k) = written h l ++ written h k.
Proof. apply bind_app. Qed.
Lemma clocks_app l k : clocks (l ++ k) = clocks l ++ clocks k.
Proof. apply bind_app. Qed.
Lemma notified_app l k : notified (l ++ k) = notified l ++ notified k.
Proof. apply bind_app. Qed.
Lemma bound_app h l k : bound h (l ++ k) = bound h l ++ bound h k.
Proof. apply bind_app. Qed.
Lemma delivered_app l k : delivered (l ++ k) = delivered l ++ delivered k.
Proof. apply bind_app. Qed.
Lemma quiet_app l k : quiet (l ++ k) <-> quiet l /\ quiet k.
Proof. apply Forall_app. Qed.
Lemma quiet_nil : quiet [].
Proof. constructor. Qed.
End Distribution.

(** A quiet trace opens, closes, binds, reads and writes nothing. *)
Lemma quiet_inert l : quiet l ->
  opened l = [] /\ closed l = [] /\
  forall h, received h l = [] /\ written h l = [] /\ bound h l = [].
Proof.
  induction 1 as [|[t c r] l He Hl IH]; [done|].
  destruct IH as (IHo & IHc & IHh).
  unfold opened, closed, received, written, bound in *. csimpl.
  rewrite IHo, IHc, !app_nil_r.
  split_and!; [by destruct c..|]. intros h. destruct (IHh h) as (-> & -> & ->).
  rewrite !app_nil_r. by destruct c.
Qed.
#[export] Hint Resolve quiet_nil : vcl.

Lemma pool_quiet_app l k : pool_quiet l -> pool_quiet k -> pool_quiet (l ++ k).
Proof. intros [Ho Hc] [Ho' Hc']. split; by rewrite ?opened_app, ?closed_app, ?Ho, ?Hc, ?Ho', ?Hc'. Qed.

Lemma quiet_pool l : quiet l -> pool_quiet l.
Proof. intros (? & ? & _)%quiet_inert. done. Qed.

Lemma pool_run_app hs l k : pool_run hs (l ++ k) = pool_run hs l ≫= fun hs' => pool_run hs' k.
Proof. revert hs. induction l as [|e l IH]; intros hs; [done|]. simpl. destruct (pool_step hs e); simpl; auto. Qed.

Lemma pool_run_quiet hs l : pool_quiet l -> pool_run hs l = Some hs.
Proof.
  unfold pool_quiet, opened, closed. revert hs. induction l as [|e l IH]; intros hs [Ho Hc]; [done|].
  csimpl. apply app_nil in Ho as [Ho Ho'], Hc as [Hc Hc'].
  unfold pool_step. rewrite Ho, Hc. simpl. auto.
Qed.

Lemma disown_app h hs hs' fr : disown h hs = Some hs' -> disown h (hs ++ fr) = Some (hs' ++ fr).
Proof.
  revert hs'. induction hs as [|h' hs IH]; intros hs' Hd; [done|]. simpl in *.
  destruct (h =? h'); [congruence|]. destruct (disown h hs) as [hs1|]; [|done].
  injection Hd as <-. by rewrite (IH hs1).
Qed.

(** Handles owned by somebody else stay owned. *)
Lemma pool_run_frame hs l hs' fr : pool_run hs l = Some hs' -> pool_run (hs ++ fr) l = Some (hs' ++ fr).
Proof.
  revert hs. induction l as [|e l IH]; intros hs Hr; simpl in *; [congruence|].
  destruct (pool_step hs e) as [hs1|] eqn:He; [|done]. simpl in Hr. unfold pool_step in *.
  destruct (closed_by e) as [|h ?].
  - injection He as <-. rewrite app_assoc. simpl. auto.
  - rewrite (disown_app _ _ _ _ He). simpl. auto.
Qed.

(** A piece that starts from nothing runs inside any context. *)
Lemma pool_run_nest l hs fr : pool_run [] l = Some hs -> pool_run fr l = Some (hs ++ fr).
Proof. apply (pool_run_frame []). Qed.

Lemma pool_run_seq a l b k c : pool_run a l = Some b -> pool_run b k = c -> pool_run a (l ++ k) = c.
Proof. intros Hl Hk. by rewrite pool_run_app, Hl. Qed.

Lemma disown_head h hs : disown h (h :: hs) = Some hs.
Proof. simpl. by rewrite Z.eqb_refl. Qed.

Lemma pool_run_close t h hs rc : pool_run (h :: hs) [Ev t (vppcom_session_close h) rc] = Some hs.
Proof. unfold pool_run, pool_step. cbn [closed_by]. by rewrite disown_head. Qed.

#[export] Hint Resolve pool_quiet_app quiet_pool pool_run_quiet pool_run_nest pool_run_close : vcl.

Create Rewrite HintDb trace.
#[export] Hint Rewrite opened_app closed_app used_app received_app written_app
  clocks_app notified_app bound_app delivered_app @app_nil_l @app_nil_r : trace.
