(* ===== verification/World.v ===== *)
(** * The world and the program monad

    Every function of the crate that talks to libvppcom, the clock, the
    random generator or the runtime is a computation of type [M A]: it reads
    and updates a [World], every call it makes is answered by an environment
    [Env] about which nothing is assumed, and every call and answer is
    appended to the world's log.  A computation ends with a value, by
    unwinding (a panic, or its future dropped while it was suspended at an
    [await]), or by exhausting the fuel of one of its loops. *)

From S2P Require Import Prelude Net Errors Ffi.

(** The environment: libvppcom, the operating system, the tokio runtime and
    the other tasks, as an arbitrary state machine that answers calls. *)
Class Env : Type := {
  ext : Type;
  env_step : forall c : call, Z -> ext -> ret c * ext;
  retval_str : Z -> option string;
  endian : Endian
}.

(** [VclError::from_rc], at this environment's [vppcom_retval_str]. *)
Definition from_rc `{Env} (rc : Z) : VclError := from_rc_with retval_str rc.

(** An assumption about answers: [ok c r] says that [r] is an answer the
    documentation of [c] allows. *)
Class EnvSat `{Env} (ok : forall c : call, ret c -> Prop) : Prop :=
  env_sat : forall c t x, ok c (fst (env_step c t x)).

Definition any_answer (c : call) (r : ret c) : Prop := True.

#[global] Instance env_sat_any `{Env} : EnvSat any_answer.
Proof. done. Qed.

(** Why the locals of a computation were dropped before its end. *)
Inductive Cause : Set := Panicked | Cancelled.

Inductive Outcome (A : Type) : Type :=
| Done (a : A)
| Unwound (c : Cause)
| OutOfFuel.

Arguments Done {A} a.
Arguments Unwound {A} c.
Arguments OutOfFuel {A}.

(** The process state the crate's code can read: the statics and
    thread-locals of src/app.rs, the worker's reactor, and the log. *)
Record World `{Env} : Type := mkWorld {
  w_ext : ext;
  w_initialized : bool;
  w_registered : gset Z;
  w_tid : Z;
  w_reactor : ReactorInner;
  w_log : trace
}.

Definition M `{Env} (A : Type) : Type := World -> Outcome A * World.

Section Monad.
Context `{E : Env}.
Implicit Types w : World.

#[global] Instance M_ret : MRet M := fun A a w => (Done a, w).

#[global] Instance M_bind : MBind M := fun A B k m w =>
  match m w with
  | (Done a, w1) => k a w1
  | (Unwound c, w1) => (Unwound c, w1)
  | (OutOfFuel, w1) => (OutOfFuel, w1)
  end.

Definition panic {A} : M A := fun w => (Unwound Panicked, w).
Definition cancelled {A} : M A := fun w => (Unwound Cancelled, w).
Definition out_of_fuel {A} : M A := fun w => (OutOfFuel, w).

(** The [?] operator. *)
Definition try_bind {A B X} (m : M (result A X)) (k : A -> M (result B X)) : M (result B X) :=
  r ← m; match r with Ok a => k a | Err e => mret (Err e) end.

(** A value leaving scope: [cleanup] runs after [m] on every return path, when
    a panic unwinds, and when the future holding the value is dropped. *)
Definition finally {A} (m : M A) (cleanup : M unit) : M A := fun w =>
  match m w with
  | (OutOfFuel, w1) => (OutOfFuel, w1)
  | (o, w1) => (o, snd (cleanup w1))
  end.

(** An owned value that a successful result takes over: [cleanup] runs only
    on an error return and on unwinding. *)
Definition unless_ok {A X} (m : M (result A X)) (cleanup : M unit) : M (result A X) := fun w =>
  match m w with
  | (Done (Ok a), w1) => (Done (Ok a), w1)
  | (OutOfFuel, w1) => (OutOfFuel, w1)
  | (o, w1) => (o, snd (cleanup w1))
  end.

(** [loop { body }]: [inl s] goes round again, [inr r] leaves. *)
Fixpoint loop {St R} (fuel : nat) (body : St -> M (St + R)) (s : St) : M R :=
  match fuel with
  | O => out_of_fuel
  | S fuel' =>
      r ← body s; match r with inl s' => loop fuel' body s' | inr r => mret r end
  end.

(** ** Primitive operations *)

Definition push_event (e : event) w : World :=
  mkWorld _ (w_ext w) (w_initialized w) (w_registered w) (w_tid w) (w_reactor w) (w_log w ++ [e]).

Definition with_ext (x : ext) w : World :=
  mkWorld _ x (w_initialized w) (w_registered w) (w_tid w) (w_reactor w) (w_log w).

Definition with_reactor (r : ReactorInner) w : World :=
  mkWorld _ (w_ext w) (w_initialized w) (w_registered w) (w_tid w) r (w_log w).

Definition with_initialized (b : bool) w : World :=
  mkWorld _ (w_ext w) b (w_registered w) (w_tid w) (w_reactor w) (w_log w).

Definition with_registered (s : gset Z) w : World :=
  mkWorld _ (w_ext w) (w_initialized w) s (w_tid w) (w_reactor w) (w_log w).

Definition with_tid (t : Z) w : World :=
  mkWorld _ (w_ext w) (w_initialized w) (w_registered w) t (w_reactor w) (w_log w).

(** Makes a call: the environment answers, the log records both. *)
Definition do_call (c : call) : M (ret c) := fun w =>
  let '(r, x) := env_step c (w_tid w) (w_ext w) in
  (Done r, push_event (Ev (w_tid w) c r) (with_ext x w)).

Definition gets {A} (f : World -> A) : M A := fun w => (Done (f w), w).
Definition get_reactor : M ReactorInner := gets w_reactor.
Definition set_reactor (r : ReactorInner) : M unit := fun w => (Done tt, with_reactor r w).
Definition set_initialized (b : bool) : M unit := fun w => (Done tt, with_initialized b w).
Definition set_registered (s : gset Z) : M unit := fun w => (Done tt, with_registered s w).

(** Runs [m] on thread [t] and comes back. *)
Definition on_thread {A} (t : Z) (m : M A) : M A := fun w =>
  let '(o, w1) := m (with_tid t w) in (o, with_tid (w_tid w) w1).

(** The task yields at an [await]: the other tasks run and may have changed
    the shared reactor by the time it is polled again, or dropped. *)
Definition yield_now : M unit :=
  r ← get_reactor;
  '(wake, r') ← do_call (suspend r);
  _ ← set_reactor r';
  match wake with Resumed => mret tt | Dropped => cancelled end.

(** [Instant + Duration] panics when the sum leaves the clock's range, the
    i64 seconds of a Linux timespec. Times are nanoseconds. *)
Definition INSTANT_MAX : Z := 2 ^ 63 * 1000000000 - 1.

Definition instant_add (t d : Z) : M Z :=
  if t + d <=? INSTANT_MAX then mret (t + d) else panic.

Definition millis (n : Z) : Z := n * 1000000.
Definition secs (n : Z) : Z := n * 1000000000.
End Monad.

Notation "x '←?' m ; k" := (try_bind m (fun x => k))
  (at level 20, m at level 100, k at level 200, only parsing).
Notation "' x '←?' m ; k" := (try_bind m (fun y => match y with x => k end))
  (at level 20, x pattern, m at level 100, k at level 200, only parsing).

(** ** Reasoning about worlds *)

Section WeakestPrecondition.
Context `{E : Env}.
Implicit Types w : World.

(** [wp m Q w]: running [m] in [w] ends in an outcome and world that satisfy
    [Q]. *)
Definition wp {A} (m : M A) (Q : Outcome A -> World -> Prop) w : Prop :=
  Q (fst (m w)) (snd (m w)).

Lemma wp_mono {A} (m : M A) (P Q : Outcome A -> World -> Prop) w :
  wp m P w -> (forall o w', P o w' -> Q o w') -> wp m Q w.
Proof. unfold wp. auto. Qed.

Lemma wp_ret {A} (a : A) Q w : Q (Done a) w -> wp (mret a) Q w.
Proof. done. Qed.

Lemma wp_bind {A B} (m : M A) (k : A -> M B) Q w :
  wp m (fun o w' => match o with
                    | Done a => wp (k a) Q w'
                    | Unwound c => Q (Unwound c) w'
                    | OutOfFuel => Q OutOfFuel w' end) w ->
  wp (m ≫= k) Q w.
Proof.
  unfold wp, mbind, M_bind. destruct (m w) as [[] ?]; done.
Qed.

Lemma wp_call c Q w :
  (forall r x, env_step c (w_tid w) (w_ext w) = (r, x) ->
     Q (Done r) (push_event (Ev (w_tid w) c r) (with_ext x w))) ->
  wp (do_call c) Q w.
Proof.
  unfold wp, do_call. intros H. destruct (env_step c _ _) as [r x] eqn:He. by apply H.
Qed.

Lemma wp_gets {A} (f : World -> A) Q w : Q (Done (f w)) w -> wp (gets f) Q w.
Proof. done. Qed.

Lemma wp_set_reactor r Q w : Q (Done tt) (with_reactor r w) -> wp (set_reactor r) Q w.
Proof. done. Qed.

Lemma wp_try_bind {A B X} (m : M (result A X)) (k : A -> M (result B X)) Q w :
  wp m (fun o w' => match o with
                    | Done (Ok a) => wp (k a) Q w'
                    | Done (Err e) => Q (Done (Err e)) w'
                    | Unwound c => Q (Unwound c) w'
                    | OutOfFuel => Q OutOfFuel w' end) w ->
  wp (try_bind m k) Q w.
Proof.
  intros H. apply wp_bind. eapply wp_mono; [exact H|]. intros [[]| |] w' Hq; done.
Qed.

(** A call always answers, and a bind continues from the value. *)
Lemma do_call_Done c w : exists r w', do_call c w = (Done r, w').
Proof. unfold do_call. destruct (env_step _ _ _) as [r x]. eauto. Qed.

Lemma bind_Done {A B} (m : M A) (k : A -> M B) w a w1 :
  m w = (Done a, w1) -> (m ≫= k) w = k a w1.
Proof. intros Hm. unfold mbind, M_bind. by rewrite Hm. Qed.

End WeakestPrecondition.

(** One step of a [wp] goal; [wp_go] takes all the steps it can, answering
    every call arbitrarily. *)
Ltac wp_step :=
  lazymatch goal with
  | |- wp (mret _) _ _ => apply wp_ret
  | |- wp (try_bind _ _) _ _ => apply wp_try_bind
  | |- wp (_ ≫= _) _ _ => apply wp_bind
  | |- wp (gets _) _ _ => apply wp_gets
  | |- wp get_reactor _ _ => apply wp_gets
  | |- wp (set_reactor _) _ _ => apply wp_set_reactor
  | |- wp (do_call ?c) ?Q ?w => apply (wp_call c Q w); intros ? ? ?
  end; cbn beta iota.
Ltac wp_go := repeat wp_step.

(** ** Reasoning about traces

    [emits t m Q]: run on thread [t], in any world, [m] appends to the log a
    trace that, with the outcome, satisfies [Q].  Statements of this form
    hold for every environment, or for every environment whose answers
    satisfy the [ok] of an [EnvSat] assumption. *)

Section Emits.
Context `{E : Env}.
Implicit Types w : World.

Definition emits {A} (t : Z) (m : M A) (Q : Outcome A -> trace -> Prop) : Prop :=
  forall w, w_tid w = t ->
    w_tid (snd (m w)) = t /\
    exists l, w_log (snd (m w)) = w_log w ++ l /\ Q (fst (m w)) l.

Lemma emits_mono {A} t (m : M A) (P Q : Outcome A -> trace -> Prop) :
  emits t m P -> (forall o l, P o l -> Q o l) -> emits t m Q.
Proof.
  intros Hm Hpq w Hw. destruct (Hm w Hw) as (Ht & l & Hl & Hp). eauto.
Qed.

Lemma emits_and {A} t (m : M A) (P Q : Outcome A -> trace -> Prop) :
  emits t m P -> emits t m Q -> emits t m (fun o l => P o l /\ Q o l).
Proof.
  intros Hp Hq w Hw. destruct (Hp w Hw) as (Ht & l & Hl & ?).
  destruct (Hq w Hw) as (_ & l' & Hl' & ?). split; [done|]. exists l.
  rewrite Hl in Hl'. apply app_inv_head in Hl' as <-. done.
Qed.

Lemma emits_ret {A} t (a : A) (Q : Outcome A -> trace -> Prop) :
  Q (Done a) [] -> emits t (mret a) Q.
Proof. intros HQ w Hw. split; [done|]. exists []. rewrite app_nil_r. split; [done|apply HQ]. Qed.

Lemma emits_panic {A} t (Q : Outcome A -> trace -> Prop) : Q (Unwound Panicked) [] -> emits t panic Q.
Proof. intros HQ w Hw. split; [done|]. exists []. rewrite app_nil_r. split; [done|apply HQ]. Qed.

Lemma emits_cancelled {A} t (Q : Outcome A -> trace -> Prop) :
  Q (Unwound Cancelled) [] -> emits t cancelled Q.
Proof. intros HQ w Hw. split; [done|]. exists []. rewrite app_nil_r. split; [done|apply HQ]. Qed.

Lemma emits_bind {A B} t (m : M A) (k : A -> M B) (Q : Outcome B -> trace -> Prop) :
  emits t m (fun o l => match o with
                        | Done a => emits t (k a) (fun o' l' => Q o' (l ++ l'))
                        | Unwound c => Q (Unwound c) l
                        | OutOfFuel => Q OutOfFuel l end) ->
  emits t (m ≫= k) Q.
Proof.
  intros Hm w Hw. destruct (Hm w Hw) as (Ht & l & Hl & HQ).
  unfold mbind, M_bind. destruct (m w) as [[a|c|] w1] eqn:Hmw; simpl in *; [|eauto..].
  destruct (HQ w1 Ht) as (Ht' & l' & Hl' & HQ'). split; [done|].
  exists (l ++ l'). split; [by rewrite Hl', Hl, app_assoc | done].
Qed.

Lemma emits_try_bind {A B X} t (m : M (result A X)) (k : A -> M (result B X))
    (Q : Outcome (result B X) -> trace -> Prop) :
  emits t m (fun o l => match o with
                        | Done (Ok a) => emits t (k a) (fun o' l' => Q o' (l ++ l'))
                        | Done (Err e) => Q (Done (Err e)) l
                        | Unwound c => Q (Unwound c) l
                        | OutOfFuel => Q OutOfFuel l end) ->
  emits t (try_bind m k) Q.
Proof.
  intros Hm. apply emits_bind. eapply emits_mono; [exact Hm|].
  intros [[]| |] l H; try done; apply emits_ret; by rewrite app_nil_r.
Qed.

Lemma emits_call (ok : forall c, ret c -> Prop) `{!EnvSat ok} t c
    (Q : Outcome (ret c) -> trace -> Prop) :
  (forall r, ok c r -> Q (Done r) [Ev t c r]) -> emits t (do_call c) Q.
Proof.
  intros HQ w Hw. unfold do_call. pose proof (env_sat c (w_tid w) (w_ext w)) as Hok.
  destruct (env_step c (w_tid w) (w_ext w)) as [r x]; simpl in *. subst t.
  split; [done|]. eexists. split; [done|]. by apply HQ.
Qed.

Lemma emits_gets {A} t (f : World -> A) (Q : Outcome A -> trace -> Prop) :
  (forall a, Q (Done a) []) -> emits t (gets f) Q.
Proof. intros HQ w Hw. split; [done|]. exists []. rewrite app_nil_r. split; [done|apply HQ]. Qed.

Lemma emits_set_reactor t r (Q : Outcome unit -> trace -> Prop) :
  Q (Done tt) [] -> emits t (set_reactor r) Q.
Proof. intros HQ w Hw. split; [done|]. exists []. rewrite app_nil_r. split; [done|apply HQ]. Qed.

Lemma emits_set_initialized t b (Q : Outcome unit -> trace -> Prop) :
  Q (Done tt) [] -> emits t (set_initialized b) Q.
Proof. intros HQ w Hw. split; [done|]. exists []. rewrite app_nil_r. split; [done|apply HQ]. Qed.

Lemma emits_set_registered t s (Q : Outcome unit -> trace -> Prop) :
  Q (Done tt) [] -> emits t (set_registered s) Q.
Proof. intros HQ w Hw. split; [done|]. exists []. rewrite app_nil_r. split; [done|apply HQ]. Qed.

Lemma emits_on_thread {A} t t' (m : M A) (Q : Outcome A -> trace -> Prop) :
  emits t' m Q -> emits t (on_thread t' m) Q.
Proof.
  intros Hm w Hw. unfold on_thread. destruct (Hm (with_tid t' w) eq_refl) as (_ & l & Hl & HQ).
  destruct (m (with_tid t' w)) as [o w1]; simpl in *. eauto.
Qed.

Lemma emits_finally {A} t (m : M A) (cleanup : M unit) (Q : Outcome A -> trace -> Prop) :
  emits t m (fun o l => match o with
                        | OutOfFuel => Q OutOfFuel l
                        | _ => emits t cleanup (fun _ l' => Q o (l ++ l')) end) ->
  emits t (finally m cleanup) Q.
Proof.
  intros Hm w Hw. destruct (Hm w Hw) as (Ht & l & Hl & HQ). unfold finally.
  destruct (m w) as [[a|c|] w1] eqn:Hmw; simpl in *; [..|eauto];
  destruct (HQ w1 Ht) as (Ht' & l' & Hl' & HQ'); split; try done;
  exists (l ++ l'); (split; [by rewrite Hl', Hl, app_assoc | done]).
Qed.

Lemma emits_unless_ok {A X} t (m : M (result A X)) (cleanup : M unit)
    (Q : Outcome (result A X) -> trace -> Prop) :
  emits t m (fun o l => match o with
                        | OutOfFuel => Q OutOfFuel l
                        | Done (Ok a) => Q (Done (Ok a)) l
                        | _ => emits t cleanup (fun _ l' => Q o (l ++ l')) end) ->
  emits t (unless_ok m cleanup) Q.
Proof.
  intros Hm w Hw. destruct (Hm w Hw) as (Ht & l & Hl & HQ). unfold unless_ok.
  destruct (m w) as [[[a|e]| |] w1] eqn:Hmw; simpl in *; [eauto|..|eauto];
  destruct (HQ w1 Ht) as (Ht' & l' & Hl' & HQ'); split; try done;
  exists (l ++ l'); (split; [by rewrite Hl', Hl, app_assoc | done]).
Qed.

(** Invariant rule: [I s l] holds of the loop state and the trace emitted by
    the rounds so far. *)
Lemma emits_loop {S R} (I : S -> trace -> Prop) (Q : Outcome R -> trace -> Prop)
    t fuel (body : S -> M (S + R)) s :
  I s [] ->
  (forall s l, I s l ->
     emits t (body s) (fun o l' => match o with
                                   | Done (inl s') => I s' (l ++ l')
                                   | Done (inr r) => Q (Done r) (l ++ l')
                                   | Unwound c => Q (Unwound c) (l ++ l')
                                   | OutOfFuel => Q OutOfFuel (l ++ l') end)) ->
  (forall s l, I s l -> Q OutOfFuel l) ->
  emits t (loop fuel body s) Q.
Proof.
  intros Hi Hbody Hoof.
  assert (forall fuel s l, I s l -> emits t (loop fuel body s) (fun o l' => Q o (l ++ l')))
    as Hgen.
  { clear s Hi fuel. induction fuel as [|fuel IH]; intros s l Hi.
    - intros w Hw. split; [done|]. exists []. rewrite !app_nil_r. eauto.
    - simpl. apply emits_bind. eapply emits_mono; [by apply Hbody|].
      intros [[s'|r]| |] l' Hq; try done.
      + eapply emits_mono; [by apply IH|]. intros o l''. by rewrite app_assoc.
      + apply emits_ret. by rewrite app_nil_r. }
  eapply emits_mono; [by apply Hgen|]. done.
Qed.

(** The rule for total correctness: a variant that decreases each round
    bounds the rounds, so enough fuel never runs out. *)
Lemma emits_loop_total {S R} (I : S -> trace -> Prop) (mu : S -> nat) (Q : Outcome R -> trace -> Prop)
    t fuel (body : S -> M (S + R)) s :
  I s [] -> (mu s < fuel)%nat ->
  (forall s l, I s l ->
     emits t (body s) (fun o l' => match o with
                                   | Done (inl s') => I s' (l ++ l') /\ (mu s' < mu s)%nat
                                   | Done (inr r) => Q (Done r) (l ++ l')
                                   | Unwound c => Q (Unwound c) (l ++ l')
                                   | OutOfFuel => Q OutOfFuel (l ++ l') end)) ->
  emits t (loop fuel body s) Q.
Proof.
  intros Hi Hmu Hbody.
  assert (forall fuel s l, I s l -> (mu s < fuel)%nat ->
    emits t (loop fuel body s) (fun o l' => Q o (l ++ l'))) as Hgen.
  { clear s Hi fuel Hmu. induction fuel as [|fuel IH]; intros s l Hi Hmu; [lia|].
    simpl. apply emits_bind. eapply emits_mono; [by apply Hbody|].
    intros [[s'|r]| |] l' Hq; try done.
    - destruct Hq as [Hi' Hlt]. eapply emits_mono; [apply IH; [exact Hi'|lia]|].
      intros o l''. by rewrite app_assoc.
    - apply emits_ret. by rewrite app_nil_r. }
  eapply emits_mono; [by apply Hgen|]. done.
Qed.

(** A trace statement at a concrete run. *)
Lemma emits_run {A} t (m : M A) Q w o w' :
  emits t m Q -> w_tid w = t -> m w = (o, w') ->
  exists l, w_log w' = w_log w ++ l /\ Q o l.
Proof. intros Hm Hw Hr. destruct (Hm w Hw) as (_ & Hl). by rewrite Hr in Hl. Qed.
End Emits.

(** Answers a call with anything [ok] allows. *)
Ltac call_with ok :=
  lazymatch goal with
  | |- emits ?t (do_call ?c) ?Q => apply (emits_call ok t c Q)
  end.

(** Steps through a computation with the rules above, leaving the calls and
    the loops. *)
Ltac emits_pure :=
  lazymatch goal with
  | |- emits _ (mret _) _ => apply emits_ret
  | |- emits _ panic _ => apply emits_panic
  | |- emits _ cancelled _ => apply emits_cancelled
  | |- emits _ (try_bind _ _) _ => apply emits_try_bind
  | |- emits _ (_ ≫= _) _ => apply emits_bind
  | |- emits _ (gets _) _ => apply emits_gets; intros ?
  | |- emits _ get_reactor _ => apply emits_gets; intros ?
  | |- emits _ (set_reactor _) _ => apply emits_set_reactor
  | |- emits _ (set_initialized _) _ => apply emits_set_initialized
  | |- emits _ (set_registered _) _ => apply emits_set_registered
  | |- emits _ (finally _ _) _ => apply emits_finally
  | |- emits _ (unless_ok _ _) _ => apply emits_unless_ok
  | |- emits _ (on_thread _ _) _ => apply emits_on_thread
  | |- emits _ (if ?b then _ else _) _ => destruct b eqn:?
  | |- emits _ (match ?x with _ => _ end) _ => destruct x eqn:?
  end.

(** The same, answering every call arbitrarily. *)
Ltac emits_go :=
  repeat first
    [ emits_pure
    | call_with any_answer; intros ? _ ];
  cbn beta iota.

(** ** Computations that leave the crate's own state alone

    [keeps m]: [m] may call out, but it changes neither the reactor nor the
    statics, nor the thread. *)

Section Keeps.
Context `{E : Env}.

Definition same_state (w w' : World) : Prop :=
  w_reactor w' = w_reactor w /\ w_registered w' = w_registered w /\
  w_initialized w' = w_initialized w /\ w_tid w' = w_tid w.

#[global] Instance same_state_preorder : PreOrder same_state.
Proof.
  split; [by intros ?|]. unfold same_state. intros w1 w2 w3 (?&?&?&?) (?&?&?&?).
  split_and!; congruence.
Qed.

Definition keeps {A} (m : M A) : Prop := forall w, same_state w (m w).2.

Lemma keeps_ret {A} (a : A) : keeps (mret a).
Proof. by intros w. Qed.

Lemma keeps_panic {A} : keeps (panic : M A).
Proof. by intros w. Qed.

Lemma keeps_gets {A} (f : World -> A) : keeps (gets f).
Proof. by intros w. Qed.

Lemma keeps_call c : keeps (do_call c).
Proof. intros w. unfold do_call. by destruct (env_step _ _ _). Qed.

Lemma keeps_bind {A B} (m : M A) (k : A -> M B) :
  keeps m -> (forall a, keeps (k a)) -> keeps (m ≫= k).
Proof.
  intros Hm Hk w. specialize (Hm w). unfold mbind, M_bind.
  destruct (m w) as [[a|c|] w1]; simpl in *; [|done..]. etrans; [exact Hm|]. apply Hk.
Qed.

Lemma keeps_loop {St R} fuel (body : St -> M (St + R)) s :
  (forall s, keeps (body s)) -> keeps (loop fuel body s).
Proof.
  intros Hb. revert s. induction fuel as [|fuel IH]; intros s; [by intros w|].
  simpl. apply keeps_bind; [done|]. intros [s'|r]; [apply IH|apply keeps_ret].
Qed.
End Keeps.

Create HintDb keeps.
#[export] Hint Resolve keeps_ret keeps_panic keeps_gets keeps_bind keeps_loop : keeps.
#[export] Hint Extern 0 (keeps (do_call ?c)) => exact (keeps_call c) : keeps.
