(* ===== verification/Sim.v ===== *)
(** * Concrete environments

    An environment that answers the [n]-th call it receives from a script.
    The witnesses of the development run the modelled code in such
    environments; no theorem about the code depends on them. *)

From S2P Require Import Prelude Net Errors Ffi World.

Definition script : Type := nat -> forall c : call, ret c.

(** The environment's state is the number of calls answered so far. *)
Definition scripted (s : script) : Env := {|
  ext := nat;
  env_step := fun c _ n => (s n c, S n);
  retval_str := fun _ => None;
  endian := Little
|}.

(** Success with no data, an answer of the right type for every call. *)
Definition default_ret (c : call) : ret c :=
  match c with
  | vppcom_app_destroy => tt
  | vppcom_worker_unregister => tt
  | vppcom_session_accept _ ep _ => (0, ep)
  | vppcom_session_read _ _ _ => (0, [])
  | vppcom_session_recvfrom _ _ _ _ ep => (0, [], ep)
  | vppcom_session_attr_get _ _ ep _ => (0, ep)
  | vppcom_epoll_wait _ _ _ _ => (0, [])
  | thread_sleep _ => tt
  | notify_one _ => tt
  | clear_ready => tt
  | tracing _ _ => tt
  | spawn_task => tt
  | interval_new _ => tt
  | interval_set_missed_tick_behavior _ => tt
  | thread_name => None
  | spawn_blocking => Ok 7
  | async_fd_with_interest _ => None
  | notify_new => 0%nat
  | poll_notified _ => false
  | poll_sleep_until _ => false
  | poll_timeout_zero => true
  | weak_upgrade => true
  | select_order => [BrMq; BrNotified; BrDeadline]
  | poll_mq_readable => None
  | suspend r => (Resumed, r)
  | gen_range low _ => low
  | _ => 0
  end.

(** A process that has made no call yet, on thread [t], with a reactor whose
    epoll handle is 100. *)
Definition fresh_world (s : script) (t : Z) : @World (scripted s) :=
  @mkWorld (scripted s) 0%nat false ∅ t (mkReactor 100 ∅) [].
