(* ===== verification/Session.v ===== *)
(** * Session handles and endpoint marshalling (src/session.rs)

    [SessionHandle] is the u32 libvppcom gave out.  Each method is one
    foreign call whose negative return code becomes an error; [Drop] closes
    the handle.  [endpoint_into_buf] and [addr_from_endpoint] convert between
    [SocketAddr] and the C endpoint structure. *)

From S2P Require Import Prelude Net Errors Ffi World.

Section Endpoint.
Context (e : Endian).

(** The endpoint and the caller's buffer after the octets were copied into
    it; the endpoint's [ip] points at that buffer. *)
Definition endpoint_into_buf_at (addr : SocketAddr) (ip_buf : list u8) : vppcom_endpt_t * list u8 :=
  let '(is_ip4, ip_buf) :=
    match Sock.ip addr with
    | V4 octets => (1, fill ip_buf octets)
    | V6 octets => (0, fill ip_buf octets)
    end in
  (mkEndpt 0 is_ip4 (Some ip_buf) (to_be e (Sock.port addr)) 0 0 None, ip_buf).

Definition addr_from_endpoint_at (ep : vppcom_endpt_t) (ip_buf : list u8) : SocketAddr :=
  let port := from_be e (ep_port ep) in
  if negb (ep_is_ip4 ep =? 0) then Sock.new (V4 (take 4 ip_buf)) port
  else Sock.new (V6 ip_buf) port.
End Endpoint.

(** [[0u8; 16]]. *)
Definition zero_ip_buf : list u8 := replicate 16 Byte.x00.

(** [vppcom_endpt_t { ip: ip_buf.as_mut_ptr(), ..Default::default() }]. *)
Definition endpt_for (ip_buf : list u8) : vppcom_endpt_t :=
  let d := endpt_default in
  mkEndpt (ep_unused d) (ep_is_ip4 d) (Some ip_buf) (ep_port d) (ep_unused2 d) (ep_app_tlv_len d) (ep_app_tlvs d).

(** The caller's buffer after a call that may have written through the
    endpoint's pointer. *)
Definition ip_buf_after (ep : vppcom_endpt_t) (ip_buf : list u8) : list u8 :=
  match ep_ip ep with Some b => b | None => ip_buf end.

Module SessionHandle.
Section SessionHandle.
Context `{E : Env}.

Definition endpoint_into_buf : SocketAddr -> list u8 -> vppcom_endpt_t * list u8 :=
  endpoint_into_buf_at endian.

Definition addr_from_endpoint : vppcom_endpt_t -> list u8 -> SocketAddr :=
  addr_from_endpoint_at endian.

Definition create_tcp (nonblocking : bool) : M (Result Z) :=
  rc ← do_call (vppcom_session_create VPPCOM_PROTO_TCP (bool_as_u8 nonblocking));
  if rc <? 0 then mret (Err (from_rc rc)) else mret (Ok (as_u32 rc)).

Definition create_udp (nonblocking : bool) : M (Result Z) :=
  rc ← do_call (vppcom_session_create VPPCOM_PROTO_UDP (bool_as_u8 nonblocking));
  if rc <? 0 then mret (Err (from_rc rc)) else mret (Ok (as_u32 rc)).

Definition close (h : Z) : M (Result unit) :=
  rc ← do_call (vppcom_session_close h);
  if rc <? 0 then mret (Err (from_rc rc)) else mret (Ok tt).

Definition bind (h : Z) (addr : SocketAddr) : M (Result unit) :=
  let '(ep, _) := endpoint_into_buf addr zero_ip_buf in
  rc ← do_call (vppcom_session_bind h ep);
  if rc <? 0 then mret (Err (from_rc rc)) else mret (Ok tt).

Definition listen (h backlog : Z) : M (Result unit) :=
  rc ← do_call (vppcom_session_listen h backlog);
  if rc <? 0 then mret (Err (from_rc rc)) else mret (Ok tt).

Definition accept (h : Z) : M (Result (Z * SocketAddr)) :=
  let ip_buf := zero_ip_buf in
  '(rc, ep) ← do_call (vppcom_session_accept h (endpt_for ip_buf) 0);
  if rc <? 0 then mret (Err (from_rc rc))
  else mret (Ok (as_u32 rc, addr_from_endpoint ep (ip_buf_after ep ip_buf))).

Definition connect (h : Z) (addr : SocketAddr) : M (Result unit) :=
  let '(ep, _) := endpoint_into_buf addr zero_ip_buf in
  rc ← do_call (vppcom_session_connect h ep);
  if rc <? 0 then mret (Err (from_rc rc)) else mret (Ok tt).

(** The byte count and the buffer as the call left it. *)
Definition read (h : Z) (buf : list u8) : M (Result Z * list u8) :=
  '(rc, data) ← do_call (vppcom_session_read h buf (len buf));
  let buf := fill buf data in
  if rc <? 0 then mret (Err (from_rc rc), buf) else mret (Ok rc, buf).

Definition write (h : Z) (buf : list u8) : M (Result Z) :=
  rc ← do_call (vppcom_session_write h buf (len buf));
  if rc <? 0 then mret (Err (from_rc rc)) else mret (Ok rc).

Definition recvfrom (h : Z) (buf : list u8) : M (Result (Z * SocketAddr) * list u8) :=
  let ip_buf := zero_ip_buf in
  '(rc, data, ep) ← do_call (vppcom_session_recvfrom h buf (as_u32 (len buf)) 0 (endpt_for ip_buf));
  let buf := fill buf data in
  if rc <? 0 then mret (Err (from_rc rc), buf)
  else mret (Ok (rc, addr_from_endpoint ep (ip_buf_after ep ip_buf)), buf).

Definition sendto (h : Z) (buf : list u8) (dst : SocketAddr) : M (Result Z) :=
  let '(ep, _) := endpoint_into_buf dst zero_ip_buf in
  rc ← do_call (vppcom_session_sendto h buf (as_u32 (len buf)) 0 ep);
  if rc <? 0 then mret (Err (from_rc rc)) else mret (Ok rc).

Definition set_nodelay (h : Z) : M (Result unit) :=
  rc ← do_call (vppcom_session_attr_set h VPPCOM_ATTR_SET_TCP_NODELAY 1 4);
  if rc <? 0 then mret (Err (from_rc rc)) else mret (Ok tt).

(** [0o4000]. *)
Definition O_NONBLOCK : Z := 2048.

Definition set_nonblocking (h : Z) : M (Result unit) :=
  rc ← do_call (vppcom_session_attr_set h VPPCOM_ATTR_SET_FLAGS O_NONBLOCK 4);
  if rc <? 0 then mret (Err (from_rc rc)) else mret (Ok tt).

Definition local_addr (h : Z) : M (Result SocketAddr) :=
  let ip_buf := zero_ip_buf in
  '(rc, ep) ← do_call (vppcom_session_attr_get h VPPCOM_ATTR_GET_LCL_ADDR (endpt_for ip_buf) sizeof_endpt);
  if rc <? 0 then mret (Err (from_rc rc))
  else mret (Ok (addr_from_endpoint ep (ip_buf_after ep ip_buf))).

Definition peer_addr (h : Z) : M (Result SocketAddr) :=
  let ip_buf := zero_ip_buf in
  '(rc, ep) ← do_call (vppcom_session_attr_get h VPPCOM_ATTR_GET_PEER_ADDR (endpt_for ip_buf) sizeof_endpt);
  if rc <? 0 then mret (Err (from_rc rc))
  else mret (Ok (addr_from_endpoint ep (ip_buf_after ep ip_buf))).

(** [impl Drop for SessionHandle]. *)
Definition drop (h : Z) : M unit :=
  _ ← do_call (vppcom_session_close h); mret tt.
End SessionHandle.
End SessionHandle.

(** ** Marshalling *)

(** An address without the fields a C endpoint cannot carry. *)
Definition without_scope (a : SocketAddr) : SocketAddr :=
  Sock.new (Sock.ip a) (Sock.port a).

Section Marshalling.
Variable e : Endian.

Lemma endpoint_into_from (a : SocketAddr) (ip_buf : list u8) :
  wf_addr a -> length ip_buf = 16%nat ->
  let '(ep, buf) := endpoint_into_buf_at e a ip_buf in
  addr_from_endpoint_at e ep buf = without_scope a.
Proof.
  intros [Hip Hport] Hlen. unfold endpoint_into_buf_at, addr_from_endpoint_at, without_scope.
  destruct a as [o p|o p fl sc]; simpl in *; rewrite from_be_to_be by done.
  - f_equal. rewrite take_fill by lia. by rewrite take_ge by lia.
  - f_equal. apply fill_all. lia.
Qed.

(** C33. Marshalling an address into a C endpoint and back gives the same
    family, octets and port on either byte order, whatever the 16-byte buffer
    held before; only the flow label and scope id of an IPv6 address are
    lost. *)
Theorem endpoint_roundtrip (a : SocketAddr) (ip_buf : list u8) :
  wf_addr a -> length ip_buf = 16%nat ->
  let '(ep, buf) := endpoint_into_buf_at e a ip_buf in
  addr_from_endpoint_at e ep buf = without_scope a.
Proof. apply endpoint_into_from. Qed.

(** C34. The endpoint handed to libvppcom holds the port in network byte
    order in memory, the family flag of the address, and points at the
    address's octets; an IPv4 address leaves the last twelve bytes of the
    buffer alone. *)
Theorem endpoint_wire_format (a : SocketAddr) (ip_buf : list u8) :
  wf_addr a -> length ip_buf = 16%nat ->
  let '(ep, buf) := endpoint_into_buf_at e a ip_buf in
  mem_u16 e (ep_port ep) = to_be_bytes (Sock.port a) /\
  ep_ip ep = Some buf /\ length buf = 16%nat /\
  match Sock.ip a with
  | V4 o => ep_is_ip4 ep = 1 /\ take 4 buf = o /\ drop 4 buf = drop 4 ip_buf
  | V6 o => ep_is_ip4 ep = 0 /\ buf = o
  end.
Proof.
  intros [Hip Hport] Hlen. unfold endpoint_into_buf_at.
  destruct a as [o p|o p fl sc]; simpl in *; rewrite mem_to_be, length_fill by done;
    split_and!; try done.
  - rewrite take_fill by lia. by rewrite take_ge by lia.
  - rewrite <- Hip at 1. rewrite drop_fill by lia. by rewrite Hip.
  - apply fill_all. lia.
Qed.
End Marshalling.

Lemma endpoint_roundtrip_witness :
  let a := SockV6 (u8_of_Z <$> [32; 1; 13; 184; 0; 0; 0; 0; 0; 0; 0; 0; 0; 0; 0; 1]) 53 7 3 in
  let '(ep, buf) := endpoint_into_buf_at Little a (replicate 16 Byte.xff) in
  addr_from_endpoint_at Little ep buf = without_scope a.
Proof.
  apply (endpoint_roundtrip Little); [split; [reflexivity|split; reflexivity || done]|reflexivity].
Defined.

Lemma endpoint_wire_format_witness :
  let a := SockV4 (u8_of_Z <$> [203; 0; 113; 9]) 65000 in
  let '(ep, buf) := endpoint_into_buf_at Little a zero_ip_buf in
  mem_u16 Little (ep_port ep) = to_be_bytes 65000 /\
  ep_ip ep = Some buf /\ length buf = 16%nat /\
  (ep_is_ip4 ep = 1 /\ take 4 buf = u8_of_Z <$> [203; 0; 113; 9] /\ drop 4 buf = drop 4 zero_ip_buf).
Proof.
  apply (endpoint_wire_format Little (SockV4 (u8_of_Z <$> [203; 0; 113; 9]) 65000));
    [split; [reflexivity|split; done]|reflexivity].
Defined.

(** ** Traces of the operations

    Every method makes exactly one foreign call, on its own handle, and
    reports an error exactly when the return code is negative. *)

(** One call, its answer destructed into [n] components, then the sign test
    on the return code. *)
Tactic Notation "session_call" constr(ok) integer(n) :=
  apply emits_bind; call_with ok;
  let r := fresh "r" in let Hok := fresh "Hok" in let Hb := fresh "Hb" in
  intros r Hok; cbn [ret] in r;
  repeat match goal with p : (_ * _)%type |- _ => destruct p end;
  cbn beta iota zeta;
  lazymatch goal with |- emits _ (if ?b then _ else _) _ => destruct b eqn:Hb end;
  apply emits_ret; do n eexists;
  (split_and!; [exact Hok|reflexivity|by rewrite Hb]).

Section SessionTraces.
Context `{E : Env} (ok : forall c, ret c -> Prop) `{!EnvSat ok}.
Variable t : Z.

Lemma create_tcp_emits nb :
  emits t (SessionHandle.create_tcp nb) (fun o l => exists rc : Z,
    let c := vppcom_session_create VPPCOM_PROTO_TCP (bool_as_u8 nb) in
    ok c rc /\ l = [Ev t c rc] /\
    o = Done (if rc <? 0 then Err (from_rc rc) else Ok (as_u32 rc))).
Proof. session_call ok 1. Qed.

Lemma create_udp_emits nb :
  emits t (SessionHandle.create_udp nb) (fun o l => exists rc : Z,
    let c := vppcom_session_create VPPCOM_PROTO_UDP (bool_as_u8 nb) in
    ok c rc /\ l = [Ev t c rc] /\
    o = Done (if rc <? 0 then Err (from_rc rc) else Ok (as_u32 rc))).
Proof. session_call ok 1. Qed.

Lemma bind_emits h a :
  emits t (SessionHandle.bind h a) (fun o l => exists rc : Z,
    let c := vppcom_session_bind h (fst (SessionHandle.endpoint_into_buf a zero_ip_buf)) in
    ok c rc /\ l = [Ev t c rc] /\
    o = Done (if rc <? 0 then Err (from_rc rc) else Ok tt)).
Proof.
  unfold SessionHandle.bind. destruct (SessionHandle.endpoint_into_buf a zero_ip_buf) as [ep b].
  session_call ok 1.
Qed.

Lemma listen_emits h n :
  emits t (SessionHandle.listen h n) (fun o l => exists rc : Z,
    let c := vppcom_session_listen h n in
    ok c rc /\ l = [Ev t c rc] /\
    o = Done (if rc <? 0 then Err (from_rc rc) else Ok tt)).
Proof. session_call ok 1. Qed.

Lemma connect_emits h a :
  emits t (SessionHandle.connect h a) (fun o l => exists rc : Z,
    let c := vppcom_session_connect h (fst (SessionHandle.endpoint_into_buf a zero_ip_buf)) in
    ok c rc /\ l = [Ev t c rc] /\
    o = Done (if rc <? 0 then Err (from_rc rc) else Ok tt)).
Proof.
  unfold SessionHandle.connect. destruct (SessionHandle.endpoint_into_buf a zero_ip_buf) as [ep b].
  session_call ok 1.
Qed.

Lemma read_emits h buf :
  emits t (SessionHandle.read h buf) (fun o l => exists rc data,
    ok (vppcom_session_read h buf (len buf)) (rc, data) /\
    l = [Ev t (vppcom_session_read h buf (len buf)) (rc, data)] /\
    o = Done (if rc <? 0 then Err (from_rc rc) else Ok rc, fill buf data)).
Proof. session_call ok 2. Qed.

Lemma write_emits h buf :
  emits t (SessionHandle.write h buf) (fun o l => exists rc : Z,
    let c := vppcom_session_write h buf (len buf) in
    ok c rc /\ l = [Ev t c rc] /\
    o = Done (if rc <? 0 then Err (from_rc rc) else Ok rc)).
Proof. session_call ok 1. Qed.

Lemma recvfrom_emits h buf :
  emits t (SessionHandle.recvfrom h buf) (fun o l => exists rc data ep,
    let c := vppcom_session_recvfrom h buf (as_u32 (len buf)) 0 (endpt_for zero_ip_buf) in
    ok c (rc, data, ep) /\ l = [Ev t c (rc, data, ep)] /\
    o = Done (if rc <? 0 then Err (from_rc rc)
              else Ok (rc, SessionHandle.addr_from_endpoint ep (ip_buf_after ep zero_ip_buf)),
              fill buf data)).
Proof. session_call ok 3. Qed.

Lemma sendto_emits h buf a :
  emits t (SessionHandle.sendto h buf a) (fun o l => exists rc : Z,
    let c := vppcom_session_sendto h buf (as_u32 (len buf)) 0
                 (fst (SessionHandle.endpoint_into_buf a zero_ip_buf)) in
    ok c rc /\ l = [Ev t c rc] /\
    o = Done (if rc <? 0 then Err (from_rc rc) else Ok rc)).
Proof.
  unfold SessionHandle.sendto. destruct (SessionHandle.endpoint_into_buf a zero_ip_buf) as [ep b].
  session_call ok 1.
Qed.

Lemma set_nodelay_emits h :
  emits t (SessionHandle.set_nodelay h) (fun o l => exists rc : Z,
    let c := vppcom_session_attr_set h VPPCOM_ATTR_SET_TCP_NODELAY 1 4 in
    ok c rc /\ l = [Ev t c rc] /\
    o = Done (if rc <? 0 then Err (from_rc rc) else Ok tt)).
Proof. session_call ok 1. Qed.

Lemma set_nonblocking_emits h :
  emits t (SessionHandle.set_nonblocking h) (fun o l => exists rc : Z,
    let c := vppcom_session_attr_set h VPPCOM_ATTR_SET_FLAGS SessionHandle.O_NONBLOCK 4 in
    ok c rc /\ l = [Ev t c rc] /\
    o = Done (if rc <? 0 then Err (from_rc rc) else Ok tt)).
Proof. session_call ok 1. Qed.

Lemma accept_emits h :
  emits t (SessionHandle.accept h) (fun o l => exists rc ep,
    ok (vppcom_session_accept h (endpt_for zero_ip_buf) 0) (rc, ep) /\
    l = [Ev t (vppcom_session_accept h (endpt_for zero_ip_buf) 0) (rc, ep)] /\
    o = Done (if rc <? 0 then Err (from_rc rc)
              else Ok (as_u32 rc, SessionHandle.addr_from_endpoint ep (ip_buf_after ep zero_ip_buf)))).
Proof. session_call ok 2. Qed.

Lemma local_addr_emits h :
  emits t (SessionHandle.local_addr h) (fun o l => exists rc ep,
    let c := vppcom_session_attr_get h VPPCOM_ATTR_GET_LCL_ADDR (endpt_for zero_ip_buf) sizeof_endpt in
    ok c (rc, ep) /\ l = [Ev t c (rc, ep)] /\
    o = Done (if rc <? 0 then Err (from_rc rc)
              else Ok (SessionHandle.addr_from_endpoint ep (ip_buf_after ep zero_ip_buf)))).
Proof. session_call ok 2. Qed.

Lemma drop_emits h :
  emits t (SessionHandle.drop h) (fun o l => exists rc : Z,
    l = [Ev t (vppcom_session_close h) rc] /\ o = Done tt).
Proof.
  apply emits_bind; call_with ok; intros rc Hok. apply emits_ret. by exists rc.
Qed.
End SessionTraces.
