(* ===== verification/App.v ===== *)
(** * Application lifecycle and worker threads (src/app.rs)

    The process-wide [INITIALIZED] flag guarding [VclApp::init] and the
    thread-local [REGISTERED] flag guarding [vppcom_worker_register]; the
    world keeps the set of threads whose flag is set. *)

From S2P Require Import Prelude Net Errors Ffi World Sim.

(** [CString::new] refuses a name with an interior NUL. *)
Fixpoint has_nul (s : string) : bool :=
  match s with
  | EmptyString => false
  | String c rest => (Ascii.N_of_ascii c =? 0)%N || has_nul rest
  end.

Section App.
Context `{E : Env}.

Definition app_init (app_name : string) : M (Result unit) :=
  was ← gets w_initialized;
  _ ← set_initialized true;
  if (was : bool) then mret (Err (Api (Lit "VCL already initialized") (-1)))
  else if has_nul app_name then mret (Err (Api (Lit "invalid app name") (-1)))
  else
    rc ← do_call (vppcom_app_create app_name);
    if rc <? 0 then
      _ ← set_initialized false; mret (Err (from_rc rc))
    else
      _ ← do_call (tracing Info (Fmt "VCL application created" [AText app_name]));
      mret (Ok tt).

Definition mq_epoll_fd : M Z := do_call vppcom_mq_epoll_fd.

(** [impl Drop for VclApp]. *)
Definition app_drop : M unit :=
  _ ← do_call vppcom_app_destroy;
  _ ← set_initialized false;
  do_call (tracing Info (Lit "VCL application destroyed")).

(** [REGISTER_LOCK] is held from the register call to the end; that
    registrations therefore take effect as whole calls is shown in
    Threads.v. *)
Definition register_worker_thread : M unit :=
  tid ← gets w_tid;
  registered ← gets w_registered;
  if bool_decide (tid ∈ registered) then mret tt
  else
    rc ← do_call vppcom_worker_register;
    idx ← do_call vppcom_worker_index;
    name ← do_call thread_name;
    let name := default "<unnamed>" name in
    if idx <? 0 then
      _ ← do_call vppcom_worker_unregister;
      do_call (tracing Warn (Fmt "VCL worker registration failed — thread cannot use VCL sessions"
                               [AText name; AInt rc]))
    else
      _ ← do_call (tracing Debug (Fmt "VCL worker registered" [AText name; AInt idx]));
      set_registered ({[tid]} ∪ registered).

(** ** What the application guard guarantees

    [app_run w live w']: from [w], some sequence of calls to [app_init] and
    drops of live applications leads to [w'] with [live] applications alive. *)
Inductive app_run (w0 : World) : nat -> World -> Prop :=
| run_start : app_run w0 0 w0
| run_init live w name r w' :
    app_run w0 live w -> app_init name w = (Done r, w') ->
    app_run w0 (if is_ok r then S live else live) w'
| run_drop live w w' :
    app_run w0 (S live) w -> app_drop w = (Done tt, w') -> app_run w0 live w'.

Lemma app_init_spec name w :
  wp (app_init name) (fun o w' =>
    (w_initialized w = true -> w_initialized w' = true /\ w_log w' = w_log w /\
       o = Done (Err (Api (Lit "VCL already initialized") (-1)))) /\
    (w_initialized w = false -> has_nul name = true ->
       w_initialized w' = true /\ w_log w' = w_log w /\
       o = Done (Err (Api (Lit "invalid app name") (-1)))) /\
    (w_initialized w = false -> has_nul name = false -> exists rc,
       w_initialized w' = negb (rc <? 0) /\
       (exists l, w_log w' = w_log w ++ Ev (w_tid w) (vppcom_app_create name) rc :: l) /\
       o = Done (if rc <? 0 then Err (from_rc rc) else Ok tt))) w.
Proof.
  unfold app_init. wp_go. unfold wp; simpl.
  destruct (w_initialized w); [by split_and!|].
  destruct (has_nul name); [by split_and!|].
  unfold mbind, M_bind, do_call. simpl.
  destruct (env_step _ _ _) as [rc x]; simpl.
  destruct (rc <? 0) eqn:Hrc; simpl; [|destruct (env_step _ _ x) as [u x']; simpl];
    (split_and!; [done..|]); intros _ _; exists rc; rewrite Hrc; (split_and!; [done| |done]);
    eexists; by rewrite <- ?app_assoc.
Qed.

(** At most one [VclApp] is alive at any time, and while one is alive
    the [INITIALIZED] flag is set, in every sequence of initialisations and
    drops that starts with the flag clear. *)
Theorem app_at_most_one w0 live w :
  w_initialized w0 = false -> app_run w0 live w ->
  (live <= 1)%nat /\ (live = 1%nat -> w_initialized w = true).
Proof.
  intros Hw0. induction 1 as [|live w name r w' Hrun IH Hinit|live w w' Hrun IH Hdrop];
    [split; [lia|done]| |].
  - destruct IH as [Hle Hset].
    destruct (app_init_spec name w) as (Halready & Hnul & Hcreate).
    rewrite Hinit in Halready, Hnul, Hcreate. simpl in *.
    destruct (w_initialized w) eqn:Hf.
    { destruct Halready as (Hf' & _ & [= ->]); [done|]. simpl. done. }
    assert (live = 0)%nat as -> by (destruct live as [|[]]; [done|by specialize (Hset eq_refl)|lia]).
    destruct (has_nul name).
    + destruct Hnul as (_ & _ & [= ->]); [done..|]. simpl. split; [lia|done].
    + destruct Hcreate as (rc & Hf' & _ & [= ->]); [done..|].
      rewrite Hf'. destruct (rc <? 0); simpl; split; (lia || done).
  - destruct IH as [Hle _]. assert (live = 0)%nat as -> by lia. split; [lia|done].
Qed.

(** An application name with an interior NUL leaves [INITIALIZED] set
    although no application was created: every later [init], whatever its
    name, fails with "VCL already initialized" and calls nothing. *)
Theorem app_init_nul_poisons name w r w1 :
  w_initialized w = false -> has_nul name = true -> app_init name w = (Done r, w1) ->
  r = Err (Api (Lit "invalid app name") (-1)) /\
  forall name' r' w2, app_init name' w1 = (Done r', w2) ->
    r' = Err (Api (Lit "VCL already initialized") (-1)) /\
    w_initialized w2 = true /\ w_log w2 = w_log w.
Proof.
  intros Hf Hnul Hinit.
  destruct (app_init_spec name w) as (_ & Hbad & _). rewrite Hinit in Hbad. simpl in Hbad.
  destruct Hbad as (Hf1 & Hl1 & [= ->]); [done..|]. split; [done|].
  intros name' r' w2 Hinit2.
  destruct (app_init_spec name' w1) as (Halready & _). rewrite Hinit2 in Halready.
  simpl in Halready. destruct Halready as (Hf2 & Hl2 & [= ->]); [done|].
  split_and!; congruence.
Qed.

(** ** Worker registration *)

(** The calls every registration starts with. *)
Definition registration (t rc idx : Z) (name : option string) : trace :=
  [Ev t vppcom_worker_register rc; Ev t vppcom_worker_index idx; Ev t thread_name name].

(** Success of one pass through the foreign calls: the flag is set exactly
    when libvppcom reports a worker index, and a failed registration is
    followed by [vppcom_worker_unregister]. *)
Lemma register_worker_thread_spec w :
  wp register_worker_thread (fun o w' =>
    o = Done tt /\ w_tid w' = w_tid w /\
    (w_tid w ∈ w_registered w -> w' = w) /\
    (w_tid w ∉ w_registered w -> exists rc idx name,
       if idx <? 0 then
         w_registered w' = w_registered w /\
         w_log w' = w_log w ++ registration (w_tid w) rc idx name ++ [
           Ev (w_tid w) vppcom_worker_unregister tt;
           Ev (w_tid w) (tracing Warn (Fmt "VCL worker registration failed — thread cannot use VCL sessions"
                                        [AText (default "<unnamed>" name); AInt rc])) tt]
       else
         w_registered w' = {[w_tid w]} ∪ w_registered w /\
         w_log w' = w_log w ++ registration (w_tid w) rc idx name ++ [
           Ev (w_tid w) (tracing Debug (Fmt "VCL worker registered"
                                         [AText (default "<unnamed>" name); AInt idx])) tt])) w.
Proof.
  unfold register_worker_thread. wp_go.
  case_bool_decide as Hin; [by wp_go; split_and!|].
  wp_go. rename r into rc, r0 into idx, r1 into name. destruct (idx <? 0) eqn:Hidx.
  - wp_go. rename r into u, r0 into v. destruct u, v.
    split_and!; try done. intros _. exists rc, idx, name. rewrite Hidx. simpl.
    by rewrite <- !app_assoc.
  - wp_go. rename r into u. destruct u. unfold wp.
    split_and!; try done. intros _. exists rc, idx, name. rewrite Hidx.
    simpl. by rewrite <- !app_assoc.
Qed.

(** [register_worker_thread] is idempotent: once it has marked its
    thread, calling it again on that thread changes nothing at all, and no
    thread is marked without libvppcom having reported a non-negative worker
    index on that very thread. *)
Theorem register_idempotent w o w' :
  register_worker_thread w = (o, w') -> w_tid w ∈ w_registered w' ->
  register_worker_thread w' = (Done tt, w') /\
  (w_tid w ∉ w_registered w ->
   exists idx, 0 <= idx /\ Ev (w_tid w) vppcom_worker_index idx ∈ w_log w').
Proof.
  intros Hrun Hin. pose proof (register_worker_thread_spec w) as Hs.
  unfold wp in Hs. rewrite Hrun in Hs. simpl in Hs.
  destruct Hs as (-> & Htid & Hsame & Hnew). split.
  - pose proof (register_worker_thread_spec w') as Hs'. unfold wp in Hs'.
    destruct (register_worker_thread w') as [o w2]. simpl in Hs'.
    destruct Hs' as (-> & _ & Hs' & _). by rewrite Hs' by (by rewrite Htid).
  - intros Hnin. destruct (Hnew Hnin) as (rc & idx & name & Hi).
    destruct (idx <? 0) eqn:Hneg; destruct Hi as [Hreg Hlog].
    + by rewrite Hreg in Hin.
    + exists idx. bool_to_prop. split; [done|]. rewrite Hlog. set_solver.
Qed.

(** A registration libvppcom refuses leaves the thread unmarked and
    gives the pool slot back with [vppcom_worker_unregister], so the next
    call on the thread goes through the foreign registration again. *)
Theorem register_failure_retries w o w' l :
  w_tid w ∉ w_registered w ->
  register_worker_thread w = (o, w') ->
  w_log w' = w_log w ++ l -> Ev (w_tid w) vppcom_worker_unregister tt ∈ l ->
  w_registered w' = w_registered w /\
  forall o2 w2, register_worker_thread w' = (o2, w2) ->
    exists rc2 l2, w_log w2 = w_log w' ++ Ev (w_tid w) vppcom_worker_register rc2 :: l2.
Proof.
  intros Hnin Hrun Hlog Hun. pose proof (register_worker_thread_spec w) as Hs.
  unfold wp in Hs. rewrite Hrun in Hs. simpl in Hs.
  destruct Hs as (_ & Htid & _ & Hnew). destruct (Hnew Hnin) as (rc' & idx' & name & Hi).
  assert (w_registered w' = w_registered w) as Hreg.
  { destruct (idx' <? 0); destruct Hi as [Hreg Hl]; [done|].
    rewrite Hlog in Hl. apply app_inv_head in Hl as ->.
    by repeat (apply elem_of_cons in Hun as [?|Hun]); try apply elem_of_nil in Hun. }
  split; [done|]. intros o2 w2 Hrun2.
  pose proof (register_worker_thread_spec w') as Hs2.
  unfold wp in Hs2. rewrite Hrun2 in Hs2. simpl in Hs2.
  destruct Hs2 as (_ & _ & _ & Hnew2). rewrite Htid, Hreg in Hnew2.
  destruct (Hnew2 Hnin) as (rc2 & idx2 & name2 & Hi2). exists rc2.
  destruct (idx2 <? 0); destruct Hi2 as [_ ->]; eauto.
Qed.

End App.
