(* ===== verification/Threads.v ===== *)
(** * Threads that share the process (src/app.rs)

    [VclApp::init], the drop of a [VclApp] and [register_worker_thread] run on
    any number of threads at once.  This file takes them apart: a thread is at
    a position of the code, the shared state is the [INITIALIZED] flag, the
    holder of [REGISTER_LOCK] and the thread-local [REGISTERED] flags, and a
    step of the system is one access or one foreign call of one thread, with
    any other call of the crate in between.  App.v treats each of these
    operations as one step; here that is a theorem. *)

From stdpp Require Import functions.
From S2P Require Import Prelude Net Errors Ffi World Sim App.

(** Where a thread is inside [register_worker_thread], once it holds the
    lock. *)
Inductive reg_pc : Set :=
| RegCall
| RegIndex (rc : Z)
| RegName (rc idx : Z)
| RegUnregister (rc : Z) (name : string)
| RegWarn (rc : Z) (name : string)
| RegDebug (idx : Z) (name : string)
| RegMark
| RegUnlock.

(** Where a thread is inside [VclApp::init], after the swap gave it the flag,
    or inside [drop]. *)
Inductive app_pc : Type :=
| InitName (name : string)
| InitCreate (name : string)
| InitUndo (rc : Z)
| InitLog (name : string)
| InitReturn (r : Result unit)
| DropDestroy
| DropStore
| DropLog
| DropReturn.

Definition returning (p : app_pc) : bool := match p with InitReturn _ | DropReturn => true | _ => false end.

Inductive activity : Type :=
| Idle
| Blocked
| Registering (p : reg_pc)
| InApp (p : app_pc).

(** The calls only these operations make. *)
Definition managed (c : call) : bool :=
  match c with
  | vppcom_worker_register | vppcom_worker_index | vppcom_worker_unregister
  | vppcom_app_create _ | vppcom_app_destroy => true
  | _ => false
  end.

Section Threads.
Context `{E : Env}.

(** One access of [register_worker_thread] under the lock. *)
Definition reg_next (p : reg_pc) : M reg_pc :=
  match p with
  | RegCall => rc ← do_call vppcom_worker_register; mret (RegIndex rc)
  | RegIndex rc => idx ← do_call vppcom_worker_index; mret (RegName rc idx)
  | RegName rc idx =>
      name ← do_call thread_name;
      let name := default "<unnamed>" name in
      mret (if idx <? 0 then RegUnregister rc name else RegDebug idx name)
  | RegUnregister rc name => _ ← do_call vppcom_worker_unregister; mret (RegWarn rc name)
  | RegWarn rc name =>
      _ ← do_call (tracing Warn (Fmt "VCL worker registration failed — thread cannot use VCL sessions"
                                   [AText name; AInt rc]));
      mret RegUnlock
  | RegDebug idx name =>
      _ ← do_call (tracing Debug (Fmt "VCL worker registered" [AText name; AInt idx])); mret RegMark
  | RegMark =>
      tid ← gets w_tid;
      registered ← gets w_registered;
      _ ← set_registered ({[tid]} ∪ registered); mret RegUnlock
  | RegUnlock => mret RegUnlock
  end.

(** One access of [init] or [drop]. *)
Definition app_next (p : app_pc) : M app_pc :=
  match p with
  | InitName name =>
      mret (if has_nul name then InitReturn (Err (Api (Lit "invalid app name") (-1))) else InitCreate name)
  | InitCreate name =>
      rc ← do_call (vppcom_app_create name); mret (if rc <? 0 then InitUndo rc else InitLog name)
  | InitUndo rc => _ ← set_initialized false; mret (InitReturn (Err (from_rc rc)))
  | InitLog name =>
      _ ← do_call (tracing Info (Fmt "VCL application created" [AText name])); mret (InitReturn (Ok tt))
  | DropDestroy => _ ← do_call vppcom_app_destroy; mret DropStore
  | DropStore => _ ← set_initialized false; mret DropLog
  | DropLog => _ ← do_call (tracing Info (Lit "VCL application destroyed")); mret DropReturn
  | InitReturn _ | DropReturn => mret p
  end.

(** The system: what every thread is doing, who holds [REGISTER_LOCK], how
    many [VclApp] values are alive, and the process. *)
Record system : Type := mkSystem {
  sy_act : Z -> activity;
  sy_lock : option Z;
  sy_live : nat;
  sy_world : World
}.

(** A registration: [if r.get() { return }], the lock, the accesses under it
    and the unlock at the end of the guard's scope. *)
Inductive reg_step (t : Z) : system -> system -> Prop :=
| reg_skip a l n w :
    a t = Idle -> t ∈ w_registered w -> reg_step t (mkSystem a l n w) (mkSystem a l n w)
| reg_enter a l n w :
    a t = Idle -> t ∉ w_registered w -> reg_step t (mkSystem a l n w) (mkSystem (<[t := Blocked]> a) l n w)
| reg_lock a n w :
    a t = Blocked ->
    reg_step t (mkSystem a None n w) (mkSystem (<[t := Registering RegCall]> a) (Some t) n w)
| reg_access a l n w p p' w' :
    a t = Registering p -> p <> RegUnlock -> on_thread t (reg_next p) w = (Done p', w') ->
    reg_step t (mkSystem a l n w) (mkSystem (<[t := Registering p']> a) l n w')
| reg_unlock a l n w :
    a t = Registering RegUnlock ->
    reg_step t (mkSystem a l n w) (mkSystem (<[t := Idle]> a) None n w).

(** An initialisation or a drop.  [INITIALIZED.swap(true)] is one access that
    reads the old value and sets the flag. *)
Inductive app_step (t : Z) : system -> system -> Prop :=
| app_refused a l n w :
    a t = Idle -> w_initialized w = true ->
    app_step t (mkSystem a l n w) (mkSystem a l n (with_initialized true w))
| app_swap name a l n w :
    a t = Idle -> w_initialized w = false ->
    app_step t (mkSystem a l n w) (mkSystem (<[t := InApp (InitName name)]> a) l n (with_initialized true w))
| app_access a l n w p p' w' :
    a t = InApp p -> returning p = false -> on_thread t (app_next p) w = (Done p', w') ->
    app_step t (mkSystem a l n w) (mkSystem (<[t := InApp p']> a) l n w')
| app_return r a l n w :
    a t = InApp (InitReturn r) ->
    app_step t (mkSystem a l n w) (mkSystem (<[t := Idle]> a) l (if is_ok r then S n else n) w)
| app_begin_drop a l n w :
    a t = Idle -> app_step t (mkSystem a l (S n) w) (mkSystem (<[t := InApp DropDestroy]> a) l n w)
| app_end_drop a l n w :
    a t = InApp DropReturn -> app_step t (mkSystem a l n w) (mkSystem (<[t := Idle]> a) l n w).

(** Everything else the crate calls, from threads outside these
    operations. *)
Inductive other_step (t : Z) : system -> system -> Prop :=
| other_call c r a l n w w' :
    a t = Idle -> managed c = false -> on_thread t (do_call c) w = (Done r, w') ->
    other_step t (mkSystem a l n w) (mkSystem a l n w').

Definition system_step (s s' : system) : Prop :=
  exists t, reg_step t s s' \/ app_step t s s' \/ other_step t s s'.

Definition start (w : World) : system := mkSystem (fun _ => Idle) None 0 w.
End Threads.

(** Computes up to the environment's next answer. *)
Ltac open_calls := repeat (progress (cbn; unfold mbind, M_bind, mret, M_ret, gets, set_registered, do_call)); cbn.

(** ** Registrations take effect one after the other *)

Section Atomicity.
Context `{E : Env}.
Implicit Types w : World.

(** Accesses left before the unlock, and the rest of the critical section. *)
Definition left (p : reg_pc) : nat :=
  match p with
  | RegCall => 5
  | RegIndex _ => 4
  | RegName _ _ => 3
  | RegUnregister _ _ | RegDebug _ _ => 2
  | RegWarn _ _ | RegMark => 1
  | RegUnlock => 0
  end.

Fixpoint reg_run (n : nat) (p : reg_pc) : M unit :=
  match n with
  | O => mret tt
  | S n' => p' ← reg_next p; reg_run n' p'
  end.

Definition reg_rest (p : reg_pc) : M unit := reg_run (left p) p.

(** The accesses of a thread whose flag is clear are the code of
    [register_worker_thread]. *)
Lemma reg_rest_whole w : w_tid w ∉ w_registered w -> reg_rest RegCall w = register_worker_thread w.
Proof.
  intros Hnin. unfold reg_rest, register_worker_thread. cbn [left reg_run reg_next]. open_calls.
  rewrite bool_decide_eq_false_2 by done.
  destruct (env_step vppcom_worker_register _ _) as [rc x1]; open_calls.
  destruct (env_step vppcom_worker_index _ _) as [idx x2]; open_calls.
  destruct (env_step thread_name _ _) as [name x3]; open_calls.
  destruct (idx <? 0); open_calls.
  - destruct (env_step vppcom_worker_unregister _ _) as [u x4]; open_calls.
    destruct (env_step (tracing _ _) _ _) as [[] x5]; by open_calls.
  - destruct (env_step (tracing _ _) _ _) as [u x5]; by open_calls.
Qed.

(** What one access may change. *)
Lemma reg_next_spec p w : p <> RegUnlock ->
  wp (reg_next p) (fun o w' => (exists p', o = Done p' /\ left p = S (left p')) /\
    w_tid w' = w_tid w /\ w_initialized w' = w_initialized w /\
    w_registered w' ⊆ {[w_tid w]} ∪ w_registered w) w.
Proof.
  intros Hp. destruct p; cbn [reg_next]; wp_go; unfold wp; cbn; split_and!; try done; try set_solver;
    (eexists; split; [reflexivity|]); try done. by case_match.
Qed.

Lemma with_tid_self w : with_tid (w_tid w) w = w.
Proof. by destruct w. Qed.

Lemma reg_access_spec t p w p' w' :
  p <> RegUnlock -> on_thread t (reg_next p) w = (Done p', w') ->
  left p = S (left p') /\ w_tid w' = w_tid w /\ w_initialized w' = w_initialized w /\
  w_registered w' ⊆ {[t]} ∪ w_registered w /\
  on_thread t (reg_rest p) w = on_thread t (reg_rest p') w'.
Proof.
  intros Hp Hrun. pose proof (reg_next_spec p (with_tid t w) Hp) as Hs. unfold wp in Hs.
  unfold on_thread in *. unfold reg_rest.
  destruct (reg_next p (with_tid t w)) as [o w1] eqn:Hn. injection Hrun as -> <-.
  destruct Hs as ((q & [= <-] & Hl) & Ht & Hi & Hr). simpl in *. rewrite Hl. cbn [reg_run].
  unfold mbind, M_bind. rewrite Hn. split_and!; try done. unfold with_tid at 4. simpl.
  replace (with_tid t (with_tid (w_tid w) w1)) with w1 by (destruct w1; simpl in *; by subst). done.
Qed.

Lemma reg_enabled t p w : p <> RegUnlock -> exists p' w', on_thread t (reg_next p) w = (Done p', w').
Proof.
  intros Hp. pose proof (reg_next_spec p (with_tid t w) Hp) as Hs. unfold wp in Hs. unfold on_thread.
  destruct (reg_next p (with_tid t w)) as [o w1]. simpl in Hs. destruct Hs as ((p' & -> & _) & _). eauto.
Qed.

(** Whole registrations, one after the other. *)
Definition register_on (w : World) (t : Z) : World := (on_thread t register_worker_thread w).2.
Definition serial (w : World) (ts : list Z) : World := foldl register_on w ts.

(** Interleaved registrations of any number of threads, with the threads that
    took the lock, in that order. *)
Definition acquired (s s' : system) : list Z :=
  match sy_lock s, sy_lock s' with None, Some t => [t] | _, _ => [] end.

Inductive registrations (w0 : World) : list Z -> system -> Prop :=
| regs_start : registrations w0 [] (start w0)
| regs_step ts t s s' :
    registrations w0 ts s -> reg_step t s s' -> registrations w0 (ts ++ acquired s s') s'.

(** The invariant of the lock: free, and the process is where whole
    registrations lead, or held by the one thread in the critical section,
    whose remaining accesses lead there. *)
Definition lock_inv (w0 : World) (ts : list Z) (s : system) : Prop :=
  (forall t, sy_act s t = Blocked -> t ∉ w_registered (sy_world s)) /\
  (forall t p, sy_act s t = Registering p -> sy_lock s = Some t) /\
  match sy_lock s with
  | None => sy_world s = serial w0 ts
  | Some t => exists p, sy_act s t = Registering p /\
      on_thread t (reg_rest p) (sy_world s) = (Done tt, serial w0 ts)
  end.

Lemma on_thread_fresh t w : t ∉ w_registered w -> on_thread t (reg_rest RegCall) w = on_thread t register_worker_thread w.
Proof. intros Hnin. unfold on_thread. by rewrite reg_rest_whole. Qed.

Lemma registration_returns t w : exists w', on_thread t register_worker_thread w = (Done tt, w').
Proof.
  unfold on_thread. pose proof (register_worker_thread_spec (with_tid t w)) as Hs. unfold wp in Hs.
  destruct (register_worker_thread _) as [o w1]. simpl in Hs. destruct Hs as (-> & _). eauto.
Qed.

Lemma serial_snoc w0 ts t : serial w0 (ts ++ [t]) = register_on (serial w0 ts) t.
Proof. unfold serial. by rewrite foldl_app. Qed.

Lemma lock_inv_start w0 : lock_inv w0 [] (start w0).
Proof. by split_and!. Qed.

(** Splits the threads into the one that stepped and the others. *)
Ltac by_thread t :=
  intros t'; destruct (decide (t' = t)) as [->|];
    [rewrite fn_lookup_insert|rewrite fn_lookup_insert_ne by done].

Lemma lock_inv_step w0 ts t s s' : lock_inv w0 ts s -> reg_step t s s' -> lock_inv w0 (ts ++ acquired s s') s'.
Proof.
  intros (Hb & Hh & Hl) Hstep. destruct Hstep as [a l n w Ha Hin|a l n w Ha Hin|a n w Ha|a l n w p p' w' Ha Hp Hrun|a l n w Ha];
    unfold lock_inv, acquired in *; simpl in *.
  - destruct l; by rewrite app_nil_r.
  - match goal with |- context [ts ++ ?k] => assert (k = []) as -> by (by destruct l) end. rewrite app_nil_r.
    split_and!; [by by_thread t; auto|by by_thread t; eauto|]. destruct l as [t'|]; [|done].
    destruct Hl as (p & Hp & Hr). exists p. split; [|done].
    rewrite fn_lookup_insert_ne; [done|]. intros ->. congruence.
  - split_and!; [by by_thread t; auto| |].
    + by_thread t; [done|]. intros p Hp. by apply Hh in Hp.
    + exists RegCall. rewrite fn_lookup_insert, serial_snoc, on_thread_fresh, Hl by auto. split; [done|].
      unfold register_on. destruct (registration_returns t (serial w0 ts)) as [w' Hw]. by rewrite Hw.
  - pose proof (Hh t p Ha) as ->. rewrite app_nil_r. destruct Hl as (q & Hq & Hr).
    assert (q = p) as -> by congruence.
    destruct (reg_access_spec t p w p' w' Hp Hrun) as (_ & _ & _ & Hreg & Heq).
    split_and!; [by_thread t; [done|]; intros Hbl; specialize (Hb t' Hbl); set_solver| |].
    + by_thread t; [done|]. apply Hh.
    + exists p'. rewrite fn_lookup_insert. by rewrite <- Heq.
  - pose proof (Hh t _ Ha) as ->. rewrite app_nil_r. destruct Hl as (q & Hq & Hr).
    assert (q = RegUnlock) as -> by congruence.
    split_and!; [by by_thread t; auto| |].
    + by_thread t; [done|]. intros p Hp'. apply Hh in Hp'. congruence.
    + unfold on_thread, reg_rest in Hr. cbn in Hr. injection Hr as <-. by destruct w.
Qed.

Lemma lock_inv_reachable w0 ts s : registrations w0 ts s -> lock_inv w0 ts s.
Proof. induction 1; eauto using lock_inv_start, lock_inv_step. Qed.

(** The holder of the lock, left alone, gets to the end of its critical
    section. *)
Lemma holder_finishes t s p :
  sy_act s t = Registering p -> exists s', rtc (reg_step t) s s' /\ sy_lock s' = None /\ sy_act s' t = Idle /\
    sy_world s' = (on_thread t (reg_rest p) (sy_world s)).2.
Proof.
  remember (left p) as k eqn:Hk. revert s p Hk. induction k as [|k IH]; intros [a l n w] p Hk Ha; simpl in Ha.
  - assert (p = RegUnlock) as -> by (destruct p; done).
    eexists. split; [apply rtc_once, reg_unlock; exact Ha|]. simpl. rewrite fn_lookup_insert.
    split_and!; [done..|]. unfold on_thread. cbn. by destruct w.
  - assert (p <> RegUnlock) as Hp by (intros ->; done).
    destruct (reg_enabled t p w Hp) as (p' & w' & Hrun).
    destruct (reg_access_spec t p w p' w' Hp Hrun) as (Hl & _ & _ & _ & Heq).
    destruct (IH (mkSystem (<[t := Registering p']> a) l n w') p') as (s' & Hs' & Hrest);
      [lia|apply fn_lookup_insert|].
    exists s'. split; [by eapply rtc_l; [eapply reg_access|]|]. simpl in *. by rewrite Heq.
Qed.

(** C6. Registrations of any number of threads, interleaved access by
    access, take effect as whole calls of [register_worker_thread], one after
    the other in the order in which the threads took [REGISTER_LOCK]: while
    the lock is free the process is exactly where those calls lead; while it
    is held only the holder is inside, and left alone it comes to the end of
    its section, releases the lock, and the process is there. *)
Theorem registration_atomic w0 ts s :
  registrations w0 ts s ->
  (forall t t' p p', sy_act s t = Registering p -> sy_act s t' = Registering p' -> t = t') /\
  match sy_lock s with
  | None => sy_world s = serial w0 ts
  | Some t => exists s', rtc (reg_step t) s s' /\ sy_lock s' = None /\ sy_world s' = serial w0 ts
  end.
Proof.
  intros (_ & Hh & Hl)%lock_inv_reachable. split.
  - intros t t' p p' Hp%Hh Hp'%Hh. congruence.
  - destruct (sy_lock s) as [t|]; [|done]. destruct Hl as (p & Hp & Hr).
    destruct (holder_finishes t s p Hp) as (s' & Hs & Hn & _ & Hw). exists s'. by rewrite Hw, Hr.
Qed.
End Atomicity.

(** ** The accesses of [init] and [drop] are their code *)

Section Whole.
Context `{E : Env}.

(** Runs [init] from a position to its return. *)
Fixpoint init_run (n : nat) (p : app_pc) : M (option (Result unit)) :=
  match p with
  | InitReturn r => mret (Some r)
  | _ => match n with O => mret None | S n' => p' ← app_next p; init_run n' p' end
  end.

Lemma init_run_whole name w : w_initialized w = false ->
  exists r w', init_run 3 (InitName name) (with_initialized true w) = (Done (Some r), w') /\ app_init name w = (Done r, w').
Proof.
  intros Hf. unfold app_init. open_calls. unfold set_initialized. cbn. rewrite Hf.
  destruct (has_nul name); open_calls; [eauto|].
  destruct (env_step (vppcom_app_create name) _ _) as [rc x1]; open_calls.
  destruct (rc <? 0); open_calls; [eauto|].
  destruct (env_step (tracing _ _) _ _) as [u x2]; open_calls. eauto.
Qed.

Lemma drop_run_whole w :
  (_ ← app_next DropDestroy; _ ← app_next DropStore; _ ← app_next DropLog; mret tt) w = app_drop w.
Proof.
  unfold app_drop. open_calls. destruct (env_step vppcom_app_destroy _ _) as [u x1]; open_calls.
  unfold set_initialized. cbn. by destruct (env_step (tracing _ _) _ _) as [[] x2].
Qed.
End Whole.

(** ** What libvppcom sees *)

(** The protocol of worker registration: a register call is followed, before
    any other thread registers, by the index query of the same thread, and by
    its unregister when the index says it was refused. *)
Inductive reg_phase : Set := RegFree | RegAsked (t : Z) | RegRefused (t : Z).

Definition reg_protocol (q : reg_phase) (e : event) : option reg_phase :=
  match e with
  | Ev t vppcom_worker_register _ => match q with RegFree => Some (RegAsked t) | _ => None end
  | Ev t vppcom_worker_index idx =>
      match q with
      | RegAsked t' => if t =? t' then Some (if idx <? 0 then RegRefused t else RegFree) else None
      | _ => None
      end
  | Ev t vppcom_worker_unregister _ =>
      match q with RegRefused t' => if t =? t' then Some RegFree else None | _ => None end
  | _ => Some q
  end.

(** The protocol of applications: one at a time, destroyed once. *)
Definition app_protocol (alive : bool) (e : event) : option bool :=
  match e with
  | Ev _ (vppcom_app_create _) rc => if alive then None else Some (negb (rc <? 0))
  | Ev _ vppcom_app_destroy _ => if alive then Some false else None
  | _ => Some alive
  end.

(** Running a protocol over a trace; [None] when it is violated. *)
Definition follows {Q} (next : Q -> event -> option Q) (q : Q) (l : trace) : option Q :=
  foldl (fun o e => o ≫= fun q => next q e) (Some q) l.

Lemma follows_app {Q} (next : Q -> event -> option Q) q l k q' :
  follows next q l = Some q' -> follows next q (l ++ k) = follows next q' k.
Proof. unfold follows. rewrite foldl_app. by intros ->. Qed.

Lemma unmanaged_protocols t c r : managed c = false ->
  (forall q, reg_protocol q (Ev t c r) = Some q) /\ (forall b, app_protocol b (Ev t c r) = Some b).
Proof. by destruct c. Qed.

Section Protocols.
Context `{E : Env}.
Implicit Types w : World.

(** Since [w0] the process has followed the protocol from [q0] to [q]. *)
Definition logged {Q} (next : Q -> event -> option Q) (w0 : World) (q0 : Q) (w : World) (q : Q) : Prop :=
  exists l, w_log w = w_log w0 ++ l /\ follows next q0 l = Some q.

Lemma logged_start {Q} (next : Q -> event -> option Q) w0 q0 : logged next w0 q0 w0 q0.
Proof. exists []. by rewrite app_nil_r. Qed.

Lemma logged_same {Q} (next : Q -> event -> option Q) w0 q0 w w' q :
  logged next w0 q0 w q -> w_log w' = w_log w -> logged next w0 q0 w' q.
Proof. intros (l & Hl & Hf) Hw. exists l. by rewrite Hw. Qed.

Lemma logged_run {Q A} (next : Q -> event -> option Q) w0 q0 w q t (m : M A) (f : A -> Q) a w' :
  logged next w0 q0 w q -> on_thread t m w = (Done a, w') ->
  emits t m (fun o l => forall a, o = Done a -> follows next q l = Some (f a)) ->
  logged next w0 q0 w' (f a).
Proof.
  intros (l & Hl & Hf) Hrun Hm. destruct (Hm (with_tid t w) eq_refl) as (_ & k & Hk & HP).
  unfold on_thread in Hrun. destruct (m (with_tid t w)) as [o w1]. injection Hrun as -> <-. simpl in *.
  exists (l ++ k). split; [simpl; by rewrite Hk, Hl, app_assoc|]. rewrite (follows_app _ _ _ _ _ Hf). by apply HP.
Qed.

(** How far the registration at [p] is. *)
Definition phase (t : Z) (p : reg_pc) : reg_phase :=
  match p with
  | RegIndex _ => RegAsked t
  | RegName _ idx => if idx <? 0 then RegRefused t else RegFree
  | RegUnregister _ _ => RegRefused t
  | _ => RegFree
  end.

Lemma reg_next_phase t p :
  emits t (reg_next p) (fun o l => forall p', o = Done p' -> follows reg_protocol (phase t p) l = Some (phase t p')).
Proof.
  destruct p as [|rc|rc idx| | | | |]; cbn [reg_next]; emits_go; intros p' [= <-]; cbn; rewrite ?Z.eqb_refl; try done.
  by destruct (idx <? 0) eqn:Hi; cbn; rewrite ?Hi.
Qed.

Lemma reg_next_app t p b :
  emits t (reg_next p) (fun o l => forall p', o = Done p' -> follows app_protocol b l = Some b).
Proof. destruct p; cbn [reg_next]; emits_go; by intros p'. Qed.

(** The positions that have the [INITIALIZED] flag, and those at which an
    application exists. *)
Definition owns (p : app_pc) : bool :=
  match p with InitReturn (Err _) | DropLog | DropReturn => false | _ => true end.
Definition exists_at (p : app_pc) : bool :=
  match p with InitLog _ | InitReturn (Ok _) | DropDestroy => true | _ => false end.

Lemma app_next_phase t p : owns p = true -> returning p = false ->
  emits t (app_next p) (fun o l => forall p', o = Done p' -> follows app_protocol (exists_at p) l = Some (exists_at p')).
Proof.
  destruct p; try done; intros _ _; cbn [app_next]; emits_go; intros p' [= <-]; cbn; try done; by case_match.
Qed.

Lemma app_next_reg t p q :
  emits t (app_next p) (fun o l => forall p', o = Done p' -> follows reg_protocol q l = Some q).
Proof. destruct p; cbn [app_next]; emits_go; by intros p'. Qed.

Lemma other_logged {Q} (next : Q -> event -> option Q) w0 q0 w q t c r w' :
  (forall t r, next q (Ev t c r) = Some q) -> logged next w0 q0 w q ->
  on_thread t (do_call c) w = (Done r, w') -> logged next w0 q0 w' q.
Proof.
  intros Hn Hl Hrun. apply (logged_run next w0 q0 w q t (do_call c) (fun _ => q) r w' Hl Hrun).
  lazymatch goal with |- emits _ (do_call ?c) _ => apply (emits_call any_answer) end. intros r' _ ? _. cbn. apply Hn.
Qed.

(** *** Registrations do not overlap *)

Definition sys_phase (s : system) : reg_phase :=
  match sy_lock s with
  | Some t => match sy_act s t with Registering p => phase t p | _ => RegFree end
  | None => RegFree
  end.

Definition reg_inv (w0 : World) (s : system) : Prop :=
  (forall t p, sy_act s t = Registering p -> sy_lock s = Some t) /\
  (forall t, sy_lock s = Some t -> exists p, sy_act s t = Registering p) /\
  logged reg_protocol w0 RegFree (sy_world s) (sys_phase s).

(** A step that leaves the registration under way alone. *)
Lemma reg_inv_beside w0 a l n w t x n' w' :
  reg_inv w0 (mkSystem a l n w) -> (forall p, a t <> Registering p) -> (forall p, x <> Registering p) ->
  logged reg_protocol w0 RegFree w' (sys_phase (mkSystem a l n w)) ->
  reg_inv w0 (mkSystem (<[t := x]> a) l n' w').
Proof.
  intros (Hh & Hx & _) Ha Hnx Hl. unfold reg_inv, sys_phase in *. simpl in *. split_and!.
  - intros t' p. destruct (decide (t' = t)) as [->|]; [rewrite fn_lookup_insert|rewrite fn_lookup_insert_ne by done].
    + intros ->. by destruct (Hnx p).
    + apply Hh.
  - intros t' Ht'. destruct (Hx t' Ht') as [p Hp]. exists p. rewrite fn_lookup_insert_ne; [done|].
    intros ->. by destruct (Ha p).
  - destruct l as [t'|]; [|done]. destruct (Hx t' eq_refl) as [p Hp].
    rewrite fn_lookup_insert_ne; [done|]. intros ->. by destruct (Ha p).
Qed.

Lemma reg_inv_reg_step w0 t s s' : reg_inv w0 s -> reg_step t s s' -> reg_inv w0 s'.
Proof.
  intros Hinv Hstep. pose proof Hinv as (Hh & Hx & Hl).
  destruct Hstep as [a l n w Ha Hin|a l n w Ha Hin|a n w Ha|a l n w p p' w' Ha Hp Hrun|a l n w Ha]; [done|..].
  - apply (reg_inv_beside w0 a l n w t Blocked n w Hinv); [congruence..|done].
  - unfold reg_inv, sys_phase in *. simpl in *. rewrite fn_lookup_insert. split_and!; [| |done].
    + intros t' q. destruct (decide (t' = t)) as [->|]; [done|rewrite fn_lookup_insert_ne by done].
      by intros ?%Hh.
    + intros t' [= <-]. rewrite fn_lookup_insert. eauto.
  - pose proof (Hh t p Ha) as Hlock. simpl in Hlock. subst l. unfold reg_inv, sys_phase in *. simpl in *.
    rewrite fn_lookup_insert, Ha in *. split_and!.
    + intros t' q. destruct (decide (t' = t)) as [->|]; [done|rewrite fn_lookup_insert_ne by done]. apply Hh.
    + intros t' [= <-]. rewrite fn_lookup_insert. eauto.
    + exact (logged_run _ _ _ _ _ _ _ (phase t) _ _ Hl Hrun (reg_next_phase t p)).
  - pose proof (Hh t _ Ha) as Hlock. simpl in Hlock. subst l. unfold reg_inv, sys_phase in *. simpl in *.
    rewrite Ha in Hl. split_and!; [|done|done].
    intros t' q. destruct (decide (t' = t)) as [->|]; [by rewrite fn_lookup_insert|rewrite fn_lookup_insert_ne by done].
    intros Hq%Hh. congruence.
Qed.

Lemma reg_inv_app_step w0 t s s' : reg_inv w0 s -> app_step t s s' -> reg_inv w0 s'.
Proof.
  intros Hinv Hstep. pose proof Hinv as (Hh & Hx & Hl).
  destruct Hstep as [a l n w Ha Hi|name a l n w Ha Hi|a l n w p p' w' Ha Hp Hrun|r a l n w Ha|a l n w Ha|a l n w Ha].
  - split_and!; [done..|]. by eapply logged_same.
  - apply (reg_inv_beside w0 a l n w); [done|congruence|done|]. by eapply logged_same.
  - apply (reg_inv_beside w0 a l n w); [done|congruence|done|].
    exact (logged_run _ _ _ _ _ _ _ (fun _ => _) _ _ Hl Hrun (app_next_reg t p _)).
  - apply (reg_inv_beside w0 a l n w); [done|congruence|done|done].
  - apply (reg_inv_beside w0 a l (S n) w); [done|congruence|done|done].
  - apply (reg_inv_beside w0 a l n w); [done|congruence|done|done].
Qed.

Lemma reg_inv_reachable w0 s : rtc system_step (start w0) s -> reg_inv w0 s.
Proof.
  intros Hrun. assert (forall s0, rtc system_step s0 s -> reg_inv w0 s0 -> reg_inv w0 s) as Hgo.
  2:{ apply (Hgo (start w0) Hrun). split_and!; [done..|apply logged_start]. }
  clear Hrun. induction 1 as [|s1 s2 s3 (t & [H|[H|H]]) _ IH]; [done|..]; intros Hinv; apply IH.
  - by eapply reg_inv_reg_step.
  - by eapply reg_inv_app_step.
  - destruct H as [c r a l n w w' Ha Hc Hrun], Hinv as (Hh & Hx & Hl). split_and!; [done..|].
    apply (other_logged _ _ _ w _ t c r); [|done..]. intros. by apply unmanaged_protocols.
Qed.

(** C19. Registrations never overlap, whatever else the process does: in
    every interleaving of registrations, initialisations, drops and the
    crate's other calls on any number of threads, between one thread's
    [vppcom_worker_register] and the index query (and unregister, if it was
    refused) that completes it, no other thread calls any of them. *)
Theorem registrations_serialised w0 s :
  rtc system_step (start w0) s ->
  exists l, w_log (sy_world s) = w_log w0 ++ l /\ is_Some (follows reg_protocol RegFree l).
Proof. intros (_ & _ & l & Hl & Hf)%reg_inv_reachable. eauto. Qed.

(** *** One application at a time *)

(** Who has the [INITIALIZED] flag: nobody, a [VclApp] value, or a thread on
    its way through [init] or [drop]. *)
Inductive holder : Type := Nobody | Value | Thread (t : Z) (p : app_pc).

Definition app_exists (h : holder) : bool :=
  match h with Nobody => false | Value => true | Thread _ p => exists_at p end.
Definition values (h : holder) : nat := match h with Value => 1 | _ => 0 end.

(** [h] is the one holder of the flag. *)
Definition holds (h : holder) (s : system) : Prop :=
  sy_live s = values h /\ (h <> Nobody -> w_initialized (sy_world s) = true) /\
  (forall t p, sy_act s t = InApp p -> owns p = true -> h = Thread t p) /\
  (forall t p, h = Thread t p -> sy_act s t = InApp p /\ owns p = true).

Definition app_inv (w0 : World) (s : system) : Prop :=
  exists h, holds h s /\ logged app_protocol w0 false (sy_world s) (app_exists h).

(** A thread that does not have the flag goes on, and the flag stays. *)
Lemma holds_beside h a l l' n w t x w' :
  holds h (mkSystem a l n w) -> (forall p, h <> Thread t p) -> (forall p, x = InApp p -> owns p = false) ->
  w_initialized w' = w_initialized w -> holds h (mkSystem (<[t := x]> a) l' n w').
Proof.
  intros (Hn & Hf & Ho & Ht) Hh Hx Hi. unfold holds in *. simpl in *. rewrite Hi. split_and!; [done..| |].
  - intros t' p. destruct (decide (t' = t)) as [->|]; [rewrite fn_lookup_insert|rewrite fn_lookup_insert_ne by done].
    + intros ?%Hx ?. congruence.
    + apply Ho.
  - intros t' p Hp. rewrite fn_lookup_insert_ne; [by apply Ht|]. intros ->. by destruct (Hh p).
Qed.

(** The flag changes hands: thread [t] goes to [x], and [h'] has it. *)
Lemma holds_moves h h' a l n w t x n' w' :
  holds h (mkSystem a l n w) -> (forall t' p, h = Thread t' p -> t' = t) -> n' = values h' ->
  (h' <> Nobody -> w_initialized w' = true) ->
  (forall p, x = InApp p -> owns p = true -> h' = Thread t p) ->
  (forall t' p, h' = Thread t' p -> t' = t /\ x = InApp p /\ owns p = true) ->
  holds h' (mkSystem (<[t := x]> a) l n' w').
Proof.
  intros (_ & _ & Ho & _) Hh Hn Hi Hx Hh'. unfold holds. simpl in *. split_and!; [done..| |].
  - intros t' p. destruct (decide (t' = t)) as [->|Hne]; [rewrite fn_lookup_insert; eauto|].
    rewrite fn_lookup_insert_ne by done. intros Ha Hp. by destruct Hne, (Hh t' p (Ho t' p Ha Hp)).
  - intros t' p (-> & -> & Hp)%Hh'. by rewrite fn_lookup_insert.
Qed.

(** An access of the thread that has the flag: it keeps the flag, set, or is
    past giving it up. *)
Lemma app_next_flag t p w p' w' :
  on_thread t (app_next p) w = (Done p', w') -> owns p = true -> returning p = false ->
  owns p' = true /\ w_initialized w' = w_initialized w \/ owns p' = false /\ exists_at p' = false.
Proof.
  unfold on_thread. intros Hrun Ho Hr.
  destruct (app_next p (with_tid t w)) as [o w1] eqn:Hn. injection Hrun as -> <-. revert Hn.
  destruct p; try done; cbn [app_next]; unfold mbind, M_bind, mret, M_ret, set_initialized, do_call; cbn;
    repeat case_match; intros [= <- <-]; repeat case_match; simplify_eq/=; auto.
Qed.

Lemma app_next_beside t p w p' w' :
  on_thread t (app_next p) w = (Done p', w') -> owns p = false -> returning p = false ->
  owns p' = false /\ w_initialized w' = w_initialized w.
Proof.
  unfold on_thread. intros Hrun Ho Hr.
  destruct (app_next p (with_tid t w)) as [o w1] eqn:Hn. injection Hrun as -> <-. revert Hn.
  destruct p as [| | | |[]| | | |]; try done. cbn [app_next]; unfold mbind, M_bind, mret, M_ret, do_call; cbn.
  repeat case_match; intros [= <- <-]; by simplify_eq/=.
Qed.

Lemma app_inv_app_step w0 t s s' : app_inv w0 s -> app_step t s s' -> app_inv w0 s'.
Proof.
  intros (h & Hh & Hl) Hstep. pose proof Hh as (Hn & Hf & Ho & Ht).
  destruct Hstep as [a l n w Ha Hi|name a l n w Ha Hi|a l n w p p' w' Ha Hp Hrun|r a l n w Ha|a l n w Ha|a l n w Ha];
    simpl in *.
  - exists h. split; [by split_and!|by eapply logged_same].
  - assert (h = Nobody) as -> by (destruct h; [done|rewrite Hf in Hi by done; done..]).
    exists (Thread t (InitName name)). split; [|by eapply logged_same].
    eapply holds_moves; [done|done|done|done|by intros p [= <-]|by intros t' p [= <- <-]].
  - destruct (owns p) eqn:Hown.
    + pose proof (Ho t p Ha Hown) as ->.
      pose proof (logged_run _ _ _ _ _ _ _ exists_at _ _ Hl Hrun (app_next_phase t p Hown Hp)) as Hl'.
      destruct (app_next_flag t p w p' w' Hrun Hown Hp) as [[Hown' Hi]|[Hown' Hex]].
      * exists (Thread t p'). split; [|done].
        eapply holds_moves; [done|by intros t' q [= <- <-]|done|by rewrite Hi; auto|by intros q [= <-]|by intros t' q [= <- <-]].
      * exists Nobody. rewrite Hex in Hl'. split; [|done].
        eapply holds_moves; [done|by intros t' q [= <- <-]|done|done|intros q [= <-]; congruence|done].
    + destruct (app_next_beside t p w p' w' Hrun Hown Hp) as [Hown' Hi]. exists h. split.
      * eapply holds_beside; [done| |by intros q [= <-]|done]. intros q ->.
        destruct (Ht t q eq_refl) as [Hq Hq']. rewrite Ha in Hq. injection Hq as <-. congruence.
      * assert (p = DropLog) as -> by (destruct p as [| | | |[]| | | |]; done).
        refine (logged_run _ _ _ _ _ _ _ (fun _ => _) _ _ Hl Hrun _). cbn [app_next]. by emits_go.
  - destruct r as [[]|e]; cbn [is_ok].
    + pose proof (Ho t _ Ha eq_refl) as ->. exists Value. split; [|done].
      eapply holds_moves; [done|by intros t' q [= <- <-]|by rewrite Hn|by auto|done|done].
    + exists h. split; [|done]. eapply holds_beside; [done| |done|done]. intros q ->.
      destruct (Ht t q eq_refl) as [Hq Hown]. rewrite Ha in Hq. by injection Hq as <-.
  - destruct h; simplify_eq/=. exists (Thread t DropDestroy). split; [|done].
    eapply holds_moves; [done|done|done|by auto|by intros q [= <-]|by intros t' q [= <- <-]].
  - exists h. split; [|done]. eapply holds_beside; [done| |done|done]. intros q ->.
    destruct (Ht t q eq_refl) as [Hq Hown]. rewrite Ha in Hq. by injection Hq as <-.
Qed.

Lemma app_inv_reg_step w0 t s s' : app_inv w0 s -> reg_step t s s' -> app_inv w0 s'.
Proof.
  intros (h & Hh & Hl) Hstep. exists h. pose proof Hh as (_ & _ & _ & Ht).
  destruct Hstep as [a l n w Ha Hin|a l n w Ha Hin|a n w Ha|a l n w p p' w' Ha Hp Hrun|a l n w Ha]; [done|..];
    (split; [eapply holds_beside; [done|intros q ->; destruct (Ht t q eq_refl); simpl in *; congruence|done|done]|done])
    || split.
  - eapply holds_beside; [done|intros q ->; destruct (Ht t q eq_refl); simpl in *; congruence|done|].
    by apply (reg_access_spec t p w p' w').
  - exact (logged_run _ _ _ _ _ _ _ (fun _ => _) _ _ Hl Hrun (reg_next_app t p _)).
Qed.

Lemma app_inv_other_step w0 t s s' : app_inv w0 s -> other_step t s s' -> app_inv w0 s'.
Proof.
  intros (h & Hh & Hl) Hstep. destruct Hstep as [c r a l n w w' Ha Hc Hrun]. exists h. split.
  - destruct Hh as (Hn & Hf & Ho & Ht). unfold holds in *. simpl in *. split_and!; [done| |done..].
    unfold on_thread, do_call in Hrun. destruct (env_step c _ _) as [r' x]. injection Hrun as _ <-. exact Hf.
  - apply (other_logged _ _ _ w _ t c r); [|done..]. intros. by apply unmanaged_protocols.
Qed.

Lemma app_inv_reachable w0 s : w_initialized w0 = false -> rtc system_step (start w0) s -> app_inv w0 s.
Proof.
  intros Hw0 Hrun. assert (forall s0, rtc system_step s0 s -> app_inv w0 s0 -> app_inv w0 s) as Hgo.
  2:{ apply (Hgo (start w0) Hrun). exists Nobody. split; [|apply logged_start].
      unfold holds. simpl. split_and!; (done || by intros []). }
  clear Hrun. induction 1 as [|s1 s2 s3 (t & [H|[H|H]]) _ IH]; [done|..]; intros Hinv; apply IH;
    eauto using app_inv_reg_step, app_inv_app_step, app_inv_other_step.
Qed.

(** C10. One application at a time, also when threads race: in every
    interleaving of initialisations and drops on any number of threads, access
    by access and with everything else the process does in between, at most
    one [VclApp] is alive, [INITIALIZED] is set while one is, and libvppcom
    sees applications one at a time: none is created while another exists, and
    each is destroyed at most once, after it was created. *)
Theorem app_exclusive w0 s :
  w_initialized w0 = false -> rtc system_step (start w0) s ->
  (sy_live s <= 1)%nat /\ (sy_live s = 1%nat -> w_initialized (sy_world s) = true) /\
  exists l, w_log (sy_world s) = w_log w0 ++ l /\ is_Some (follows app_protocol false l).
Proof.
  intros Hw0 Hrun. destruct (app_inv_reachable w0 s Hw0 Hrun) as (h & (Hn & Hf & _) & l & Hl & Hq).
  rewrite Hn. split_and!; [destruct h; simpl; lia| |eauto]. destruct h; simpl; try done. auto.
Qed.
End Protocols.
