(* ===== verification/Prewarm.v ===== *)
(** * Pre-registration of the blocking pool (prewarm of src/app.rs)

    [prewarm(n)] spawns [n] blocking tasks and joins them in order; each task
    registers its thread and waits at a barrier of size [n].  The caller and
    the tasks interleave freely, so the model is a step relation.  The
    blocking pool belongs to tokio: [pool] is the set of threads it may run
    ([max_blocking_threads] of them), a thread runs one task at a time and is
    free again, for another task, once its task has returned, and [shutdown]
    says whether the runtime may be shutting down, which cancels tasks that
    have not started.  The barrier is the standard library's: a count of
    arrivals and a generation, both under its lock.  A registration is one
    step; Threads.v shows that interleaved registrations amount to that. *)

From S2P Require Import Prelude Net Errors Ffi World Sim App.

(** A blocking task, [register_worker_thread(); b.wait()], on thread [t]:
    started, registered, in [b.wait()] having entered it in generation [g],
    or returned.  A task the runtime never ran leaves the text of its join
    error. *)
Inductive task : Set :=
| Queued
| Running (t : Z)
| Registered (t : Z)
| Waiting (t : Z) (g : nat)
| Finished (t : Z)
| Aborted (e : string).

(** Where the caller is: in the loop that spawns, at the [i]-th handle of the
    loop that joins, or back. *)
Inductive caller : Set :=
| Spawning
| Joining (i : nat)
| Returned (r : Result unit).

#[global] Instance task_eq_dec : EqDecision task.
Proof. solve_decision. Defined.

(** The thread a task runs or ran on, and the one it holds now. *)
Definition thread_of (k : task) : option Z :=
  match k with Running t | Registered t | Waiting t _ | Finished t => Some t | Queued | Aborted _ => None end.
Definition busy_thread (k : task) : option Z :=
  match k with Running t | Registered t | Waiting t _ => Some t | Queued | Finished _ | Aborted _ => None end.

Definition threads (ks : list task) : list Z := omap thread_of ks.
Definition busy (ks : list task) : list Z := omap busy_thread ks.

Definition is_finished (k : task) : bool := match k with Finished _ => true | _ => false end.
Definition is_waiting (k : task) : bool := match k with Waiting _ _ => true | _ => false end.

(** [std::sync::Barrier]: its count and generation. *)
Record Barrier : Set := mkBarrier { b_count : nat; b_generation : nat }.

Definition Barrier_new : Barrier := mkBarrier 0 0.

(** Entering [Barrier::wait] of a barrier of size [n]: the [n]-th arrival
    resets the count and moves to the next generation. *)
Definition arrive (n : nat) (b : Barrier) : Barrier :=
  if (S (b_count b) <? n)%nat then mkBarrier (S (b_count b)) (b_generation b)
  else mkBarrier 0 (S (b_generation b)).

(** A thread that entered in generation [g] comes out of [Barrier::wait] once
    the barrier has moved on. *)
Definition may_leave (g : nat) (b : Barrier) : bool := negb (g =? b_generation b)%nat.

Definition join_error (e : string) : VclError := Api (Fmt "prewarm join: {}" [AText e]) (-1).

Section Prewarm.
Context `{E : Env} (pool : list Z) (shutdown : bool) (n : nat).

Definition config : Type := caller * list task * Barrier * World.

(** [if n == 0 { return Ok(()) }], then the barrier. *)
Definition prewarm_start (w : World) : config :=
  (if (n =? 0)%nat then Returned (Ok tt) else Spawning, [], Barrier_new, w).

Inductive step : config -> config -> Prop :=
| step_spawn ks b w :
    (length ks < n)%nat -> step (Spawning, ks, b, w) (Spawning, ks ++ [Queued], b, w)
| step_spawned ks b w :
    length ks = n -> step (Spawning, ks, b, w) (Joining 0, ks, b, w)
| step_start m l1 l2 t b w :
    t ∈ pool -> t ∉ busy (l1 ++ Queued :: l2) ->
    step (m, l1 ++ Queued :: l2, b, w) (m, l1 ++ Running t :: l2, b, w)
| step_register m l1 l2 t b w o w' :
    on_thread t register_worker_thread w = (o, w') ->
    step (m, l1 ++ Running t :: l2, b, w) (m, l1 ++ Registered t :: l2, b, w')
| step_arrive m l1 l2 t b w :
    step (m, l1 ++ Registered t :: l2, b, w)
         (m, l1 ++ Waiting t (b_generation b) :: l2, arrive n b, w)
| step_leave m l1 l2 t g b w :
    may_leave g b = true ->
    step (m, l1 ++ Waiting t g :: l2, b, w) (m, l1 ++ Finished t :: l2, b, w)
| step_abort m l1 l2 e b w :
    shutdown = true -> step (m, l1 ++ Queued :: l2, b, w) (m, l1 ++ Aborted e :: l2, b, w)
| step_join i t ks b w :
    ks !! i = Some (Finished t) -> step (Joining i, ks, b, w) (Joining (S i), ks, b, w)
| step_join_err i e ks b w :
    ks !! i = Some (Aborted e) -> step (Joining i, ks, b, w) (Returned (Err (join_error e)), ks, b, w)
| step_return ks b w w' :
    do_call (tracing Info (Fmt "VCL workers pre-warmed" [AInt (Z.of_nat n)])) w = (Done tt, w') ->
    step (Joining n, ks, b, w) (Returned (Ok tt), ks, b, w').

(** Every task past registration has its thread marked, or libvppcom refused
    a worker on that thread. *)
Definition registered_or_refused (w : World) (t : Z) : Prop :=
  t ∈ w_registered w \/ exists idx, idx < 0 /\ Ev t vppcom_worker_index idx ∈ w_log w.

(** What the caller knows about the tasks. *)
Definition caller_inv (m : caller) (ks : list task) : Prop :=
  (length ks <= n)%nat /\
  match m with
  | Spawning => True
  | Joining i => length ks = n /\ (i <= n)%nat /\ forall j, (j < i)%nat -> exists t, ks !! j = Some (Finished t)
  | Returned (Ok _) => length ks = n /\ forallb is_finished ks = true
  | Returned (Err e) => length ks = n /\ exists msg, ks !! 0%nat = Some (Aborted msg) /\ e = join_error msg
  end.

(** The barrier and the tasks.  Before it opens, it has counted the tasks
    that wait, fewer than [n] of them, all in its first generation, and no
    task has returned; once open, all [n] tasks have arrived. *)
Definition closed_task (k : task) : bool :=
  match k with Waiting _ g => (g =? 0)%nat | Finished _ => false | _ => true end.
Definition open_task (k : task) : bool :=
  match k with Waiting _ g => (g =? 0)%nat | Finished _ => true | _ => false end.
Definition arrivals (ks : list task) : nat := list_sum ((fun k => if is_waiting k then 1 else 0)%nat <$> ks).

Definition barrier_inv (b : Barrier) (ks : list task) : Prop :=
  b_generation b = 0%nat /\ b_count b = arrivals ks /\ (b_count b <= n - 1)%nat /\ forallb closed_task ks = true \/
  b_generation b = 1%nat /\ length ks = n /\ forallb open_task ks = true.

Definition past_registration (ks : list task) (t : Z) : Prop :=
  Registered t ∈ ks \/ (exists g, Waiting t g ∈ ks) \/ Finished t ∈ ks.

Definition inv (s : config) : Prop :=
  let '(m, ks, b, w) := s in
  caller_inv m ks /\ barrier_inv b ks /\ NoDup (threads ks) /\ (forall t, t ∈ threads ks -> t ∈ pool) /\
  (forall t, past_registration ks t -> registered_or_refused w t).

(** Steps left: each step lowers it. *)
Definition work (k : task) : nat :=
  match k with
  | Queued => 4 | Running _ => 3 | Registered _ => 2 | Waiting _ _ => 1 | Finished _ | Aborted _ => 0
  end.
Definition caller_work (m : caller) : nat :=
  match m with Spawning => n + 2 | Joining i => n - i + 1 | Returned _ => 0 end.
Definition measure (s : config) : nat :=
  let '(m, ks, _, _) := s in 5 * (n - length ks) + list_sum (work <$> ks) + caller_work m.

Lemma threads_app l1 l2 : threads (l1 ++ l2) = threads l1 ++ threads l2.
Proof. apply omap_app. Qed.

(** Before the barrier opens every thread that was given a task still has it. *)
Lemma threads_busy ks : forallb closed_task ks = true -> threads ks = busy ks.
Proof. unfold threads, busy. induction ks as [|[] ks IH]; csimpl; intros; rewrite ?IH by (by bool_to_prop); done. Qed.

Lemma register_marks t w o w' :
  on_thread t register_worker_thread w = (o, w') ->
  w_registered w ⊆ w_registered w' /\ (exists l, w_log w' = w_log w ++ l) /\
  registered_or_refused w' t.
Proof.
  unfold on_thread. pose proof (register_worker_thread_spec (with_tid t w)) as Hs. unfold wp in Hs.
  destruct (register_worker_thread (with_tid t w)) as [o1 w1]. simpl in Hs.
  intros [= <- <-]. destruct Hs as (_ & _ & Hsame & Hnew). unfold registered_or_refused; simpl.
  destruct (decide (t ∈ w_registered w)) as [Hin|Hnin].
  - rewrite (Hsame Hin). simpl. split_and!; [done|exists []; by rewrite app_nil_r|by left].
  - destruct (Hnew Hnin) as (rc & idx & name & Hi). destruct (idx <? 0) eqn:Hneg; destruct Hi as [-> ->].
    + split_and!; [done|eauto|right]. exists idx. bool_to_prop. split; [done|]. set_solver.
    + split_and!; [set_solver|eauto|left]. set_solver.
Qed.

Lemma registered_mono w w' t :
  w_registered w ⊆ w_registered w' -> (exists l, w_log w' = w_log w ++ l) ->
  registered_or_refused w t -> registered_or_refused w' t.
Proof.
  intros Hsub [l Hl] [Hr|(idx & Hneg & Hev)]; [left; set_solver|right].
  exists idx. split; [done|]. rewrite Hl. set_solver.
Qed.

Lemma forallb_app_cons {A} (f : A -> bool) l1 x l2 :
  forallb f (l1 ++ x :: l2) = forallb f l1 && (f x && forallb f l2).
Proof. by rewrite forallb_app. Qed.

Lemma inv_start w : inv (prewarm_start w).
Proof.
  split_and!; [..|constructor|by intros t ?%not_elem_of_nil|].
  - split; [simpl; lia|]. destruct (n =? 0)%nat eqn:Hn; simpl; [by apply Nat.eqb_eq in Hn|done].
  - left. simpl. split_and!; [done..|lia|done].
  - intros t [?%not_elem_of_nil|[[g ?%not_elem_of_nil]|?%not_elem_of_nil]]; done.
Qed.

(** Replacing a task that has neither returned nor been cancelled. *)
Lemma caller_inv_replace m l1 k k' l2 :
  is_finished k = false -> (forall e, k <> Aborted e) ->
  caller_inv m (l1 ++ k :: l2) -> caller_inv m (l1 ++ k' :: l2).
Proof.
  intros Hk Ha. assert (length (l1 ++ k' :: l2) = length (l1 ++ k :: l2)) as Hlen by (by rewrite !length_app).
  assert (forall j x, (l1 ++ k :: l2) !! j = Some x -> x <> k -> (l1 ++ k' :: l2) !! j = Some x) as Hj.
  { intros j x Hx Hne. destruct (decide (j < length l1)%nat) as [Hlt|Hge].
    - rewrite lookup_app_l in Hx |- * by done. done.
    - rewrite lookup_app_r in Hx |- * by lia. destruct (j - length l1)%nat; [by injection Hx|done]. }
  unfold caller_inv. rewrite Hlen. intros [Hle Hm]. split; [done|]. revert Hm.
  destruct m as [|i|[[]|e]]; [done|..].
  - intros (? & ? & Hp). split_and!; [done..|]. intros j Hlt. destruct (Hp j Hlt) as [t Ht]. exists t.
    apply Hj; [done|]. by intros <-.
  - rewrite forallb_app_cons, Hk, andb_false_r. by intros [].
  - intros (? & msg & Hm & ->). split; [done|]. exists msg. split; [|done]. apply Hj; [done|]. intros Heq. by apply (Ha msg).
Qed.

Lemma lookup_forallb {A} (f : A -> bool) ks i k : forallb f ks = true -> ks !! i = Some k -> f k = true.
Proof. intros Hf Hi%list_elem_of_lookup_2%list_elem_of_In. rewrite forallb_forall in Hf. auto. Qed.

Lemma threads_replace l1 k k' l2 :
  thread_of k' = thread_of k -> threads (l1 ++ k' :: l2) = threads (l1 ++ k :: l2).
Proof. intros Hk. rewrite !threads_app. f_equal. unfold threads. csimpl. by rewrite Hk. Qed.

Lemma arrivals_app_cons l1 k l2 :
  arrivals (l1 ++ k :: l2) = ((if is_waiting k then 1 else 0) + arrivals (l1 ++ l2))%nat.
Proof. unfold arrivals. rewrite !fmap_app, !list_sum_app. csimpl. lia. Qed.

(** A task moves short of the barrier: the barrier is closed and stays so. *)
Lemma barrier_replace b l1 k k' l2 :
  open_task k = false -> is_waiting k = false -> is_waiting k' = false -> closed_task k' = true ->
  barrier_inv b (l1 ++ k :: l2) -> barrier_inv b (l1 ++ k' :: l2).
Proof.
  intros Ho Hk Hk' Hc. unfold barrier_inv. rewrite !arrivals_app_cons, !forallb_app_cons, Ho, Hk, Hk', Hc.
  simpl. rewrite andb_false_r. intros [(? & ? & ? & ?)|(_ & _ & ?)]; [left|done].
  bool_to_prop. split_and!; [done..|]. by apply andb_true_intro.
Qed.

(** As many arrivals as tasks: everyone waits. *)
Lemma arrivals_le ks : (arrivals ks <= length ks)%nat.
Proof. unfold arrivals. induction ks as [|k ks IH]; csimpl; [lia|]. destruct (is_waiting k); lia. Qed.

Lemma all_arrived ks :
  forallb closed_task ks = true -> (length ks <= arrivals ks)%nat -> forallb open_task ks = true.
Proof.
  induction ks as [|k ks IH]; [done|]. pose proof (arrivals_le ks). unfold arrivals in *. csimpl. intros Hc Hle.
  bool_to_prop. destruct k; simpl in *; try lia; try done.
  apply andb_true_intro. split; [done|]. apply IH; [done|lia].
Qed.

Lemma barrier_arrive b l1 t l2 :
  (length (l1 ++ Registered t :: l2) <= n)%nat -> barrier_inv b (l1 ++ Registered t :: l2) ->
  barrier_inv (arrive n b) (l1 ++ Waiting t (b_generation b) :: l2).
Proof.
  intros Hlen [(Hg & Hcnt & Hle & Hc)|(_ & _ & Ho)]; [|by rewrite forallb_app_cons, andb_false_r in Ho].
  assert (forallb closed_task (l1 ++ Waiting t 0 :: l2) = true) as Hc'.
  { by rewrite forallb_app_cons in Hc |- *. }
  assert (arrivals (l1 ++ Waiting t 0 :: l2) = S (b_count b)) as Harr.
  { rewrite Hcnt, !arrivals_app_cons. done. }
  pose proof (arrivals_le (l1 ++ Waiting t 0 :: l2)) as Hmax. rewrite Hg.
  rewrite !length_app in Hlen, Hmax. csimpl in Hlen. csimpl in Hmax.
  unfold arrive. destruct (S (b_count b) <? n)%nat eqn:Hlt.
  - apply Nat.ltb_lt in Hlt. left. simpl. split_and!; [done|done|lia|done].
  - apply Nat.ltb_ge in Hlt. right. simpl. rewrite Hg. split_and!; [done|rewrite length_app; csimpl; lia|].
    apply all_arrived; [done|]. rewrite length_app. csimpl. lia.
Qed.

(** Only an open barrier lets a task out. *)
Lemma barrier_leave b l1 t g l2 :
  may_leave g b = true -> barrier_inv b (l1 ++ Waiting t g :: l2) ->
  barrier_inv b (l1 ++ Finished t :: l2) /\ forallb open_task (l1 ++ Waiting t g :: l2) = true.
Proof.
  intros Hmay [(Hg & _ & _ & Hc)|(Hg & Hlen & Ho)].
  - rewrite forallb_app_cons in Hc. unfold may_leave in Hmay. bool_to_prop. simpl in *. rewrite Hg in Hmay.
    by destruct (g =? 0)%nat.
  - split; [|done]. right. split_and!; [done|by rewrite length_app in *|].
    rewrite forallb_app_cons in Ho |- *. by bool_to_prop; repeat (apply andb_true_intro; split).
Qed.

(** The tasks' steps keep the invariant. *)
Lemma inv_start_task m l1 l2 t b w :
  t ∈ pool -> t ∉ busy (l1 ++ Queued :: l2) ->
  inv (m, l1 ++ Queued :: l2, b, w) -> inv (m, l1 ++ Running t :: l2, b, w).
Proof.
  intros Hpool Hfree (Hc & Hb & Hnd & Hsub & Hok).
  assert (t ∉ threads (l1 ++ Queued :: l2)) as Hnew.
  { destruct Hb as [(_ & _ & _ & Hcl)|(_ & _ & Ho)]; [by rewrite threads_busy|].
    by rewrite forallb_app_cons, andb_false_r in Ho. }
  split_and!; [by apply (caller_inv_replace m l1 Queued)|by apply (barrier_replace b l1 Queued)|..];
    rewrite ?threads_app in *; simpl in *.
  - rewrite <- Permutation_middle. by constructor.
  - set_solver.
  - intros t' Ht'. apply Hok. unfold past_registration in *. set_solver.
Qed.

Lemma inv_register m l1 l2 t b w o w' :
  on_thread t register_worker_thread w = (o, w') ->
  inv (m, l1 ++ Running t :: l2, b, w) -> inv (m, l1 ++ Registered t :: l2, b, w').
Proof.
  intros Hreg (Hc & Hb & Hnd & Hsub & Hok). destruct (register_marks _ _ _ _ Hreg) as (Hm & Hl & Hme).
  unfold inv. rewrite (threads_replace l1 (Running t)) by done.
  split_and!; [by apply (caller_inv_replace m l1 (Running t))|by apply (barrier_replace b l1 (Running t))|done..|].
  intros t' Ht'. destruct (decide (t' = t)) as [->|Hne]; [done|].
  apply (registered_mono w); [done..|]. apply Hok. unfold past_registration in *. set_solver.
Qed.

Lemma inv_arrive m l1 l2 t b w :
  inv (m, l1 ++ Registered t :: l2, b, w) ->
  inv (m, l1 ++ Waiting t (b_generation b) :: l2, arrive n b, w).
Proof.
  intros (Hc & Hb & Hnd & Hsub & Hok). unfold inv. rewrite (threads_replace l1 (Registered t)) by done.
  split_and!; [by apply (caller_inv_replace m l1 (Registered t))|apply barrier_arrive; [apply Hc|done]|done..|].
  intros t' Ht'. apply Hok. unfold past_registration in *. set_solver.
Qed.

Lemma inv_leave m l1 l2 t g b w :
  may_leave g b = true ->
  inv (m, l1 ++ Waiting t g :: l2, b, w) -> inv (m, l1 ++ Finished t :: l2, b, w).
Proof.
  intros Hmay (Hc & Hb & Hnd & Hsub & Hok). unfold inv. rewrite (threads_replace l1 (Waiting t g)) by done.
  split_and!; [by apply (caller_inv_replace m l1 (Waiting t g))|by apply (barrier_leave b l1 t g l2)|done..|].
  intros t' Ht'. apply Hok. unfold past_registration in *. set_solver.
Qed.

Lemma inv_abort m l1 l2 e b w :
  inv (m, l1 ++ Queued :: l2, b, w) -> inv (m, l1 ++ Aborted e :: l2, b, w).
Proof.
  intros (Hc & Hb & Hnd & Hsub & Hok). unfold inv. rewrite (threads_replace l1 Queued) by done.
  split_and!; [by apply (caller_inv_replace m l1 Queued)|by apply (barrier_replace b l1 Queued)|done..|].
  intros t' Ht'. apply Hok. unfold past_registration in *. set_solver.
Qed.

Lemma inv_spawn ks b w :
  (length ks < n)%nat -> inv (Spawning, ks, b, w) -> inv (Spawning, ks ++ [Queued], b, w).
Proof.
  intros Hlt (Hc & Hb & Hnd & Hsub & Hok). unfold inv. rewrite threads_app. simpl. rewrite !app_nil_r.
  split_and!; [split; [rewrite length_app; simpl; lia|done]| |done..|].
  - destruct Hb as [(Hg & Hcnt & Hle & Hcl)|(_ & ? & _)]; [left|lia]. unfold arrivals in *.
    rewrite fmap_app, list_sum_app, forallb_app, Hcl. simpl. split_and!; [done|lia|done|done].
  - intros t Ht. apply Hok. unfold past_registration in *. set_solver.
Qed.

(** A task has returned, so the barrier opened and no task was cancelled. *)
Lemma opened ks b i t : barrier_inv b ks -> ks !! i = Some (Finished t) -> forallb open_task ks = true.
Proof.
  intros [(_ & _ & _ & Hcl)|(_ & _ & Ho)] Hi; [by apply (lookup_forallb _ _ _ _ Hcl) in Hi|done].
Qed.

(** And so do the caller's. *)
Lemma inv_join i t ks b w :
  ks !! i = Some (Finished t) -> inv (Joining i, ks, b, w) -> inv (Joining (S i), ks, b, w).
Proof.
  intros Hi ((Hle & Hlen & Hin & Hp) & Hrest). split; [|done]. apply lookup_lt_Some in Hi as Hlt.
  split_and!; [done|done|lia|]. intros j Hj. destruct (decide (j = i)) as [->|]; [eauto|apply Hp; lia].
Qed.

Lemma inv_join_err i e ks b w :
  ks !! i = Some (Aborted e) -> inv (Joining i, ks, b, w) -> inv (Returned (Err (join_error e)), ks, b, w).
Proof.
  intros Hi ((Hle & Hlen & Hin & Hp) & Hb & Hrest). split; [|done]. split_and!; [done..|]. exists e. split; [|done].
  destruct i as [|i]; [done|]. destruct (Hp 0%nat) as [t Ht]; [lia|].
  by apply (lookup_forallb _ _ _ _ (opened _ _ _ _ Hb Ht)) in Hi.
Qed.

Lemma inv_return ks b w w' :
  (exists l, w_log w' = w_log w ++ l) -> w_registered w' = w_registered w ->
  inv (Joining n, ks, b, w) -> inv (Returned (Ok tt), ks, b, w').
Proof.
  intros Hl Hreg ((Hle & Hlen & _ & Hp) & Hb & Hnd & Hsub & Hok). split_and!; [|done..|].
  - split_and!; [done..|]. apply forallb_forall. intros k Hk.
    apply list_elem_of_In, list_elem_of_lookup in Hk as [j Hj]. apply lookup_lt_Some in Hj as Hlt.
    destruct (Hp j) as [t Ht]; [lia|]. by simplify_eq.
  - intros t Ht. apply (registered_mono w); [by rewrite Hreg|done|by apply Hok].
Qed.

Lemma inv_step s s' : step s s' -> inv s -> inv s'.
Proof.
  destruct 1 as [ks b w Hlt|ks b w Hlen|m l1 l2 t b w Hpool Hfree|m l1 l2 t b w o w' Hreg|m l1 l2 t b w
         |m l1 l2 t g b w Hmay|m l1 l2 e b w _|i t ks b w Hi|i e ks b w Hi|ks b w w' Hlog].
  - by apply inv_spawn.
  - intros [[Hle _] Hrest]. split; [|done]. split_and!; [done..|lia|lia].
  - by apply inv_start_task.
  - by apply (inv_register m l1 l2 t b w o w').
  - apply inv_arrive.
  - by apply inv_leave.
  - apply inv_abort.
  - by apply (inv_join i t).
  - by apply inv_join_err.
  - unfold do_call in Hlog. destruct (env_step _ _ _) as [r x]. injection Hlog as _ <-.
    apply inv_return; [by eexists|done].
Qed.

Lemma inv_steps s s' : rtc step s s' -> inv s -> inv s'.
Proof. induction 1; eauto using inv_step. Qed.

(** A pool larger than the set of busy threads has a free one. *)
Lemma free_thread (ts : list Z) :
  NoDup pool -> (length ts < length pool)%nat -> exists t, t ∈ pool /\ t ∉ ts.
Proof.
  intros Hnd Hlt. destruct (decide (Forall (.∈ ts) pool)) as [Hall|Hnot].
  - rewrite Forall_forall in Hall.
    pose proof (submseteq_length _ _ (NoDup_submseteq _ _ Hnd Hall)). lia.
  - apply not_Forall_Exists in Hnot; [|intros ?; apply _]. by apply Exists_exists in Hnot.
Qed.

Lemma all_finished_threads ks : forallb is_finished ks = true -> length (threads ks) = length ks.
Proof. unfold threads. induction ks as [|[] ks IH]; csimpl; try done. intros. f_equal. auto. Qed.

Lemma finished_thread ks t : forallb is_finished ks = true -> t ∈ threads ks -> Finished t ∈ ks.
Proof.
  intros Hf Ht. apply list_elem_of_omap in Ht as (k & Hin & Hk). apply list_elem_of_lookup in Hin as [i Hi].
  apply (lookup_forallb _ _ _ _ Hf) in Hi as Hfk. destruct k; simplify_eq/=; try done. by eapply list_elem_of_lookup_2.
Qed.

Lemma no_aborts s s' :
  shutdown = false -> rtc step s s' -> (forall e, Aborted e ∉ s.1.1.2) -> forall e, Aborted e ∉ s'.1.1.2.
Proof.
  intros Hsd. induction 1 as [|s1 s2 s3 Hs _ IH]; [done|]. intros Ha. apply IH. intros e. specialize (Ha e).
  destruct Hs; simpl in *; try congruence; set_solver.
Qed.

(** C35. When [prewarm(n)] succeeds, its [n] tasks ran on [n] pairwise
    distinct pool threads, and each of those threads is registered with VCL
    or was refused a worker by libvppcom.  The runtime may run one task after
    another on the same thread; that no thread ran two of these tasks is the
    barrier's doing, which lets none of them return before all [n] have
    arrived.  It fails only if the runtime, shutting down, never ran the first
    task, and then with that task's join error. *)
Theorem prewarm_outcome w r ks b w' :
  rtc step (prewarm_start w) (Returned r, ks, b, w') ->
  match r with
  | Ok _ => NoDup (threads ks) /\ length (threads ks) = n /\
      (forall t, t ∈ threads ks -> t ∈ pool /\ registered_or_refused w' t)
  | Err e => shutdown = true /\ exists msg, ks !! 0%nat = Some (Aborted msg) /\ e = join_error msg
  end.
Proof.
  intros Hsteps. destruct (inv_steps _ _ Hsteps (inv_start w)) as ([_ Hc] & _ & Hnd & Hsub & Hok).
  destruct r as [u|e]; destruct Hc as [Hlen Hf].
  2:{ split; [|done]. destruct Hf as (msg & Hm & _). apply not_false_is_true. intros Hsd.
      apply (no_aborts _ _ Hsd Hsteps) with msg; [unfold prewarm_start; set_solver|by eapply list_elem_of_lookup_2]. }
  split_and!; [done|by rewrite all_finished_threads|].
  intros t Ht. split; [auto|]. apply Hok. right; right. by apply finished_thread.
Qed.

Lemma measure_step s s' : step s s' -> inv s -> (measure s' < measure s)%nat.
Proof.
  intros Hs.
  destruct Hs as [ks b w Hlt|ks b w Hlen|m l1 l2 t b w Hpool Hfree|m l1 l2 t b w o w' Hreg|m l1 l2 t b w
         |m l1 l2 t g b w Hmay|m l1 l2 e b w _|i t ks b w Hi|i e ks b w Hi|ks b w w' Hlog];
    intros ([_ Hc] & _); unfold measure;
    rewrite ?fmap_app, ?list_sum_app, ?length_app; csimpl; try lia.
  destruct Hc as (? & ? & _). apply lookup_lt_Some in Hi. lia.
Qed.

Lemma measure_start w : (measure (prewarm_start w) <= 6 * n + 2)%nat.
Proof. unfold prewarm_start, measure. destruct (n =? 0)%nat; simpl; lia. Qed.

(** A closed barrier has not counted everyone: some task is short of it. *)
Lemma some_short ks :
  (forall e, Aborted e ∉ ks) -> forallb closed_task ks = true -> (arrivals ks < length ks)%nat ->
  Queued ∈ ks \/ (exists t, Running t ∈ ks) \/ (exists t, Registered t ∈ ks).
Proof.
  unfold arrivals. induction ks as [|k ks IH]; csimpl; [lia|]. intros Ha Hc Hlt. bool_to_prop.
  destruct k; simpl in *; [set_solver..| |done|destruct (Ha e); set_solver].
  destruct IH as [?|[[t' ?]|[t' ?]]]; [set_solver|done|lia|set_solver..].
Qed.

Lemma busy_queued l1 l2 : (length (busy (l1 ++ Queued :: l2)) < length (l1 ++ Queued :: l2))%nat.
Proof.
  assert (forall ks, (length (busy ks) <= length ks)%nat) as Hle.
  { unfold busy. induction ks as [|[] ks IH]; csimpl; lia. }
  unfold busy in *. rewrite omap_app, !length_app. csimpl. pose proof (Hle l1). pose proof (Hle l2). lia.
Qed.

(** A task can move while the barrier is closed. *)
Lemma tasks_progress m ks b w :
  NoDup pool -> (n <= length pool)%nat -> length ks = n -> (arrivals ks < n)%nat -> (forall e, Aborted e ∉ ks) ->
  forallb closed_task ks = true -> exists s, step (m, ks, b, w) s.
Proof.
  intros Hnd Hcap Hlen Harr Ha Hc. destruct (some_short ks Ha Hc) as [Hq|[[t Ht]|[t Ht]]]; [lia|..].
  - apply list_elem_of_split in Hq as (l1 & l2 & ->). pose proof (busy_queued l1 l2).
    destruct (free_thread (busy (l1 ++ Queued :: l2)) Hnd) as (t & Ht & Hfree); [lia|].
    eexists. by apply (step_start m l1 l2 t).
  - apply list_elem_of_split in Ht as (l1 & l2 & ->).
    destruct (on_thread t register_worker_thread w) as [o w2] eqn:Hr. eexists. by apply (step_register m l1 l2 t b w o).
  - apply list_elem_of_split in Ht as (l1 & l2 & ->). eexists. apply step_arrive.
Qed.

(** All handles joined: the caller logs and returns. *)
Lemma joined_returns ks b w : exists s, step (Joining n, ks, b, w) s.
Proof.
  destruct (do_call_Done (tracing Info (Fmt "VCL workers pre-warmed" [AInt (Z.of_nat n)])) w) as ([] & w' & Hd).
  eexists. by apply step_return.
Qed.

(** Once the barrier is open, the task the caller is joining has returned or
    can. *)
Lemma open_progress i ks b w :
  b_generation b = 1%nat -> length ks = n -> (i <= n)%nat -> forallb open_task ks = true ->
  exists s, step (Joining i, ks, b, w) s.
Proof.
  intros Hg Hlen Hi Ho. destruct (decide (i = n)) as [->|]; [apply joined_returns|].
  destruct (lookup_lt_is_Some_2 ks i) as [k Hk]; [lia|]. apply (lookup_forallb _ _ _ _ Ho) in Hk as Hok.
  destruct k as [| | |t g|t|]; try done; [|eexists; by eapply step_join].
  apply list_elem_of_split_length in Hk as (l1 & l2 & -> & _). eexists. apply step_leave.
  simpl in Hok. apply Nat.eqb_eq in Hok. unfold may_leave. by rewrite Hok, Hg.
Qed.

(** C37. With at least [n] pool threads, and a runtime that is not shutting
    down, [prewarm(n)] cannot deadlock and terminates: every reachable state
    in which it has not returned can take a step, and every step lowers a
    measure that starts at no more than 6n+2, so no schedule runs longer. *)
Theorem prewarm_terminates w s :
  shutdown = false -> NoDup pool -> (n <= length pool)%nat -> rtc step (prewarm_start w) s ->
  (s.1.1.1 = Returned (Ok tt) \/ exists s', step s s') /\
  (forall s', step s s' -> (measure s' < measure s)%nat) /\
  (measure (prewarm_start w) <= 6 * n + 2)%nat.
Proof.
  intros Hsd Hnd Hcap Hsteps. pose proof (inv_steps _ _ Hsteps (inv_start w)) as Hinv.
  assert (forall e, Aborted e ∉ s.1.1.2) as Ha.
  { eapply no_aborts; [done|exact Hsteps|]. unfold prewarm_start. set_solver. }
  split_and!; [|by intros s' Hs; apply measure_step in Hs|apply measure_start].
  destruct s as [[[m ks] b] w']. destruct Hinv as ([Hle Hc] & Hb & _). simpl in *.
  destruct m as [|i|[[]|e]]; simpl in Hc; [..|by left|].
  - right. destruct (decide (length ks = n)); eexists; [by apply step_spawned|apply step_spawn; lia].
  - right. destruct Hc as (Hlen & Hi & Hp). destruct Hb as [(Hg & Hcnt & Hlt & Hcl)|(Hg & _ & Ho)]; [|by apply open_progress].
    destruct i as [|i]; [|destruct (Hp 0%nat) as [t Ht]; [lia|by apply (lookup_forallb _ _ _ _ Hcl) in Ht]].
    destruct (decide (n = 0)%nat) as [H0|]; [|apply tasks_progress; [done..|lia|done|done]].
    rewrite <- H0. apply joined_returns.
  - destruct Hc as (_ & msg & Hm & _). apply list_elem_of_lookup_2 in Hm. by destruct (Ha msg).
Qed.

(** A runtime that shuts down while [prewarm(2)] runs can leave it waiting for
    ever: one task is at the barrier, the other was cancelled before it
    started, and the caller joins the first. *)
Lemma prewarm_shutdown_hangs w t e :
  shutdown = true -> n = 2%nat -> t ∈ pool ->
  exists w', rtc step (prewarm_start w) (Joining 0, [Waiting t 0; Aborted e], mkBarrier 1 0, w') /\
    forall s', ~ step (Joining 0, [Waiting t 0; Aborted e], mkBarrier 1 0, w') s'.
Proof.
  intros Hsd Hn Hpool. destruct (on_thread t register_worker_thread w) as [o w'] eqn:Hr. exists w'. split.
  - unfold prewarm_start, Barrier_new. rewrite (proj2 (Nat.eqb_neq n 0)) by lia.
    eapply rtc_l; [apply step_spawn; simpl; lia|]. eapply rtc_l; [apply step_spawn; simpl; lia|].
    eapply rtc_l; [apply step_spawned; by rewrite Hn|].
    eapply rtc_l; [apply (step_abort (Joining 0) [Queued] [] e); done|].
    eapply rtc_l; [apply (step_start (Joining 0) [] [Aborted e] t); [done|set_solver]|].
    eapply rtc_l; [apply (step_register (Joining 0) [] [Aborted e] t _ w o w' Hr)|].
    eapply rtc_l; [apply (step_arrive (Joining 0) [] [Aborted e] t)|].
    unfold arrive. simpl. rewrite Hn. apply rtc_refl.
  - intros s' Hs. inversion Hs; simplify_eq/=;
      repeat match goal with H : ?l ++ _ = _ :: _ |- _ => destruct l; simplify_eq/= | H : ?l ++ _ = [] |- _ => destruct l; simplify_eq/= end; lia.
Qed.

Lemma register_marked t w : t ∈ w_registered w -> on_thread t register_worker_thread w = (Done tt, w).
Proof.
  intros Hin. unfold on_thread. pose proof (register_worker_thread_spec (with_tid t w)) as Hs. unfold wp in Hs.
  destruct (register_worker_thread _) as [o w1]. simpl in Hs. destruct Hs as (-> & _ & Hsame & _).
  rewrite Hsame by done. by destruct w.
Qed.

(** C36. After [prewarm(n)] on a pool of exactly [n] threads no registration
    is left to race with: when it has succeeded and libvppcom refused no
    worker, [register_worker_thread] on any thread of the pool returns without
    a foreign call and changes nothing. *)
Theorem prewarm_quiesces w ks b w' :
  length pool = n -> rtc step (prewarm_start w) (Returned (Ok tt), ks, b, w') ->
  (forall t idx, Ev t vppcom_worker_index idx ∈ w_log w' -> 0 <= idx) ->
  forall t, t ∈ pool -> on_thread t register_worker_thread w' = (Done tt, w').
Proof.
  intros Hpool Hsteps Hidx t Ht. apply register_marked.
  pose proof (inv_steps _ _ Hsteps (inv_start w)) as ((_ & Hlen & Hf) & _ & Hnd & Hsub & Hok).
  assert (threads ks ≡ₚ pool) as Hperm.
  { apply submseteq_length_Permutation; [by apply NoDup_submseteq|]. rewrite all_finished_threads by done. lia. }
  rewrite <- Hperm in Ht. destruct (Hok t) as [Hreg|(idx & Hneg & Hin)]; [|done|].
  - right; right. by apply finished_thread.
  - apply Hidx in Hin. lia.
Qed.

(** With fewer than [n] pool threads [prewarm(n)] never succeeds: the
    barrier cannot fill up, which is why the pool must have at least [n]
    threads. *)
Theorem prewarm_small_pool_deadlocks w ks b w' :
  (length pool < n)%nat -> rtc step (prewarm_start w) (Returned (Ok tt), ks, b, w') -> False.
Proof.
  intros Hcap Hsteps. pose proof (inv_steps _ _ Hsteps (inv_start w)) as ((_ & Hlen & Hf) & _ & Hnd & Hsub & _).
  pose proof (submseteq_length _ _ (NoDup_submseteq _ _ Hnd Hsub)). rewrite all_finished_threads in H by done. lia.
Qed.
End Prewarm.
