(* ===== verification/Reactor.v ===== *)
(** * The reactor (src/reactor.rs)

    A VCL epoll set, a map from session handles to the [Notify] their waiters
    share, the periodic drain task, and [wait_event].  An [async fn] is
    modelled the way the compiler builds it: a state machine with a [poll]
    function, driven by a loop that yields to the runtime whenever the poll
    is pending. *)

From S2P Require Import Prelude Net Errors Ffi World Sim.

Definition REACTOR_STALL_THRESHOLD : Z := millis 500.

Inductive Poll (A : Type) : Type :=
| Ready (a : A)
| Pending.
Arguments Ready {A} a.
Arguments Pending {A}.

(** The states of the [wait_event] future: not yet polled, suspended in the
    [select!], and suspended in the zero timeout that follows a drain. *)
Inductive WaitFut : Set :=
| WfStart (h timeout : Z)
| WfSelect (n : nat) (deadline : Z)
| WfRecheck (n : nat) (deadline : Z).

Inductive Selected : Set :=
| SelMq (e : option IoError)
| SelNotified
| SelDeadline.

Definition zero_event : epoll_event := mkEvent 0 0.

(** The warning of the stall watch, with the worker's name and the gap in
    milliseconds. *)
Definition stall_message (worker : string) (stalled_ms : Z) : Message :=
  Fmt "VclReactor tick stalled — worker thread was blocked (likely a blocking libvppcom op); queries in flight on this worker hung for that long"
    [AText worker; AInt stalled_ms].

Section Reactor.
Context `{E : Env}.

Definition register (h : Z) : M (Result unit) :=
  inner ← get_reactor;
  rc ← do_call (vppcom_epoll_ctl (vep inner) EPOLL_CTL_ADD h
                  (Some (mkEvent (Z.lor (Z.lor EPOLLIN EPOLLOUT) EPOLLET) h)));
  if rc <? 0 then mret (Err (from_rc rc)) else mret (Ok tt).

Definition deregister (h : Z) : M unit :=
  inner ← get_reactor;
  _ ← set_reactor (mkReactor (vep inner) (delete h (waiters inner)));
  _ ← do_call (vppcom_epoll_ctl (vep inner) EPOLL_CTL_DEL h None);
  mret tt.

(** [for i in 0..n { ... events[i] ... }]: indexing past the array panics. *)
Fixpoint notify_range (ws : gmap Z nat) (events : list epoll_event) (i n : nat) : M unit :=
  match n with
  | O => mret tt
  | S n' =>
      match events !! i with
      | None => panic
      | Some ev =>
          let sh := as_u32 (ev_data ev) in
          _ ← match ws !! sh with
              | Some notify => do_call (notify_one notify)
              | None => mret tt
              end;
          notify_range ws events (S i) n'
      end
  end.

(** One round of the drain loop; the event array keeps what earlier rounds
    left in it. *)
Definition drain_round (inner : ReactorInner) (events : list epoll_event) : M (list epoll_event + unit) :=
  '(n, evs) ← do_call (vppcom_epoll_wait (vep inner) events (len events) 0);
  let events := fill events evs in
  if n <=? 0 then mret (inr tt)
  else
    _ ← notify_range (waiters inner) events 0 (Z.to_nat n);
    if n <? len events then mret (inr tt) else mret (inl events).

(** The mutex is held throughout, so [inner] is fixed. *)
Definition drain_events_with_inner (fuel : nat) : M unit :=
  inner ← get_reactor;
  loop fuel (drain_round inner) (replicate 64 zero_event).

(** [VclReactor::drain_events]. *)
Definition drain_events (fuel : nat) : M unit := drain_events_with_inner fuel.

Fixpoint notify_all (l : list (Z * nat)) : M unit :=
  match l with
  | [] => mret tt
  | (_, notify) :: l' => _ ← do_call (notify_one notify); notify_all l'
  end.

(** [Instant::duration_since] saturates at zero. *)
Definition duration_since (later earlier : Z) : Z := Z.max 0 (later - earlier).

(** One tick of the background task: [st] is [(last_alive, prev_tick)]. *)
Definition drainer_round (fuel : nat) (worker : string) (st : Z * Z) : M (Z * Z + unit) :=
  let '(last_alive, prev_tick) := st in
  _ ← yield_now;
  now ← do_call instant_now;
  let gap := duration_since now prev_tick in
  let prev_tick := now in
  _ ← (if REACTOR_STALL_THRESHOLD <=? gap then
         do_call (tracing Warn (stall_message worker (as_u64 (gap / 1000000))))
       else mret tt);
  alive ← do_call weak_upgrade;
  if negb alive then mret (inr tt)
  else
    _ ← drain_events_with_inner fuel;
    inner ← get_reactor;
    _ ← notify_all (map_to_list (waiters inner));
    now ← do_call instant_now;
    let log := secs 60 <=? duration_since now last_alive in
    let last_alive := if log then now else last_alive in
    _ ← (if (log : bool) then
           do_call (tracing Info (Fmt "VclReactor drainer alive" [AInt (Z.of_nat (size (waiters inner)))]))
         else mret tt);
    mret (inl (last_alive, prev_tick)).

Definition drainer (fuel : nat) : M unit :=
  _ ← do_call (interval_new (millis 10));
  _ ← do_call (interval_set_missed_tick_behavior Delay);
  name ← do_call thread_name;
  let worker := default "?" name in
  last_alive ← do_call instant_now;
  loop fuel (drainer_round fuel worker) (last_alive, last_alive).

(** [VclReactor::new]; the task it spawns is [drainer]. *)
Definition reactor_new : M (Result unit) :=
  v ← do_call vppcom_epoll_create;
  if v <? 0 then mret (Err (from_rc v))
  else
    mq_raw ← do_call vppcom_mq_epoll_fd;
    if mq_raw <? 0 then
      mret (Err (Api (Lit "vppcom_mq_epoll_fd returned negative") mq_raw))
    else
      e ← do_call (async_fd_with_interest mq_raw);
      match e with
      | Some e => mret (Err (Io e))
      | None => _ ← set_reactor (mkReactor (as_u32 v) ∅); _ ← do_call spawn_task; mret (Ok tt)
      end.

(** [waiters.entry(h).or_insert_with(|| Arc::new(Notify::new())).clone()]. *)
Definition entry_or_insert (h : Z) : M nat :=
  inner ← get_reactor;
  match waiters inner !! h with
  | Some n => mret n
  | None =>
      n ← do_call notify_new;
      _ ← set_reactor (mkReactor (vep inner) (<[h := n]> (waiters inner)));
      mret n
  end.

(** [select!] polls its branches in the order the runtime picks; the first
    ready one wins. *)
Fixpoint poll_select (order : list Branch) (n : nat) (deadline : Z) : M (option Selected) :=
  match order with
  | [] => mret None
  | BrMq :: rest =>
      r ← do_call poll_mq_readable;
      match r with
      | Some e => mret (Some (SelMq e))
      | None => poll_select rest n deadline
      end
  | BrNotified :: rest =>
      b ← do_call (poll_notified n);
      if (b : bool) then mret (Some SelNotified) else poll_select rest n deadline
  | BrDeadline :: rest =>
      b ← do_call (poll_sleep_until deadline);
      if (b : bool) then mret (Some SelDeadline) else poll_select rest n deadline
  end.

Definition poll_wait_round (fuel : nat) (fut : WaitFut)
    : M (WaitFut + (Poll (Result unit) * WaitFut)) :=
  match fut with
  | WfStart h timeout =>
      n ← entry_or_insert h;
      now ← do_call instant_now;
      deadline ← instant_add now timeout;
      mret (inl (WfSelect n deadline))
  | WfSelect n deadline =>
      order ← do_call select_order;
      sel ← poll_select order n deadline;
      match sel with
      | None => mret (inr (Pending, fut))
      | Some (SelMq (Some e)) => mret (inr (Ready (Err (Io e)), fut))
      | Some (SelMq None) =>
          _ ← drain_events fuel;
          _ ← do_call clear_ready;
          mret (inl (WfRecheck n deadline))
      | Some SelNotified => mret (inr (Ready (Ok tt), fut))
      | Some SelDeadline => mret (inr (Ready (Err Timeout), fut))
      end
  | WfRecheck n deadline =>
      b ← do_call (poll_notified n);
      if (b : bool) then mret (inr (Ready (Ok tt), fut))
      else
        elapsed ← do_call poll_timeout_zero;
        if (elapsed : bool) then mret (inl (WfSelect n deadline))
        else mret (inr (Pending, fut))
  end.

(** One [poll] of the future. *)
Definition poll_wait (fuel : nat) (fut : WaitFut) : M (Poll (Result unit) * WaitFut) :=
  loop fuel (poll_wait_round fuel) fut.

(** [.await]: poll, and yield while pending. *)
Definition await_round (fuel : nat) (fut : WaitFut) : M (WaitFut + Result unit) :=
  '(p, fut) ← poll_wait fuel fut;
  match p with
  | Ready r => mret (inr r)
  | Pending => _ ← yield_now; mret (inl fut)
  end.

Definition await (fuel : nat) (fut : WaitFut) : M (Result unit) :=
  loop fuel (await_round fuel) fut.

(** The event mask is ignored by the code. *)
Definition wait_event (fuel : nat) (h event_mask timeout : Z) : M (Result unit) :=
  await fuel (WfStart h timeout).

Definition wait_readable (fuel : nat) (h timeout : Z) : M (Result unit) :=
  wait_event fuel h EPOLLIN timeout.

Definition wait_writable (fuel : nat) (h timeout : Z) : M (Result unit) :=
  wait_event fuel h EPOLLOUT timeout.
End Reactor.

(** ** Traces of draining and waiting *)

(** What the epoll documentation promises: at most [maxevents] events, and as
    many in the array as the count says. *)
Definition epoll_ok (c : call) : ret c -> Prop :=
  match c with
  | vppcom_epoll_wait _ _ maxevents _ => fun r => r.1 <= maxevents /\ (0 < r.1 -> len r.2 = r.1)
  | _ => fun _ => True
  end.

(** The waiters a list of events names, in order. *)
Definition waiters_of (ws : gmap Z nat) (evs : list epoll_event) : list nat :=
  omap (fun ev => ws !! as_u32 (ev_data ev)) evs.

(** Draining only polls the epoll set and wakes tasks. *)
Definition drain_event (e : event) : bool :=
  match e with Ev _ (vppcom_epoll_wait _ _ _ _) _ | Ev _ (notify_one _) _ => true | _ => false end.
Definition drain_only (l : trace) : Prop := Forall (fun e => drain_event e = true) l.

Lemma drain_only_app l k : drain_only l -> drain_only k -> drain_only (l ++ k).
Proof. intros. by apply Forall_app. Qed.

Lemma drain_only_quiet l : drain_only l -> quiet l /\ clocks l = [].
Proof.
  induction 1 as [|[t c r] l He Hl [IHq IHc]]; [split; [constructor|done]|].
  split; [constructor; [by destruct c|done]|]. unfold clocks in *. csimpl. rewrite IHc. by destruct c.
Qed.

Section Drain.
Context `{E : Env} (t : Z).

Lemma register_emits_add h :
  emits t (register h) (fun o l => exists v rc,
    l = [Ev t (vppcom_epoll_ctl v EPOLL_CTL_ADD h
                 (Some (mkEvent (Z.lor (Z.lor EPOLLIN EPOLLOUT) EPOLLET) h))) rc] /\
    o = Done (if rc <? 0 then Err (from_rc rc) else Ok tt)).
Proof.
  unfold register. apply emits_bind, emits_gets. intros inner. apply emits_bind.
  call_with any_answer. intros rc _. cbn [ret] in rc.
  destruct (rc <? 0) eqn:Hrc; apply emits_ret; exists (vep inner), rc; by rewrite Hrc.
Qed.

Lemma notify_range_emits ws events i n :
  emits t (notify_range ws events i n) (fun o l => drain_only l /\ delivered l = [] /\
    ((i + n <= length events)%nat ->
     o = Done tt /\ notified l = waiters_of ws (take n (drop i events)))).
Proof.
  revert i. induction n as [|n IH]; intros i; simpl.
  - apply emits_ret. split_and!; [constructor|done|]. by intros _.
  - destruct (events !! i) as [ev|] eqn:Hev.
    2:{ apply emits_panic. split_and!; [constructor|done|].
        apply lookup_ge_None in Hev. lia. }
    apply emits_bind. eapply (emits_mono _ _ (fun o l => o = Done tt /\ drain_only l /\
      delivered l = [] /\ notified l = waiters_of ws [ev])).
    { unfold waiters_of. simpl. destruct (ws !! as_u32 (ev_data ev)) as [m|] eqn:Hm.
      - call_with any_answer. intros [] _. split_and!; try done. by repeat constructor.
      - apply emits_ret. split_and!; try done. constructor. }
    intros o l (-> & Hq & Hd & Hn). eapply emits_mono; [apply IH|].
    intros o' l' (Hq' & Hd' & Hdone). rewrite delivered_app, notified_app, Hd, Hd'.
    split_and!; [by apply drain_only_app|done|]. intros Hle.
    destruct Hdone as [-> ->]; [lia|]. split; [done|].
    rewrite (drop_S events ev i) by done. rewrite Hn. unfold waiters_of. simpl.
    by destruct (ws !! as_u32 (ev_data ev)).
Qed.

Lemma drain_loop_only inner fuel events :
  emits t (loop fuel (drain_round inner) events) (fun o l => drain_only l).
Proof.
  apply (emits_loop (fun _ l => drain_only l)); [constructor| |done].
  intros evs l Hq. unfold drain_round. apply emits_bind. call_with any_answer.
  intros [n es] _. destruct (n <=? 0).
  { apply emits_ret. apply drain_only_app; [done|by repeat constructor]. }
  apply emits_bind. eapply emits_mono; [apply notify_range_emits|].
  intros o l' (Hq' & _).
  assert (drain_only (l ++ [Ev t (vppcom_epoll_wait (vep inner) evs (len evs) 0) (n, es)] ++ l')) as Hall.
  { apply drain_only_app; [done|]. apply drain_only_app; [by repeat constructor|done]. }
  destruct o as [[]| |]; [|done..].
  destruct (n <? len (fill evs es)); apply emits_ret; by rewrite app_nil_r.
Qed.

Lemma drain_loop_notifies `{!EnvSat epoll_ok} inner fuel :
  emits t (loop fuel (drain_round inner) (replicate 64 zero_event)) (fun o l =>
    (forall c, o <> Unwound c) /\ notified l = waiters_of (waiters inner) (delivered l)).
Proof.
  apply (emits_loop (fun evs l => length evs = 64%nat /\
    notified l = waiters_of (waiters inner) (delivered l))); [done| |naive_solver].
  intros evs l [Hlen Hl]. unfold drain_round. apply emits_bind. call_with epoll_ok.
  intros [n es] [Hmax Hes]. simpl in Hmax, Hes. assert (len evs = 64) as He by (unfold len; lia).
  destruct (n <=? 0) eqn:Hn.
  { apply emits_ret. split; [done|]. rewrite notified_app, delivered_app, Hl.
    unfold notified, delivered. simpl. by rewrite Hn, !app_nil_r. }
  bool_to_prop. assert (length es = Z.to_nat n) as Hlenes by (unfold len in Hes; lia).
  apply emits_bind. eapply emits_mono; [apply notify_range_emits|].
  intros o l' (_ & Hd & Hdone).
  destruct Hdone as [-> Hnl]; [rewrite length_fill; lia|].
  rewrite drop_0, take_fill in Hnl by lia.
  assert (notified (l ++ [Ev t (vppcom_epoll_wait (vep inner) evs (len evs) 0) (n, es)] ++ l')
          = waiters_of (waiters inner)
              (delivered (l ++ [Ev t (vppcom_epoll_wait (vep inner) evs (len evs) 0) (n, es)] ++ l'))) as Hall.
  { rewrite !notified_app, !delivered_app, Hd, Hnl, Hl. unfold delivered at 3. simpl.
    replace (n <=? 0) with false by (symmetry; apply Z.leb_gt; lia).
    unfold waiters_of. by rewrite omap_app, !app_nil_r. }
  destruct (n <? len (fill evs es)); apply emits_ret; rewrite app_nil_r; [done|].
  split; [by rewrite length_fill|done].
Qed.
End Drain.

(** ** Draining, on worlds *)

Section DrainWorld.
Context `{E : Env}.
Implicit Types w : World.

Lemma notify_range_keeps ws events i n : keeps (notify_range ws events i n).
Proof.
  revert i. induction n as [|n IH]; intros i; simpl; [apply keeps_ret|].
  destruct (events !! i); [|apply keeps_panic]. apply keeps_bind; [|done].
  case_match; auto with keeps.
Qed.

Lemma drain_keeps fuel : keeps (drain_events_with_inner fuel).
Proof.
  apply keeps_bind; [apply keeps_gets|]. intros inner. apply keeps_loop. intros evs.
  unfold drain_round. apply keeps_bind; [exact (keeps_call _)|]. intros [n es].
  case_match; [apply keeps_ret|]. apply keeps_bind; [apply notify_range_keeps|].
  intros _. case_match; apply keeps_ret.
Qed.

Lemma drain_run t fuel w (Q : Outcome unit -> trace -> Prop) o w' :
  emits t (loop fuel (drain_round (w_reactor w)) (replicate 64 zero_event)) Q ->
  w_tid w = t -> drain_events_with_inner fuel w = (o, w') ->
  exists l, w_log w' = w_log w ++ l /\ Q o l.
Proof. intros He Ht Hr. by eapply emits_run. Qed.

(** C14. Draining wakes exactly the waiters of the sessions the epoll set
    reported: one [notify_one] per reported event whose session has a waiter,
    in order, none for any other session, and no index out of the event
    array, whatever the environment's events are. *)
Theorem drain_wakes_reported `{!EnvSat epoll_ok} fuel w o w' :
  drain_events_with_inner fuel w = (o, w') ->
  (forall c, o <> Unwound c) /\ w_reactor w' = w_reactor w /\
  exists l, w_log w' = w_log w ++ l /\ quiet l /\
    notified l = waiters_of (waiters (w_reactor w)) (delivered l).
Proof.
  intros Hr. pose proof (drain_keeps fuel w) as (Hk & _). rewrite Hr in Hk. simpl in Hk.
  destruct (drain_run (w_tid w) fuel w (fun o l => drain_only l /\
    (forall c, o <> Unwound c) /\ notified l = waiters_of (waiters (w_reactor w)) (delivered l)) o w')
    as (l & Hl & Hq%drain_only_quiet & Hp & Hn); [|done..|].
  { apply emits_and; [apply drain_loop_only|by apply drain_loop_notifies]. }
  destruct Hq. split_and!; [done..|]. by exists l.
Qed.
End DrainWorld.

(** ** Draining a queue

    libvppcom's epoll set as a queue: a non-blocking [vppcom_epoll_wait] hands
    out up to [maxevents] of the pending events and removes them, and waking a
    task adds none. *)

Class EpollQueue `{Env} (pending : ext -> list epoll_event) : Prop := {
  queue_wait : forall v es m t x n evs x',
    env_step (vppcom_epoll_wait v es m 0) t x = ((n, evs), x') ->
    evs = take (Z.to_nat m) (pending x) /\ n = len evs /\
    pending x' = drop (Z.to_nat m) (pending x);
  queue_notify : forall k t x r x',
    env_step (notify_one k) t x = (r, x') -> pending x' = pending x
}.

(** One batch less to go. *)
Lemma batch_rounds (p fuel : nat) :
  (64 <= p)%nat -> (p / 64 < S fuel)%nat -> ((p - 64) / 64 < fuel)%nat.
Proof.
  intros Hp Hr. replace p with (p - 64 + 1 * 64)%nat in Hr by lia.
  rewrite Nat.div_add in Hr by lia. lia.
Qed.

Section DrainQueue.
Context `{E : Env} (pending : ext -> list epoll_event) `{!EpollQueue pending}.
Implicit Types w : World.

Lemma notify_range_pending ws events i n w :
  pending (w_ext (notify_range ws events i n w).2) = pending (w_ext w).
Proof.
  revert i w. induction n as [|n IH]; intros i w; simpl; [done|].
  destruct (events !! i); [|done]. destruct (ws !! _); [|apply IH].
  unfold mbind, M_bind, do_call. destruct (env_step _ _ _) as [r x] eqn:He.
  rewrite IH. simpl. by eapply queue_notify.
Qed.

Lemma drain_loop_empties inner fuel events w :
  length events = 64%nat -> (length (pending (w_ext w)) / 64 < fuel)%nat ->
  exists w' l, loop fuel (drain_round inner) events w = (Done tt, w') /\
    w_log w' = w_log w ++ l /\ delivered l = pending (w_ext w) /\ pending (w_ext w') = [].
Proof.
  revert events w. induction fuel as [|fuel IH]; intros events w Hlen Hfuel; [lia|].
  simpl. unfold mbind at 1, M_bind at 1, drain_round at 1, mbind at 1, M_bind at 1, do_call.
  destruct (env_step _ _ _) as [[n evs] x] eqn:He.
  apply queue_wait in He as (Hevs & Hn & Hx).
  assert (Z.to_nat (len events) = 64%nat) as H64 by (unfold len; lia). rewrite H64 in *.
  assert (length evs = min 64 (length (pending (w_ext w)))) as Hle by (by rewrite Hevs, length_take).
  set (w1 := push_event (Ev (w_tid w) (vppcom_epoll_wait (vep inner) events (len events) 0) (n, evs)) (with_ext x w)).
  destruct (n <=? 0) eqn:Hn0.
  { bool_to_prop. unfold len in Hn. assert (length (pending (w_ext w)) = 0%nat) as Hp by lia.
    exists w1. eexists. split_and!; [done|done| |].
    - apply nil_length_inv in Hp. rewrite Hp. unfold delivered. simpl.
      by rewrite (proj2 (Z.leb_le _ _)) by lia.
    - simpl. apply nil_length_inv in Hp. by rewrite Hx, Hp. }
  bool_to_prop.
  assert (delivered [Ev (w_tid w) (vppcom_epoll_wait (vep inner) events (len events) 0) (n, evs)]
          = take 64 (pending (w_ext w))) as Hdel.
  { unfold delivered. simpl. rewrite (proj2 (Z.leb_gt _ _)) by lia.
    rewrite app_nil_r, take_ge by (unfold len in Hn; lia). done. }
  pose proof (notify_range_emits (w_tid w1) (waiters inner) (fill events evs) 0 (Z.to_nat n) w1 eq_refl)
    as (_ & l1 & Hl1 & _ & Hd1 & Hdone).
  pose proof (notify_range_pending (waiters inner) (fill events evs) 0 (Z.to_nat n) w1) as Hp1.
  unfold mbind, M_bind. fold w1.
  destruct (notify_range (waiters inner) (fill events evs) 0 (Z.to_nat n) w1) as [o2 w2].
  simpl in Hl1, Hdone, Hp1.
  destruct Hdone as [-> _]; [rewrite length_fill; unfold len in Hn; lia|].
  assert (len (fill events evs) = 64) as Hf by (unfold len; rewrite length_fill; lia).
  rewrite Hf. destruct (n <? 64) eqn:Hn64; bool_to_prop.
  - assert (length (pending (w_ext w)) < 64)%nat by (unfold len in Hn; lia).
    exists w2. eexists. split_and!; [done| | |].
    + rewrite Hl1. simpl. by rewrite <- app_assoc.
    + rewrite delivered_app, Hd1, app_nil_r, Hdel. by rewrite take_ge by lia.
    + rewrite Hp1. simpl. rewrite Hx. by rewrite drop_ge by lia.
  - assert (64 <= length (pending (w_ext w)))%nat as Hge by (unfold len in Hn; lia).
    destruct (IH (fill events evs) w2) as (w' & l2 & Hrun & Hl2 & Hd2 & Hp2).
    { by rewrite length_fill. }
    { rewrite Hp1. change (w_ext w1) with x. rewrite Hx, length_drop. by apply batch_rounds. }
    exists w'. eexists. split_and!; [done| | |done].
    + rewrite Hl2, Hl1. simpl. by rewrite <- !app_assoc.
    + rewrite !delivered_app, Hd1, Hd2, Hp1, Hdel. simpl. by rewrite Hx, take_drop.
Qed.

(** C15. The drain loop empties the epoll set: with one round of fuel per
    64 pending events and one more, it terminates, every pending event is
    handed out in order over as many batches as needed, and nothing is left
    pending. *)
Theorem drain_empties_queue fuel w :
  (length (pending (w_ext w)) / 64 < fuel)%nat ->
  exists w' l, drain_events_with_inner fuel w = (Done tt, w') /\
    w_log w' = w_log w ++ l /\ delivered l = pending (w_ext w) /\ pending (w_ext w') = [].
Proof. intros Hf. by apply drain_loop_empties. Qed.
End DrainQueue.

(** ** The periodic task *)

Section Tick.
Context `{E : Env}.
Implicit Types w : World.

Lemma notify_all_keeps l : keeps (notify_all l).
Proof.
  induction l as [|[h n] l IH]; simpl; [apply keeps_ret|]. apply keeps_bind; [exact (keeps_call _)|done].
Qed.

Lemma notify_all_emits t l :
  emits t (notify_all l) (fun o k => o = Done tt /\ drain_only k /\ notified k = l.*2).
Proof.
  induction l as [|[h n] l IH]; simpl; [apply emits_ret; split_and!; [done|constructor|done]|].
  apply emits_bind. call_with any_answer. intros [] _. eapply emits_mono; [exact IH|].
  intros o k (-> & Hd & Hn). split_and!; [done| |].
  - apply (drain_only_app [_]); [by repeat constructor|done].
  - unfold notified in *. csimpl. by rewrite Hn.
Qed.

(** The warning a tick logs after a gap of [gap] nanoseconds. *)
Definition stall_warning (worker : string) (gap : Z) : list Message :=
  if REACTOR_STALL_THRESHOLD <=? gap
  then [stall_message worker (as_u64 (gap / 1000000))]
  else [].

Definition warnings_by (e : event) : list Message :=
  match e with Ev _ (tracing Warn m) _ => [m] | _ => [] end.
Definition warnings (l : trace) : list Message := l ≫= warnings_by.

Lemma warnings_app l k : warnings (l ++ k) = warnings l ++ warnings k.
Proof. apply bind_app. Qed.

Lemma drain_only_no_warnings l : drain_only l -> warnings l = [].
Proof.
  induction 1 as [|[t c r] l He Hl IH]; [done|].
  unfold warnings in *. csimpl. rewrite IH. by destruct c.
Qed.

Lemma log_if_spec (b : bool) lvl m w :
  wp (if b then do_call (tracing lvl m) else mret tt) (fun o w' =>
    o = Done tt /\ same_state w w' /\
    w_log w' = w_log w ++ (if b then [Ev (w_tid w) (tracing lvl m) tt] else [])) w.
Proof.
  destruct b; [|by wp_go; rewrite app_nil_r]. wp_go. by destruct r.
Qed.

(** The exact trace of one tick, for a drain that terminates: [rx] is the
    reactor the other tasks left, [now] the clock after the tick. *)
Lemma drainer_round_spec fuel worker last_alive prev_tick w :
  (forall w, exists w', drain_events_with_inner fuel w = (Done tt, w')) ->
  wp (drainer_round fuel worker (last_alive, prev_tick)) (fun o w' =>
    let t := w_tid w in
    (exists rx, o = Unwound Cancelled /\ w_log w' = w_log w ++ [Ev t (suspend (w_reactor w)) (Dropped, rx)]) \/
    exists rx now lw,
    let pre := [Ev t (suspend (w_reactor w)) (Resumed, rx); Ev t instant_now now] ++ lw in
    warnings lw = stall_warning worker (duration_since now prev_tick) /\
    ((o = Done (inr tt) /\ w_log w' = w_log w ++ pre ++ [Ev t weak_upgrade false]) \/
     exists la ld ln lt, o = Done (inl (la, now)) /\ w_reactor w' = rx /\
       w_log w' = w_log w ++ pre ++ [Ev t weak_upgrade true] ++ ld ++ ln ++ lt /\
       drain_only ld /\ drain_only ln /\ notified ln = (map_to_list (waiters rx)).*2 /\
       warnings lt = [])) w.
Proof.
  intros Hdrain. unfold drainer_round, yield_now. wp_go.
  destruct r as [[] rx]; wp_go; [|by unfold wp; simpl; left; eauto].
  rename r into now. eapply wp_mono; [apply log_if_spec|].
  intros o w1 (-> & Hs1 & Hl1). wp_go. rename r into alive. destruct alive; simpl.
  2:{ wp_go. right. lazymatch type of Hl1 with _ = _ ++ ?k => exists rx, now, k end. split; cycle 1.
      { left. split; [done|]. destruct Hs1 as (_ & _ & _ & Ht1). simpl in *. rewrite Ht1, Hl1.
        by rewrite <- !app_assoc. }
      unfold stall_warning. by destruct (REACTOR_STALL_THRESHOLD <=? _). }
  set (w2 := push_event _ (with_ext _ w1)).
  destruct (Hdrain w2) as [w3 Hd]. pose proof (drain_keeps fuel w2) as (Hk3 & _ & _ & Ht3).
  rewrite Hd in Hk3, Ht3. simpl in Hk3, Ht3.
  destruct (drain_run (w_tid w2) fuel w2 (fun _ l => drain_only l) (Done tt) w3)
    as (ld & Hld & Hdo); [apply drain_loop_only|done..|].
  apply wp_bind. unfold wp at 1. rewrite Hd. simpl. wp_go.
  pose proof (notify_all_keeps (map_to_list (waiters (w_reactor w3))) w3) as (Hk4 & _ & _ & Ht4).
  pose proof (notify_all_emits (w_tid w3) (map_to_list (waiters (w_reactor w3))) w3 eq_refl)
    as (_ & ln & Hln & Ho & Hdn & Hnn).
  unfold wp at 1. destruct (notify_all _ w3) as [o4 w4]. simpl in *. subst o4. wp_go.
  eapply wp_mono; [apply log_if_spec|]. intros o w5 (-> & Hs5 & Hl5). wp_go.
  destruct Hs1 as (Hr1 & _ & _ & Ht1), Hs5 as (Hr5 & _ & _ & _). simpl in *.
  assert (w_reactor w3 = rx) as Hrx by congruence.
  right. lazymatch type of Hl1 with _ = _ ++ ?k => exists rx, now, k end. split; cycle 1.
  { right. rewrite <- app_assoc in Hl5.
    lazymatch type of Hl5 with _ = _ ++ ?k => eexists; exists ld, ln, k end.
    split_and!; [done|congruence| |done|done|by rewrite Hnn, Hrx|].
    - rewrite Hl5, Hln, Hld, Hl1, Ht1. simpl. by rewrite <- !app_assoc.
    - by case_match. }
  unfold stall_warning. by destruct (REACTOR_STALL_THRESHOLD <=? _).
Qed.

(** A tick of the periodic task wakes every waiter in the map, whether
    or not libvppcom reported an event for its session: this is the code's way
    out of the has_event stall.  The task ends only when the reactor is no
    longer referenced, or dropped by the runtime at its tick. *)
Theorem tick_wakes_every_waiter fuel worker last_alive prev_tick w :
  (forall w, exists w', drain_events_with_inner fuel w = (Done tt, w')) ->
  exists o w' l, drainer_round fuel worker (last_alive, prev_tick) w = (o, w') /\
    w_log w' = w_log w ++ l /\
    match o with
    | Done (inr _) => Ev (w_tid w) weak_upgrade false ∈ l
    | Done (inl _) => forall h n, waiters (w_reactor w') !! h = Some n -> n ∈ notified l
    | Unwound c => c = Cancelled /\ exists rx, l = [Ev (w_tid w) (suspend (w_reactor w)) (Dropped, rx)]
    | OutOfFuel => False
    end.
Proof.
  intros Hdrain. pose proof (drainer_round_spec fuel worker last_alive prev_tick w Hdrain) as Hs.
  unfold wp in Hs. destruct (drainer_round fuel worker (last_alive, prev_tick) w) as [o w'].
  cbn [fst snd] in Hs. destruct Hs as [(rx & -> & Hl)|(rx & now & lw & _ & Hcase)];
    [by eexists _, w', _; eauto|].
  destruct Hcase as [[-> Hl]|(la & ld & ln & lt & -> & Hrx & Hl & _ & _ & Hn & _)];
    eexists _, w', _; (split_and!; [done|exact Hl|]).
  - set_solver.
  - intros h n Hh. rewrite !notified_app, Hn. rewrite Hrx in Hh.
    apply elem_of_map_to_list in Hh. apply (list_elem_of_fmap_2 snd) in Hh. set_solver.
Qed.

(** The stall watch reports a tick if and only if it came at least
    500 ms after the previous one, once, with the worker's name and the gap in
    whole milliseconds. *)
Theorem stall_watch fuel worker last_alive prev_tick w :
  (forall w, exists w', drain_events_with_inner fuel w = (Done tt, w')) ->
  exists now o w' l, drainer_round fuel worker (last_alive, prev_tick) w = (o, w') /\
    w_log w' = w_log w ++ l /\ (o = Unwound Cancelled /\ warnings l = [] \/ head (clocks l) = Some now /\
    warnings l = (if REACTOR_STALL_THRESHOLD <=? now - prev_tick
                  then [stall_message worker (as_u64 ((now - prev_tick) / 1000000))]
                  else [])).
Proof.
  intros Hdrain. pose proof (drainer_round_spec fuel worker last_alive prev_tick w Hdrain) as Hs.
  unfold wp in Hs. destruct (drainer_round fuel worker (last_alive, prev_tick) w) as [o w'].
  cbn [fst snd] in Hs. destruct Hs as [(rx & -> & Hl)|(rx & now & lw & Hlw & Hcase)];
    [by eexists 0, _, w', _; eauto|].
  assert (stall_warning worker (duration_since now prev_tick)
    = if REACTOR_STALL_THRESHOLD <=? now - prev_tick
      then [stall_message worker (as_u64 ((now - prev_tick) / 1000000))]
      else []) as Hsw.
  { unfold stall_warning, duration_since, REACTOR_STALL_THRESHOLD, millis.
    destruct (Z.max_spec 0 (now - prev_tick)) as [[? ->]|[? ->]]; [done|].
    by rewrite !(proj2 (Z.leb_gt _ _)) by lia. }
  rewrite Hsw in Hlw. exists now, o, w'.
  destruct Hcase as [[_ Hl]|(la & ld & ln & lt & _ & _ & Hl & Hd & Hn & _ & Ht)];
    eexists; (split_and!; [done|exact Hl|right; split; [done|]]); rewrite !warnings_app, Hlw.
  - by rewrite app_nil_r.
  - by rewrite (drain_only_no_warnings ld), (drain_only_no_warnings ln), Ht, !app_nil_r by done.
Qed.
End Tick.

(** ** The contract of waiting

    What the reactor promises its clients: waiting neither touches the handle
    pool nor moves payload, and it ends with success, a timeout, or an I/O
    error of the message-queue descriptor. *)

Definition wait_outcome (o : Outcome (Result unit)) : Prop :=
  match o with
  | Done (Ok _) | Done (Err Timeout) | Done (Err (Io _)) | Unwound _ | OutOfFuel => True
  | _ => False
  end.

Class WaitContract `{Env} (wait : Z -> Z -> M (Result unit)) : Prop :=
  wait_contract : forall t h d, emits t (wait h d) (fun o l => quiet l /\ wait_outcome o).

(** Why a wait on the Notify [n] ended: the last interaction is the one that
    completed it; success is the completion of that Notify's [notified()], and
    a timeout is reported only when the sleep until [timeout] after the first
    clock reading had elapsed. *)
Definition wait_reason (t : Z) (n : nat) (timeout : Z) (cl : list Z) (o : Outcome (Result unit)) (l : trace) : Prop :=
  match o with
  | Done (Ok _) => last l = Some (Ev t (poll_notified n) true)
  | Done (Err Timeout) => exists t0, head (cl ++ clocks l) = Some t0 /\
      last l = Some (Ev t (poll_sleep_until (t0 + timeout)) true)
  | Done (Err (Io e)) => last l = Some (Ev t poll_mq_readable (Some (Some e)))
  | Done (Err _) => False
  | Unwound _ | OutOfFuel => True
  end.

(** A wait under way: it is on the Notify [n], and the deadline it carries is
    [timeout] after the first clock reading. *)
Definition fut_inv (n : nat) (timeout : Z) (fut : WaitFut) (cl : list Z) : Prop :=
  match fut with
  | WfStart _ _ => False
  | WfSelect n' deadline | WfRecheck n' deadline =>
      n' = n /\ exists t0, head cl = Some t0 /\ deadline = t0 + timeout
  end.

(** The reactor at the first suspension of a trace, if it has one. *)
Definition suspended_by (e : event) : list ReactorInner :=
  match e with Ev _ (suspend r) _ => [r] | _ => [] end.
Definition suspensions (l : trace) : list ReactorInner := l ≫= suspended_by.

(** The Notify [n] is session [h]'s, for a wait that started in world [w], ran
    [l] and ended in world [w']: it is the entry the waiters map had, or, if
    it had none, the one the wait made first; and it is the session's entry
    when the wait first suspends, or at its end if it never does. *)
Definition notify_of_session `{Env} (t h : Z) (n : nat) (w : World) (l : trace) (w' : World) : Prop :=
  (waiters (w_reactor w) !! h = Some n \/
   waiters (w_reactor w) !! h = None /\ head l = Some (Ev t notify_new n)) /\
  waiters (default (w_reactor w') (head (suspensions l))) !! h = Some n.

Lemma last_app_Some {A} (l k : list A) x : last k = Some x -> last (l ++ k) = Some x.
Proof. rewrite last_app. by intros ->. Qed.

Lemma head_app_Some {A} (l k : list A) x : head l = Some x -> head (l ++ k) = Some x.
Proof. by destruct l. Qed.

Section Waiting.
Context `{E : Env} (t : Z).

Lemma poll_select_emits order n d :
  emits t (poll_select order n d) (fun o l => quiet l /\ clocks l = [] /\
    match o with
    | Done None => True
    | Done (Some (SelMq e)) => last l = Some (Ev t poll_mq_readable (Some e))
    | Done (Some SelNotified) => last l = Some (Ev t (poll_notified n) true)
    | Done (Some SelDeadline) => last l = Some (Ev t (poll_sleep_until d) true)
    | _ => False
    end).
Proof.
  induction order as [|[] order IH]; simpl.
  { apply emits_ret. split_and!; [constructor|done|done]. }
  all: apply emits_bind; call_with any_answer; intros r _; cbn [ret] in r; destruct r;
    try (apply emits_ret; split_and!; [by repeat constructor|done|done]);
    (eapply emits_mono; [exact IH|]);
    intros o l (Hq & Hc & Ho); (split_and!; [by constructor|done|]);
    destruct o as [[[]|]| |]; try done; by apply (last_app_Some [_]).
Qed.

Lemma drain_emits_quiet fuel :
  emits t (drain_events_with_inner fuel) (fun o l => quiet l /\ clocks l = []).
Proof.
  apply emits_bind, emits_gets. intros inner. eapply emits_mono; [apply drain_loop_only|].
  intros o l. apply drain_only_quiet.
Qed.

(** The first step of a wait: it looks the session's Notify up, or makes it,
    and computes the deadline. *)
Lemma start_spec fuel h timeout w : w_tid w = t ->
  wp (poll_wait_round fuel (WfStart h timeout)) (fun o w' => w_tid w' = t /\ exists l n t0,
    w_log w' = w_log w ++ l /\ quiet l /\ clocks l = [t0] /\ suspensions l = [] /\
    notify_of_session t h n w l w' /\
    match o with
    | Done (inl fut) => fut = WfSelect n (t0 + timeout)
    | Unwound _ => True
    | _ => False
    end) w.
Proof.
  intros <-. unfold poll_wait_round, entry_or_insert, instant_add, notify_of_session. wp_go.
  destruct (waiters (w_reactor w) !! h) as [n|] eqn:Hn; wp_go; case_match; wp_go.
  1,2: split; [done|]; eexists [_], n, _; split_and!; try done; [by repeat constructor|by left].
  all: split; [done|]; eexists [_; _], _, _;
    (split_and!; [simpl; by rewrite <- app_assoc|by repeat constructor|done|done|by right|apply lookup_insert_eq|done]).
Qed.

Lemma poll_wait_round_emits fuel n timeout fut cl :
  fut_inv n timeout fut cl ->
  emits t (poll_wait_round fuel fut) (fun o l => quiet l /\
    match o with
    | Done (inl fut') => fut_inv n timeout fut' (cl ++ clocks l)
    | Done (inr (Pending, fut')) => fut_inv n timeout fut' (cl ++ clocks l)
    | Done (inr (Ready r, _)) => wait_reason t n timeout cl (Done r) l
    | _ => True
    end).
Proof.
  intros Hinv. destruct fut as [h d|n' d|n' d]; simpl in *; [done|..].
  - destruct Hinv as (-> & t0 & Hh & ->). apply emits_bind. call_with any_answer. intros order _.
    apply emits_bind. eapply emits_mono; [apply poll_select_emits|].
    intros o l (Hq & Hc & Ho).
    assert (quiet ([Ev t select_order order] ++ l)) as Hq1 by (by constructor).
    destruct o as [[[[e|]| |]|]| |]; try done.
    + apply emits_ret. rewrite app_nil_r. split; [done|]. by apply last_app_Some.
    + apply emits_bind. eapply emits_mono; [apply drain_emits_quiet|].
      intros [u| |] l' [Hq' Hc'].
      2,3: split; [rewrite app_assoc; by apply quiet_app|done].
      apply emits_bind. call_with any_answer. intros [] _. apply emits_ret. split.
      * rewrite app_nil_r. apply quiet_app. split; [by repeat constructor|].
        apply quiet_app. split; [done|]. apply quiet_app. split; [done|by repeat constructor].
      * rewrite !clocks_app, Hc, Hc'. simpl. split; [done|]. exists t0. by rewrite app_nil_r.
    + apply emits_ret. rewrite app_nil_r. split; [done|]. by apply last_app_Some.
    + apply emits_ret. rewrite app_nil_r. split; [done|]. exists t0.
      split; [by apply head_app_Some|by apply last_app_Some].
    + apply emits_ret. rewrite app_nil_r. split; [done|]. rewrite clocks_app, Hc.
      simpl. split; [done|]. exists t0. by rewrite app_nil_r.
  - destruct Hinv as (-> & t0 & Hh & ->). apply emits_bind. call_with any_answer. intros b _.
    cbn [ret] in b. destruct b.
    + apply emits_ret. by split; [repeat constructor|].
    + apply emits_bind. call_with any_answer. intros e _. cbn [ret] in e.
      destruct e; apply emits_ret; (split; [by repeat constructor|]);
        (split; [done|]); exists t0; simpl; by rewrite app_nil_r.
Qed.

(** The rest of a poll, [k] rounds at most. *)
Lemma poll_rounds_emits k fuel n timeout fut cl :
  fut_inv n timeout fut cl ->
  emits t (loop k (poll_wait_round fuel) fut) (fun o l => quiet l /\
    match o with
    | Done (Pending, fut') => fut_inv n timeout fut' (cl ++ clocks l)
    | Done (Ready r, _) => wait_reason t n timeout cl (Done r) l
    | _ => True
    end).
Proof.
  intros Hinv. apply (emits_loop (fun fut l => quiet l /\ fut_inv n timeout fut (cl ++ clocks l))).
  { split; [constructor|]. simpl. by rewrite app_nil_r. }
  2:{ by intros s l [? _]. }
  intros fut1 l [Hq Hi]. eapply emits_mono; [by apply poll_wait_round_emits|].
  intros o l' [Hq' Ho]. assert (quiet (l ++ l')) by (by apply quiet_app).
  destruct o as [[fut'|[[r|] fut']]| |]; try done; rewrite ?clocks_app, ?app_assoc; [done| |done].
  split; [done|]. destruct r as [[]|[]]; simpl in *; try done;
    rewrite ?clocks_app, ?app_assoc; destruct_conj; eauto using last_app_Some.
Qed.

Lemma wait_reason_outcome n timeout cl o l : wait_reason t n timeout cl o l -> wait_outcome o.
Proof. by destruct o as [[|[]]| |]. Qed.

(** A poll of any wait, new or under way. *)
Lemma poll_wait_contract fuel fut :
  emits t (poll_wait fuel fut) (fun o l => quiet l /\
    match o with Done (Ready r, _) => wait_outcome (Done r) | _ => True end).
Proof.
  assert (forall k n d, emits t (loop k (poll_wait_round fuel) (WfSelect n d)) (fun o l => quiet l /\
    match o with Done (Ready r, _) => wait_outcome (Done r) | _ => True end)) as Hsel.
  { intros k n d. eapply emits_mono; [apply (poll_rounds_emits k fuel n d (WfSelect n d) [0]); by split; [|exists 0]|].
    intros [[[r|] fut']| |] l [Hq Ho]; (split; [done|]); try done. by eapply wait_reason_outcome. }
  destruct fut as [h d|n d|n d]; [|apply Hsel|].
  - unfold poll_wait. destruct fuel as [|k]; [by intros w Hw; split; [|exists []; rewrite app_nil_r; repeat split; constructor]|].
    cbn [loop]. apply emits_bind. intros w Hw. destruct (start_spec (S k) h d w Hw) as (Ht & l & n & t0 & Hl & Hq & _ & _ & _ & Ho).
    split; [done|]. exists l. split; [done|].
    destruct (poll_wait_round (S k) (WfStart h d) w) as [[[fut|]| |] w1]; simpl in Ho |- *; try done. subst fut.
    eapply emits_mono; [apply Hsel|]. intros o k' [Hq' Ho]. split; [by apply quiet_app|done].
  - eapply emits_mono; [apply (poll_rounds_emits fuel fuel n d (WfRecheck n d) [0]); by split; [|exists 0]|].
    intros [[[r|] fut']| |] l [Hq Ho]; (split; [done|]); try done. by eapply wait_reason_outcome.
Qed.

Lemma yield_emits (Q : Outcome unit -> trace -> Prop) :
  (forall rx wake rx', Q (match wake with Resumed => Done tt | Dropped => Unwound Cancelled end)
     [Ev t (suspend rx) (wake, rx')]) -> emits t yield_now Q.
Proof. intros HQ. unfold yield_now. emits_go; [apply (HQ _ Resumed)|apply (HQ _ Dropped)]. Qed.

(** A wait that is under way when the caller polls it again. *)
Definition await_reason (n : nat) (timeout : Z) (cl : list Z) (o : Outcome (Result unit)) (l : trace) : Prop :=
  quiet l /\ wait_reason t n timeout cl o l.

Lemma await_reason_app n timeout cl l o l' :
  quiet l -> await_reason n timeout (cl ++ clocks l) o l' -> await_reason n timeout cl o (l ++ l').
Proof.
  intros Hq [Hq' Ho]. split; [by apply quiet_app|].
  destruct o as [[[]|[]]| |]; simpl in *; try done; rewrite ?clocks_app, ?app_assoc; destruct_conj;
    eauto using last_app_Some.
Qed.

(** What a round of [await] does with the result of its poll. *)
Definition await_next (fuel k : nat) (r : Poll (Result unit) * WaitFut) : M (Result unit) :=
  r ← (let '(p, fut) := r in
       match p with Ready r => mret (inr r) | Pending => _ ← yield_now; mret (inl fut) end);
  match r with inl fut => loop k (await_round fuel) fut | inr r => mret r end.

Lemma await_emits k fuel n timeout fut cl :
  fut_inv n timeout fut cl -> emits t (loop k (await_round fuel) fut) (await_reason n timeout cl).
Proof.
  intros Hinv. apply (emits_loop (fun fut l => quiet l /\ fut_inv n timeout fut (cl ++ clocks l))).
  { split; [constructor|]. simpl. by rewrite app_nil_r. }
  2:{ intros s l [? _]. by split. }
  intros fut1 l [Hq Hi]. unfold await_round. apply emits_bind.
  eapply emits_mono; [by apply poll_rounds_emits|]. intros o l' [Hq' Ho].
  destruct o as [[[r|] fut']| |]; try (apply await_reason_app; [done|by split]).
  - apply emits_ret. rewrite app_nil_r. apply await_reason_app; [done|by split].
  - apply emits_bind, yield_emits. intros rx [] rx'.
    + apply emits_ret. rewrite app_nil_r. split; [|rewrite !clocks_app; simpl; rewrite app_nil_r, app_assoc; done].
      rewrite app_assoc. apply quiet_app. split; [by apply quiet_app|by repeat constructor].
    + apply await_reason_app; [done|]. split; [|done]. apply quiet_app. split; [done|by repeat constructor].
Qed.

Lemma await_next_emits fuel k n timeout r cl l0 :
  match r with
  | (Pending, fut) => fut_inv n timeout fut (cl ++ clocks l0)
  | (Ready r, _) => wait_reason t n timeout cl (Done r) l0
  end -> quiet l0 ->
  emits t (await_next fuel k r) (fun o l => await_reason n timeout cl o (l0 ++ l)).
Proof.
  intros Hr Hq. unfold await_next. destruct r as [[r|] fut].
  - apply emits_bind, emits_ret, emits_ret. rewrite !app_nil_r. by split.
  - apply emits_bind, emits_bind, yield_emits. intros rx [] rx'.
    + apply emits_ret. rewrite app_nil_r. eapply emits_mono; [by apply await_emits|].
      intros o l Ho. apply await_reason_app; [done|]. apply await_reason_app; [by repeat constructor|].
      simpl. by rewrite app_nil_r.
    + split; [apply quiet_app; split; [done|by repeat constructor]|done].
Qed.

(** [steady m P]: the reactor is the same until [m] first suspends, or to its
    end if it never does, and [m] returns only values in [P]. *)
Definition steady {A} (m : M A) (P : A -> Prop) : Prop := forall w, exists l, w_log (m w).2 = w_log w ++ l /\
  default (w_reactor (m w).2) (head (suspensions l)) = w_reactor w /\ forall a, (m w).1 = Done a -> P a.

Definition any_value {A} (_ : A) : Prop := True.

Lemma suspensions_app l k : suspensions (l ++ k) = suspensions l ++ suspensions k.
Proof. apply bind_app. Qed.

Lemma steady_ret {A} (a : A) (P : A -> Prop) : P a -> steady (mret a) P.
Proof. intros HP w. exists []. rewrite app_nil_r. split_and!; [done..|]. by intros ? [= <-]. Qed.

Lemma steady_mono {A} (m : M A) (P Q : A -> Prop) : steady m P -> (forall a, P a -> Q a) -> steady m Q.
Proof. intros Hm HPQ w. destruct (Hm w) as (l & ? & ? & ?). exists l. auto. Qed.

Lemma steady_panic {A} (P : A -> Prop) : steady panic P.
Proof. intros w. exists []. by rewrite app_nil_r. Qed.

Lemma steady_call c : (forall r, c <> suspend r) -> steady (do_call c) any_value.
Proof.
  intros Hc w. unfold do_call. destruct (env_step c (w_tid w) (w_ext w)) as [r x]. simpl.
  exists [Ev (w_tid w) c r]. split_and!; [done| |done]. destruct c; try done. by destruct (Hc current).
Qed.

Lemma steady_yield : steady yield_now any_value.
Proof.
  intros w. unfold yield_now, mbind, M_bind, get_reactor, gets, do_call. cbn [fst snd].
  destruct (env_step _ _ _) as [[[] r'] x]; eexists [_]; by split.
Qed.

Lemma steady_bind {A B} (m : M A) (k : A -> M B) (P : A -> Prop) (Q : B -> Prop) :
  steady m P -> (forall a, P a -> steady (k a) Q) -> steady (m ≫= k) Q.
Proof.
  intros Hm Hk w. destruct (Hm w) as (l & Hl & Hr & HP). unfold mbind, M_bind.
  destruct (m w) as [[a|c|] w1]; simpl in *; [|by exists l..].
  destruct (Hk a (HP a eq_refl) w1) as (k1 & Hk1 & Hr1 & HQ). exists (l ++ k1).
  split_and!; [by rewrite Hk1, Hl, app_assoc| |done].
  rewrite suspensions_app. destruct (suspensions l); [|done]. simpl in *. by rewrite Hr1, Hr.
Qed.

Lemma steady_loop {St R} (I : St -> Prop) (Q : R -> Prop) k (body : St -> M (St + R)) s :
  I s -> (forall s, I s -> steady (body s) (fun r => match r with inl s' => I s' | inr r => Q r end)) ->
  steady (loop k body s) Q.
Proof.
  intros Hs Hb. revert s Hs. induction k as [|k IH]; intros s Hs; [intros w; exists []; by rewrite app_nil_r|].
  simpl. eapply steady_bind; [by apply Hb|]. intros [s'|r] Hr; [by apply IH|by apply steady_ret].
Qed.

Ltac steady_call := lazymatch goal with
  | |- steady (do_call ?c ≫= _) _ => apply (steady_bind (do_call c) _ any_value); [by apply (steady_call c)|]
  | |- steady (do_call ?c) _ => by apply (steady_call c)
  end.

Lemma steady_notify_range ws es i n : steady (notify_range ws es i n) any_value.
Proof.
  revert i. induction n as [|n IH]; intros i; [by apply steady_ret|]. simpl.
  destruct (es !! i); [|apply steady_panic]. apply (steady_bind _ _ any_value); [|done].
  destruct (_ !! _); [steady_call|by apply steady_ret].
Qed.

Lemma steady_drain fuel : steady (drain_events_with_inner fuel) any_value.
Proof.
  apply (steady_bind _ _ any_value); [intros w; exists []; by rewrite app_nil_r|]. intros inner _.
  apply (steady_loop any_value); [done|]. intros events _. unfold drain_round. steady_call. intros [n evs] _.
  destruct (n <=? 0); [by apply steady_ret|]. eapply steady_bind; [apply steady_notify_range|].
  intros _ _. destruct (_ <? _); by apply steady_ret.
Qed.

Lemma steady_select order n d : steady (poll_select order n d) any_value.
Proof. induction order as [|[] order IH]; simpl; [by apply steady_ret|..]; steady_call; intros [] _; done || by apply steady_ret. Qed.

(** Once it has its Notify, a wait leaves the map alone. *)
Definition started (fut : WaitFut) : Prop := match fut with WfStart _ _ => False | _ => True end.

Lemma steady_poll_round fuel fut : started fut ->
  steady (poll_wait_round fuel fut) (fun r => match r with inl fut' => started fut' | inr (_, fut') => started fut' end).
Proof.
  destruct fut as [h d|n d|n d]; [done|..]; intros _; simpl; steady_call.
  - intros order _. eapply steady_bind; [apply steady_select|].
    intros [[[e|]| |]|] _; try by apply steady_ret. eapply steady_bind; [apply steady_drain|]. intros _ _.
    steady_call. intros _ _. by apply steady_ret.
  - intros [] _; [by apply steady_ret|]. steady_call. intros [] _; by apply steady_ret.
Qed.

Lemma steady_poll k fuel fut : started fut -> steady (loop k (poll_wait_round fuel) fut) (fun r => started r.2).
Proof.
  intros Hs. apply (steady_loop started); [done|]. intros fut1 H1. eapply steady_mono; [by apply steady_poll_round|].
  by intros [?|[]].
Qed.

Lemma steady_await k fuel fut : started fut -> steady (loop k (await_round fuel) fut) any_value.
Proof.
  intros Hs. apply (steady_loop started); [done|]. intros fut1 H1. unfold await_round.
  eapply steady_bind; [by apply steady_poll|]. intros [[r|] fut2] H2; [by apply steady_ret|].
  eapply steady_bind; [apply steady_yield|]. intros _ _. by apply steady_ret.
Qed.

Lemma steady_next fuel k r : started r.2 -> steady (await_next fuel k r) any_value.
Proof.
  intros Hs. unfold await_next. apply (steady_bind _ _ (fun r => match r with inl fut => started fut | inr _ => True end)).
  - destruct r as [[r|] fut]; [by apply steady_ret|]. eapply steady_bind; [apply steady_yield|]. intros _ _. by apply steady_ret.
  - intros [fut|r'] Hr; [by apply steady_await|by apply steady_ret].
Qed.

(** The rest of a wait that has its Notify. *)
Definition resume (fuel k : nat) (fut : WaitFut) : M (Result unit) :=
  r ← loop k (poll_wait_round fuel) fut; await_next fuel k r.

Lemma resume_emits fuel k n timeout fut cl :
  fut_inv n timeout fut cl -> emits t (resume fuel k fut) (await_reason n timeout cl).
Proof.
  intros Hinv. apply emits_bind. eapply emits_mono; [by apply poll_rounds_emits|]. intros o l [Hq Ho].
  destruct o as [r| |]; [|by split..]. apply await_next_emits; [|done]. by destruct r as [[]].
Qed.

Lemma steady_resume fuel k fut : started fut -> steady (resume fuel k fut) any_value.
Proof. intros Hs. eapply steady_bind; [by apply steady_poll|]. intros r. apply steady_next. Qed.

Lemma wait_event_start k h mask timeout w :
  wait_event (S k) h mask timeout w =
  match poll_wait_round (S k) (WfStart h timeout) w with
  | (Done (inl fut), w1) => resume (S k) k fut w1
  | (Done (inr r), w1) => await_next (S k) k r w1
  | (Unwound c, w1) => (Unwound c, w1)
  | (OutOfFuel, w1) => (OutOfFuel, w1)
  end.
Proof.
  change (wait_event (S k) h mask timeout w) with ((
    r ← ('(p, fut) ← (r ← poll_wait_round (S k) (WfStart h timeout);
                      match r with inl fut => loop k (poll_wait_round (S k)) fut | inr r => mret r end);
         match p with Ready r => mret (inr r) | Pending => _ ← yield_now; mret (inl fut) end);
    match r with inl fut => loop k (await_round (S k)) fut | inr r => mret r end) w).
  unfold resume, await_next, mbind, M_bind.
  destruct (poll_wait_round _ _ _) as [[[fut|[[r|] fut]]| |] w1]; [|done..].
  by destruct (loop k _ fut w1) as [[[[r|] fut']| |] w2].
Qed.

Lemma wait_event_spec fuel h mask timeout w : w_tid w = t ->
  wp (wait_event fuel h mask timeout) (fun o w' => w_tid w' = t /\ exists l, w_log w' = w_log w ++ l /\ quiet l /\
    match o with
    | OutOfFuel => True
    | _ => exists n, notify_of_session t h n w l w' /\ wait_reason t n timeout [] o l
    end) w.
Proof.
  intros Hw. destruct fuel as [|k]; [split; [done|]; exists []; rewrite app_nil_r; repeat split; constructor|].
  destruct (start_spec (S k) h timeout w Hw) as (Ht & l & n & t0 & Hl & Hq & Hc & Hs & [Hn Hmap] & Ho).
  unfold wp. rewrite wait_event_start.
  destruct (poll_wait_round (S k) (WfStart h timeout) w) as [[[fut|]|c|] w1]; simpl in *; try done.
  2:{ split; [done|]. exists l. split_and!; [done..|]. by exists n. }
  subst fut. rewrite Hs in Hmap. simpl in Hmap.
  assert (fut_inv n timeout (WfSelect n (t0 + timeout)) (clocks l)) as Hinv by (rewrite Hc; by split; [|exists t0]).
  destruct (resume_emits (S k) k n timeout _ _ Hinv w1 Ht) as (Ht2 & l2 & Hl2 & Hq2 & Ho2).
  destruct (steady_resume (S k) k (WfSelect n (t0 + timeout)) I w1) as (l3 & Hl3 & Hr3 & _).
  destruct (resume (S k) k _ w1) as [o w2]. simpl in *.
  assert (l3 = l2) as -> by (rewrite Hl2 in Hl3; by apply app_inv_head in Hl3).
  split; [done|]. exists (l ++ l2). split_and!; [by rewrite Hl2, Hl, app_assoc|by apply quiet_app|].
  assert (exists n, notify_of_session t h n w (l ++ l2) w2 /\ wait_reason t n timeout [] o (l ++ l2)) as Hres;
    [|by destruct o].
  exists n. split; [|by apply (await_reason_app n timeout [] l)]. split.
  - destruct Hn as [?|[? Hh]]; [by left|right]. split; [done|]. by apply head_app_Some.
  - rewrite suspensions_app, Hs. simpl. by rewrite Hr3.
Qed.

Lemma wait_event_emits fuel h mask timeout :
  emits t (wait_event fuel h mask timeout) (fun o l => quiet l /\ wait_outcome o).
Proof.
  intros w Hw. destruct (wait_event_spec fuel h mask timeout w Hw) as (Ht & l & Hl & Hq & Ho).
  split; [done|]. exists l. split_and!; [done..|].
  destruct (wait_event fuel h mask timeout w) as [[r|c|] w']; cbn [fst] in *; [|done..].
  destruct Ho as (n & _ & Hr). by apply (wait_reason_outcome n timeout [] _ l).
Qed.

End Waiting.

(** C13. A wait on session [h] succeeds only when that session's Notify was
    signalled: the Notify is the entry of [h] in the waiters map when the wait
    starts, or the one the wait itself enters there, and it is the entry of
    [h] when the wait goes to sleep.  A timeout is never early: the sleep until
    [timeout] after the first clock reading elapsed.  There is no error other
    than a timeout and the message-queue descriptor's own; and whatever
    happens, the wait opens, closes, reads and writes nothing. *)
Theorem wait_event_reasons `{E : Env} fuel h mask timeout (w : World) :
  wp (wait_event fuel h mask timeout) (fun o w' => exists l, w_log w' = w_log w ++ l /\ quiet l /\
    match o with
    | OutOfFuel => True
    | _ => exists n, notify_of_session (w_tid w) h n w l w' /\ wait_reason (w_tid w) n timeout [] o l
    end) w.
Proof. by destruct (wait_event_spec (w_tid w) fuel h mask timeout w eq_refl) as [_ Hl]. Qed.

#[global] Instance wait_readable_contract `{E : Env} fuel : WaitContract (wait_readable fuel).
Proof.
  intros t h d. apply wait_event_emits.
Qed.

#[global] Instance wait_writable_contract `{E : Env} fuel : WaitContract (wait_writable fuel).
Proof.
  intros t h d. apply wait_event_emits.
Qed.


(** ** Waking up

    tokio's [Notify], as documented: [notify_one] makes the next (or the
    parked) [notified()] complete, and nothing but that completion uses the
    permit up.  [permit x n] reads the permit off the environment's state.
    Between two suspensions no other task runs on the worker's current-thread
    runtime. *)

Class NotifyPermits `{Env} (permit : ext -> nat -> bool) : Prop := {
  permit_set : forall n t x r x', env_step (notify_one n) t x = (r, x') -> permit x' n = true;
  permit_poll : forall n t x b x', env_step (poll_notified n) t x = (b, x') -> b = permit x n;
  permit_frame : forall c t x r x' n, env_step c t x = (r, x') ->
    (forall rx, c <> suspend rx) -> c <> poll_notified n -> permit x n = true -> permit x' n = true;
  order_complete : forall t x, BrNotified ∈ fst (env_step select_order t x)
}.

Section Permits.
Context `{E : Env} (permit : ext -> nat -> bool) `{!NotifyPermits permit}.
Implicit Types w : World.

Definition holds_permit (n : nat) {A} (m : M A) : Prop :=
  forall w, permit (w_ext w) n = true -> permit (w_ext (m w).2) n = true.

Lemma call_holds n c :
  (forall rx, c <> suspend rx) -> c <> poll_notified n -> holds_permit n (do_call c).
Proof.
  intros Hs Hp w Hw. unfold do_call. destruct (env_step c (w_tid w) (w_ext w)) as [r x] eqn:He.
  simpl. by eapply permit_frame.
Qed.

Lemma bind_holds n {A B} (m : M A) (k : A -> M B) :
  holds_permit n m -> (forall a, holds_permit n (k a)) -> holds_permit n (m ≫= k).
Proof.
  intros Hm Hk w Hw. specialize (Hm w Hw). unfold mbind, M_bind.
  destruct (m w) as [[a| |] w1]; simpl in *; [by apply Hk|done..].
Qed.

Lemma ret_holds n {A} (a : A) : holds_permit n (mret a).
Proof. by intros w. Qed.

Lemma loop_holds n {St R} fuel (body : St -> M (St + R)) s :
  (forall s, holds_permit n (body s)) -> holds_permit n (loop fuel body s).
Proof.
  intros Hb. revert s. induction fuel as [|fuel IH]; intros s; [by intros w|].
  simpl. apply bind_holds; [done|]. intros [s'|r]; [apply IH|apply ret_holds].
Qed.

Lemma notify_range_holds k ws events i n : holds_permit k (notify_range ws events i n).
Proof.
  revert i. induction n as [|n IH]; intros i; simpl; [apply ret_holds|].
  destruct (events !! i); [|by intros w]. apply bind_holds; [|done].
  case_match; [by apply (call_holds k (notify_one _))|apply ret_holds].
Qed.

Lemma drain_holds n fuel : holds_permit n (drain_events_with_inner fuel).
Proof.
  apply bind_holds; [by intros w|]. intros inner. apply loop_holds. intros evs.
  unfold drain_round. apply bind_holds; [by apply (call_holds n (vppcom_epoll_wait _ _ _ _))|].
  intros [k es]. case_match; [apply ret_holds|]. apply bind_holds; [apply notify_range_holds|].
  intros _. case_match; apply ret_holds.
Qed.

(** With a permit in place the [select!] always has a ready branch. *)
Lemma poll_select_permit order n d w :
  BrNotified ∈ order -> permit (w_ext w) n = true ->
  exists sel w', poll_select order n d w = (Done (Some sel), w') /\
    (sel <> SelNotified -> permit (w_ext w') n = true).
Proof.
  revert w. induction order as [|b order IH]; intros w Hin Hp; [set_solver|].
  destruct b; simpl; unfold mbind, M_bind, do_call.
  - destruct (env_step poll_mq_readable (w_tid w) (w_ext w)) as [r x] eqn:He.
    assert (permit x n = true) by (by eapply permit_frame).
    cbn [ret] in r. destruct r as [e|]; [by eexists _, _|]. apply IH; [set_solver|done].
  - destruct (env_step (poll_notified n) (w_tid w) (w_ext w)) as [r x] eqn:He.
    apply permit_poll in He as Hr. rewrite Hp in Hr. subst r. by eexists _, _.
  - destruct (env_step (poll_sleep_until d) (w_tid w) (w_ext w)) as [r x] eqn:He.
    assert (permit x n = true) by (by eapply permit_frame).
    cbn [ret] in r. destruct r; [by eexists _, _|]. apply IH; [set_solver|done].
Qed.

Lemma round_select_permit fuel n d w :
  (forall w, exists w', drain_events_with_inner fuel w = (Done tt, w')) ->
  permit (w_ext w) n = true ->
  exists res w', poll_wait_round fuel (WfSelect n d) w = (Done res, w') /\
    ((exists r fut, res = inr (Ready r, fut)) \/
     (res = inl (WfRecheck n d) /\ permit (w_ext w') n = true)).
Proof.
  intros Hdrain Hp. simpl. unfold mbind at 1, M_bind at 1, do_call at 1.
  pose proof (order_complete (w_tid w) (w_ext w)) as Hord.
  destruct (env_step select_order (w_tid w) (w_ext w)) as [order x] eqn:He. simpl in Hord.
  assert (permit x n = true) as Hx by (by eapply permit_frame).
  destruct (poll_select_permit order n d (push_event (Ev (w_tid w) select_order order) (with_ext x w)))
    as (sel & w1 & Hsel & Hkeep); [done|exact Hx|].
  rewrite (bind_Done _ _ _ _ _ Hsel).
  destruct sel as [[e|]| |]; try (eexists _, _; split; [done|left; eauto]; fail).
  destruct (Hdrain w1) as [w2 Hd]. rewrite (bind_Done _ _ _ _ _ Hd).
  pose proof (drain_holds n fuel w1 (Hkeep ltac:(done))) as Hp2. rewrite Hd in Hp2. simpl in Hp2.
  pose proof (call_holds n clear_ready ltac:(done) ltac:(done) w2 Hp2) as Hp3.
  destruct (do_call_Done clear_ready w2) as (u & w3 & Hc). rewrite Hc in Hp3. simpl in Hp3.
  rewrite (bind_Done _ _ _ _ _ Hc). eexists _, w3. split; [done|]. by right.
Qed.

Lemma round_recheck_permit fuel n d w :
  permit (w_ext w) n = true ->
  exists w', poll_wait_round fuel (WfRecheck n d) w = (Done (inr (Ready (Ok tt), WfRecheck n d)), w').
Proof.
  intros Hp. simpl. unfold mbind, M_bind, do_call.
  destruct (env_step (poll_notified n) (w_tid w) (w_ext w)) as [b x] eqn:He.
  apply permit_poll in He as Hb. rewrite Hp in Hb. subst b. by eexists.
Qed.

Lemma poll_wait_permit fuel n d w :
  (2 <= fuel)%nat ->
  (forall w, exists w', drain_events_with_inner fuel w = (Done tt, w')) ->
  permit (w_ext w) n = true ->
  exists r fut w', poll_wait fuel (WfSelect n d) w = (Done (Ready r, fut), w').
Proof.
  intros Hf Hdrain Hp. unfold poll_wait.
  destruct (round_select_permit fuel n d w Hdrain Hp) as (res & w1 & Hr1 & Hres).
  destruct fuel as [|[|k]]; [lia..|]. cbn [loop]. rewrite (bind_Done _ _ _ _ _ Hr1).
  destruct Hres as [(r & fut & ->)|(-> & Hp1)]; [by eexists _, _, _|].
  destruct (round_recheck_permit (S (S k)) n d w1 Hp1) as (w2 & Hr2).
  rewrite (bind_Done _ _ _ _ _ Hr2). by eexists _, _, _.
Qed.

Lemma notify_all_permits l n w :
  n ∈ l.*2 \/ permit (w_ext w) n = true -> permit (w_ext (notify_all l w).2) n = true.
Proof.
  revert w. induction l as [|[h m] l IH]; intros w Hn; [set_solver|].
  csimpl in Hn. simpl. unfold mbind, M_bind, do_call.
  destruct (env_step (notify_one m) (w_tid w) (w_ext w)) as [r x] eqn:He.
  apply IH. simpl. destruct (decide (m = n)) as [->|Hne]; [right; by eapply permit_set|].
  destruct Hn as [Hn|Hn]; [left; set_solver|right; by eapply permit_frame].
Qed.

Lemma tick_permits fuel worker st w :
  wp (drainer_round fuel worker st) (fun o w' =>
    match o with
    | Done (inl _) => forall h n, waiters (w_reactor w') !! h = Some n -> permit (w_ext w') n = true
    | _ => True
    end) w.
Proof.
  destruct st as [last_alive prev_tick]. unfold drainer_round, yield_now. wp_go.
  destruct r as [[] rx]; wp_go; [|done].
  eapply wp_mono; [apply log_if_spec|]. intros o w1 (-> & _ & _). wp_go.
  match goal with |- context [negb ?b] => destruct b end; simpl; [|by wp_go].
  set (w2 := push_event _ (with_ext _ w1)). apply wp_bind. unfold wp at 1.
  destruct (drain_events_with_inner fuel w2) as [[[]| |] w3]; simpl; [|done..].
  wp_go. pose proof (notify_all_keeps (map_to_list (waiters (w_reactor w3))) w3) as (Hk & _).
  assert (forall h n, waiters (w_reactor w3) !! h = Some n ->
    permit (w_ext (notify_all (map_to_list (waiters (w_reactor w3))) w3).2) n = true) as Hp.
  { intros h n Hh. apply notify_all_permits. left.
    apply elem_of_map_to_list in Hh. by apply (list_elem_of_fmap_2 snd) in Hh. }
  unfold wp at 1. destruct (notify_all _ w3) as [[[]| |] w4]; simpl in *; [|done..].
  rewrite <- Hk in Hp. wp_go.
  cbv zeta. lazymatch goal with |- wp (if ?b then _ else _) _ _ => destruct b end; wp_go; intros h n Hh; simpl in *;
    repeat match goal with
    | H : env_step ?c ?t ?x = (?r, ?y) |- permit ?y ?k = true =>
        apply (permit_frame c t x r y k H); [done|done|]
    end; by eapply Hp.
Qed.

(** No waiter outlives a tick: after a round of the periodic task, a
    task parked in [wait_event] on any session of the waiters map completes at
    its next poll, whichever order [select!] checks its branches in and
    whatever else is ready, even if libvppcom never signals the session
    again. *)
Theorem tick_unparks_waiters fuel worker st w st' w' h n deadline :
  (2 <= fuel)%nat ->
  (forall w, exists w', drain_events_with_inner fuel w = (Done tt, w')) ->
  drainer_round fuel worker st w = (Done (inl st'), w') ->
  waiters (w_reactor w') !! h = Some n ->
  exists r fut w'', poll_wait fuel (WfSelect n deadline) w' = (Done (Ready r, fut), w'').
Proof.
  intros Hf Hdrain Hr Hh. pose proof (tick_permits fuel worker st w) as Hp.
  unfold wp in Hp. rewrite Hr in Hp. simpl in Hp. apply poll_wait_permit; eauto.
Qed.
End Permits.
