(* ===== verification/Replay.v ===== *)
(** * The log replays the environment

    The link between the trace a computation leaves in the world and the
    state of libvppcom: the log of a run is a run of the environment.  The
    refinement files (Channel.v, Mailbox.v) read the state of a session off
    it. *)

From S2P Require Import Prelude Net Errors Ffi World Sim Session App Reactor.

Section Replay.
Context `{E : Env}.

(** The environment, started in [x], gives the answers of [l] and ends in
    [x']. *)
Inductive replay : ext -> trace -> ext -> Prop :=
| replay_nil x : replay x [] x
| replay_cons x t c r x' l x'' :
    env_step c t x = (r, x') -> replay x' l x'' -> replay x (Ev t c r :: l) x''.

Lemma replay_app x l x' k x'' : replay x l x' -> replay x' k x'' -> replay x (l ++ k) x''.
Proof. induction 1; simpl; [done|]. intros. econstructor; eauto. Qed.

(** What [m] appends to the log is what the environment went through. *)
Definition honest {A} (m : M A) : Prop := forall w, exists l,
  w_log (m w).2 = w_log w ++ l /\ replay (w_ext w) l (w_ext (m w).2).

(** A computation that calls nothing. *)
Lemma honest_silent {A} (m : M A) :
  (forall w, w_log (m w).2 = w_log w /\ w_ext (m w).2 = w_ext w) -> honest m.
Proof. intros Hm w. destruct (Hm w) as [-> ->]. exists []. split; [by rewrite app_nil_r|constructor]. Qed.

Lemma honest_call c : honest (do_call c).
Proof.
  intros w. unfold do_call. destruct (env_step c (w_tid w) (w_ext w)) as [r x] eqn:He. simpl.
  exists [Ev (w_tid w) c r]. split; [done|]. econstructor; [exact He|constructor].
Qed.

(** Two runs in a row. *)
Lemma honest_seq w l w1 k w2 :
  w_log w1 = w_log w ++ l -> replay (w_ext w) l (w_ext w1) ->
  w_log w2 = w_log w1 ++ k -> replay (w_ext w1) k (w_ext w2) ->
  exists l', w_log w2 = w_log w ++ l' /\ replay (w_ext w) l' (w_ext w2).
Proof.
  intros Hl Hr Hk Hrk. exists (l ++ k). split; [by rewrite Hk, Hl, app_assoc|by eapply replay_app].
Qed.

Lemma honest_bind {A B} (m : M A) (k : A -> M B) : honest m -> (forall a, honest (k a)) -> honest (m ≫= k).
Proof.
  intros Hm Hk w. destruct (Hm w) as (l & Hl & Hr). unfold mbind, M_bind.
  destruct (m w) as [[a| |] w1]; simpl in *; [|by eauto..].
  destruct (Hk a w1) as (l' & Hl' & Hr'). by eapply honest_seq.
Qed.

Lemma honest_unless_ok {A X} (m : M (result A X)) cleanup : honest m -> honest cleanup -> honest (unless_ok m cleanup).
Proof.
  intros Hm Hc w. destruct (Hm w) as (l & Hl & Hr). unfold unless_ok.
  destruct (m w) as [[[a|e]| |] w1]; simpl in *; [by eauto| | |by eauto];
    destruct (Hc w1) as (l' & Hl' & Hr'); by eapply honest_seq.
Qed.

Lemma honest_finally {A} (m : M A) cleanup : honest m -> honest cleanup -> honest (finally m cleanup).
Proof.
  intros Hm Hc w. destruct (Hm w) as (l & Hl & Hr). unfold finally.
  destruct (m w) as [[a| |] w1]; simpl in *; [| |by eauto];
    destruct (Hc w1) as (l' & Hl' & Hr'); by eapply honest_seq.
Qed.

Lemma honest_loop {St R} fuel (body : St -> M (St + R)) s : (forall s, honest (body s)) -> honest (loop fuel body s).
Proof.
  intros Hb. revert s. induction fuel as [|fuel IH]; intros s; cbn [loop]; [by apply honest_silent|].
  apply honest_bind; [done|]. intros [s'|r]; [apply IH|by apply honest_silent].
Qed.

(** The trace a trace statement speaks about is the environment's run. *)
Lemma emits_honest {A} t (m : M A) Q w :
  emits t m Q -> honest m -> w_tid w = t ->
  exists l, replay (w_ext w) l (w_ext (m w).2) /\ Q (m w).1 l.
Proof.
  intros Hm Hh Hw. destruct (Hm w Hw) as (_ & l & Hl & HQ). destruct (Hh w) as (l' & Hl' & Hr).
  rewrite Hl in Hl'. apply app_inv_head in Hl' as <-. eauto.
Qed.
End Replay.

Create HintDb honest.

(** Proves [honest] of a computation built from calls, binds, conditionals,
    loops and operations known to the [honest] database. *)
Ltac honest_go :=
  repeat first
    [ solve [auto 2 with honest]
    | lazymatch goal with
      | |- honest (mret _) => by apply honest_silent
      | |- honest panic => by apply honest_silent
      | |- honest cancelled => by apply honest_silent
      | |- honest (gets _) => by apply honest_silent
      | |- honest get_reactor => by apply honest_silent
      | |- honest (set_reactor _) => by apply honest_silent
      | |- honest (try_bind _ _) => apply honest_bind; [|intros []]
      | |- honest (_ ≫= _) => apply honest_bind; [|intros ?]
      | |- honest (loop _ _ _) => apply honest_loop; intros ?
      | |- honest (do_call ?c) => exact (honest_call c)
      | |- honest (if ?b then _ else _) => destruct b
      | |- honest (let (_, _) := ?x in _) => destruct x
      | |- honest (match ?x with _ => _ end) => destruct x
      end ].

(** ** Waiting for readiness *)

Section HonestWaiting.
Context `{E : Env}.

Lemma honest_notify_range ws evs i n : honest (notify_range ws evs i n).
Proof. revert i. induction n as [|n IH]; intros i; cbn [notify_range]; honest_go. Qed.

Lemma honest_poll_select order n d : honest (poll_select order n d).
Proof. induction order as [|[] order IH]; cbn [poll_select]; honest_go. Qed.

#[local] Hint Resolve honest_notify_range honest_poll_select : honest.

Lemma honest_poll_wait fuel fut : honest (poll_wait fuel fut).
Proof.
  unfold poll_wait, poll_wait_round, entry_or_insert, instant_add, drain_events, drain_events_with_inner,
    drain_round.
  honest_go.
Qed.

#[local] Hint Resolve honest_poll_wait : honest.

Lemma honest_wait fuel h m d : honest (wait_event fuel h m d).
Proof. unfold wait_event, await, await_round, yield_now. honest_go. Qed.
End HonestWaiting.

#[export] Hint Resolve honest_poll_wait honest_wait : honest.
