(* ===== verification/Ownership.v ===== *)
(** * Handle ownership

    Rust closes a [SessionHandle] when its owner goes out of scope.  This
    file is a small logic for that discipline over the traces of a
    computation: [accounts own hs errs m] says that [m], started while owning
    the handles [hs], ends owning [own a] when it returns [Ok a] and [errs]
    when it returns an error, panics or is cancelled, and that in between it never closes a
    handle it does not own. *)

From S2P Require Import Prelude Net Errors Ffi World Session App Reactor.

Section Ownership.
Context `{E : Env}.

Definition owned_after {A} (own : A -> list Z) (hs errs : list Z) (o : Outcome (Result A)) (l : trace) : Prop :=
  match o with
  | Done (Ok a) => pool_run hs l = Some (own a)
  | Done (Err _) => pool_run hs l = Some errs
  | Unwound _ => pool_run hs l = Some errs
  | OutOfFuel => is_Some (pool_run hs l)
  end.

Definition accounts {A} (own : A -> list Z) (hs errs : list Z) (m : M (Result A)) : Prop :=
  forall t, emits t m (owned_after own hs errs).

(** [m] makes only calls that satisfy [P]. *)
Definition only (P : event -> Prop) {A} (m : M A) : Prop := forall t, emits t m (fun _ l => Forall P l).

(** ** Computations that make only some calls *)

Section Only.
Context (P : event -> Prop).

Lemma only_ret {A} (a : A) : only P (mret a).
Proof. intros t. by apply emits_ret. Qed.

Lemma only_panic {A} : only P (panic : M A).
Proof. intros t. by apply emits_panic. Qed.

Lemma only_gets {A} (f : World -> A) : only P (gets f).
Proof. intros t. by apply emits_gets. Qed.

Lemma only_set_reactor r : only P (set_reactor r).
Proof. intros t. by apply emits_set_reactor. Qed.

Lemma only_set_registered r : only P (set_registered r).
Proof. intros t. by apply emits_set_registered. Qed.

Lemma only_call c : (forall t r, P (Ev t c r)) -> only P (do_call c).
Proof. intros Hc t. call_with any_answer. intros r _. by repeat constructor. Qed.

Lemma only_bind {A B} (m : M A) (k : A -> M B) :
  only P m -> (forall a, only P (k a)) -> only P (m ≫= k).
Proof.
  intros Hm Hk t. apply emits_bind. eapply emits_mono; [apply Hm|]. intros [a| |] l Hl; try done.
  eapply emits_mono; [apply Hk|]. intros o l' Hl'. by apply Forall_app.
Qed.

Lemma only_try_bind {A B X} (m : M (result A X)) (k : A -> M (result B X)) :
  only P m -> (forall a, only P (k a)) -> only P (try_bind m k).
Proof. intros Hm Hk. apply only_bind; [done|]. intros []; [apply Hk|apply only_ret]. Qed.

Lemma only_unless_ok {A X} (m : M (result A X)) cleanup :
  only P m -> only P cleanup -> only P (unless_ok m cleanup).
Proof.
  intros Hm Hc t. apply emits_unless_ok. eapply emits_mono; [apply Hm|].
  intros [[]| |] l Hl; try done; (eapply emits_mono; [apply Hc|]); intros ? l' Hl'; by apply Forall_app.
Qed.

Lemma only_loop {St R} fuel (body : St -> M (St + R)) s :
  (forall s, only P (body s)) -> only P (loop fuel body s).
Proof.
  intros Hb t. apply (emits_loop (fun _ l => Forall P l)); [done| |done].
  intros s' l Hl. eapply emits_mono; [apply Hb|]. intros [[]| |] l' Hl'; by apply Forall_app.
Qed.

Lemma only_wait (wait : Z -> Z -> M (Result unit)) `{!WaitContract wait} h timeout :
  (forall e, quiet_event e = true -> P e) -> only P (wait h timeout).
Proof.
  intros HP t. eapply emits_mono; [apply wait_contract|]. intros o l [Hq _].
  eapply Forall_impl; [exact Hq|]. intros e He. by apply HP.
Qed.

End Only.

(** A call that neither opens nor closes a handle. *)
Definition pool_inert (e : event) : Prop := opened_by e = [] /\ closed_by e = [].

End Ownership.

Abbreviation quietly := (only pool_inert).

Section Accounts.
Context `{E : Env}.

Lemma pool_inert_quiet l : Forall pool_inert l -> pool_quiet l.
Proof.
  induction 1 as [|e l [Ho Hc] _ [IHo IHc]]; [done|].
  unfold pool_quiet, opened, closed in *. cbn [mbind list_bind]. by rewrite Ho, Hc, IHo, IHc.
Qed.

Lemma quiet_event_inert e : quiet_event e = true -> pool_inert e.
Proof. destruct e as [t [] r]; done. Qed.

Lemma quietly_emits {A} t (m : M A) : quietly m -> emits t m (fun _ l => pool_quiet l).
Proof. intros Hm. eapply emits_mono; [apply Hm|]. auto using pool_inert_quiet. Qed.

(** ** Rules *)

Lemma accounts_ok {A} (own : A -> list Z) errs a : accounts own (own a) errs (mret (Ok a)).
Proof. intros t. by apply emits_ret. Qed.

Lemma accounts_err {A} (own : A -> list Z) hs e : accounts own hs hs (mret (Err e)).
Proof. intros t. by apply emits_ret. Qed.

(** Any operation that leaves the pool alone. *)
Lemma accounts_quiet {A} hs (m : M (Result A)) : quietly m -> accounts (fun _ => hs) hs hs m.
Proof.
  intros Hm t. eapply emits_mono; [by apply quietly_emits|].
  intros [[]| |] l Hl; simpl; rewrite pool_run_quiet by done; by eauto.
Qed.

Lemma accounts_bind {A B} own hs (m : M A) (k : A -> M (Result B)) :
  quietly m -> (forall a, accounts own hs hs (k a)) -> accounts own hs hs (m ≫= k).
Proof.
  intros Hm Hk t. apply emits_bind. eapply emits_mono; [by apply quietly_emits|].
  intros [a| |] l Hl; [|simpl; rewrite pool_run_quiet by done; by eauto..].
  eapply emits_mono; [apply Hk|].
  intros [[]| |] l' Hl'; simpl in *; by rewrite pool_run_app, pool_run_quiet by done.
Qed.

Lemma accounts_try_bind {A B} own1 own2 hs errs (m : M (Result A)) (k : A -> M (Result B)) :
  accounts own1 hs errs m -> (forall a, accounts own2 (own1 a) errs (k a)) ->
  accounts own2 hs errs (try_bind m k).
Proof.
  intros Hm Hk t. apply emits_try_bind. eapply emits_mono; [apply Hm|].
  intros [[a|e]| |] l Hl; try done. simpl in Hl. eapply emits_mono; [apply Hk|].
  intros [[]| |] l' Hl'; simpl in *; by rewrite pool_run_app, Hl.
Qed.

(** Matching on a result instead of propagating its error: the error branch
    starts with what the failed operation left. *)
Lemma accounts_bind_result {A B} own1 own2 hs errs errs' (m : M (Result A)) (k : Result A -> M (Result B)) :
  accounts own1 hs errs m ->
  (forall a, accounts own2 (own1 a) errs' (k (Ok a))) ->
  (forall e, accounts own2 errs errs' (k (Err e))) ->
  errs = errs' ->
  accounts own2 hs errs' (m ≫= k).
Proof.
  intros Hm Hok Herr <- t. apply emits_bind. eapply emits_mono; [apply Hm|].
  intros [[a|e]| |] l Hl; try done; simpl in Hl; (eapply emits_mono; [first [apply Hok|apply Herr]|]);
    intros [[]| |] l' Hl'; simpl in *; by rewrite pool_run_app, Hl.
Qed.

Lemma drop_closes t h hs : emits t (SessionHandle.drop h) (fun _ l => pool_run (h :: hs) l = Some hs).
Proof.
  eapply emits_mono; [by apply (drop_emits any_answer)|]. intros o l (rc & -> & ->). apply pool_run_close.
Qed.

(** A handle that a success hands on and every other exit closes. *)
Lemma accounts_unless_ok {A} own h hs errs (m : M (Result A)) :
  accounts own hs (h :: errs) m -> accounts own hs errs (unless_ok m (SessionHandle.drop h)).
Proof.
  intros Hm t. apply emits_unless_ok. eapply emits_mono; [apply Hm|].
  intros [[a|e]| |] l Hl; try done; (eapply emits_mono; [apply (drop_closes t h errs)|]);
    intros ? l' Hl'; simpl in *; by rewrite pool_run_app, Hl.
Qed.

(** Dropping an owner of [h]. *)
Definition closes (h : Z) (cleanup : M unit) : Prop :=
  forall t fr, emits t cleanup (fun _ l => pool_run (h :: fr) l = Some fr).

Lemma closes_drop h : closes h (SessionHandle.drop h).
Proof. intros t fr. apply drop_closes. Qed.

(** A handle closed on every exit. *)
Lemma accounts_finally {A} own h hs errs (m : M (Result A)) cleanup :
  closes h cleanup -> accounts (fun a => h :: own a) hs (h :: errs) m ->
  accounts own hs errs (finally m cleanup).
Proof.
  intros Hc Hm t. apply emits_finally. eapply emits_mono; [apply Hm|].
  intros [[a|e]| |] l Hl; try done;
    [eapply emits_mono; [apply (Hc t (own a))|]|(eapply emits_mono; [apply (Hc t errs)|])..];
    intros ? l' Hl'; simpl in *; by rewrite pool_run_app, Hl.
Qed.

Lemma accounts_on_thread {A} own hs errs t' (m : M (Result A)) :
  accounts own hs errs m -> accounts own hs errs (on_thread t' m).
Proof. intros Hm t. apply emits_on_thread, Hm. Qed.

Lemma accounts_create_tcp nb hs : accounts (fun h => h :: hs) hs hs (SessionHandle.create_tcp nb).
Proof.
  intros t. eapply emits_mono; [by apply (create_tcp_emits any_answer)|]. intros o l (rc & _ & -> & ->).
  unfold owned_after, pool_run, pool_step. simpl. by destruct (rc <? 0).
Qed.

Lemma accounts_create_udp nb hs : accounts (fun h => h :: hs) hs hs (SessionHandle.create_udp nb).
Proof.
  intros t. eapply emits_mono; [by apply (create_udp_emits any_answer)|]. intros o l (rc & _ & -> & ->).
  unfold owned_after, pool_run, pool_step. simpl. by destruct (rc <? 0).
Qed.

Lemma accounts_accept h hs : accounts (fun a => a.1 :: hs) hs hs (SessionHandle.accept h).
Proof.
  intros t. eapply emits_mono; [by apply (accept_emits any_answer)|]. intros o l (rc & ep & _ & -> & ->).
  unfold owned_after, pool_run, pool_step. simpl. by destruct (rc <? 0).
Qed.
End Accounts.

Create HintDb pool.
#[export] Hint Resolve accounts_err accounts_create_tcp accounts_create_udp accounts_accept : pool.

(** Proves [only] of a computation built from calls, binds, conditionals,
    loops and operations known to the [pool] database. *)
Ltac only_go :=
  repeat first
    [ solve [auto 2 with pool]
    | apply only_ret | apply only_panic | apply only_gets
    | apply only_set_reactor | apply only_set_registered
    | apply only_try_bind; [|intros ?]
    | apply only_bind; [|intros ?]
    | apply only_unless_ok
    | apply only_loop; intros ?
    | lazymatch goal with
      | |- only _ (do_call ?c) => apply (only_call _ c); done
      | |- only _ (if ?b then _ else _) => destruct b
      | |- only _ (let (_, _) := ?x in _) => destruct x
      | |- only _ (match ?x with _ => _ end) => destruct x
      end ].

Section QuietOperations.
Context `{E : Env}.

Lemma quietly_session_bind h a : quietly (SessionHandle.bind h a).
Proof. unfold SessionHandle.bind. only_go. Qed.
Lemma quietly_listen h n : quietly (SessionHandle.listen h n).
Proof. unfold SessionHandle.listen. only_go. Qed.
Lemma quietly_connect h a : quietly (SessionHandle.connect h a).
Proof. unfold SessionHandle.connect. only_go. Qed.
Lemma quietly_read h b : quietly (SessionHandle.read h b).
Proof. unfold SessionHandle.read. only_go. Qed.
Lemma quietly_write h b : quietly (SessionHandle.write h b).
Proof. unfold SessionHandle.write. only_go. Qed.
Lemma quietly_recvfrom h b : quietly (SessionHandle.recvfrom h b).
Proof. unfold SessionHandle.recvfrom. only_go. Qed.
Lemma quietly_sendto h b a : quietly (SessionHandle.sendto h b a).
Proof. unfold SessionHandle.sendto. only_go. Qed.
Lemma quietly_set_nodelay h : quietly (SessionHandle.set_nodelay h).
Proof. unfold SessionHandle.set_nodelay. only_go. Qed.
Lemma quietly_set_nonblocking h : quietly (SessionHandle.set_nonblocking h).
Proof. unfold SessionHandle.set_nonblocking. only_go. Qed.
Lemma quietly_local_addr h : quietly (SessionHandle.local_addr h).
Proof. unfold SessionHandle.local_addr. only_go. Qed.
Lemma quietly_register_worker : quietly register_worker_thread.
Proof. unfold register_worker_thread. only_go. Qed.
Lemma quietly_register h : quietly (register h).
Proof. unfold register. only_go. Qed.
Lemma quietly_deregister h : quietly (deregister h).
Proof. unfold deregister. only_go. Qed.
Lemma quietly_wait_readable fuel h d : quietly (wait_readable fuel h d).
Proof. apply only_wait; [apply _|apply quiet_event_inert]. Qed.
Lemma quietly_wait_writable fuel h d : quietly (wait_writable fuel h d).
Proof. apply only_wait; [apply _|apply quiet_event_inert]. Qed.
Lemma quietly_instant_add a b : quietly (instant_add a b).
Proof. unfold instant_add. only_go. Qed.
End QuietOperations.

#[export] Hint Resolve quietly_session_bind quietly_listen quietly_connect quietly_read quietly_write
  quietly_recvfrom quietly_sendto quietly_set_nodelay quietly_set_nonblocking quietly_local_addr
  quietly_register_worker quietly_register quietly_deregister quietly_wait_readable
  quietly_wait_writable quietly_instant_add : pool.

(** A step of an [accounts] goal over an operation that leaves the pool
    alone: either a plain bind or a [?]. *)
Ltac quiet_step :=
  lazymatch goal with
  | |- accounts _ _ _ (try_bind _ _) =>
      eapply accounts_try_bind; [apply accounts_quiet; solve [auto with pool|only_go]|intros ?; cbn beta]
  | |- accounts _ _ _ (_ ≫= _) =>
      apply accounts_bind; [solve [auto with pool|only_go]|intros ?; cbn beta]
  end.
