(* ===== verification/Stream.v ===== *)
(** * TCP streams (src/stream.rs)

    [VclStream]: a connected session, the two connect paths, the async
    [read]/[read_exact]/[write_all], and the [AsyncRead]/[AsyncWrite]
    implementations, which keep the reactor wait of a blocked operation in
    the stream between polls. *)

From S2P Require Import Prelude Net Errors Ffi World Sim Session App Reactor Ownership.

Record VclStream : Set := mkStream {
  st_handle : Z;
  pending_readable : option WaitFut;
  pending_writable : option WaitFut
}.

Definition set_pending_readable (p : option WaitFut) (s : VclStream) : VclStream :=
  mkStream (st_handle s) p (pending_writable s).
Definition set_pending_writable (p : option WaitFut) (s : VclStream) : VclStream :=
  mkStream (st_handle s) (pending_readable s) p.

(** tokio's [ReadBuf] after [initialize_unfilled]: the filled prefix and the
    initialised bytes after it. *)
Record ReadBuf : Set := mkReadBuf { rb_filled : list u8; rb_unfilled : list u8 }.

Section Stream.
Context `{E : Env}.

(** The closure [connect] hands to [spawn_blocking]. *)
Definition blocking_connect (addr : SocketAddr) : M (Result Z) :=
  _ ← register_worker_thread;
  blocking_sh ← do_call (vppcom_session_create VPPCOM_PROTO_TCP 0);
  if blocking_sh <? 0 then mret (Err (from_rc blocking_sh))
  else
    let '(ep, _) := SessionHandle.endpoint_into_buf addr zero_ip_buf in
    rc ← do_call (vppcom_session_connect (as_u32 blocking_sh) ep);
    if rc <? 0 then
      _ ← do_call (vppcom_session_close (as_u32 blocking_sh)); mret (Err (from_rc rc))
    else mret (Ok (as_u32 blocking_sh)).

Definition bind_source (h : Z) (source : option SocketAddr) : M (Result unit) :=
  match source with Some src => SessionHandle.bind h src | None => mret (Ok tt) end.

(** [VclStream::connect]; the [timeout] argument is unused by the code.  On
    success the first handle is forgotten, not closed. *)
Definition stream_connect (addr : SocketAddr) (source : option SocketAddr) (timeout : Z)
    : M (Result VclStream) :=
  _ ← register_worker_thread;
  handle ←? SessionHandle.create_tcp true;
  unless_ok (
    _ ← SessionHandle.set_nodelay handle;
    _ ←? bind_source handle source;
    joined ← do_call spawn_blocking;
    match joined with
    | Err e => mret (Err (Api (Fmt "spawn_blocking join: {}" [AText e]) (-1)))
    | Ok worker =>
        connect_result ←? (r ← on_thread worker (blocking_connect addr); _ ← yield_now; mret r);
        _ ← SessionHandle.set_nodelay connect_result;
        mret (Ok (mkStream connect_result None None))
    end)
  (SessionHandle.drop handle).

Definition connect_async (fuel : nat) (addr : SocketAddr) (source : option SocketAddr) (timeout : Z)
    : M (Result VclStream) :=
  _ ← register_worker_thread;
  handle ←? SessionHandle.create_tcp true;
  unless_ok (
    _ ← SessionHandle.set_nodelay handle;
    _ ←? bind_source handle source;
    _ ←? register handle;
    connected ← SessionHandle.connect handle addr;
    match connected with
    | Ok _ | Err WouldBlock =>
        _ ←? wait_writable fuel handle timeout;
        mret (Ok (mkStream handle None None))
    | Err e => mret (Err e)
    end)
  (SessionHandle.drop handle).

(** Takes the handle over: it is closed if the flags cannot be set. *)
Definition from_accepted (handle : Z) : M (Result VclStream) :=
  unless_ok (
    _ ←? SessionHandle.set_nonblocking handle;
    _ ← SessionHandle.set_nodelay handle;
    mret (Ok (mkStream handle None None)))
  (SessionHandle.drop handle).

Definition read_round (fuel : nat) (h : Z) (buf : list u8)
    : M (list u8 + (Result Z * list u8)) :=
  '(r, buf) ← SessionHandle.read h buf;
  match r with
  | Ok n => if n =? 0 then mret (inr (Err Closed, buf)) else mret (inr (Ok n, buf))
  | Err WouldBlock | Err NotConnected =>
      waited ← wait_readable fuel h (secs 300);
      match waited with
      | Ok _ => mret (inl buf)
      | Err e => mret (inr (Err e, buf))
      end
  | Err e => mret (inr (Err e, buf))
  end.

(** The result and the buffer as the reads left it. *)
Definition stream_read (fuel : nat) (s : VclStream) (buf : list u8) : M (Result Z * list u8) :=
  loop fuel (read_round fuel (st_handle s)) buf.

Definition read_exact_round (fuel : nat) (s : VclStream) (st : Z * list u8)
    : M (Z * list u8 + (Result unit * list u8)) :=
  let '(pos, buf) := st in
  if pos <? len buf then
    '(r, sub) ← stream_read fuel s (drop (Z.to_nat pos) buf);
    let buf := take (Z.to_nat pos) buf ++ sub in
    match r with
    | Ok n => mret (inl (pos + n, buf))
    | Err e => mret (inr (Err e, buf))
    end
  else mret (inr (Ok tt, buf)).

Definition read_exact (fuel : nat) (s : VclStream) (buf : list u8) : M (Result unit * list u8) :=
  loop fuel (read_exact_round fuel s) (0, buf).

Definition write_all_round (fuel : nat) (s : VclStream) (buf : list u8) (pos : Z)
    : M (Z + Result unit) :=
  if pos <? len buf then
    r ← SessionHandle.write (st_handle s) (drop (Z.to_nat pos) buf);
    match r with
    | Ok n => mret (inl (pos + n))
    | Err WouldBlock | Err NotConnected =>
        waited ← wait_writable fuel (st_handle s) (secs 300);
        match waited with
        | Ok _ => mret (inl pos)
        | Err e => mret (inr (Err e))
        end
    | Err e => mret (inr (Err e))
    end
  else mret (inr (Ok tt)).

Definition write_all (fuel : nat) (s : VclStream) (buf : list u8) : M (Result unit) :=
  loop fuel (write_all_round fuel s buf) 0.

Definition stream_local_addr (s : VclStream) : M (option SocketAddr) :=
  r ← SessionHandle.local_addr (st_handle s); mret (ok r).

Definition stream_peer_addr (s : VclStream) : M (option SocketAddr) :=
  r ← SessionHandle.peer_addr (st_handle s); mret (ok r).

Definition handle_id (s : VclStream) : Z := st_handle s.

(** [impl Drop for VclStream], then the drop of its [handle] field. *)
Definition stream_drop (s : VclStream) : M unit :=
  _ ← deregister (st_handle s); SessionHandle.drop (st_handle s).

(** [ReadBuf::advance] panics when it would pass the initialised region. *)
Definition advance (n : Z) (b : ReadBuf) : M ReadBuf :=
  if n <=? len (rb_unfilled b) then
    mret (mkReadBuf (rb_filled b ++ take (Z.to_nat n) (rb_unfilled b)) (drop (Z.to_nat n) (rb_unfilled b)))
  else panic.

Definition read_polled : Type := Poll (result unit IoError) * VclStream * ReadBuf.

(** The part of the poll loop after the stored wait completed. *)
Definition poll_read_syscall (s : VclStream) (b : ReadBuf)
    : M ((VclStream * ReadBuf) + read_polled) :=
  '(r, unfilled) ← SessionHandle.read (st_handle s) (rb_unfilled b);
  let b := mkReadBuf (rb_filled b) unfilled in
  match r with
  | Ok n =>
      if n =? 0 then mret (inr (Ready (Ok tt), s, b))
      else b ← advance n b; mret (inr (Ready (Ok tt), s, b))
  | Err WouldBlock | Err NotConnected =>
      mret (inl (set_pending_readable (Some (WfStart (st_handle s) (secs 300))) s, b))
  | Err Closed => mret (inr (Ready (Ok tt), s, b))
  | Err e => mret (inr (Ready (Err (vcl_to_io e)), s, b))
  end.

Definition poll_read_round (fuel : nat) (st : VclStream * ReadBuf)
    : M ((VclStream * ReadBuf) + read_polled) :=
  let '(s, b) := st in
  match pending_readable s with
  | Some fut =>
      '(p, fut) ← poll_wait fuel fut;
      match p with
      | Pending => mret (inr (Pending, set_pending_readable (Some fut) s, b))
      | Ready (Ok _) => poll_read_syscall (set_pending_readable None s) b
      | Ready (Err e) => mret (inr (Ready (Err (vcl_to_io e)), set_pending_readable None s, b))
      end
  | None => poll_read_syscall s b
  end.

Definition poll_read (fuel : nat) (s : VclStream) (b : ReadBuf) : M read_polled :=
  loop fuel (poll_read_round fuel) (s, b).

Definition write_polled : Type := Poll (result Z IoError) * VclStream.

Definition poll_write_syscall (s : VclStream) (buf : list u8) : M (VclStream + write_polled) :=
  r ← SessionHandle.write (st_handle s) buf;
  match r with
  | Ok n => mret (inr (Ready (Ok n), s))
  | Err WouldBlock | Err NotConnected =>
      mret (inl (set_pending_writable (Some (WfStart (st_handle s) (secs 300))) s))
  | Err e => mret (inr (Ready (Err (vcl_to_io e)), s))
  end.

Definition poll_write_round (fuel : nat) (buf : list u8) (s : VclStream) : M (VclStream + write_polled) :=
  match pending_writable s with
  | Some fut =>
      '(p, fut) ← poll_wait fuel fut;
      match p with
      | Pending => mret (inr (Pending, set_pending_writable (Some fut) s))
      | Ready (Ok _) => poll_write_syscall (set_pending_writable None s) buf
      | Ready (Err e) => mret (inr (Ready (Err (vcl_to_io e)), set_pending_writable None s))
      end
  | None => poll_write_syscall s buf
  end.

Definition poll_write (fuel : nat) (s : VclStream) (buf : list u8) : M write_polled :=
  loop fuel (poll_write_round fuel buf) s.

Definition poll_flush (s : VclStream) : M (Poll (result unit IoError)) := mret (Ready (Ok tt)).

Definition poll_shutdown (s : VclStream) : M (Poll (result unit IoError)) :=
  rc ← do_call (vppcom_session_shutdown (st_handle s) SHUT_WR);
  if rc <? 0 then mret (Ready (Err (vcl_to_io (from_rc rc)))) else mret (Ready (Ok tt)).
End Stream.

(** ** Payload

    What the read and write calls promise: a count no larger than the buffer,
    and exactly that many bytes moved. *)

Definition io_ok (c : call) : ret c -> Prop :=
  match c with
  | vppcom_session_read _ _ n => fun r => r.1 <= n /\ len r.2 = Z.max 0 r.1
  | vppcom_session_write _ _ n => fun rc => rc <= n
  | _ => fun _ => True
  end.

Lemma quiet_received h l : quiet l -> received h l = [].
Proof. intros (_ & _ & Hh)%quiet_inert. apply Hh. Qed.

Lemma quiet_written h l : quiet l -> written h l = [].
Proof. intros (_ & _ & Hh)%quiet_inert. apply Hh. Qed.

Section Payload.
Context `{E : Env} `{!EnvSat io_ok} (t : Z).

(** What one read operation did to the caller's buffer. *)
Definition read_post (h : Z) (buf : list u8) (o : Outcome (Result Z * list u8)) (l : trace) : Prop :=
  pool_quiet l /\
  match o with
  | Done (Ok n, buf') =>
      0 < n <= len buf /\ length buf' = length buf /\
      received h l = take (Z.to_nat n) buf' /\ drop (Z.to_nat n) buf' = drop (Z.to_nat n) buf
  | Done (Err e, buf') => retryable e = false /\ received h l = [] /\ buf' = buf
  | _ => received h l = []
  end.

Lemma wait_outcome_not_retryable e : wait_outcome (Done (Err e)) -> retryable e = false.
Proof. by destruct e. Qed.

Lemma read_call_received h buf n rc (data : list u8) :
  received h [Ev t (vppcom_session_read h buf n) (rc, data)] =
  if 0 <=? rc then take (Z.to_nat rc) data else [].
Proof. unfold received. simpl. rewrite Z.eqb_refl. simpl. by rewrite app_nil_r. Qed.

Lemma read_round_emits fuel h buf :
  emits t (read_round fuel h buf) (fun o l =>
    match o with
    | Done (inl buf') => pool_quiet l /\ received h l = [] /\ buf' = buf
    | Done (inr r) => read_post h buf (Done r) l
    | Unwound c => read_post h buf (Unwound c) l
    | OutOfFuel => read_post h buf OutOfFuel l
    end).
Proof.
  unfold read_round. apply emits_bind. eapply emits_mono; [by apply (read_emits io_ok)|].
  intros o l (rc & data & [Hle Hlen] & -> & ->). simpl in Hle, Hlen.
  set (ev := Ev t (vppcom_session_read h buf (len buf)) (rc, data)).
  assert (pool_quiet [ev]) as Hpq by done.
  destruct (rc <? 0) eqn:Hneg; bool_to_prop.
  - assert (data = []) as -> by (apply nil_length_inv; unfold len in Hlen; lia).
    rewrite fill_nil.
    assert (received h [ev] = []) as Hrec
      by (unfold ev; rewrite read_call_received; by rewrite (proj2 (Z.leb_gt _ _)) by lia).
    assert (emits t (waited ← wait_readable fuel h (secs 300);
        match waited with Ok _ => mret (inl buf) | Err e => mret (inr (Err e, buf)) end)
      (fun o l => match o with
        | Done (inl buf') => pool_quiet ([ev] ++ l) /\ received h ([ev] ++ l) = [] /\ buf' = buf
        | Done (inr r) => read_post h buf (Done r) ([ev] ++ l)
        | Unwound c => read_post h buf (Unwound c) ([ev] ++ l)
        | OutOfFuel => read_post h buf OutOfFuel ([ev] ++ l) end)) as Hwait.
    { apply emits_bind. eapply emits_mono; [apply wait_contract|]. intros o l [Hq Ho].
      assert (pool_quiet ([ev] ++ l)) by auto using pool_quiet_app, quiet_pool.
      assert (received h ([ev] ++ l) = []) by (by rewrite received_app, Hrec, quiet_received).
      destruct o as [[u|e]| |]; try done; apply emits_ret; rewrite app_nil_r; [done|].
      split; [done|]. eauto using wait_outcome_not_retryable. }
    destruct (from_rc rc) eqn:Hrc; [..|exact Hwait|exact Hwait|]; apply emits_ret; done.
  - assert (received h [ev] = take (Z.to_nat rc) data) as Hrec
      by (unfold ev; rewrite read_call_received; by rewrite (proj2 (Z.leb_le _ _)) by lia).
    assert (length data = Z.to_nat rc) as Hd by (unfold len in Hlen; lia).
    assert (Z.to_nat rc <= length buf)%nat as Hb by (unfold len in Hle; lia).
    destruct (rc =? 0) eqn:Hz; bool_to_prop; apply emits_ret; rewrite app_nil_r.
    + assert (data = []) as -> by (apply nil_length_inv; lia). rewrite fill_nil.
      split; [done|]. split_and!; [done| |done]. by rewrite Hrec, take_nil.
    + split; [done|]. split_and!; [lia|done|apply length_fill| |].
      * by rewrite Hrec, take_fill by lia.
      * rewrite <- Hd. by rewrite drop_fill by lia.
Qed.

Lemma stream_read_emits fuel s buf :
  emits t (stream_read fuel s buf) (read_post (st_handle s) buf).
Proof.
  apply (emits_loop (fun buf' l => pool_quiet l /\ received (st_handle s) l = [] /\ buf' = buf));
    [done| |by intros ? ? (? & ? & _)].
  intros buf' l (Hp & Hr & ->). eapply emits_mono; [apply read_round_emits|].
  intros o l' Ho. destruct o as [[buf'|[[n|e] buf']]| |]; unfold read_post in *; destruct_conj;
    rewrite received_app, Hr; split_and!; auto using pool_quiet_app.
Qed.

(** An async read never returns zero bytes or a retryable error, stores
    exactly the bytes libvppcom delivered at the start of the buffer and
    nothing beyond them, and leaves the buffer as it was on an error. *)
Theorem read_delivers fuel s buf :
  emits t (stream_read fuel s buf) (read_post (st_handle s) buf).
Proof. apply stream_read_emits. Qed.

(** Progress of [read_exact]: the first [pos] bytes of the buffer are what
    was received, the rest is untouched. *)
Definition filled_to (h : Z) (buf : list u8) (st : Z * list u8) (l : trace) : Prop :=
  let '(pos, b) := st in
  pool_quiet l /\ 0 <= pos <= len buf /\ length b = length buf /\
  received h l = take (Z.to_nat pos) b /\ drop (Z.to_nat pos) b = drop (Z.to_nat pos) buf.

Lemma filled_to_step h buf pos b l n sub l' :
  filled_to h buf (pos, b) l -> read_post h (drop (Z.to_nat pos) b) (Done (Ok n, sub)) l' ->
  filled_to h buf (pos + n, take (Z.to_nat pos) b ++ sub) (l ++ l').
Proof.
  intros (Hp & Hpos & Hlen & Hrec & Hrest) (Hp' & Hn & Hlsub & Hrec' & Hrest').
  rewrite len_drop in Hn by (unfold len in Hpos; lia). unfold len in Hn, Hpos.
  rewrite length_drop in Hlsub.
  assert (length (take (Z.to_nat pos) b) = Z.to_nat pos) as Hlt by (rewrite length_take; lia).
  unfold filled_to. replace (Z.to_nat (pos + n)) with (Z.to_nat pos + Z.to_nat n)%nat by lia.
  split_and!; [by apply pool_quiet_app|unfold len; lia|unfold len; lia|..].
  - rewrite length_app. lia.
  - by rewrite received_app, Hrec, Hrec', take_app_add'.
  - rewrite drop_app_add', Hrest' by done. by rewrite Hrest, drop_drop.
Qed.

Definition read_exact_post (h : Z) (buf : list u8) (o : Outcome (Result unit * list u8)) (l : trace) : Prop :=
  pool_quiet l /\
  match o with
  | Done (Ok _, buf') => length buf' = length buf /\ buf' = received h l
  | Done (Err e, buf') => retryable e = false /\
      exists pos, pos < len buf /\ filled_to h buf (pos, buf') l
  | _ => exists st, filled_to h buf st l
  end.

Lemma filled_to_stay h buf st l k :
  filled_to h buf st l -> pool_quiet k -> received h k = [] -> filled_to h buf st (l ++ k).
Proof.
  destruct st as [pos b]. intros (Hp & Hpos & Hlen & Hr & Hrest) Hk Hrk. unfold filled_to.
  rewrite received_app, Hrk, app_nil_r. split_and!; try done; [by apply pool_quiet_app|lia..].
Qed.

Lemma read_exact_round_emits fuel s buf st l :
  filled_to (st_handle s) buf st l ->
  emits t (read_exact_round fuel s st) (fun o l' =>
    match o with
    | Done (inl st') => filled_to (st_handle s) buf st' (l ++ l') /\ st.1 < st'.1
    | Done (inr r) => read_exact_post (st_handle s) buf (Done r) (l ++ l')
    | Unwound c => read_exact_post (st_handle s) buf (Unwound c) (l ++ l')
    | OutOfFuel => read_exact_post (st_handle s) buf OutOfFuel (l ++ l')
    end).
Proof.
  destruct st as [pos b]. intros Hfill. pose proof Hfill as (Hp & Hpos & Hlen & Hrec & Hrest).
  assert (len b = len buf) as Hlb by (unfold len; lia).
  unfold read_exact_round. destruct (pos <? len b) eqn:Hlt; bool_to_prop.
  - apply emits_bind. eapply emits_mono; [apply stream_read_emits|].
    intros [[[n|e] sub]| |] l' Hpost;
      [| |destruct Hpost; split; [by apply pool_quiet_app|exists (pos, b); by apply filled_to_stay]..].
    + apply emits_ret. rewrite app_nil_r. split; [by eapply filled_to_step|].
      destruct Hpost as (_ & Hn & _). simpl. lia.
    + apply emits_ret. rewrite app_nil_r. destruct Hpost as (Hp' & He & Hr' & ->).
      split; [by apply pool_quiet_app|]. split; [done|]. exists pos. split; [lia|].
      rewrite take_drop. by apply filled_to_stay.
  - apply emits_ret. rewrite app_nil_r. split; [done|].
    assert (pos = len buf) as -> by lia. split; [done|].
    rewrite Hrec. by rewrite take_ge by (unfold len; lia).
Qed.

Lemma read_exact_emits fuel s buf :
  emits t (read_exact fuel s buf) (read_exact_post (st_handle s) buf).
Proof.
  apply (emits_loop (filled_to (st_handle s) buf)).
  - pose proof (len_nonneg buf). unfold filled_to. by split_and!.
  - intros st l Hf. eapply emits_mono; [by apply read_exact_round_emits|].
    intros [[st'|r]| |] l' Ho; [by destruct Ho|done..].
  - intros [pos b] l Hf. split; [apply Hf|by exists (pos, b)].
Qed.

(** [read_exact] returns success only with the buffer filled to its
    last byte with the bytes received, in order; on an error the bytes received
    so far are a proper prefix of the buffer and the rest of it is
    untouched; and at no point has it taken more bytes than the buffer
    holds. *)
Theorem read_exact_fills fuel s buf :
  emits t (read_exact fuel s buf) (read_exact_post (st_handle s) buf).
Proof. apply read_exact_emits. Qed.

(** *** Writing *)

Lemma write_call_written h buf n rc :
  written h [Ev t (vppcom_session_write h buf n) rc] = if 0 <=? rc then take (Z.to_nat rc) buf else [].
Proof. unfold written. simpl. rewrite Z.eqb_refl. simpl. by rewrite app_nil_r. Qed.

(** [pos] bytes of the buffer were accepted, in order, each once. *)
Definition written_to (h : Z) (buf : list u8) (pos : Z) (l : trace) : Prop :=
  pool_quiet l /\ 0 <= pos <= len buf /\ written h l = take (Z.to_nat pos) buf.

Definition write_all_post (h : Z) (buf : list u8) (o : Outcome (Result unit)) (l : trace) : Prop :=
  match o with
  | Done (Ok _) => pool_quiet l /\ written h l = buf
  | Done (Err e) => retryable e = false /\ exists pos, pos < len buf /\ written_to h buf pos l
  | _ => exists pos, written_to h buf pos l
  end.

Lemma written_to_step h buf pos l n l' :
  written_to h buf pos l -> pool_quiet l' -> 0 <= n <= len (drop (Z.to_nat pos) buf) ->
  written h l' = take (Z.to_nat n) (drop (Z.to_nat pos) buf) ->
  written_to h buf (pos + n) (l ++ l').
Proof.
  intros (Hp & Hpos & Hw) Hp' Hn Hw'. unfold len in *. rewrite length_drop in Hn.
  split_and!; [by apply pool_quiet_app|unfold len; lia..|].
  rewrite written_app, Hw, Hw'.
  replace (Z.to_nat (pos + n)) with (Z.to_nat pos + Z.to_nat n)%nat by lia.
  by rewrite take_take_drop.
Qed.

Lemma write_all_round_emits fuel s buf pos l :
  written_to (st_handle s) buf pos l ->
  emits t (write_all_round fuel s buf pos) (fun o l' =>
    match o with
    | Done (inl pos') => written_to (st_handle s) buf pos' (l ++ l')
    | Done (inr r) => write_all_post (st_handle s) buf (Done r) (l ++ l')
    | Unwound c => write_all_post (st_handle s) buf (Unwound c) (l ++ l')
    | OutOfFuel => write_all_post (st_handle s) buf OutOfFuel (l ++ l')
    end).
Proof.
  intros Hto. pose proof Hto as (Hp & Hpos & Hw). set (h := st_handle s) in *.
  unfold write_all_round. destruct (pos <? len buf) eqn:Hlt; bool_to_prop.
  2:{ apply emits_ret. rewrite app_nil_r. split; [done|]. assert (pos = len buf) as -> by lia.
      by rewrite Hw, take_ge by (unfold len; lia). }
  apply emits_bind. eapply emits_mono; [by apply (write_emits io_ok)|].
  intros o k (rc & Hle & -> & ->). simpl in Hle. set (sub := drop (Z.to_nat pos) buf) in *.
  set (ev := Ev t (vppcom_session_write h sub (len sub)) rc). assert (pool_quiet [ev]) as Hpq by done.
  destruct (rc <? 0) eqn:Hneg; bool_to_prop.
  - assert (forall l', quiet l' -> written_to h buf pos (l ++ [ev] ++ l')) as Hstay.
    { intros l' Hq. replace pos with (pos + 0) by lia. apply written_to_step; [done| |..].
      - auto using pool_quiet_app, quiet_pool.
      - split; [lia|apply len_nonneg].
      - rewrite written_app, (quiet_written h l'), app_nil_r by done. unfold ev.
        rewrite write_call_written. by rewrite (proj2 (Z.leb_gt _ _)) by lia. }
    assert (emits t (waited ← wait_writable fuel h (secs 300);
        match waited with Ok _ => mret (inl pos) | Err e => mret (inr (Err e)) end)
      (fun o l' => match o with
        | Done (inl pos') => written_to h buf pos' (l ++ [ev] ++ l')
        | Done (inr r) => write_all_post h buf (Done r) (l ++ [ev] ++ l')
        | Unwound c => write_all_post h buf (Unwound c) (l ++ [ev] ++ l')
        | OutOfFuel => write_all_post h buf OutOfFuel (l ++ [ev] ++ l') end)) as Hwait.
    { apply emits_bind. eapply emits_mono; [apply wait_contract|]. intros o l' [Hq Ho].
      destruct o as [[u|e]| |]; [| |by exists pos; apply Hstay..];
        apply emits_ret; rewrite app_nil_r; [by apply Hstay|].
      split; [by apply wait_outcome_not_retryable|]. exists pos. auto. }
    specialize (Hstay [] quiet_nil).
    destruct (from_rc rc) eqn:Hrc; [..|exact Hwait|exact Hwait|]; apply emits_ret; rewrite app_nil_r in *;
      (split; [done|]); eauto with lia.
  - apply emits_ret. rewrite app_nil_r. apply written_to_step; [done|done|by split|].
    unfold ev. rewrite write_call_written. by rewrite (proj2 (Z.leb_le _ _)) by lia.
Qed.

Lemma write_all_emits fuel s buf :
  emits t (write_all fuel s buf) (write_all_post (st_handle s) buf).
Proof.
  apply (emits_loop (written_to (st_handle s) buf)).
  - pose proof (len_nonneg buf). by split_and!.
  - intros pos l Hto. by apply write_all_round_emits.
  - intros pos l Hto. by exists pos.
Qed.

(** [write_all] hands the buffer to libvppcom byte for byte, in order,
    none twice: on success the bytes accepted are the whole buffer, on an error
    (or at any point in between) they are a prefix of it. *)
Theorem write_all_writes_once fuel s buf :
  emits t (write_all fuel s buf) (write_all_post (st_handle s) buf).
Proof. apply write_all_emits. Qed.
End Payload.

(** ** Termination

    A session that always makes progress: a read into a non-empty buffer
    returns at least one byte, a non-empty write accepts at least one. *)

Definition prompt_ok (c : call) : ret c -> Prop :=
  match c with
  | vppcom_session_read _ _ n => fun r => r.1 <= n /\ len r.2 = Z.max 0 r.1 /\ (0 < n -> 0 < r.1)
  | vppcom_session_write _ _ n => fun rc => rc <= n /\ (0 < n -> 0 < rc)
  | _ => fun _ => True
  end.

Lemma prompt_io_ok `{E : Env} : EnvSat prompt_ok -> EnvSat io_ok.
Proof.
  intros Hp c t x. specialize (Hp c t x). destruct c; try done; simpl in *; tauto.
Qed.

Section Progress.
Context `{E : Env} `{Hprompt : !EnvSat prompt_ok} (t : Z).

Lemma stream_read_prompt fuel s buf :
  (0 < fuel)%nat -> 0 < len buf ->
  emits t (stream_read fuel s buf) (fun o _ => exists n buf', o = Done (Ok n, buf')).
Proof.
  intros Hf Hb. destruct fuel as [|fuel]; [lia|]. unfold stream_read. cbn [loop].
  apply emits_bind. unfold read_round at 1. apply emits_bind.
  eapply emits_mono; [by apply (read_emits prompt_ok)|].
  intros o l (rc & data & (Hle & Hlen & Hpos) & -> & ->). simpl in *. specialize (Hpos Hb).
  rewrite (proj2 (Z.ltb_ge _ _)), (proj2 (Z.eqb_neq _ _)) by lia.
  apply emits_ret, emits_ret. eauto.
Qed.

(** A round either advances or, with the buffer full, returns success. *)
Lemma read_exact_round_prompt fuel s pos b :
  (0 < fuel)%nat -> 0 <= pos ->
  emits t (read_exact_round fuel s (pos, b)) (fun o _ =>
    (pos < len b /\ exists st', o = Done (inl st')) \/ o = Done (inr (Ok tt, b))).
Proof.
  intros Hf Hpos. unfold read_exact_round. destruct (pos <? len b) eqn:Hlt; bool_to_prop.
  - apply emits_bind. eapply emits_mono; [apply stream_read_prompt; [done|]|].
    { rewrite len_drop; unfold len in *; lia. }
    intros o k (n & buf' & ->). apply emits_ret. eauto.
  - apply emits_ret. by right.
Qed.

(** [read_exact] terminates: on a session that always delivers at
    least one byte it returns success after at most as many rounds as the
    buffer has bytes, with the buffer filled with what was received. *)
Lemma read_exact_terminates fuel s buf :
  (length buf < fuel)%nat ->
  emits t (read_exact fuel s buf) (fun o l => exists buf',
    o = Done (Ok tt, buf') /\ length buf' = length buf /\ buf' = received (st_handle s) l).
Proof.
  intros Hf. pose proof (prompt_io_ok Hprompt).
  apply (emits_loop_total (filled_to (st_handle s) buf) (fun st => Z.to_nat (len buf - st.1))).
  - pose proof (len_nonneg buf). unfold filled_to. by split_and!.
  - unfold len. simpl. lia.
  - intros [pos b] l Hfill. pose proof Hfill as (_ & Hpos & _).
    eapply emits_mono; [apply emits_and; [by apply read_exact_round_emits|]|].
    { apply read_exact_round_prompt; lia. }
    intros o l' [Ho Hcase]. destruct Hcase as [(Hlt & [pos' b'] & ->)| ->].
    + destruct Ho as [Hf' Hlt']. split; [done|]. destruct Hf' as (_ & ? & _). simpl in *. lia.
    + destruct Ho as (_ & Hl & Hb). eauto.
Qed.

(** [write_all] terminates: on a session that accepts at least one
    byte of every non-empty write it returns success after at most as many
    rounds as the buffer has bytes, with the whole buffer accepted. *)
Lemma write_all_terminates fuel s buf :
  (length buf < fuel)%nat ->
  emits t (write_all fuel s buf) (fun o l => o = Done (Ok tt) /\ written (st_handle s) l = buf).
Proof.
  intros Hf. pose proof (prompt_io_ok Hprompt).
  apply (emits_loop_total (written_to (st_handle s) buf) (fun pos => Z.to_nat (len buf - pos))).
  - pose proof (len_nonneg buf). by split_and!.
  - unfold len. lia.
  - intros pos l Hto. pose proof Hto as (_ & Hpos & _).
    eapply emits_mono; [apply emits_and; [by apply write_all_round_emits|]|].
    { instantiate (1 := fun o _ => (exists pos', pos < pos' /\ o = Done (inl pos')) \/ o = Done (inr (Ok tt))).
      unfold write_all_round. destruct (pos <? len buf) eqn:Hlt; bool_to_prop; [|apply emits_ret; by right].
      apply emits_bind. eapply emits_mono; [by apply (write_emits prompt_ok)|].
      intros o k (rc & [Hle Hrc] & -> & ->). simpl in Hle, Hrc.
      assert (0 < rc) by (apply Hrc; rewrite len_drop; unfold len in *; lia).
      rewrite (proj2 (Z.ltb_ge _ _)) by lia. apply emits_ret. left. exists (pos + rc). split; [lia|done]. }
    intros o l' [Ho Hcase]. destruct Hcase as [(pos' & Hlt & ->)| ->]; [|by destruct Ho].
    split; [done|]. destruct Ho as (_ & ? & _). lia.
Qed.

(** C39. The loops over a buffer terminate: on a session that always delivers
    at least a byte, [read_exact] returns success within as many rounds as the
    buffer has bytes, the buffer filled with what was received; on one that
    accepts at least a byte of every non-empty write, [write_all] returns
    success within as many, the whole buffer written. *)
Theorem exact_io_terminates fuel s buf :
  (length buf < fuel)%nat ->
  emits t (read_exact fuel s buf) (fun o l => exists buf',
    o = Done (Ok tt, buf') /\ length buf' = length buf /\ buf' = received (st_handle s) l) /\
  emits t (write_all fuel s buf) (fun o l => o = Done (Ok tt) /\ written (st_handle s) l = buf).
Proof. intros Hf. split; [by apply read_exact_terminates|by apply write_all_terminates]. Qed.
End Progress.

(** ** The tokio traits *)

Definition io_kind (e : IoError) : ErrorKind := match e with IoNew k _ => k end.

(** An I/O error that stands for a VCL error the poll loops do not retry. *)
Definition surfaces (e : IoError) : Prop := exists ve, e = vcl_to_io ve /\ retryable ve = false.

(** The text of an error keeps it apart from the others, so an error that may
    surface is not the one of a handshake in progress, nor a would-block. *)
Lemma surfaces_not_retried e ve : surfaces e -> retryable ve = true -> e <> vcl_to_io ve.
Proof. intros (ve' & -> & Hr) Hve Heq. destruct ve; try done; destruct ve'; done. Qed.

Lemma surfaces_io ve : retryable ve = false -> surfaces (vcl_to_io ve).
Proof. by exists ve. Qed.

Section PollRead.
Context `{E : Env} `{!EnvSat io_ok} (t : Z).

(** The same session, whose write side was not touched. *)
Definition same_stream_r (s s' : VclStream) : Prop :=
  st_handle s' = st_handle s /\ pending_writable s' = pending_writable s.

Definition poll_read_post (s : VclStream) (b : ReadBuf) (o : Outcome read_polled) (l : trace) : Prop :=
  pool_quiet l /\
  match o with
  | Done (Pending, s', b') =>
      same_stream_r s s' /\ is_Some (pending_readable s') /\ b' = b /\ received (st_handle s) l = []
  | Done (Ready (Ok _), s', b') =>
      same_stream_r s s' /\ pending_readable s' = None /\
      rb_filled b' = rb_filled b ++ received (st_handle s) l /\
      length (rb_filled b' ++ rb_unfilled b') = length (rb_filled b ++ rb_unfilled b)
  | Done (Ready (Err e), s', b') =>
      same_stream_r s s' /\ pending_readable s' = None /\ b' = b /\
      received (st_handle s) l = [] /\ io_kind e = KOther /\ surfaces e
  | _ => received (st_handle s) l = []
  end.

Lemma poll_read_syscall_emits s b :
  pending_readable s = None ->
  emits t (poll_read_syscall s b) (fun o l =>
    match o with
    | Done (inl (s', b')) =>
        pool_quiet l /\ received (st_handle s) l = [] /\ b' = b /\ same_stream_r s s'
    | Done (inr r) => poll_read_post s b (Done r) l
    | Unwound _ => False
    | OutOfFuel => False
    end).
Proof.
  intros Hnone. destruct b as [filled unfilled]. unfold poll_read_syscall. simpl. apply emits_bind.
  eapply emits_mono; [by apply (read_emits io_ok)|].
  intros o l (rc & data & [Hle Hlen] & -> & ->). simpl in Hle, Hlen.
  set (ev := Ev t (vppcom_session_read (st_handle s) unfilled (len unfilled)) (rc, data)).
  assert (pool_quiet [ev]) as Hpq by done.
  assert (received (st_handle s) [ev] = if 0 <=? rc then take (Z.to_nat rc) data else []) as Hrec
    by apply read_call_received.
  destruct (rc <? 0) eqn:Hneg; bool_to_prop.
  - assert (data = []) as -> by (apply nil_length_inv; unfold len in Hlen; lia).
    rewrite fill_nil. rewrite (proj2 (Z.leb_gt _ _)) in Hrec by lia.
    destruct (from_rc rc) eqn:Hrc; apply emits_ret; rewrite app_nil_r; unfold poll_read_post;
      rewrite ?Hrec, ?app_nil_r; split_and!; done || by apply surfaces_io.
  - rewrite (proj2 (Z.leb_le _ _)) in Hrec by lia.
    assert (length data = Z.to_nat rc) as Hd by (unfold len in Hlen; lia).
    rewrite take_ge in Hrec by lia.
    destruct (rc =? 0) eqn:Hz; bool_to_prop.
    + assert (data = []) as -> by (apply nil_length_inv; lia). rewrite fill_nil.
      apply emits_ret. rewrite app_nil_r. split; [done|]. by rewrite Hrec, app_nil_r.
    + unfold advance. simpl. unfold len at 1. rewrite length_fill. fold (len unfilled).
      rewrite (proj2 (Z.leb_le _ _)) by lia. apply emits_bind, emits_ret, emits_ret.
      rewrite !app_nil_r. split; [done|]. rewrite Hrec. cbn [rb_filled rb_unfilled].
      assert (length data <= length unfilled)%nat by (unfold len in Hle; lia).
      rewrite take_fill, (take_ge data) by lia. split_and!; try done.
      rewrite !length_app, length_drop, length_fill. lia.
Qed.

Lemma poll_read_post_prefix s b s1 o l l' :
  same_stream_r s s1 -> pool_quiet l -> received (st_handle s) l = [] ->
  poll_read_post s1 b o l' -> poll_read_post s b o (l ++ l').
Proof.
  intros [Hh Hw] Hp Hr (Hp' & Ho). split; [by apply pool_quiet_app|].
  rewrite received_app, Hr. simpl. rewrite Hh in Ho. unfold same_stream_r in *.
  destruct o as [[[[[]|] ?] ?]| |]; destruct_conj; repeat split; congruence || done.
Qed.

Lemma poll_read_emits fuel s b : emits t (poll_read fuel s b) (poll_read_post s b).
Proof.
  apply (emits_loop (fun st l => pool_quiet l /\ received (st_handle s) l = [] /\ st.2 = b /\
    same_stream_r s st.1)); [done| |by intros st l (? & ? & _)].
  intros [s1 b1] l (Hp & Hr & Hb & Hs). simpl in Hb, Hs. subst b1. unfold poll_read_round.
  assert (forall s2 k, same_stream_r s s2 -> pending_readable s2 = None -> quiet k ->
    emits t (poll_read_syscall s2 b) (fun o l' =>
      match o with
      | Done (inl st) => pool_quiet (l ++ k ++ l') /\ received (st_handle s) (l ++ k ++ l') = [] /\
                         st.2 = b /\ same_stream_r s st.1
      | Done (inr r) => poll_read_post s b (Done r) (l ++ k ++ l')
      | Unwound c => poll_read_post s b (Unwound c) (l ++ k ++ l')
      | OutOfFuel => poll_read_post s b OutOfFuel (l ++ k ++ l') end)) as Hsys.
  { intros s2 k Hs2 Hn Hq. eapply emits_mono; [by apply poll_read_syscall_emits|].
    assert (pool_quiet (l ++ k)) as Hpk by auto using pool_quiet_app, quiet_pool.
    assert (received (st_handle s) (l ++ k) = []) as Hrk by (by rewrite received_app, Hr, quiet_received).
    intros [[[s3 b3]|r]| |] l' Ho; rewrite ?app_assoc; [|by eapply poll_read_post_prefix|done..].
    destruct Ho as (Hp' & Hr' & -> & Hs3). destruct Hs2 as [Hh2 Hw2], Hs3 as [Hh3 Hw3].
    rewrite received_app, Hrk. rewrite Hh2 in Hr'. simpl.
    split_and!; [by apply pool_quiet_app|done|done|split; congruence]. }
  destruct (pending_readable s1) as [fut|] eqn:Hpend.
  - apply emits_bind. eapply emits_mono; [apply poll_wait_contract|]. intros o k [Hq Ho].
    assert (pool_quiet (l ++ k)) by auto using pool_quiet_app, quiet_pool.
    assert (received (st_handle s) (l ++ k) = []) by (by rewrite received_app, Hr, quiet_received).
    destruct o as [[[[u|e]|] fut']| |]; [by apply Hsys|..|done|done];
      apply emits_ret; rewrite app_nil_r; (split; [done|]); split_and!; try done.
    all: destruct e; done || by apply surfaces_io.
  - apply (Hsys s1 []); [done|done|constructor].
Qed.

(** C16. [poll_read] keeps tokio's contract: it is pending only with a
    reactor wait stored in the stream, it is ready only with the stored wait
    cleared; bytes are appended to the filled part exactly as received and
    only then; end of file shows as a success that appends nothing; and an
    I/O error stands for a VCL error that is neither would-block nor
    not-connected (a handshake still in progress) nor a closed session: those
    three never surface. *)
Theorem poll_read_contract fuel s b : emits t (poll_read fuel s b) (poll_read_post s b).
Proof. apply poll_read_emits. Qed.
End PollRead.

Section PollWrite.
Context `{E : Env} `{!EnvSat io_ok} (t : Z).

(** The same session, whose read side was not touched. *)
Definition same_stream_w (s s' : VclStream) : Prop :=
  st_handle s' = st_handle s /\ pending_readable s' = pending_readable s.

Definition poll_write_post (s : VclStream) (buf : list u8) (o : Outcome write_polled) (l : trace) : Prop :=
  pool_quiet l /\
  match o with
  | Done (Pending, s') =>
      same_stream_w s s' /\ is_Some (pending_writable s') /\ written (st_handle s) l = []
  | Done (Ready (Ok n), s') =>
      same_stream_w s s' /\ pending_writable s' = None /\ 0 <= n <= len buf /\
      written (st_handle s) l = take (Z.to_nat n) buf
  | Done (Ready (Err e), s') =>
      same_stream_w s s' /\ pending_writable s' = None /\
      written (st_handle s) l = [] /\ io_kind e <> KWouldBlock /\ surfaces e
  | _ => written (st_handle s) l = []
  end.

Lemma poll_write_syscall_emits s buf :
  pending_writable s = None ->
  emits t (poll_write_syscall s buf) (fun o l =>
    match o with
    | Done (inl s') => pool_quiet l /\ written (st_handle s) l = [] /\ same_stream_w s s'
    | Done (inr r) => poll_write_post s buf (Done r) l
    | Unwound _ => False
    | OutOfFuel => False
    end).
Proof.
  intros Hnone. unfold poll_write_syscall. apply emits_bind.
  eapply emits_mono; [by apply (write_emits io_ok)|].
  intros o l (rc & Hle & -> & ->). simpl in Hle.
  set (ev := Ev t (vppcom_session_write (st_handle s) buf (len buf)) rc). assert (pool_quiet [ev]) as Hpq by done.
  assert (written (st_handle s) [ev] = if 0 <=? rc then take (Z.to_nat rc) buf else []) as Hw
    by apply write_call_written.
  destruct (rc <? 0) eqn:Hneg; bool_to_prop.
  - rewrite (proj2 (Z.leb_gt _ _)) in Hw by lia.
    destruct (from_rc rc) eqn:Hrc; apply emits_ret; rewrite app_nil_r; unfold poll_write_post;
      split_and!; done || by apply surfaces_io.
  - rewrite (proj2 (Z.leb_le _ _)) in Hw by lia. apply emits_ret. rewrite app_nil_r. by split_and!.
Qed.

Lemma poll_write_post_prefix s buf s1 o l l' :
  same_stream_w s s1 -> pool_quiet l -> written (st_handle s) l = [] ->
  poll_write_post s1 buf o l' -> poll_write_post s buf o (l ++ l').
Proof.
  intros [Hh Hw] Hp Hr (Hp' & Ho). split; [by apply pool_quiet_app|].
  rewrite written_app, Hr. simpl. rewrite Hh in Ho. unfold same_stream_w in *.
  destruct o as [[[[]|] ?]| |]; destruct_conj; split_and?; congruence || done.
Qed.

Lemma poll_write_emits fuel s buf : emits t (poll_write fuel s buf) (poll_write_post s buf).
Proof.
  apply (emits_loop (fun s' l => pool_quiet l /\ written (st_handle s) l = [] /\ same_stream_w s s'));
    [done| |by intros st l (? & ? & _)].
  intros s1 l (Hp & Hr & Hs). unfold poll_write_round.
  assert (forall s2 k, same_stream_w s s2 -> pending_writable s2 = None -> quiet k ->
    emits t (poll_write_syscall s2 buf) (fun o l' =>
      match o with
      | Done (inl s') => pool_quiet (l ++ k ++ l') /\ written (st_handle s) (l ++ k ++ l') = [] /\
                         same_stream_w s s'
      | Done (inr r) => poll_write_post s buf (Done r) (l ++ k ++ l')
      | Unwound c => poll_write_post s buf (Unwound c) (l ++ k ++ l')
      | OutOfFuel => poll_write_post s buf OutOfFuel (l ++ k ++ l') end)) as Hsys.
  { intros s2 k Hs2 Hn Hq. eapply emits_mono; [by apply poll_write_syscall_emits|].
    assert (pool_quiet (l ++ k)) as Hpk by auto using pool_quiet_app, quiet_pool.
    assert (written (st_handle s) (l ++ k) = []) as Hrk by (by rewrite written_app, Hr, quiet_written).
    intros [[s3|r]| |] l' Ho; rewrite ?app_assoc; [|by eapply poll_write_post_prefix|done..].
    destruct Ho as (Hp' & Hr' & Hs3). destruct Hs2 as [Hh2 Hw2], Hs3 as [Hh3 Hw3].
    rewrite written_app, Hrk. rewrite Hh2 in Hr'. simpl.
    split_and!; [by apply pool_quiet_app|done|split; congruence]. }
  destruct (pending_writable s1) as [fut|] eqn:Hpend.
  - apply emits_bind. eapply emits_mono; [apply poll_wait_contract|]. intros o k [Hq Ho].
    assert (pool_quiet (l ++ k)) by auto using pool_quiet_app, quiet_pool.
    assert (written (st_handle s) (l ++ k) = []) by (by rewrite written_app, Hr, quiet_written).
    destruct o as [[[[u|e]|] fut']| |]; [by apply Hsys|..|done|done];
      apply emits_ret; rewrite app_nil_r; (split; [done|]); split_and!; try done.
    all: destruct e; done || by apply surfaces_io.
  - apply (Hsys s1 []); [done|done|constructor].
Qed.

(** C17. [poll_write] keeps tokio's contract: pending only with a reactor
    wait stored in the stream, ready only with it cleared; a success of [n]
    bytes means that exactly the first [n] bytes of the buffer were accepted,
    once; an error means none were; and neither would-block nor not-connected
    surfaces as an I/O error. *)
Theorem poll_write_contract fuel s buf : emits t (poll_write fuel s buf) (poll_write_post s buf).
Proof. apply poll_write_emits. Qed.
End PollWrite.

(** ** Opening and closing streams *)

(** The registrations with an epoll set in a trace. *)
Definition epoll_ctl_by (e : event) : list (Z * Z) :=
  match e with Ev _ (vppcom_epoll_ctl _ op h _) _ => [(op, h)] | _ => [] end.
Definition epoll_ctls (l : trace) : list (Z * Z) := l ≫= epoll_ctl_by.

(** The registration prologue every opening operation runs. *)
Definition prologue (l : trace) : Prop :=
  pool_quiet l /\ used l = [] /\ clocks l = [] /\ epoll_ctls l = [].

Section Opening.
Context `{E : Env} (t : Z).

Lemma register_prologue : emits t register_worker_thread (fun o l => o = Done tt /\ prologue l).
Proof.
  unfold register_worker_thread, prologue. emits_go; simpl; split_and!; try done.
  match goal with u : ret (tracing _ _) |- _ => by destruct u end.
Qed.

(** The bind calls [bind_source] makes. *)
Definition source_bind (h : Z) (source : option SocketAddr) (rc : Z) : trace :=
  match source with
  | Some src => [Ev t (vppcom_session_bind h (fst (SessionHandle.endpoint_into_buf src zero_ip_buf))) rc]
  | None => []
  end.

Lemma bind_source_emits h source :
  emits t (bind_source h source) (fun o l => exists rc,
    l = source_bind h source rc /\
    o = Done (match source with Some _ => if rc <? 0 then Err (from_rc rc) else Ok tt | None => Ok tt end)).
Proof.
  destruct source as [src|]; simpl.
  - eapply emits_mono; [by apply (bind_emits any_answer)|]. intros o l (rc & _ & -> & ->). by exists rc.
  - apply emits_ret. by exists 0.
Qed.
End Opening.

Section StreamOwnership.
Context `{E : Env}.

Lemma quietly_bind_source h source : quietly (bind_source h source).
Proof. unfold bind_source. only_go. Qed.

#[local] Hint Resolve quietly_bind_source : pool.

Lemma connect_async_accounts fuel addr source timeout hs :
  accounts (fun s => st_handle s :: hs) hs hs (connect_async fuel addr source timeout).
Proof.
  unfold connect_async. quiet_step.
  eapply accounts_try_bind; [apply accounts_create_tcp|]. intros h. apply accounts_unless_ok.
  do 4 quiet_step. case_match; [|case_match; try apply accounts_err].
  all: quiet_step; apply (accounts_ok (fun s => st_handle s :: hs) _ (mkStream h None None)).
Qed.

Lemma from_accepted_accounts h hs :
  accounts (fun s => st_handle s :: hs) (h :: hs) hs (from_accepted h).
Proof.
  apply accounts_unless_ok. do 2 quiet_step.
  apply (accounts_ok (fun s => st_handle s :: hs) _ (mkStream h None None)).
Qed.

Lemma stream_drop_closes s : closes (st_handle s) (stream_drop s).
Proof.
  intros t fr. unfold stream_drop, deregister, SessionHandle.drop. emits_go.
  rewrite app_nil_r. apply (pool_run_close t (st_handle s) fr).
Qed.

(** C21. [connect_async] closes what it opens: on success the stream's
    session is the only handle left open, on an error, on a panic and
    when the future is dropped none is, and no handle is ever closed twice or closed without having been opened; the
    same holds in any context of handles owned by others. *)
Theorem connect_async_owns fuel addr source timeout hs t :
  emits t (connect_async fuel addr source timeout) (owned_after (fun s => st_handle s :: hs) hs hs).
Proof. apply connect_async_accounts. Qed.

Lemma blocking_connect_accounts addr hs : accounts (fun h => h :: hs) hs hs (blocking_connect addr).
Proof.
  apply accounts_bind; [auto with pool|]. intros ? t. apply emits_bind.
  call_with any_answer. intros rc _. cbn [ret] in rc. destruct (rc <? 0) eqn:Hrc.
  { apply emits_ret. simpl. unfold pool_step. simpl. by rewrite Hrc. }
  destruct (SessionHandle.endpoint_into_buf addr zero_ip_buf) as [ep ?].
  apply emits_bind. call_with any_answer. intros rc2 _. cbn [ret] in rc2.
  destruct (rc2 <? 0) eqn:Hrc2.
  - apply emits_bind. call_with any_answer. intros rc3 _. apply emits_ret.
    simpl. unfold pool_step. simpl. rewrite Hrc. simpl. by rewrite Z.eqb_refl.
  - apply emits_ret. simpl. unfold pool_step. simpl. by rewrite Hrc.
Qed.

(** The handles [connect] owns besides [hs]: as for [owned_after], except that
    a task dropped while it waits for the closure loses the session the
    closure connected. *)
Definition connect_owned {A} (own : A -> list Z) (hs0 hs : list Z) (o : Outcome (Result A)) (l : trace) : Prop :=
  match o with
  | Unwound _ => pool_run hs0 l = Some hs \/ exists connected, pool_run hs0 l = Some (connected :: hs)
  | _ => owned_after own hs0 hs o l
  end.

Lemma owned_connect {A} (own : A -> list Z) hs0 hs o l :
  owned_after own hs0 hs o l -> connect_owned own hs0 hs o l.
Proof. destruct o as [[]| |]; simpl; auto. Qed.

(** Running the closure and resuming. *)
Lemma spawned_connect_emits worker addr hs t :
  emits t (r ← on_thread worker (blocking_connect addr); _ ← yield_now; mret r)
    (connect_owned (fun h => h :: hs) hs hs).
Proof.
  apply emits_bind, emits_on_thread. eapply emits_mono; [apply blocking_connect_accounts|].
  intros [[h|e]| |] l Hl; simpl in Hl; [..|by left|done];
    apply emits_bind, yield_emits; intros rx [] rx'; simpl;
    try (apply emits_ret; simpl); rewrite ?app_nil_r, pool_run_app, Hl; simpl; eauto.
Qed.

(** The part of [connect] that owns the first handle [h]. *)
Lemma connect_rest_emits addr source h t :
  emits t (
    _ ← SessionHandle.set_nodelay h;
    _ ←? bind_source h source;
    joined ← do_call spawn_blocking;
    match joined with
    | Err e => mret (Err (Api (Fmt "spawn_blocking join: {}" [AText e]) (-1)))
    | Ok worker =>
        connect_result ←? (r ← on_thread worker (blocking_connect addr); _ ← yield_now; mret r);
        _ ← SessionHandle.set_nodelay connect_result;
        mret (Ok (mkStream connect_result None None))
    end) (connect_owned (fun s => [st_handle s; h]) [h] [h]).
Proof.
  assert (forall {A B} (m : M A) (k : A -> M (Result B)) own,
    quietly m -> (forall a, emits t (k a) (connect_owned own [h] [h])) ->
    emits t (m ≫= k) (connect_owned own [h] [h])) as Hquiet.
  { intros A B m k own Hm Hk. apply emits_bind. eapply emits_mono; [by apply quietly_emits|].
    intros [a| |] l Hl; [|by unfold connect_owned, owned_after; rewrite pool_run_quiet by done; eauto..].
    eapply emits_mono; [apply Hk|]. intros [[]| |] l' Hl'; simpl; rewrite pool_run_app, pool_run_quiet by done; exact Hl'. }
  apply Hquiet; [auto with pool|]. intros _.
  apply Hquiet; [unfold bind_source; only_go|]. intros [[]|e]; [|by apply emits_ret].
  apply Hquiet; [only_go|]. intros [worker|e]; [|by apply emits_ret].
  apply emits_try_bind. eapply emits_mono; [apply (spawned_connect_emits worker addr [h])|].
  intros [[h2|e]| |] l Hl; try done. simpl in Hl.
  apply emits_bind. eapply emits_mono; [by apply (set_nodelay_emits any_answer)|].
  intros o l' (rc & _ & -> & ->). apply emits_ret. simpl. by rewrite pool_run_app, Hl.
Qed.

(** [connect] leaks: every success leaves two sessions open, the
    stream's and the one created first, which no value of the program holds
    any more; an error closes both; a task dropped at the [await] closes the
    first, but not a session its closure connected. *)
Theorem stream_connect_leaks addr source timeout t :
  emits t (stream_connect addr source timeout) (fun o l =>
    match o with
    | Done (Ok s) => exists forgotten, pool_run [] l = Some [st_handle s; forgotten]
    | Done (Err _) => pool_run [] l = Some []
    | Unwound _ => pool_run [] l = Some [] \/ exists connected, pool_run [] l = Some [connected]
    | OutOfFuel => is_Some (pool_run [] l)
    end).
Proof.
  unfold stream_connect. apply emits_bind. eapply emits_mono; [apply quietly_emits, quietly_register_worker|].
  intros [[]| |] l Hl; [|by rewrite pool_run_quiet; eauto..].
  apply emits_try_bind. eapply emits_mono; [apply (accounts_create_tcp true [])|].
  intros [[h|e]| |] k Hk; simpl in Hk; try by rewrite pool_run_app, pool_run_quiet; eauto.
  apply emits_unless_ok. eapply emits_mono; [apply connect_rest_emits|].
  intros [[s|e]|c|] k' Hk'; simpl in Hk';
    [rewrite pool_run_app, pool_run_quiet by done; simpl; rewrite pool_run_app, Hk; by eauto| | |
     rewrite pool_run_app, pool_run_quiet by done; simpl; rewrite pool_run_app, Hk; by eauto].
  all: unfold SessionHandle.drop; emits_go;
    rewrite ?app_nil_r, pool_run_app, pool_run_quiet by done; simpl; rewrite pool_run_app, Hk; simpl;
    rewrite pool_run_app.
  - rewrite Hk'. simpl. unfold pool_step. simpl. by rewrite Z.eqb_refl.
  - destruct Hk' as [->|[h2 ->]]; simpl; unfold pool_step; simpl; rewrite Z.eqb_refl; [by left|].
    right. destruct (h =? h2); by eexists.
Qed.
End StreamOwnership.

(** ** Order of the calls *)

Section StreamOrder.
Context `{E : Env} (t : Z).

(** The calls a successful [connect_async] makes on its session, up to the
    wait for writability. *)
Definition connect_calls (h v : Z) (addr : SocketAddr) (source : option SocketAddr)
    (rcs : Z * Z * Z * Z * Z) : trace :=
  let '(rc_create, rc_nodelay, rc_bind, rc_add, rc_connect) := rcs in
  [Ev t (vppcom_session_create VPPCOM_PROTO_TCP 1) rc_create;
   Ev t (vppcom_session_attr_set h VPPCOM_ATTR_SET_TCP_NODELAY 1 4) rc_nodelay] ++
  source_bind t h source rc_bind ++
  [Ev t (vppcom_epoll_ctl v EPOLL_CTL_ADD h
           (Some (mkEvent (Z.lor (Z.lor EPOLLIN EPOLLOUT) EPOLLET) h))) rc_add;
   Ev t (vppcom_session_connect h (fst (SessionHandle.endpoint_into_buf addr zero_ip_buf))) rc_connect].

(** From the registration on. *)
Lemma connect_tail_emits fuel h addr timeout :
  emits t (
    _ ←? register h;
    connected ← SessionHandle.connect h addr;
    match connected with
    | Ok _ | Err WouldBlock =>
        _ ←? wait_writable fuel h timeout;
        mret (Ok (mkStream h None None))
    | Err e => mret (Err e)
    end) (fun o l =>
    match o with
    | Done (Ok s) => s = mkStream h None None /\ exists v rc_add rc_connect lw,
        l = [Ev t (vppcom_epoll_ctl v EPOLL_CTL_ADD h
                     (Some (mkEvent (Z.lor (Z.lor EPOLLIN EPOLLOUT) EPOLLET) h))) rc_add;
             Ev t (vppcom_session_connect h (fst (SessionHandle.endpoint_into_buf addr zero_ip_buf)))
                  rc_connect] ++ lw /\
        quiet lw /\ 0 <= rc_add /\ (0 <= rc_connect \/ from_rc rc_connect = WouldBlock)
    | _ => True
    end).
Proof.
  apply emits_try_bind. eapply emits_mono; [apply register_emits_add|].
  intros o ? (v & rc4 & -> & ->). destruct (rc4 <? 0) eqn:Hrc4; [done|]. bool_to_prop.
  apply emits_bind. eapply emits_mono; [by apply (connect_emits any_answer)|].
  intros o ? (rc5 & _ & -> & ->).
  assert ((0 <= rc5 \/ from_rc rc5 = WouldBlock) -> forall ev,
    emits t (_ ←? wait_writable fuel h timeout; mret (Ok (mkStream h None None)))
      (fun o l => match o with
       | Done (Ok s) => s = mkStream h None None /\ exists v' rc_add rc_connect lw,
           [Ev t (vppcom_epoll_ctl v EPOLL_CTL_ADD h (Some ev)) rc4] ++
           [Ev t (vppcom_session_connect h (fst (SessionHandle.endpoint_into_buf addr zero_ip_buf))) rc5] ++ l =
           [Ev t (vppcom_epoll_ctl v' EPOLL_CTL_ADD h (Some ev)) rc_add;
            Ev t (vppcom_session_connect h (fst (SessionHandle.endpoint_into_buf addr zero_ip_buf)))
                 rc_connect] ++ lw /\
           quiet lw /\ 0 <= rc_add /\ (0 <= rc_connect \/ from_rc rc_connect = WouldBlock)
       | _ => True end)) as Hwait.
  { intros Hc ev. apply emits_try_bind. eapply emits_mono; [apply wait_contract|].
    intros [[[]|e]| |] lw [Hq _]; try done. apply emits_ret. rewrite app_nil_r. split; [done|].
    exists v, rc4, rc5, lw. by split_and!. }
  destruct (rc5 <? 0) eqn:Hrc5; bool_to_prop; [|apply Hwait; auto].
  destruct (from_rc rc5) eqn:Hfrom; [..|apply Hwait; auto|]; by apply emits_ret.
Qed.

Lemma connect_async_calls fuel addr source timeout :
  emits t (connect_async fuel addr source timeout) (fun o l =>
    match o with
    | Done (Ok s) => exists l0 v rcs lw,
        l = l0 ++ connect_calls (st_handle s) v addr source rcs ++ lw /\
        prologue l0 /\ quiet lw /\
        let '(_, _, rc_bind, rc_add, rc_connect) := rcs in
        (is_Some source -> 0 <= rc_bind) /\ 0 <= rc_add /\ (0 <= rc_connect \/ from_rc rc_connect = WouldBlock)
    | _ => True
    end).
Proof.
  unfold connect_async. apply emits_bind. eapply emits_mono; [apply register_prologue|].
  intros o l0 [-> Hl0]. apply emits_try_bind. eapply emits_mono; [by apply (create_tcp_emits any_answer)|].
  intros o ? (rc1 & _ & -> & ->). destruct (rc1 <? 0); [done|]. set (h := as_u32 rc1).
  assert (forall Q : Outcome unit -> trace -> Prop, (forall o l, Q o l) -> emits t (SessionHandle.drop h) Q) as Hdrop.
  { intros Q HQ. eapply emits_mono; [apply (drop_closes t h [])|]. auto. }
  apply emits_unless_ok. apply emits_bind. eapply emits_mono; [by apply (set_nodelay_emits any_answer)|].
  intros o ? (rc2 & _ & -> & ->).
  apply emits_try_bind. eapply emits_mono; [apply bind_source_emits|]. intros o ? (rc3 & -> & ->).
  assert (forall u, match source with Some _ => if rc3 <? 0 then Err (from_rc rc3) else Ok tt | None => Ok tt end = Ok u ->
    is_Some source -> 0 <= rc3) as Hbind.
  { intros u Hu [src ->]. destruct (rc3 <? 0) eqn:H3; [done|]. by bool_to_prop. }
  match goal with |- context [match ?r with Ok _ => _ | Err _ => _ end] => destruct r as [u|e] end;
    [specialize (Hbind u eq_refl)|by apply Hdrop].
  eapply emits_mono; [apply connect_tail_emits|]. intros [[s|e]| |] l Ho; try done; try by apply Hdrop.
  destruct Ho as (-> & v & rc4 & rc5 & lw & -> & Hq & Hadd & Hc).
  exists l0, v, (rc1, rc2, rc3, rc4, rc5), lw. split_and!; try done.
  unfold connect_calls. by rewrite <- !app_assoc.
Qed.

(** C22. A successful [connect_async] adds its session to the reactor's epoll
    set before it connects (so no CONNECTED event is missed), after the source
    address, if there is one, was bound with success; it connects to the requested address,
    accepts only success or would-block from the connect, and does nothing but
    wait after it. *)
Theorem connect_async_order fuel addr source timeout :
  emits t (connect_async fuel addr source timeout) (fun o l =>
    match o with
    | Done (Ok s) => exists l0 v rcs lw,
        l = l0 ++ connect_calls (st_handle s) v addr source rcs ++ lw /\
        prologue l0 /\ quiet lw /\
        let '(_, _, rc_bind, rc_add, rc_connect) := rcs in
        (is_Some source -> 0 <= rc_bind) /\ 0 <= rc_add /\ (0 <= rc_connect \/ from_rc rc_connect = WouldBlock)
    | _ => True
    end).
Proof. apply connect_async_calls. Qed.

(** A session taken over from an accept is non-blocking before it is
    handed out: success means libvppcom accepted O_NONBLOCK on that very
    session, and when it refuses, the session is closed and the error
    returned, with nothing else done to it. *)
Theorem from_accepted_nonblocking h :
  emits t (from_accepted h) (fun o l => exists rc rc' : Z,
    let set_flags := Ev t (vppcom_session_attr_set h VPPCOM_ATTR_SET_FLAGS SessionHandle.O_NONBLOCK 4) rc in
    if rc <? 0 then
      l = [set_flags; Ev t (vppcom_session_close h) rc'] /\ o = Done (Err (from_rc rc))
    else
      l = [set_flags; Ev t (vppcom_session_attr_set h VPPCOM_ATTR_SET_TCP_NODELAY 1 4) rc'] /\
      o = Done (Ok (mkStream h None None))).
Proof.
  unfold from_accepted. apply emits_unless_ok, emits_try_bind.
  eapply emits_mono; [by apply (set_nonblocking_emits any_answer)|]. intros o ? (rc & _ & -> & ->).
  destruct (rc <? 0) eqn:Hrc.
  - eapply emits_mono; [by apply (drop_emits any_answer)|]. intros o ? (rc' & -> & ->).
    exists rc, rc'. by rewrite Hrc.
  - apply emits_bind. eapply emits_mono; [by apply (set_nodelay_emits any_answer)|].
    intros o ? (rc' & _ & -> & ->). apply emits_ret. exists rc, rc'. by rewrite Hrc.
Qed.

(** Dropping a stream removes its waiters entry and takes the session
    out of the epoll set before the session is closed, and leaves every other
    entry of the reactor alone. *)
Theorem stream_drop_deregisters s w :
  wp (stream_drop s) (fun o w' => exists rc rc' : Z,
    o = Done tt /\ vep (w_reactor w') = vep (w_reactor w) /\
    waiters (w_reactor w') = delete (st_handle s) (waiters (w_reactor w)) /\
    w_log w' = w_log w ++
      [Ev (w_tid w) (vppcom_epoll_ctl (vep (w_reactor w)) EPOLL_CTL_DEL (st_handle s) None) rc;
       Ev (w_tid w) (vppcom_session_close (st_handle s)) rc']) w.
Proof.
  unfold stream_drop, deregister, SessionHandle.drop. wp_go. simpl. do 2 eexists.
  split_and!; [done..|]. by rewrite <- app_assoc.
Qed.
End StreamOrder.

(** ** A connect that times out

    The script below lets the handshake time out: the session gets handle 3,
    the connect is in progress, and the deadline passes. *)
Definition timeout_script : script := fun _ c =>
  match c with
  | vppcom_session_create _ _ => 3
  | vppcom_session_connect _ _ => - EINPROGRESS
  | poll_sleep_until _ => true
  | c => default_ret c
  end.

(** The error path of [connect_async] closes the session without
    deregistering it: the reactor still holds a waiters entry for the closed
    handle, which no stream will ever remove. *)
Lemma connect_timeout_keeps_waiter :
  let s := timeout_script in
  let addr := Sock.new IPV4_UNSPECIFIED 853 in
  let '(o, w) := @connect_async (scripted s) 5 addr None (secs 2) (fresh_world s 1) in
  o = Done (Err Timeout) /\ closed (w_log w) = [3] /\
  waiters (w_reactor w) !! 3 = Some 0%nat /\ epoll_ctls (w_log w) = [(EPOLL_CTL_ADD, 3)].
Proof. vm_compute. done. Qed.
