(* ===== verification/Channel.v ===== *)
(** * Streams as byte pipes

    The abstract specification of [VclStream] (src/stream.rs): a pipe that
    holds the bytes the peer's stream has still to deliver and the bytes
    handed over to it.  A client that drives a stream through [read],
    [read_exact], [write_all], [poll_read] and [poll_write] sees what a client
    of the pipe sees: the file ends with a forward simulation between the
    two, for clients that choose each operation from the answers so far. *)

From S2P Require Import Prelude Net Errors Ffi World Sim Session App Reactor Replay Ownership Stream.

(** ** The log of a stream operation replays the environment *)

Section HonestOperations.
Context `{E : Env}.

Lemma honest_stream_read fuel s buf : honest (stream_read fuel s buf).
Proof. unfold stream_read, read_round, SessionHandle.read, wait_readable. honest_go. Qed.

#[local] Hint Resolve honest_stream_read : honest.

Lemma honest_read_exact fuel s buf : honest (read_exact fuel s buf).
Proof. unfold read_exact, read_exact_round. honest_go. Qed.

Lemma honest_write_all fuel s buf : honest (write_all fuel s buf).
Proof. unfold write_all, write_all_round, SessionHandle.write, wait_writable. honest_go. Qed.

Lemma honest_poll_read fuel s b : honest (poll_read fuel s b).
Proof. unfold poll_read, poll_read_round, poll_read_syscall, SessionHandle.read, advance. honest_go. Qed.

Lemma honest_poll_write fuel s buf : honest (poll_write fuel s buf).
Proof. unfold poll_write, poll_write_round, poll_write_syscall, SessionHandle.write. honest_go. Qed.
End HonestOperations.

#[export] Hint Resolve honest_stream_read honest_read_exact honest_write_all honest_poll_read
  honest_poll_write : honest.

(** ** The pipe *)

Record pipe : Set := mkPipe { p_in : list u8; p_out : list u8 }.

(** Session [h] is a byte stream: [incoming x] is what the peer's side has
    still to deliver, [outgoing x] what was handed over to it.  A read takes
    the bytes it returns off the front of the one, a write puts the bytes it
    accepts at the end of the other, and no other call moves payload. *)
Class ByteChannel `{Env} (h : Z) (incoming outgoing : ext -> list u8) : Prop :=
  channel_step : forall c t x r x', env_step c t x = (r, x') ->
    incoming x = received_by h (Ev t c r) ++ incoming x' /\
    outgoing x' = outgoing x ++ written_by h (Ev t c r).

(** What a client of a stream can ask, and what it is told.  A buffer handed
    in comes back as the operation left it; [ACancelled] stands for a future
    the client dropped before it was ready. *)
Inductive op : Set :=
| OpRead (buf : list u8)
| OpReadExact (buf : list u8)
| OpWriteAll (buf : list u8)
| OpPollRead (b : ReadBuf)
| OpPollWrite (buf : list u8).

Inductive answer : Type :=
| ARead (r : Result Z) (buf : list u8)
| AReadExact (r : Result unit) (buf : list u8)
| AWriteAll (r : Result unit)
| APollRead (p : Poll (result unit IoError)) (b : ReadBuf)
| APollWrite (p : Poll (result Z IoError))
| ACancelled.

(** The most an operation may take off the pipe, and what it may put on. *)
Definition wants (o : op) : nat :=
  match o with
  | OpRead buf | OpReadExact buf => length buf
  | OpPollRead b => length (rb_unfilled b)
  | _ => 0
  end.

Definition offers (o : op) : list u8 :=
  match o with OpWriteAll buf | OpPollWrite buf => buf | _ => [] end.

(** Operations that can be dropped at any [await] without losing bytes. *)
Definition cancel_safe (o : op) : bool :=
  match o with OpReadExact _ | OpWriteAll _ => false | _ => true end.

(** What an operation cut off half-way may have moved. *)
Definition cut (o : op) (data acc : list u8) : Prop :=
  if cancel_safe o then data = [] /\ acc = []
  else (length data <= wants o)%nat /\ acc `prefix_of` offers o.

(** The specification: how a pipe serves an operation.  [None] is an
    operation that has not come back yet (or panicked). *)
Inductive serves : op -> pipe -> option answer -> pipe -> Prop :=
| serve_read buf data i o :
    data <> [] -> (length data <= length buf)%nat ->
    serves (OpRead buf) (mkPipe (data ++ i) o) (Some (ARead (Ok (len data)) (fill buf data))) (mkPipe i o)
| serve_read_err buf e p :
    retryable e = false -> serves (OpRead buf) p (Some (ARead (Err e) buf)) p
| serve_read_exact buf data i o :
    length data = length buf ->
    serves (OpReadExact buf) (mkPipe (data ++ i) o) (Some (AReadExact (Ok tt) data)) (mkPipe i o)
| serve_read_exact_err buf data e i o :
    retryable e = false -> (length data < length buf)%nat ->
    serves (OpReadExact buf) (mkPipe (data ++ i) o) (Some (AReadExact (Err e) (fill buf data))) (mkPipe i o)
| serve_write_all buf i o :
    serves (OpWriteAll buf) (mkPipe i o) (Some (AWriteAll (Ok tt))) (mkPipe i (o ++ buf))
| serve_write_all_err buf n e i o :
    retryable e = false -> (n < length buf)%nat ->
    serves (OpWriteAll buf) (mkPipe i o) (Some (AWriteAll (Err e))) (mkPipe i (o ++ take n buf))
| serve_poll_read_pending b p : serves (OpPollRead b) p (Some (APollRead Pending b)) p
| serve_poll_read b b' data i o :
    rb_filled b' = rb_filled b ++ data ->
    length (rb_filled b' ++ rb_unfilled b') = length (rb_filled b ++ rb_unfilled b) ->
    serves (OpPollRead b) (mkPipe (data ++ i) o) (Some (APollRead (Ready (Ok tt)) b')) (mkPipe i o)
| serve_poll_read_err b e p :
    io_kind e <> KWouldBlock -> serves (OpPollRead b) p (Some (APollRead (Ready (Err e)) b)) p
| serve_poll_write_pending buf p : serves (OpPollWrite buf) p (Some (APollWrite Pending)) p
| serve_poll_write buf n i o :
    0 <= n <= len buf ->
    serves (OpPollWrite buf) (mkPipe i o) (Some (APollWrite (Ready (Ok n)))) (mkPipe i (o ++ take (Z.to_nat n) buf))
| serve_poll_write_err buf e p :
    io_kind e <> KWouldBlock -> serves (OpPollWrite buf) p (Some (APollWrite (Ready (Err e)))) p
| serve_cancelled op data acc i o :
    cut op data acc -> serves op (mkPipe (data ++ i) o) (Some ACancelled) (mkPipe i (o ++ acc))
| serve_unfinished op data acc i o :
    cut op data acc -> serves op (mkPipe (data ++ i) o) None (mkPipe i (o ++ acc)).

(** A client: the next operation, from the answers so far. *)
Definition client : Type := list answer -> option op.

Inductive pipe_step (c : client) : list answer * pipe -> list answer * pipe -> Prop :=
| pipe_served hist p op a p' :
    c hist = Some op -> serves op p (Some a) p' -> pipe_step c (hist, p) (hist ++ [a], p').

(** ** The stream as the client runs it *)

Section Client.
Context `{E : Env}.

(** The operation, with the stream as it left it. *)
Definition run_op (fuel : nat) (s : VclStream) (o : op) : M (answer * VclStream) :=
  match o with
  | OpRead buf => '(r, buf) ← stream_read fuel s buf; mret (ARead r buf, s)
  | OpReadExact buf => '(r, buf) ← read_exact fuel s buf; mret (AReadExact r buf, s)
  | OpWriteAll buf => r ← write_all fuel s buf; mret (AWriteAll r, s)
  | OpPollRead b => '(p, s, b) ← poll_read fuel s b; mret (APollRead p b, s)
  | OpPollWrite buf => '(p, s) ← poll_write fuel s buf; mret (APollWrite p, s)
  end.

Record config : Type := mkConfig { cf_hist : list answer; cf_stream : VclStream; cf_world : World }.

Inductive client_step (c : client) : config -> config -> Prop :=
| client_ran hist s w op fuel a s' w' :
    c hist = Some op -> run_op fuel s op w = (Done (a, s'), w') ->
    client_step c (mkConfig hist s w) (mkConfig (hist ++ [a]) s' w')
| client_dropped hist s w op fuel w' :
    c hist = Some op -> run_op fuel s op w = (Unwound Cancelled, w') ->
    client_step c (mkConfig hist s w) (mkConfig (hist ++ [ACancelled]) s w').

(** What the client is told about an operation that ended with [r]. *)
Definition told {A} (f : A -> answer) (r : Outcome A) : option answer :=
  match r with
  | Done a => Some (f a)
  | Unwound Cancelled => Some ACancelled
  | _ => None
  end.
End Client.

(** ** What one operation does to the pipe *)

Section Serves.
Context `{E : Env} `{!EnvSat io_ok} (t : Z).

Definition writes_nothing (h : Z) (e : event) : Prop := written_by h e = [].
Definition reads_nothing (h : Z) (e : event) : Prop := received_by h e = [].

Lemma writes_nothing_written h l : Forall (writes_nothing h) l -> written h l = [].
Proof. induction 1 as [|e l He _ IH]; [done|]. unfold written in *. cbn [mbind list_bind]. by rewrite He, IH. Qed.

Lemma reads_nothing_received h l : Forall (reads_nothing h) l -> received h l = [].
Proof. induction 1 as [|e l He _ IH]; [done|]. unfold received in *. cbn [mbind list_bind]. by rewrite He, IH. Qed.

(** Waiting moves no payload either way. *)
Lemma only_poll_wait (P : event -> Prop) fuel fut :
  (forall e, quiet_event e = true -> P e) -> only P (poll_wait fuel fut).
Proof.
  intros HP t'. eapply emits_mono; [apply poll_wait_contract|]. intros o l [Hq _].
  eapply Forall_impl; [exact Hq|]. intros e He. by apply HP.
Qed.

Lemma quiet_writes_nothing h e : quiet_event e = true -> writes_nothing h e.
Proof. by destruct e as [? [] ?]. Qed.

Lemma quiet_reads_nothing h e : quiet_event e = true -> reads_nothing h e.
Proof. by destruct e as [? [] ?]. Qed.

Lemma read_writes_nothing fuel s buf h : only (writes_nothing h) (stream_read fuel s buf).
Proof.
  unfold stream_read, read_round, SessionHandle.read.
  pose proof (only_wait (writes_nothing h) (wait_readable fuel) (st_handle s) (secs 300) (quiet_writes_nothing h)).
  only_go.
Qed.

Lemma read_exact_writes_nothing fuel s buf h : only (writes_nothing h) (read_exact fuel s buf).
Proof.
  unfold read_exact, read_exact_round. pose proof (fun b => read_writes_nothing fuel s b h). only_go.
Qed.

Lemma poll_read_writes_nothing fuel s b h : only (writes_nothing h) (poll_read fuel s b).
Proof.
  unfold poll_read, poll_read_round, poll_read_syscall, SessionHandle.read, advance.
  pose proof (fun fut => only_poll_wait (writes_nothing h) fuel fut (quiet_writes_nothing h)). only_go.
Qed.

Lemma write_all_reads_nothing fuel s buf h : only (reads_nothing h) (write_all fuel s buf).
Proof.
  unfold write_all, write_all_round, SessionHandle.write.
  pose proof (only_wait (reads_nothing h) (wait_writable fuel) (st_handle s) (secs 300) (quiet_reads_nothing h)).
  only_go.
Qed.

Lemma poll_write_reads_nothing fuel s buf h : only (reads_nothing h) (poll_write fuel s buf).
Proof.
  unfold poll_write, poll_write_round, poll_write_syscall, SessionHandle.write.
  pose proof (fun fut => only_poll_wait (reads_nothing h) fuel fut (quiet_reads_nothing h)). only_go.
Qed.

(** The trace [l] of operation [o] on [h] is one way a pipe serves it. *)
Definition served (h : Z) (o : op) (a : option answer) (l : trace) : Prop :=
  forall i out, serves o (mkPipe (received h l ++ i) out) a (mkPipe i (out ++ written h l)).

Lemma fill_received (buf buf' : list u8) n :
  length buf' = length buf -> (n <= length buf)%nat -> drop n buf' = drop n buf -> buf' = fill buf (take n buf').
Proof.
  intros Hlen Hn Hd. unfold fill. rewrite length_take, (take_ge (take n buf')) by (rewrite length_take; lia).
  replace (n `min` length buf')%nat with n by lia. rewrite <- Hd. by rewrite take_drop.
Qed.

(** An operation that ended without an answer after it took [data], or put
    [acc]. *)
Lemma serves_cut {A} (f : A -> answer) r o data acc i out :
  match r with Done _ => False | _ => True end -> cut o data acc ->
  serves o (mkPipe (data ++ i) out) (told f r) (mkPipe i (out ++ acc)).
Proof. destruct r as [|[]|]; [done|..]; constructor; done. Qed.

Lemma serves_took {A} (f : A -> answer) r o data i out :
  match r with Done _ => False | _ => True end -> cut o data [] ->
  serves o (mkPipe (data ++ i) out) (told f r) (mkPipe i out).
Proof. intros Hr Hc. pose proof (serves_cut f r o data [] i out Hr Hc) as Hs. by rewrite app_nil_r in Hs. Qed.

Lemma serves_put {A} (f : A -> answer) r o acc i out :
  match r with Done _ => False | _ => True end -> cut o [] acc ->
  serves o (mkPipe i out) (told f r) (mkPipe i (out ++ acc)).
Proof. intros Hr Hc. by apply (serves_cut f r o [] acc). Qed.

Lemma served_read h buf o l : read_post h buf o l -> written h l = [] ->
  served h (OpRead buf) (told (fun a => ARead a.1 a.2) o) l.
Proof.
  intros [_ Ho] Hw i out. rewrite Hw, app_nil_r.
  destruct o as [[[n|e] buf']| |]; [..|rewrite Ho; by apply serves_took|rewrite Ho; by apply serves_took].
  - destruct Ho as (Hn & Hlen & -> & Hd). unfold len in Hn.
    assert (length (take (Z.to_nat n) buf') = Z.to_nat n) as Ht by (rewrite length_take; lia).
    rewrite (fill_received buf buf' (Z.to_nat n)) at 2 by (done || lia).
    replace n with (len (take (Z.to_nat n) buf')) at 2 by (unfold len; lia).
    constructor; [|lia]. intros Hnil. rewrite Hnil in Ht. simpl in Ht. lia.
  - destruct Ho as (He & -> & ->). by constructor.
Qed.

Lemma filled_to_fill h buf pos b l : filled_to h buf (pos, b) l ->
  b = fill buf (received h l) /\ length (received h l) = Z.to_nat pos /\ (Z.to_nat pos <= length buf)%nat.
Proof.
  intros (_ & Hpos & Hlen & -> & Hd). unfold len in Hpos. rewrite length_take.
  split_and!; [apply fill_received|..]; (done || lia).
Qed.

Lemma served_read_exact h buf o l : read_exact_post h buf o l -> written h l = [] ->
  served h (OpReadExact buf) (told (fun a => AReadExact a.1 a.2) o) l.
Proof.
  intros [_ Ho] Hw i out. rewrite Hw, app_nil_r.
  assert ((exists st, filled_to h buf st l) -> cut (OpReadExact buf) (received h l) []) as Hcut.
  { intros ([pos b] & (_ & Hl & Hle)%filled_to_fill). split; [simpl; lia|apply prefix_nil]. }
  destruct o as [[[[]|e] buf']| |]; [| |apply serves_took; auto..].
  - destruct Ho as (Hlen & ->). by constructor.
  - destruct Ho as (He & pos & Hpos & Hf). pose proof Hf as (_ & Hp & _).
    apply filled_to_fill in Hf as (-> & Hl & Hle). unfold len in Hpos. constructor; [done|lia].
Qed.

Lemma served_write_all h buf o l : write_all_post h buf o l -> received h l = [] ->
  served h (OpWriteAll buf) (told AWriteAll o) l.
Proof.
  intros Ho Hr i out. rewrite Hr.
  assert ((exists pos, written_to h buf pos l) -> cut (OpWriteAll buf) [] (written h l)) as Hcut.
  { intros (pos & _ & _ & ->). split; [simpl; lia|apply prefix_take]. }
  destruct o as [[[]|e]| |]; [| |apply serves_put; auto..].
  - destruct Ho as (_ & ->). constructor.
  - destruct Ho as (He & pos & Hpos & _ & Hp & ->). unfold len in Hpos. constructor; [done|lia].
Qed.

Lemma served_poll_read s b o l : poll_read_post s b o l -> written (st_handle s) l = [] ->
  served (st_handle s) (OpPollRead b) (told (fun a => APollRead a.1.1 a.2) o) l.
Proof.
  intros [_ Ho] Hw i out. rewrite Hw, app_nil_r.
  destruct o as [[[[[[]|e]|] s'] b']| |]; [| | |rewrite Ho; by apply serves_took..].
  - destruct Ho as (_ & _ & Hf & Hlen). by constructor.
  - destruct Ho as (_ & _ & -> & -> & He & _). constructor. by rewrite He.
  - destruct Ho as (_ & _ & -> & ->). constructor.
Qed.

Lemma served_poll_write s buf o l : poll_write_post s buf o l -> received (st_handle s) l = [] ->
  served (st_handle s) (OpPollWrite buf) (told (fun a => APollWrite a.1) o) l.
Proof.
  intros [_ Ho] Hr i out. rewrite Hr.
  destruct o as [[[[n|e]|] s']| |]; [| | |rewrite Ho; by apply serves_put..].
  - destruct Ho as (_ & _ & Hn & ->). by constructor.
  - destruct Ho as (_ & _ & -> & He & _). rewrite app_nil_r. by constructor.
  - destruct Ho as (_ & _ & ->). rewrite app_nil_r. constructor.
Qed.

Lemma emits_read_only {A} h (m : M A) (Q : Outcome A -> trace -> Prop) :
  only (writes_nothing h) m -> emits t m Q -> emits t m (fun o l => Q o l /\ written h l = []).
Proof.
  intros Ho Hm. eapply emits_mono; [apply emits_and; [exact Hm|apply Ho]|].
  intros o l [HQ Hl]. auto using writes_nothing_written.
Qed.

Lemma emits_write_only {A} h (m : M A) (Q : Outcome A -> trace -> Prop) :
  only (reads_nothing h) m -> emits t m Q -> emits t m (fun o l => Q o l /\ received h l = []).
Proof.
  intros Ho Hm. eapply emits_mono; [apply emits_and; [exact Hm|apply Ho]|].
  intros o l [HQ Hl]. auto using reads_nothing_received.
Qed.

(** The answer of a finished operation; the stream stays on its session. *)
Definition op_post (s : VclStream) (o : op) (r : Outcome (answer * VclStream)) (l : trace) : Prop :=
  served (st_handle s) o (told fst r) l /\
  match r with Done (_, s') => st_handle s' = st_handle s | _ => True end.

Lemma run_op_emits fuel s o : emits t (run_op fuel s o) (op_post s o).
Proof.
  unfold op_post. destruct o as [buf|buf|buf|b|buf]; cbn [run_op]; apply emits_bind.
  - eapply emits_mono; [apply emits_read_only; [apply read_writes_nothing|apply stream_read_emits]|].
    intros r l [Hp Hm]. apply served_read in Hp; [|done]. destruct r as [[]| |]; try done.
    apply emits_ret. by rewrite app_nil_r.
  - eapply emits_mono; [apply emits_read_only; [apply read_exact_writes_nothing|by apply read_exact_emits]|].
    intros r l [Hp Hm]. apply served_read_exact in Hp; [|done]. destruct r as [[]| |]; try done.
    apply emits_ret. by rewrite app_nil_r.
  - eapply emits_mono; [apply emits_write_only; [apply write_all_reads_nothing|by apply write_all_emits]|].
    intros r l [Hp Hm]. apply served_write_all in Hp; [|done]. destruct r as [r| |]; try done.
    apply emits_ret. by rewrite app_nil_r.
  - eapply emits_mono; [apply emits_read_only; [apply poll_read_writes_nothing|by apply poll_read_emits]|].
    intros r l [Hp Hm]. pose proof Hp as Hs. apply served_poll_read in Hp; [|done].
    destruct r as [[[p s'] b']| |]; try done. apply emits_ret. rewrite app_nil_r. split; [done|].
    destruct Hs as [_ Hs]. by destruct p as [[]|], Hs as [[] _].
  - eapply emits_mono; [apply emits_write_only; [apply poll_write_reads_nothing|by apply poll_write_emits]|].
    intros r l [Hp Hm]. pose proof Hp as Hs. apply served_poll_write in Hp; [|done].
    destruct r as [[p s']| |]; try done. apply emits_ret. rewrite app_nil_r. split; [done|].
    destruct Hs as [_ Hs]. by destruct p as [[]|], Hs as [[] _].
Qed.

Lemma honest_run_op fuel s o : honest (run_op fuel s o).
Proof. destruct o; cbn [run_op]; honest_go. Qed.
End Serves.

(** ** Refinement *)

Section Refinement.
Context `{E : Env} `{!EnvSat io_ok}.
Context (h : Z) (incoming outgoing : ext -> list u8) `{!ByteChannel h incoming outgoing}.

Definition pipe_of (w : World) : pipe := mkPipe (incoming (w_ext w)) (outgoing (w_ext w)).

(** Conservation: what a run received left the one end of the pipe, what it
    wrote arrived at the other, and nothing else moved. *)
Lemma replay_conserves x l x' : replay x l x' ->
  incoming x = received h l ++ incoming x' /\ outgoing x' = outgoing x ++ written h l.
Proof.
  induction 1 as [x|x t c r x' l x'' He _ [IHi IHo]]; [by rewrite app_nil_r|].
  destruct (channel_step c t x r x' He) as [Hi Ho]. unfold received, written in *.
  cbn [mbind list_bind]. by rewrite Hi, IHi, IHo, Ho, !app_assoc.
Qed.

Lemma run_op_serves fuel s o w r w' :
  st_handle s = h -> run_op fuel s o w = (r, w') ->
  serves o (pipe_of w) (told fst r) (pipe_of w') /\
  match r with Done (_, s') => st_handle s' = h | _ => True end.
Proof.
  intros Hs Hrun.
  destruct (emits_honest (w_tid w) _ _ w (run_op_emits (w_tid w) fuel s o) (honest_run_op fuel s o) eq_refl)
    as (l & Hr & Hserved & Hstay).
  rewrite Hrun, Hs in *. simpl in *. apply replay_conserves in Hr as [Hi Ho].
  unfold pipe_of. rewrite Hi, Ho. split; [apply Hserved|done].
Qed.

Definition view (cf : config) : list answer * pipe := (cf_hist cf, pipe_of (cf_world cf)).

Lemma client_step_simulates c cf cf' :
  client_step c cf cf' -> st_handle (cf_stream cf) = h ->
  pipe_step c (view cf) (view cf') /\ st_handle (cf_stream cf') = h.
Proof.
  intros [hist s w o fuel a s' w' Hc Hrun|hist s w o fuel w' Hc Hrun] Hs; simpl in *;
    destruct (run_op_serves fuel s o w _ w' Hs Hrun) as [Hserve Hs']; (split; [by econstructor|done]).
Qed.

Lemma client_run_simulates c cf cf' :
  rtc (client_step c) cf cf' -> st_handle (cf_stream cf) = h ->
  rtc (pipe_step c) (view cf) (view cf') /\ st_handle (cf_stream cf') = h.
Proof.
  induction 1 as [cf|cf cf1 cf' Hstep _ IH]; intros Hs; [done|].
  destruct (client_step_simulates c cf cf1 Hstep Hs) as [Hp Hs1].
  destruct (IH Hs1) as [Hrun Hs']. split; [by eapply rtc_l|done].
Qed.

(** C3. A stream refines a pipe.  Whatever a client does with a stream whose
    session is a byte channel, choosing each operation from the answers so
    far and dropping futures at any [await], some pipe gives it the same
    answers and is left in the same state: reads take bytes off the front of
    the peer's stream, each byte once and into the right place of the buffer,
    writes put the caller's bytes at the end of the other direction, each
    once, a pending poll moves nothing, and neither does a dropped [read]; a
    dropped [read_exact] or [write_all] has moved no more than its buffer.  The
    operation under way at the end of such a run, finished or not, is served
    by the pipe as well. *)
Theorem stream_refines_pipe c cf cf' :
  st_handle (cf_stream cf) = h -> rtc (client_step c) cf cf' ->
  rtc (pipe_step c) (view cf) (view cf') /\
  forall o fuel r w', run_op fuel (cf_stream cf') o (cf_world cf') = (r, w') ->
    serves o (pipe_of (cf_world cf')) (told fst r) (pipe_of w').
Proof.
  intros Hs Hrun. destruct (client_run_simulates c cf cf' Hrun Hs) as [Hsim Hs'].
  split; [done|]. intros o fuel r w' Hop. by eapply run_op_serves.
Qed.
End Refinement.
