(* ===== verification/Scheduler.v ===== *)
(** * Tasks sharing a reactor (src/reactor.rs)

    A worker's tasks and the periodic task run interleaved on one thread and
    share the reactor.  Here the interleaving is explicit: a configuration
    holds the waits under way ([wait_event] futures, each on a session) and
    the world, and a step starts a wait, polls one, drops one, runs a tick of
    the periodic task, drops a socket ([deregister]), or runs anything else
    that leaves the reactor alone.

    The invariant is that no wait is orphaned: the [Notify] it waits on stays
    the entry of its session in the waiters map, and no two sessions share
    one.  From it follows that a tick reaches every session, whatever
    happened before. *)

From S2P Require Import Prelude Net Errors Ffi World Sim Session App Reactor Replay Ownership Stream Channel.

(** A wait under way, on session [wt_handle]. *)
Record waiting : Set := mkWaiting { wt_handle : Z; wt_fut : WaitFut }.

(** [Arc::new(Notify::new())] is a new object: its identity is none that was
    handed out before. *)
Class FreshNotifies `{Env} (alloc : ext -> gset nat) : Prop := {
  alloc_new : forall t x n x', env_step notify_new t x = (n, x') -> (n ∉ alloc x) /\ (n ∈ alloc x');
  alloc_mono : forall c t x r x', env_step c t x = (r, x') -> alloc x ⊆ alloc x'
}.

(** Other tasks run in steps of their own, not inside a suspension. *)
Definition explicit_ok (c : call) : ret c -> Prop :=
  match c with suspend r => fun a => a.2 = r | _ => fun _ => True end.

Section Scheduler.
Context `{E : Env}.
Implicit Types w : World.

Definition on_session (h : Z) (ts : gmap nat waiting) : Prop := exists i k, ts !! i = Some k /\ wt_handle k = h.

Inductive sched_step : gmap nat waiting * World -> gmap nat waiting * World -> Prop :=
| sched_start ts w i h d :
    ts !! i = None -> sched_step (ts, w) (<[i := mkWaiting h (WfStart h d)]> ts, w)
| sched_poll ts w i k fuel p fut w' :
    ts !! i = Some k -> poll_wait fuel (wt_fut k) w = (Done (p, fut), w') ->
    sched_step (ts, w)
      (match p with Pending => <[i := mkWaiting (wt_handle k) fut]> ts | Ready _ => delete i ts end, w')
| sched_cancel ts w i : sched_step (ts, w) (delete i ts, w)
| sched_tick ts w fuel worker st st' w' :
    drainer_round fuel worker st w = (Done (inl st'), w') -> sched_step (ts, w) (ts, w')
| sched_drop ts w h w' :
    ~ on_session h ts -> deregister h w = (Done tt, w') -> sched_step (ts, w) (ts, w')
| sched_other ts w A (m : M A) :
    keeps m -> honest m -> sched_step (ts, w) (ts, (m w).2).

Section Invariant.
Context (alloc : ext -> gset nat) `{!FreshNotifies alloc} `{!EnvSat explicit_ok}.

(** The wait is on its session's entry. *)
Definition attached w (k : waiting) : Prop :=
  match wt_fut k with
  | WfStart h _ => h = wt_handle k
  | WfSelect n _ | WfRecheck n _ => waiters (w_reactor w) !! wt_handle k = Some n
  end.

(** Sessions have entries of their own, all of them handed out. *)
Definition distinct w : Prop :=
  (forall h1 h2 n, waiters (w_reactor w) !! h1 = Some n -> waiters (w_reactor w) !! h2 = Some n -> h1 = h2) /\
  (forall h n, waiters (w_reactor w) !! h = Some n -> n ∈ alloc (w_ext w)).

Definition sched_inv (s : gmap nat waiting * World) : Prop :=
  distinct s.2 /\ forall i k, s.1 !! i = Some k -> attached s.2 k.

Lemma replay_alloc x l x' : replay x l x' -> alloc x ⊆ alloc x'.
Proof. induction 1 as [|x t c r x' l x'' He _ IH]; [done|]. etrans; [by eapply alloc_mono|done]. Qed.

(** A computation that leaves the reactor alone keeps the invariant. *)
Lemma keeps_distinct {A} (m : M A) w : keeps m -> honest m -> distinct w -> distinct (m w).2.
Proof.
  intros Hk Hh [Hinj Hall]. destruct (Hk w) as (Hr & _). destruct (Hh w) as (l & _ & Hrep%replay_alloc).
  split; rewrite Hr; [done|]. intros h n Hn. apply Hrep. by eapply Hall.
Qed.

Lemma attached_same w w' k : w_reactor w' = w_reactor w -> attached w k -> attached w' k.
Proof. intros Hr. unfold attached. by rewrite Hr. Qed.

(** Entries are only added. *)
Lemma attached_grows w w' k : waiters (w_reactor w) ⊆ waiters (w_reactor w') -> attached w k -> attached w' k.
Proof.
  intros Hs. unfold attached. destruct (wt_fut k); [done|..]; intros Hn; by eapply lookup_weaken.
Qed.

(** What running [m] does to the shared state: entries are only added, and
    the result satisfies [Q]. *)
Definition adds {A} (m : M A) (Q : A -> World -> Prop) w : Prop :=
  wp m (fun o w' => distinct w' /\ waiters (w_reactor w) ⊆ waiters (w_reactor w') /\
    match o with Done a => Q a w' | _ => True end) w.

Lemma adds_ret {A} (a : A) (Q : A -> World -> Prop) w : distinct w -> Q a w -> adds (mret a) Q w.
Proof. intros Hd HQ. by split_and!. Qed.

Lemma adds_bind {A B} (m : M A) (k : A -> M B) (P : A -> World -> Prop) Q w :
  adds m P w -> (forall a w', distinct w' -> P a w' -> adds (k a) Q w') -> adds (m ≫= k) Q w.
Proof.
  unfold adds. intros Hm Hk. apply wp_bind. eapply wp_mono; [exact Hm|]. intros [a| |] w' (Hd & Hs & HP); [|done..].
  eapply wp_mono; [by apply Hk|]. intros o w'' (Hd' & Hs' & HQ). split_and!; [done|by etrans|done].
Qed.

Lemma adds_keeps {A} (m : M A) w :
  keeps m -> honest m -> distinct w -> adds m (fun _ w' => w_reactor w' = w_reactor w) w.
Proof.
  intros Hk Hh Hd. unfold adds, wp. pose proof (keeps_distinct m w Hk Hh Hd). destruct (Hk w) as (Hr & _).
  rewrite Hr. split_and!; [done|done|]. by case_match.
Qed.

Lemma adds_call c w : distinct w -> adds (do_call c) (fun _ w' => w_reactor w' = w_reactor w) w.
Proof. apply adds_keeps; [apply keeps_call|apply honest_call]. Qed.

Lemma adds_entry h w : distinct w ->
  adds (entry_or_insert h) (fun n w' => waiters (w_reactor w') !! h = Some n) w.
Proof.
  intros Hd. unfold entry_or_insert, get_reactor, adds. apply wp_bind, wp_gets. cbn beta iota.
  destruct (waiters (w_reactor w) !! h) as [n|] eqn:Hh; [by apply wp_ret|].
  apply wp_bind. apply (wp_call notify_new). intros n x He. cbn [ret] in n.
  destruct (alloc_new _ _ _ _ He) as [Hfresh Hin]. pose proof (alloc_mono _ _ _ _ _ He) as Hmono.
  destruct Hd as [Hinj Hall]. apply wp_bind, wp_set_reactor, wp_ret. simpl.
  split_and!; [split; simpl| |apply lookup_insert_eq].
  - intros h1 h2 m. rewrite !lookup_insert_Some. intros [[<- <-]|[Hn1 H1]] [[<- Heq]|[Hn2 H2]]; try done.
    + exfalso. apply Hfresh. by eapply Hall.
    + exfalso. subst m. apply Hfresh. by eapply Hall.
    + by eapply Hinj.
  - intros h' m. rewrite lookup_insert_Some. intros [[<- <-]|[_ Hm]]; [done|]. apply Hmono. by eapply Hall.
  - by apply insert_subseteq.
Qed.

(** ** Polling *)

Lemma keeps_poll_select order n d : keeps (poll_select order n d).
Proof.
  induction order as [|[] order IH]; cbn [poll_select]; [apply keeps_ret|..].
  all: apply keeps_bind; [exact (keeps_call _)|]; intros r; destruct r; auto using keeps_ret.
Qed.

Lemma keeps_instant_add t d : keeps (instant_add t d).
Proof. unfold instant_add. case_match; auto using keeps_ret, keeps_panic. Qed.

Lemma honest_instant_add t d : honest (instant_add t d).
Proof. unfold instant_add. honest_go. Qed.

Lemma honest_drain fuel : honest (drain_events_with_inner fuel).
Proof. unfold drain_events_with_inner, drain_round. pose proof honest_notify_range. honest_go. Qed.

(** A computation that leaves the reactor alone, then another. *)
Lemma adds_then {A B} (m : M A) (k : A -> M B) Q w :
  keeps m -> honest m -> distinct w ->
  (forall a w', distinct w' -> w_reactor w' = w_reactor w -> adds (k a) Q w') -> adds (m ≫= k) Q w.
Proof. intros Hk Hh Hd HQ. eapply adds_bind; [by apply adds_keeps|]. exact HQ. Qed.

Lemma adds_then_call {B} c (k : ret c -> M B) Q w :
  distinct w -> (forall r w', distinct w' -> w_reactor w' = w_reactor w -> adds (k r) Q w') -> adds (do_call c ≫= k) Q w.
Proof. apply adds_then; [apply keeps_call|apply honest_call]. Qed.

Ltac adds_call :=
  lazymatch goal with |- adds (do_call ?c ≫= ?k) ?Q ?w => apply (adds_then_call c k Q w); [done|intros ? ? ? ?] end.

Lemma poll_wait_round_adds fuel h fut w :
  distinct w -> attached w (mkWaiting h fut) ->
  adds (poll_wait_round fuel fut) (fun r w' =>
    match r with inl fut' => attached w' (mkWaiting h fut') | inr (_, fut') => attached w' (mkWaiting h fut') end) w.
Proof.
  intros Hd Ha. unfold attached in *. cbn [wt_fut wt_handle] in *.
  destruct fut as [h' d|n d|n d]; cbn [poll_wait_round].
  - subst h'. eapply adds_bind; [by apply adds_entry|]. intros n w1 Hd1 Hn. adds_call.
    eapply adds_then; [apply keeps_instant_add|apply honest_instant_add|done|]. intros deadline w3 Hd3 Hr3.
    apply adds_ret; [done|]. by rewrite Hr3, H0.
  - adds_call. eapply adds_then; [apply keeps_poll_select|apply honest_poll_select|done|]. intros sel w2 Hd2 Hr2.
    assert (waiters (w_reactor w2) !! h = Some n) as Ha2 by (by rewrite Hr2, H0).
    destruct sel as [[[e|]| |]|]; try by apply adds_ret.
    eapply adds_then; [apply drain_keeps|apply honest_drain|done|]. intros u w3 Hd3 Hr3. adds_call.
    apply adds_ret; [done|]. by rewrite H2, Hr3.
  - adds_call. destruct r; [apply adds_ret; [done|by rewrite H0]|]. adds_call.
    destruct r; (apply adds_ret; [done|by rewrite H2, H0]).
Qed.

Lemma poll_wait_adds fuel h fut w :
  distinct w -> attached w (mkWaiting h fut) ->
  adds (poll_wait fuel fut) (fun r w' => attached w' (mkWaiting h r.2)) w.
Proof.
  unfold poll_wait. generalize fuel at 1 as fuel0. intros fuel0. revert fuel fut w.
  induction fuel0 as [|fuel0 IH]; intros fuel fut w Hd Ha; cbn [loop]; [by split_and!|].
  eapply adds_bind; [by apply (poll_wait_round_adds fuel h)|]. intros [fut'|[p fut']] w' Hd' Ha'; [by apply IH|].
  by apply adds_ret.
Qed.

(** ** Waits stored in a stream *)

(** The waits a stream stores between polls are on its own session. *)
Definition stream_attached w (s : VclStream) : Prop :=
  (forall fut, pending_readable s = Some fut -> attached w (mkWaiting (st_handle s) fut)) /\
  (forall fut, pending_writable s = Some fut -> attached w (mkWaiting (st_handle s) fut)).

Lemma stream_attached_same w w' s : w_reactor w' = w_reactor w -> stream_attached w s -> stream_attached w' s.
Proof. intros Hr [Ha Hb]. split; intros fut Hf; (eapply attached_same; [exact Hr|auto]). Qed.

(** A poll of one stored wait leaves the other attached. *)
Lemma stream_attached_readable w w' s fut :
  waiters (w_reactor w) ⊆ waiters (w_reactor w') -> stream_attached w s ->
  (forall f, fut = Some f -> attached w' (mkWaiting (st_handle s) f)) ->
  stream_attached w' (set_pending_readable fut s).
Proof. intros Hs [_ Hb] Hf. split; simpl; [done|]. intros f Hp. eapply attached_grows; [exact Hs|auto]. Qed.

Lemma stream_attached_writable w w' s fut :
  waiters (w_reactor w) ⊆ waiters (w_reactor w') -> stream_attached w s ->
  (forall f, fut = Some f -> attached w' (mkWaiting (st_handle s) f)) ->
  stream_attached w' (set_pending_writable fut s).
Proof. intros Hs [Ha _] Hf. split; simpl; [|done]. intros f Hp. eapply attached_grows; [exact Hs|auto]. Qed.

Lemma adds_poll_wait fuel h fut w :
  distinct w -> attached w (mkWaiting h fut) ->
  adds (poll_wait fuel fut) (fun r w' => attached w' (mkWaiting h r.2) /\
    waiters (w_reactor w) ⊆ waiters (w_reactor w')) w.
Proof.
  intros Hd Ha. unfold adds. eapply wp_mono; [by apply (poll_wait_adds fuel h)|].
  intros [a| |] w' (Hd' & Hs & HP); by split_and!.
Qed.

Lemma keeps_read h buf : keeps (SessionHandle.read h buf).
Proof. apply keeps_bind; [exact (keeps_call _)|]. intros [rc data]. case_match; apply keeps_ret. Qed.

Lemma honest_read h buf : honest (SessionHandle.read h buf).
Proof. unfold SessionHandle.read. honest_go. Qed.

Lemma keeps_write h buf : keeps (SessionHandle.write h buf).
Proof. apply keeps_bind; [exact (keeps_call _)|]. intros rc. case_match; apply keeps_ret. Qed.

Lemma honest_write h buf : honest (SessionHandle.write h buf).
Proof. unfold SessionHandle.write. honest_go. Qed.

Lemma poll_read_syscall_adds s b w :
  distinct w -> stream_attached w s ->
  adds (poll_read_syscall s b) (fun r w' =>
    match r with inl st => stream_attached w' st.1 | inr p => stream_attached w' p.1.2 end) w.
Proof.
  intros Hd Ha. unfold poll_read_syscall.
  eapply adds_then; [apply keeps_read|apply honest_read|done|]. intros [r unf] w1 Hd1 Hr1.
  apply (stream_attached_same w w1) in Ha; [|done].
  destruct r as [n|e].
  - destruct (n =? 0); [by apply adds_ret|]. unfold advance. case_match; [|by split_and!].
    eapply (adds_bind _ _ (fun _ w' => w' = w1)); [by apply adds_ret|]. intros b' ? ? ->. by apply adds_ret.
  - destruct e; apply adds_ret; try done; apply (stream_attached_readable w1); try done; by intros f [= <-].
Qed.

Lemma poll_write_syscall_adds s buf w :
  distinct w -> stream_attached w s ->
  adds (poll_write_syscall s buf) (fun r w' =>
    match r with inl s' => stream_attached w' s' | inr p => stream_attached w' p.2 end) w.
Proof.
  intros Hd Ha. unfold poll_write_syscall.
  eapply adds_then; [apply keeps_write|apply honest_write|done|]. intros r w1 Hd1 Hr1.
  apply (stream_attached_same w w1) in Ha; [|done]. destruct r as [n|e]; [by apply adds_ret|].
  destruct e; apply adds_ret; try done; apply (stream_attached_writable w1); try done; by intros f [= <-].
Qed.

Lemma poll_read_adds fuel s b w :
  distinct w -> stream_attached w s -> adds (poll_read fuel s b) (fun p w' => stream_attached w' p.1.2) w.
Proof.
  unfold poll_read. generalize fuel at 1 as k. intros k. revert s b w.
  induction k as [|k IH]; intros s b w Hd Ha; cbn [loop]; [by split_and!|].
  apply (adds_bind _ _ (fun r w' => match r with inl st => stream_attached w' st.1 | inr p => stream_attached w' p.1.2 end));
    [|intros [[s' b']|p] w' Hd' Ha'; [by apply IH|by apply adds_ret]].
  unfold poll_read_round. destruct (pending_readable s) as [fut|] eqn:Hp; [|by apply poll_read_syscall_adds].
  eapply adds_bind; [apply (adds_poll_wait fuel (st_handle s)); [done|by apply (proj1 Ha)]|]. intros [[[[]|e]|] fut'] w1 Hd1 [Hf Hs].
  - apply poll_read_syscall_adds; [done|]. by apply (stream_attached_readable w).
  - apply adds_ret; [done|]. by apply (stream_attached_readable w).
  - apply adds_ret; [done|]. apply (stream_attached_readable w); [done..|]. by intros f [= <-].
Qed.

Lemma poll_write_adds fuel s buf w :
  distinct w -> stream_attached w s -> adds (poll_write fuel s buf) (fun p w' => stream_attached w' p.2) w.
Proof.
  unfold poll_write. generalize fuel at 1 as k. intros k. revert s w.
  induction k as [|k IH]; intros s w Hd Ha; cbn [loop]; [by split_and!|].
  apply (adds_bind _ _ (fun r w' => match r with inl s' => stream_attached w' s' | inr p => stream_attached w' p.2 end));
    [|intros [s'|p] w' Hd' Ha'; [by apply IH|by apply adds_ret]].
  unfold poll_write_round. destruct (pending_writable s) as [fut|] eqn:Hp; [|by apply poll_write_syscall_adds].
  eapply adds_bind; [apply (adds_poll_wait fuel (st_handle s)); [done|by apply (proj2 Ha)]|]. intros [[[n|e]|] fut'] w1 Hd1 [Hf Hs].
  - apply poll_write_syscall_adds; [done|]. by apply (stream_attached_writable w).
  - apply adds_ret; [done|]. by apply (stream_attached_writable w).
  - apply adds_ret; [done|]. apply (stream_attached_writable w); [done..|]. by intros f [= <-].
Qed.

(** C12. A stream never waits for somebody else's events: if the waits it
    stores between polls are on its own session (not started, or parked on the
    session's entry in the waiters map), then so are those it stores after
    [poll_read] and after [poll_write], whichever poll stored them and
    whatever it returned; and every other wait that was on its session's entry
    still is. *)
Theorem polls_keep_own_waits fuel s b buf w :
  distinct w -> stream_attached w s ->
  wp (poll_read fuel s b) (fun o w' => (forall k, attached w k -> attached w' k) /\
    forall p s' b', o = Done (p, s', b') -> stream_attached w' s') w /\
  wp (poll_write fuel s buf) (fun o w' => (forall k, attached w k -> attached w' k) /\
    forall p s', o = Done (p, s') -> stream_attached w' s') w.
Proof.
  intros Hd Ha. split.
  - eapply wp_mono; [by apply poll_read_adds|]. intros o w' (_ & Hs & Ho).
    split; [intros k; by apply attached_grows|]. by intros p s' b' ->.
  - eapply wp_mono; [by apply poll_write_adds|]. intros o w' (_ & Hs & Ho).
    split; [intros k; by apply attached_grows|]. by intros p s' ->.
Qed.

(** ** The periodic task *)

Lemma keeps_yield : keeps yield_now.
Proof.
  intros w. unfold yield_now, get_reactor, gets, set_reactor, mbind, M_bind, do_call. simpl.
  pose proof (env_sat (ok := explicit_ok) (suspend (w_reactor w)) (w_tid w) (w_ext w)) as Hr. simpl in Hr.
  destruct (env_step _ _ _) as [[[] r] x]; simpl in *; by subst r.
Qed.

Lemma keeps_drainer_round fuel worker st : keeps (drainer_round fuel worker st).
Proof.
  destruct st as [la pt]. unfold drainer_round. apply keeps_bind; [apply keeps_yield|]. intros _.
  apply keeps_bind; [exact (keeps_call instant_now)|]. intros now. cbv zeta.
  apply keeps_bind; [case_match; auto with keeps|]. intros _.
  apply keeps_bind; [exact (keeps_call weak_upgrade)|]. intros alive. destruct (negb alive); [apply keeps_ret|].
  apply keeps_bind; [apply drain_keeps|]. intros _. apply keeps_bind; [apply keeps_gets|]. intros inner.
  apply keeps_bind; [apply notify_all_keeps|]. intros _.
  apply keeps_bind; [exact (keeps_call instant_now)|]. intros now'.
  apply keeps_bind; [case_match; auto with keeps|]. intros _. apply keeps_ret.
Qed.

Lemma honest_drainer_round fuel worker st : honest (drainer_round fuel worker st).
Proof.
  assert (forall l, honest (notify_all l)) by (induction l as [|[] ? ?]; cbn [notify_all]; honest_go).
  pose proof honest_drain. destruct st. unfold drainer_round, yield_now. honest_go.
Qed.

(** ** The invariant *)

Lemma deregister_inv ts w h w' :
  ~ on_session h ts -> deregister h w = (Done tt, w') -> sched_inv (ts, w) -> sched_inv (ts, w').
Proof.
  intros Hno Hrun [[Hinj Hall] Hatt]. simpl in *.
  assert (waiters (w_reactor w') = delete h (waiters (w_reactor w)) /\ alloc (w_ext w) ⊆ alloc (w_ext w')) as [Hw Ha].
  { revert Hrun. unfold deregister, get_reactor, gets, set_reactor, mbind, M_bind, do_call. simpl.
    destruct (env_step _ _ _) as [r x] eqn:He. intros [= <-]. simpl. split; [done|by eapply alloc_mono]. }
  split; simpl.
  - split; rewrite Hw.
    + intros h1 h2 n. rewrite !lookup_delete_Some. intros [_ H1] [_ H2]. by eapply Hinj.
    + intros h' n. rewrite lookup_delete_Some. intros [_ Hn]. apply Ha. by eapply Hall.
  - intros i k Hi. specialize (Hatt i k Hi). unfold attached in *. rewrite Hw.
    assert (h <> wt_handle k) by (intros ->; apply Hno; by exists i, k).
    destruct (wt_fut k); [done|..]; by rewrite lookup_delete_ne.
Qed.

Lemma sched_step_inv s s' : sched_step s s' -> sched_inv s -> sched_inv s'.
Proof.
  intros [ts w i h d Hi|ts w i k fuel p fut w' Hi Hrun|ts w i|ts w fuel worker st st' w' Hrun|ts w h w' Hno Hrun|ts w A m Hk Hh] Hinv.
  - destruct Hinv as [Hd Hatt]. split; [done|]. intros j k. simpl. rewrite lookup_insert_Some.
    intros [[<- <-]|[_ Hj]]; [done|by eapply Hatt].
  - destruct Hinv as [Hd Hatt]. simpl in *.
    pose proof (poll_wait_adds fuel (wt_handle k) (wt_fut k) w Hd) as Hp.
    unfold adds, wp in Hp. rewrite Hrun in Hp. simpl in Hp. destruct Hp as (Hd' & Hs & Ha).
    { specialize (Hatt i k Hi). by destruct k. }
    split; [done|]. intros j k' Hj. simpl in *. destruct p as [r|].
    + apply lookup_delete_Some in Hj as [_ Hj]. eapply attached_grows; [done|by eapply Hatt].
    + apply lookup_insert_Some in Hj as [[<- <-]|[_ Hj]]; [done|]. eapply attached_grows; [done|by eapply Hatt].
  - destruct Hinv as [Hd Hatt]. split; [done|]. simpl in *. intros j k [_ Hj]%lookup_delete_Some. by eapply Hatt.
  - destruct Hinv as [Hd Hatt]. destruct (keeps_drainer_round fuel worker st w) as (Hr & _).
    pose proof (keeps_distinct _ w (keeps_drainer_round fuel worker st) (honest_drainer_round fuel worker st) Hd) as Hd'.
    rewrite Hrun in Hr, Hd'. simpl in *. split; [done|]. intros i k Hi. eapply attached_same; [done|by eapply Hatt].
  - by eapply deregister_inv.
  - destruct Hinv as [Hd Hatt]. destruct (Hk w) as (Hr & _). split; [by apply keeps_distinct|].
    intros i k Hi. eapply attached_same; [done|by eapply Hatt].
Qed.

Lemma sched_inv_start w : distinct w -> sched_inv (∅, w).
Proof. intros Hd. split; [done|]. simpl. intros i k. by rewrite lookup_empty. Qed.

Lemma sched_reachable_inv s s' : rtc sched_step s s' -> sched_inv s -> sched_inv s'.
Proof. induction 1; eauto using sched_step_inv. Qed.

(** C9. No wait is orphaned: in every interleaving of waits, polls,
    cancellations, ticks, socket drops and other work, starting with no wait
    under way and a reactor whose sessions have notifies of their own, each
    wait's [Notify] is the waiters map's entry for the wait's own session, and
    no two sessions share an entry. *)
Theorem no_wait_orphaned w0 ts w :
  distinct w0 -> rtc sched_step (∅, w0) (ts, w) ->
  distinct w /\ forall i k, ts !! i = Some k -> attached w k.
Proof. intros Hd Hrun. by apply (sched_reachable_inv _ _ Hrun), sched_inv_start. Qed.

(** ** A tick reaches everyone *)

Section Ticks.
Context (permit : ext -> nat -> bool) `{!NotifyPermits permit}.

(** Suspended on notify [n]. *)
Definition parked_on (n : nat) (fut : WaitFut) : Prop :=
  match fut with WfSelect m _ | WfRecheck m _ => m = n | WfStart _ _ => False end.

Lemma poll_select_holds k order n d : n <> k -> holds_permit permit k (poll_select order n d).
Proof.
  intros Hn. induction order as [|[] order IH]; cbn [poll_select]; [by apply ret_holds|..].
  - apply bind_holds; [by apply (call_holds permit k poll_mq_readable)|]. intros []; [by apply ret_holds|done].
  - apply bind_holds; [apply (call_holds permit k (poll_notified n)); [done|congruence]|].
    intros []; [by apply ret_holds|done].
  - apply bind_holds; [by apply (call_holds permit k (poll_sleep_until d))|]. intros []; [by apply ret_holds|done].
Qed.

(** Polling one wait takes no other session's permit. *)
Lemma poll_round_holds k n fuel fut : parked_on n fut -> n <> k -> holds_permit permit k (poll_wait_round fuel fut).
Proof.
  intros Hp Hn. destruct fut as [h d|m d|m d]; simpl in Hp; [done|subst m..]; cbn [poll_wait_round].
  - apply bind_holds; [by apply (call_holds permit k select_order)|]. intros order.
    apply bind_holds; [by apply poll_select_holds|]. intros [[[e|]| |]|]; try by apply ret_holds.
    apply bind_holds; [by apply drain_holds|]. intros _.
    apply bind_holds; [by apply (call_holds permit k clear_ready)|]. intros _. by apply ret_holds.
  - apply bind_holds; [apply (call_holds permit k (poll_notified n)); [done|congruence]|].
    intros []; [by apply ret_holds|].
    apply bind_holds; [by apply (call_holds permit k poll_timeout_zero)|]. intros []; by apply ret_holds.
Qed.

Lemma poll_round_parked n fuel fut w : parked_on n fut ->
  wp (poll_wait_round fuel fut) (fun o _ => match o with Done (inl fut') => parked_on n fut' | _ => True end) w.
Proof.
  destruct fut as [h d|m d|m d]; simpl; [done|..]; intros ->; wp_go.
  - unfold wp. destruct (poll_select _ _ _ _) as [[[[[e|]| |]|]| |] w1]; simpl; try done.
    unfold mbind, M_bind. destruct (drain_events fuel w1) as [[u| |] w2]; try done.
    by destruct (do_call_Done clear_ready w2) as (? & ? & ->).
  - destruct r; wp_go; [done|]. destruct r; by wp_go.
Qed.

Lemma poll_wait_holds k n fuel fut w : parked_on n fut -> n <> k ->
  permit (w_ext w) k = true -> permit (w_ext (poll_wait fuel fut w).2) k = true.
Proof.
  unfold poll_wait. generalize fuel at 1 as fuel0. intros fuel0. revert fuel fut w.
  induction fuel0 as [|fuel0 IH]; intros fuel fut w Hp Hn Hk; cbn [loop]; [done|].
  pose proof (poll_round_parked n fuel fut w Hp) as Hq. pose proof (poll_round_holds k n fuel fut Hp Hn w Hk) as Hk'.
  unfold wp in Hq. unfold mbind, M_bind. destruct (poll_wait_round fuel fut w) as [[[fut'|r]| |] w1]; simpl in *; try done.
  by apply IH.
Qed.

(** A parked wait whose notify holds a permit completes. *)
Lemma parked_completes fuel n fut w :
  (2 <= fuel)%nat -> (forall w, exists w', drain_events_with_inner fuel w = (Done tt, w')) ->
  parked_on n fut -> permit (w_ext w) n = true ->
  exists r fut' w', poll_wait fuel fut w = (Done (Ready r, fut'), w').
Proof.
  intros Hf Hdrain Hp Hn. destruct fut as [h d|m d|m d]; simpl in Hp; [done|subst m..].
  - by apply (poll_wait_permit permit).
  - unfold poll_wait. destruct (round_recheck_permit permit fuel n d w Hn) as (w' & Hr).
    destruct fuel as [|fuel]; [lia|]. cbn [loop]. rewrite (bind_Done _ _ _ _ _ Hr). by eexists _, _, _.
Qed.

(** The runtime polls the woken tasks one after the other. *)
Fixpoint poll_each (fuel : nat) (futs : list WaitFut) : M (list (Poll (Result unit))) :=
  match futs with
  | [] => mret []
  | fut :: futs' => '(p, _) ← poll_wait fuel fut; ps ← poll_each fuel futs'; mret (p :: ps)
  end.

Definition is_ready {A} (p : Poll A) : bool := match p with Ready _ => true | Pending => false end.

Lemma poll_each_completes fuel ns futs w :
  (2 <= fuel)%nat -> (forall w, exists w', drain_events_with_inner fuel w = (Done tt, w')) ->
  Forall2 parked_on ns futs -> NoDup ns -> Forall (fun n => permit (w_ext w) n = true) ns ->
  exists ps w', poll_each fuel futs w = (Done ps, w') /\ forallb is_ready ps = true.
Proof.
  intros Hf Hdrain Hp. revert w. induction Hp as [|n fut ns futs Hn Hp IH]; intros w Hnd Hper; cbn [poll_each];
    [by eexists _, _|].
  apply NoDup_cons in Hnd as [Hnin Hnd]. apply Forall_cons in Hper as [Hpn Hper].
  destruct (parked_completes fuel n fut w Hf Hdrain Hn Hpn) as (r & fut' & w1 & Hr).
  rewrite (bind_Done _ _ _ _ _ Hr). destruct (IH w1 Hnd) as (ps & w2 & Hps & Hall).
  { apply Forall_forall. intros m Hm. rewrite Forall_forall in Hper. specialize (Hper m Hm).
    apply (poll_wait_holds m n fuel fut) in Hper; [by rewrite Hr in Hper|done|by intros ->]. }
  rewrite (bind_Done _ _ _ _ _ Hps). by eexists _, _.
Qed.

(** The notify a suspended wait is on. *)
Definition notify_of (fut : WaitFut) : option nat :=
  match fut with WfSelect n _ | WfRecheck n _ => Some n | WfStart _ _ => None end.

(** Waits on different sessions are parked on different notifies. *)
Lemma parked_distinct w ks :
  distinct w -> Forall (attached w) ks -> Forall (fun k => is_Some (notify_of (wt_fut k))) ks ->
  NoDup (wt_handle <$> ks) ->
  exists ns, Forall2 parked_on ns (wt_fut <$> ks) /\ NoDup ns /\
    Forall (fun n => exists h, h ∈ (wt_handle <$> ks) /\ waiters (w_reactor w) !! h = Some n) ns.
Proof.
  intros [Hinj _] Hatt Hpark. induction ks as [|k ks IH]; intros Hnd; [by exists []; repeat constructor|].
  csimpl in *. apply NoDup_cons in Hnd as [Hnin Hnd]. apply Forall_cons in Hatt as [Ha Hatt], Hpark as [[n Hn] Hpark].
  destruct (IH Hatt Hpark Hnd) as (ns & Hp & Hns & Hin).
  assert (parked_on n (wt_fut k) /\ waiters (w_reactor w) !! wt_handle k = Some n) as [Hpk Hk].
  { unfold attached in Ha. destruct (wt_fut k); simpl in *; try done; injection Hn as ->; done. }
  exists (n :: ns). split_and!; [by constructor|constructor; [|done]|].
  - intros Hnns. rewrite Forall_forall in Hin. destruct (Hin n Hnns) as (h & Hh & Hhn).
    by rewrite (Hinj _ _ _ Hk Hhn) in Hnin.
  - apply Forall_cons. split; [exists (wt_handle k); set_solver|].
    eapply Forall_impl; [exact Hin|]. intros m (h & Hh & Hm). exists h. set_solver.
Qed.

Lemma tick_wakes_all fuel worker st w st' w' ts ks :
  (2 <= fuel)%nat -> (forall w, exists w', drain_events_with_inner fuel w = (Done tt, w')) ->
  sched_inv (ts, w) -> drainer_round fuel worker st w = (Done (inl st'), w') ->
  Forall (fun k => exists i, ts !! i = Some k) ks -> Forall (fun k => is_Some (notify_of (wt_fut k))) ks ->
  NoDup (wt_handle <$> ks) ->
  exists ps w'', poll_each fuel (wt_fut <$> ks) w' = (Done ps, w'') /\ forallb is_ready ps = true.
Proof.
  intros Hf Hdrain Hinv Htick Hks Hpark Hnd.
  destruct (sched_step_inv _ _ (sched_tick ts w fuel worker st st' w' Htick) Hinv) as [Hd' Hatt]. simpl in *.
  assert (Forall (attached w') ks) as Ha.
  { eapply Forall_impl; [exact Hks|]. intros k (i & Hi). by eapply Hatt. }
  destruct (parked_distinct w' ks Hd' Ha Hpark Hnd) as (ns & Hp & Hns & Hin).
  apply (poll_each_completes fuel ns); try done. eapply Forall_impl; [exact Hin|]. intros n (h & _ & Hn).
  pose proof (tick_permits permit fuel worker st w) as Hper. unfold wp in Hper. rewrite Htick in Hper. by eapply Hper.
Qed.

(** C7. A tick reaches every session: at any point of any interleaving, once
    the periodic task has run a round, the suspended waits of any set of
    different sessions all complete when the runtime polls them one after the
    other, in whatever order, even if libvppcom never signals again; no wait
    takes another session's wake-up. *)
Theorem tick_reaches_every_session fuel worker st w0 ts w st' w' ks :
  (2 <= fuel)%nat -> (forall w, exists w', drain_events_with_inner fuel w = (Done tt, w')) ->
  distinct w0 -> rtc sched_step (∅, w0) (ts, w) ->
  drainer_round fuel worker st w = (Done (inl st'), w') ->
  Forall (fun k => exists i, ts !! i = Some k) ks -> Forall (fun k => is_Some (notify_of (wt_fut k))) ks ->
  NoDup (wt_handle <$> ks) ->
  exists ps w'', poll_each fuel (wt_fut <$> ks) w' = (Done ps, w'') /\ forallb is_ready ps = true.
Proof.
  intros Hf Hdrain Hd Hrun. apply tick_wakes_all; [done|done|].
  by apply (sched_reachable_inv _ _ Hrun), sched_inv_start.
Qed.
End Ticks.
End Invariant.
End Scheduler.
