(* ===== verification/Dgram.v ===== *)
(** * UDP sockets (src/dgram.rs)

    [verify_bind_or_err], which turns VPP's asynchronous refusal of a bind
    into an error, and the async [VclDgramSocket]. *)

From S2P Require Import Prelude Net Errors Ffi World Sim Session App Reactor Ownership.

Record VclDgramSocket : Set := mkDgram { dg_handle : Z }.

(** The ephemeral port range of the crate. *)
Definition LOW : Z := 32768.
Definition HIGH : Z := 60999.

Definition bind_events : Z :=
  Z.lor (Z.lor (Z.lor (Z.lor EPOLLIN EPOLLOUT) EPOLLHUP) EPOLLRDHUP) EPOLLET.

(** The error reported when the bound session cannot be queried any more. *)
Definition rejected_error (requested : SocketAddr) (e : VclError) : VclError :=
  Api (Fmt "VPP rejected bind on {}: {:?} (port-in-use is the common cause; libvppcom logs the specific reason)"
         [AAddr requested; AErr e]) (-1).

Section Dgram.
Context `{E : Env}.

(** [while Instant::now() < deadline { vppcom_epoll_wait(vep, .., 8, 30.0) }];
    the array is the same in every round. *)
Definition bind_drain_round (vep deadline : Z) (events : list epoll_event) : M (list epoll_event + unit) :=
  now ← do_call instant_now;
  if now <? deadline then
    '(_, evs) ← do_call (vppcom_epoll_wait vep events (len events) 30);
    mret (inl (fill events evs))
  else mret (inr tt).

Definition bind_drain (fuel : nat) (vep deadline : Z) : M unit :=
  loop fuel (bind_drain_round vep deadline) (replicate 8 zero_event).

(** The [SessionHandle] built around [session] is forgotten only after the
    [?] on [local_addr], so that error path drops it. *)
Definition verify_bind_or_err (fuel : nat) (session : Z) (requested : SocketAddr) : M (Result unit) :=
  v ← do_call vppcom_epoll_create;
  if v <? 0 then mret (Err (Api (Fmt "vppcom_epoll_create: {}" [AInt v]) v))
  else
    let vep := as_u32 v in
    rv ← do_call (vppcom_epoll_ctl vep EPOLL_CTL_ADD session (Some (mkEvent bind_events session)));
    if rv <? 0 then
      _ ← do_call (vppcom_session_close vep);
      mret (Err (Api (Fmt "vppcom_epoll_ctl ADD: {}" [AInt rv]) rv))
    else
      now ← do_call instant_now;
      deadline ← instant_add now (millis 200);
      _ ← bind_drain fuel vep deadline;
      _ ← do_call (vppcom_session_close vep);
      actual ← SessionHandle.local_addr session;
      match actual with
      | Err e =>
          _ ← SessionHandle.drop session;
          mret (Err (rejected_error requested e))
      | Ok actual =>
          if negb (Sock.port actual =? Sock.port requested) then
            mret (Err (Api (Fmt "VPP bound {} but we asked for {} (port mismatch — likely VPP picked a different port because the requested one was unavailable)"
                              [AAddr actual; AAddr requested]) (-1)))
          else mret (Ok tt)
      end.

Definition dgram_bind (fuel : nat) (addr : SocketAddr) : M (Result VclDgramSocket) :=
  _ ← register_worker_thread;
  handle ←? SessionHandle.create_udp true;
  unless_ok (
    _ ←? SessionHandle.bind handle addr;
    _ ←? SessionHandle.listen handle 0;
    _ ←? verify_bind_or_err fuel handle addr;
    _ ←? register handle;
    _ ← do_call (tracing Info (Fmt "VCL dgram bound" [AAddr addr]));
    mret (Ok (mkDgram handle)))
  (SessionHandle.drop handle).

(** The [for _ in 0..8] loop: [n] attempts left. *)
Fixpoint bind_attempts (fuel : nat) (ip_str : string) (n : nat) (last_err : option VclError)
    : M (Result VclDgramSocket) :=
  match n with
  | O => mret (Err (unwrap_or_else last_err (Api (Lit "exhausted ephemeral bind retries") (-1))))
  | S n' =>
      port ← do_call (gen_range LOW HIGH);
      match parse_socket_addr (ip_str +:+ ":" +:+ u16_to_string port) with
      | None => mret (Err (Api (Fmt "ephemeral addr parse: {}" [AText "invalid socket address syntax"]) (-1)))
      | Some addr =>
          r ← dgram_bind fuel addr;
          match r with
          | Ok sock => mret (Ok sock)
          | Err e => bind_attempts fuel ip_str n' (Some e)
          end
      end
  end.

Definition bind_random_ephemeral (fuel : nat) (ip_str : string) : M (Result VclDgramSocket) :=
  bind_attempts fuel ip_str 8 None.

Definition bind_ephemeral_v4 (fuel : nat) : M (Result VclDgramSocket) :=
  bind_random_ephemeral fuel "0.0.0.0".

Definition bind_ephemeral_v6 (fuel : nat) : M (Result VclDgramSocket) :=
  bind_random_ephemeral fuel "::".

Definition recv_from_round (fuel : nat) (h : Z) (buf : list u8)
    : M (list u8 + (Result (Z * SocketAddr) * list u8)) :=
  '(r, buf) ← SessionHandle.recvfrom h buf;
  match r with
  | Ok p => mret (inr (Ok p, buf))
  | Err WouldBlock =>
      waited ← wait_readable fuel h (secs 300);
      match waited with
      | Ok _ | Err Timeout => mret (inl buf)
      | Err e => mret (inr (Err e, buf))
      end
  | Err e => mret (inr (Err e, buf))
  end.

Definition recv_from (fuel : nat) (s : VclDgramSocket) (buf : list u8)
    : M (Result (Z * SocketAddr) * list u8) :=
  loop fuel (recv_from_round fuel (dg_handle s)) buf.

Definition try_recv_from (s : VclDgramSocket) (buf : list u8)
    : M (Result (option (Z * SocketAddr)) * list u8) :=
  '(r, buf) ← SessionHandle.recvfrom (dg_handle s) buf;
  match r with
  | Ok p => mret (Ok (Some p), buf)
  | Err WouldBlock => mret (Ok None, buf)
  | Err e => mret (Err e, buf)
  end.

(** Every branch of the source's loop returns. *)
Definition dgram_wait_readable (fuel : nat) (s : VclDgramSocket) : M (Result unit) :=
  waited ← wait_readable fuel (dg_handle s) (secs 300);
  match waited with
  | Ok _ | Err Timeout => mret (Ok tt)
  | Err e => mret (Err e)
  end.

Definition send_to_round (fuel : nat) (h : Z) (buf : list u8) (dst : SocketAddr) (_ : unit)
    : M (unit + Result Z) :=
  r ← SessionHandle.sendto h buf dst;
  match r with
  | Ok n => mret (inr (Ok n))
  | Err WouldBlock =>
      waited ← wait_writable fuel h (secs 30);
      match waited with
      | Ok _ => mret (inl tt)
      | Err e => mret (inr (Err e))
      end
  | Err e => mret (inr (Err e))
  end.

Definition send_to (fuel : nat) (s : VclDgramSocket) (buf : list u8) (dst : SocketAddr) : M (Result Z) :=
  loop fuel (send_to_round fuel (dg_handle s) buf dst) tt.

Definition dgram_local_addr (s : VclDgramSocket) : M (option SocketAddr) :=
  r ← SessionHandle.local_addr (dg_handle s); mret (ok r).

(** [impl Drop for VclDgramSocket], then the drop of its [handle] field. *)
Definition dgram_drop (s : VclDgramSocket) : M unit :=
  _ ← deregister (dg_handle s); SessionHandle.drop (dg_handle s).
End Dgram.

(** ** Verified binds *)

Section Bind.
Context `{E : Env} (t : Z).

(** [l] leaves every handle as it was. *)
Definition pool_neutral (l : trace) : Prop := forall fr, pool_run fr l = Some fr.

Lemma pool_neutral_app l k : pool_neutral l -> pool_neutral k -> pool_neutral (l ++ k).
Proof. intros Hl Hk fr. rewrite pool_run_app, Hl. apply Hk. Qed.

(** The rounds of the drain: each finds the deadline still ahead, and polls
    the epoll set [v] with the array of eight events and a wait of 30 ms. *)
Inductive polls (v deadline : Z) : trace -> Prop :=
| polls_nil : polls v deadline []
| polls_round l now events r :
    polls v deadline l -> now < deadline -> len events = 8 ->
    polls v deadline (l ++ [Ev t instant_now now; Ev t (vppcom_epoll_wait v events 8 30) r]).

Lemma polls_quiet v deadline l : polls v deadline l -> quiet l.
Proof. induction 1; [constructor|]. apply quiet_app. split; [done|by repeat constructor]. Qed.

Lemma bind_drain_emits fuel v deadline :
  emits t (bind_drain fuel v deadline) (fun o l =>
    match o with
    | Done _ => exists lp now, l = lp ++ [Ev t instant_now now] /\ polls v deadline lp /\ deadline <= now
    | _ => True
    end).
Proof.
  apply (emits_loop (fun events l => polls v deadline l /\ len events = 8)); [split; [constructor|done]| |done].
  intros events l [Hl H8]. unfold bind_drain_round. apply emits_bind. call_with any_answer. intros now _.
  cbn [ret] in now. destruct (now <? deadline) eqn:Hlt; bool_to_prop.
  - apply emits_bind. call_with any_answer. intros [n evs] _. apply emits_ret. rewrite H8.
    split; [by apply polls_round|]. unfold len in *. by rewrite length_fill.
  - apply emits_ret. by exists l, now.
Qed.

(** A bind VPP confirmed, as the whole trace of its verification: an epoll
    set is created and the session added to it; the set is polled, round
    after round, until a clock reading at least 200 ms after the first; the
    set is closed; and the session's local address is read back, with success
    and with the requested port in it. *)
Definition confirmed (session : Z) (requested : SocketAddr) (l : trace) : Prop :=
  exists v rc_add t0 lp t1 rc_close rc ep,
    l = [Ev t vppcom_epoll_create v;
         Ev t (vppcom_epoll_ctl (as_u32 v) EPOLL_CTL_ADD session (Some (mkEvent bind_events session))) rc_add;
         Ev t instant_now t0] ++ lp ++
        [Ev t instant_now t1;
         Ev t (vppcom_session_close (as_u32 v)) rc_close;
         Ev t (vppcom_session_attr_get session VPPCOM_ATTR_GET_LCL_ADDR
                 (endpt_for zero_ip_buf) sizeof_endpt) (rc, ep)] /\
    0 <= v /\ 0 <= rc_add /\ polls (as_u32 v) (t0 + millis 200) lp /\ t0 + millis 200 <= t1 /\ 0 <= rc /\
    Sock.port (SessionHandle.addr_from_endpoint ep (ip_buf_after ep zero_ip_buf)) = Sock.port requested.

(** A trace that ends by closing [session], everything else in balance. *)
Definition closes_caller (session : Z) (l : trace) : Prop :=
  exists l' rc, l = l' ++ [Ev t (vppcom_session_close session) rc] /\ pool_neutral l'.

Definition bind_post (session : Z) (requested : SocketAddr) (o : Outcome (Result unit)) (l : trace) : Prop :=
  match o with
  | Done (Ok _) => pool_neutral l /\ confirmed session requested l
  | Done (Err e) =>
      pool_neutral l \/ (closes_caller session l /\ exists e', e = rejected_error requested e')
  | _ => True
  end.

Lemma pool_run_epoll v rc l fr : (v <? 0) = false -> pool_quiet l ->
  pool_run fr ([Ev t vppcom_epoll_create v] ++ l ++ [Ev t (vppcom_session_close (as_u32 v)) rc]) = Some fr.
Proof.
  intros Hv Hl. eapply (pool_run_seq _ _ (as_u32 v :: fr)).
  - simpl. unfold pool_step. simpl. by rewrite Hv.
  - eapply pool_run_seq; [by apply pool_run_quiet|]. apply pool_run_close.
Qed.

Lemma verify_bind_emits fuel session requested :
  emits t (verify_bind_or_err fuel session requested) (bind_post session requested).
Proof.
  unfold verify_bind_or_err. apply emits_bind. call_with any_answer. intros v _. cbn [ret] in v.
  destruct (v <? 0) eqn:Hv.
  { apply emits_ret. left. intros fr. simpl. unfold pool_step. simpl. by rewrite Hv. }
  apply emits_bind. call_with any_answer. intros rv _. cbn [ret] in rv.
  destruct (rv <? 0) eqn:Hrv.
  { apply emits_bind. call_with any_answer. intros rc _. apply emits_ret. left. intros fr.
    by apply (pool_run_epoll v rc [_]). }
  apply emits_bind. call_with any_answer. intros t0 _. cbn [ret] in t0.
  apply emits_bind. unfold instant_add. destruct (t0 + millis 200 <=? INSTANT_MAX); [|by apply emits_panic].
  apply emits_ret. apply emits_bind. eapply emits_mono; [apply bind_drain_emits|].
  intros o ld Ho. destruct o as [[]| |]; [|done..]. destruct Ho as (lp & t1 & -> & Hlp & Hd).
  apply emits_bind. call_with any_answer. intros rc _. cbn [ret] in rc.
  set (add := Ev t (vppcom_epoll_ctl (as_u32 v) EPOLL_CTL_ADD session (Some (mkEvent bind_events session))) rv).
  assert (pool_neutral ([Ev t vppcom_epoll_create v] ++
    ([add; Ev t instant_now t0] ++ lp ++ [Ev t instant_now t1]) ++
    [Ev t (vppcom_session_close (as_u32 v)) rc])) as Hn.
  { intros fr. apply pool_run_epoll; [done|]. apply polls_quiet, quiet_pool in Hlp.
    apply (pool_quiet_app [_; _]); [done|by apply pool_quiet_app]. }
  apply emits_bind. eapply emits_mono; [by apply (local_addr_emits any_answer)|].
  intros o ? (rc2 & ep & _ & -> & ->).
  match type of Hn with pool_neutral ?p => set (pre := p) in * end.
  set (q := Ev t (vppcom_session_attr_get _ _ _ _) _).
  assert (pool_neutral [q]) as Hnq by (intros fr; done).
  eapply (emits_mono _ _ (fun o l => bind_post session requested o (pre ++ [q] ++ l))).
  2:{ intros o l Hb. unfold pre in Hb. cbn [app] in Hb |- *.
      rewrite <- ?app_assoc in Hb |- *. cbn [app] in Hb. rewrite <- ?app_assoc in Hb. exact Hb. }
  destruct (rc2 <? 0) eqn:Hrc2; bool_to_prop.
  - apply emits_bind. eapply emits_mono; [by apply (drop_emits any_answer)|]. intros o ? (rc3 & -> & ->).
    apply emits_ret. rewrite app_nil_r. right. split; [|by eexists]. exists (pre ++ [q]), rc3.
    split; [by rewrite <- app_assoc|by apply pool_neutral_app].
  - destruct (Sock.port _ =? Sock.port requested) eqn:Hp; cbn [negb]; apply emits_ret;
      rewrite app_nil_r; [|left; by apply pool_neutral_app]. bool_to_prop.
    split; [by apply pool_neutral_app|]. exists v, rv, t0, lp, t1, rc, rc2, ep.
    split_and!; [|done..]. unfold pre. cbn [app]. rewrite <- ?app_assoc. cbn [app]. by rewrite <- ?app_assoc.
Qed.

(** The calls of a bind that succeeded, after the session was created. *)
Definition bound_calls (h : Z) (addr : SocketAddr) (backlog : Z) (l : trace) : Prop :=
  exists rc_bind rc_listen lv v rc_add m,
    l = [Ev t (vppcom_session_bind h (fst (SessionHandle.endpoint_into_buf addr zero_ip_buf))) rc_bind;
         Ev t (vppcom_session_listen h backlog) rc_listen] ++ lv ++
        [Ev t (vppcom_epoll_ctl v EPOLL_CTL_ADD h
                 (Some (mkEvent (Z.lor (Z.lor EPOLLIN EPOLLOUT) EPOLLET) h))) rc_add;
         Ev t (tracing Info m) tt] /\
    0 <= rc_bind /\ 0 <= rc_listen /\ 0 <= rc_add /\ confirmed h addr lv.

(** The body the UDP socket and the TCP listener share. *)
Lemma bind_body_emits {A} (a : A) fuel h addr backlog m :
  emits t (
    _ ←? SessionHandle.bind h addr;
    _ ←? SessionHandle.listen h backlog;
    _ ←? verify_bind_or_err fuel h addr;
    _ ←? register h;
    _ ← do_call (tracing Info m);
    mret (Ok a)) (fun o l =>
    match o with
    | Done (Ok a') => a' = a /\ pool_neutral l /\ bound_calls h addr backlog l
    | Done (Err e) => pool_neutral l \/ (closes_caller h l /\ exists e', e = rejected_error addr e')
    | _ => True
    end).
Proof.
  apply emits_try_bind. eapply emits_mono; [by apply (bind_emits any_answer)|].
  intros o ? (rc1 & _ & -> & ->). destruct (rc1 <? 0) eqn:H1; bool_to_prop; [left; by intros fr|].
  apply emits_try_bind. eapply emits_mono; [by apply (listen_emits any_answer)|].
  intros o ? (rc2 & _ & -> & ->). destruct (rc2 <? 0) eqn:H2; bool_to_prop; [left; by intros fr|].
  set (bev := Ev t (vppcom_session_bind _ _) rc1). set (lev := Ev t (vppcom_session_listen h backlog) rc2).
  assert (pool_neutral [bev; lev]) as Hpre by done.
  apply emits_try_bind. eapply emits_mono; [apply verify_bind_emits|].
  intros [[[]|e]| |] lv Hv; simpl in Hv; [|..|done|done].
  2:{ destruct Hv as [Hv|[(l' & rc & -> & Hl') He]]; [left; by apply (pool_neutral_app [bev; lev])|].
      right. split; [|done]. exists ([bev; lev] ++ l'), rc.
      split; [done|by apply (pool_neutral_app [bev; lev])]. }
  destruct Hv as [Hv Hconf].
  apply emits_try_bind. eapply emits_mono; [apply register_emits_add|].
  intros o ? (v & rc3 & -> & ->). destruct (rc3 <? 0) eqn:H3; bool_to_prop.
  { left. apply (pool_neutral_app [bev; lev]); [done|]. apply pool_neutral_app; [done|by intros fr]. }
  apply emits_bind. call_with any_answer. intros [] _. apply emits_ret. split; [done|]. split.
  - apply (pool_neutral_app [bev; lev]); [done|]. apply pool_neutral_app; [done|by intros fr].
  - exists rc1, rc2, lv, v, rc3, m. by split_and!.
Qed.

(** Running that body on a fresh session. *)
Lemma open_bound_emits {A} (mk : Z -> A) (create : M (Result Z)) fuel addr backlog m :
  (forall fr, accounts (fun h => h :: fr) fr fr create) ->
  emits t (
    handle ←? create;
    unless_ok (
      _ ←? SessionHandle.bind handle addr;
      _ ←? SessionHandle.listen handle backlog;
      _ ←? verify_bind_or_err fuel handle addr;
      _ ←? register handle;
      _ ← do_call (tracing Info m);
      mret (Ok (mk handle)))
    (SessionHandle.drop handle)) (fun o l =>
    match o with
    | Done (Ok a) => exists h lc lb, a = mk h /\ l = lc ++ lb /\
        pool_run [] lc = Some [h] /\ pool_neutral lb /\ bound_calls h addr backlog lb
    | Done (Err e) =>
        pool_run [] l = Some [] \/ (pool_run [] l = None /\ exists e', e = rejected_error addr e')
    | _ => True
    end).
Proof.
  intros Hcreate. apply emits_try_bind. eapply emits_mono; [apply (Hcreate [])|].
  intros [[h|e]| |] lc Hlc; simpl in Hlc; [|by left|done..].
  apply emits_unless_ok. eapply emits_mono; [apply bind_body_emits|].
  intros [[a|e]| |] lb Hb; [|..|done].
  - destruct Hb as (-> & Hn & Hb). by exists h, lc, lb.
  - eapply emits_mono; [by apply (drop_emits any_answer)|]. intros o ? (rc & -> & ->).
    rewrite pool_run_app, Hlc. simpl. destruct Hb as [Hn|[(l' & rc' & -> & Hn) He]].
    + left. rewrite pool_run_app, Hn. apply pool_run_close.
    + right. split; [|done]. rewrite <- app_assoc, pool_run_app, Hn. simpl. unfold pool_step. simpl.
      by rewrite Z.eqb_refl.
  - eapply emits_mono; [apply (drop_closes t h [])|]. done.
Qed.

Lemma dgram_bind_emits fuel addr :
  emits t (dgram_bind fuel addr) (fun o l =>
    match o with
    | Done (Ok s) => pool_run [] l = Some [dg_handle s] /\
        exists lc lb, l = lc ++ lb /\ pool_run [] lc = Some [dg_handle s] /\ bound_calls (dg_handle s) addr 0 lb
    | Done (Err e) =>
        pool_run [] l = Some [] \/ (pool_run [] l = None /\ exists e', e = rejected_error addr e')
    | _ => True
    end).
Proof.
  unfold dgram_bind. apply emits_bind. eapply emits_mono; [apply quietly_emits, quietly_register_worker|].
  intros [[]| |] l0 Hl0; try done.
  eapply emits_mono; [apply (open_bound_emits mkDgram); intros; apply accounts_create_udp|].
  intros [[s|e]| |] l Ho; try done.
  - destruct Ho as (h & lc & lb & -> & -> & Hc & Hn & Hb). cbn [dg_handle].
    assert (pool_run [] (l0 ++ lc) = Some [h]) as Hc' by (by rewrite pool_run_app, pool_run_quiet).
    rewrite app_assoc. split; [rewrite pool_run_app, Hc'; apply Hn|]. by exists (l0 ++ lc), lb.
  - by rewrite pool_run_app, pool_run_quiet.
Qed.

End Bind.

(** A script in which VPP rejects the bind: the session gets handle 3, the
    epoll set handle 4, and the session's local address cannot be read. *)
Definition reject_script : script := fun n c =>
  match c with
  | vppcom_session_create _ _ => 3
  | vppcom_epoll_create => 4
  | vppcom_session_attr_get _ _ ep _ => (-77, ep)
  | instant_now => millis (Z.of_nat n * 100)
  | c => default_ret c
  end.

(** When VPP rejects a bind, [verify_bind_or_err] closes the session
    its caller still owns, and the caller closes it again: the second close
    hits whatever session libvppcom gave that handle to in between. *)
Lemma rejected_bind_closes_twice :
  let s := reject_script in
  let addr := Sock.new IPV4_UNSPECIFIED 53 in
  let '(o, w) := @dgram_bind (scripted s) 10 addr (fresh_world s 1) in
  (exists e, o = Done (Err e)) /\ opened (w_log w) = [3; 4] /\ closed (w_log w) = [4; 3; 3] /\
  pool_run [] (w_log w) = None.
Proof. vm_compute. split_and!; eauto. Qed.

(** ** Ephemeral ports *)

(** What [gen_range(low..=high)] promises of a non-empty range. *)
Definition rand_ok (c : call) : ret c -> Prop :=
  match c with
  | gen_range low high => fun r => low <= high -> low <= r <= high
  | _ => fun _ => True
  end.

(** The binds of a trace, on any session. *)
Definition bind_by (e : event) : list vppcom_endpt_t :=
  match e with Ev _ (vppcom_session_bind _ ep) _ => [ep] | _ => [] end.
Definition binds (l : trace) : list vppcom_endpt_t := l ≫= bind_by.

Definition draw_by (e : event) : list Z :=
  match e with Ev _ (gen_range _ _) r => [r] | _ => [] end.
Definition draws (l : trace) : list Z := l ≫= draw_by.

Lemma binds_app l k : binds (l ++ k) = binds l ++ binds k.
Proof. apply bind_app. Qed.
Lemma draws_app l k : draws (l ++ k) = draws l ++ draws k.
Proof. apply bind_app. Qed.

Section Ephemeral.
Context `{E : Env} `{!EnvSat rand_ok} (t : Z).

(** The endpoint of the IPv4 wildcard at port [p]. *)
Definition wildcard_v4 (p : Z) : vppcom_endpt_t :=
  fst (SessionHandle.endpoint_into_buf (Sock.new IPV4_UNSPECIFIED p) zero_ip_buf).

(** A call that neither draws a port nor binds. *)
Definition no_bind (e : event) : Prop := bind_by e = [] /\ draw_by e = [].

Lemma no_bind_none l : Forall no_bind l -> binds l = [] /\ draws l = [].
Proof.
  induction 1 as [|e l [Hb Hd] _ [IHb IHd]]; [done|].
  unfold binds, draws in *. cbn [mbind list_bind]. by rewrite Hb, Hd, IHb, IHd.
Qed.

Lemma verify_no_bind fuel h addr : only no_bind (verify_bind_or_err fuel h addr).
Proof.
  unfold verify_bind_or_err, bind_drain, bind_drain_round, instant_add, SessionHandle.local_addr,
    SessionHandle.drop. only_go.
Qed.

Lemma dgram_bind_binds fuel addr :
  emits t (dgram_bind fuel addr) (fun o l => draws l = [] /\
    let ep := fst (SessionHandle.endpoint_into_buf addr zero_ip_buf) in
    match o with
    | Done (Ok _) => binds l = [ep]
    | _ => binds l = [] \/ binds l = [ep]
    end).
Proof.
  set (ep := fst _). unfold dgram_bind. apply emits_bind.
  assert (only no_bind register_worker_thread) as Hreg by (unfold register_worker_thread; only_go).
  eapply emits_mono; [apply Hreg|]. intros [[]| |] l0 [Hb0 Hd0]%no_bind_none; [|by eauto..].
  apply emits_try_bind.
  assert (only no_bind (SessionHandle.create_udp true)) as Hc by (unfold SessionHandle.create_udp; only_go).
  eapply emits_mono; [apply Hc|]. intros o lc [Hbc Hdc]%no_bind_none.
  assert (binds (l0 ++ lc) = []) as Hbp by (by rewrite binds_app, Hb0, Hbc).
  assert (draws (l0 ++ lc) = []) as Hdp by (by rewrite draws_app, Hd0, Hdc).
  destruct o as [[h|e]| |]; [|by eauto..].
  assert (only no_bind (SessionHandle.drop h)) as Hdrop by (unfold SessionHandle.drop; only_go).
  assert (only no_bind (_ ←? SessionHandle.listen h 0; _ ←? verify_bind_or_err fuel h addr;
    _ ←? register h; _ ← do_call (tracing Info (Fmt "VCL dgram bound" [AAddr addr]));
    mret (Ok (mkDgram h)))) as Hrest.
  { pose proof (verify_no_bind fuel h addr). unfold SessionHandle.listen, register. only_go. }
  apply emits_unless_ok, emits_try_bind. eapply emits_mono; [by apply (bind_emits any_answer)|].
  intros o ? (rc & _ & -> & ->). fold ep. set (bev := Ev t (vppcom_session_bind h ep) rc).
  assert (forall k, Forall no_bind k -> binds (l0 ++ lc ++ [bev] ++ k) = [ep] /\ draws (l0 ++ lc ++ [bev] ++ k) = [])
    as Hall.
  { intros k [Hbk Hdk]%no_bind_none.
    by rewrite !app_assoc, binds_app, draws_app, binds_app, draws_app, Hbp, Hdp, Hbk, Hdk. }
  destruct (rc <? 0).
  { eapply emits_mono; [apply Hdrop|]. intros o k [Hk Hk']%Hall. auto. }
  eapply emits_mono; [apply Hrest|]. intros o k Hk. destruct (Hall k Hk) as [Hbk Hdk].
  destruct o as [[s|e]| |]; [by auto| | |by auto];
    (eapply emits_mono; [apply Hdrop|]); intros o k' Hk';
    rewrite <- !app_assoc; destruct (Hall (k ++ k')) as [? ?]; auto; by apply Forall_app.
Qed.

(** The attempts of [bind_ephemeral_v4] from the state with [n] left. *)
Definition ephemeral_post (n : nat) (o : Outcome (Result VclDgramSocket)) (l : trace) : Prop :=
  (length (draws l) <= n)%nat /\ Forall (fun p => LOW <= p <= HIGH) (draws l) /\
  binds l `sublist_of` (wildcard_v4 <$> draws l) /\
  match o with
  | Done (Ok _) => exists p, last (draws l) = Some p /\ last (binds l) = Some (wildcard_v4 p)
  | _ => True
  end.

Lemma bind_attempts_emits fuel n last_err :
  emits t (bind_attempts fuel "0.0.0.0" n last_err) (ephemeral_post n).
Proof.
  revert last_err. induction n as [|n IH]; intros last_err; cbn [bind_attempts].
  { apply emits_ret. split_and!; [done|constructor|constructor|done]. }
  apply emits_bind. call_with rand_ok. intros p Hp. cbn [ret] in p.
  assert (LOW <= p <= HIGH) as Hrange by (apply Hp; done). clear Hp. rename Hrange into Hp.
  change ("0.0.0.0" +:+ ":" +:+ u16_to_string p) with ("0.0.0.0:" +:+ u16_to_string p).
  rewrite parse_v4_wildcard by (unfold is_u16, LOW, HIGH in *; lia).
  apply emits_bind. eapply emits_mono; [apply dgram_bind_binds|].
  intros o l [Hd Hb]. cbn zeta in Hb. fold (wildcard_v4 p) in Hb.
  assert (forall k, draws ([Ev t (gen_range LOW HIGH) p] ++ l ++ k) = p :: draws k) as Hdk
    by (intros k; by rewrite !draws_app, Hd).
  assert (forall k, binds ([Ev t (gen_range LOW HIGH) p] ++ l ++ k) = binds l ++ binds k) as Hbk
    by (intros k; by rewrite !binds_app).
  assert (binds l `sublist_of` [wildcard_v4 p]) as Hsub.
  { destruct o as [[]| |]; [rewrite Hb; done|destruct Hb as [-> | ->]; [apply sublist_nil_l|done]..]. }
  assert (forall o' k, ephemeral_post n o' k ->
    ephemeral_post (S n) o' ([Ev t (gen_range LOW HIGH) p] ++ l ++ k)) as Hstep.
  { intros o' k (Hlen & Hall & Hs & Ho). unfold ephemeral_post. rewrite Hdk, Hbk.
    split_and!; [simpl; lia|by constructor| |].
    - change (wildcard_v4 <$> p :: draws k) with ([wildcard_v4 p] ++ (wildcard_v4 <$> draws k)).
      by apply sublist_app.
    - destruct o' as [[]| |]; try done. destruct Ho as (p' & Hp' & Hb').
      exists p'. by rewrite last_cons, Hp', last_app, Hb'. }
  assert (forall o', (forall s, o' <> Done (Ok s)) -> ephemeral_post n o' []) as Hnil.
  { intros o' Ho'. split_and!; [simpl; lia|constructor|constructor|].
    destruct o' as [[s|]| |]; try done. by destruct (Ho' s). }
  destruct o as [[s|e]|c|]; [| |specialize (Hstep (Unwound c) [])|specialize (Hstep OutOfFuel [])].
  - apply emits_ret. unfold ephemeral_post. rewrite Hdk, Hbk, Hb, app_nil_r.
    split_and!; [simpl; lia|by apply Forall_singleton|done|by exists p].
  - eapply emits_mono; [apply IH|]. apply Hstep.
  - rewrite app_nil_r in Hstep. by apply Hstep, Hnil.
  - rewrite app_nil_r in Hstep. by apply Hstep, Hnil.
Qed.

(** C32. An ephemeral IPv4 bind draws at most eight ports, all within
    32768..=60999, binds nothing but the IPv4 wildcard at ports it drew, at
    most once per draw and in that order, and on success the bound port is the
    last one drawn. *)
Theorem ephemeral_v4_ports fuel : emits t (bind_ephemeral_v4 fuel) (ephemeral_post 8).
Proof. apply bind_attempts_emits. Qed.

(** An ephemeral IPv6 bind always fails: the address text lacks the
    brackets the parser requires, so the first attempt returns a parse error
    before any session is created, whatever port was drawn. *)
Theorem ephemeral_v6_never_binds fuel :
  emits t (bind_ephemeral_v6 fuel) (fun o l => exists p,
    l = [Ev t (gen_range LOW HIGH) p] /\
    o = Done (Err (Api (Fmt "ephemeral addr parse: {}" [AText "invalid socket address syntax"]) (-1)))).
Proof.
  unfold bind_ephemeral_v6, bind_random_ephemeral. cbn [bind_attempts].
  apply emits_bind. call_with any_answer. intros p _.
  change ("::" +:+ ":" +:+ u16_to_string p) with (":::" +:+ u16_to_string p).
  rewrite parse_v6_unbracketed. apply emits_ret. by exists p.
Qed.
End Ephemeral.

(** ** Datagrams *)

(** The datagrams a trace took from session [h], and those it handed over. *)
Definition datagram_by (h : Z) (e : event) : list (Z * list u8 * vppcom_endpt_t) :=
  match e with
  | Ev _ (vppcom_session_recvfrom h' _ _ _ _) (rc, data, ep) =>
      if (h' =? h) && (0 <=? rc) then [(rc, data, ep)] else []
  | _ => []
  end.
Definition datagrams (h : Z) (l : trace) : list (Z * list u8 * vppcom_endpt_t) := l ≫= datagram_by h.

Definition sent_by (h : Z) (e : event) : list (list u8 * vppcom_endpt_t) :=
  match e with
  | Ev _ (vppcom_session_sendto h' buf n _ ep) rc =>
      if (h' =? h) && (0 <=? rc) then [(take (Z.to_nat n) buf, ep)] else []
  | _ => []
  end.
Definition sent (h : Z) (l : trace) : list (list u8 * vppcom_endpt_t) := l ≫= sent_by h.

Lemma datagrams_app h l k : datagrams h (l ++ k) = datagrams h l ++ datagrams h k.
Proof. apply bind_app. Qed.
Lemma sent_app h l k : sent h (l ++ k) = sent h l ++ sent h k.
Proof. apply bind_app. Qed.

Lemma quiet_no_datagrams h l : quiet l -> datagrams h l = [] /\ sent h l = [].
Proof.
  induction 1 as [|[t c r] l He _ [IHd IHs]]; [done|].
  unfold datagrams, sent in *. csimpl. rewrite IHd, IHs, !app_nil_r. by destruct c.
Qed.

(** An event that takes, or hands over, no datagram on any session. *)
Definition takes_none (e : event) : Prop := forall h, datagram_by h e = [].
Definition sends_none (e : event) : Prop := forall h, sent_by h e = [].

Lemma takes_none_datagrams h l : Forall takes_none l -> datagrams h l = [].
Proof. induction 1 as [|e l He _ IH]; [done|]. unfold datagrams in *. cbn [mbind list_bind]. by rewrite He, IH. Qed.

Lemma sends_none_sent h l : Forall sends_none l -> sent h l = [].
Proof. induction 1 as [|e l He _ IH]; [done|]. unfold sent in *. cbn [mbind list_bind]. by rewrite He, IH. Qed.

(** What [vppcom_session_recvfrom] promises: a count no larger than the
    buffer, and exactly that many bytes written. *)
Definition recv_ok (c : call) : ret c -> Prop :=
  match c with
  | vppcom_session_recvfrom _ _ n _ _ => fun r => r.1.1 <= n /\ len r.1.2 = Z.max 0 r.1.1
  | _ => fun _ => True
  end.

(** The bytes of [buf] the call of [SessionHandle::sendto] covers: its length
    argument is [buf.len() as u32]. *)
Definition wire (buf : list u8) : list u8 := take (Z.to_nat (as_u32 (len buf))) buf.

Lemma wire_whole buf : len buf < 4294967296 -> wire buf = buf.
Proof.
  intros Hlt. pose proof (len_nonneg buf). unfold wire, as_u32. rewrite Z.mod_small by (simpl; lia).
  apply take_ge. unfold len. lia.
Qed.

Lemma as_u32_le x : 0 <= x -> as_u32 x <= x.
Proof. unfold as_u32. intros Hx. by apply Z.mod_le. Qed.

Section Datagrams.
Context `{E : Env} `{!EnvSat recv_ok} (t : Z).

(** One datagram delivered into [buf], leaving [buf']. *)
Definition one_datagram (h : Z) (buf buf' : list u8) (n : Z) (from : SocketAddr) (l : trace) : Prop :=
  exists ep, datagrams h l = [(n, take (Z.to_nat n) buf', ep)] /\ 0 <= n <= len buf /\
    length buf' = length buf /\ drop (Z.to_nat n) buf' = drop (Z.to_nat n) buf /\
    from = SessionHandle.addr_from_endpoint ep (ip_buf_after ep zero_ip_buf).

Lemma recvfrom_datagram h buf :
  emits t (SessionHandle.recvfrom h buf) (fun o l =>
    match o with
    | Done (Ok (n, from), buf') => one_datagram h buf buf' n from l
    | Done (Err _, buf') => datagrams h l = [] /\ buf' = buf
    | _ => False
    end).
Proof.
  eapply emits_mono; [by apply (recvfrom_emits recv_ok)|].
  intros o l (rc & data & ep & [Hle Hlen] & -> & ->). simpl in Hle, Hlen.
  pose proof (as_u32_le (len buf) (len_nonneg buf)) as Hu.
  unfold one_datagram, datagrams. cbn [mbind list_bind datagram_by]. rewrite Z.eqb_refl, app_nil_r. simpl.
  destruct (rc <? 0) eqn:Hrc; bool_to_prop.
  - assert (data = []) as -> by (apply nil_length_inv; unfold len in Hlen; lia).
    rewrite fill_nil, (proj2 (Z.leb_gt _ _)) by lia. done.
  - assert (length data = Z.to_nat rc) as Hd by (unfold len in Hlen; lia).
    assert (length data <= length buf)%nat by (unfold len in *; lia).
    exists ep. rewrite (proj2 (Z.leb_le _ _)) by lia. rewrite take_fill, take_ge, length_fill by lia.
    split_and!; try done; [lia|]. rewrite <- Hd. apply drop_fill. lia.
Qed.

Definition recv_post (h : Z) (buf : list u8) (o : Outcome (Result (Z * SocketAddr) * list u8)) (l : trace) : Prop :=
  match o with
  | Done (Ok (n, from), buf') => one_datagram h buf buf' n from l
  | Done (Err e, buf') => datagrams h l = [] /\ buf' = buf /\ e <> WouldBlock /\ e <> Timeout
  | _ => datagrams h l = []
  end.

Lemma recv_post_prefix h buf o l k : datagrams h l = [] -> recv_post h buf o k -> recv_post h buf o (l ++ k).
Proof.
  intros Hl. unfold recv_post, one_datagram. rewrite datagrams_app, Hl. done.
Qed.

Lemma from_rc_not_timeout rc : from_rc rc <> Timeout.
Proof. unfold from_rc. by case_rc rc. Qed.

Lemma recvfrom_never_timeout h buf :
  emits t (SessionHandle.recvfrom h buf) (fun o _ => forall buf', o <> Done (Err Timeout, buf')).
Proof.
  eapply emits_mono; [by apply (recvfrom_emits any_answer)|].
  intros o l (rc & data & ep & _ & -> & ->) buf'. pose proof (from_rc_not_timeout rc).
  destruct (rc <? 0); congruence.
Qed.

Lemma recv_from_emits fuel s buf : emits t (recv_from fuel s buf) (recv_post (dg_handle s) buf).
Proof.
  set (h := dg_handle s).
  apply (emits_loop (fun buf' l => datagrams h l = [] /\ buf' = buf)); [done| |by intros ? ? []].
  intros buf' l [Hl ->]. unfold recv_from_round. apply emits_bind.
  eapply emits_mono; [apply emits_and; [apply recvfrom_datagram|apply recvfrom_never_timeout]|].
  intros [[[[n from]|e] buf']| |] k [Hk Hto]; try done.
  { apply emits_ret. rewrite app_nil_r. by apply recv_post_prefix. }
  destruct Hk as [Hk ->]. fold h in Hk. assert (datagrams h (l ++ k) = []) as Hlk by (by rewrite datagrams_app, Hl, Hk).
  destruct e; try (apply emits_ret; rewrite app_nil_r; by split_and!);
    [|by destruct (Hto buf)].
  apply emits_bind. eapply emits_mono; [apply wait_contract|]. intros o k' [Hq Ho].
  destruct (quiet_no_datagrams h k' Hq) as [Hd _].
  assert (datagrams h (l ++ k ++ k') = []) as Hall by (by rewrite app_assoc, datagrams_app, Hlk, Hd).
  destruct o as [[[]|e]| |]; [|destruct e|done..]; apply emits_ret; rewrite app_nil_r; done.
Qed.

(** [recv_from] takes exactly one datagram off the session and returns
    its length, its sender and its bytes at the start of the buffer, the rest
    of the buffer untouched; an error takes none and leaves the buffer alone,
    and neither would-block nor the internal five-minute timeout ever reaches
    the caller. *)
Theorem recv_from_one fuel s buf : emits t (recv_from fuel s buf) (recv_post (dg_handle s) buf).
Proof. apply recv_from_emits. Qed.

Lemma send_call_sent h buf ep rc :
  sent h [Ev t (vppcom_session_sendto h buf (as_u32 (len buf)) 0 ep) rc] =
  if 0 <=? rc then [(wire buf, ep)] else [].
Proof. unfold sent. cbn [mbind list_bind sent_by]. rewrite Z.eqb_refl. simpl. by rewrite app_nil_r. Qed.

Definition send_post (h : Z) (buf : list u8) (dst : SocketAddr) (o : Outcome (Result Z)) (l : trace) : Prop :=
  match o with
  | Done (Ok _) => sent h l = [(wire buf, fst (SessionHandle.endpoint_into_buf dst zero_ip_buf))]
  | Done (Err e) => sent h l = [] /\ e <> WouldBlock
  | _ => sent h l = []
  end.

Lemma send_to_emits fuel s buf dst : emits t (send_to fuel s buf dst) (send_post (dg_handle s) buf dst).
Proof.
  set (h := dg_handle s). apply (emits_loop (fun _ l => sent h l = [])); [done| |done].
  intros u l Hl. unfold send_to_round. apply emits_bind.
  eapply emits_mono; [by apply (sendto_emits any_answer)|]. intros o ? (rc & _ & -> & ->).
  set (ev := Ev t (vppcom_session_sendto _ _ _ _ _) rc).
  assert (sent h (l ++ [ev]) = if 0 <=? rc then [(wire buf, fst (SessionHandle.endpoint_into_buf dst zero_ip_buf))] else [])
    as Hlk by (rewrite sent_app, Hl; apply send_call_sent).
  destruct (rc <? 0) eqn:Hrc; bool_to_prop.
  2:{ apply emits_ret. rewrite app_nil_r. by rewrite (proj2 (Z.leb_le _ _)) in Hlk by lia. }
  rewrite (proj2 (Z.leb_gt _ _)) in Hlk by lia.
  destruct (from_rc rc) eqn:Hfrom; try (apply emits_ret; rewrite app_nil_r; done).
  apply emits_bind. eapply emits_mono; [apply wait_contract|]. intros o k' [Hq Ho].
  destruct (quiet_no_datagrams h k' Hq) as [_ Hs].
  assert (sent h (l ++ [ev] ++ k') = []) as Hall by (by rewrite app_assoc, sent_app, Hlk, Hs).
  destruct o as [[[]|e]| |]; [|destruct e|done..]; apply emits_ret; rewrite app_nil_r; done.
Qed.

(** Receiving sends nothing, sending receives nothing. *)
Lemma recv_from_sends_nothing fuel s h buf : emits t (recv_from fuel s buf) (fun _ l => sent h l = []).
Proof.
  assert (only sends_none (recv_from fuel s buf)) as Honly.
  { assert (forall h d, only sends_none (wait_readable fuel h d)).
    { intros h' d. apply only_wait; [apply _|]. by intros [? [] ?]. }
    unfold recv_from, recv_from_round, SessionHandle.recvfrom. only_go. }
  eapply emits_mono; [apply Honly|]. intros o l. apply sends_none_sent.
Qed.

Lemma send_to_receives_nothing fuel s h buf dst :
  emits t (send_to fuel s buf dst) (fun _ l => datagrams h l = []).
Proof.
  assert (only takes_none (send_to fuel s buf dst)) as Honly.
  { assert (forall h d, only takes_none (wait_writable fuel h d)).
    { intros h' d. apply only_wait; [apply _|]. by intros [? [] ?]. }
    unfold send_to, send_to_round, SessionHandle.sendto. only_go. }
  eapply emits_mono; [apply Honly|]. intros o l. apply takes_none_datagrams.
Qed.

(** [send_to] hands the whole datagram to libvppcom exactly once, for
    the requested peer, when it succeeds, and not at all when it fails or is
    dropped; would-block never reaches the caller. *)
Theorem send_to_once fuel s buf dst : len buf < 4294967296 ->
  emits t (send_to fuel s buf dst) (fun o l =>
    match o with
    | Done (Ok _) => sent (dg_handle s) l = [(buf, fst (SessionHandle.endpoint_into_buf dst zero_ip_buf))]
    | Done (Err e) => sent (dg_handle s) l = [] /\ e <> WouldBlock
    | _ => sent (dg_handle s) l = []
    end).
Proof.
  intros Hb. eapply emits_mono; [apply send_to_emits|]. unfold send_post. by rewrite (wire_whole buf Hb).
Qed.
End Datagrams.
