(* ===== verification/Mailbox.v ===== *)
(** * UDP sockets as mailboxes

    The abstract specification of [VclDgramSocket] (src/dgram.rs): a mailbox
    that holds the letters the network has still to deliver, each with the
    address of its sender, and the letters posted, each with the address of
    its recipient.  A client that drives a socket through [recv_from],
    [try_recv_from], [wait_readable] and [send_to] sees what a client of the
    mailbox sees. *)

From S2P Require Import Prelude Net Errors Ffi World Sim Session App Reactor Replay Ownership Dgram.

(** ** The mailbox *)

(** A datagram and the address of the other end. *)
Definition letter : Type := list u8 * SocketAddr.

Record mailbox : Type := mkMailbox { m_in : list letter; m_out : list letter }.

(** What a client of a socket can ask, and what it is told; [DCancelled]
    stands for a future the client dropped before it was ready. *)
Inductive dop : Type :=
| DRecv (buf : list u8)
| DTryRecv (buf : list u8)
| DWait
| DSend (buf : list u8) (dst : SocketAddr).

Inductive danswer : Type :=
| DReceived (r : Result (Z * SocketAddr)) (buf : list u8)
| DTried (r : Result (option (Z * SocketAddr))) (buf : list u8)
| DWaited (r : Result unit)
| DSent (r : Result Z)
| DCancelled.

(** The operations that are futures. *)
Definition awaits (o : dop) : bool := match o with DTryRecv _ => false | _ => true end.

(** The specification: how a mailbox serves an operation.  [None] is an
    operation that has not come back yet (or panicked).  No operation moves
    anything unless it answers: dropping a future loses no letter. *)
Inductive delivers : dop -> mailbox -> option danswer -> mailbox -> Prop :=
| deliver_recv buf data from i o :
    (length data <= length buf)%nat ->
    delivers (DRecv buf) (mkMailbox ((data, from) :: i) o)
      (Some (DReceived (Ok (len data, from)) (fill buf data))) (mkMailbox i o)
| deliver_recv_err buf e m :
    e <> WouldBlock -> e <> Timeout -> delivers (DRecv buf) m (Some (DReceived (Err e) buf)) m
| deliver_try_recv buf data from i o :
    (length data <= length buf)%nat ->
    delivers (DTryRecv buf) (mkMailbox ((data, from) :: i) o)
      (Some (DTried (Ok (Some (len data, from))) (fill buf data))) (mkMailbox i o)
| deliver_try_recv_none buf m : delivers (DTryRecv buf) m (Some (DTried (Ok None) buf)) m
| deliver_try_recv_err buf e m :
    e <> WouldBlock -> e <> Timeout -> delivers (DTryRecv buf) m (Some (DTried (Err e) buf)) m
| deliver_wait m : delivers DWait m (Some (DWaited (Ok tt))) m
| deliver_wait_err e m : delivers DWait m (Some (DWaited (Err (Io e)))) m
| deliver_send buf dst n i o :
    delivers (DSend buf dst) (mkMailbox i o) (Some (DSent (Ok n)))
      (mkMailbox i (o ++ [(wire buf, without_scope dst)]))
| deliver_send_err buf dst e m :
    e <> WouldBlock -> delivers (DSend buf dst) m (Some (DSent (Err e))) m
| deliver_cancelled op m : awaits op = true -> delivers op m (Some DCancelled) m
| deliver_unfinished op m : awaits op = true -> delivers op m None m.

(** A client: the next operation, from the answers so far. *)
Definition dclient : Type := list danswer -> option dop.

Inductive mailbox_step (c : dclient) : list danswer * mailbox -> list danswer * mailbox -> Prop :=
| mailbox_served hist m op a m' :
    c hist = Some op -> delivers op m (Some a) m' -> mailbox_step c (hist, m) (hist ++ [a], m').

(** An operation the types of the source admit. *)
Definition wf_dop (o : dop) : Prop := match o with DSend _ dst => wf_addr dst | _ => True end.

(** ** The socket as the client runs it *)

Section Client.
Context `{E : Env}.

Definition run_dop (fuel : nat) (s : VclDgramSocket) (o : dop) : M danswer :=
  match o with
  | DRecv buf => '(r, buf) ← recv_from fuel s buf; mret (DReceived r buf)
  | DTryRecv buf => '(r, buf) ← try_recv_from s buf; mret (DTried r buf)
  | DWait => r ← dgram_wait_readable fuel s; mret (DWaited r)
  | DSend buf dst => r ← send_to fuel s buf dst; mret (DSent r)
  end.

(** What the client is told about an operation that ended with [r]. *)
Definition heard {A} (f : A -> danswer) (r : Outcome A) : option danswer :=
  match r with
  | Done a => Some (f a)
  | Unwound Cancelled => Some DCancelled
  | _ => None
  end.

(** One operation: it answers, or the client drops it at an [await]. *)
Inductive dclient_step (c : dclient) (s : VclDgramSocket) :
    list danswer * World -> list danswer * World -> Prop :=
| dclient_ran hist w op fuel r a w' :
    c hist = Some op -> wf_dop op -> run_dop fuel s op w = (r, w') -> heard id r = Some a ->
    dclient_step c s (hist, w) (hist ++ [a], w').

(** The address an endpoint names. *)
Definition endpoint_addr (ep : vppcom_endpt_t) : SocketAddr :=
  SessionHandle.addr_from_endpoint ep (ip_buf_after ep zero_ip_buf).

Definition delivered_letter (d : Z * list u8 * vppcom_endpt_t) : letter := (d.1.2, endpoint_addr d.2).
Definition posted_letter (d : list u8 * vppcom_endpt_t) : letter := (d.1, endpoint_addr d.2).
End Client.

(** Session [h] carries datagrams: [inbox x] is what it will hand out,
    [outbox x] what was posted on it.  A [recvfrom] that succeeds takes the
    first letter, a [sendto] that succeeds posts one, and no other call moves
    a letter. *)
Class DatagramChannel `{Env} (h : Z) (inbox outbox : ext -> list letter) : Prop :=
  datagram_step : forall c t x r x', env_step c t x = (r, x') ->
    inbox x = (delivered_letter <$> datagram_by h (Ev t c r)) ++ inbox x' /\
    outbox x' = outbox x ++ (posted_letter <$> sent_by h (Ev t c r)).

(** ** What one operation does to the mailbox *)

Section Delivers.
Context `{E : Env} `{!EnvSat recv_ok} (t : Z).

(** The trace [l] of operation [o] on [h] is one way a mailbox serves it. *)
Definition handled (h : Z) (o : dop) (a : option danswer) (l : trace) : Prop :=
  forall i out, delivers o (mkMailbox ((delivered_letter <$> datagrams h l) ++ i) out) a
                           (mkMailbox i (out ++ (posted_letter <$> sent h l))).

(** An operation that moved nothing. *)
Lemma handled_idle h o a l : datagrams h l = [] -> sent h l = [] ->
  (forall m, delivers o m a m) -> handled h o a l.
Proof. intros Hd Hs Hm i out. rewrite Hd, Hs, app_nil_r. apply Hm. Qed.

(** The one datagram of a receive, as the letter and the buffer it fills. *)
Lemma one_datagram_letter h buf buf' n from l : one_datagram h buf buf' n from l ->
  exists data, (delivered_letter <$> datagrams h l) = [(data, from)] /\ n = len data /\
    buf' = fill buf data /\ (length data <= length buf)%nat.
Proof.
  intros (ep & -> & Hn & Hlen & Hd & ->). exists (take (Z.to_nat n) buf'). unfold len in *.
  rewrite length_take. split_and!; [done|lia| |lia].
  unfold fill. rewrite length_take, (take_ge (take _ buf')) by (rewrite length_take; lia).
  replace (Z.to_nat n `min` length buf')%nat with (Z.to_nat n) by lia. by rewrite <- Hd, take_drop.
Qed.

Lemma handled_recv h buf o l : recv_post h buf o l -> sent h l = [] ->
  handled h (DRecv buf) (heard (fun a => DReceived a.1 a.2) o) l.
Proof.
  intros Ho Hs. destruct o as [[[[n from]|e] buf']|[]|].
  - apply one_datagram_letter in Ho as (data & Hd & -> & -> & Hle). intros i out.
    rewrite Hd, Hs, app_nil_r. by constructor.
  - destruct Ho as (Hd & -> & Hw & Ht). apply handled_idle; [done..|]. by constructor.
  - apply handled_idle; [done..|]. by constructor.
  - apply handled_idle; [done..|]. by constructor.
  - apply handled_idle; [done..|]. by constructor.
Qed.

Lemma try_recv_emits s buf :
  emits t (try_recv_from s buf) (fun o l =>
    handled (dg_handle s) (DTryRecv buf) (heard (fun a => DTried a.1 a.2) o) l).
Proof.
  unfold try_recv_from. apply emits_bind.
  eapply emits_mono; [apply emits_and; [apply recvfrom_datagram|apply emits_and;
    [apply recvfrom_never_timeout|by apply (recvfrom_emits any_answer)]]|].
  intros [[[[n from]|e] buf']| |] l (Hd & Hto & rc & data & ep & _ & Hl & _); try done.
  - apply emits_ret. rewrite app_nil_r. apply one_datagram_letter in Hd as (data' & Hd & -> & -> & Hle).
    intros i out. rewrite Hd, Hl. cbn. rewrite app_nil_r. by constructor.
  - destruct Hd as [Hd ->].
    assert (sent (dg_handle s) l = []) as Hs by (by rewrite Hl).
    destruct e; [..|by destruct (Hto buf)]; apply emits_ret; rewrite app_nil_r;
      (apply handled_idle; [done..|]); by constructor.
Qed.

(** Marshalling the destination and reading it back. *)
Lemma posted_to buf dst : wf_addr dst ->
  posted_letter (buf, fst (SessionHandle.endpoint_into_buf dst zero_ip_buf)) = (buf, without_scope dst).
Proof.
  intros Hdst. unfold posted_letter, endpoint_addr. simpl. f_equal.
  pose proof (endpoint_into_from endian dst zero_ip_buf Hdst eq_refl) as Hrt.
  unfold SessionHandle.endpoint_into_buf, SessionHandle.addr_from_endpoint, ip_buf_after.
  assert (ep_ip (endpoint_into_buf_at endian dst zero_ip_buf).1 =
    Some (endpoint_into_buf_at endian dst zero_ip_buf).2) as Hip by (by destruct dst).
  rewrite Hip. by destruct (endpoint_into_buf_at endian dst zero_ip_buf).
Qed.

Lemma handled_send h buf dst o l : wf_addr dst -> send_post h buf dst o l -> datagrams h l = [] ->
  handled h (DSend buf dst) (heard DSent o) l.
Proof.
  intros Hdst Ho Hd. destruct o as [[n|e]|[]|]; [|destruct Ho as [Ho Hw]|..];
    [|apply handled_idle; [done..|]; by constructor..].
  intros i out. rewrite Hd, Ho, list_fmap_singleton, posted_to by done. constructor.
Qed.

Lemma handled_wait h o l : quiet l -> wait_outcome o ->
  handled h DWait (heard DWaited (match o with Done (Err Timeout) => Done (Ok tt) | _ => o end)) l.
Proof.
  intros [Hd Hs]%(quiet_no_datagrams h) Ho. apply handled_idle; [done..|].
  destruct o as [[[]|[]]|[]|]; try done; by constructor.
Qed.
End Delivers.

(** ** One operation of the client *)

Section Operations.
Context `{E : Env} `{!EnvSat recv_ok} (t : Z).

(** Renaming the answer of an operation that has been served. *)
Lemma handled_answer {A} h o (m : M A) (k : A -> M danswer) (f : A -> danswer) :
  (forall a, k a = mret (f a)) -> emits t m (fun r l => handled h o (heard f r) l) ->
  emits t (m ≫= k) (fun r l => handled h o (heard id r) l).
Proof.
  intros Hk Hm. apply emits_bind. eapply emits_mono; [exact Hm|]. intros [a| |] l Hd; [|done..].
  rewrite Hk. apply emits_ret. by rewrite app_nil_r.
Qed.

Lemma recv_from_handled fuel s buf :
  emits t (recv_from fuel s buf) (fun r l => handled (dg_handle s) (DRecv buf) (heard (fun a => DReceived a.1 a.2) r) l).
Proof.
  eapply emits_mono; [apply emits_and; [apply recv_from_emits|apply (recv_from_sends_nothing t fuel s (dg_handle s))]|].
  intros r l [Hp Hs]. by apply handled_recv.
Qed.

Lemma send_to_handled fuel s buf dst : wf_addr dst ->
  emits t (send_to fuel s buf dst) (fun r l => handled (dg_handle s) (DSend buf dst) (heard DSent r) l).
Proof.
  intros Hdst.
  eapply emits_mono; [apply emits_and; [apply send_to_emits|apply (send_to_receives_nothing t fuel s (dg_handle s))]|].
  intros r l [Hp Hd]. by apply handled_send.
Qed.

Lemma wait_handled fuel s :
  emits t (dgram_wait_readable fuel s) (fun r l => handled (dg_handle s) DWait (heard DWaited r) l).
Proof.
  unfold dgram_wait_readable. apply emits_bind. eapply emits_mono; [apply wait_contract|].
  intros o l [Hq Ho]. pose proof (handled_wait (dg_handle s) o l Hq Ho) as Hd.
  destruct o as [[[]|[]]| |]; try done; apply emits_ret; by rewrite app_nil_r.
Qed.

Lemma run_dop_emits fuel s o : wf_dop o ->
  emits t (run_dop fuel s o) (fun r l => handled (dg_handle s) o (heard id r) l).
Proof.
  intros Hwf. destruct o as [buf|buf| |buf dst]; cbn [run_dop].
  - apply (handled_answer _ _ _ _ (fun a => DReceived a.1 a.2)); [by intros []|apply recv_from_handled].
  - apply (handled_answer _ _ _ _ (fun a => DTried a.1 a.2)); [by intros []|apply try_recv_emits].
  - eapply handled_answer; [done|apply wait_handled].
  - eapply handled_answer; [done|by apply send_to_handled].
Qed.

Lemma honest_recv_from fuel s buf : honest (recv_from fuel s buf).
Proof. unfold recv_from, recv_from_round, SessionHandle.recvfrom, wait_readable. honest_go. Qed.

Lemma honest_send_to fuel s buf dst : honest (send_to fuel s buf dst).
Proof. unfold send_to, send_to_round, SessionHandle.sendto, wait_writable. honest_go. Qed.

Lemma honest_run_dop fuel s o : honest (run_dop fuel s o).
Proof.
  pose proof (honest_recv_from fuel s). pose proof (honest_send_to fuel s).
  destruct o; cbn [run_dop]; unfold try_recv_from, dgram_wait_readable, SessionHandle.recvfrom, wait_readable;
    honest_go.
Qed.
End Operations.

(** ** Refinement *)

Section Refinement.
Context `{E : Env} `{!EnvSat recv_ok}.
Context (h : Z) (inbox outbox : ext -> list letter) `{!DatagramChannel h inbox outbox}.

Definition mailbox_of (w : World) : mailbox := mkMailbox (inbox (w_ext w)) (outbox (w_ext w)).

(** Conservation: the letters a run received left the inbox, those it sent
    arrived in the outbox, and nothing else moved. *)
Lemma replay_letters x l x' : replay x l x' ->
  inbox x = (delivered_letter <$> datagrams h l) ++ inbox x' /\
  outbox x' = outbox x ++ (posted_letter <$> sent h l).
Proof.
  induction 1 as [x|x t c r x' l x'' He _ [IHi IHo]]; [by rewrite app_nil_r|].
  destruct (datagram_step c t x r x' He) as [Hi Ho]. unfold datagrams, sent in *.
  cbn [mbind list_bind]. by rewrite Hi, IHi, IHo, Ho, !fmap_app, !app_assoc.
Qed.

Lemma run_dop_delivers fuel s o w r w' :
  dg_handle s = h -> wf_dop o -> run_dop fuel s o w = (r, w') ->
  delivers o (mailbox_of w) (heard id r) (mailbox_of w').
Proof.
  intros Hs Hwf Hrun.
  destruct (emits_honest (w_tid w) _ _ w (run_dop_emits (w_tid w) fuel s o Hwf) (honest_run_dop fuel s o) eq_refl)
    as (l & Hr & Hd).
  rewrite Hrun, Hs in *. simpl in *. apply replay_letters in Hr as [Hi Ho].
  unfold mailbox_of. rewrite Hi, Ho. apply Hd.
Qed.

Definition dview (cf : list danswer * World) : list danswer * mailbox := (cf.1, mailbox_of cf.2).

Lemma dclient_step_simulates c s cf cf' : dg_handle s = h ->
  dclient_step c s cf cf' -> mailbox_step c (dview cf) (dview cf').
Proof.
  intros Hs [hist w o fuel r a w' Hc Hwf Hrun Ha]. unfold dview. simpl. econstructor; [done|].
  rewrite <- Ha. by eapply run_dop_delivers.
Qed.

(** C4. A UDP socket refines a mailbox.  Whatever a client does with a
    socket whose session carries datagrams, choosing each operation from the
    answers so far and dropping futures at any [await], some mailbox gives it
    the same answers and is left in the same state: a receive takes the oldest
    letter, whole and with its sender, a send posts one letter to the
    destination, and an operation that fails, finds nothing or is dropped
    moves no letter.  The operation under way at the end of such a run,
    finished or not, is served by the mailbox as well. *)
Theorem dgram_refines_mailbox c s cf cf' :
  dg_handle s = h -> rtc (dclient_step c s) cf cf' ->
  rtc (mailbox_step c) (dview cf) (dview cf') /\
  forall o fuel r w', wf_dop o -> run_dop fuel s o cf'.2 = (r, w') ->
    delivers o (mailbox_of cf'.2) (heard id r) (mailbox_of w').
Proof.
  intros Hs Hrun. split.
  - induction Hrun as [cf|cf cf1 cf' Hstep _ IH]; [done|]. by eapply rtc_l; [apply (dclient_step_simulates c s)|].
  - intros o fuel r w' Hwf Hop. by eapply run_dop_delivers.
Qed.
End Refinement.
