(* ===== verification/Listener.v ===== *)
(** * TCP listeners (src/listener.rs) *)

From S2P Require Import Prelude Net Errors Ffi World Sim Session App Reactor Ownership Stream Dgram.

Record VclListener : Set := mkListener { ls_handle : Z }.

Section Listener.
Context `{E : Env}.

Definition listener_bind (fuel : nat) (addr : SocketAddr) : M (Result VclListener) :=
  _ ← register_worker_thread;
  handle ←? SessionHandle.create_tcp true;
  unless_ok (
    _ ←? SessionHandle.bind handle addr;
    _ ←? SessionHandle.listen handle 128;
    _ ←? verify_bind_or_err fuel handle addr;
    _ ←? register handle;
    _ ← do_call (tracing Info (Fmt "VCL listener bound" [AAddr addr]));
    mret (Ok (mkListener handle)))
  (SessionHandle.drop handle).

(** The client handle is dropped if it cannot be registered;
    [from_accepted] takes it over. *)
Definition accept_round (fuel : nat) (h : Z) (_ : unit) : M (unit + Result (VclStream * SocketAddr)) :=
  r ← SessionHandle.accept h;
  match r with
  | Ok (client_handle, peer_addr) =>
      r ← (_ ←? unless_ok (register client_handle) (SessionHandle.drop client_handle);
           stream ←? from_accepted client_handle;
           mret (Ok (stream, peer_addr)));
      mret (inr r)
  | Err WouldBlock =>
      waited ← wait_readable fuel h (secs 300);
      match waited with
      | Ok _ | Err Timeout => mret (inl tt)
      | Err e => mret (inr (Err e))
      end
  | Err e => mret (inr (Err e))
  end.

Definition listener_accept (fuel : nat) (s : VclListener) : M (Result (VclStream * SocketAddr)) :=
  loop fuel (accept_round fuel (ls_handle s)) tt.

Definition listener_local_addr (s : VclListener) : M (option SocketAddr) :=
  r ← SessionHandle.local_addr (ls_handle s); mret (ok r).

(** [impl Drop for VclListener], then the drop of its [handle] field. *)
Definition listener_drop (s : VclListener) : M unit :=
  _ ← deregister (ls_handle s); SessionHandle.drop (ls_handle s).
End Listener.

(** ** Properties *)

Section ListenerTraces.
Context `{E : Env} (t : Z).

(** A TCP listener's bind gives the same guarantees as a UDP bind:
    success means a confirmed bind to the requested port with a backlog of
    128, and the listening session as the only handle left open; failure leaves
    none open, or closes the session twice when VPP rejected the bind. *)
Theorem listener_bind_confirmed fuel addr :
  emits t (listener_bind fuel addr) (fun o l =>
    match o with
    | Done (Ok s) => pool_run [] l = Some [ls_handle s] /\
        exists lc lb, l = lc ++ lb /\ pool_run [] lc = Some [ls_handle s] /\
          bound_calls t (ls_handle s) addr 128 lb
    | Done (Err e) =>
        pool_run [] l = Some [] \/ (pool_run [] l = None /\ exists e', e = rejected_error addr e')
    | _ => True
    end).
Proof.
  unfold listener_bind. apply emits_bind. eapply emits_mono; [apply quietly_emits, quietly_register_worker|].
  intros [[]| |] l0 Hl0; try done.
  eapply emits_mono; [apply (open_bound_emits t mkListener); intros; apply accounts_create_tcp|].
  intros [[s|e]| |] l Ho; try done.
  - destruct Ho as (h & lc & lb & -> & -> & Hc & Hn & Hb). cbn [ls_handle].
    assert (pool_run [] (l0 ++ lc) = Some [h]) as Hc' by (by rewrite pool_run_app, pool_run_quiet).
    rewrite app_assoc. split; [rewrite pool_run_app, Hc'; apply Hn|]. by exists (l0 ++ lc), lb.
  - by rewrite pool_run_app, pool_run_quiet.
Qed.

(** The part after a connection was accepted takes the client handle over. *)
Lemma adopt_accounts c (peer : SocketAddr) hs :
  accounts (fun a => st_handle a.1 :: hs) (c :: hs) hs
    (_ ←? unless_ok (register c) (SessionHandle.drop c);
     stream ←? from_accepted c;
     mret (Ok (stream, peer))).
Proof.
  eapply accounts_try_bind.
  { apply (accounts_unless_ok (fun _ => c :: hs)), accounts_quiet, quietly_register. }
  intros []. cbn beta. eapply accounts_try_bind; [apply from_accepted_accounts|].
  intros s. apply (accounts_ok (fun a : VclStream * SocketAddr => st_handle a.1 :: hs) hs (s, peer)).
Qed.

Lemma listener_accept_accounts fuel s hs :
  accounts (fun a => st_handle a.1 :: hs) hs hs (listener_accept fuel s).
Proof.
  intros t'. apply (emits_loop (fun _ l => pool_run hs l = Some hs)); [done| |intros u l Hl; simpl; rewrite Hl; eauto].
  intros u l Hl. unfold accept_round. apply emits_bind. eapply emits_mono; [apply (accounts_accept _ hs)|].
  intros [[[c peer]|e]| |] k Hk; simpl in Hk; try (simpl; by rewrite pool_run_app, Hl).
  - apply emits_bind. eapply emits_mono; [apply (adopt_accounts c peer hs)|].
    intros [[a|e]| |] k' Hk'; simpl in Hk'; [apply emits_ret; rewrite app_nil_r..| |];
      simpl; by rewrite pool_run_app, Hl; simpl; rewrite pool_run_app, Hk.
  - assert (pool_run hs (l ++ k) = Some hs) as Hlk by (by rewrite pool_run_app, Hl).
    destruct e; try (apply emits_ret; by rewrite app_nil_r).
    apply emits_bind. eapply emits_mono; [apply quietly_emits, quietly_wait_readable|].
    intros o k' Hq. assert (pool_run hs (l ++ k ++ k') = Some hs) as Hall.
    { rewrite app_assoc, pool_run_app, Hlk. by apply pool_run_quiet. }
    destruct o as [[[]|e]| |]; [|destruct e|..]; simpl; rewrite ?Hall; eauto; apply emits_ret;
      by rewrite app_nil_r.
Qed.

(** C23. [accept] hands out each accepted session exactly once: on success
    the stream's session is the one handle the call added, on an error, or
    when the future is dropped, it added none, so a client whose registration
    or set-up failed was closed; and nothing is ever closed twice. *)
Theorem accept_owns fuel s hs :
  emits t (listener_accept fuel s) (owned_after (fun a => st_handle a.1 :: hs) hs hs).
Proof. apply listener_accept_accounts. Qed.
End ListenerTraces.
