(* ===== verification/Echo.v ===== *)
(** * The UDP echo server (examples/udp_echo.rs)

    The example program, whole: application, reactor, socket and the echo
    loop, on top of the components it uses; its behaviour on traces, and on
    the mailbox its socket refines. *)

From S2P Require Import Prelude Net Errors Ffi World Sim Session App Reactor Replay Ownership Dgram Mailbox.

Section Echo.
Context `{E : Env}.

(** One turn of the loop: [inr] is the [?] leaving it. *)
Definition echo_round (fuel : nat) (sock : VclDgramSocket) (buf : list u8) : M (list u8 + Result unit) :=
  '(r, buf) ← recv_from fuel sock buf;
  match r with
  | Err e => mret (inr (Err e))
  | Ok (n, peer) =>
      _ ← do_call (tracing Debug (Fmt "echo" [AAddr peer; AInt n]));
      if n <=? len buf then
        r ← send_to fuel sock (take (Z.to_nat n) buf) peer;
        match r with
        | Err e => mret (inr (Err e))
        | Ok _ => mret (inl buf)
        end
      else panic
  end.

Definition echo_loop (fuel : nat) (sock : VclDgramSocket) : M (Result unit) :=
  loop fuel (echo_round fuel sock) (replicate (Z.to_nat 65535) Byte.x00).

(** [main]; [arg] is the first command-line argument.  The socket is dropped
    before the application; dropping the reactor makes no call. *)
Definition echo_main (fuel : nat) (arg : option string) : M (Result unit) :=
  _ ←? app_init "vcl-rs-udp-echo";
  finally (
    _ ←? reactor_new;
    match parse_socket_addr (unwrap_or_else arg "0.0.0.0:5353") with
    | None => panic
    | Some bind_addr =>
        sock ←? dgram_bind fuel bind_addr;
        finally (
          _ ← do_call (tracing Info (Fmt "UDP echo ready" [AAddr bind_addr]));
          echo_loop fuel sock)
        (dgram_drop sock)
    end)
  app_drop.
End Echo.

(** ** Every datagram goes back to its sender *)

Section EchoTraces.
Context `{E : Env} `{!EnvSat recv_ok} (t : Z).

(** The reply to a datagram: the same bytes, to the address it came from. *)
Definition reply_to (d : Z * list u8 * vppcom_endpt_t) : list u8 * vppcom_endpt_t :=
  (d.1.2, fst (SessionHandle.endpoint_into_buf (endpoint_addr d.2) zero_ip_buf)).

(** Every datagram answered in order, except possibly the last one. *)
Definition echoed (h : Z) (l : trace) : Prop :=
  exists ds rest, datagrams h l = ds ++ rest /\ sent h l = reply_to <$> ds /\ (length rest <= 1)%nat.

Lemma echoed_all h l k :
  sent h l = reply_to <$> datagrams h l -> (length (datagrams h k) <= 1)%nat -> sent h k = [] ->
  echoed h (l ++ k).
Proof.
  intros Hl Hk Hs. exists (datagrams h l), (datagrams h k).
  by rewrite datagrams_app, sent_app, Hl, Hs, app_nil_r.
Qed.

Lemma echo_round_emits fuel s buf l :
  let h := dg_handle s in
  len buf = 65535 -> sent h l = reply_to <$> datagrams h l ->
  emits t (echo_round fuel s buf) (fun o l' =>
    match o with
    | Done (inl buf') => len buf' = 65535 /\ sent h (l ++ l') = reply_to <$> datagrams h (l ++ l')
    | _ => echoed h (l ++ l')
    end).
Proof.
  cbn zeta. set (h := dg_handle s). intros Hb Hl. unfold echo_round. apply emits_bind.
  eapply emits_mono; [apply emits_and; [apply recv_from_emits|apply (recv_from_sends_nothing t fuel s h buf)]|].
  fold h. intros [[[[n from]|e] buf']| |] k [Hk Hsk].
  - destruct Hk as (ep & Hd & Hn & Hlen & _ & ->).
    rewrite (proj2 (Z.leb_le _ _)) by (unfold len in *; lia).
    apply emits_bind. call_with any_answer. intros u _. set (dbg := [Ev t (tracing _ _) u]).
    apply emits_bind. eapply emits_mono; [apply emits_and; [apply send_to_emits|apply (send_to_receives_nothing t fuel s h)]|].
    fold h. intros o k' [Ho Hdk'].
    assert (sent h k' = [] -> echoed h (l ++ k ++ dbg ++ k')) as Hfail.
    { intros Hs. apply echoed_all; [done|..]; [rewrite !datagrams_app, Hd, Hdk'; simpl; lia|].
      by rewrite !sent_app, Hsk, Hs. }
    destruct o as [[m|e]| |]; simpl in Ho; [..|by apply Hfail|by apply Hfail];
      apply emits_ret; rewrite app_nil_r; [|apply Hfail; by destruct Ho].
    rewrite wire_whole in Ho by (unfold len in *; rewrite length_take; lia).
    split; [unfold len in *; lia|].
    rewrite !sent_app, !datagrams_app, Hsk, Ho, Hd, Hdk', Hl, app_nil_r, fmap_app. done.
  - destruct Hk as (Hd & _). apply emits_ret. rewrite app_nil_r. apply echoed_all; [done| |done].
    rewrite Hd. simpl. lia.
  - apply echoed_all; [done| |done]. simpl in Hk. rewrite Hk. simpl. lia.
  - apply echoed_all; [done| |done]. simpl in Hk. rewrite Hk. simpl. lia.
Qed.

Lemma echo_rounds_emits n fuel s buf : len buf = 65535 ->
  emits t (loop n (echo_round fuel s) buf) (fun _ l => echoed (dg_handle s) l).
Proof.
  intros Hbuf. apply (emits_loop (fun buf l => len buf = 65535 /\
    sent (dg_handle s) l = reply_to <$> datagrams (dg_handle s) l)); [done|..].
  - clear buf Hbuf. intros buf l [Hb Hl]. eapply emits_mono; [by apply echo_round_emits|]. by intros [[]| |] l'.
  - clear buf Hbuf. intros buf l [Hb Hl]. rewrite <- (app_nil_r l). apply echoed_all; [done|simpl; lia|done].
Qed.

Lemma len_echo_buf : len (replicate (Z.to_nat 65535) Byte.x00) = 65535.
Proof. unfold len. rewrite length_replicate. lia. Qed.
(** The echo server answers: at any point of its run, and however it
    ends, every datagram it took off the socket but possibly the last was sent
    back, once, unchanged and in order, to the address it came from; and it
    sends nothing else. *)
Theorem echo_replies fuel s : emits t (echo_loop fuel s) (fun _ l => echoed (dg_handle s) l).
Proof. apply echo_rounds_emits, len_echo_buf. Qed.
End EchoTraces.

(** ** The echo server on a mailbox *)

Section EchoMailbox.
Context `{E : Env} `{!EnvSat recv_ok}.
Context (h : Z) (inbox outbox : ext -> list letter) `{!DatagramChannel h inbox outbox}.

Lemma honest_echo_round fuel s buf : honest (echo_round fuel s buf).
Proof.
  pose proof (honest_recv_from fuel s). pose proof (honest_send_to fuel s). unfold echo_round. honest_go.
Qed.

(** The address of a delivered letter carries no scope, so the reply names it
    exactly. *)
Lemma reply_letter d : wf_addr (endpoint_addr d.2) -> posted_letter (reply_to d) = delivered_letter d.
Proof.
  intros Hwf. unfold reply_to. rewrite posted_to by done. unfold delivered_letter. f_equal.
  unfold endpoint_addr, SessionHandle.addr_from_endpoint, addr_from_endpoint_at. by case_match.
Qed.

(** A letter whose sender is an address an endpoint can name. *)
Definition wf_letter (l : letter) : Prop := wf_addr l.2 /\ without_scope l.2 = l.2.

(** What [n] turns of the loop did to the mailbox. *)
Definition mirrored (w w' : World) : Prop := exists answered pending,
  inbox (w_ext w) = answered ++ pending ++ inbox (w_ext w') /\
  outbox (w_ext w') = outbox (w_ext w) ++ answered /\ (length pending <= 1)%nat.

Lemma echo_rounds_mirror n fuel s buf w :
  dg_handle s = h -> len buf = 65535 -> Forall wf_letter (inbox (w_ext w)) ->
  mirrored w (loop n (echo_round fuel s) buf w).2.
Proof.
  intros Hs Hb Hwf.
  destruct (emits_honest (w_tid w) _ _ w (echo_rounds_emits (w_tid w) n fuel s buf Hb)
    (honest_loop n _ buf (honest_echo_round fuel s)) eq_refl) as (l & Hr & ds & rest & Hd & Hsent & Hlen).
  rewrite Hs in *. apply (replay_letters h inbox outbox) in Hr as [Hi Ho].
  rewrite Hd, fmap_app, <- app_assoc in Hi.
  exists (delivered_letter <$> ds), (delivered_letter <$> rest). split_and!; [done| |by rewrite length_fmap].
  rewrite Ho, Hsent, <- list_fmap_compose. f_equal. apply list_fmap_ext. intros i d Hlk.
  apply reply_letter. rewrite Hi in Hwf. apply Forall_app in Hwf as [Hwf _].
  apply (Forall_lookup_1 _ _ i (delivered_letter d)) in Hwf as [Hwf _]; [done|]. by rewrite list_lookup_fmap, Hlk.
Qed.

(** C30. The echo server mirrors its mailbox: the letters it took off the
    inbox are the ones it posted, unchanged, in order and back to their
    senders, except for at most one that is still unanswered, whatever it is
    doing and however it ends. *)
Theorem echo_mirrors fuel s w :
  dg_handle s = h -> Forall wf_letter (inbox (w_ext w)) -> mirrored w (echo_loop fuel s w).2.
Proof. intros Hs Hwf. apply echo_rounds_mirror; [done|apply len_echo_buf|done]. Qed.

(** A session that hands out a letter that fits whenever it has one, and
    takes every letter posted. *)
Class PromptMailbox : Prop := {
  prompt_recv t buf n fl ep x rc data ep' x' d a i :
    env_step (vppcom_session_recvfrom h buf n fl ep) t x = ((rc, data, ep'), x') ->
    inbox x = (d, a) :: i -> len d <= n -> 0 <= rc;
  prompt_send t buf n fl ep x rc x' :
    env_step (vppcom_session_sendto h buf n fl ep) t x = (rc, x') -> 0 <= rc
}.

Context `{!PromptMailbox}.

Lemma recv_prompt fuel s buf w d a i :
  dg_handle s = h -> inbox (w_ext w) = (d, a) :: i -> len d <= as_u32 (len buf) ->
  wp (recv_from (S fuel) s buf) (fun o w' => o = Done (Ok (len d, a), fill buf d) /\
    inbox (w_ext w') = i /\ outbox (w_ext w') = outbox (w_ext w)) w.
Proof.
  intros Hs Hin Hfit.
  assert (wp (recv_from (S fuel) s buf) (fun o _ => exists n from b, o = Done (Ok (n, from), b)) w) as Hok.
  { unfold recv_from. cbn [loop]. apply wp_bind, wp_bind, wp_bind.
    rewrite Hs. apply (wp_call (vppcom_session_recvfrom h buf (as_u32 (len buf)) 0 (endpt_for zero_ip_buf))).
    intros [[rc data] ep] x' He. pose proof (prompt_recv _ _ _ _ _ _ _ _ _ _ _ _ _ He Hin Hfit) as Hrc.
    rewrite (proj2 (Z.ltb_ge rc 0)) by done. by repeat eexists. }
  unfold wp in *. destruct (recv_from (S fuel) s buf w) as [o w'] eqn:Hrun. destruct Hok as (n & from & b & Hok).
  simpl in Hok. subst o. assert (run_dop (S fuel) s (DRecv buf) w = (Done (DReceived (Ok (n, from)) b), w')) as Hop.
  { cbn [run_dop]. unfold mbind, M_bind. by rewrite Hrun. }
  apply (run_dop_delivers h inbox outbox) in Hop; [|done..]. unfold mailbox_of in Hop. rewrite Hin in Hop.
  inversion Hop; subst. done.
Qed.

Lemma send_prompt fuel s buf dst w :
  dg_handle s = h -> wf_addr dst ->
  wp (send_to (S fuel) s buf dst) (fun o w' => (exists n, o = Done (Ok n)) /\
    inbox (w_ext w') = inbox (w_ext w) /\ outbox (w_ext w') = outbox (w_ext w) ++ [(wire buf, without_scope dst)]) w.
Proof.
  intros Hs Hdst. assert (wp (send_to (S fuel) s buf dst) (fun o _ => exists n, o = Done (Ok n)) w) as Hok.
  { unfold send_to. cbn [loop]. apply wp_bind, wp_bind.
    unfold SessionHandle.sendto. destruct (SessionHandle.endpoint_into_buf dst zero_ip_buf) as [ep b0].
    rewrite Hs. apply wp_bind, (wp_call (vppcom_session_sendto h buf (as_u32 (len buf)) 0 ep)).
    intros rc x' He. pose proof (prompt_send _ _ _ _ _ _ _ _ He) as Hrc.
    rewrite (proj2 (Z.ltb_ge rc 0)) by done. by eexists. }
  unfold wp in *. destruct (send_to (S fuel) s buf dst w) as [o w'] eqn:Hrun. destruct Hok as (n & Hok).
  simpl in Hok. subst o. assert (run_dop (S fuel) s (DSend buf dst) w = (Done (DSent (Ok n)), w')) as Hop.
  { cbn [run_dop]. unfold mbind, M_bind. by rewrite Hrun. }
  apply (run_dop_delivers h inbox outbox) in Hop; [|done..]. unfold mailbox_of in Hop.
  inversion Hop; subst. split; [by eexists|]. done.
Qed.

Lemma echo_round_prompt fuel s buf w l i :
  dg_handle s = h -> inbox (w_ext w) = l :: i -> len buf = 65535 -> wf_letter l -> len l.1 <= 65535 ->
  wp (echo_round (S fuel) s buf) (fun o w' => (exists buf', o = Done (inl buf') /\ len buf' = 65535) /\
    inbox (w_ext w') = i /\ outbox (w_ext w') = outbox (w_ext w) ++ [l]) w.
Proof.
  destruct l as [d a]. intros Hs Hin Hb [Hwf Hscope] Hd. simpl in *. unfold echo_round. apply wp_bind.
  eapply wp_mono; [apply (recv_prompt _ _ _ _ d a i Hs Hin); rewrite Hb; exact Hd|].
  intros o w1 (-> & Hi & Ho).
  assert (length (fill buf d) = length buf) as Hfill by apply length_fill.
  rewrite (proj2 (Z.leb_le _ _)) by (unfold len in *; lia).
  apply wp_bind, (wp_call (tracing _ _)). intros r x He.
  apply datagram_step in He as [Hi2 Ho2]. cbn in Hi2, Ho2. rewrite app_nil_r in Ho2.
  apply wp_bind. eapply wp_mono; [by apply send_prompt|]. intros o w2 ([n ->] & Hi3 & Ho3).
  apply wp_ret. split_and!; [exists (fill buf d); split; [done|unfold len in *; lia]|simpl in *; congruence|].
  unfold len in *. rewrite Nat2Z.id, take_fill, take_ge in Ho3 by lia.
  rewrite wire_whole, Hscope in Ho3 by (unfold len; lia). etrans; [exact Ho3|]. f_equal. simpl. congruence.
Qed.

Lemma echo_rounds_prompt n fuel s buf w :
  dg_handle s = h -> len buf = 65535 -> Forall wf_letter (inbox (w_ext w)) ->
  Forall (fun l => len l.1 <= 65535) (inbox (w_ext w)) ->
  outbox (w_ext (loop n (echo_round (S fuel) s) buf w).2) = outbox (w_ext w) ++ take n (inbox (w_ext w)).
Proof.
  intros Hs. revert buf w. induction n as [|n IH]; intros buf w Hb Hwf Hfit; [by rewrite app_nil_r|].
  destruct (inbox (w_ext w)) as [|l i] eqn:Hin.
  - destruct (echo_rounds_mirror (S n) (S fuel) s buf w Hs Hb) as (answered & pending & Hi & Ho & _); [by rewrite Hin|].
    rewrite Hin in Hi. symmetry in Hi. apply app_eq_nil in Hi as [-> _]. exact Ho.
  - apply Forall_cons in Hwf as [Hl Hwf], Hfit as [Hf Hfit].
    pose proof (echo_round_prompt fuel s buf w l i Hs Hin Hb Hl Hf) as Hround. unfold wp in Hround.
    cbn [loop]. unfold mbind, M_bind. destruct (echo_round (S fuel) s buf w) as [o w1]. simpl in Hround.
    destruct Hround as ((buf' & -> & Hb') & Hi & Ho).
    rewrite IH, Ho, Hi, <- app_assoc by (done || by rewrite Hi). done.
Qed.

(** C31. The echo server serves its backlog: on a session that hands out the
    letters it has and takes those posted, [fuel] turns of the loop answer the
    first [fuel] letters waiting (all of them, once there are that many
    turns), each sent back unchanged to its sender, in order. *)
Theorem echo_serves_backlog fuel s w :
  dg_handle s = h -> Forall wf_letter (inbox (w_ext w)) ->
  Forall (fun l => len l.1 <= 65535) (inbox (w_ext w)) ->
  outbox (w_ext (echo_loop fuel s w).2) = outbox (w_ext w) ++ take fuel (inbox (w_ext w)).
Proof.
  intros Hs Hwf Hfit. destruct fuel as [|fuel]; [by rewrite app_nil_r|].
  apply echo_rounds_prompt; [done|apply len_echo_buf|done..].
Qed.
End EchoMailbox.
