(* ===== verification/Framing.v ===== *)
(** * TCP DNS framing (src/dgram.rs) and its fuzz target

    The two-byte big-endian length prefix of RFC 1035 section 4.2.2, as
    written by [frame_tcp_dns_query] and read by [decode_tcp_dns_len], and the
    assertions of fuzz/fuzz_targets/tcp_dns_response.rs. *)

From S2P Require Import Prelude Net Errors.

Definition frame_tcp_dns_query (query : list u8) : Result (list u8) :=
  match u16_try_from (len query) with
  | None =>
      Err (Api (Fmt "DNS query too large for TCP framing: {} bytes" [AInt (len query)]) (-1))
  | Some len_u16 => Ok (to_be_bytes len_u16 ++ query)
  end.

Definition decode_tcp_dns_len (hi lo : u8) : Result Z :=
  let n := from_be_bytes hi lo in
  if n =? 0 then Err (Api (Lit "zero-length DNS response") (-1)) else Ok n.

(** The fuzz target: [false] when one of its assertions fails or an index is
    out of range. *)
Definition fuzz_outbound (q : list u8) : bool :=
  match frame_tcp_dns_query q with
  | Ok framed =>
      (len q <=? U16_MAX) && (len framed =? 2 + len q) &&
      match framed with
      | a :: b :: rest =>
          let n := match decode_tcp_dns_len a b with Ok n => as_u16 n | Err _ => 0 end in
          (n =? len q) && bool_decide (rest = q)
      | _ => false
      end
  | Err _ => U16_MAX <? len q
  end.

Definition fuzz_inbound (data : list u8) : bool :=
  if len data <? 2 then true
  else
    match data with
    | a :: b :: body =>
        match decode_tcp_dns_len a b with
        | Ok n =>
            let k := Z.min n (len body) in
            (0 <? n) && (n <=? U16_MAX) && ((0 <=? k) && (k <=? len body))
        | Err _ => bool_decide (a = Byte.x00) && bool_decide (b = Byte.x00)
        end
    | _ => false
    end.

Definition fuzz_tcp_dns_response (data : list u8) : bool :=
  let cap := Z.min (len data) (U16_MAX + 16) in
  fuzz_outbound (take (Z.to_nat cap) data) && fuzz_inbound data.

(** One message off a byte stream: what the [query_tcp_dns] functions do
    after connecting (two bytes, the length, then that many bytes). *)
Definition read_message (stream : list u8) : option (list u8 * list u8) :=
  match stream with
  | hi :: lo :: rest =>
      match decode_tcp_dns_len hi lo with
      | Ok n => if n <=? len rest then Some (take (Z.to_nat n) rest, drop (Z.to_nat n) rest) else None
      | Err _ => None
      end
  | _ => None
  end.

Fixpoint read_messages (count : nat) (stream : list u8) : option (list (list u8) * list u8) :=
  match count with
  | O => Some ([], stream)
  | S count' =>
      '(m, rest) ← read_message stream;
      '(ms, rest) ← read_messages count' rest;
      Some (m :: ms, rest)
  end.

(** ** Lemmas *)

Lemma frame_eq q :
  frame_tcp_dns_query q =
  if decide (len q <= U16_MAX) then Ok (to_be_bytes (len q) ++ q)
  else Err (Api (Fmt "DNS query too large for TCP framing: {} bytes" [AInt (len q)]) (-1)).
Proof.
  unfold frame_tcp_dns_query. rewrite u16_try_from_spec by apply len_nonneg. by case_decide.
Qed.

Lemma decode_to_be_bytes n :
  0 < n <= U16_MAX -> decode_tcp_dns_len (u8_of_Z (n / 256)) (u8_of_Z n) = Ok n.
Proof.
  unfold U16_MAX. intros Hn. unfold decode_tcp_dns_len. rewrite be_bytes_roundtrip by (unfold is_u16; lia).
  by rewrite (proj2 (Z.eqb_neq _ _)) by lia.
Qed.

Lemma decode_zero_iff a b : from_be_bytes a b = 0 <-> a = Byte.x00 /\ b = Byte.x00.
Proof.
  split; [|by intros [-> ->]]. unfold from_be_bytes. intros H.
  pose proof (Z_of_u8_range a). pose proof (Z_of_u8_range b).
  split; apply Z_of_u8_inj; change (Z_of_u8 Byte.x00) with 0; lia.
Qed.

Lemma read_message_frame q f rest :
  frame_tcp_dns_query q = Ok f -> q <> [] -> read_message (f ++ rest) = Some (q, rest).
Proof.
  rewrite frame_eq. case_decide as Hq; [|done]. intros [= <-] Hne. simpl.
  assert (0 < len q) by (destruct q; [done|]; unfold len; simpl; lia).
  rewrite decode_to_be_bytes by lia.
  rewrite (proj2 (Z.leb_le _ _)) by (rewrite len_app; pose proof (len_nonneg rest); lia).
  assert (Z.to_nat (len q) = length q) as -> by (unfold len; lia).
  by rewrite take_app_length, drop_app_length.
Qed.

(** ** Properties *)

(** Framing either refuses the query, exactly when it is longer than
    65535 bytes, or puts in front of the unchanged query two bytes that encode
    its length; it never truncates the length. *)
Theorem frame_total q :
  (len q <= U16_MAX /\ exists hi lo, frame_tcp_dns_query q = Ok (hi :: lo :: q) /\
     from_be_bytes hi lo = len q) \/
  (U16_MAX < len q /\ exists m, frame_tcp_dns_query q = Err (Api m (-1))).
Proof.
  rewrite frame_eq. case_decide as Hq.
  - left. split; [done|]. eexists _, _. split; [reflexivity|].
    apply be_bytes_roundtrip. unfold is_u16, U16_MAX in *. pose proof (len_nonneg q). lia.
  - right. split; [lia|]. eauto.
Qed.

(** The length decoder accepts every prefix but the all-zero one, and
    what it accepts lies between 1 and 65535, so the buffer allocated for a
    response is never empty and never larger than 65535 bytes. *)
Theorem decode_bounds hi lo :
  match decode_tcp_dns_len hi lo with
  | Ok n => 1 <= n <= U16_MAX /\ n = from_be_bytes hi lo
  | Err e => hi = Byte.x00 /\ lo = Byte.x00 /\ exists m, e = Api m (-1)
  end.
Proof.
  unfold decode_tcp_dns_len. pose proof (from_be_bytes_range hi lo).
  destruct (from_be_bytes hi lo =? 0) eqn:H0; bool_to_prop; [|lia].
  apply decode_zero_iff in H0 as [-> ->]. eauto.
Qed.

(** C20. A stream of framed non-empty queries never desynchronises: reading
    messages back with the decoder gives the queries one by one, in order and
    unchanged, and leaves what follows them untouched. *)
Theorem framing_roundtrip (qs : list (list u8)) (fs : list (list u8)) rest :
  Forall2 (fun q f => frame_tcp_dns_query q = Ok f /\ q <> []) qs fs ->
  read_messages (length qs) (concat fs ++ rest) = Some (qs, rest).
Proof.
  induction 1 as [|q f qs fs [Hf Hne] _ IH]; [done|].
  simpl. rewrite <- app_assoc, (read_message_frame q f) by done. simpl. by rewrite IH.
Qed.

(** No input makes the fuzz target fail: all its assertions on the
    framer and the decoder hold for every byte string. *)
Theorem fuzz_target_never_fails data : fuzz_tcp_dns_response data = true.
Proof.
  unfold fuzz_tcp_dns_response. apply andb_true_intro. split.
  - generalize (take (Z.to_nat (Z.min (len data) (U16_MAX + 16))) data). intros q.
    unfold fuzz_outbound. rewrite frame_eq. case_decide as Hq; [|apply Z.ltb_lt; lia].
    rewrite len_app, (proj2 (Z.leb_le _ _)), (proj2 (Z.eqb_eq _ _)) by (done || lia). simpl.
    rewrite bool_decide_true, andb_true_r by done. apply Z.eqb_eq.
    destruct (decide (len q = 0)) as [->|Hne]; [done|].
    pose proof (len_nonneg q). rewrite decode_to_be_bytes by lia.
    unfold as_u16. apply Z.mod_small. unfold U16_MAX in Hq. lia.
  - unfold fuzz_inbound. case_match; [done|]. bool_to_prop.
    destruct data as [|a [|b body]]; [unfold len in *; simpl in *; lia..|].
    unfold decode_tcp_dns_len. pose proof (from_be_bytes_range a b). pose proof (len_nonneg body).
    destruct (from_be_bytes a b =? 0) eqn:Hz; bool_to_prop.
    + apply decode_zero_iff in Hz as [-> ->]. done.
    + lia.
Qed.

Lemma framing_roundtrip_witness :
  let qs := [[Byte.x01; Byte.x02]; [Byte.xff]] in
  let fs := [[Byte.x00; Byte.x02; Byte.x01; Byte.x02]; [Byte.x00; Byte.x01; Byte.xff]] in
  read_messages (length qs) (concat fs ++ [Byte.x41]) = Some (qs, [Byte.x41]).
Proof.
  apply framing_roundtrip. repeat constructor; done.
Defined.
