(* ===== verification/Query.v ===== *)
(** * One-shot queries (src/dgram.rs)

    DNS over TCP on a task ([query_tcp_dns_async]) and on a blocking thread
    ([query_tcp_dns_sync]), UDP on a blocking thread ([query_udp_sync] and the
    long-lived [VclUdpSyncSocket]), and [probe_local_source].  An elapsed time
    in a log line is read when the line is formatted, so the call holds the
    instant it is counted from. *)

From S2P Require Import Prelude Net Errors Ffi World Sim Session App Reactor Ownership Stream Dgram Framing.

Record VclUdpSyncSocket : Set := mkUdpSync { us_handle : Z }.

Section Query.
Context `{E : Env}.

(** [s.parse().unwrap()] at type [IpAddr]. *)
Definition parse_ip_unwrap (s : string) : M IpAddr :=
  match parse_ip_addr s with Some ip => mret ip | None => panic end.

(** ** DNS over TCP on a task *)

(** [std::array::from_fn(|_| rng.gen_range(LOW..=HIGH))]. *)
Fixpoint gen_ports (n : nat) : M (list Z) :=
  match n with
  | O => mret []
  | S n' => p ← do_call (gen_range LOW HIGH); ps ← gen_ports n'; mret (p :: ps)
  end.

(** [for port in ports]. *)
Fixpoint connect_attempts (fuel : nat) (peer : SocketAddr) (ip : IpAddr) (timeout started : Z)
    (ports : list Z) (last_err : option VclError) : M (Result VclStream) :=
  match ports with
  | [] => mret (Err (unwrap_or_else last_err (Api (Lit "connect retries exhausted") (-1))))
  | port :: ports' =>
      let src := Sock.new ip port in
      now ← do_call instant_now;
      let remaining := Z.max 0 (timeout - duration_since now started) in
      if remaining =? 0 then mret (Err Timeout)
      else
        r ← connect_async fuel peer (Some src) remaining;
        match r with
        | Ok s => mret (Ok s)
        | Err e => connect_attempts fuel peer ip timeout started ports' (Some e)
        end
  end.

Definition query_connect (fuel : nat) (peer : SocketAddr) (source : option IpAddr) (timeout : Z)
    : M (Result VclStream) :=
  started ← do_call instant_now;
  match source with
  | Some ip =>
      if xorb (ip_is_ipv4 ip) (Sock.is_ipv4 peer) then
        mret (Err (Api (Fmt "source IP family ({}) doesn't match peer ({})" [AIp ip; AAddr peer]) (-1)))
      else
        ports ← gen_ports 8;
        connect_attempts fuel peer ip timeout started ports None
  | None => connect_async fuel peer None timeout
  end.

(** The buffer of a [read_exact] that succeeded. *)
Definition filled (r : Result unit * list u8) : Result (list u8) :=
  match r with (Ok _, buf) => Ok buf | (Err e, _) => Err e end.

Definition decode_lenbuf (lenbuf : list u8) : M (Result Z) :=
  match lenbuf with [hi; lo] => mret (decode_tcp_dns_len hi lo) | _ => panic end.

Definition dns_exchange (fuel : nat) (stream : VclStream) (query : list u8) : M (Result (list u8)) :=
  framed ←? mret (frame_tcp_dns_query query);
  _ ←? write_all fuel stream framed;
  lenbuf ←? (r ← read_exact fuel stream [Byte.x00; Byte.x00]; mret (filled r));
  n ←? decode_lenbuf lenbuf;
  r ← read_exact fuel stream (replicate (Z.to_nat n) Byte.x00);
  mret (filled r).

(** The stream is dropped on every path after it was opened. *)
Definition query_tcp_dns_async (fuel : nat) (peer : SocketAddr) (source : option IpAddr)
    (query : list u8) (timeout : Z) : M (Result (list u8)) :=
  stream ←? query_connect fuel peer source timeout;
  finally (dns_exchange fuel stream query) (stream_drop stream).

(** ** Blocking queries *)

(** [for _ in 0..8 { if handle.bind(..).is_ok() { bound = true; break } }]:
    [n] attempts left; the answer is [bound]. *)
Fixpoint bind_retry (handle : Z) (ip : IpAddr) (n : nat) : M bool :=
  match n with
  | O => mret false
  | S n' =>
      port ← do_call (gen_range LOW HIGH);
      r ← SessionHandle.bind handle (Sock.new ip port);
      if is_ok r then mret true else bind_retry handle ip n'
  end.

Definition sync_source_bind (handle : Z) (peer : SocketAddr) (source : option IpAddr) : M (Result unit) :=
  match source with
  | Some ip =>
      if xorb (ip_is_ipv4 ip) (Sock.is_ipv4 peer) then
        mret (Err (Api (Fmt "source IP family ({}) doesn't match peer ({})" [AIp ip; AAddr peer]) (-1)))
      else
        bound ← bind_retry handle ip 8;
        if (bound : bool) then mret (Ok tt)
        else mret (Err (Api (Lit "ephemeral source bind exhausted") (-1)))
  | None => mret (Ok tt)
  end.

(** The closure [drain_mq(5.0)]. *)
Definition drain_mq (vep : Z) : M unit :=
  let events := replicate 4 zero_event in
  _ ← do_call (vppcom_epoll_wait vep events (len events) 5); mret tt.

(** State: the bytes sent, the polls that found the session not writable, the
    last of their errors. *)
Definition sync_write_round (handle vep deadline connect_t0 : Z) (peer : SocketAddr) (framed : list u8)
    (st : Z * Z * option VclError) : M ((Z * Z * option VclError) + Result unit) :=
  let '(sent, write_polls, last_write_err) := st in
  if sent <? len framed then
    r ← SessionHandle.write handle (drop (Z.to_nat sent) framed);
    match r with
    | Ok n =>
        _ ← (if 0 <? write_polls then
               do_call (tracing Debug (Fmt "vcl_tcp: write succeeded after polling (handshake completed)"
                                         [AAddr peer; AInt write_polls; AElapsed connect_t0]))
             else mret tt);
        mret (inl (sent + n, write_polls, last_write_err))
    | Err ((WouldBlock | NotConnected) as e) =>
        let last_write_err := Some e in
        let write_polls := as_u64 (write_polls + 1) in
        now ← do_call instant_now;
        if deadline <=? now then
          _ ← do_call (tracing Info (Fmt "vcl_tcp: TIMEOUT waiting for session to become writable (handshake never completed)"
                                       [AAddr peer; AInt write_polls; AElapsed connect_t0; AOption last_write_err]));
          mret (inr (Err Timeout))
        else _ ← drain_mq vep; mret (inl (sent, write_polls, last_write_err))
    | Err e =>
        _ ← do_call (tracing Info (Fmt "vcl_tcp: write error: {:?}" [AAddr peer; AErr e]));
        mret (inr (Err e))
    end
  else mret (inr (Ok tt)).

Definition sync_send (fuel : nat) (handle vep deadline connect_t0 : Z) (peer : SocketAddr) (framed : list u8)
    : M (Result unit) :=
  loop fuel (sync_write_round handle vep deadline connect_t0 peer framed) (0, 0, None).

(** The loops that read the length prefix and the body differ in the line they
    log when the deadline has passed, a function of the bytes read and of the
    polls that found nothing. *)
Definition sync_read_round (timeout_line : Z -> Z -> Message) (handle vep deadline : Z) (st : Z * Z * list u8)
    : M ((Z * Z * list u8) + Result (list u8)) :=
  let '(got, read_polls, buf) := st in
  if got <? len buf then
    now ← do_call instant_now;
    if deadline <=? now then
      _ ← do_call (tracing Info (timeout_line got read_polls)); mret (inr (Err Timeout))
    else
      '(r, sub) ← SessionHandle.read handle (drop (Z.to_nat got) buf);
      let buf := take (Z.to_nat got) buf ++ sub in
      match r with
      | Ok n => if n =? 0 then mret (inr (Err Closed)) else mret (inl (got + n, read_polls, buf))
      | Err WouldBlock | Err NotConnected =>
          let read_polls := as_u64 (read_polls + 1) in
          _ ← drain_mq vep; mret (inl (got, read_polls, buf))
      | Err e => mret (inr (Err e))
      end
  else mret (inr (Ok buf)).

Definition sync_read (fuel : nat) (timeout_line : Z -> Z -> Message) (handle vep deadline : Z) (buf : list u8)
    : M (Result (list u8)) :=
  loop fuel (sync_read_round timeout_line handle vep deadline) (0, 0, buf).

Definition sync_read_prefix (fuel : nat) (handle vep deadline connect_t0 : Z) (peer : SocketAddr) (lenbuf : list u8)
    : M (Result (list u8)) :=
  read_t0 ← do_call instant_now;
  sync_read fuel (fun _ read_polls =>
      Fmt "vcl_tcp: TIMEOUT waiting for length prefix (write succeeded; no response received)"
        [AAddr peer; AInt read_polls; AElapsed read_t0; AElapsed connect_t0])
    handle vep deadline lenbuf.

Definition sync_read_body (fuel : nat) (handle vep deadline connect_t0 : Z) (peer : SocketAddr) (resp : list u8)
    : M (Result (list u8)) :=
  resp ←? sync_read fuel (fun filled _ =>
      Fmt "vcl_tcp: TIMEOUT mid-body" [AAddr peer; ABool true; AInt (len resp); AInt filled])
    handle vep deadline resp;
  _ ← do_call (tracing Debug (Fmt "vcl_tcp: query complete" [AAddr peer; AInt (len resp); AElapsed connect_t0]));
  mret (Ok resp).

(** From the connect to the answer. *)
Definition sync_exchange (fuel : nat) (handle vep : Z) (peer : SocketAddr) (query : list u8) (timeout : Z)
    : M (Result (list u8)) :=
  connect_t0 ← do_call instant_now;
  connect_result ← SessionHandle.connect handle peer;
  _ ← do_call (tracing Trace (Fmt "vcl_tcp: connect returned: {:?}"
                                [AAddr peer; AElapsed connect_t0; AResult connect_result]));
  match connect_result with
  | Ok _ | Err WouldBlock =>
      now ← do_call instant_now;
      deadline ← instant_add now timeout;
      framed ←? mret (frame_tcp_dns_query query);
      _ ←? sync_send fuel handle vep deadline connect_t0 peer framed;
      lenbuf ←? sync_read_prefix fuel handle vep deadline connect_t0 peer [Byte.x00; Byte.x00];
      n ←? decode_lenbuf lenbuf;
      sync_read_body fuel handle vep deadline connect_t0 peer (replicate (Z.to_nat n) Byte.x00)
  | Err e => mret (Err e)
  end.

(** [impl Drop for EpollGuard]. *)
Definition epoll_guard_drop (vep : Z) : M unit :=
  _ ← do_call (vppcom_session_close vep); mret tt.

Definition query_tcp_dns_sync (fuel : nat) (peer : SocketAddr) (source : option IpAddr)
    (query : list u8) (timeout : Z) : M (Result (list u8)) :=
  _ ← register_worker_thread;
  handle ←? SessionHandle.create_tcp true;
  finally (
    _ ←? sync_source_bind handle peer source;
    v ← do_call vppcom_epoll_create;
    if v <? 0 then mret (Err (Api (Fmt "vppcom_epoll_create: {}" [AInt v]) v))
    else
      let vep := as_u32 v in
      rv ← do_call (vppcom_epoll_ctl vep EPOLL_CTL_ADD handle
                      (Some (mkEvent (Z.lor (Z.lor EPOLLIN EPOLLOUT) EPOLLET) handle)));
      if rv <? 0 then
        _ ← do_call (vppcom_session_close vep);
        mret (Err (Api (Fmt "vppcom_epoll_ctl ADD: {}" [AInt rv]) rv))
      else
        finally (sync_exchange fuel handle vep peer query timeout) (epoll_guard_drop vep))
  (SessionHandle.drop handle).

Definition udp_bind_ip (peer : SocketAddr) (source : option IpAddr) : M (Result IpAddr) :=
  match source with
  | Some ip =>
      if xorb (ip_is_ipv4 ip) (Sock.is_ipv4 peer) then
        mret (Err (Api (Fmt "source IP family ({}) doesn't match peer family ({})" [AIp ip; AAddr peer]) (-1)))
      else mret (Ok ip)
  | None =>
      ip ← parse_ip_unwrap (if Sock.is_ipv4 peer then "0.0.0.0" else "::"); mret (Ok ip)
  end.

Definition udp_poll_round (handle deadline : Z) (buf : list u8)
    : M (list u8 + Result (list u8 * SocketAddr)) :=
  '(r, buf) ← SessionHandle.recvfrom handle buf;
  match r with
  | Ok (n, from) => mret (inr (Ok (take (Z.to_nat n) buf, from)))
  | Err WouldBlock =>
      now ← do_call instant_now;
      if deadline <=? now then mret (inr (Err Timeout))
      else _ ← do_call (thread_sleep (millis 5)); mret (inl buf)
  | Err e => mret (inr (Err e))
  end.

Definition udp_buf : list u8 := replicate 4096 Byte.x00.

Definition query_udp_sync (fuel : nat) (peer : SocketAddr) (source : option IpAddr)
    (query : list u8) (timeout : Z) : M (Result (list u8 * SocketAddr)) :=
  _ ← register_worker_thread;
  handle ←? SessionHandle.create_udp true;
  finally (
    bind_ip ←? udp_bind_ip peer source;
    bound ← bind_retry handle bind_ip 8;
    if negb bound then mret (Err (Api (Lit "ephemeral bind exhausted") (-1)))
    else
      _ ←? SessionHandle.listen handle 0;
      _ ←? SessionHandle.sendto handle query peer;
      now ← do_call instant_now;
      deadline ← instant_add now timeout;
      loop fuel (udp_poll_round handle deadline) udp_buf)
  (SessionHandle.drop handle).

Definition probe_local_source (peer : SocketAddr) : M (Result SocketAddr) :=
  _ ← register_worker_thread;
  handle ←? SessionHandle.create_udp false;
  finally (
    bind_ip ← parse_ip_unwrap (if Sock.is_ipv4 peer then "0.0.0.0" else "::");
    bound ← bind_retry handle bind_ip 8;
    if negb bound then mret (Err (Api (Lit "probe: ephemeral bind exhausted") (-1)))
    else
      _ ←? SessionHandle.connect handle peer;
      SessionHandle.local_addr handle)
  (SessionHandle.drop handle).

(** ** The long-lived UDP socket *)

Definition udp_sync_ip (source : option IpAddr) (is_v6 : bool) : M (Result IpAddr) :=
  match source, is_v6 with
  | Some (V4 o), false => mret (Ok (V4 o))
  | Some (V6 o), true => mret (Ok (V6 o))
  | Some ip, _ =>
      mret (Err (Api (Fmt "source {} family doesn't match is_v6={}" [AIp ip; ABool is_v6]) (-1)))
  | None, false => ip ← parse_ip_unwrap "0.0.0.0"; mret (Ok ip)
  | None, true => ip ← parse_ip_unwrap "::"; mret (Ok ip)
  end.

Definition udp_sync_bind (source : option IpAddr) (is_v6 : bool) : M (Result VclUdpSyncSocket) :=
  _ ← register_worker_thread;
  handle ←? SessionHandle.create_udp true;
  unless_ok (
    bind_ip ←? udp_sync_ip source is_v6;
    bound ← bind_retry handle bind_ip 8;
    if negb bound then mret (Err (Api (Lit "ephemeral bind exhausted") (-1)))
    else
      _ ←? SessionHandle.listen handle 0;
      mret (Ok (mkUdpSync handle)))
  (SessionHandle.drop handle).

Definition udp_sync_local_addr (s : VclUdpSyncSocket) : M (Result SocketAddr) :=
  SessionHandle.local_addr (us_handle s).

(** A datagram from another host goes round the loop again at once. *)
Definition udp_sync_round (handle : Z) (peer : SocketAddr) (deadline : Z) (buf : list u8)
    : M (list u8 + Result (list u8 * SocketAddr)) :=
  '(r, buf) ← SessionHandle.recvfrom handle buf;
  match r with
  | Ok (n, from) =>
      if negb (bool_decide (Sock.ip from = Sock.ip peer)) then mret (inl buf)
      else if n <=? len buf then mret (inr (Ok (take (Z.to_nat n) buf, from)))
      else panic
  | Err WouldBlock =>
      now ← do_call instant_now;
      if deadline <=? now then mret (inr (Err Timeout))
      else _ ← do_call (thread_sleep (millis 5)); mret (inl buf)
  | Err e => mret (inr (Err e))
  end.

Definition udp_sync_query (fuel : nat) (s : VclUdpSyncSocket) (peer : SocketAddr)
    (query : list u8) (timeout : Z) : M (Result (list u8 * SocketAddr)) :=
  _ ←? SessionHandle.sendto (us_handle s) query peer;
  now ← do_call instant_now;
  deadline ← instant_add now timeout;
  loop fuel (udp_sync_round (us_handle s) peer deadline) udp_buf.

(** The socket's only field closes the session when it is dropped. *)
Definition udp_sync_drop (s : VclUdpSyncSocket) : M unit := SessionHandle.drop (us_handle s).
End Query.

(** ** Ownership *)

Section QueryOwnership.
Context `{E : Env}.

Lemma quietly_read_exact fuel s buf : quietly (read_exact fuel s buf).
Proof. unfold read_exact, read_exact_round, stream_read, read_round. only_go. Qed.

Lemma quietly_write_all fuel s buf : quietly (write_all fuel s buf).
Proof. unfold write_all, write_all_round. only_go. Qed.

#[local] Hint Resolve quietly_read_exact quietly_write_all : pool.

Lemma quietly_dns_exchange fuel s query : quietly (dns_exchange fuel s query).
Proof. unfold dns_exchange, decode_lenbuf. only_go. Qed.

Lemma quietly_gen_ports n : quietly (gen_ports n).
Proof. induction n as [|n IH]; cbn [gen_ports]; only_go. Qed.

Lemma quietly_bind_retry h ip n : quietly (bind_retry h ip n).
Proof. induction n as [|n IH]; cbn [bind_retry]; only_go. Qed.

Lemma quietly_sync_exchange fuel h v peer query timeout : quietly (sync_exchange fuel h v peer query timeout).
Proof.
  unfold sync_exchange, sync_send, sync_write_round, sync_read_prefix, sync_read_body, sync_read, sync_read_round,
    drain_mq, decode_lenbuf. only_go.
Qed.

Lemma quietly_parse_ip s : quietly (parse_ip_unwrap s).
Proof. unfold parse_ip_unwrap. only_go. Qed.

#[local] Hint Resolve quietly_gen_ports quietly_bind_retry quietly_parse_ip : pool.

Lemma quietly_source_bind h peer source : quietly (sync_source_bind h peer source).
Proof. unfold sync_source_bind. only_go. Qed.

Lemma quietly_udp_bind_ip peer source : quietly (udp_bind_ip peer source).
Proof. unfold udp_bind_ip. only_go. Qed.

Lemma quietly_udp_sync_ip source v6 : quietly (udp_sync_ip source v6).
Proof. unfold udp_sync_ip. only_go. Qed.

Lemma quietly_udp_poll fuel h d buf : quietly (loop fuel (udp_poll_round h d) buf).
Proof. unfold udp_poll_round. only_go. Qed.

#[local] Hint Resolve quietly_source_bind quietly_udp_bind_ip quietly_udp_sync_ip quietly_udp_poll : pool.

Lemma connect_attempts_accounts fuel peer ip timeout started ports last_err hs :
  accounts (fun s => st_handle s :: hs) hs hs (connect_attempts fuel peer ip timeout started ports last_err).
Proof.
  revert last_err. induction ports as [|p ports IH]; intros last_err; cbn [connect_attempts].
  - apply accounts_err.
  - quiet_step. case_match; [apply accounts_err|].
    eapply accounts_bind_result; [apply connect_async_accounts| |intros e; apply IH|done].
    intros s. apply (accounts_ok (fun s => st_handle s :: hs)).
Qed.

Lemma query_connect_accounts fuel peer source timeout hs :
  accounts (fun s => st_handle s :: hs) hs hs (query_connect fuel peer source timeout).
Proof.
  unfold query_connect. quiet_step. destruct source as [ip|]; [|apply connect_async_accounts].
  case_match; [apply accounts_err|]. quiet_step. apply connect_attempts_accounts.
Qed.

Lemma query_tcp_async_accounts fuel peer source query timeout hs :
  accounts (fun _ => hs) hs hs (query_tcp_dns_async fuel peer source query timeout).
Proof.
  eapply accounts_try_bind; [apply query_connect_accounts|]. intros s.
  eapply accounts_finally; [apply stream_drop_closes|]. apply accounts_quiet, quietly_dns_exchange.
Qed.

(** The epoll set of [query_tcp_dns_sync], under the session [h]. *)
Lemma epoll_scope_accounts {A} h (m : Z -> M (Result A)) e1 e2 hs :
  (forall v, quietly (m v)) ->
  accounts (fun _ => hs) hs hs (
    v ← do_call vppcom_epoll_create;
    if v <? 0 then mret (Err (e1 v))
    else
      rv ← do_call (vppcom_epoll_ctl (as_u32 v) EPOLL_CTL_ADD h
                      (Some (mkEvent (Z.lor (Z.lor EPOLLIN EPOLLOUT) EPOLLET) h)));
      if rv <? 0 then _ ← do_call (vppcom_session_close (as_u32 v)); mret (Err (e2 rv))
      else finally (m (as_u32 v)) (epoll_guard_drop (as_u32 v))).
Proof.
  intros Hm t. apply emits_bind. call_with any_answer. intros v _. cbn [ret] in v.
  destruct (v <? 0) eqn:Hv; [apply emits_ret; simpl; unfold pool_step; simpl; by rewrite Hv|].
  apply emits_bind. call_with any_answer. intros rv _. cbn [ret] in rv. destruct (rv <? 0).
  - apply emits_bind. call_with any_answer. intros rc _. apply emits_ret.
    simpl. unfold pool_step. simpl. rewrite Hv. simpl. by rewrite Z.eqb_refl.
  - assert (accounts (fun _ => hs) (as_u32 v :: hs) hs (finally (m (as_u32 v)) (epoll_guard_drop (as_u32 v)))) as Hf.
    { eapply accounts_finally; [apply closes_drop|]. by apply accounts_quiet. }
    eapply emits_mono; [apply Hf|].
    intros [[]| |] l Hl; simpl in *; unfold pool_step; simpl; by rewrite Hv.
Qed.

Lemma query_tcp_sync_accounts fuel peer source query timeout hs :
  accounts (fun _ => hs) hs hs (query_tcp_dns_sync fuel peer source query timeout).
Proof.
  unfold query_tcp_dns_sync. quiet_step. eapply accounts_try_bind; [apply accounts_create_tcp|].
  intros h. eapply accounts_finally; [apply closes_drop|]. quiet_step.
  apply (epoll_scope_accounts h (fun v => sync_exchange fuel h v peer query timeout)
    (fun v => Api (Fmt "vppcom_epoll_create: {}" [AInt v]) v)
    (fun rv => Api (Fmt "vppcom_epoll_ctl ADD: {}" [AInt rv]) rv)).
  intros v. apply quietly_sync_exchange.
Qed.

Lemma query_udp_sync_accounts fuel peer source query timeout hs :
  accounts (fun _ => hs) hs hs (query_udp_sync fuel peer source query timeout).
Proof.
  unfold query_udp_sync. quiet_step. eapply accounts_try_bind; [apply accounts_create_udp|].
  intros h. eapply accounts_finally; [apply closes_drop|]. do 2 quiet_step.
  case_match; [apply accounts_err|]. do 4 quiet_step. apply accounts_quiet, quietly_udp_poll.
Qed.

Lemma probe_accounts peer hs : accounts (fun _ => hs) hs hs (probe_local_source peer).
Proof.
  unfold probe_local_source. quiet_step. eapply accounts_try_bind; [apply accounts_create_udp|].
  intros h. eapply accounts_finally; [apply closes_drop|]. do 2 quiet_step.
  case_match; [apply accounts_err|]. quiet_step. apply accounts_quiet, quietly_local_addr.
Qed.

Lemma udp_sync_bind_accounts source v6 hs :
  accounts (fun s => us_handle s :: hs) hs hs (udp_sync_bind source v6).
Proof.
  unfold udp_sync_bind. quiet_step. eapply accounts_try_bind; [apply accounts_create_udp|].
  intros h. apply accounts_unless_ok. do 2 quiet_step. case_match; [apply accounts_err|]. quiet_step.
  apply (accounts_ok (fun s => us_handle s :: hs) _ (mkUdpSync h)).
Qed.

(** C8. None of the one-shot functions leaks: the two TCP queries, the UDP
    query and the source probe close every session and epoll set they open,
    exactly once and whatever the outcome, success, error, panic or a future
    dropped half-way; binding the long-lived UDP socket leaves open its own session on success and
    nothing on failure. *)
Theorem queries_leak_nothing fuel peer source query timeout v6 hs t :
  emits t (query_tcp_dns_async fuel peer source query timeout) (owned_after (fun _ => hs) hs hs) /\
  emits t (query_tcp_dns_sync fuel peer source query timeout) (owned_after (fun _ => hs) hs hs) /\
  emits t (query_udp_sync fuel peer source query timeout) (owned_after (fun _ => hs) hs hs) /\
  emits t (probe_local_source peer) (owned_after (fun _ => hs) hs hs) /\
  emits t (udp_sync_bind source v6) (owned_after (fun s => us_handle s :: hs) hs hs).
Proof.
  split_and!; [apply query_tcp_async_accounts|apply query_tcp_sync_accounts|
    apply query_udp_sync_accounts|apply probe_accounts|apply udp_sync_bind_accounts].
Qed.
End QueryOwnership.

(** ** The DNS exchange

    What the exchange needs of a transport on session [h], and what the task
    version and the blocking version both provide. *)

(** [recv] fills the buffer it is given from session [h], or fails. *)
Definition receives `{Env} (h : Z) (recv : list u8 -> M (Result (list u8))) : Prop :=
  forall t buf, emits t (recv buf) (fun o l =>
    written h l = [] /\
    match o with Done (Ok b) => length b = length buf /\ received h l = b | _ => True end).

Class Transport `{Env} (h : Z) (send : list u8 -> M (Result unit))
    (recv_prefix recv_body : list u8 -> M (Result (list u8))) : Prop := {
  transport_send : forall t buf, emits t (send buf) (fun o l =>
    received h l = [] /\ match o with Done (Ok _) => written h l = buf | _ => True end);
  transport_prefix : receives h recv_prefix;
  transport_body : receives h recv_body
}.

(** Send the framed query, read the prefix, read the body. *)
Definition exchange `{Env} (send : list u8 -> M (Result unit))
    (recv_prefix recv_body : list u8 -> M (Result (list u8))) (query : list u8) : M (Result (list u8)) :=
  framed ←? mret (frame_tcp_dns_query query);
  _ ←? send framed;
  lenbuf ←? recv_prefix [Byte.x00; Byte.x00];
  n ←? decode_lenbuf lenbuf;
  recv_body (replicate (Z.to_nat n) Byte.x00).

(** A completed exchange on [h]: the bytes written are the framed query, the
    bytes read are exactly one framed message, and its body is the answer. *)
Definition exchanged (h : Z) (query resp : list u8) (l : trace) : Prop :=
  frame_tcp_dns_query query = Ok (written h l) /\ read_message (received h l) = Some (resp, []).

Lemma exchange_emits `{E : Env} h send recv1 recv2 `{!Transport h send recv1 recv2} t query :
  emits t (exchange send recv1 recv2 query) (fun o l =>
    match o with Done (Ok resp) => exchanged h query resp l | _ => True end).
Proof.
  unfold exchange. apply emits_try_bind, emits_ret.
  destruct (frame_tcp_dns_query query) as [framed|e] eqn:Hframe; [|done].
  apply emits_try_bind. eapply emits_mono; [apply transport_send|].
  intros [[[]|e]| |] lw [Hrw Hw]; try done.
  apply emits_try_bind. eapply emits_mono; [apply transport_prefix|].
  intros [[lenbuf|e]| |] lp [Hwp Hp]; try done. destruct Hp as [Hlen Hp].
  destruct lenbuf as [|hi [|lo [|]]]; try done.
  apply emits_try_bind, emits_ret. destruct (decode_tcp_dns_len hi lo) as [n|e] eqn:Hdec; [|done].
  eapply emits_mono; [apply transport_body|]. intros [[resp|e]| |] lb [Hwb Hb]; try done.
  destruct Hb as [Hlb Hb]. rewrite length_replicate in Hlb.
  assert (0 <= n) as Hn.
  { revert Hdec. unfold decode_tcp_dns_len. pose proof (from_be_bytes_range hi lo).
    case_match; [done|]. intros [= <-]. lia. }
  unfold exchanged. simpl. rewrite !written_app, !received_app, Hrw, Hw, Hwp, Hp, Hwb, Hb, !app_nil_r.
  split; [done|]. simpl. rewrite Hdec, (proj2 (Z.leb_le _ _)) by (unfold len; lia).
  by rewrite take_ge, drop_ge by lia.
Qed.

(** Calls that move no bytes in one direction. *)
Definition no_read (e : event) : Prop := forall h, received_by h e = [].
Definition no_write (e : event) : Prop := forall h, written_by h e = [].

Lemma no_read_received h l : Forall no_read l -> received h l = [].
Proof. induction 1 as [|e l He _ IH]; [done|]. unfold received in *. cbn [mbind list_bind]. by rewrite He, IH. Qed.

Lemma no_write_written h l : Forall no_write l -> written h l = [].
Proof. induction 1 as [|e l He _ IH]; [done|]. unfold written in *. cbn [mbind list_bind]. by rewrite He, IH. Qed.

Lemma quiet_event_moves_nothing e : quiet_event e = true -> no_read e /\ no_write e.
Proof. destruct e as [t [] r]; done. Qed.

Section AsyncTransport.
Context `{E : Env} `{!EnvSat io_ok}.

Lemma write_all_no_read fuel s buf : only no_read (write_all fuel s buf).
Proof.
  unfold write_all, write_all_round, SessionHandle.write.
  assert (forall h d, only no_read (wait_writable fuel h d)).
  { intros h d. apply only_wait; [apply _|]. intros e He. by apply quiet_event_moves_nothing. }
  only_go.
Qed.

Lemma read_exact_no_write fuel s buf : only no_write (read_exact fuel s buf).
Proof.
  unfold read_exact, read_exact_round, stream_read, read_round, SessionHandle.read.
  assert (forall h d, only no_write (wait_readable fuel h d)).
  { intros h d. apply only_wait; [apply _|]. intros e He. by apply quiet_event_moves_nothing. }
  only_go.
Qed.

Lemma read_exact_receives fuel s :
  receives (st_handle s) (fun buf => r ← read_exact fuel s buf; mret (filled r)).
Proof.
  intros t buf. apply emits_bind.
  eapply emits_mono; [apply emits_and; [apply read_exact_no_write|by apply read_exact_emits]|].
  intros [[[[]|e] b]| |] l [Hw [_ Ho]]; apply no_write_written with (h := st_handle s) in Hw; try done;
    apply emits_ret; rewrite app_nil_r; destruct_conj; done.
Qed.

#[global] Instance async_transport fuel s :
  Transport (st_handle s) (write_all fuel s)
    (fun buf => r ← read_exact fuel s buf; mret (filled r))
    (fun buf => r ← read_exact fuel s buf; mret (filled r)).
Proof.
  split; [|apply read_exact_receives..]. intros t buf.
  eapply emits_mono; [apply emits_and; [apply write_all_no_read|by apply write_all_emits]|].
  intros o l [Hr Hw]. split; [by apply no_read_received|]. destruct o as [[]| |]; [by destruct Hw|done..].
Qed.
End AsyncTransport.

Section SyncTransport.
Context `{E : Env} `{!EnvSat io_ok}.

(** One read call, in the terms of Stream.v. *)
Lemma read_call_emits t h buf :
  emits t (SessionHandle.read h buf) (fun o l =>
    match o with
    | Done (Ok n, b) => n = 0 \/ read_post h buf (Done (Ok n, b)) l
    | Done (Err _, b) => pool_quiet l /\ received h l = [] /\ b = buf
    | _ => False
    end).
Proof.
  eapply emits_mono; [by apply (read_emits io_ok)|].
  intros o l (rc & data & [Hle Hlen] & -> & ->). simpl in Hle, Hlen.
  rewrite read_call_received.
  destruct (rc <? 0) eqn:Hneg; bool_to_prop.
  - assert (data = []) as -> by (apply nil_length_inv; unfold len in Hlen; lia).
    rewrite fill_nil, (proj2 (Z.leb_gt _ _)) by lia. done.
  - destruct (decide (rc = 0)) as [|Hnz]; [by left|right].
    assert (length data = Z.to_nat rc) as Hd by (unfold len in Hlen; lia).
    assert (length data <= length buf)%nat by (unfold len in Hle; lia).
    split; [done|]. rewrite read_call_received, (proj2 (Z.leb_le _ _)) by lia.
    split_and!; [lia|done|apply length_fill|by rewrite take_fill by lia|].
    rewrite <- Hd. by rewrite drop_fill by lia.
Qed.

Lemma sync_read_emits t fuel line h v d buf :
  emits t (sync_read fuel line h v d buf) (fun o l =>
    match o with Done (Ok b) => length b = length buf /\ received h l = b | _ => True end).
Proof.
  apply (emits_loop (fun st l => filled_to h buf (st.1.1, st.2) l)); [|intros [[pos polls] b] l Hfill|done].
  { pose proof (len_nonneg buf). unfold filled_to. by split_and!. }
  cbn [fst snd] in *. pose proof Hfill as (_ & Hpos & Hlen & Hr & _). unfold sync_read_round.
  destruct (pos <? len b) eqn:Hlt; bool_to_prop.
  2:{ apply emits_ret. rewrite app_nil_r. split; [done|].
      rewrite Hr. apply take_ge. unfold len in *. lia. }
  apply emits_bind. call_with any_answer. intros now _. cbn [ret] in now.
  destruct (d <=? now); [by emits_go|].
  apply emits_bind. eapply emits_mono; [apply read_call_emits|].
  apply (filled_to_stay _ _ _ _ [Ev t instant_now now]) in Hfill as Hfill1; [|done..].
  intros [[[n|e] sub]| |] k Hk; try done.
  - destruct Hk as [->|Hk]; [by apply emits_ret|].
    destruct (n =? 0); [by apply emits_ret|]. apply emits_ret. rewrite app_assoc, app_nil_r.
    by eapply filled_to_step.
  - destruct Hk as (Hpk & Hrk & ->). rewrite take_drop.
    apply (filled_to_stay _ _ _ _ k) in Hfill1; [|done..].
    destruct e; try by apply emits_ret.
    all: unfold drain_mq; apply emits_bind, emits_bind; call_with any_answer; intros r _.
    all: do 2 apply emits_ret; rewrite !app_assoc, !app_nil_r; by apply filled_to_stay.
Qed.

Lemma sync_write_emits t fuel h v d t0 peer buf :
  emits t (sync_send fuel h v d t0 peer buf) (fun o l =>
    match o with Done (Ok _) => written h l = buf | _ => True end).
Proof.
  apply (emits_loop (fun st l => written_to h buf st.1.1 l)); [|intros [[pos polls] err] l Hto|done].
  { pose proof (len_nonneg buf). by split_and!. }
  cbn [fst snd] in *. pose proof Hto as (_ & Hpos & Hw). unfold sync_write_round.
  destruct (pos <? len buf) eqn:Hlt; bool_to_prop.
  2:{ apply emits_ret. rewrite app_nil_r, Hw. apply take_ge. unfold len in *. lia. }
  apply emits_bind. eapply emits_mono; [by apply (write_emits io_ok)|].
  intros o k (rc & Hle & -> & ->). simpl in Hle. set (sub := drop (Z.to_nat pos) buf) in *.
  set (ev := Ev t (vppcom_session_write h sub (len sub)) rc). assert (pool_quiet [ev]) as Hpq by done.
  assert (written h [ev] = if 0 <=? rc then take (Z.to_nat rc) sub else []) as Hev by apply write_call_written.
  assert (forall n k, quiet k -> 0 <= n <= len sub -> written h [ev] = take (Z.to_nat n) sub ->
    written_to h buf (pos + n) (l ++ [ev] ++ k)) as Hmove.
  { intros n k Hq Hn Hwn. apply written_to_step; [done|auto using pool_quiet_app, quiet_pool|done|].
    by rewrite written_app, (quiet_written h k), app_nil_r. }
  destruct (rc <? 0) eqn:Hneg; bool_to_prop.
  2:{ rewrite (proj2 (Z.leb_le _ _)) in Hev by lia.
      destruct (0 <? polls); emits_go; rewrite ?app_nil_r; apply Hmove; try done; by repeat constructor. }
  rewrite (proj2 (Z.leb_gt _ _)) in Hev by lia. specialize (Hmove 0). rewrite Z.add_0_r in Hmove.
  destruct (from_rc rc); try by emits_go.
  all: apply emits_bind; call_with any_answer; intros now _; cbn [ret] in now.
  all: destruct (d <=? now); [by emits_go|].
  all: unfold drain_mq; apply emits_bind, emits_bind; call_with any_answer; intros r _.
  all: do 2 apply emits_ret; apply Hmove; [by repeat constructor| |done]; pose proof (len_nonneg sub); lia.
Qed.

Lemma sync_read_no_write fuel line h v d buf : only no_write (sync_read fuel line h v d buf).
Proof. unfold sync_read, sync_read_round, SessionHandle.read, drain_mq. only_go. Qed.

Lemma sync_read_receives fuel line h v d : receives h (sync_read fuel line h v d).
Proof.
  intros t buf. eapply emits_mono; [apply emits_and; [apply sync_read_no_write|apply sync_read_emits]|].
  intros o l [Hl Ho]. split; [by apply no_write_written|done].
Qed.

#[global] Instance sync_transport fuel h v d t0 peer :
  Transport h (sync_send fuel h v d t0 peer) (sync_read_prefix fuel h v d t0 peer) (sync_read_body fuel h v d t0 peer).
Proof.
  split; intros t buf.
  - assert (only no_read (sync_send fuel h v d t0 peer buf)) as Hr
      by (unfold sync_send, sync_write_round, SessionHandle.write, drain_mq; only_go).
    eapply emits_mono; [apply emits_and; [apply Hr|apply sync_write_emits]|].
    intros o l [Hl Ho]. split; [by apply no_read_received|done].
  - unfold sync_read_prefix. apply emits_bind. call_with any_answer. intros read_t0 _.
    apply sync_read_receives.
  - unfold sync_read_body. apply emits_try_bind. eapply emits_mono; [apply sync_read_receives|].
    intros [[b|e]| |] l [Hw Ho]; try done. emits_go.
    rewrite app_nil_r, written_app, received_app, Hw. simpl. by rewrite app_nil_r.
Qed.
End SyncTransport.

(** ** Whole queries *)

Definition dry (e : event) : Prop := no_read e /\ no_write e.

Section Answers.
Context `{E : Env} (t : Z).

(** The connect was accepted: it succeeded, or is in progress. *)
Definition connecting (rc : Z) : Prop := 0 <= rc \/ from_rc rc = WouldBlock.

(** An answer obtained by one exchange on a session connected to [peer]. *)
Definition answered (peer : SocketAddr) (query : list u8) (o : Outcome (Result (list u8))) (l : trace) : Prop :=
  match o with
  | Done (Ok resp) => exists h rc,
      Ev t (vppcom_session_connect h (fst (SessionHandle.endpoint_into_buf peer zero_ip_buf))) rc ∈ l /\
      connecting rc /\ exchanged h query resp l
  | _ => True
  end.

Lemma dry_moves_nothing h l : Forall dry l -> received h l = [] /\ written h l = [].
Proof.
  intros Hl. split; [apply no_read_received|apply no_write_written];
    (eapply Forall_impl; [exact Hl|]); by intros e [].
Qed.

Lemma answered_pad peer query o l1 l2 l3 :
  Forall dry l1 -> Forall dry l3 -> answered peer query o l2 -> answered peer query o (l1 ++ l2 ++ l3).
Proof.
  intros H1 H3. destruct o as [[resp|]| |]; [|done..]. intros (h & rc & Hc & Hrc & Hx). exists h, rc.
  split; [set_solver|]. split; [done|]. destruct (dry_moves_nothing h l1 H1) as [Hr1 Hw1].
  destruct (dry_moves_nothing h l3 H3) as [Hr3 Hw3]. unfold exchanged.
  by rewrite !received_app, !written_app, Hr1, Hw1, Hr3, Hw3, !app_nil_r.
Qed.

Lemma answered_prefix peer query o l1 l2 :
  Forall dry l1 -> answered peer query o l2 -> answered peer query o (l1 ++ l2).
Proof. intros H1 H2. rewrite <- (app_nil_r l2). by apply answered_pad. Qed.

Lemma answered_bind {A} peer query (m : M A) k :
  only dry m -> (forall a, emits t (k a) (answered peer query)) -> emits t (m ≫= k) (answered peer query).
Proof.
  intros Hm Hk. apply emits_bind. eapply emits_mono; [apply Hm|]. intros [a| |] l Hl; try done.
  eapply emits_mono; [apply Hk|]. intros o k'. by apply answered_prefix.
Qed.

Lemma answered_try_bind {A} peer query (m : M (Result A)) k :
  only dry m -> (forall a, emits t (k a) (answered peer query)) ->
  emits t (try_bind m k) (answered peer query).
Proof. intros Hm Hk. apply answered_bind; [done|]. intros [a|e]; [apply Hk|by apply emits_ret]. Qed.

Lemma answered_finally peer query m cleanup :
  emits t m (answered peer query) -> only dry cleanup -> emits t (finally m cleanup) (answered peer query).
Proof.
  intros Hm Hc. apply emits_finally. eapply emits_mono; [apply Hm|]. intros o l Hl.
  destruct o as [r| |]; [| |done]; (eapply emits_mono; [apply Hc|]); intros o' k Hk;
    apply (answered_pad _ _ _ []); done.
Qed.

Lemma dry_register_worker : only dry register_worker_thread.
Proof. unfold register_worker_thread. only_go. Qed.

Lemma dry_drop h : only dry (SessionHandle.drop h).
Proof. unfold SessionHandle.drop. only_go. Qed.

Lemma dry_bind_retry h ip n : only dry (bind_retry h ip n).
Proof. unfold SessionHandle.bind. induction n; cbn [bind_retry]; unfold SessionHandle.bind; only_go. Qed.

Lemma sync_exchange_emits `{!EnvSat io_ok} fuel h v peer query timeout :
  emits t (sync_exchange fuel h v peer query timeout) (answered peer query).
Proof.
  unfold sync_exchange. apply answered_bind; [only_go|]. intros t0.
  apply emits_bind. eapply emits_mono; [by apply (connect_emits any_answer)|].
  intros o ? (rc & _ & -> & ->). set (ev := Ev t (vppcom_session_connect _ _) rc).
  apply emits_bind. call_with any_answer. intros u _. set (ev2 := Ev t (tracing _ _) u).
  assert (connecting rc -> emits t (now ← do_call instant_now; deadline ← instant_add now timeout;
      exchange (sync_send fuel h v deadline t0 peer) (sync_read_prefix fuel h v deadline t0 peer)
        (sync_read_body fuel h v deadline t0 peer) query)
    (fun o l => answered peer query o ([ev] ++ [ev2] ++ l))) as Hx.
  { intros Hrc. apply emits_bind. call_with any_answer. intros now _. unfold instant_add. apply emits_bind.
    destruct (now + timeout <=? INSTANT_MAX); [|by apply emits_panic]. apply emits_ret.
    eapply emits_mono; [by apply exchange_emits, _|]. intros [[resp|e]| |] l Hl; try done.
    exists h, rc. split; [set_solver|]. split; [done|]. unfold exchanged in *.
    by rewrite !received_app, !written_app. }
  destruct (rc <? 0) eqn:Hneg; bool_to_prop; [|apply Hx; by left].
  destruct (from_rc rc) eqn:Hfrom; [..|apply Hx; by right|]; by apply emits_ret.
Qed.

Lemma query_tcp_sync_emits `{!EnvSat io_ok} fuel peer source query timeout :
  emits t (query_tcp_dns_sync fuel peer source query timeout) (answered peer query).
Proof.
  unfold query_tcp_dns_sync. apply answered_bind; [apply dry_register_worker|]. intros _.
  apply answered_try_bind; [unfold SessionHandle.create_tcp; only_go|]. intros h.
  apply answered_finally; [|apply dry_drop].
  apply answered_try_bind; [pose proof (dry_bind_retry h); unfold sync_source_bind; only_go|]. intros _.
  apply answered_bind; [only_go|]. intros v. case_match; [by apply emits_ret|].
  apply answered_bind; [only_go|]. intros rv. case_match.
  - apply answered_bind; [only_go|]. intros rc. by apply emits_ret.
  - apply answered_finally; [apply sync_exchange_emits|apply dry_drop].
Qed.

(** C1. A blocking TCP query that returns an answer wrote exactly the
    framed query, once, on a session whose connect to the peer was accepted, and the answer is
    the body of the one length-prefixed message it read, with no byte missing
    and none read beyond it. *)
Theorem tcp_sync_answer `{!EnvSat io_ok} fuel peer source query timeout :
  emits t (query_tcp_dns_sync fuel peer source query timeout) (answered peer query).
Proof. apply query_tcp_sync_emits. Qed.

Lemma dry_connect_async fuel addr source timeout : only dry (connect_async fuel addr source timeout).
Proof.
  pose proof dry_register_worker. pose proof dry_drop.
  assert (forall h d, only dry (wait_writable fuel h d)).
  { intros h d. apply only_wait; [apply _|]. apply quiet_event_moves_nothing. }
  unfold connect_async, SessionHandle.create_tcp, SessionHandle.set_nodelay, bind_source, register,
    SessionHandle.connect, SessionHandle.bind. only_go.
Qed.

(** A stream whose session was connected to [peer]. *)
Definition connected_to (peer : SocketAddr) (o : Outcome (Result VclStream)) (l : trace) : Prop :=
  Forall dry l /\
  match o with
  | Done (Ok s) => exists rc,
      Ev t (vppcom_session_connect (st_handle s) (fst (SessionHandle.endpoint_into_buf peer zero_ip_buf))) rc ∈ l /\
      connecting rc
  | _ => True
  end.

Lemma connected_to_prefix peer o l k : Forall dry l -> connected_to peer o k -> connected_to peer o (l ++ k).
Proof.
  intros Hl [Hk Ho]. split; [by apply Forall_app|]. destruct o as [[]| |]; try done.
  destruct Ho as (rc & Ho & Hrc). exists rc. set_solver.
Qed.

Lemma connect_async_connected fuel peer source timeout :
  emits t (connect_async fuel peer source timeout) (connected_to peer).
Proof.
  eapply emits_mono; [apply emits_and; [apply dry_connect_async|apply connect_async_calls]|].
  intros o l [Hd Ho]. split; [done|]. destruct o as [[s|]| |]; try done.
  destruct Ho as (l0 & v & [[[[rc1 rc2] rc3] rc4] rc5] & lw & -> & _ & _ & _ & _ & Hrc).
  exists rc5. split; [|done]. unfold connect_calls. rewrite !elem_of_app, !elem_of_cons. tauto.
Qed.

Lemma connect_attempts_connected fuel peer ip timeout started ports last_err :
  emits t (connect_attempts fuel peer ip timeout started ports last_err) (connected_to peer).
Proof.
  revert last_err. induction ports as [|p ports IH]; intros last_err; cbn [connect_attempts].
  { by apply emits_ret. }
  apply emits_bind. call_with any_answer. intros now _.
  set (clk := [Ev t instant_now now]). assert (Forall dry clk) as Hclk by (by repeat constructor).
  case_match; [apply emits_ret; by apply connected_to_prefix|].
  apply emits_bind. eapply emits_mono; [apply connect_async_connected|]. intros [[s|e]| |] l Hl.
  - apply emits_ret. rewrite app_nil_r. by apply connected_to_prefix.
  - eapply emits_mono; [apply IH|]. intros o k Hk.
    apply connected_to_prefix; [done|]. apply connected_to_prefix; [by destruct Hl|done].
  - by apply connected_to_prefix.
  - by apply connected_to_prefix.
Qed.

Lemma query_connect_connected fuel peer source timeout :
  emits t (query_connect fuel peer source timeout) (connected_to peer).
Proof.
  unfold query_connect. apply emits_bind. call_with any_answer. intros now _.
  set (clk := [Ev t instant_now now]). assert (Forall dry clk) as Hclk by (by repeat constructor).
  assert (forall (m : M (Result VclStream)), emits t m (connected_to peer) ->
    emits t m (fun o l => connected_to peer o (clk ++ l))) as Hpre.
  { intros m Hm. eapply emits_mono; [exact Hm|]. intros o l. by apply connected_to_prefix. }
  destruct source as [ip|]; [|apply Hpre, connect_async_connected].
  case_match; [by apply Hpre, emits_ret|]. apply Hpre, emits_bind.
  assert (forall n, only dry (gen_ports n)) as Hg by (induction n; cbn [gen_ports]; only_go).
  eapply emits_mono; [apply Hg|]. intros [ports| |] l Hl; [|by split..].
  eapply emits_mono; [apply connect_attempts_connected|]. intros o k. by apply connected_to_prefix.
Qed.

Lemma query_tcp_async_emits `{!EnvSat io_ok} fuel peer source query timeout :
  emits t (query_tcp_dns_async fuel peer source query timeout) (answered peer query).
Proof.
  unfold query_tcp_dns_async. apply emits_try_bind. eapply emits_mono; [apply query_connect_connected|].
  intros [[s|e]| |] l [Hd Ho]; try done. destruct Ho as (rc & Hc & Hrc).
  apply emits_finally. eapply emits_mono.
  { exact (exchange_emits (st_handle s) (write_all fuel s)
             (fun buf => r ← read_exact fuel s buf; mret (filled r))
             (fun buf => r ← read_exact fuel s buf; mret (filled r)) t query). }
  intros o k Hk. assert (only dry (stream_drop s)) as Hdrop.
  { pose proof dry_drop. unfold stream_drop, deregister. only_go. }
  destruct o as [r| |]; [| |done]; (eapply emits_mono; [apply Hdrop|]); intros o' k' Hk'; [|done].
  destruct r as [resp|e]; [|done]. exists (st_handle s), rc. split; [set_solver|]. split; [done|].
  destruct (dry_moves_nothing (st_handle s) l Hd) as [Hr1 Hw1].
  destruct (dry_moves_nothing (st_handle s) k' Hk') as [Hr3 Hw3]. unfold exchanged in *.
  by rewrite !received_app, !written_app, Hr1, Hw1, Hr3, Hw3, !app_nil_r.
Qed.

(** C2. A TCP query on a task gives the same guarantee: an answer is the body of
    the one message read on a session connected to the peer, over which exactly
    the framed query was written, whichever of the connect attempts
    succeeded. *)
Theorem tcp_async_answer `{!EnvSat io_ok} fuel peer source query timeout :
  emits t (query_tcp_dns_async fuel peer source query timeout) (answered peer query).
Proof. apply query_tcp_async_emits. Qed.
End Answers.

(** ** UDP queries *)

Section UdpAnswers.
Context `{E : Env} `{!EnvSat recv_ok} (t : Z).

Definition from_of (d : Z * list u8 * vppcom_endpt_t) : SocketAddr :=
  SessionHandle.addr_from_endpoint d.2 (ip_buf_after d.2 zero_ip_buf).

(** A datagram from a host other than [peer]. *)
Definition stray (peer : SocketAddr) (d : Z * list u8 * vppcom_endpt_t) : Prop :=
  Sock.ip (from_of d) <> Sock.ip peer.

(** The datagram [resp] from [from] was the last one taken off [h], after
    [before]. *)
Definition took (h : Z) (before : list (Z * list u8 * vppcom_endpt_t)) (resp : list u8)
    (from : SocketAddr) (l : trace) : Prop :=
  exists ep, datagrams h l = before ++ [(len resp, resp, ep)] /\ from = from_of (len resp, resp, ep).

Lemma one_datagram_took h buf buf' n from l :
  one_datagram h buf buf' n from l -> n <= len buf' /\ took h [] (take (Z.to_nat n) buf') from l.
Proof.
  intros (ep & Hd & Hn & Hlen & _ & ->). assert (len buf' = len buf) as Hl by (unfold len; lia).
  split; [lia|]. exists ep. rewrite Hd.
  assert (len (take (Z.to_nat n) buf') = n) as -> by (unfold len in *; rewrite length_take; lia).
  done.
Qed.

Lemma took_prefix h before resp from l k :
  took h [] resp from k -> datagrams h l = before -> took h before resp from (l ++ k).
Proof. intros (ep & Hk & ->) Hl. exists ep. by rewrite datagrams_app, Hl, Hk. Qed.

Definition passed (deadline : Z) (l : trace) : Prop := exists now, last (clocks l) = Some now /\ deadline <= now.

Lemma recvfrom_sends_nothing h h' buf : emits t (SessionHandle.recvfrom h buf) (fun _ l => sent h' l = [] /\ clocks l = []).
Proof.
  eapply emits_mono; [by apply (recvfrom_emits any_answer)|]. by intros o l (rc & data & ep & _ & -> & _).
Qed.

(** What the poll loop of [udp_sync_query] does. *)
Definition peer_post (h : Z) (peer : SocketAddr) (deadline : Z)
    (o : Outcome (Result (list u8 * SocketAddr))) (l : trace) : Prop :=
  sent h l = [] /\
  match o with
  | Done (Ok (resp, from)) => exists strays,
      took h strays resp from l /\ Forall (stray peer) strays /\ Sock.ip from = Sock.ip peer
  | Done (Err e) => Forall (stray peer) (datagrams h l) /\ e <> WouldBlock /\ (e = Timeout -> passed deadline l)
  | Unwound _ => False
  | OutOfFuel => Forall (stray peer) (datagrams h l)
  end.

Lemma udp_sync_loop_emits fuel h peer deadline buf :
  emits t (loop fuel (udp_sync_round h peer deadline) buf) (peer_post h peer deadline).
Proof.
  apply (emits_loop (fun _ l => sent h l = [] /\ Forall (stray peer) (datagrams h l))); [done| |done].
  clear buf. intros buf l [Hs Hf]. unfold udp_sync_round. apply emits_bind.
  eapply emits_mono; [apply emits_and; [apply recvfrom_datagram|
    apply emits_and; [apply recvfrom_never_timeout|apply (recvfrom_sends_nothing h h)]]|].
  intros [[[[n from]|e] buf']| |] k [Hk [Hto [Hsk Hck]]]; try done.
  - apply one_datagram_took in Hk as [Hn Hk].
    apply (took_prefix _ (datagrams h l) _ _ l) in Hk; [|done].
    assert (sent h (l ++ k) = []) as Hs' by (by rewrite sent_app, Hs, Hsk).
    case_bool_decide as Hip; cbn [negb].
    + rewrite (proj2 (Z.leb_le _ _)) by done. apply emits_ret. rewrite app_nil_r.
      split; [done|]. by exists (datagrams h l).
    + apply emits_ret. rewrite app_nil_r. split; [done|]. destruct Hk as (ep & Hd & ->).
      rewrite Hd. apply Forall_app. split; [done|by apply Forall_singleton].
  - destruct Hk as [Hk ->].
    assert (sent h (l ++ k) = [] /\ Forall (stray peer) (datagrams h (l ++ k))) as [Hs' Hf']
      by (by rewrite sent_app, datagrams_app, Hs, Hsk, Hk, !app_nil_r).
    destruct e; try (apply emits_ret; rewrite app_nil_r; by split_and!); [|by destruct (Hto buf)].
    apply emits_bind. call_with any_answer. intros now _. cbn [ret] in now.
    destruct (deadline <=? now) eqn:Hd; bool_to_prop.
    + apply emits_ret. rewrite app_assoc, app_nil_r. unfold peer_post, passed.
      rewrite sent_app, datagrams_app, clocks_app, Hs'. cbn. rewrite app_nil_r.
      split_and!; try done. intros _. exists now. by rewrite last_app.
    + apply emits_bind. call_with any_answer. intros r _. apply emits_ret.
      rewrite !app_assoc, app_nil_r, 2!sent_app, 2!datagrams_app, Hs'. cbn. by rewrite !app_nil_r.
Qed.

(** C27. A query on the long-lived UDP socket sends the query once, to the
    peer; an answer is a datagram whose sender is the peer's address, returned
    whole, and every datagram discarded before it came from another host; a
    timeout is reported only when the clock passed the deadline, with nothing
    from the peer discarded. *)
Theorem udp_sync_query_peer fuel s peer query timeout :
  let h := us_handle s in
  emits t (udp_sync_query fuel s peer query timeout) (fun o l =>
    let sent_once := sent h l = [(wire query, fst (SessionHandle.endpoint_into_buf peer zero_ip_buf))] in
    match o with
    | Done (Ok (resp, from)) => sent_once /\ exists strays,
        took h strays resp from l /\ Forall (stray peer) strays /\ Sock.ip from = Sock.ip peer
    | Done (Err Timeout) => sent_once /\ Forall (stray peer) (datagrams h l) /\
        exists t0 t1, head (clocks l) = Some t0 /\ last (clocks l) = Some t1 /\ t0 + timeout <= t1
    | _ => Forall (stray peer) (datagrams h l)
    end).
Proof.
  cbn zeta. set (h := us_handle s). set (ep := fst _). unfold udp_sync_query. fold h.
  apply emits_try_bind. eapply emits_mono; [by apply (sendto_emits any_answer)|].
  intros o ? (rc & _ & -> & ->). fold ep.
  pose proof (send_call_sent t h query ep rc) as Hsent.
  destruct (rc <? 0) eqn:Hrc; bool_to_prop.
  { pose proof (from_rc_not_timeout rc). by destruct (from_rc rc). }
  rewrite (proj2 (Z.leb_le _ _)) in Hsent by lia.
  apply emits_bind. call_with any_answer. intros t0 _. cbn [ret] in t0.
  apply emits_bind. unfold instant_add. case_match; [|by apply emits_panic]. apply emits_ret.
  eapply emits_mono; [apply udp_sync_loop_emits|]. intros o l [Hs Ho].
  set (ev := Ev t (vppcom_session_sendto h query (as_u32 (len query)) 0 ep) rc) in *.
  assert (forall d, datagrams h l = d -> datagrams h ([ev] ++ [Ev t instant_now t0] ++ [] ++ l) = d) as Hd
    by (intros d <-; done).
  assert (sent h ([ev] ++ [Ev t instant_now t0] ++ [] ++ l) = [(wire query, ep)]) as Hs1.
  { rewrite !sent_app, Hs, Hsent. done. }
  destruct o as [[[resp from]|e]| |]; rewrite ?Hs1; [|..|done|by rewrite (Hd _ eq_refl)].
  - split; [done|]. destruct Ho as (strays & (ep' & Hl & ->) & Hf & Hip). exists strays.
    split_and!; [by exists ep'; rewrite (Hd _ Hl)|done|done].
  - destruct Ho as (Hf & Hw & Hto). rewrite (Hd _ eq_refl). destruct e; try done.
    split_and!; try done. destruct (Hto eq_refl) as (t1 & Hl & Hle). exists t0, t1.
    split_and!; [done| |done]. rewrite !clocks_app, app_assoc. rewrite !last_app, Hl. done.
Qed.

(** *** The one-shot query *)

Lemma udp_poll_loop_emits fuel h deadline buf :
  emits t (loop fuel (udp_poll_round h deadline) buf) (fun o l => sent h l = [] /\
    match o with
    | Done (Ok (resp, from)) => took h [] resp from l
    | Done (Err e) => e = Timeout -> passed deadline l
    | _ => True
    end).
Proof.
  apply (emits_loop (fun _ l => sent h l = [] /\ datagrams h l = [])); [done| |naive_solver].
  clear buf. intros buf l [Hs Hf]. unfold udp_poll_round. apply emits_bind.
  eapply emits_mono; [apply emits_and; [apply recvfrom_datagram|
    apply emits_and; [apply recvfrom_never_timeout|apply (recvfrom_sends_nothing h h)]]|].
  intros [[[[n from]|e] buf']| |] k [Hk [Hto [Hsk Hck]]]; try done.
  - apply one_datagram_took in Hk as [Hn Hk]. apply emits_ret. rewrite app_nil_r.
    split; [by rewrite sent_app, Hs, Hsk|]. by eapply took_prefix.
  - destruct Hk as [Hk ->].
    assert (sent h (l ++ k) = [] /\ datagrams h (l ++ k) = []) as [Hs' Hf']
      by (by rewrite sent_app, datagrams_app, Hs, Hsk, Hk, Hf).
    destruct e; try (apply emits_ret; rewrite app_nil_r; by split_and!); [|by destruct (Hto buf)].
    apply emits_bind. call_with any_answer. intros now _. cbn [ret] in now.
    destruct (deadline <=? now) eqn:Hd; bool_to_prop.
    + apply emits_ret. rewrite app_assoc, app_nil_r. unfold passed. rewrite sent_app, clocks_app, Hs'.
      split; [done|]. intros _. exists now. by rewrite last_app.
    + apply emits_bind. call_with any_answer. intros r _. apply emits_ret.
      rewrite !app_assoc, app_nil_r, 2!sent_app, 2!datagrams_app, Hs', Hf'. done.
Qed.

Definition udp_answered (peer : SocketAddr) (query : list u8) (timeout : Z)
    (o : Outcome (Result (list u8 * SocketAddr))) (l : trace) : Prop :=
  match o with
  | Done (Ok (resp, from)) => exists h,
      sent h l = [(wire query, fst (SessionHandle.endpoint_into_buf peer zero_ip_buf))] /\ took h [] resp from l
  | Done (Err Timeout) =>
      exists t0 t1, head (clocks l) = Some t0 /\ last (clocks l) = Some t1 /\ t0 + timeout <= t1
  | _ => True
  end.

(** A call that neither sends, receives nor reads the clock. *)
Definition silent (e : event) : Prop :=
  clock_of e = [] /\ forall h, datagram_by h e = [] /\ sent_by h e = [].

Lemma silent_nothing l : Forall silent l -> clocks l = [] /\ forall h, datagrams h l = [] /\ sent h l = [].
Proof.
  induction 1 as [|e l [Hc He] _ [IHc IH]]; [done|].
  unfold clocks, datagrams, sent in *. cbn [mbind list_bind]. rewrite Hc, IHc. split; [done|].
  intros h. destruct (He h) as [-> ->], (IH h) as [-> ->]. done.
Qed.

Lemma udp_answered_pad peer query timeout o l1 l2 l3 :
  Forall silent l1 -> Forall silent l3 -> udp_answered peer query timeout o l2 ->
  udp_answered peer query timeout o (l1 ++ l2 ++ l3).
Proof.
  intros [Hc1 H1]%silent_nothing [Hc3 H3]%silent_nothing.
  unfold udp_answered. rewrite !clocks_app, Hc1, Hc3, app_nil_r. destruct o as [[[resp from]|]| |]; try done.
  intros (h & Hs & ep & Hd & ->). exists h. destruct (H1 h) as [Hd1 Hs1], (H3 h) as [Hd3 Hs3].
  unfold took. rewrite !sent_app, !datagrams_app, Hd1, Hs1, Hd3, Hs3, !app_nil_r. eauto.
Qed.

Lemma udp_send_and_poll fuel h peer query timeout :
  emits t (
    _ ←? SessionHandle.sendto h query peer;
    now ← do_call instant_now;
    deadline ← instant_add now timeout;
    loop fuel (udp_poll_round h deadline) udp_buf) (udp_answered peer query timeout).
Proof.
  apply emits_try_bind. eapply emits_mono; [by apply (sendto_emits any_answer)|].
  intros o ? (rc & _ & -> & ->). set (ep := fst _).
  pose proof (send_call_sent t h query ep rc) as Hsent.
  destruct (rc <? 0) eqn:Hrc; bool_to_prop.
  { simpl. pose proof (from_rc_not_timeout rc). by destruct (from_rc rc). }
  rewrite (proj2 (Z.leb_le _ _)) in Hsent by lia.
  apply emits_bind. call_with any_answer. intros t0 _. cbn [ret] in t0.
  apply emits_bind. unfold instant_add. case_match; [|by apply emits_panic]. apply emits_ret.
  eapply emits_mono; [apply udp_poll_loop_emits|]. intros o l [Hs Ho].
  set (ev := Ev t (vppcom_session_sendto h query (as_u32 (len query)) 0 ep) rc) in *.
  destruct o as [[[resp from]|e]| |]; try done.
  - exists h. split; [by rewrite !sent_app, Hs, Hsent|].
    apply (took_prefix h [] resp from [ev; Ev t instant_now t0] l Ho). done.
  - destruct e; try done. destruct (Ho eq_refl) as (t1 & Hl & Hle). exists t0, t1.
    split_and!; [done| |done]. rewrite !clocks_app, app_assoc, !last_app, Hl. done.
Qed.

(** An operation whose errors are never timeouts, then a continuation. *)
Lemma udp_answered_try_bind {A} peer query timeout (m : M (Result A)) k :
  only silent m -> emits t m (fun o _ => o <> Done (Err Timeout)) ->
  (forall a, emits t (k a) (udp_answered peer query timeout)) ->
  emits t (try_bind m k) (udp_answered peer query timeout).
Proof.
  intros Hm Ht Hk. apply emits_try_bind. eapply emits_mono; [apply emits_and; [apply Hm|apply Ht]|].
  intros [[a|e]| |] l [Hl Hne]; try done; [|by destruct e].
  eapply emits_mono; [apply Hk|]. intros o l' Ho. rewrite <- (app_nil_r l'). by apply udp_answered_pad.
Qed.

Lemma udp_answered_bind {A} peer query timeout (m : M A) k :
  only silent m -> (forall a, emits t (k a) (udp_answered peer query timeout)) ->
  emits t (m ≫= k) (udp_answered peer query timeout).
Proof.
  intros Hm Hk. apply emits_bind. eapply emits_mono; [apply Hm|]. intros [a| |] l Hl; try done.
  eapply emits_mono; [apply Hk|]. intros o l' Ho. rewrite <- (app_nil_r l'). by apply udp_answered_pad.
Qed.

(** C28. A one-shot UDP query that returns an answer sent the query exactly
    once, to the peer, on one session, and returns the first datagram that
    session received, whole and with its sender; it reports a timeout only when
    the clock passed the deadline. *)
Theorem udp_query_answer fuel peer source query timeout :
  emits t (query_udp_sync fuel peer source query timeout) (udp_answered peer query timeout).
Proof.
  unfold query_udp_sync. apply udp_answered_bind; [unfold register_worker_thread; only_go|]. intros _.
  apply udp_answered_try_bind; [unfold SessionHandle.create_udp; only_go| |].
  { eapply emits_mono; [by apply (create_udp_emits any_answer)|]. intros o l (rc & _ & _ & ->).
    pose proof (from_rc_not_timeout rc). case_match; congruence. }
  intros h. apply emits_finally.
  assert (only silent (SessionHandle.drop h)) as Hdrop by (unfold SessionHandle.drop; only_go).
  eapply (emits_mono _ _ (udp_answered peer query timeout)).
  - apply udp_answered_try_bind; [unfold udp_bind_ip, parse_ip_unwrap; only_go| |].
    { unfold udp_bind_ip, parse_ip_unwrap. emits_go; done. }
    intros ip. apply udp_answered_bind.
    { generalize 8%nat. induction n; cbn [bind_retry]; unfold SessionHandle.bind; only_go. }
    intros bound. case_match; [by apply emits_ret|].
    apply udp_answered_try_bind; [unfold SessionHandle.listen; only_go| |].
    { eapply emits_mono; [by apply (listen_emits any_answer)|]. intros o l (rc & _ & _ & ->).
      pose proof (from_rc_not_timeout rc). case_match; congruence. }
    intros _. apply udp_send_and_poll.
  - intros o l Ho. destruct o as [r| |]; [| |done]; (eapply emits_mono; [apply Hdrop|]);
      intros o' k Hk; by apply (udp_answered_pad _ _ _ _ []).
Qed.
End UdpAnswers.
