(* ===== verification/Agreement.v ===== *)
(** * The two TCP queries agree (src/dgram.rs)

    [query_tcp_dns_async] and [query_tcp_dns_sync] are two implementations of
    one exchange: the one on a task, with the reactor's waits, the other on a
    blocking thread, with an epoll set of its own and a deadline.  On a
    network that carries the exchange to its end both return what the pure
    function [reference_answer] says, however the peer's bytes are cut into
    reads, however many bytes a write accepts, and however often either would
    block. *)

From S2P Require Import Prelude Net Errors Ffi World Sim Session App Reactor Replay Ownership Stream Channel Dgram Framing Query.

(** The answer to [query] when the peer's side of the connection is
    [stream]: the body of the first message, or the error that keeps it from
    being one. *)
Definition reference_answer (query stream : list u8) : Result (list u8) :=
  match frame_tcp_dns_query query with
  | Err e => Err e
  | Ok _ =>
      match stream with
      | hi :: lo :: rest =>
          match decode_tcp_dns_len hi lo with
          | Err e => Err e
          | Ok n => if n <=? len rest then Ok (take (Z.to_nat n) rest) else Err Closed
          end
      | _ => Err Closed
      end
  end.

(** What the query puts on the wire. *)
Definition reference_request (query : list u8) : list u8 :=
  match frame_tcp_dns_query query with Ok framed => framed | Err _ => [] end.

(** A byte channel that keeps going: a read delivers at least a byte, or the
    end of the stream once all of it was delivered, a write accepts at least
    a byte, and otherwise they would block, which [stalls] bounds. *)
Class LivelyChannel `{Env} (h : Z) (incoming outgoing : ext -> list u8) (stalls : ext -> nat) : Prop := {
  lively_channel :: ByteChannel h incoming outgoing;
  lively_read t buf n x rc data x' :
    env_step (vppcom_session_read h buf n) t x = ((rc, data), x') -> 0 < n ->
    (rc < 0 /\ retryable (from_rc rc) = true /\ (stalls x' < stalls x)%nat) \/
    (rc = 0 /\ incoming x = []) \/ 0 < rc;
  lively_write t buf n x rc x' :
    env_step (vppcom_session_write h buf n) t x = (rc, x') -> 0 < n <= len buf ->
    (rc < 0 /\ retryable (from_rc rc) = true /\ (stalls x' < stalls x)%nat) \/ 0 < rc;
  lively_stalls c t x r x' : env_step c t x = (r, x') -> (stalls x' <= stalls x)%nat
}.

(** Answers of a network on which nothing fails: every session gets the
    handle [h], binds and registrations succeed, a connection is established
    or in progress, waits are notified, and the clock stays within [timeout]
    of [t0]. *)
Definition smooth_ok `{Env} (h t0 timeout : Z) (c : call) : ret c -> Prop :=
  match c with
  | vppcom_session_create _ _ => fun rc => 0 <= rc /\ as_u32 rc = h
  | vppcom_session_bind _ _ => fun rc => 0 <= rc
  | vppcom_session_connect _ _ => fun rc => 0 <= rc \/ from_rc rc = WouldBlock
  | vppcom_epoll_create => fun rc => 0 <= rc
  | vppcom_epoll_ctl _ _ _ _ => fun rc => 0 <= rc
  | poll_notified _ => fun b => b = true
  | poll_mq_readable => fun r => r = None
  | poll_sleep_until _ => fun b => b = false
  | select_order => fun order => BrNotified ∈ order
  | instant_now => fun now => t0 <= now < t0 + timeout
  | _ => fun _ => True
  end.

Section Smooth.
Context `{E : Env} (h t0 timeout : Z) `{!EnvSat (smooth_ok h t0 timeout)} `{!EnvSat io_ok}.
Context (incoming outgoing : ext -> list u8) (stalls : ext -> nat).
Context `{!LivelyChannel h incoming outgoing stalls}.
(** The clock stays clear of its last instant. *)
Context (Hclock : t0 + timeout + Z.max timeout (secs 300) <= INSTANT_MAX).
Implicit Types w : World.

Definition in_of w : list u8 := incoming (w_ext w).
Definition out_of w : list u8 := outgoing (w_ext w).
Definition stalls_of w : nat := stalls (w_ext w).

(** The channel carries the same bytes, and is no more stalled. *)
Definition calm w w' : Prop :=
  in_of w' = in_of w /\ out_of w' = out_of w /\ (stalls_of w' <= stalls_of w)%nat.

#[global] Instance calm_preorder : PreOrder calm.
Proof. split; [by intros w|]. intros w1 w2 w3 (?&?&?) (?&?&?). split_and!; [congruence..|lia]. Qed.

(** [m] returns a value that satisfies [P] and leaves the channel alone. *)
Definition returns {A} (m : M A) (P : A -> Prop) : Prop :=
  forall w, wp m (fun o w' => exists a, o = Done a /\ P a /\ calm w w') w.

Lemma returns_mono {A} (m : M A) (P Q : A -> Prop) : returns m P -> (forall a, P a -> Q a) -> returns m Q.
Proof. intros Hm HPQ w. destruct (Hm w) as (a & Ha & HP & Hc). exists a. auto. Qed.

Lemma returns_silent {A} (m : M A) (P : A -> Prop) :
  (forall w, exists a w', m w = (Done a, w') /\ P a /\ w_ext w' = w_ext w) -> returns m P.
Proof.
  intros Hm w. destruct (Hm w) as (a & w' & He & HP & Hx). unfold wp. rewrite He. exists a.
  unfold calm, in_of, out_of, stalls_of. simpl. by rewrite Hx.
Qed.

Lemma returns_ret {A} (a : A) (P : A -> Prop) : P a -> returns (mret a) P.
Proof. intros HP. apply returns_silent. intros w. by exists a, w. Qed.

Lemma returns_gets {A} (f : World -> A) : returns (gets f) (fun _ => True).
Proof. apply returns_silent. intros w. by exists (f w), w. Qed.

Lemma returns_set_reactor r : returns (set_reactor r) (fun _ => True).
Proof. apply returns_silent. intros w. by exists tt, (with_reactor r w). Qed.

Lemma returns_set_registered r : returns (set_registered r) (fun _ => True).
Proof. apply returns_silent. intros w. by exists tt, (with_registered r w). Qed.

(** Running such a computation first. *)
Lemma wp_returns {A B} (m : M A) (k : A -> M B) (P : A -> Prop) Q w :
  returns m P -> (forall a w', P a -> calm w w' -> wp (k a) Q w') -> wp (m ≫= k) Q w.
Proof.
  intros Hm Hk. apply wp_bind. eapply wp_mono; [apply Hm|]. intros o w' (a & -> & HP & Hc). auto.
Qed.

Lemma returns_bind {A B} (m : M A) (k : A -> M B) (P : A -> Prop) (Q : B -> Prop) :
  returns m P -> (forall a, P a -> returns (k a) Q) -> returns (m ≫= k) Q.
Proof.
  intros Hm Hk w. eapply wp_returns; [exact Hm|]. intros a w' HP Hc.
  eapply wp_mono; [by apply Hk|]. intros o w'' (b & -> & HQ & Hc'). exists b.
  split_and!; [done|done|by etrans].
Qed.

Definition okay {A} (P : A -> Prop) (r : Result A) : Prop := exists a, r = Ok a /\ P a.

Lemma returns_try_bind {A B} (m : M (Result A)) (k : A -> M (Result B)) (P : A -> Prop) (Q : Result B -> Prop) :
  returns m (okay P) -> (forall a, P a -> returns (k a) Q) -> returns (try_bind m k) Q.
Proof. intros Hm Hk. eapply returns_bind; [exact Hm|]. intros r (a & -> & HP). auto. Qed.

Lemma wp_returns_ok {A B} (m : M (Result A)) (k : A -> M (Result B)) (P : A -> Prop) Q w :
  returns m (okay P) -> (forall a w', P a -> calm w w' -> wp (k a) Q w') -> wp (try_bind m k) Q w.
Proof. intros Hm Hk. eapply wp_returns; [exact Hm|]. intros r w' (a & -> & HP) Hc. by apply Hk. Qed.

(** A call that is neither a read nor a write. *)
Definition is_io (c : call) : bool :=
  match c with vppcom_session_read _ _ _ | vppcom_session_write _ _ _ => true | _ => false end.

Lemma returns_call c (P : ret c -> Prop) :
  is_io c = false -> (forall r, smooth_ok h t0 timeout c r -> P r) -> returns (do_call c) P.
Proof.
  intros Hio HP w. apply wp_call. intros r x He. exists r. split; [done|].
  pose proof (env_sat (ok := smooth_ok h t0 timeout) c (w_tid w) (w_ext w)) as Hok. rewrite He in Hok.
  split; [by apply HP|]. destruct (channel_step c (w_tid w) (w_ext w) r x He) as [Hi Ho].
  pose proof (lively_stalls c (w_tid w) (w_ext w) r x He). unfold calm, in_of, out_of, stalls_of. simpl.
  assert (received_by h (Ev (w_tid w) c r) = [] /\ written_by h (Ev (w_tid w) c r) = []) as [Hr Hw]
    by (by destruct c).
  rewrite Hr in Hi. rewrite Hw, app_nil_r in Ho. by rewrite Hi, Ho.
Qed.

Lemma returns_answer c : is_io c = false -> returns (do_call c) (smooth_ok h t0 timeout c).
Proof. intros Hio. by apply returns_call. Qed.

Lemma returns_unless_ok {A} (m : M (Result A)) cleanup (P : A -> Prop) :
  returns m (okay P) -> returns (unless_ok m cleanup) (okay P).
Proof.
  intros Hm w. destruct (Hm w) as (r & Hr & (a & -> & HP) & Hc). unfold wp, unless_ok.
  destruct (m w) as [o w1]. simpl in *. subst o. exists (Ok a). split_and!; [done|by exists a|done].
Qed.

(** One call, then the sign test on its return code. *)
Lemma returns_checked {A} c (k : ret c -> M A) (P : A -> Prop) :
  is_io c = false -> (forall r, smooth_ok h t0 timeout c r -> returns (k r) P) ->
  returns (do_call c ≫= k) P.
Proof. intros Hio Hk. eapply returns_bind; [by apply returns_answer|]. exact Hk. Qed.

(** A checked call that succeeds. *)
Lemma checked_returns {A} c (k : ret c -> M (Result A)) (P : A -> Prop) :
  is_io c = false ->
  (forall r, smooth_ok h t0 timeout c r -> exists a, k r = mret (Ok a) /\ P a) ->
  returns (do_call c ≫= k) (okay P).
Proof.
  intros Hio Hk. apply returns_checked; [done|]. intros r Hr. destruct (Hk r Hr) as (a & -> & HP).
  apply returns_ret. by exists a.
Qed.

Ltac smooth_call :=
  lazymatch goal with |- returns (do_call ?c ≫= ?k) ?P => apply (returns_checked c k P); [done|] end.
Ltac smooth_check :=
  lazymatch goal with |- returns (do_call ?c ≫= ?k) (okay ?P) => apply (checked_returns c k P); [done|] end.

(** ** Set-up and waiting *)

Lemma instant_add_returns now d : now + d <= INSTANT_MAX -> returns (instant_add now d) (fun t => t = now + d).
Proof. intros Hle. unfold instant_add. rewrite (proj2 (Z.leb_le _ _)) by done. by apply returns_ret. Qed.

Lemma poll_select_returns order n d :
  BrNotified ∈ order -> returns (poll_select order n d) (fun s => s = Some SelNotified).
Proof.
  induction order as [|b order IH]; intros Hin; [by apply not_elem_of_nil in Hin|].
  apply elem_of_cons in Hin. destruct b; cbn [poll_select].
  - smooth_call. intros r ->. destruct Hin; [done|auto].
  - smooth_call. intros r ->. by apply returns_ret.
  - smooth_call. intros r ->. destruct Hin; [done|auto].
Qed.

Lemma entry_or_insert_returns h' : returns (entry_or_insert h') (fun _ => True).
Proof.
  unfold entry_or_insert, get_reactor. eapply returns_bind; [apply returns_gets|]. intros inner _.
  destruct (waiters inner !! h'); [by apply returns_ret|].
  smooth_call. intros n _. eapply returns_bind; [apply returns_set_reactor|].
  intros _ _. by apply returns_ret.
Qed.

Lemma poll_wait_returns fuel h' d : (2 <= fuel)%nat -> d <= Z.max timeout (secs 300) ->
  returns (poll_wait fuel (WfStart h' d)) (fun r => r.1 = Ready (Ok tt)).
Proof.
  intros Hf Hd. destruct fuel as [|[|fuel]]; [lia..|]. unfold poll_wait. cbn [loop].
  eapply (returns_bind _ _ (fun r => exists n d, r = inl (WfSelect n d))).
  - unfold poll_wait_round. eapply returns_bind; [apply entry_or_insert_returns|]. intros n _.
    smooth_call. intros now Hnow. simpl in Hnow.
    eapply returns_bind; [apply instant_add_returns; lia|]. intros d' ->. apply returns_ret. eauto.
  - intros r (n & d' & ->). cbn [loop].
    eapply (returns_bind _ _ (fun r => exists fut, r = inr (Ready (Ok tt), fut))).
    + unfold poll_wait_round. smooth_call. intros order Hin.
      eapply returns_bind; [by apply poll_select_returns|]. intros sel ->. apply returns_ret. eauto.
    + intros r' (fut & ->). by apply returns_ret.
Qed.

Lemma wait_returns fuel h' mask d : (2 <= fuel)%nat -> d <= Z.max timeout (secs 300) ->
  returns (wait_event fuel h' mask d) (okay (fun _ => True)).
Proof.
  intros Hf Hd. unfold wait_event, await. destruct fuel as [|fuel]; [lia|]. cbn [loop].
  eapply (returns_bind _ _ (fun r => r = inr (Ok tt))).
  - unfold await_round. eapply returns_bind; [by apply poll_wait_returns|].
    intros [p fut] Hp. simpl in Hp. subst p. by apply returns_ret.
  - intros r ->. apply returns_ret. by exists tt.
Qed.

Lemma register_worker_returns : returns register_worker_thread (fun _ => True).
Proof.
  unfold register_worker_thread. eapply returns_bind; [apply returns_gets|]. intros tid _.
  eapply returns_bind; [apply returns_gets|]. intros reg _. case_match; [by apply returns_ret|].
  smooth_call. intros rc _. smooth_call. intros idx _. smooth_call. intros name _.
  cbn [ret] in idx. destruct (idx <? 0); smooth_call; intros u _; [|apply returns_set_registered].
  by apply (returns_call (tracing _ _)).
Qed.

Lemma create_tcp_returns nb : returns (SessionHandle.create_tcp nb) (okay (fun h' => h' = h)).
Proof.
  unfold SessionHandle.create_tcp. smooth_check. intros rc [Hrc Hh]. exists (as_u32 rc).
  by rewrite (proj2 (Z.ltb_ge _ _)).
Qed.

Lemma session_bind_returns h' a : returns (SessionHandle.bind h' a) (okay (fun _ => True)).
Proof.
  unfold SessionHandle.bind. destruct (SessionHandle.endpoint_into_buf a zero_ip_buf) as [ep b].
  smooth_check. intros rc Hrc. exists tt. simpl in Hrc. by rewrite (proj2 (Z.ltb_ge _ _)).
Qed.

Lemma bind_source_returns h' source : returns (bind_source h' source) (okay (fun _ => True)).
Proof. destruct source; [apply session_bind_returns|]. apply returns_ret. by exists tt. Qed.

Lemma register_returns h' : returns (register h') (okay (fun _ => True)).
Proof.
  unfold register, get_reactor. eapply returns_bind; [apply returns_gets|]. intros inner _.
  smooth_check. intros rc Hrc. exists tt. simpl in Hrc. by rewrite (proj2 (Z.ltb_ge _ _)).
Qed.

Lemma set_nodelay_returns h' : returns (SessionHandle.set_nodelay h') (fun _ => True).
Proof. unfold SessionHandle.set_nodelay. smooth_call. intros rc _. case_match; by apply returns_ret. Qed.

Lemma drop_returns h' : returns (SessionHandle.drop h') (fun _ => True).
Proof. unfold SessionHandle.drop. smooth_call. intros rc _. by apply returns_ret. Qed.

(** Connected, or on the way. *)
Lemma connect_returns h' a :
  returns (SessionHandle.connect h' a) (fun r => r = Ok tt \/ r = Err WouldBlock).
Proof.
  unfold SessionHandle.connect. destruct (SessionHandle.endpoint_into_buf a zero_ip_buf) as [ep b].
  smooth_call. intros rc Hrc. simpl in Hrc.
  destruct (rc <? 0) eqn:Hneg; apply returns_ret; [|by left]. bool_to_prop. right.
  destruct Hrc as [?| ->]; [lia|done].
Qed.

Lemma stream_drop_returns s : returns (stream_drop s) (fun _ => True).
Proof.
  unfold stream_drop, deregister, get_reactor. eapply returns_bind; [|intros; apply drop_returns].
  eapply returns_bind; [apply returns_gets|]. intros inner _.
  eapply (returns_bind _ _ _ (fun _ => True)); [apply returns_set_reactor|]. intros _ _.
  smooth_call. intros rc _. by apply returns_ret.
Qed.

Lemma connect_async_returns fuel addr source d : (2 <= fuel)%nat -> d <= timeout ->
  returns (connect_async fuel addr source d) (okay (fun s => st_handle s = h)).
Proof.
  intros Hf Hd. unfold connect_async. eapply returns_bind; [apply register_worker_returns|]. intros _ _.
  eapply returns_try_bind; [apply create_tcp_returns|]. intros h' ->. apply returns_unless_ok.
  eapply returns_bind; [apply set_nodelay_returns|]. intros _ _.
  eapply returns_try_bind; [apply bind_source_returns|]. intros _ _.
  eapply returns_try_bind; [apply register_returns|]. intros _ _.
  eapply returns_bind; [apply connect_returns|]. intros r Hr.
  assert (returns (_ ←? wait_writable fuel h d; mret (Ok (mkStream h None None))) (okay (fun s => st_handle s = h)))
    as Hw; [|by destruct Hr as [-> | ->]].
  eapply returns_try_bind; [apply wait_returns; [done|lia]|]. intros _ _. apply returns_ret. by eexists.
Qed.

(** ** Reading *)

(** How one read call on the channel can end. *)
Inductive read_outcome (buf : list u8) w : Outcome (Result Z * list u8) -> World -> Prop :=
| read_stalled e w' :
    retryable e = true -> in_of w' = in_of w -> out_of w' = out_of w -> (stalls_of w' < stalls_of w)%nat ->
    read_outcome buf w (Done (Err e, buf)) w'
| read_end w' : in_of w = [] -> calm w w' -> read_outcome buf w (Done (Ok 0, buf)) w'
| read_some data w' :
    data <> [] -> (length data <= length buf)%nat -> in_of w = data ++ in_of w' -> out_of w' = out_of w ->
    (stalls_of w' <= stalls_of w)%nat ->
    read_outcome buf w (Done (Ok (len data), fill buf data)) w'.

Lemma read_call_outcome buf w : buf <> [] -> wp (SessionHandle.read h buf) (read_outcome buf w) w.
Proof.
  intros Hbuf. assert (0 < len buf) as Hlen by (destruct buf; [done|unfold len; simpl; lia]).
  unfold SessionHandle.read. apply wp_bind.
  lazymatch goal with |- wp (do_call ?c) ?Q ?w => apply (wp_call c Q w) end. intros [rc data] x He.
  set (c := vppcom_session_read h buf (len buf)) in *.
  pose proof (env_sat (ok := io_ok) c (w_tid w) (w_ext w)) as Hok. rewrite He in Hok. destruct Hok as [Hle Hd].
  simpl in Hle, Hd. destruct (channel_step c _ _ _ _ He) as [Hi Ho]. simpl in Hi, Ho.
  rewrite Z.eqb_refl in Hi. rewrite app_nil_r in Ho. cbn [andb] in Hi.
  pose proof (lively_stalls c _ _ _ _ He) as Hst.
  cbn beta iota zeta. set (w' := push_event _ _).
  assert (out_of w' = out_of w) as Ho' by done.
  destruct (lively_read _ _ _ _ _ _ _ He Hlen) as [(Hneg & Hretry & Hs)|[[-> Hnil]|Hpos]].
  - assert (data = []) as -> by (apply nil_length_inv; unfold len in Hd; lia).
    rewrite (proj2 (Z.ltb_lt _ _)), fill_nil by done. apply wp_ret.
    rewrite (proj2 (Z.leb_gt _ _)) in Hi by done. by apply read_stalled.
  - assert (data = []) as -> by (apply nil_length_inv; unfold len in Hd; lia).
    rewrite fill_nil. apply wp_ret. by apply read_end.
  - rewrite (proj2 (Z.ltb_ge _ _)) by lia. rewrite (proj2 (Z.leb_le _ _)) in Hi by lia.
    assert (length data = Z.to_nat rc) as Hl by (unfold len in Hd; lia).
    rewrite take_ge in Hi by lia. replace rc with (len data) by (unfold len; lia).
    apply wp_ret. apply read_some; try done; [intros ->; simpl in Hl; lia|unfold len in Hle; lia].
Qed.

(** What [read] delivers: the end of the stream as [Closed], or some bytes. *)
Definition read_total (buf : list u8) w (o : Outcome (Result Z * list u8)) w' : Prop :=
  out_of w' = out_of w /\ (stalls_of w' <= stalls_of w)%nat /\
  ((in_of w = [] /\ in_of w' = [] /\ o = Done (Err Closed, buf)) \/
   exists data, data <> [] /\ (length data <= length buf)%nat /\ in_of w = data ++ in_of w' /\
     o = Done (Ok (len data), fill buf data)).

Lemma calm_read_total buf w w1 o w' : calm w w1 -> read_total buf w1 o w' -> read_total buf w o w'.
Proof. intros (Hi & Ho & Hs) (Ho' & Hs' & Hr). unfold read_total. rewrite <- Hi, <- Ho. split_and!; [done|lia|done]. Qed.

Lemma stream_read_total fuel0 fuel s buf w :
  st_handle s = h -> buf <> [] -> (stalls_of w < fuel)%nat -> (2 <= fuel0 \/ stalls_of w = 0)%nat ->
  wp (loop fuel (read_round fuel0 (st_handle s)) buf) (read_total buf w) w.
Proof.
  intros Hs Hbuf. rewrite Hs. revert w. induction fuel as [|fuel IH]; intros w Hf Hf0; [lia|].
  cbn [loop]. apply wp_bind. unfold read_round. apply wp_bind.
  eapply wp_mono; [by apply read_call_outcome|].
  intros o w1 [e w' He Hi Ho Hlt|w' Hnil Hc|data w' Hdata Hlen Hi Ho Hst].
  - eapply (wp_mono _ (fun o w2 => o = Done (inl buf) /\ calm w w2 /\ (stalls_of w2 < stalls_of w)%nat)).
    { destruct e; try done.
      all: eapply wp_returns; [apply wait_returns; lia|]; intros r w2 (u & -> & _) (Hi2 & Ho2 & Hs2).
      all: apply wp_ret; split; [done|]; split; [split_and!; (congruence || lia)|lia]. }
    intros ? w2 (-> & Hc & Hs2). eapply wp_mono; [apply IH; lia|]. intros o2 w3. by apply calm_read_total.
  - apply wp_ret, wp_ret. destruct Hc as (Hi & Ho & Hst). split_and!; [done|done|]. left.
    rewrite Hi. done.
  - assert ((len data =? 0) = false) as -> by (apply Z.eqb_neq; destruct data; [done|unfold len; simpl; lia]).
    apply wp_ret, wp_ret. split_and!; [done|done|]. right. by exists data.
Qed.

(** What remains of a buffer is filled from the channel: all of it, or the
    stream ends first. *)
Definition fills {A} (success : list u8 -> A) (failure : A -> Prop) (got rest : list u8) w
    (o : Outcome A) w' : Prop :=
  out_of w' = out_of w /\ (stalls_of w' <= stalls_of w)%nat /\
  if decide (length rest <= length (in_of w))%nat then
    o = Done (success (got ++ take (length rest) (in_of w))) /\ in_of w' = drop (length rest) (in_of w)
  else exists a, o = Done a /\ failure a /\ in_of w' = [].

Section Fills.
Context {A : Type} (success : list u8 -> A) (failure : A -> Prop).

Lemma fills_nil got w : fills success failure got [] w (Done (success got)) w.
Proof. unfold fills. split_and!; [done..|]. rewrite decide_True by (simpl; lia). by rewrite app_nil_r. Qed.

Lemma fills_end got rest w a w' : rest <> [] -> in_of w = [] -> out_of w' = out_of w ->
  (stalls_of w' <= stalls_of w)%nat -> in_of w' = [] -> failure a -> fills success failure got rest w (Done a) w'.
Proof.
  intros Hr Hi Ho Hs Hi' Ha. unfold fills. split_and!; [done..|]. rewrite Hi.
  destruct rest; [done|]. rewrite decide_False by (simpl; lia). by exists a.
Qed.

Lemma fills_calm got rest w w1 o w' : calm w w1 -> fills success failure got rest w1 o w' ->
  fills success failure got rest w o w'.
Proof.
  intros (Hi & Ho & Hs) (Ho' & Hs' & Hr). unfold fills. rewrite <- Hi, <- Ho. split_and!; [done|lia|done].
Qed.

(** Some more bytes of the buffer. *)
Lemma fills_step got rest data w w1 o w' :
  (length data <= length rest)%nat -> in_of w = data ++ in_of w1 -> out_of w1 = out_of w ->
  (stalls_of w1 <= stalls_of w)%nat ->
  fills success failure (got ++ data) (drop (length data) rest) w1 o w' ->
  fills success failure got rest w o w'.
Proof.
  intros Hlen Hi Ho Hs (Ho' & Hs' & Hr). unfold fills. rewrite Hi. split_and!; [congruence|lia|].
  rewrite length_drop in Hr. rewrite length_app.
  destruct (decide (length rest - length data <= length (in_of w1)))%nat.
  - rewrite decide_True by lia. destruct Hr as [-> ->].
    rewrite take_app_ge, drop_app_ge by lia. by rewrite app_assoc.
  - by rewrite decide_False by lia.
Qed.
End Fills.

Lemma fill_app (rest data : list u8) : (length data <= length rest)%nat -> fill rest data = data ++ drop (length data) rest.
Proof. intros H. unfold fill. by rewrite take_ge by lia. Qed.

Lemma len_lt_app (got rest : list u8) : (len got <? len (got ++ rest)) = negb (bool_decide (rest = [])).
Proof.
  rewrite len_app. case_bool_decide as Hr; simpl.
  - subst. apply Z.ltb_ge. unfold len. simpl. lia.
  - apply Z.ltb_lt. destruct rest; [done|]. unfold len. simpl. lia.
Qed.

Lemma take_len (got rest : list u8) : take (Z.to_nat (len got)) (got ++ rest) = got.
Proof. unfold len. rewrite Nat2Z.id. apply take_app_length. Qed.

Lemma drop_len (got rest : list u8) : drop (Z.to_nat (len got)) (got ++ rest) = rest.
Proof. unfold len. rewrite Nat2Z.id. apply drop_app_length. Qed.

Abbreviation exact_fills :=
  (fills (fun b => (Ok tt : Result unit, b)) (fun a => exists b, a = (Err Closed, b))).

Lemma read_exact_total fuel0 fuel s got rest w :
  st_handle s = h -> (length (in_of w) < fuel)%nat -> (2 + stalls_of w <= fuel0)%nat ->
  wp (loop fuel (read_exact_round fuel0 s) (len got, got ++ rest)) (exact_fills got rest w) w.
Proof.
  intros Hs. revert got rest w. induction fuel as [|fuel IH]; intros got rest w Hf Hf0; [lia|].
  cbn [loop]. apply wp_bind. unfold read_exact_round. rewrite len_lt_app, take_len, drop_len.
  case_bool_decide as Hrest; cbn [negb].
  { subst rest. apply wp_ret, wp_ret. rewrite app_nil_r. apply fills_nil. }
  apply wp_bind. eapply wp_mono; [apply stream_read_total; [done|done|lia|lia]|].
  intros o w1 (Ho & Hst & [(Hi & Hi' & ->)|(data & Hd & Hlen & Hi & ->)]); apply wp_ret.
  - apply wp_ret. apply fills_end; eauto.
  - rewrite fill_app by done. rewrite <- len_app, app_assoc.
    eapply wp_mono; [apply IH; [|lia]|intros o2 w2; by apply fills_step].
    rewrite Hi, length_app in Hf. destruct data; [done|]. simpl in Hf. lia.
Qed.

Abbreviation sync_fills := (fills (fun b => Ok b : Result (list u8)) (fun a => a = Err Closed)).

Lemma drain_mq_returns v : returns (drain_mq v) (fun _ => True).
Proof. unfold drain_mq. smooth_call. intros r _. by apply returns_ret. Qed.

Lemma sync_read_total fuel line v d polls got rest w :
  t0 + timeout <= d -> (length (in_of w) + stalls_of w < fuel)%nat ->
  wp (loop fuel (sync_read_round line h v d) (len got, polls, got ++ rest)) (sync_fills got rest w) w.
Proof.
  intros Hdl. revert polls got rest w. induction fuel as [|fuel IH]; intros polls got rest w Hf; [lia|].
  cbn [loop]. apply wp_bind. unfold sync_read_round. rewrite len_lt_app, take_len, drop_len.
  case_bool_decide as Hrest; cbn [negb].
  { subst rest. apply wp_ret, wp_ret. rewrite app_nil_r. apply fills_nil. }
  eapply wp_returns; [exact (returns_answer instant_now eq_refl)|]. intros now w1 Hnow Hc. simpl in Hnow.
  rewrite (proj2 (Z.leb_gt _ _)) by lia. pose proof Hc as (Hi0 & _ & Hs0).
  assert (forall o w', sync_fills got rest w1 o w' -> sync_fills got rest w o w') as Hback
    by (intros; by eapply fills_calm).
  apply wp_bind. eapply wp_mono; [by apply read_call_outcome|].
  intros o w2 [e w' He Hi Ho Hlt|w' Hnil Hc'|data w' Hd Hlen Hi Ho Hst].
  - assert (wp (drain_mq v) (fun o w'' => o = Done tt /\ calm w w'' /\ (stalls_of w'' < stalls_of w)%nat) w') as Hw.
    { eapply wp_mono; [apply drain_mq_returns|]. intros o' w'' ([] & -> & _ & Hi2 & Ho2 & Hs2).
      destruct Hc as (? & ? & ?). split; [done|]. split; [split_and!; (congruence || lia)|lia]. }
    destruct e; try done.
    all: apply wp_bind; eapply wp_mono; [exact Hw|]; intros o' w'' (-> & Hc2 & Hs2); apply wp_ret.
    all: pose proof (proj1 Hc2) as Hi2; eapply wp_mono; [apply IH; rewrite Hi2; lia|].
    all: intros o2 w3; by apply fills_calm.
  - apply wp_ret, wp_ret, Hback. destruct Hc' as (Hi' & Ho' & Hs'). apply fills_end; try done. congruence.
  - assert ((len data =? 0) = false) as -> by (apply Z.eqb_neq; destruct data; [done|unfold len; simpl; lia]).
    apply wp_ret. rewrite fill_app by done. rewrite <- len_app, app_assoc.
    eapply wp_mono; [apply IH|intros o2 w3 Hf3; apply Hback; by eapply fills_step].
    rewrite Hi0 in *. rewrite Hi, length_app in Hf. destruct data; [done|]. simpl in Hf. lia.
Qed.

(** ** Writing *)

(** How one write call on the channel can end. *)
Inductive write_outcome (buf : list u8) w : Outcome (Result Z) -> World -> Prop :=
| write_stalled e w' :
    retryable e = true -> in_of w' = in_of w -> out_of w' = out_of w -> (stalls_of w' < stalls_of w)%nat ->
    write_outcome buf w (Done (Err e)) w'
| write_some n w' :
    0 < n <= len buf -> in_of w' = in_of w -> out_of w' = out_of w ++ take (Z.to_nat n) buf ->
    (stalls_of w' <= stalls_of w)%nat -> write_outcome buf w (Done (Ok n)) w'.

Lemma write_call_outcome buf w : buf <> [] -> wp (SessionHandle.write h buf) (write_outcome buf w) w.
Proof.
  intros Hbuf. assert (0 < len buf <= len buf) as Hlen by (destruct buf; [done|unfold len; simpl; lia]).
  unfold SessionHandle.write. apply wp_bind.
  lazymatch goal with |- wp (do_call ?c) ?Q ?w => apply (wp_call c Q w) end. intros rc x He.
  set (c := vppcom_session_write h buf (len buf)) in *.
  pose proof (env_sat (ok := io_ok) c (w_tid w) (w_ext w)) as Hle. rewrite He in Hle. simpl in Hle.
  destruct (channel_step c _ _ _ _ He) as [Hi Ho]. simpl in Hi, Ho.
  rewrite Z.eqb_refl in Ho. cbn [andb] in Ho. pose proof (lively_stalls c _ _ _ _ He) as Hst.
  set (w' := push_event _ _). assert (in_of w' = in_of w) as Hi' by done.
  destruct (lively_write _ _ _ _ _ _ He Hlen) as [(Hneg & Hretry & Hs)|Hpos].
  - rewrite (proj2 (Z.ltb_lt _ _)) by done. apply wp_ret.
    rewrite (proj2 (Z.leb_gt _ _)), app_nil_r in Ho by done. by apply write_stalled.
  - rewrite (proj2 (Z.ltb_ge _ _)) by lia. rewrite (proj2 (Z.leb_le _ _)) in Ho by lia.
    apply wp_ret. by apply write_some.
Qed.

(** All of [rest] is written, and nothing read. *)
Definition sends (rest : list u8) w (o : Outcome (Result unit)) w' : Prop :=
  o = Done (Ok tt) /\ in_of w' = in_of w /\ out_of w' = out_of w ++ rest /\ (stalls_of w' <= stalls_of w)%nat.

Lemma sends_calm rest w w1 o w' : calm w w1 -> sends rest w1 o w' -> sends rest w o w'.
Proof. intros (Hi & Ho & Hs) (? & ? & Ho' & ?). rewrite Ho in Ho'. split_and!; (congruence || lia). Qed.

Lemma sends_step rest n w w1 o w' :
  in_of w1 = in_of w -> out_of w1 = out_of w ++ take n rest -> (stalls_of w1 <= stalls_of w)%nat ->
  sends (drop n rest) w1 o w' -> sends rest w o w'.
Proof.
  intros Hi Ho Hs (? & ? & Ho' & ?). rewrite Ho, <- app_assoc, take_drop in Ho'.
  split_and!; (congruence || lia).
Qed.

Lemma sends_nil w : sends [] w (Done (Ok tt)) w.
Proof. split_and!; [done|done|by rewrite app_nil_r|done]. Qed.

(** The two write loops, from any position of the buffer. *)
Lemma drop_pos_nonempty (buf : list u8) pos : 0 <= pos -> pos < len buf -> drop (Z.to_nat pos) buf <> [].
Proof. intros H0 Hlt Hnil. apply (f_equal length) in Hnil. rewrite length_drop in Hnil. unfold len in Hlt. simpl in Hnil. lia. Qed.

Lemma drop_pos_add (buf : list u8) pos n : 0 <= pos -> 0 < n ->
  drop (Z.to_nat (pos + n)) buf = drop (Z.to_nat n) (drop (Z.to_nat pos) buf).
Proof. intros. rewrite drop_drop. f_equal. lia. Qed.

Lemma write_all_total fuel0 fuel s buf pos w :
  st_handle s = h -> 0 <= pos <= len buf ->
  (length buf - Z.to_nat pos + stalls_of w < fuel)%nat -> (2 + stalls_of w <= fuel0)%nat ->
  wp (loop fuel (write_all_round fuel0 s buf) pos) (sends (drop (Z.to_nat pos) buf) w) w.
Proof.
  intros Hs. revert pos w. induction fuel as [|fuel IH]; intros pos w Hpos Hf Hf0; [lia|].
  cbn [loop]. apply wp_bind. unfold write_all_round at 1. rewrite Hs. destruct (pos <? len buf) eqn:Hlt; bool_to_prop.
  2:{ apply wp_ret, wp_ret. rewrite drop_ge by (unfold len in *; lia). apply sends_nil. }
  apply wp_bind. eapply wp_mono; [apply write_call_outcome, drop_pos_nonempty; lia|].
  intros o w1 [e w' He Hi Ho Hst|n w' Hn Hi Ho Hst].
  - destruct e; try done.
    all: eapply wp_returns; [apply wait_returns; lia|]; intros r w2 (u & -> & _) (Hi2 & Ho2 & Hs2).
    all: apply wp_ret; eapply wp_mono; [apply IH; lia|].
    all: intros o2 w3; apply sends_calm; unfold calm; split_and!; (congruence || lia).
  - apply wp_ret. rewrite len_drop in Hn by (unfold len in *; lia).
    eapply wp_mono; [apply IH; unfold len in *; lia|]. intros o2 w3. rewrite drop_pos_add by lia.
    by apply sends_step.
Qed.

Lemma log_if_returns (b : bool) lvl m :
  returns (if b then do_call (tracing lvl m) else mret tt) (fun _ => True).
Proof. destruct b; [by apply (returns_call (tracing lvl m))|by apply returns_ret]. Qed.

Lemma sync_write_total fuel v d c0 peer buf pos polls err w :
  t0 + timeout <= d -> 0 <= pos <= len buf -> (length buf - Z.to_nat pos + stalls_of w < fuel)%nat ->
  wp (loop fuel (sync_write_round h v d c0 peer buf) (pos, polls, err)) (sends (drop (Z.to_nat pos) buf) w) w.
Proof.
  intros Hdl. revert pos polls err w. induction fuel as [|fuel IH]; intros pos polls err w Hpos Hf; [lia|].
  cbn [loop]. apply wp_bind. unfold sync_write_round at 1. destruct (pos <? len buf) eqn:Hlt; bool_to_prop.
  2:{ apply wp_ret, wp_ret. rewrite drop_ge by (unfold len in *; lia). apply sends_nil. }
  apply wp_bind. eapply wp_mono; [apply write_call_outcome, drop_pos_nonempty; lia|].
  intros o w1 [e w' He Hi Ho Hst|n w' Hn Hi Ho Hst].
  - destruct e; try done.
    all: eapply wp_returns; [exact (returns_answer instant_now eq_refl)|]; intros now w2 Hnow Hc2; simpl in Hnow.
    all: rewrite (proj2 (Z.leb_gt _ _)) by lia; eapply wp_returns; [apply drain_mq_returns|].
    all: intros u w3 _ Hc3; destruct Hc2 as (? & ? & ?), Hc3 as (? & ? & ?).
    all: apply wp_ret; eapply wp_mono; [apply IH; lia|].
    all: intros o2 w4; apply sends_calm; unfold calm; split_and!; (congruence || lia).
  - rewrite len_drop in Hn by (unfold len in *; lia).
    eapply (wp_returns _ _ (fun _ => True)); [apply log_if_returns|]. intros u w2 _ (Hi2 & Ho2 & Hs2).
    apply wp_ret. eapply wp_mono; [apply IH; unfold len in *; lia|]. intros o2 w3. rewrite drop_pos_add by lia.
    apply sends_step; [congruence..|lia].
Qed.

(** ** The exchange *)

(** The query was answered as the reference says, and only it was sent. *)
Definition answers (query : list u8) w (o : Outcome (Result (list u8))) w' : Prop :=
  o = Done (reference_answer query (in_of w)) /\ out_of w' = out_of w ++ reference_request query.

(** Rounds enough for every loop of an exchange that starts in [w]. *)
Definition rounds_enough (fuel : nat) (query : list u8) w : Prop :=
  (length query + 2 + stalls_of w < fuel)%nat /\ (length (in_of w) + stalls_of w + 2 <= fuel)%nat.

Section Exchange.
Context (fuel : nat) (send : list u8 -> M (Result unit)) (recv_prefix recv_body : list u8 -> M (Result (list u8))).
Hypothesis Hsend : forall framed w,
  (length framed + stalls_of w < fuel)%nat -> (2 + stalls_of w <= fuel)%nat -> wp (send framed) (sends framed w) w.
Hypothesis Hprefix : forall buf w,
  (length (in_of w) + stalls_of w + 2 <= fuel)%nat -> wp (recv_prefix buf) (sync_fills [] buf w) w.
Hypothesis Hbody : forall buf w,
  (length (in_of w) + stalls_of w + 2 <= fuel)%nat -> wp (recv_body buf) (sync_fills [] buf w) w.

Lemma body_total n w : (length (in_of w) + stalls_of w + 2 <= fuel)%nat -> 0 <= n ->
  wp (recv_body (replicate (Z.to_nat n) Byte.x00)) (fun o w' => out_of w' = out_of w /\
    o = Done (if n <=? len (in_of w) then Ok (take (Z.to_nat n) (in_of w)) else Err Closed)) w.
Proof.
  intros Hf Hn. eapply wp_mono; [by apply Hbody|]. intros o w' (Ho & _ & Hr). split; [done|].
  rewrite length_replicate in Hr. case_decide as Hle.
  - rewrite (proj2 (Z.leb_le _ _)) by (unfold len; lia). by destruct Hr as [-> _].
  - rewrite (proj2 (Z.leb_gt _ _)) by (unfold len; lia). by destruct Hr as (a & -> & -> & _).
Qed.

Lemma prefix_total w : (length (in_of w) + stalls_of w + 2 <= fuel)%nat ->
  wp (recv_prefix [Byte.x00; Byte.x00]) (fun o w' => out_of w' = out_of w /\ (stalls_of w' <= stalls_of w)%nat /\
    match in_of w with
    | hi :: lo :: rest => o = Done (Ok [hi; lo]) /\ in_of w' = rest
    | _ => o = Done (Err Closed)
    end) w.
Proof.
  intros Hf. eapply wp_mono; [by apply Hprefix|]. intros o w' (Ho & Hs & Hr). split_and!; [done..|].
  destruct (in_of w) as [|hi [|lo rest]]; simpl in Hr;
    [by destruct Hr as (a & -> & -> & _)..|]. by destruct Hr as [-> ->].
Qed.

Lemma exchange_total query w : rounds_enough fuel query w -> 
  wp (exchange send recv_prefix recv_body query) (answers query w) w.
Proof.
  intros [Hq Hi]. unfold exchange, answers, reference_answer, reference_request.
  apply wp_try_bind, wp_ret. destruct (frame_tcp_dns_query query) as [framed|e] eqn:Hframe.
  2:{ by rewrite app_nil_r. }
  assert (length framed = length query + 2)%nat as Hlen.
  { revert Hframe. unfold frame_tcp_dns_query. case_match; [|done]. intros [= <-]. simpl. lia. }
  apply wp_try_bind. eapply wp_mono; [apply Hsend; lia|]. intros o w1 (-> & Hi1 & Ho1 & Hs1).
  apply wp_try_bind. eapply wp_mono; [apply prefix_total; rewrite Hi1; lia|].
  intros o w2 (Ho2 & Hs2 & Hr). rewrite Hi1 in Hr.
  destruct (in_of w) as [|hi [|lo rest]] eqn:Hin; [subst o; split; congruence..|].
  destruct Hr as [-> Hi2]. apply wp_try_bind, wp_ret.
  destruct (decode_tcp_dns_len hi lo) as [n|e] eqn:Hdec; [|split; congruence].
  assert (0 <= n) as Hn.
  { revert Hdec. unfold decode_tcp_dns_len. pose proof (from_be_bytes_range hi lo).
    case_match; [done|]. intros [= <-]. lia. }
  eapply wp_mono; [apply body_total; [rewrite Hi2; simpl in Hi; lia|done]|].
  intros o w3 [Ho3 ->]. rewrite Hi2. split; congruence.
Qed.
End Exchange.

Lemma wp_finally {A} (m : M A) cleanup (P : Outcome A -> World -> Prop) Q w :
  wp m P w -> (forall o w', P o w' -> o <> OutOfFuel /\ wp cleanup (fun _ w'' => Q o w'') w') ->
  wp (finally m cleanup) Q w.
Proof.
  intros Hm Hc. unfold wp, finally in *. destruct (m w) as [o w1]. simpl in Hm.
  destruct (Hc o w1 Hm) as [Hne Hq]. by destruct o.
Qed.

(** Cleaning up leaves the answer and the channel alone. *)
Lemma answers_finally query m cleanup w :
  wp m (answers query w) w -> returns cleanup (fun _ => True) -> wp (finally m cleanup) (answers query w) w.
Proof.
  intros Hm Hc. eapply wp_finally; [exact Hm|]. intros o w' [-> Ho]. split; [done|].
  eapply wp_mono; [apply Hc|]. intros ? w'' (u & _ & _ & _ & Ho' & _). split; congruence.
Qed.

Lemma answers_calm query w w1 o w' : calm w w1 -> answers query w1 o w' -> answers query w o w'.
Proof. intros (Hi & Ho & _) [Ha Hb]. unfold answers. by rewrite <- Hi, <- Ho. Qed.

Lemma enough_calm fuel query w w' : calm w w' -> rounds_enough fuel query w -> rounds_enough fuel query w'.
Proof. intros (Hi & _ & Hs) [H1 H2]. unfold rounds_enough. rewrite Hi. lia. Qed.

(** ** The query on a task *)

Definition same_family (peer : SocketAddr) (source : option IpAddr) : Prop :=
  match source with Some ip => ip_is_ipv4 ip = Sock.is_ipv4 peer | None => True end.

Lemma dns_exchange_total fuel s query w :
  st_handle s = h -> rounds_enough fuel query w -> wp (dns_exchange fuel s query) (answers query w) w.
Proof.
  intros Hs Hf.
  assert (forall buf w, (length (in_of w) + stalls_of w + 2 <= fuel)%nat ->
    wp (r ← read_exact fuel s buf; mret (filled r)) (sync_fills [] buf w) w) as Hread.
  { intros buf w1 H1. apply wp_bind. eapply wp_mono; [apply (read_exact_total fuel fuel s [] buf w1 Hs); lia|].
    intros o w2 (Ho & Hst & Hr). unfold fills. case_decide.
    + destruct Hr as [-> Hi]. by apply wp_ret.
    + destruct Hr as (a & -> & (b & ->) & Hi). apply wp_ret. split_and!; [done..|]. by eexists. }
  refine (exchange_total fuel (write_all fuel s) _ _ _ Hread Hread query w Hf).
  intros framed w1 H1 H2. unfold write_all.
  eapply wp_mono; [apply write_all_total; [done|pose proof (len_nonneg framed); lia|simpl; lia|lia]|].
  intros o w2. simpl. by rewrite drop_0.
Qed.

Lemma gen_ports_returns n : returns (gen_ports n) (fun ps => length ps = n).
Proof.
  induction n as [|n IH]; cbn [gen_ports]; [by apply returns_ret|].
  smooth_call. intros p _. eapply returns_bind; [exact IH|]. intros ps Hps. apply returns_ret. simpl. by rewrite Hps.
Qed.

Lemma query_connect_returns fuel peer source : (2 <= fuel)%nat -> same_family peer source ->
  returns (query_connect fuel peer source timeout) (okay (fun s => st_handle s = h)).
Proof.
  intros Hf Hfam. unfold query_connect. smooth_call. intros started Hst. simpl in Hst.
  destruct source as [ip|]; [|by apply connect_async_returns].
  simpl in Hfam. rewrite Hfam, xorb_nilpotent.
  eapply returns_bind; [apply gen_ports_returns|]. intros [|p ps] Hps; [done|]. cbn [connect_attempts].
  smooth_call. intros now Hnow. simpl in Hnow. unfold duration_since.
  rewrite (proj2 (Z.eqb_neq _ _)) by lia.
  eapply returns_bind; [apply connect_async_returns; [done|lia]|]. intros r (s & -> & Hs).
  apply returns_ret. by exists s.
Qed.

Lemma query_async_total fuel peer source query w :
  rounds_enough fuel query w -> same_family peer source ->
  wp (query_tcp_dns_async fuel peer source query timeout) (answers query w) w.
Proof.
  intros Hf Hfam. unfold query_tcp_dns_async.
  eapply wp_returns_ok; [apply query_connect_returns; [destruct Hf; lia|done]|].
  intros s w1 Hs Hc. eapply wp_mono; [|intros o w2; by apply answers_calm].
  apply answers_finally; [|apply stream_drop_returns]. apply dns_exchange_total; [done|by eapply enough_calm].
Qed.

(** ** The query on a blocking thread *)

Lemma sync_source_bind_returns h' peer source : same_family peer source ->
  returns (sync_source_bind h' peer source) (okay (fun _ => True)).
Proof.
  intros Hfam. destruct source as [ip|]; [|apply returns_ret; by exists tt]. simpl in *.
  rewrite Hfam, xorb_nilpotent. eapply (returns_bind _ _ (fun b => b = true)).
  - cbn [bind_retry]. smooth_call. intros p _. eapply returns_bind; [apply session_bind_returns|].
    intros r (u & -> & _). by apply returns_ret.
  - intros b ->. apply returns_ret. by exists tt.
Qed.

Lemma sync_exchange_total fuel v peer query w :
  rounds_enough fuel query w -> wp (sync_exchange fuel h v peer query timeout) (answers query w) w.
Proof.
  intros Hf. unfold sync_exchange.
  eapply wp_returns; [exact (returns_answer instant_now eq_refl)|]. intros c0 w0 _ Hc0.
  eapply wp_returns; [apply connect_returns|]. intros r w1 Hr Hc1.
  eapply wp_returns; [exact (returns_answer (tracing _ _) eq_refl)|]. intros u w1' _ Hc1'.
  assert (wp (now ← do_call instant_now; deadline ← instant_add now timeout;
    exchange (sync_send fuel h v deadline c0 peer) (sync_read_prefix fuel h v deadline c0 peer)
      (sync_read_body fuel h v deadline c0 peer) query)
    (answers query w) w1') as Hx; [|by destruct Hr as [-> | ->]].
  eapply wp_returns; [exact (returns_answer instant_now eq_refl)|]. intros now w2 Hnow Hc2. simpl in Hnow.
  eapply wp_returns; [apply instant_add_returns; lia|]. intros d w3 -> Hc3.
  assert (calm w w3) as Hc by (by do 4 (etrans; [eassumption|])).
  eapply wp_mono; [|intros o w4; by apply answers_calm].
  apply (exchange_total fuel); [| | |by eapply enough_calm].
  - intros framed w4 H1 H2.
    eapply wp_mono; [apply sync_write_total; [lia|pose proof (len_nonneg framed); lia|simpl; lia]|].
    intros o w5. simpl. by rewrite drop_0.
  - intros buf w4 H1. unfold sync_read_prefix.
    eapply wp_returns; [exact (returns_answer instant_now eq_refl)|]. intros read_t0 w5 _ Hc5.
    eapply wp_mono; [|intros o w6; by apply fills_calm]. destruct Hc5 as (Hi5 & _ & Hs5).
    eapply (sync_read_total fuel _ v (now + timeout) 0 [] buf w5); [lia|rewrite Hi5; lia].
  - intros buf w4 H1. unfold sync_read_body. apply wp_try_bind.
    eapply wp_mono; [eapply (sync_read_total fuel _ v (now + timeout) 0 [] buf w4); lia|].
    intros o w5 (Ho & Hst & Hfill). unfold fills. case_decide.
    + destruct Hfill as [-> Hi]. eapply wp_returns; [exact (returns_answer (tracing _ _) eq_refl)|].
      intros u' w6 _ (Hi6 & Ho6 & Hs6). apply wp_ret.
      split_and!; [congruence|lia|done|congruence].
    + destruct Hfill as (a & -> & -> & Hi). split_and!; eauto.
Qed.

Lemma query_sync_total fuel peer source query w :
  rounds_enough fuel query w -> same_family peer source ->
  wp (query_tcp_dns_sync fuel peer source query timeout) (answers query w) w.
Proof.
  intros Hf Hfam. unfold query_tcp_dns_sync. eapply wp_returns; [apply register_worker_returns|]. intros _ w1 _ Hc1.
  eapply wp_returns_ok; [apply create_tcp_returns|]. intros h' w2 -> Hc2.
  assert (calm w w2) as Hc by (by etrans). eapply wp_mono; [|intros o w'; by apply answers_calm].
  apply answers_finally; [|apply drop_returns].
  eapply wp_returns_ok; [by apply sync_source_bind_returns|]. intros _ w3 _ Hc3.
  eapply wp_returns; [exact (returns_answer vppcom_epoll_create eq_refl)|]. intros v w4 Hv Hc4. simpl in Hv.
  rewrite (proj2 (Z.ltb_ge _ _)) by done. cbn zeta.
  eapply wp_returns; [exact (returns_answer (vppcom_epoll_ctl _ _ _ _) eq_refl)|]. intros rv w5 Hrv Hc5.
  simpl in Hrv. rewrite (proj2 (Z.ltb_ge _ _)) by done.
  assert (calm w2 w5) as Hc' by (by do 2 (etrans; [eassumption|])).
  eapply wp_mono; [|intros o w'; by apply answers_calm].
  apply answers_finally.
  - apply sync_exchange_total. eapply enough_calm; [|exact Hf]. by etrans.
  - unfold epoll_guard_drop. smooth_call. intros rc _. by apply returns_ret.
Qed.

(** C5. The query on a task and the query on a blocking thread are
    equivalent: on a network that carries the exchange to its end within the
    timeout, both return exactly the reference answer, a pure function of the
    query and of the peer's byte stream, and both send exactly the framed query;
    how the stream is cut into reads, how many bytes each write accepts and
    how often the session would block make no difference. *)
Theorem tcp_queries_agree fuel peer source query w :
  rounds_enough fuel query w -> same_family peer source ->
  let reference := reference_answer query (in_of w) in
  let sent := out_of w ++ reference_request query in
  (exists w', query_tcp_dns_async fuel peer source query timeout w = (Done reference, w') /\ out_of w' = sent) /\
  (exists w', query_tcp_dns_sync fuel peer source query timeout w = (Done reference, w') /\ out_of w' = sent).
Proof.
  intros Hf Hfam. pose proof (query_async_total fuel peer source query w Hf Hfam) as [Ha Hao].
  pose proof (query_sync_total fuel peer source query w Hf Hfam) as [Hs Hso]. split.
  - destruct (query_tcp_dns_async _ _ _ _ _ w) as [o w']. simpl in *. subst o. eauto.
  - destruct (query_tcp_dns_sync _ _ _ _ _ w) as [o w']. simpl in *. subst o. eauto.
Qed.
End Smooth.
