(* ===== verification/Deadline.v ===== *)
(** * Termination of the polling loops (src/dgram.rs)

    With a clock that moves on while the thread sleeps or polls, the one-shot
    UDP query, the TCP query on a blocking thread and the verified binds
    return within a number of rounds their timeouts bound; the long-lived
    socket's query does not, since a stray datagram sends it round its loop
    without a look at the clock. *)

From S2P Require Import Prelude Net Errors Ffi World Sim Session App Reactor Replay Ownership Stream Channel Dgram Listener Framing Query.

(** What the standard library promises of [Instant::now] and
    [thread::sleep]: the clock shows the time, never goes back, and a sleep
    lasts at least as long as asked. *)
Class SleepingClock `{Env} (time : ext -> Z) : Prop := {
  clock_read : forall t x, fst (env_step instant_now t x) = time x;
  clock_mono : forall c t x, time x <= time (snd (env_step c t x));
  clock_sleep : forall n t x, time x + n <= time (snd (env_step (thread_sleep n) t x))
}.

(** [m] comes to an end: it returns or panics. *)
Definition halts `{Env} {A} (m : M A) : Prop := forall w, fst (m w) <> OutOfFuel.

Section Halts.
Context `{E : Env}.

Lemma halts_ret {A} (a : A) : halts (mret a).
Proof. by intros w. Qed.

Lemma halts_panic {A} : halts (panic : M A).
Proof. by intros w. Qed.

Lemma halts_gets {A} (f : World -> A) : halts (gets f).
Proof. by intros w. Qed.

Lemma halts_set_registered r : halts (set_registered r).
Proof. by intros w. Qed.

Lemma halts_call c : halts (do_call c).
Proof. intros w. destruct (do_call_Done c w) as (r & w' & ->). done. Qed.

Lemma halts_bind {A B} (m : M A) (k : A -> M B) : halts m -> (forall a, halts (k a)) -> halts (m ≫= k).
Proof.
  intros Hm Hk w. specialize (Hm w). unfold mbind, M_bind.
  destruct (m w) as [[a| |] w1]; [apply Hk|done|done].
Qed.

Lemma halts_try_bind {A B X} (m : M (result A X)) (k : A -> M (result B X)) :
  halts m -> (forall a, halts (k a)) -> halts (try_bind m k).
Proof. intros Hm Hk. apply halts_bind; [done|]. intros []; [apply Hk|apply halts_ret]. Qed.

Lemma halts_unless_ok {A X} (m : M (result A X)) cleanup : halts m -> halts (unless_ok m cleanup).
Proof. intros Hm w. specialize (Hm w). unfold unless_ok. by destruct (m w) as [[[]| |]]. Qed.

Lemma halts_finally {A} (m : M A) cleanup : halts m -> halts (finally m cleanup).
Proof. intros Hm w. specialize (Hm w). unfold finally. by destruct (m w) as [[]]. Qed.
End Halts.

Ltac halts_go :=
  repeat first
    [ solve [auto 2]
    | apply halts_ret | apply halts_panic | apply halts_gets | apply halts_set_registered
    | apply halts_finally | apply halts_unless_ok
    | apply halts_try_bind; [|intros ?]
    | apply halts_bind; [|intros ?]
    | lazymatch goal with
      | |- halts (do_call ?c) => exact (halts_call c)
      | |- halts (if ?b then _ else _) => destruct b
      | |- halts (let (_, _) := ?x in _) => destruct x
      | |- halts (match ?x with _ => _ end) => destruct x
      end ].

Section Deadline.
Context `{E : Env} (time : ext -> Z) `{!SleepingClock time}.
Implicit Types w : World.

Definition now_of w : Z := time (w_ext w).

(** Rounds left before the deadline, when a round takes at least [grain]. *)
Definition rounds_left (grain deadline : Z) w : nat := Z.to_nat ((deadline - now_of w) / grain + 1).

Lemma wp_call_clock c Q w :
  (forall r w', now_of w <= now_of w' -> w_tid w' = w_tid w -> Q (Done r) w') -> wp (do_call c) Q w.
Proof.
  intros HQ. apply wp_call. intros r x He. apply HQ; [|done].
  unfold now_of. simpl. pose proof (clock_mono c (w_tid w) (w_ext w)) as Hm. by rewrite He in Hm.
Qed.

Lemma wp_now Q w :
  (forall w', now_of w <= now_of w' -> Q (Done (now_of w)) w') -> wp (do_call instant_now) Q w.
Proof.
  intros HQ. apply wp_call. intros r x He.
  pose proof (clock_read (w_tid w) (w_ext w)) as Hr. rewrite He in Hr. simpl in Hr. subst r.
  apply HQ. unfold now_of. simpl. pose proof (clock_mono instant_now (w_tid w) (w_ext w)) as Hm.
  by rewrite He in Hm.
Qed.

Lemma wp_sleep n Q w :
  (forall r w', now_of w + n <= now_of w' -> Q (Done r) w') -> wp (do_call (thread_sleep n)) Q w.
Proof.
  intros HQ. apply wp_call. intros r x He. apply HQ. unfold now_of. simpl.
  pose proof (clock_sleep n (w_tid w) (w_ext w)) as Hm. by rewrite He in Hm.
Qed.

Lemma rounds_left_sleep grain deadline w w' :
  0 < grain -> now_of w < deadline -> now_of w + grain <= now_of w' ->
  (rounds_left grain deadline w' < rounds_left grain deadline w)%nat.
Proof.
  unfold rounds_left. intros Hg Hlt Hs.
  assert ((deadline - now_of w') / grain <= (deadline - now_of w) / grain - 1).
  { replace ((deadline - now_of w) / grain - 1) with ((deadline - now_of w + (-1) * grain) / grain)
      by (rewrite Z.div_add; lia).
    apply Z.div_le_mono; lia. }
  assert (0 <= (deadline - now_of w) / grain) by (apply Z.div_pos; lia). lia.
Qed.

Lemma rounds_left_mono grain deadline w w' :
  0 < grain -> now_of w <= now_of w' -> (rounds_left grain deadline w' <= rounds_left grain deadline w)%nat.
Proof.
  unfold rounds_left. intros Hg Hle.
  assert ((deadline - now_of w') / grain <= (deadline - now_of w) / grain) by (apply Z.div_le_mono; lia). lia.
Qed.

Lemma millis_5_pos : 0 < millis 5.
Proof. unfold millis. lia. Qed.

(** The polling round: the clock does not go back, and going round again
    means it was before the deadline and slept. *)
Lemma udp_poll_round_clock h deadline buf w :
  wp (udp_poll_round h deadline buf) (fun o w' =>
    match o with
    | Done (inl _) => (rounds_left (millis 5) deadline w' < rounds_left (millis 5) deadline w)%nat
    | Done (inr _) => True
    | Unwound _ => True
    | OutOfFuel => False
    end) w.
Proof.
  unfold udp_poll_round, SessionHandle.recvfrom. apply wp_bind, wp_bind.
  lazymatch goal with |- wp (do_call ?c) ?Q ?w => apply (wp_call_clock c Q w) end.
  intros [[rc data] ep] w1 H1 _. cbn beta iota zeta.
  pose proof (rounds_left_mono (millis 5) deadline w w1 millis_5_pos H1).
  destruct (rc <? 0); apply wp_ret; [|by apply wp_ret].
  destruct (from_rc rc); try by apply wp_ret.
  apply wp_bind. lazymatch goal with |- wp _ ?Q ?w => apply (wp_now Q w) end.
  intros w2 H2. destruct (deadline <=? now_of w1) eqn:Hd; bool_to_prop; [by apply wp_ret|].
  apply wp_bind. lazymatch goal with |- wp (do_call (thread_sleep ?n)) ?Q ?w => apply (wp_sleep n Q w) end.
  intros [] w3 H3. apply wp_ret.
  pose proof (rounds_left_sleep (millis 5) deadline w1 w3 millis_5_pos Hd ltac:(lia)). lia.
Qed.

Lemma udp_poll_halts fuel h deadline buf w :
  (rounds_left (millis 5) deadline w < fuel)%nat -> wp (loop fuel (udp_poll_round h deadline) buf) (fun o _ => o <> OutOfFuel) w.
Proof.
  revert buf w. induction fuel as [|fuel IH]; intros buf w Hf; [lia|]. cbn [loop]. apply wp_bind.
  eapply wp_mono; [apply udp_poll_round_clock|]. intros [[buf'|r]| |] w' Hw'; try done.
  apply IH. lia.
Qed.

Lemma udp_tail_halts fuel h timeout :
  (Z.to_nat (timeout / millis 5 + 1) < fuel)%nat ->
  halts (now ← do_call instant_now; deadline ← instant_add now timeout;
         loop fuel (udp_poll_round h deadline) udp_buf).
Proof.
  intros Hf w.
  assert (wp (now ← do_call instant_now; deadline ← instant_add now timeout;
    loop fuel (udp_poll_round h deadline) udp_buf) (fun o _ => o <> OutOfFuel) w) as Hwp; [|exact Hwp].
  apply wp_bind. lazymatch goal with |- wp _ ?Q ?w => apply (wp_now Q w) end. intros w1 H1.
  apply wp_bind. unfold instant_add. case_match; [|done]. apply wp_ret, udp_poll_halts.
  pose proof (rounds_left_mono (millis 5) (now_of w + timeout) w w1 millis_5_pos H1) as Hm.
  unfold rounds_left at 2 in Hm. replace (now_of w + timeout - now_of w) with timeout in Hm by lia. lia.
Qed.

Lemma udp_query_halts fuel peer source query timeout :
  (Z.to_nat (timeout / millis 5 + 1) < fuel)%nat -> halts (query_udp_sync fuel peer source query timeout).
Proof.
  intros Hf. unfold query_udp_sync, register_worker_thread, SessionHandle.create_udp, udp_bind_ip,
    parse_ip_unwrap, SessionHandle.listen, SessionHandle.sendto.
  assert (forall h ip n, halts (bind_retry h ip n)) as Hretry.
  { intros h ip n. induction n; cbn [bind_retry]; unfold SessionHandle.bind; halts_go. }
  pose proof (fun h => udp_tail_halts fuel h timeout Hf) as Htail.
  halts_go.
Qed.

(** C29. The one-shot UDP query comes to an end: with a clock that never goes
    back and sleeps that last as long as asked, it returns after at most
    timeout / 5 ms + 2 rounds of its polling loop, whatever libvppcom
    answers. *)
Theorem udp_query_terminates fuel peer source query timeout :
  (Z.to_nat (timeout / millis 5 + 1) < fuel)%nat -> halts (query_udp_sync fuel peer source query timeout).
Proof. apply udp_query_halts. Qed.

(** ** Loops that poll an epoll set

    [drain_mq] and the bind verification call [vppcom_epoll_wait] with a
    timeout, but it may return at once; all that is needed is that it takes
    some time, at least [grain]. *)

Class PollTakesTime (grain : Z) : Prop := {
  grain_pos : 0 < grain;
  poll_time : forall v es m d t x, time x + grain <= time (snd (env_step (vppcom_epoll_wait v es m d) t x))
}.

(** A write of some bytes accepts some, or fails. *)
Definition write_moves_ok (c : call) : ret c -> Prop :=
  match c with vppcom_session_write _ _ n => fun rc => 0 < n -> rc <> 0 | _ => fun _ => True end.

Definition ends {A} (o : Outcome A) (w : World) : Prop := o <> OutOfFuel.

Lemma replay_clock x l x' : replay x l x' -> time x <= time x'.
Proof.
  induction 1 as [x|x t c r x' l x'' He _ IH]; [lia|]. pose proof (clock_mono c t x) as Hm. rewrite He in Hm.
  simpl in Hm. lia.
Qed.

(** Whatever runs, the clock does not go back. *)
Lemma wp_honest_clock {A} (m : M A) Q w :
  honest m -> wp m Q w -> wp m (fun o w' => Q o w' /\ now_of w <= now_of w') w.
Proof. intros Hm HQ. destruct (Hm w) as (l & _ & Hr). split; [exact HQ|by eapply replay_clock]. Qed.

Lemma wp_halts {A} (m : M A) w : halts m -> wp m ends w.
Proof. intros Hm. apply Hm. Qed.

Section Polling.
Context (grain : Z) `{!PollTakesTime grain}.

Lemma wp_poll v es m d Q w :
  (forall r w', now_of w + grain <= now_of w' -> Q (Done r) w') -> wp (do_call (vppcom_epoll_wait v es m d)) Q w.
Proof.
  intros HQ. apply wp_call. intros r x He. apply HQ. unfold now_of. simpl.
  pose proof (poll_time v es m d (w_tid w) (w_ext w)) as Hm. by rewrite He in Hm.
Qed.

(** Looking at the clock, then polling, takes a round off what is left. *)
Lemma poll_decreases deadline w w' :
  now_of w < deadline -> now_of w + grain <= now_of w' ->
  (rounds_left grain deadline w' < rounds_left grain deadline w)%nat.
Proof. apply rounds_left_sleep, grain_pos. Qed.

Lemma drain_mq_clock v Q w :
  (forall w', now_of w + grain <= now_of w' -> Q (Done tt) w') -> wp (drain_mq v) Q w.
Proof.
  intros HQ. unfold drain_mq. apply wp_bind.
  lazymatch goal with |- wp (do_call (vppcom_epoll_wait ?v ?es ?m ?d)) ?Q ?w => apply (wp_poll v es m d Q w) end.
  intros r w' Hw. apply wp_ret. by apply HQ.
Qed.

(** *** The read loops *)

(** Bytes missing, plus rounds left. *)
Definition read_work (deadline : Z) (st : Z * Z * list u8) w : nat :=
  Z.to_nat (len st.2 - st.1.1) + rounds_left grain deadline w.

(** The clock does not go back over a log line. *)
Lemma wp_log {A} lvl msg (k : unit -> M A) Q w :
  (forall w', now_of w <= now_of w' -> wp (k tt) Q w') -> wp (do_call (tracing lvl msg) ≫= k) Q w.
Proof.
  intros Hk. apply wp_bind. lazymatch goal with |- wp (do_call ?c) ?Q ?w => apply (wp_call_clock c Q w) end.
  intros [] w' Hw _. by apply Hk.
Qed.

Lemma sync_read_round_clock line h v deadline st w :
  0 <= st.1.1 ->
  wp (sync_read_round line h v deadline st) (fun o w' =>
    match o with
    | Done (inl st') => 0 <= st'.1.1 /\ (read_work deadline st' w' < read_work deadline st w)%nat
    | Done (inr _) => True
    | Unwound _ => True
    | OutOfFuel => False
    end) w.
Proof.
  destruct st as [[got polls] buf]. simpl. intros Hgot. unfold sync_read_round.
  destruct (got <? len buf) eqn:Hlt; bool_to_prop; [|by apply wp_ret].
  apply wp_bind. lazymatch goal with |- wp _ ?Q ?w => apply (wp_now Q w) end. intros w1 H1.
  destruct (deadline <=? now_of w) eqn:Hd; bool_to_prop; [by apply wp_log; intros; apply wp_ret|].
  unfold SessionHandle.read. apply wp_bind, wp_bind.
  lazymatch goal with |- wp (do_call ?c) ?Q ?w => apply (wp_call_clock c Q w) end.
  intros [rc data] w2 H2 _. cbn beta iota zeta.
  assert (len (take (Z.to_nat got) buf ++ fill (drop (Z.to_nat got) buf) data) = len buf) as Hlen.
  { unfold len in *. rewrite length_app, length_fill, length_take, length_drop. lia. }
  destruct (rc <? 0) eqn:Hneg; bool_to_prop; apply wp_ret.
  - destruct (from_rc rc); try by apply wp_ret.
    all: apply wp_bind, drain_mq_clock; intros w3 H3; apply wp_ret; split; [done|].
    all: unfold read_work; cbn [fst snd]; rewrite Hlen.
    all: pose proof (poll_decreases deadline w w3 Hd ltac:(lia)); lia.
  - destruct (rc =? 0) eqn:Hz; bool_to_prop; apply wp_ret; [done|]. split; [simpl; lia|].
    unfold read_work. cbn [fst snd]. rewrite Hlen.
    pose proof (rounds_left_mono grain deadline w w2 grain_pos ltac:(lia)). lia.
Qed.

Lemma sync_read_halts fuel line h v deadline st w :
  0 <= st.1.1 -> (read_work deadline st w < fuel)%nat -> wp (loop fuel (sync_read_round line h v deadline) st) ends w.
Proof.
  revert st w. induction fuel as [|fuel IH]; intros st w H0 Hf; [lia|]. cbn [loop]. apply wp_bind.
  eapply wp_mono; [by apply sync_read_round_clock|]. intros [[st'|r]| |] w' Hw'; try done.
  apply IH; [apply Hw'|]. destruct Hw'. lia.
Qed.

(** *** The write loop *)

Definition write_work (deadline : Z) (framed : list u8) (st : Z * Z * option VclError) w : nat :=
  Z.to_nat (len framed - st.1.1) + rounds_left grain deadline w.

Lemma sync_write_round_clock `{!EnvSat write_moves_ok} h v deadline c0 peer framed st w :
  0 <= st.1.1 ->
  wp (sync_write_round h v deadline c0 peer framed st) (fun o w' =>
    match o with
    | Done (inl st') => 0 <= st'.1.1 /\ (write_work deadline framed st' w' < write_work deadline framed st w)%nat
    | Done (inr _) => True
    | Unwound _ => True
    | OutOfFuel => False
    end) w.
Proof.
  destruct st as [[sent polls] err]. cbn [fst]. intros Hsent. unfold sync_write_round.
  destruct (sent <? len framed) eqn:Hlt; bool_to_prop; [|by apply wp_ret].
  unfold SessionHandle.write. apply wp_bind, wp_bind. set (buf := drop _ framed).
  lazymatch goal with |- wp (do_call ?c) ?Q ?w => apply (wp_call c Q w) end. intros rc x He.
  pose proof (env_sat (ok := write_moves_ok) (vppcom_session_write h buf (len buf)) (w_tid w) (w_ext w)) as Hok.
  pose proof (clock_mono (vppcom_session_write h buf (len buf)) (w_tid w) (w_ext w)) as H1. rewrite He in Hok, H1.
  simpl in Hok, H1. set (w1 := push_event _ _). assert (now_of w <= now_of w1) as H2 by done.
  destruct (rc <? 0) eqn:Hneg; bool_to_prop; apply wp_ret.
  - destruct (from_rc rc); try by apply wp_log; intros; apply wp_ret.
    all: apply wp_bind; lazymatch goal with |- wp _ ?Q ?w => apply (wp_now Q w) end; intros w2 H3.
    all: destruct (deadline <=? now_of w1) eqn:Hd; bool_to_prop; [by apply wp_log; intros; apply wp_ret|].
    all: apply wp_bind, drain_mq_clock; intros w3 H4; apply wp_ret; split; [done|].
    all: pose proof (poll_decreases deadline w1 w3 Hd ltac:(lia)).
    all: pose proof (rounds_left_mono grain deadline w w1 grain_pos H2); unfold write_work; cbn [fst snd]; lia.
  - assert (rc <> 0) as Hnz.
    { apply Hok. unfold buf, len in *. rewrite length_drop. lia. }
    assert (forall w2, now_of w1 <= now_of w2 ->
      (write_work deadline framed ((sent + rc)%Z, polls, err) w2 < write_work deadline framed (sent, polls, err) w)%nat).
    { intros w2 H3. unfold write_work. cbn [fst].
      pose proof (rounds_left_mono grain deadline w w2 grain_pos ltac:(lia)). lia. }
    destruct (0 <? polls); [apply wp_log; intros w2 H3|apply wp_bind, wp_ret]; apply wp_ret;
      (split; [simpl; lia|auto with lia]).
Qed.

Lemma sync_write_halts `{!EnvSat write_moves_ok} fuel h v deadline c0 peer framed st w :
  0 <= st.1.1 -> (write_work deadline framed st w < fuel)%nat ->
  wp (loop fuel (sync_write_round h v deadline c0 peer framed) st) ends w.
Proof.
  revert st w. induction fuel as [|fuel IH]; intros st w H0 Hf; [lia|]. cbn [loop]. apply wp_bind.
  eapply wp_mono; [by apply sync_write_round_clock|]. intros [[sent'|r]| |] w' Hw'; try done.
  apply IH; [apply Hw'|]. destruct Hw'. lia.
Qed.

(** *** The whole query *)

Lemma ends_try_bind {A B} (m : M (Result A)) (k : A -> M (Result B)) w :
  honest m -> wp m ends w -> (forall a w', now_of w <= now_of w' -> wp (k a) ends w') -> wp (try_bind m k) ends w.
Proof.
  intros Hh Hm Hk. apply wp_try_bind. eapply wp_mono; [apply (wp_honest_clock m ends w Hh Hm)|].
  intros [[a|e]| |] w' [He Hw]; try done. by apply Hk.
Qed.

Lemma honest_sync_send fuel h v d c0 peer framed : honest (sync_send fuel h v d c0 peer framed).
Proof. unfold sync_send, sync_write_round, SessionHandle.write, drain_mq. honest_go. Qed.

Lemma honest_sync_read_prefix fuel h v d c0 peer buf : honest (sync_read_prefix fuel h v d c0 peer buf).
Proof. unfold sync_read_prefix, sync_read, sync_read_round, SessionHandle.read, drain_mq. honest_go. Qed.

(** The rounds a deadline [timeout] ahead leaves. *)
Definition deadline_rounds (timeout : Z) : Z := Z.max 0 (timeout / grain + 1).

Lemma rounds_after_now timeout w w' : now_of w <= now_of w' ->
  Z.of_nat (rounds_left grain (now_of w + timeout) w') <= deadline_rounds timeout.
Proof.
  intros Hle. pose proof (rounds_left_mono grain (now_of w + timeout) w w' grain_pos Hle) as Hm.
  unfold rounds_left at 2 in Hm. replace (now_of w + timeout - now_of w) with timeout in Hm by lia.
  unfold deadline_rounds. lia.
Qed.

Lemma decode_lenbuf_halts lenbuf w Q :
  (forall o, match o with Done (Ok n) => 0 <= n <= U16_MAX | OutOfFuel => False | _ => True end -> Q o w) ->
  wp (decode_lenbuf lenbuf) Q w.
Proof.
  intros HQ. unfold decode_lenbuf. destruct lenbuf as [|hi [|lo [|]]]; try by apply (HQ (Unwound _)).
  apply wp_ret, HQ. unfold decode_tcp_dns_len. pose proof (from_be_bytes_range hi lo). by destruct (_ =? 0).
Qed.

(** From the deadline on. *)
Lemma exchange_ends `{!EnvSat write_moves_ok} fuel h v peer c0 query timeout w :
  len query + 2 + U16_MAX + deadline_rounds timeout < Z.of_nat fuel ->
  wp (now ← do_call instant_now; deadline ← instant_add now timeout;
    exchange (sync_send fuel h v deadline c0 peer) (sync_read_prefix fuel h v deadline c0 peer)
      (sync_read_body fuel h v deadline c0 peer) query) ends w.
Proof.
  intros Hf. apply wp_bind. lazymatch goal with |- wp _ ?Q ?w => apply (wp_now Q w) end. intros w1 H1.
  apply wp_bind. unfold instant_add. case_match; [|done]. apply wp_ret.
  pose proof (len_nonneg query) as Hq. unfold exchange.
  apply wp_try_bind, wp_ret. destruct (frame_tcp_dns_query query) as [framed|e] eqn:Hframe; [|done].
  assert (len framed = len query + 2) as Hlen.
  { revert Hframe. unfold frame_tcp_dns_query. case_match; [|done]. intros [= <-]. unfold len. simpl. lia. }
  unfold U16_MAX in Hf. apply ends_try_bind; [apply honest_sync_send| |].
  { apply sync_write_halts; [simpl; lia|]. unfold write_work. cbn [fst].
    pose proof (rounds_after_now timeout w w1 H1). lia. }
  intros [] w2 H2. apply ends_try_bind; [apply honest_sync_read_prefix| |].
  { apply wp_bind. lazymatch goal with |- wp _ ?Q ?w => apply (wp_now Q w) end. intros w2' H2'.
    apply sync_read_halts; [done|]. unfold read_work. cbn [fst snd]. unfold len at 1. cbn [length].
    pose proof (rounds_after_now timeout w w2' ltac:(lia)). lia. }
  intros lenbuf w3 H3. apply wp_try_bind, decode_lenbuf_halts. intros [[n|e]| |] Ho; try done.
  apply wp_try_bind. eapply wp_mono; [apply sync_read_halts; [done|]|].
  - unfold U16_MAX in Ho. unfold read_work. cbn [fst snd]. unfold len at 1.
    rewrite length_replicate. pose proof (rounds_after_now timeout w w3 ltac:(lia)). lia.
  - intros [[b|e]| |] w4 Hw4; try done. apply wp_log. intros. by apply wp_ret.
Qed.

Lemma sync_exchange_halts `{!EnvSat write_moves_ok} fuel h v peer query timeout :
  len query + 2 + U16_MAX + deadline_rounds timeout < Z.of_nat fuel ->
  halts (sync_exchange fuel h v peer query timeout).
Proof.
  intros Hf. unfold sync_exchange, SessionHandle.connect. apply halts_bind; [halts_go|]. intros c0.
  apply halts_bind; [halts_go|]. intros r. apply halts_bind; [halts_go|]. intros _.
  assert (halts (now ← do_call instant_now; deadline ← instant_add now timeout;
    exchange (sync_send fuel h v deadline c0 peer) (sync_read_prefix fuel h v deadline c0 peer)
      (sync_read_body fuel h v deadline c0 peer) query))
    as Hx; [|destruct r as [|[]]; (exact Hx || apply halts_ret)].
  intros w. apply exchange_ends. lia.
Qed.

(** C25. The TCP query on a blocking thread comes to an end: when polling the
    epoll set takes some time and a write of some bytes never reports zero,
    each of its loops runs for at most one round per byte and one per [grain]
    of the timeout, whatever libvppcom answers. *)
Theorem tcp_sync_query_terminates `{!EnvSat write_moves_ok} fuel peer source query timeout :
  len query + 2 + U16_MAX + deadline_rounds timeout < Z.of_nat fuel ->
  halts (query_tcp_dns_sync fuel peer source query timeout).
Proof.
  intros Hf. unfold query_tcp_dns_sync, register_worker_thread, SessionHandle.create_tcp.
  pose proof (fun h v => sync_exchange_halts fuel h v peer query timeout Hf) as Hx.
  assert (forall h ip n, halts (bind_retry h ip n)) as Hretry.
  { intros h ip n. induction n; cbn [bind_retry]; unfold SessionHandle.bind; halts_go. }
  unfold sync_source_bind. halts_go.
Qed.

(** *** Verified binds *)

Lemma bind_drain_halts fuel v deadline w :
  (rounds_left grain deadline w < fuel)%nat -> wp (bind_drain fuel v deadline) ends w.
Proof.
  unfold bind_drain. generalize (replicate 8 zero_event). revert w.
  induction fuel as [|fuel IH]; intros w events Hf; [lia|].
  cbn [loop]. apply wp_bind. unfold bind_drain_round at 1. apply wp_bind.
  lazymatch goal with |- wp _ ?Q ?w => apply (wp_now Q w) end. intros w1 H1.
  destruct (now_of w <? deadline) eqn:Hd; bool_to_prop; [|by apply wp_ret, wp_ret].
  apply wp_bind.
  lazymatch goal with |- wp (do_call (vppcom_epoll_wait ?v ?es ?m ?d)) ?Q ?w => apply (wp_poll v es m d Q w) end.
  intros [n evs] w2 H2. apply wp_ret. apply IH. pose proof (poll_decreases deadline w w2 Hd ltac:(lia)). lia.
Qed.

Lemma bind_window_halts {A} fuel v (k : M A) : deadline_rounds (millis 200) < Z.of_nat fuel -> halts k ->
  halts (now ← do_call instant_now; deadline ← instant_add now (millis 200); _ ← bind_drain fuel v deadline; k).
Proof.
  intros Hf Hk w.
  assert (wp (now ← do_call instant_now; deadline ← instant_add now (millis 200);
    _ ← bind_drain fuel v deadline; k) ends w) as Hwp; [|exact Hwp].
  apply wp_bind. lazymatch goal with |- wp _ ?Q ?w => apply (wp_now Q w) end. intros w1 H1.
  apply wp_bind. unfold instant_add. case_match; [|done]. apply wp_ret, wp_bind.
  eapply wp_mono; [apply bind_drain_halts|intros [u| |] w2 Ho; [by apply wp_halts|done..]].
  pose proof (rounds_after_now (millis 200) w w1 H1). lia.
Qed.

(** C38. Binding comes to an end: the 200 ms window in which a UDP socket's or
    a TCP listener's bind waits for VPP's refusal closes after one round per
    [grain], whatever libvppcom answers. *)
Theorem verified_binds_terminate fuel addr :
  deadline_rounds (millis 200) < Z.of_nat fuel -> halts (dgram_bind fuel addr) /\ halts (listener_bind fuel addr).
Proof.
  intros Hf. pose proof (fun A v k => @bind_window_halts A fuel v k Hf) as Hwin.
  assert (forall h a, halts (verify_bind_or_err fuel h a)) as Hv.
  { intros h a. unfold verify_bind_or_err. apply halts_bind; [exact (halts_call vppcom_epoll_create)|].
    intros v. destruct (_ <? 0); [apply halts_ret|]. cbn zeta.
    apply halts_bind; [exact (halts_call (vppcom_epoll_ctl _ _ _ _))|].
    intros rv. destruct (_ <? 0); [halts_go|]. apply Hwin.
    unfold SessionHandle.local_addr, SessionHandle.drop. halts_go. }
  unfold dgram_bind, listener_bind, register_worker_thread, SessionHandle.create_udp, SessionHandle.create_tcp,
    SessionHandle.bind, SessionHandle.listen, register, get_reactor. split; halts_go.
Qed.
End Polling.
End Deadline.

(** ** A flood of stray datagrams

    Every [recvfrom] delivers an empty datagram whose sender is 255.255.255.255. *)
Definition stray_ep : vppcom_endpt_t := mkEndpt 0 1 (Some (replicate 16 Byte.xff)) 0 0 0 None.

Definition flood : script := fun n c =>
  match c with
  | vppcom_session_recvfrom _ _ _ _ _ => (0, [], stray_ep)
  | instant_now => secs (Z.of_nat n)
  | c => default_ret c
  end.

(** The query of the long-lived socket never returns under such a flood,
    however far past the deadline the clock is. *)
Lemma stray_flood_never_returns fuel h deadline buf w :
  fst (loop fuel (@udp_sync_round (scripted flood) h (Sock.new IPV4_UNSPECIFIED 53) deadline) buf w) = OutOfFuel.
Proof.
  revert buf w. induction fuel as [|fuel IH]; intros buf w; [done|]. cbn [loop].
  unfold mbind at 1, M_bind at 1. unfold udp_sync_round at 1.
  apply IH.
Qed.
