(* ===== verification/Waits.v ===== *)
(** * Waiting comes to an end (src/reactor.rs, src/stream.rs)

    [wait_event] returns by its deadline, and with it [connect_async], once
    timers fire and the runtime lets time pass between two polls of a task.
    The end of a wait is not the end of the operation around it: the periodic
    task completes every wait, so the loops of [read] go round for as long as
    the peer says nothing, whatever timeout the caller asked for. *)

From S2P Require Import Prelude Net Errors Ffi World Sim Session App Reactor Replay Ownership Stream Channel Dgram Listener Framing Query Deadline.

(** What tokio promises of its clock and timers: a task is polled again only
    some time later, a timer is ready once its deadline has passed, and
    [select!] polls the deadline branch unless an earlier one is ready.
    [traffic] bounds what can still keep a task from looking at its deadline:
    how often the message queue will be readable, an epoll set report events,
    and the zero timeout that follows a drain be found pending. *)
Class TimedRuntime `{Env} (time : ext -> Z) (grain : Z) (traffic : ext -> nat) : Prop := {
  timed_clock :: SleepingClock time;
  timed_grain : 0 < grain;
  timed_suspend r t x : time x + grain <= time (snd (env_step (suspend r) t x));
  timed_sleep d t x : fst (env_step (poll_sleep_until d) t x) = (d <=? time x);
  timed_order t x : BrDeadline ∈ fst (env_step select_order t x);
  timed_traffic c t x : (traffic (snd (env_step c t x)) <= traffic x)%nat;
  timed_mq t x r x' : env_step poll_mq_readable t x = (Some r, x') -> (traffic x' < traffic x)%nat;
  timed_zero t x x' : env_step poll_timeout_zero t x = (false, x') -> (traffic x' < traffic x)%nat;
  timed_epoll v es n d t x k evs x' :
    env_step (vppcom_epoll_wait v es n d) t x = ((k, evs), x') -> 0 < k -> (traffic x' < traffic x)%nat
}.

Section Waits.
Context `{E : Env} (time : ext -> Z) (grain : Z) (traffic : ext -> nat) `{!TimedRuntime time grain traffic}.
Implicit Types w : World.

Definition traffic_of w : nat := traffic (w_ext w).

(** Later, with no more to come than before. *)
Definition later w w' : Prop := now_of time w <= now_of time w' /\ (traffic_of w' <= traffic_of w)%nat.

#[global] Instance later_preorder : PreOrder later.
Proof. split; [by split|]. intros w1 w2 w3 [??] [??]. split; lia. Qed.

Lemma wp_later c Q w : (forall r w', later w w' -> Q (Done r) w') -> wp (do_call c) Q w.
Proof.
  intros HQ. apply wp_call. intros r x He. apply HQ. unfold later, now_of, traffic_of. simpl.
  pose proof (clock_mono c (w_tid w) (w_ext w)) as Hm. pose proof (timed_traffic c (w_tid w) (w_ext w)) as Ht.
  rewrite He in *. done.
Qed.

(** [m] ends, later than it began, and what it returns satisfies [P]. *)
Definition ends_later {A} (m : M A) (P : A -> World -> Prop) w : Prop :=
  wp m (fun o w' => later w w' /\ match o with Done a => P a w' | Unwound _ => True | OutOfFuel => False end) w.

Lemma later_mono {A} (m : M A) (P Q : A -> World -> Prop) w :
  ends_later m P w -> (forall a w', later w w' -> P a w' -> Q a w') -> ends_later m Q w.
Proof. unfold ends_later. intros Hm HPQ. eapply wp_mono; [exact Hm|]. intros [a| |] w' [Hl Ha]; auto. Qed.

Lemma later_bind {A B} (m : M A) (k : A -> M B) (P : A -> World -> Prop) (Q : B -> World -> Prop) w :
  ends_later m P w -> (forall a w1, later w w1 -> P a w1 -> ends_later (k a) Q w1) -> ends_later (m ≫= k) Q w.
Proof.
  unfold ends_later. intros Hm Hk. apply wp_bind. eapply wp_mono; [exact Hm|]. intros [a| |] w1 [Hl Ha]; [|done..].
  eapply wp_mono; [by apply Hk|]. intros o w' [Hl' Ho]. split; [by etrans|done].
Qed.

Lemma later_ret {A} (a : A) (P : A -> World -> Prop) w : P a w -> ends_later (mret a) P w.
Proof. by split. Qed.

(** A call, with what it uses up. *)
Lemma later_call_with c (P : ret c -> World -> Prop) w :
  (forall r x, env_step c (w_tid w) (w_ext w) = (r, x) ->
     P r (push_event (Ev (w_tid w) c r) (with_ext x w))) ->
  ends_later (do_call c) P w.
Proof.
  intros HP. apply (wp_call c). intros r x He. split; [|by apply HP]. unfold later, now_of, traffic_of. simpl.
  pose proof (clock_mono c (w_tid w) (w_ext w)) as Hm. pose proof (timed_traffic c (w_tid w) (w_ext w)) as Ht.
  rewrite He in *. done.
Qed.

(** Applies [later_call_with] to the call of the goal. *)
Ltac call_later :=
  lazymatch goal with |- ends_later (do_call ?c) ?P ?w => apply (later_call_with c P w) end.

Lemma later_call c w : ends_later (do_call c) (fun _ _ => True) w.
Proof. by apply later_call_with. Qed.

Lemma notify_range_later ws evs i n w : ends_later (notify_range ws evs i n) (fun _ _ => True) w.
Proof.
  revert i w. induction n as [|n IH]; intros i w; cbn [notify_range]; [by apply later_ret|].
  destruct (evs !! i) as [ev|]; [|by split].
  apply (later_bind _ _ (fun _ _ => True)); [destruct (ws !! _) as [k|]; [exact (later_call (notify_one k) w)|by apply later_ret]|].
  intros a w1 _ _. apply IH.
Qed.

(** Draining ends: a round that goes on has used up some traffic. *)
Lemma drain_round_later inner events w :
  ends_later (drain_round inner events) (fun r w' =>
    match r with inl _ => (traffic_of w' < traffic_of w)%nat | inr _ => True end) w.
Proof.
  apply (later_bind _ _ (fun r w' => 0 < r.1 -> (traffic_of w' < traffic_of w)%nat)).
  - call_later. intros [n evs] x He Hn. exact (timed_epoll _ _ _ _ _ _ _ _ _ He Hn).
  - intros [n evs] w1 _ Hlt. cbn beta iota zeta. destruct (n <=? 0) eqn:Hn; bool_to_prop; [by apply later_ret|].
    specialize (Hlt Hn). apply (later_bind _ _ (fun _ _ => True)); [apply notify_range_later|].
    intros _ w2 [_ Hl] _. case_match; apply later_ret; [done|lia].
Qed.

Lemma drain_later fuel w : (traffic_of w < fuel)%nat -> ends_later (drain_events fuel) (fun _ _ => True) w.
Proof.
  unfold drain_events, drain_events_with_inner. intros Hf.
  apply (later_bind _ _ (fun _ w1 => w1 = w)); [by split|]. intros inner w1 _ ->.
  generalize (replicate 64 zero_event). revert w Hf.
  induction fuel as [|fuel IH]; intros w Hf events; [lia|]. cbn [loop].
  eapply later_bind; [apply drain_round_later|].
  intros [events'|[]] w1 Hl Hlt; [apply IH; lia|by apply later_ret].
Qed.

(** *** One poll *)

Lemma poll_select_later order n d w :
  ends_later (poll_select order n d) (fun sel w' =>
    match sel with
    | None => BrDeadline ∈ order -> now_of time w < d
    | Some (SelMq _) => (traffic_of w' < traffic_of w)%nat
    | Some _ => True
    end) w.
Proof.
  revert w. induction order as [|[] order IH]; intros w; cbn [poll_select]; [apply later_ret; set_solver|..].
  - apply (later_bind _ _ (fun r w' => match r with Some _ => (traffic_of w' < traffic_of w)%nat | None => True end)).
    + call_later. intros [e|] x He; [exact (timed_mq _ _ _ _ He)|done].
    + intros [e|] w1 [Hn Ht] He; [by apply later_ret|]. eapply later_mono; [apply IH|].
      intros [[]|] w' _ Hw'; try done; [lia|]. intros Hin. assert (now_of time w1 < d) by (apply Hw'; set_solver). lia.
  - apply (later_bind _ _ (fun _ _ => True)); [exact (later_call (poll_notified n) w)|].
    intros b w1 [Hn Ht] _. destruct b; [by apply later_ret|]. eapply later_mono; [apply IH|].
    intros [[]|] w' _ Hw'; try done; [lia|]. intros Hin. assert (now_of time w1 < d) by (apply Hw'; set_solver). lia.
  - apply (later_bind _ _ (fun b _ => b = (d <=? now_of time w))).
    + call_later. intros b x He. pose proof (timed_sleep d (w_tid w) (w_ext w)) as Hb. by rewrite He in Hb.
    + intros b w1 [Hn Ht] ->. destruct (d <=? now_of time w) eqn:Hd; bool_to_prop; [by apply later_ret|].
      eapply later_mono; [apply IH|]. intros [[]|] w' _ Hw'; try done. lia.
Qed.

(** The deadline a started wait carries. *)
Definition deadline_of (fut : WaitFut) : option Z :=
  match fut with WfStart _ _ => None | WfSelect _ d | WfRecheck _ d => Some d end.
Definition rank (fut : WaitFut) : nat := match fut with WfRecheck _ _ => 1 | _ => 0 end.

(** A poll that began in [w] leaves the future pending only before its
    deadline, or after it used up some traffic. *)
Definition parked (d : Z) w (fut : WaitFut) w' : Prop :=
  deadline_of fut = Some d /\ (now_of time w < d \/ (traffic_of w' < traffic_of w)%nat).

Lemma poll_round_later fuel fut d w :
  deadline_of fut = Some d -> (traffic_of w < fuel)%nat ->
  ends_later (poll_wait_round fuel fut) (fun r w' =>
    match r with
    | inl fut' => deadline_of fut' = Some d /\ (2 * traffic_of w' + rank fut' < 2 * traffic_of w + rank fut)%nat
    | inr (Pending, fut') => parked d w fut' w'
    | inr (Ready _, _) => True
    end) w.
Proof.
  intros Hd Hf. destruct fut as [h timeout|n d'|n d']; [done|..]; injection Hd as ->; cbn [poll_wait_round].
  - apply (later_bind _ _ (fun order _ => BrDeadline ∈ order)).
    { call_later. intros order x He. pose proof (timed_order (w_tid w) (w_ext w)) as Ho. by rewrite He in Ho. }
    intros order w1 [Hn1 Ht1] Hin. eapply later_bind; [apply poll_select_later|].
    intros [[[e|]| |]|] w2 [Hn2 Ht2] Hsel; try by apply later_ret.
    + apply (later_bind _ _ (fun _ _ => True)); [apply drain_later; lia|]. intros _ w3 [_ Ht3] _.
      apply (later_bind _ _ (fun _ _ => True)); [exact (later_call clear_ready w3)|].
      intros _ w4 [_ Ht4] _. apply later_ret. simpl. split; [done|lia].
    + apply later_ret. split; [done|]. left. specialize (Hsel Hin). lia.
  - apply (later_bind _ _ (fun _ _ => True)); [exact (later_call (poll_notified n) w)|].
    intros b w1 [Hn1 Ht1] _. destruct b; [by apply later_ret|].
    apply (later_bind _ _ (fun b w' => b = false -> (traffic_of w' < traffic_of w1)%nat)).
    { call_later. intros b x He ->. exact (timed_zero _ _ _ He). }
    intros b w2 [_ Ht2] Hz. destruct b; apply later_ret; [simpl; split; [done|lia]|].
    specialize (Hz eq_refl). split; [done|]. right. lia.
Qed.

Lemma poll_loop_later k fuel fut d w :
  deadline_of fut = Some d -> (2 * traffic_of w + rank fut < k)%nat -> (traffic_of w < fuel)%nat ->
  ends_later (loop k (poll_wait_round fuel) fut) (fun r w' =>
    match r with (Pending, fut') => parked d w fut' w' | (Ready _, _) => True end) w.
Proof.
  revert fut w. induction k as [|k IH]; intros fut w Hd Hk Hf; [lia|]. cbn [loop].
  eapply later_bind; [by apply poll_round_later|].
  intros [fut'|[[r|] fut']] w1 [Hn Ht] H1; [|by apply later_ret..]. destruct H1 as [Hd' Hk'].
  eapply later_mono; [apply IH; [done|lia..]|]. intros [[r|] fut''] w2 _ H2; [done|].
  destruct H2 as [Hd'' [Hlt|Hlt]]; (split; [done|]); [left|right]; lia.
Qed.

(** *** The whole wait *)

Lemma yield_later w :
  ends_later yield_now (fun _ w' => now_of time w + grain <= now_of time w') w.
Proof.
  unfold yield_now. apply (later_bind _ _ (fun r w1 => w1 = w)); [by split|]. intros r w1 _ ->.
  apply (later_bind _ _ (fun _ w' => now_of time w + grain <= now_of time w')).
  { call_later. intros p x He. pose proof (timed_suspend r (w_tid w) (w_ext w)) as Hs. by rewrite He in Hs. }
  intros [wake r'] w1 _ Hn. apply (later_bind _ _ (fun _ w2 => now_of time w + grain <= now_of time w2)); [by split|].
  intros _ w2 _ Hn2. destruct wake; [by apply later_ret|by split].
Qed.

Lemma await_later k fuel fut d w :
  deadline_of fut = Some d -> (traffic_of w + rounds_left time grain d w < k)%nat ->
  (2 * traffic_of w + 1 < fuel)%nat -> ends_later (loop k (await_round fuel) fut) (fun _ _ => True) w.
Proof.
  pose proof timed_grain as Hg.
  revert fut w. induction k as [|k IH]; intros fut w Hd Hk Hf; [lia|]. cbn [loop].
  apply (later_bind _ _ (fun r w' => match r with
    | inl fut' => deadline_of fut' = Some d /\
        (traffic_of w' + rounds_left time grain d w' < traffic_of w + rounds_left time grain d w)%nat
    | inr _ => True end)).
  - unfold await_round, poll_wait. eapply later_bind; [apply (poll_loop_later _ _ _ d); [done|destruct fut; simpl; lia|lia]|].
    intros [[r|] fut'] w1 [Hn1 Ht1] H1; [by apply later_ret|]. destruct H1 as [Hd' Hor].
    eapply later_bind; [apply yield_later|]. intros _ w2 [_ Ht2] Hn2. apply later_ret. split; [done|].
    destruct Hor as [Hlt|Hlt].
    + pose proof (rounds_left_sleep time grain d w w2 Hg Hlt). lia.
    + pose proof (rounds_left_mono time grain d w w2 Hg). lia.
  - intros [fut'|r] w1 [_ Ht] H1; [|by apply later_ret]. destruct H1. apply IH; [done|lia..].
Qed.

(** The fuel that is enough for a wait begun in [w]: a round per [grain] of
    the timeout, and the traffic twice. *)
Definition wait_rounds (timeout : Z) w : nat := 2 * traffic_of w + Z.to_nat (timeout / grain + 1) + 3.

Lemma entry_later h w : ends_later (entry_or_insert h) (fun _ _ => True) w.
Proof.
  unfold entry_or_insert. apply (later_bind _ _ (fun _ _ => True)); [by split|]. intros inner w1 _ _.
  destruct (waiters inner !! h); [by apply later_ret|].
  apply (later_bind _ _ (fun _ _ => True)); [exact (later_call notify_new w1)|]. intros n w2 _ _.
  apply (later_bind _ _ (fun _ _ => True)); [by split|]. intros _ w3 _ _. by apply later_ret.
Qed.

(** Starting the wait: its deadline is [timeout] from some moment on. *)
Lemma start_round_later fuel h timeout w :
  ends_later (poll_wait_round fuel (WfStart h timeout)) (fun r w' => exists n d,
    r = inl (WfSelect n d) /\ (rounds_left time grain d w' <= Z.to_nat (timeout / grain + 1))%nat) w.
Proof.
  pose proof timed_grain as Hg. cbn [poll_wait_round]. eapply later_bind; [apply entry_later|]. intros n w1 _ _.
  apply (later_bind _ _ (fun t w' => rounds_left time grain (t + timeout) w' <= Z.to_nat (timeout / grain + 1))%nat).
  { call_later. intros t x He. pose proof (clock_read (w_tid w1) (w_ext w1)) as Hr. rewrite He in Hr. simpl in Hr. subst t.
    pose proof (clock_mono instant_now (w_tid w1) (w_ext w1)) as Hm. rewrite He in Hm. simpl in Hm.
    set (w2 := push_event _ _).
    etrans; [apply (rounds_left_mono time grain _ w1 w2 Hg Hm)|]. unfold rounds_left, now_of.
    replace (time (w_ext w1) + timeout - time (w_ext w1)) with timeout by lia. done. }
  intros t w2 _ Ht. unfold instant_add. case_match; [|by split].
  apply (later_bind _ _ (fun d w' => d = t + timeout /\ w' = w2)); [by split|]. intros d w3 _ [-> ->].
  apply later_ret. eauto.
Qed.

Lemma wait_later fuel h mask timeout w :
  (wait_rounds timeout w < fuel)%nat -> ends_later (wait_event fuel h mask timeout) (fun _ _ => True) w.
Proof.
  unfold wait_rounds, wait_event, await. intros Hf. destruct fuel as [|k]; [lia|].
  set (fuel := S k) in *. unfold fuel at 1. cbn [loop].
  apply (later_bind _ _ (fun r w' => match r with
    | inl fut' => exists d, deadline_of fut' = Some d /\
        (rounds_left time grain d w' <= Z.to_nat (timeout / grain + 1))%nat
    | inr _ => True end)).
  - unfold await_round, poll_wait. unfold fuel at 1. cbn [loop].
    apply (later_bind _ _ (fun r w' => match r with
      | (Pending, fut') => exists d, deadline_of fut' = Some d /\
          (rounds_left time grain d w' <= Z.to_nat (timeout / grain + 1))%nat
      | _ => True end)).
    + eapply later_bind; [apply start_round_later|]. intros ? w1 [Hn1 Ht1] (n & d & -> & Hd).
      eapply later_mono; [apply (poll_loop_later _ _ _ d); [done|simpl; lia..]|].
      intros [[r|] fut'] w2 [Hn2 _] H2; [done|]. destruct H2 as [Hd2 _]. exists d. split; [done|].
      pose proof (rounds_left_mono time grain d w1 w2 timed_grain Hn2). lia.
    + intros [[r|] fut'] w1 _ H1; [by apply later_ret|]. destruct H1 as (d & Hd & Hr).
      eapply later_bind; [apply yield_later|]. intros _ w2 [Hn2 _] _. apply later_ret. exists d. split; [done|].
      pose proof (rounds_left_mono time grain d w1 w2 timed_grain Hn2). lia.
  - intros [fut'|r] w1 [_ Ht] H1; [|by apply later_ret]. destruct H1 as (d & Hd & Hr).
    apply (await_later _ _ _ d); [done|lia..].
Qed.

(** *** Connecting *)

Abbreviation finishes m w := (ends_later m (fun _ _ => True) w).

Lemma finishes_bind {A B} (m : M A) (k : A -> M B) w :
  finishes m w -> (forall a w1, later w w1 -> finishes (k a) w1) -> finishes (m ≫= k) w.
Proof. intros Hm Hk. eapply later_bind; [exact Hm|]. auto. Qed.

Lemma finishes_try_bind {A B X} (m : M (result A X)) (k : A -> M (result B X)) w :
  finishes m w -> (forall a w1, later w w1 -> finishes (k a) w1) -> finishes (try_bind m k) w.
Proof. intros Hm Hk. apply finishes_bind; [done|]. intros [a|e] w1 Hl; [auto|by apply later_ret]. Qed.

Lemma finishes_unless_ok {A X} (m : M (result A X)) cleanup w :
  finishes m w -> (forall w1, finishes cleanup w1) -> finishes (unless_ok m cleanup) w.
Proof.
  intros [Hl Ho] Hc. unfold ends_later, wp, unless_ok.
  destruct (m w) as [[[a|e]| |] w1]; simpl in *; [done|..|done]; destruct (Hc w1) as [Hl' _]; (split; [by etrans|done]).
Qed.

Lemma finishes_call c w : finishes (do_call c) w.
Proof. apply later_call. Qed.

Lemma finishes_silent {A} (m : M A) w :
  match m w with (Done _, w') => w_ext w' = w_ext w | (Unwound _, w') => w_ext w' = w_ext w | _ => False end -> finishes m w.
Proof.
  unfold ends_later, wp, later, now_of, traffic_of. destruct (m w) as [[]?]; simpl; intros Hm; rewrite ?Hm; done.
Qed.

Ltac finishes_go :=
  repeat first
    [ lazymatch goal with
      | |- ends_later (mret _) _ _ => by apply later_ret
      | |- ends_later (gets _) _ _ => by apply finishes_silent
      | |- ends_later get_reactor _ _ => by apply finishes_silent
      | |- ends_later (set_reactor _) _ _ => by apply finishes_silent
      | |- ends_later (set_registered _) _ _ => by apply finishes_silent
      | |- ends_later (unless_ok _ _) _ _ => apply finishes_unless_ok; [|intros ?]
      | |- ends_later (try_bind _ _) _ _ => apply finishes_try_bind; [|intros ? ? ?]
      | |- ends_later (_ ≫= _) _ _ => apply finishes_bind; [|intros ? ? ?]
      | |- ends_later (do_call ?c) _ ?w => exact (finishes_call c w)
      | |- ends_later (if ?b then _ else _) _ _ => destruct b
      | |- ends_later (let (_, _) := ?x in _) _ _ => destruct x
      | |- ends_later (match ?x with _ => _ end) _ _ => destruct x
      end ].

(** Chains the moments of a run. *)
Ltac later_chain :=
  repeat match goal with
  | |- later ?a ?a => reflexivity
  | H : later ?a ?b |- later ?a _ => transitivity b; [exact H|clear H]
  end.

Lemma wait_rounds_mono timeout timeout' w w' :
  later w w' -> timeout' <= timeout -> (wait_rounds timeout' w' <= wait_rounds timeout w)%nat.
Proof.
  intros [_ Ht] Hle. unfold wait_rounds.
  pose proof (Z.div_le_mono timeout' timeout grain timed_grain Hle). lia.
Qed.

Lemma connect_async_finishes fuel addr source timeout w :
  (wait_rounds timeout w < fuel)%nat -> finishes (connect_async fuel addr source timeout) w.
Proof.
  intros Hf. unfold connect_async, register_worker_thread, SessionHandle.create_tcp, SessionHandle.set_nodelay, bind_source,
    SessionHandle.bind, register, SessionHandle.connect, SessionHandle.drop, wait_writable. finishes_go;
    (apply wait_later; eapply Nat.le_lt_trans; [apply (wait_rounds_mono timeout timeout w); [later_chain|done]|exact Hf]).
Qed.

Lemma gen_ports_finishes n w : finishes (gen_ports n) w.
Proof. revert w. induction n as [|n IH]; intros w; cbn [gen_ports]; finishes_go. apply IH. Qed.

Lemma connect_attempts_finishes fuel peer ip timeout started ports last_err w :
  0 <= timeout -> (wait_rounds timeout w < fuel)%nat -> finishes (connect_attempts fuel peer ip timeout started ports last_err) w.
Proof.
  intros Ht. revert last_err w. induction ports as [|port ports IH]; intros last_err w Hf; cbn [connect_attempts]; [by apply later_ret|].
  apply finishes_bind; [exact (finishes_call instant_now w)|]. intros now w1 Hl1. cbn zeta.
  case_match; [by apply later_ret|]. apply finishes_bind.
  - apply connect_async_finishes. eapply Nat.le_lt_trans; [|exact Hf]. apply wait_rounds_mono; [done|].
    unfold duration_since. lia.
  - intros [s'|e] w2 Hl2; [by apply later_ret|]. apply IH. eapply Nat.le_lt_trans; [|exact Hf].
    apply (wait_rounds_mono timeout timeout w); [later_chain|done].
Qed.

Lemma query_connect_finishes fuel peer source timeout w :
  0 <= timeout -> (wait_rounds timeout w < fuel)%nat -> finishes (query_connect fuel peer source timeout) w.
Proof.
  intros Ht Hf. unfold query_connect. apply finishes_bind; [exact (finishes_call instant_now w)|]. intros started w1 Hl1.
  pose proof (wait_rounds_mono timeout timeout w w1 Hl1 ltac:(lia)) as Hm.
  destruct source as [ip|]; [|apply connect_async_finishes; lia]. case_match; [by apply later_ret|].
  apply finishes_bind; [apply gen_ports_finishes|]. intros ports w2 Hl2. apply connect_attempts_finishes; [done|].
  pose proof (wait_rounds_mono timeout timeout w1 w2 Hl2 ltac:(lia)). lia.
Qed.

Lemma finishes_finished {A} (m : M A) w : finishes m w -> (m w).1 <> OutOfFuel.
Proof. intros [_ Ho] Heq. by rewrite Heq in Ho. Qed.

(** C26. Waiting and connecting come to an end: a wait, [connect_async] and
    the connect phase of the TCP query, with all its retries, finish within a
    number of rounds bounded by the timeout and the traffic on the worker's
    message queue, whatever libvppcom answers. *)
Theorem waits_terminate fuel timeout w :
  0 <= timeout -> (wait_rounds timeout w < fuel)%nat ->
  (forall h mask, (wait_event fuel h mask timeout w).1 <> OutOfFuel) /\
  (forall addr source, (connect_async fuel addr source timeout w).1 <> OutOfFuel) /\
  (forall peer source, (query_connect fuel peer source timeout w).1 <> OutOfFuel).
Proof.
  intros Ht Hf. split_and!; intros; apply finishes_finished.
  - by apply wait_later.
  - by apply connect_async_finishes.
  - by apply query_connect_finishes.
Qed.
End Waits.

(** ** A silent peer

    Writes are accepted, reads find nothing, and the periodic task completes
    every wait. *)
Definition silent_ok `{Env} (c : call) : ret c -> Prop :=
  match c with
  | vppcom_session_read _ _ _ => fun r => r.1 < 0 /\ retryable (from_rc r.1) = true
  | vppcom_session_write _ _ _ => fun rc => 0 <= rc
  | select_order => fun order => exists rest, order = BrNotified :: rest
  | poll_notified _ => fun b => b = true
  | _ => fun _ => True
  end.

Section Silent.
Context `{E : Env} `{!EnvSat silent_ok} (t : Z).

(** A wait is completed by the tick, never by its timeout. *)
Lemma silent_wait fuel h mask d :
  emits t (wait_event fuel h mask d) (fun o _ => forall r, o = Done r -> r = Ok tt).
Proof.
  apply (emits_loop (fun _ _ => True)); [done| |done]. intros fut l _. apply emits_bind.
  eapply (emits_mono _ _ (fun o _ => forall p fut', o = Done (Ready p, fut') -> p = Ok tt)).
  2:{ intros [[[p|] fut']| |] k Hp; [..|done|done].
      - apply emits_ret. intros r [= <-]. by eapply Hp.
      - unfold yield_now. emits_go; done. }
  apply (emits_loop (fun _ _ => True)); [done| |done]. clear fut l. intros fut l _.
  destruct fut as [h' d'|n d'|n d']; cbn [poll_wait_round].
  - unfold entry_or_insert, instant_add. emits_go; done.
  - apply emits_bind. call_with silent_ok. intros order [rest ->]. cbn [poll_select].
    apply emits_bind, emits_bind. call_with silent_ok. intros b ->. apply emits_ret, emits_ret. by intros p fut' [= <- <-].
  - apply emits_bind. call_with silent_ok. intros b ->. apply emits_ret. by intros p fut' [= <- <-].
Qed.

(** So a [read] goes round its loop for ever: it returns neither data nor a
    timeout. *)
Lemma silent_read fuel s buf : emits t (stream_read fuel s buf) (fun o _ => forall r, o <> Done r).
Proof.
  apply (emits_loop (fun _ _ => True)); [done| |done]. clear buf. intros buf l _. apply emits_bind.
  eapply emits_mono; [by apply (read_emits silent_ok)|]. intros o k (rc & data & [Hneg Hr] & _ & ->). simpl in *.
  rewrite (proj2 (Z.ltb_lt _ _)) by done.
  destruct (from_rc rc); try done; (apply emits_bind; eapply emits_mono; [apply silent_wait|]);
    intros [r| |] k' Hw; try done; rewrite (Hw r eq_refl); by apply emits_ret.
Qed.

Lemma silent_read_exact fuel s b buf : emits t (read_exact fuel s (b :: buf)) (fun o _ => forall r, o <> Done r).
Proof.
  apply (emits_loop (fun st _ => st = (0, b :: buf))); [done| |done]. intros st l ->. unfold read_exact_round.
  rewrite (proj2 (Z.ltb_lt _ _)) by (unfold len; simpl; lia).
  apply emits_bind. eapply emits_mono; [apply silent_read|].
  intros [r| |] k Hk; [by destruct (Hk r)|done..].
Qed.

Lemma silent_write_all fuel s buf : emits t (write_all fuel s buf) (fun o _ => forall r, o = Done r -> r = Ok tt).
Proof.
  apply (emits_loop (fun _ _ => True)); [done| |done]. intros pos l _. unfold write_all_round.
  case_match; [|apply emits_ret; by intros r [= <-]]. apply emits_bind.
  eapply emits_mono; [by apply (write_emits silent_ok)|]. intros o k (rc & Hrc & _ & ->). simpl in Hrc.
  rewrite (proj2 (Z.ltb_ge _ _)) by done. by apply emits_ret.
Qed.

(** A peer that takes the query and says nothing holds the exchange of
    [query_tcp_dns_async] for ever: the caller's timeout only bounds the
    connect, and the five minutes of the read never run out, because the
    periodic task completes each wait before. *)
Theorem silent_peer_holds_query fuel s query framed :
  frame_tcp_dns_query query = Ok framed ->
  emits t (dns_exchange fuel s query) (fun o _ => forall r, o <> Done r).
Proof.
  intros Hq. unfold dns_exchange. rewrite Hq. apply emits_try_bind, emits_ret. apply emits_try_bind.
  eapply emits_mono; [apply silent_write_all|]. intros [r| |] l Hl; try done. rewrite (Hl r eq_refl).
  apply emits_try_bind, emits_bind. eapply emits_mono; [apply silent_read_exact|].
  intros [r'| |] l' Hl'; [by destruct (Hl' r')|done..].
Qed.
End Silent.

(** An environment in which the handshake never completes: connecting is in
    progress, the session is not connected, and the clock passes a second at
    every call. *)
Definition handshake_pending : script := fun n c =>
  match c with
  | vppcom_session_create _ _ => 3
  | vppcom_session_connect _ _ => - EINPROGRESS
  | vppcom_session_write _ _ _ => - ENOTCONN
  | vppcom_session_read _ _ _ => (- ENOTCONN, [])
  | poll_notified _ => true
  | instant_now => secs (Z.of_nat n)
  | c => default_ret c
  end.

(** [connect_async] still reports success, at the first tick of the periodic
    task: the stream it hands back is not connected. *)
Lemma connect_before_handshake :
  fst (@connect_async (scripted handshake_pending) 9 (Sock.new IPV4_UNSPECIFIED 53) None (secs 5)
         (fresh_world handshake_pending 1)) = Done (Ok (mkStream 3 None None)).
Proof. vm_compute. reflexivity. Qed.
