(* ===== verification/Typing.v ===== *)
(** * Calls respect the C signatures

    The crate calls libvppcom through an [unsafe] foreign interface whose
    arguments Rust does not check: 32-bit handles, endpoints that point at
    sixteen bytes and hold a 16-bit port, lengths that must not exceed the
    buffer they describe, epoll events, and [gen_range], which panics on an
    empty range.  [wt_call] states those conditions for every call.  A
    well-typed program, built from the crate's public operations in any way
    that only passes on what they return, makes no call outside them. *)

From S2P Require Import Prelude Net Errors Ffi World Sim Session App Reactor Ownership Stream Dgram Listener Echo Framing Query.

(** An endpoint the C side may read through: a flag, the caller's sixteen
    bytes, a 16-bit port. *)
Definition wt_endpt (ep : vppcom_endpt_t) : Prop :=
  0 <= ep_is_ip4 ep < 256 /\ (exists b, ep_ip ep = Some b /\ length b = 16%nat) /\ is_u16 (ep_port ep).

(** An epoll registration carries its session as data; a removal carries
    nothing. *)
Definition wt_epoll_change (op h : Z) (ev : option epoll_event) : Prop :=
  match ev with
  | Some e => op = EPOLL_CTL_ADD /\ is_u32 (ev_events e) /\ ev_data e = h
  | None => op = EPOLL_CTL_DEL
  end.

Definition wt_call (c : call) : Prop :=
  match c with
  | vppcom_session_create proto nb => (proto = VPPCOM_PROTO_TCP \/ proto = VPPCOM_PROTO_UDP) /\ 0 <= nb <= 1
  | vppcom_session_close h => is_u32 h
  | vppcom_session_shutdown h how => is_u32 h /\ how = SHUT_WR
  | vppcom_session_bind h ep | vppcom_session_connect h ep => is_u32 h /\ wt_endpt ep
  | vppcom_session_listen h q => is_u32 h /\ is_u32 q
  | vppcom_session_accept h ep _ => is_u32 h /\ wt_endpt ep
  | vppcom_session_read h buf n | vppcom_session_write h buf n => is_u32 h /\ 0 <= n <= len buf
  | vppcom_session_sendto h buf n _ ep | vppcom_session_recvfrom h buf n _ ep =>
      is_u32 h /\ is_u32 n /\ 0 <= n <= len buf /\ wt_endpt ep
  | vppcom_session_attr_set h _ _ buflen => is_u32 h /\ buflen = 4
  | vppcom_session_attr_get h _ ep buflen => is_u32 h /\ wt_endpt ep /\ buflen = sizeof_endpt
  | vppcom_epoll_ctl v op h ev => is_u32 v /\ is_u32 h /\ wt_epoll_change op h ev
  | vppcom_epoll_wait v events m d => is_u32 v /\ 0 < m <= len events /\ 0 <= d
  | gen_range low high => low <= high
  | thread_sleep n => 0 <= n
  | suspend r => is_u32 (vep r)
  | _ => True
  end.

Definition wt_event (e : event) : Prop := match e with Ev _ c _ => wt_call c end.

(** What the answers promise in return: endpoints filled in place, ports
    within the range drawn from, and a reactor whose epoll handle is one. *)
Definition answer_ok (c : call) : ret c -> Prop :=
  match c with
  | vppcom_session_accept _ _ _ => fun r => wt_endpt r.2
  | vppcom_session_recvfrom _ _ _ _ _ => fun r => wt_endpt r.2
  | vppcom_session_attr_get _ _ _ _ => fun r => wt_endpt r.2
  | gen_range low high => fun p => low <= p <= high
  | suspend _ => fun a => is_u32 (vep a.2)
  | _ => fun _ => True
  end.

(** The callee keeps its side of the signature when the caller does. *)
Definition typed_answer (c : call) (r : ret c) : Prop := wt_call c -> answer_ok c r.

Section Typing.
Context `{E : Env} `{!EnvSat typed_answer}.
Implicit Types w : World.

Definition wt_world w : Prop := is_u32 (vep (w_reactor w)).

(** [typed m P]: from a well-typed world [m] makes only well-typed calls,
    leaves a well-typed world, and returns only values in [P]. *)
Definition typed {A} (m : M A) (P : A -> Prop) : Prop := forall w, wt_world w ->
  wp m (fun o w' => wt_world w' /\ (exists l, w_log w' = w_log w ++ l /\ Forall wt_event l) /\
                    forall a, o = Done a -> P a) w.

(** ** Rules *)

Lemma typed_mono {A} (m : M A) (P Q : A -> Prop) : typed m P -> (forall a, P a -> Q a) -> typed m Q.
Proof. intros Hm HPQ w Hw. destruct (Hm w Hw) as (? & ? & ?). split_and!; auto. Qed.

Lemma typed_silent {A} (m : M A) (P : A -> Prop) :
  (forall w, wt_world w -> wt_world (m w).2 /\ w_log (m w).2 = w_log w /\ forall a, (m w).1 = Done a -> P a) ->
  typed m P.
Proof.
  intros Hm w Hw. destruct (Hm w Hw) as (Hw' & Hl & Hp). unfold wp. split_and!; [done| |done].
  exists []. by rewrite app_nil_r.
Qed.

Lemma typed_ret {A} (a : A) (P : A -> Prop) : P a -> typed (mret a) P.
Proof. intros HP. apply typed_silent. intros w Hw. split_and!; [done|done|]. by intros ? [= <-]. Qed.

Lemma typed_panic {A} (P : A -> Prop) : typed panic P.
Proof. by apply typed_silent. Qed.

Lemma typed_cancelled {A} (P : A -> Prop) : typed cancelled P.
Proof. by apply typed_silent. Qed.

Lemma typed_gets {A} (f : World -> A) : typed (gets f) (fun _ => True).
Proof. by apply typed_silent. Qed.

Lemma typed_get_reactor : typed get_reactor (fun r => is_u32 (vep r)).
Proof. apply typed_silent. intros w Hw. split_and!; [done|done|]. by intros ? [= <-]. Qed.

Lemma typed_set_reactor r : is_u32 (vep r) -> typed (set_reactor r) (fun _ => True).
Proof. by intros Hr; apply typed_silent. Qed.

Lemma typed_set_initialized b : typed (set_initialized b) (fun _ => True).
Proof. by apply typed_silent. Qed.

Lemma typed_set_registered s : typed (set_registered s) (fun _ => True).
Proof. by apply typed_silent. Qed.

Lemma typed_call c : wt_call c -> typed (do_call c) (answer_ok c).
Proof.
  intros Hc w Hw. apply wp_call. intros r x He. split_and!; [done| |].
  - exists [Ev (w_tid w) c r]. split; [done|]. by repeat constructor.
  - intros a [= <-]. pose proof (env_sat (ok := typed_answer) c (w_tid w) (w_ext w) Hc) as Hok. by rewrite He in Hok.
Qed.

(** Two pieces of log, both well-typed. *)
Lemma log_seq w w1 w2 :
  (exists l, w_log w1 = w_log w ++ l /\ Forall wt_event l) ->
  (exists l, w_log w2 = w_log w1 ++ l /\ Forall wt_event l) ->
  exists l, w_log w2 = w_log w ++ l /\ Forall wt_event l.
Proof.
  intros (l & Hl & Hf) (k & Hk & Hf'). exists (l ++ k). split; [by rewrite Hk, Hl, app_assoc|by apply Forall_app].
Qed.

Lemma typed_bind {A B} (m : M A) (k : A -> M B) (P : A -> Prop) (Q : B -> Prop) :
  typed m P -> (forall a, P a -> typed (k a) Q) -> typed (m ≫= k) Q.
Proof.
  intros Hm Hk w Hw. apply wp_bind. eapply wp_mono; [by apply Hm|]. intros [a| |] w1 (Hw1 & Hl & HP);
    [|split_and!; done..].
  eapply wp_mono; [by apply (Hk a (HP a eq_refl))|]. intros o w2 (Hw2 & Hl2 & HQ).
  split_and!; [done|by eapply log_seq|done].
Qed.

Lemma typed_call_bind {B} c (k : ret c -> M B) (Q : B -> Prop) :
  wt_call c -> (forall r, answer_ok c r -> typed (k r) Q) -> typed (do_call c ≫= k) Q.
Proof. intros Hc Hk. eapply typed_bind; [by apply typed_call|]. exact Hk. Qed.

(** A result all of whose successes are in [P]. *)
Definition oks {A X} (P : A -> Prop) (r : result A X) : Prop := match r with Ok a => P a | Err _ => True end.

Lemma typed_try_bind {A B X} (m : M (result A X)) (k : A -> M (result B X)) (P : A -> Prop) (Q : B -> Prop) :
  typed m (oks P) -> (forall a, P a -> typed (k a) (oks Q)) -> typed (try_bind m k) (oks Q).
Proof. intros Hm Hk. eapply typed_bind; [exact Hm|]. intros [a|e] Ha; [by apply Hk|by apply typed_ret]. Qed.

Lemma typed_finally {A} (m : M A) cleanup (P : A -> Prop) :
  typed m P -> typed cleanup (fun _ => True) -> typed (finally m cleanup) P.
Proof.
  intros Hm Hc w Hw. destruct (Hm w Hw) as (Hw1 & Hl & HP). unfold wp, finally.
  destruct (m w) as [[a| |] w1]; simpl in *; [| |by split_and!];
    destruct (Hc w1 Hw1) as (Hw2 & Hl2 & _); (split_and!; [done|by eapply log_seq|done]).
Qed.

Lemma typed_unless_ok {A X} (m : M (result A X)) cleanup (P : result A X -> Prop) :
  typed m P -> typed cleanup (fun _ => True) -> typed (unless_ok m cleanup) P.
Proof.
  intros Hm Hc w Hw. destruct (Hm w Hw) as (Hw1 & Hl & HP). unfold wp, unless_ok.
  destruct (m w) as [[[a|e]| |] w1]; simpl in *; [by split_and!| | |by split_and!];
    destruct (Hc w1 Hw1) as (Hw2 & Hl2 & _); (split_and!; [done|by eapply log_seq|done]).
Qed.

Lemma typed_on_thread {A} t (m : M A) (P : A -> Prop) : typed m P -> typed (on_thread t m) P.
Proof.
  intros Hm w Hw. destruct (Hm (with_tid t w) Hw) as (Hw1 & Hl & HP). unfold wp, on_thread.
  destruct (m (with_tid t w)) as [o w1]. simpl in *. by split_and!.
Qed.

(** The invariant [I] of the loop state. *)
Lemma typed_loop {S R} (I : S -> Prop) fuel (body : S -> M (S + R)) s (P : R -> Prop) :
  I s -> (forall s, I s -> typed (body s) (fun r => match r with inl s' => I s' | inr a => P a end)) ->
  typed (loop fuel body s) P.
Proof.
  intros Hs Hb. revert s Hs. induction fuel as [|fuel IH]; intros s Hs; cbn [loop]; [by apply typed_silent|].
  eapply typed_bind; [by apply Hb|]. intros [s'|a] Ha; [by apply IH|by apply typed_ret].
Qed.
End Typing.

(** ** Values the calls are built from *)

Section Values.
Context `{E : Env}.

Lemma is_u32_as_u32 z : is_u32 (as_u32 z).
Proof. unfold is_u32, as_u32. apply Z.mod_pos_bound. lia. Qed.

Lemma as_u32_len_le (buf : list u8) : 0 <= as_u32 (len buf) <= len buf.
Proof.
  pose proof (len_nonneg buf). unfold as_u32. split; [apply Z.mod_pos_bound; lia|apply Z.mod_le; lia].
Qed.

Lemma wt_endpt_for : wt_endpt (endpt_for zero_ip_buf).
Proof. split; [simpl; lia|]. split; [by eexists|]. unfold is_u16. simpl. lia. Qed.

Lemma to_be_range e p : is_u16 p -> is_u16 (to_be e p).
Proof. intros Hp. destruct e; simpl; auto using swap_bytes_range. Qed.

Lemma wt_endpoint_into_buf a : wf_addr a -> wt_endpt (SessionHandle.endpoint_into_buf a zero_ip_buf).1.
Proof.
  intros [Hip Hp]. unfold SessionHandle.endpoint_into_buf, endpoint_into_buf_at.
  apply (to_be_range endian) in Hp.
  destruct a; simpl in *; (split; [simpl; lia|split; [|exact Hp]]);
    eexists; (split; [reflexivity|by rewrite length_fill]).
Qed.

Lemma wf_addr_from_endpoint ep buf : wt_endpt ep -> wf_addr (SessionHandle.addr_from_endpoint ep (ip_buf_after ep buf)).
Proof.
  intros (_ & (b & Hb & Hlen) & Hp). unfold SessionHandle.addr_from_endpoint, addr_from_endpoint_at, ip_buf_after.
  rewrite Hb. apply (to_be_range endian) in Hp. destruct (negb _); split; simpl; try exact Hp; [|done].
  rewrite length_take. lia.
Qed.

Lemma is_u32_mask : is_u32 (Z.lor (Z.lor EPOLLIN EPOLLOUT) EPOLLET).
Proof. split; [by vm_compute|by vm_compute]. Qed.

Lemma is_u32_bind_events : is_u32 bind_events.
Proof. split; [by vm_compute|by vm_compute]. Qed.

Lemma wf_sock_new ip p : wf_ip ip -> is_u16 p -> wf_addr (Sock.new ip p).
Proof. intros Hip Hp. by destruct ip. Qed.
End Values.

Create HintDb typed.
#[export] Hint Resolve is_u32_as_u32 wt_endpt_for wt_endpoint_into_buf wf_addr_from_endpoint is_u32_mask
  is_u32_bind_events wf_sock_new as_u32_len_le len_nonneg : typed.
#[export] Hint Extern 1 (0 <= _) => progress unfold millis; lia : typed.
#[export] Hint Unfold wt_epoll_change : typed.

(** The side conditions of a call. *)
Ltac wt_solve :=
  cbn [wt_call wt_epoll_change ev_events ev_data vep];
  repeat first [ solve [ done | lia | auto with typed | unfold is_u32; lia | simpl; lia ] | split ].

(** Steps through a computation; operations are looked up in [typed]. *)
Ltac typed_step :=
  lazymatch goal with
  | |- typed (mret _) _ => apply typed_ret; cbn; auto with typed
  | |- typed panic _ => apply typed_panic
  | |- typed cancelled _ => apply typed_cancelled
  | |- typed (get_reactor ≫= _) _ => eapply typed_bind; [apply typed_get_reactor|intros ? ?]
  | |- typed (gets _ ≫= _) _ => eapply typed_bind; [apply typed_gets|intros ? _]
  | |- typed (set_reactor _ ≫= _) _ => eapply typed_bind; [apply typed_set_reactor; cbn [vep]; auto with typed|intros ? _]
  | |- typed (set_reactor _) _ => eapply typed_mono; [apply typed_set_reactor; cbn [vep]; auto with typed|by intros]
  | |- typed (set_initialized _ ≫= _) _ => eapply typed_bind; [apply typed_set_initialized|intros ? _]
  | |- typed (set_initialized _) _ => eapply typed_mono; [apply typed_set_initialized|by intros]
  | |- typed (set_registered _) _ => eapply typed_mono; [apply typed_set_registered|by intros]
  | |- typed (do_call ?c ≫= ?k) ?P => apply (typed_call_bind c k P); [wt_solve|intros ? ?]
  | |- typed (do_call ?c) ?P => apply (typed_mono (do_call c) (answer_ok c) P); [apply typed_call; wt_solve|by intros]
  | |- typed (try_bind _ _) (oks _) => eapply typed_try_bind; [solve [eauto 3 with typed]|intros ? ?]
  | |- typed (unless_ok _ _) _ => apply typed_unless_ok
  | |- typed (finally _ _) _ => apply typed_finally
  | |- typed (_ ≫= _) _ => eapply typed_bind; [solve [eauto 3 with typed]|intros ? ?]
  | |- typed (if ?b then _ else _) _ => destruct b
  | |- typed (let (_, _) := ?x in _) _ => destruct x
  | |- typed (match ?x with _ => _ end) _ => destruct x
  end.
Ltac typed_go := repeat first [solve [eauto 3 with typed] | typed_step].

(** The values handed to and returned by the operations. *)
Definition wt_stream (s : VclStream) : Prop := is_u32 (st_handle s).
Definition wf_source (source : option SocketAddr) : Prop := match source with Some a => wf_addr a | None => True end.
Definition wf_source_ip (source : option IpAddr) : Prop := match source with Some ip => wf_ip ip | None => True end.
Definition anything {A} (a : A) : Prop := True.
Definition wf_maybe (a : option SocketAddr) : Prop := match a with Some a => wf_addr a | None => True end.

#[export] Hint Extern 0 (anything _) => exact I : typed.

(** ** Sessions, application, reactor *)

Section SessionTyping.
Context `{E : Env} `{!EnvSat typed_answer}.

Lemma typed_create_tcp nb : typed (SessionHandle.create_tcp nb) (oks is_u32).
Proof. unfold SessionHandle.create_tcp. destruct nb; typed_go. Qed.
Lemma typed_create_udp nb : typed (SessionHandle.create_udp nb) (oks is_u32).
Proof. unfold SessionHandle.create_udp. destruct nb; typed_go. Qed.
Lemma typed_session_bind h a : is_u32 h -> wf_addr a -> typed (SessionHandle.bind h a) (oks anything).
Proof.
  intros Hh Ha%wt_endpoint_into_buf. unfold SessionHandle.bind.
  destruct (SessionHandle.endpoint_into_buf a zero_ip_buf). simpl in Ha. typed_go.
Qed.
Lemma typed_connect h a : is_u32 h -> wf_addr a -> typed (SessionHandle.connect h a) (oks anything).
Proof.
  intros Hh Ha%wt_endpoint_into_buf. unfold SessionHandle.connect.
  destruct (SessionHandle.endpoint_into_buf a zero_ip_buf). simpl in Ha. typed_go.
Qed.
Lemma typed_listen h q : is_u32 h -> is_u32 q -> typed (SessionHandle.listen h q) (oks anything).
Proof. intros. unfold SessionHandle.listen. typed_go. Qed.
Lemma typed_read h buf : is_u32 h -> typed (SessionHandle.read h buf) anything.
Proof. intros. unfold SessionHandle.read. typed_go. Qed.
Lemma typed_write h buf : is_u32 h -> typed (SessionHandle.write h buf) anything.
Proof. intros. unfold SessionHandle.write. typed_go. Qed.
Lemma typed_accept h : is_u32 h -> typed (SessionHandle.accept h) (oks (fun p => is_u32 p.1 /\ wf_addr p.2)).
Proof. intros. unfold SessionHandle.accept. typed_go. Qed.
Lemma typed_recvfrom h buf : is_u32 h -> typed (SessionHandle.recvfrom h buf) (fun r => oks (fun p => wf_addr p.2) r.1).
Proof. intros. unfold SessionHandle.recvfrom. typed_go. Qed.
Lemma typed_sendto h buf a : is_u32 h -> wf_addr a -> typed (SessionHandle.sendto h buf a) (oks anything).
Proof.
  intros Hh Ha%wt_endpoint_into_buf. unfold SessionHandle.sendto.
  destruct (SessionHandle.endpoint_into_buf a zero_ip_buf). simpl in Ha. typed_go.
Qed.
Lemma typed_set_nodelay h : is_u32 h -> typed (SessionHandle.set_nodelay h) anything.
Proof. intros. unfold SessionHandle.set_nodelay. typed_go. Qed.
Lemma typed_set_nonblocking h : is_u32 h -> typed (SessionHandle.set_nonblocking h) (oks anything).
Proof. intros. unfold SessionHandle.set_nonblocking. typed_go. Qed.
Lemma typed_local_addr h : is_u32 h -> typed (SessionHandle.local_addr h) (oks wf_addr).
Proof. intros. unfold SessionHandle.local_addr. typed_go. Qed.
Lemma typed_peer_addr h : is_u32 h -> typed (SessionHandle.peer_addr h) (oks wf_addr).
Proof. intros. unfold SessionHandle.peer_addr. typed_go. Qed.
Lemma typed_drop h : is_u32 h -> typed (SessionHandle.drop h) anything.
Proof. intros. unfold SessionHandle.drop. typed_go. Qed.
Lemma typed_register_worker : typed register_worker_thread anything.
Proof. unfold register_worker_thread. typed_go. Qed.
Lemma typed_app_init name : typed (app_init name) (oks anything).
Proof. unfold app_init. typed_go. Qed.
Lemma typed_app_drop : typed app_drop anything.
Proof. unfold app_drop. typed_go. Qed.
Lemma typed_register h : is_u32 h -> typed (register h) (oks anything).
Proof. intros. unfold register. typed_go. Qed.
Lemma typed_deregister h : is_u32 h -> typed (deregister h) anything.
Proof. intros. unfold deregister. typed_go. Qed.
Lemma typed_reactor_new : typed reactor_new (oks anything).
Proof. unfold reactor_new. typed_go. Qed.
Lemma typed_yield : typed yield_now anything.
Proof.
  unfold yield_now. do 2 typed_step.
  match goal with a : ret (suspend _) |- _ => destruct a as [wake r] end. simpl in *. typed_go.
Qed.
Lemma typed_instant_add a d : typed (instant_add a d) anything.
Proof. unfold instant_add. typed_go. Qed.
End SessionTyping.

#[export] Hint Resolve typed_create_tcp typed_create_udp typed_session_bind typed_connect typed_listen typed_read
  typed_write typed_accept typed_recvfrom typed_sendto typed_set_nodelay typed_set_nonblocking typed_local_addr
  typed_peer_addr typed_drop typed_register_worker typed_register typed_deregister typed_yield typed_instant_add : typed.

Section ReactorTyping.
Context `{E : Env} `{!EnvSat typed_answer}.

Lemma typed_notify_range ws evs i n : typed (notify_range ws evs i n) anything.
Proof.
  revert i. induction n as [|n IH]; intros i; cbn [notify_range]; [by apply typed_ret|].
  destruct (evs !! i); [|apply typed_panic]. apply (typed_bind _ _ anything); [typed_go|]. intros _ _. apply IH.
Qed.

Lemma typed_drain fuel : typed (drain_events_with_inner fuel) anything.
Proof.
  unfold drain_events_with_inner. typed_step.
  apply (typed_loop (fun evs => length evs = 64%nat)); [done|]. intros evs Hevs. unfold drain_round.
  assert (0 < len evs) by (unfold len; lia). typed_step. destruct r as [n es]. destruct (n <=? 0); [by apply typed_ret|].
  eapply typed_bind; [apply typed_notify_range|]. intros _ _.
  destruct (n <? _); apply typed_ret; [done|]. by rewrite length_fill.
Qed.

Lemma typed_notify_all l : typed (notify_all l) anything.
Proof. induction l as [|[h n] l IH]; cbn [notify_all]; typed_go. Qed.

#[local] Hint Resolve typed_drain typed_notify_all : typed.

Lemma typed_drainer fuel : typed (drainer fuel) anything.
Proof.
  unfold drainer. do 4 typed_step. apply (typed_loop anything); [done|]. intros [la pt] _. unfold drainer_round.
  eapply typed_bind; [apply typed_yield|]. intros _ _. typed_step.
  apply (typed_bind _ _ anything); [typed_go|]. intros _ _. typed_step. destruct (negb _); [by apply typed_ret|].
  eapply typed_bind; [apply typed_drain|]. intros _ _. typed_step.
  eapply typed_bind; [apply typed_notify_all|]. intros _ _. typed_step.
  apply (typed_bind _ _ anything); [typed_go|]. intros _ _. by apply typed_ret.
Qed.

Lemma typed_entry h : typed (entry_or_insert h) anything.
Proof. unfold entry_or_insert. typed_go. Qed.

Lemma typed_poll_select order n d : typed (poll_select order n d) anything.
Proof. induction order as [|[] order IH]; cbn [poll_select]; typed_go. Qed.

#[local] Hint Resolve typed_entry typed_poll_select : typed.

Lemma typed_poll_wait fuel fut : typed (poll_wait fuel fut) anything.
Proof.
  apply (typed_loop anything); [done|]. intros f _. unfold poll_wait_round.
  eapply (typed_mono _ anything); [|by intros []]. typed_go.
Qed.

#[local] Hint Resolve typed_poll_wait : typed.

Lemma typed_wait fuel h m d : typed (wait_event fuel h m d) (oks anything).
Proof.
  apply (typed_loop anything); [done|]. intros f _. unfold await_round.
  eapply typed_bind; [apply typed_poll_wait|]. intros [[r|] fut] _; typed_go. by destruct r.
Qed.

Lemma typed_wait_readable fuel h d : typed (wait_readable fuel h d) (oks anything).
Proof. apply typed_wait. Qed.

Lemma typed_wait_writable fuel h d : typed (wait_writable fuel h d) (oks anything).
Proof. apply typed_wait. Qed.
End ReactorTyping.

#[export] Hint Resolve typed_poll_wait typed_wait_readable typed_wait_writable : typed.

(** ** Streams *)

Section StreamTyping.
Context `{E : Env} `{!EnvSat typed_answer}.

Lemma typed_bind_source h source : is_u32 h -> wf_source source -> typed (bind_source h source) (oks anything).
Proof. intros. destruct source; simpl; typed_go. Qed.

Lemma typed_blocking_connect a : wf_addr a -> typed (blocking_connect a) (oks is_u32).
Proof.
  intros Ha%wt_endpoint_into_buf. unfold blocking_connect. typed_step. typed_step. destruct (_ <? 0); [typed_go|].
  destruct (SessionHandle.endpoint_into_buf a zero_ip_buf). simpl in Ha. typed_go.
Qed.

#[local] Hint Resolve typed_bind_source typed_blocking_connect : typed.

Lemma typed_stream_connect a source d : wf_addr a -> wf_source source ->
  typed (stream_connect a source d) (oks wt_stream).
Proof.
  intros Ha Hs. unfold stream_connect. do 2 typed_step. apply typed_unless_ok; [|typed_go].
  do 3 typed_step. destruct r as [worker|e]; [|by apply typed_ret].
  eapply (typed_try_bind _ _ is_u32).
  - eapply typed_bind; [by apply typed_on_thread, typed_blocking_connect|]. intros r' Hr.
    eapply typed_bind; [apply typed_yield|]. intros _ _. by apply typed_ret.
  - intros h Hh. typed_go.
Qed.

Lemma typed_connect_async fuel a source d : wf_addr a -> wf_source source ->
  typed (connect_async fuel a source d) (oks wt_stream).
Proof.
  intros Ha Hs. unfold connect_async. do 2 typed_step. apply typed_unless_ok; [|typed_go].
  do 4 typed_step. assert (typed (_ ←? wait_writable fuel a1 d; mret (Ok (mkStream a1 None None))) (oks wt_stream))
    by (eapply typed_try_bind; [apply typed_wait_writable|]; intros _ _; by apply typed_ret).
  match goal with r : Result unit |- _ => destruct r as [|[]] end; (assumption || by apply typed_ret).
Qed.

Lemma typed_from_accepted h : is_u32 h -> typed (from_accepted h) (oks wt_stream).
Proof. intros. unfold from_accepted. typed_go. Qed.

Lemma typed_stream_read fuel s buf : wt_stream s -> typed (stream_read fuel s buf) anything.
Proof.
  intros Hs. apply (typed_loop anything); [done|]. intros b _. unfold read_round.
  eapply (typed_mono _ anything); [|by intros []]. eapply typed_bind; [by apply typed_read|]. intros [[n|[]] b'] _; typed_go.
Qed.

#[local] Hint Resolve typed_stream_read : typed.

Lemma typed_read_exact fuel s buf : wt_stream s -> typed (read_exact fuel s buf) anything.
Proof.
  intros Hs. apply (typed_loop anything); [done|]. intros [pos b] _. unfold read_exact_round.
  eapply (typed_mono _ anything); [|by intros []]. typed_go.
Qed.

Lemma typed_write_all fuel s buf : wt_stream s -> typed (write_all fuel s buf) (oks anything).
Proof.
  intros Hs. apply (typed_loop anything); [done|]. intros pos _. unfold write_all_round.
  eapply (typed_mono _ anything); [|by intros [|[]]]. destruct (_ <? _); [|by apply typed_ret].
  eapply typed_bind; [by apply typed_write|]. intros [n|[]] _; typed_go.
Qed.

Lemma typed_stream_local_addr s : wt_stream s -> typed (stream_local_addr s) wf_maybe.
Proof. intros. unfold stream_local_addr. eapply typed_bind; [by apply typed_local_addr|]. intros [] ?; by apply typed_ret. Qed.

Lemma typed_stream_peer_addr s : wt_stream s -> typed (stream_peer_addr s) wf_maybe.
Proof. intros. unfold stream_peer_addr. eapply typed_bind; [by apply typed_peer_addr|]. intros [] ?; by apply typed_ret. Qed.

Lemma typed_stream_drop s : wt_stream s -> typed (stream_drop s) anything.
Proof. intros. unfold stream_drop. typed_go. Qed.

Lemma typed_poll_read fuel s b : wt_stream s -> typed (poll_read fuel s b) (fun r => wt_stream r.1.2).
Proof.
  intros Hs. apply (typed_loop (fun st => wt_stream st.1)); [done|]. clear s b Hs. intros [s b] Hs.
  assert (forall s b, wt_stream s -> typed (poll_read_syscall s b)
    (fun r => match r with inl st => wt_stream st.1 | inr r => wt_stream r.1.2 end)) as Hsys.
  { clear s b Hs. intros s b Hs. unfold poll_read_syscall. eapply typed_bind; [by apply typed_read|].
    intros [[n|[]] b'] _; try by apply typed_ret. unfold advance. destruct (n =? 0); [by apply typed_ret|].
    apply (typed_bind _ _ anything); [case_match; [by apply typed_ret|apply typed_panic]|]. intros b2 _. by apply typed_ret. }
  unfold poll_read_round. destruct (pending_readable s) as [fut|]; [|by apply Hsys].
  eapply typed_bind; [apply typed_poll_wait|]. intros [[[]|] fut'] _; [by apply Hsys|by apply typed_ret..].
Qed.

Lemma typed_poll_write fuel s buf : wt_stream s -> typed (poll_write fuel s buf) (fun r => wt_stream r.2).
Proof.
  intros Hs. apply (typed_loop wt_stream); [done|]. clear s Hs. intros s Hs.
  assert (forall s, wt_stream s -> typed (poll_write_syscall s buf)
    (fun r => match r with inl s => wt_stream s | inr r => wt_stream r.2 end)) as Hsys.
  { clear s Hs. intros s Hs. unfold poll_write_syscall. eapply typed_bind; [by apply typed_write|].
    intros [n|[]] _; by apply typed_ret. }
  unfold poll_write_round. destruct (pending_writable s) as [fut|]; [|by apply Hsys].
  eapply typed_bind; [apply typed_poll_wait|]. intros [[[]|] fut'] _; [by apply Hsys|by apply typed_ret..].
Qed.

Lemma typed_poll_shutdown s : wt_stream s -> typed (poll_shutdown s) anything.
Proof. intros. unfold poll_shutdown. typed_go. Qed.
End StreamTyping.

#[export] Hint Resolve typed_connect_async typed_from_accepted typed_read_exact typed_write_all typed_stream_drop : typed.

(** ** UDP sockets and listeners *)

Definition wt_dgram (s : VclDgramSocket) : Prop := is_u32 (dg_handle s).
Definition wt_listener (s : VclListener) : Prop := is_u32 (ls_handle s).

Section SocketTyping.
Context `{E : Env} `{!EnvSat typed_answer}.

Lemma typed_bind_drain fuel v d : is_u32 v -> typed (bind_drain fuel v d) anything.
Proof.
  intros Hv. apply (typed_loop (fun evs => length evs = 8%nat)); [done|]. intros evs Hevs. unfold bind_drain_round.
  assert (0 < len evs) by (unfold len; lia). typed_step. destruct (_ <? d); [|by apply typed_ret].
  typed_step. destruct r0 as [n es]. apply typed_ret. by rewrite length_fill.
Qed.

#[local] Hint Resolve typed_bind_drain : typed.

Lemma typed_verify_bind fuel h a : is_u32 h -> typed (verify_bind_or_err fuel h a) (oks anything).
Proof. intros. unfold verify_bind_or_err. typed_go. Qed.

#[local] Hint Resolve typed_verify_bind : typed.

Lemma is_u32_0 : is_u32 0. Proof. unfold is_u32. lia. Qed.
Lemma is_u32_128 : is_u32 128. Proof. unfold is_u32. lia. Qed.
#[local] Hint Resolve is_u32_0 is_u32_128 : typed.

Lemma typed_dgram_bind fuel a : wf_addr a -> typed (dgram_bind fuel a) (oks wt_dgram).
Proof. intros. unfold dgram_bind. typed_go. Qed.

Lemma typed_listener_bind fuel a : wf_addr a -> typed (listener_bind fuel a) (oks wt_listener).
Proof. intros. unfold listener_bind. typed_go. Qed.

(** The text parsed is an address, whatever was formatted into it. *)
Lemma typed_bind_attempts fuel s n e : typed (bind_attempts fuel s n e) (oks wt_dgram).
Proof.
  revert e. induction n as [|n IH]; intros e; cbn [bind_attempts]; [by apply typed_ret|].
  typed_step. destruct (parse_socket_addr _) as [a|] eqn:Ha; [|by apply typed_ret].
  apply parse_socket_addr_wf in Ha. eapply typed_bind; [by apply typed_dgram_bind|].
  intros [s'|e'] Hs; [by apply typed_ret|apply IH].
Qed.

Lemma typed_ephemeral_v4 fuel : typed (bind_ephemeral_v4 fuel) (oks wt_dgram).
Proof. apply typed_bind_attempts. Qed.

Lemma typed_ephemeral_v6 fuel : typed (bind_ephemeral_v6 fuel) (oks wt_dgram).
Proof. apply typed_bind_attempts. Qed.

Lemma typed_recv_from fuel s buf : wt_dgram s -> typed (recv_from fuel s buf) (fun r => oks (fun p => wf_addr p.2) r.1).
Proof.
  intros Hs. apply (typed_loop anything); [done|]. intros b _. unfold recv_from_round.
  eapply typed_bind; [by apply typed_recvfrom|]. intros [[p|[]] b'] Hp; try by apply typed_ret.
  eapply typed_bind; [apply typed_wait_readable|]. intros [u|[]] _; by apply typed_ret.
Qed.

Lemma typed_try_recv_from s buf : wt_dgram s ->
  typed (try_recv_from s buf) (fun r => oks (fun p => match p with Some p => wf_addr p.2 | None => True end) r.1).
Proof.
  intros Hs. unfold try_recv_from. eapply typed_bind; [by apply typed_recvfrom|].
  intros [[p|[]] b'] Hp; by apply typed_ret.
Qed.

Lemma typed_dgram_wait fuel s : typed (dgram_wait_readable fuel s) (oks anything).
Proof.
  unfold dgram_wait_readable. eapply typed_bind; [apply typed_wait_readable|]. intros [u|[]] _; by apply typed_ret.
Qed.

Lemma typed_send_to fuel s buf a : wt_dgram s -> wf_addr a -> typed (send_to fuel s buf a) (oks anything).
Proof.
  intros Hs Ha. apply (typed_loop anything); [done|]. intros u _. unfold send_to_round.
  eapply typed_bind; [by apply typed_sendto|]. intros [n|[]] _; try by apply typed_ret.
  eapply typed_bind; [apply typed_wait_writable|]. intros [] _; by apply typed_ret.
Qed.

Lemma typed_dgram_local_addr s : wt_dgram s -> typed (dgram_local_addr s) wf_maybe.
Proof. intros. unfold dgram_local_addr. eapply typed_bind; [by apply typed_local_addr|]. intros [] ?; by apply typed_ret. Qed.

Lemma typed_dgram_drop s : wt_dgram s -> typed (dgram_drop s) anything.
Proof. intros. unfold dgram_drop. typed_go. Qed.

Lemma typed_listener_accept fuel s : wt_listener s ->
  typed (listener_accept fuel s) (oks (fun p => wt_stream p.1 /\ wf_addr p.2)).
Proof.
  intros Hs. apply (typed_loop anything); [done|]. intros u _. unfold accept_round.
  eapply typed_bind; [by apply typed_accept|]. intros [[c peer]|[]] Hr; try by apply typed_ret.
  - destruct Hr as [Hc Hp]. simpl in Hc, Hp.
    eapply (typed_bind _ _ (oks (fun p => wt_stream p.1 /\ wf_addr p.2))); [|intros r Hr; by apply typed_ret].
    eapply typed_try_bind; [apply typed_unless_ok; [by apply typed_register|typed_go]|]. intros _ _.
    eapply typed_try_bind; [by apply typed_from_accepted|]. intros s' Hs'. by apply typed_ret.
  - eapply typed_bind; [apply typed_wait_readable|]. intros [|[]] _; by apply typed_ret.
Qed.

Lemma typed_listener_local_addr s : wt_listener s -> typed (listener_local_addr s) wf_maybe.
Proof. intros. unfold listener_local_addr. eapply typed_bind; [by apply typed_local_addr|]. intros [] ?; by apply typed_ret. Qed.

Lemma typed_listener_drop s : wt_listener s -> typed (listener_drop s) anything.
Proof. intros. unfold listener_drop. typed_go. Qed.
End SocketTyping.

(** ** Queries and the echo server *)

Definition wt_udp_sync (s : VclUdpSyncSocket) : Prop := is_u32 (us_handle s).

Section QueryTyping.
Context `{E : Env} `{!EnvSat typed_answer}.

(** A port of the ephemeral range. *)
Lemma typed_ephemeral_port {A} (k : Z -> M A) (P : A -> Prop) :
  (forall p, is_u16 p -> typed (k p) P) -> typed (do_call (gen_range LOW HIGH) ≫= k) P.
Proof.
  intros Hk. apply (typed_call_bind (gen_range LOW HIGH) k P); [simpl; unfold LOW, HIGH; lia|].
  intros p Hp. simpl in Hp. apply Hk. unfold is_u16, LOW, HIGH in *. lia.
Qed.

Lemma typed_bind_retry h ip n : is_u32 h -> wf_ip ip -> typed (bind_retry h ip n) anything.
Proof.
  intros Hh Hip. induction n as [|n IH]; cbn [bind_retry]; [by apply typed_ret|].
  apply typed_ephemeral_port. intros p Hp. eapply typed_bind; [apply typed_session_bind; auto with typed|].
  intros r _. destruct (is_ok r); [by apply typed_ret|apply IH].
Qed.

Lemma typed_gen_ports n : typed (gen_ports n) (Forall is_u16).
Proof.
  induction n as [|n IH]; cbn [gen_ports]; [by apply typed_ret|]. apply typed_ephemeral_port. intros p Hp.
  eapply typed_bind; [exact IH|]. intros ps Hps. apply typed_ret. by constructor.
Qed.

Lemma typed_connect_attempts fuel peer ip d0 t0 ports e : wf_addr peer -> wf_ip ip -> Forall is_u16 ports ->
  typed (connect_attempts fuel peer ip d0 t0 ports e) (oks wt_stream).
Proof.
  intros Hp Hip Hports. revert e. induction Hports as [|p ports Hport _ IH]; intros e; cbn [connect_attempts];
    [by apply typed_ret|].
  typed_step. destruct (_ =? 0); [by apply typed_ret|].
  eapply typed_bind; [apply typed_connect_async; [done|by apply wf_sock_new]|].
  intros [s|e'] Hs; [by apply typed_ret|apply IH].
Qed.

Lemma typed_query_connect fuel peer source d : wf_addr peer -> wf_source_ip source ->
  typed (query_connect fuel peer source d) (oks wt_stream).
Proof.
  intros Hp Hs. unfold query_connect. typed_step. destruct source as [ip|]; [|by apply typed_connect_async].
  destruct (xorb _ _); [by apply typed_ret|]. eapply typed_bind; [apply typed_gen_ports|].
  intros ports Hports. by apply typed_connect_attempts.
Qed.

Lemma typed_decode lenbuf : typed (decode_lenbuf lenbuf) (oks anything).
Proof.
  unfold decode_lenbuf. destruct lenbuf as [|a [|b []]]; try apply typed_panic.
  apply typed_ret. by destruct (decode_tcp_dns_len a b).
Qed.

#[local] Hint Resolve typed_bind_retry typed_decode : typed.

Lemma typed_dns_exchange fuel s query : wt_stream s -> typed (dns_exchange fuel s query) (oks anything).
Proof.
  intros Hs. unfold dns_exchange.
  apply (typed_try_bind _ _ anything); [apply typed_ret; by destruct (frame_tcp_dns_query query)|]. intros framed _.
  typed_step. assert (forall buf, typed (r ← read_exact fuel s buf; mret (filled r)) (oks anything)) as Hr.
  { intros buf. eapply typed_bind; [by apply typed_read_exact|]. intros [[] b] _; by apply typed_ret. }
  eapply typed_try_bind; [apply Hr|]. intros lenbuf _. typed_step. apply Hr.
Qed.

Lemma typed_query_tcp_async fuel peer source query d : wf_addr peer -> wf_source_ip source ->
  typed (query_tcp_dns_async fuel peer source query d) (oks anything).
Proof.
  intros Hp Hs. unfold query_tcp_dns_async. eapply typed_try_bind; [by apply typed_query_connect|]. intros s Hw.
  apply typed_finally; [by apply typed_dns_exchange|by apply typed_stream_drop].
Qed.

Lemma typed_source_bind h peer source : is_u32 h -> wf_source_ip source ->
  typed (sync_source_bind h peer source) (oks anything).
Proof. intros Hh Hs. unfold sync_source_bind. destruct source; typed_go. Qed.

Lemma typed_drain_mq v : is_u32 v -> typed (drain_mq v) anything.
Proof. intros. unfold drain_mq. typed_go. Qed.

#[local] Hint Resolve typed_source_bind typed_drain_mq : typed.

Lemma typed_sync_read fuel line h v d buf : is_u32 h -> is_u32 v -> typed (sync_read fuel line h v d buf) (oks anything).
Proof.
  intros Hh Hv. apply (typed_loop anything); [done|]. intros [[got polls] b] _. unfold sync_read_round.
  eapply (typed_mono _ anything); [|by intros [|[]]]. destruct (_ <? _); [|by apply typed_ret].
  typed_step. destruct (_ <=? _); [typed_go|].
  eapply typed_bind; [by apply typed_read|]. intros [[n|[]] b'] _; typed_go.
Qed.

#[local] Hint Resolve typed_sync_read : typed.

Lemma typed_sync_send fuel h v d c0 peer framed : is_u32 h -> is_u32 v ->
  typed (sync_send fuel h v d c0 peer framed) (oks anything).
Proof.
  intros Hh Hv. apply (typed_loop anything); [done|]. intros [[sent polls] err] _. unfold sync_write_round.
  eapply (typed_mono _ anything); [|by intros [|[]]]. destruct (_ <? _); [|by apply typed_ret].
  eapply typed_bind; [by apply typed_write|]. intros [n|[]] _; [|typed_go..].
  apply (typed_bind _ _ anything); [|intros _ _; by apply typed_ret]. destruct (0 <? polls); typed_go.
Qed.

Lemma typed_sync_read_prefix fuel h v d c0 peer buf : is_u32 h -> is_u32 v ->
  typed (sync_read_prefix fuel h v d c0 peer buf) (oks anything).
Proof. intros. unfold sync_read_prefix. typed_go. Qed.

Lemma typed_sync_read_body fuel h v d c0 peer buf : is_u32 h -> is_u32 v ->
  typed (sync_read_body fuel h v d c0 peer buf) (oks anything).
Proof. intros. unfold sync_read_body. typed_go. Qed.

#[local] Hint Resolve typed_sync_send typed_sync_read_prefix typed_sync_read_body : typed.

Lemma typed_sync_exchange fuel h v peer query d : is_u32 h -> is_u32 v -> wf_addr peer ->
  typed (sync_exchange fuel h v peer query d) (oks anything).
Proof.
  intros Hh Hv Hp. unfold sync_exchange. do 3 typed_step.
  match goal with r : Result unit |- _ => destruct r as [|[]] end; try by apply typed_ret.
  all: do 2 typed_step.
  all: eapply (typed_try_bind _ _ anything); [apply typed_ret; by destruct (frame_tcp_dns_query query)|].
  all: intros framed _; typed_go.
Qed.

Lemma typed_query_tcp_sync fuel peer source query d : wf_addr peer -> wf_source_ip source ->
  typed (query_tcp_dns_sync fuel peer source query d) (oks anything).
Proof.
  intros Hp Hs. unfold query_tcp_dns_sync. do 2 typed_step. apply typed_finally; [|typed_go].
  typed_step. typed_step. destruct (_ <? 0); [by apply typed_ret|]. cbn zeta. typed_step.
  destruct (_ <? 0); [typed_go|]. apply typed_finally; [apply typed_sync_exchange; auto with typed|].
  unfold epoll_guard_drop. typed_go.
Qed.

Lemma typed_parse_ip s : typed (parse_ip_unwrap s) wf_ip.
Proof.
  unfold parse_ip_unwrap. destruct (parse_ip_addr s) eqn:Hs; [|apply typed_panic].
  apply typed_ret. by eapply parse_ip_addr_wf.
Qed.

#[local] Hint Resolve typed_parse_ip : typed.

Lemma typed_udp_bind_ip peer source : wf_source_ip source -> typed (udp_bind_ip peer source) (oks wf_ip).
Proof. intros Hs. unfold udp_bind_ip. destruct source; typed_go. Qed.

Lemma typed_udp_sync_ip source v6 : wf_source_ip source -> typed (udp_sync_ip source v6) (oks wf_ip).
Proof. intros Hs. unfold udp_sync_ip. destruct source as [[]|], v6; typed_go. Qed.

(** The two polling loops return a sender's address. *)
Definition wf_datagram (p : list u8 * SocketAddr) : Prop := wf_addr p.2.

Lemma typed_udp_poll fuel h d buf : is_u32 h -> typed (loop fuel (udp_poll_round h d) buf) (oks wf_datagram).
Proof.
  intros Hh. apply (typed_loop anything); [done|]. intros b _. unfold udp_poll_round.
  eapply typed_bind; [by apply typed_recvfrom|]. intros [[[n from]|[]] b'] Hr; try by apply typed_ret.
  typed_step. destruct (_ <=? _); [by apply typed_ret|]. typed_go.
Qed.

Lemma typed_udp_sync_poll fuel h peer d buf : is_u32 h ->
  typed (loop fuel (udp_sync_round h peer d) buf) (oks wf_datagram).
Proof.
  intros Hh. apply (typed_loop anything); [done|]. intros b _. unfold udp_sync_round.
  eapply typed_bind; [by apply typed_recvfrom|]. intros [[[n from]|[]] b'] Hr; try by apply typed_ret.
  - destruct (negb _); [by apply typed_ret|]. destruct (n <=? _); [by apply typed_ret|apply typed_panic].
  - typed_step. destruct (_ <=? _); [by apply typed_ret|]. typed_go.
Qed.

#[local] Hint Resolve typed_udp_bind_ip typed_udp_sync_ip typed_udp_poll typed_udp_sync_poll is_u32_0 : typed.

Lemma typed_query_udp fuel peer source query d : wf_addr peer -> wf_source_ip source ->
  typed (query_udp_sync fuel peer source query d) (oks wf_datagram).
Proof. intros. unfold query_udp_sync. typed_go. Qed.

Lemma typed_probe peer : wf_addr peer -> typed (probe_local_source peer) (oks wf_addr).
Proof. intros. unfold probe_local_source. typed_go. Qed.

Lemma typed_udp_sync_bind source v6 : wf_source_ip source -> typed (udp_sync_bind source v6) (oks wt_udp_sync).
Proof. intros. unfold udp_sync_bind. typed_go. Qed.

Lemma typed_udp_sync_query fuel s peer query d : wt_udp_sync s -> wf_addr peer ->
  typed (udp_sync_query fuel s peer query d) (oks wf_datagram).
Proof. intros. unfold udp_sync_query. typed_go. Qed.

Lemma typed_udp_sync_local_addr s : wt_udp_sync s -> typed (udp_sync_local_addr s) (oks wf_addr).
Proof. apply typed_local_addr. Qed.

Lemma typed_udp_sync_drop s : wt_udp_sync s -> typed (udp_sync_drop s) anything.
Proof. apply typed_drop. Qed.

Lemma typed_echo_loop fuel s : wt_dgram s -> typed (echo_loop fuel s) (oks anything).
Proof.
  intros Hs. apply (typed_loop anything); [done|]. intros b _. unfold echo_round.
  eapply typed_bind; [by apply typed_recv_from|]. intros [[[n peer]|e] b'] Hr; [|by apply typed_ret].
  typed_step. destruct (n <=? _); [|apply typed_panic]. eapply typed_bind; [by apply typed_send_to|].
  intros [] _; by apply typed_ret.
Qed.

Lemma typed_echo_main fuel arg : typed (echo_main fuel arg) (oks anything).
Proof.
  unfold echo_main. eapply typed_try_bind; [apply typed_app_init|]. intros _ _.
  apply typed_finally; [|apply typed_app_drop]. eapply typed_try_bind; [apply typed_reactor_new|]. intros _ _.
  destruct (parse_socket_addr _) as [a|] eqn:Ha; [|apply typed_panic]. apply parse_socket_addr_wf in Ha.
  eapply typed_try_bind; [by apply typed_dgram_bind|]. intros s Hs.
  apply typed_finally; [|by apply typed_dgram_drop]. typed_step. by apply typed_echo_loop.
Qed.
End QueryTyping.

(** ** Programs over the public interface *)

Section Programs.
Context `{E : Env}.

(** [program m P]: [m] is put together from the crate's public operations,
    handing them well-formed addresses and the streams, sockets and listeners
    that earlier operations returned; its results are in [P]. *)
Inductive program : forall {A}, M A -> (A -> Prop) -> Prop :=
| prog_ret A (a : A) (P : A -> Prop) : P a -> program (mret a) P
| prog_panic A (P : A -> Prop) : program (panic : M A) P
| prog_bind A B (m : M A) (k : A -> M B) P Q :
    program m P -> (forall a, P a -> program (k a) Q) -> program (m ≫= k) Q
| prog_finally A (m : M A) cleanup P : program m P -> program cleanup anything -> program (finally m cleanup) P
| prog_on_thread A t (m : M A) P : program m P -> program (on_thread t m) P
| prog_yield : program yield_now anything
| prog_app_init name : program (app_init name) (oks anything)
| prog_app_drop : program app_drop anything
| prog_register_worker : program register_worker_thread anything
| prog_reactor_new : program reactor_new (oks anything)
| prog_drainer fuel : program (drainer fuel) anything
| prog_connect a source d : wf_addr a -> wf_source source -> program (stream_connect a source d) (oks wt_stream)
| prog_connect_async fuel a source d :
    wf_addr a -> wf_source source -> program (connect_async fuel a source d) (oks wt_stream)
| prog_read fuel s buf : wt_stream s -> program (stream_read fuel s buf) anything
| prog_read_exact fuel s buf : wt_stream s -> program (read_exact fuel s buf) anything
| prog_write_all fuel s buf : wt_stream s -> program (write_all fuel s buf) (oks anything)
| prog_stream_local_addr s : wt_stream s -> program (stream_local_addr s) wf_maybe
| prog_stream_peer_addr s : wt_stream s -> program (stream_peer_addr s) wf_maybe
| prog_poll_read fuel s b : wt_stream s -> program (poll_read fuel s b) (fun r => wt_stream r.1.2)
| prog_poll_write fuel s buf : wt_stream s -> program (poll_write fuel s buf) (fun r => wt_stream r.2)
| prog_poll_shutdown s : wt_stream s -> program (poll_shutdown s) anything
| prog_stream_drop s : wt_stream s -> program (stream_drop s) anything
| prog_listener_bind fuel a : wf_addr a -> program (listener_bind fuel a) (oks wt_listener)
| prog_accept fuel s : wt_listener s -> program (listener_accept fuel s) (oks (fun p => wt_stream p.1 /\ wf_addr p.2))
| prog_listener_local_addr s : wt_listener s -> program (listener_local_addr s) wf_maybe
| prog_listener_drop s : wt_listener s -> program (listener_drop s) anything
| prog_dgram_bind fuel a : wf_addr a -> program (dgram_bind fuel a) (oks wt_dgram)
| prog_ephemeral_v4 fuel : program (bind_ephemeral_v4 fuel) (oks wt_dgram)
| prog_ephemeral_v6 fuel : program (bind_ephemeral_v6 fuel) (oks wt_dgram)
| prog_recv_from fuel s buf : wt_dgram s -> program (recv_from fuel s buf) (fun r => oks (fun p => wf_addr p.2) r.1)
| prog_try_recv_from s buf : wt_dgram s -> program (try_recv_from s buf)
    (fun r => oks (fun p => match p with Some p => wf_addr p.2 | None => True end) r.1)
| prog_dgram_wait fuel s : wt_dgram s -> program (dgram_wait_readable fuel s) (oks anything)
| prog_send_to fuel s buf a : wt_dgram s -> wf_addr a -> program (send_to fuel s buf a) (oks anything)
| prog_dgram_local_addr s : wt_dgram s -> program (dgram_local_addr s) wf_maybe
| prog_dgram_drop s : wt_dgram s -> program (dgram_drop s) anything
| prog_query_tcp_async fuel peer source query d :
    wf_addr peer -> wf_source_ip source -> program (query_tcp_dns_async fuel peer source query d) (oks anything)
| prog_query_tcp_sync fuel peer source query d :
    wf_addr peer -> wf_source_ip source -> program (query_tcp_dns_sync fuel peer source query d) (oks anything)
| prog_query_udp fuel peer source query d :
    wf_addr peer -> wf_source_ip source -> program (query_udp_sync fuel peer source query d) (oks wf_datagram)
| prog_probe peer : wf_addr peer -> program (probe_local_source peer) (oks wf_addr)
| prog_udp_sync_bind source v6 : wf_source_ip source -> program (udp_sync_bind source v6) (oks wt_udp_sync)
| prog_udp_sync_query fuel s peer query d :
    wt_udp_sync s -> wf_addr peer -> program (udp_sync_query fuel s peer query d) (oks wf_datagram)
| prog_udp_sync_local_addr s : wt_udp_sync s -> program (udp_sync_local_addr s) (oks wf_addr)
| prog_udp_sync_drop s : wt_udp_sync s -> program (udp_sync_drop s) anything
| prog_echo fuel arg : program (echo_main fuel arg) (oks anything).

Lemma program_typed `{!EnvSat typed_answer} {A} (m : M A) P : program m P -> typed m P.
Proof.
  induction 1;
    [by apply typed_ret|apply typed_panic|by eapply typed_bind|by apply typed_finally|by apply typed_on_thread|
     by apply typed_yield|by apply typed_app_init|by apply typed_app_drop|by apply typed_register_worker|
     by apply typed_reactor_new|by apply typed_drainer|by apply typed_stream_connect|by apply typed_connect_async|
     by apply typed_stream_read|by apply typed_read_exact|by apply typed_write_all|by apply typed_stream_local_addr|
     by apply typed_stream_peer_addr|by apply typed_poll_read|by apply typed_poll_write|by apply typed_poll_shutdown|
     by apply typed_stream_drop|by apply typed_listener_bind|by apply typed_listener_accept|by apply typed_listener_local_addr|
     by apply typed_listener_drop|by apply typed_dgram_bind|by apply typed_ephemeral_v4|by apply typed_ephemeral_v6|
     by apply typed_recv_from|by apply typed_try_recv_from|by apply typed_dgram_wait|by apply typed_send_to|
     by apply typed_dgram_local_addr|by apply typed_dgram_drop|by apply typed_query_tcp_async|by apply typed_query_tcp_sync|
     by apply typed_query_udp|by apply typed_probe|by apply typed_udp_sync_bind|by apply typed_udp_sync_query|
     by apply typed_udp_sync_local_addr|by apply typed_udp_sync_drop|by apply typed_echo_main].
Qed.

End Programs.
