(* ===== verification/Workers.v ===== *)
(** * Registration before use (src/app.rs, and every operation that creates a session)

    libvppcom keeps a worker context per thread and dereferences it without a
    check, so a thread must register before its first session call.  Every
    operation of the crate that creates a session calls
    [register_worker_thread] first; [accept] does not.  This file shows that, on each thread such
    an operation runs on, no session or epoll call is made before the
    registration, and that a registration libvppcom refused does not stop it. *)

From S2P Require Import Prelude Net Errors Ffi World Sim Session App Reactor Ownership Stream Dgram Listener Framing Query.

(** The calls that use the thread's worker context. *)
Definition session_call (c : call) : bool :=
  match c with
  | vppcom_session_create _ _ | vppcom_session_close _ | vppcom_session_shutdown _ _ | vppcom_session_bind _ _
  | vppcom_session_listen _ _ | vppcom_session_accept _ _ _ | vppcom_session_connect _ _
  | vppcom_session_read _ _ _ | vppcom_session_write _ _ _ | vppcom_session_sendto _ _ _ _ _
  | vppcom_session_recvfrom _ _ _ _ _ | vppcom_session_attr_set _ _ _ _ | vppcom_session_attr_get _ _ _ _
  | vppcom_epoll_create | vppcom_epoll_ctl _ _ _ _ | vppcom_epoll_wait _ _ _ _ => true
  | _ => false
  end.

(** The threads that asked to be registered after [l], starting from those
    of [s]; [None] if a thread made a session call before it asked. *)
Fixpoint guarded (s : gset Z) (l : trace) : option (gset Z) :=
  match l with
  | [] => Some s
  | Ev t c _ :: l' =>
      match c with
      | vppcom_worker_register => guarded ({[t]} ∪ s) l'
      | _ => if session_call c && negb (bool_decide (t ∈ s)) then None else guarded s l'
      end
  end.

Lemma guarded_app s l k : guarded s (l ++ k) = guarded s l ≫= fun s' => guarded s' k.
Proof.
  revert s. induction l as [|[t c r] l IH]; intros s; [done|]. simpl.
  destruct c; simpl; try apply IH; case_bool_decide; simpl; auto.
Qed.

Section Secured.
Context `{E : Env}.
Implicit Types w : World.

(** [secured ready m]: [m] makes session calls only on threads that asked to
    be registered, provided its own thread has, when [ready] is set. *)
Definition secured (ready : bool) {A} (m : M A) : Prop := forall w s,
  w_registered w ⊆ s -> (ready = true -> w_tid w ∈ s) ->
  exists l s', w_log (m w).2 = w_log w ++ l /\ guarded s l = Some s' /\ s ⊆ s' /\
    w_registered (m w).2 ⊆ s' /\ w_tid (m w).2 = w_tid w.

Lemma secured_silent ready {A} (m : M A) :
  (forall w, w_log (m w).2 = w_log w /\ w_registered (m w).2 = w_registered w /\ w_tid (m w).2 = w_tid w) ->
  secured ready m.
Proof.
  intros Hm w s Hs _. destruct (Hm w) as (Hl & Hr & Ht). exists [], s. rewrite Hl, Hr, Ht, app_nil_r. by split_and!.
Qed.

Lemma secured_weaken {A} (m : M A) : secured false m -> secured true m.
Proof. intros Hm w s Hs _. by apply Hm. Qed.

Lemma secured_call c : secured true (do_call c).
Proof.
  intros w s Hs Ht. specialize (Ht eq_refl). unfold do_call. destruct (env_step _ _ _) as [r x]. simpl.
  exists [Ev (w_tid w) c r], s. split; [done|]. split; [|by split_and!].
  destruct c; simpl; rewrite ?bool_decide_true by done; simpl; f_equal; set_solver.
Qed.

(** Runs in a row. *)
Lemma secured_seq w l s s1 w1 k s2 w2 :
  w_log w1 = w_log w ++ l -> guarded s l = Some s1 -> s ⊆ s1 ->
  w_log w2 = w_log w1 ++ k -> guarded s1 k = Some s2 -> s1 ⊆ s2 ->
  w_registered w2 ⊆ s2 -> w_tid w2 = w_tid w ->
  exists l s', w_log w2 = w_log w ++ l /\ guarded s l = Some s' /\ s ⊆ s' /\ w_registered w2 ⊆ s' /\ w_tid w2 = w_tid w.
Proof.
  intros Hl Hg Hs Hk Hg' Hs' Hr Ht. exists (l ++ k), s2.
  rewrite Hk, Hl, guarded_app, Hg, app_assoc. split_and!; [done|done|by etrans|done|done].
Qed.

Lemma secured_bind ready {A B} (m : M A) (k : A -> M B) :
  secured ready m -> (forall a, secured ready (k a)) -> secured ready (m ≫= k).
Proof.
  intros Hm Hk w s Hs Ht. destruct (Hm w s Hs Ht) as (l & s1 & Hl & Hg & Hs1 & Hr & Ht1).
  unfold mbind, M_bind. destruct (m w) as [[a| |] w1]; simpl in *; [|by exists l, s1..].
  destruct (Hk a w1 s1 Hr) as (k' & s2 & Hk' & Hg' & Hs2 & Hr2 & Ht2).
  { intros Hready. rewrite Ht1. specialize (Ht Hready). set_solver. }
  eapply secured_seq; try done. congruence.
Qed.

Lemma secured_finally ready {A} (m : M A) cleanup :
  secured ready m -> secured ready cleanup -> secured ready (finally m cleanup).
Proof.
  intros Hm Hc w s Hs Ht. destruct (Hm w s Hs Ht) as (l & s1 & Hl & Hg & Hs1 & Hr & Ht1). unfold finally.
  assert (forall w1, w_log w1 = w_log w ++ l -> w_registered w1 ⊆ s1 -> w_tid w1 = w_tid w ->
    exists l s', w_log (cleanup w1).2 = w_log w ++ l /\ guarded s l = Some s' /\ s ⊆ s' /\
      w_registered (cleanup w1).2 ⊆ s' /\ w_tid (cleanup w1).2 = w_tid w) as Hclean.
  { intros w1 Hl1 Hr1 Ht1'. destruct (Hc w1 s1 Hr1) as (k' & s2 & Hk' & Hg' & Hs2 & Hr2 & Ht2).
    { intros Hready. rewrite Ht1'. specialize (Ht Hready). set_solver. }
    eapply secured_seq; try done. congruence. }
  destruct (m w) as [[a| |] w1]; simpl in *; [by apply Hclean..|by exists l, s1].
Qed.

Lemma secured_unless_ok ready {A X} (m : M (result A X)) cleanup :
  secured ready m -> secured ready cleanup -> secured ready (unless_ok m cleanup).
Proof.
  intros Hm Hc w s Hs Ht. unfold unless_ok.
  pose proof (secured_finally ready m cleanup Hm Hc w s Hs Ht) as Hf. pose proof (Hm w s Hs Ht) as Hok.
  unfold finally in Hf. destruct (m w) as [[[a|e]| |] w1]; simpl in *; assumption.
Qed.

Lemma secured_loop ready {St R} fuel (body : St -> M (St + R)) s :
  (forall s, secured ready (body s)) -> secured ready (loop fuel body s).
Proof.
  intros Hb. revert s. induction fuel as [|fuel IH]; intros s; cbn [loop]; [by apply secured_silent|].
  apply secured_bind; [done|]. intros [s'|r]; [apply IH|by apply secured_silent].
Qed.

(** Another thread has to register for itself. *)
Lemma secured_on_thread ready {A} t (m : M A) : secured false m -> secured ready (on_thread t m).
Proof.
  intros Hm w s Hs _. unfold on_thread. destruct (Hm (with_tid t w) s) as (l & s' & Hl & Hg & Hs' & Hr & _); [done..|].
  destruct (m (with_tid t w)) as [o w1]. simpl in *. exists l, s'. by split_and!.
Qed.

(** Registering, or finding the flag set, makes the thread ready. *)
Lemma registering w s : w_registered w ⊆ s ->
  exists w1 l, register_worker_thread w = (Done tt, w1) /\ w_log w1 = w_log w ++ l /\
    guarded s l = Some ({[w_tid w]} ∪ s) /\ w_registered w1 ⊆ {[w_tid w]} ∪ s /\ w_tid w1 = w_tid w.
Proof.
  intros Hs. pose proof (register_worker_thread_spec w) as Hspec. unfold wp in Hspec.
  destruct (register_worker_thread w) as [o w1]. simpl in *. destruct Hspec as (-> & Ht & Hsame & Hnew). exists w1.
  destruct (decide (w_tid w ∈ w_registered w)) as [Hin|Hnin].
  - rewrite (Hsame Hin). exists []. rewrite app_nil_r. split_and!; [done|done| |set_solver|done].
    simpl. f_equal. set_solver.
  - destruct (Hnew Hnin) as (rc & idx & name & Hi). destruct (idx <? 0); destruct Hi as [Hreg Hl];
      (eexists; split_and!; [done|exact Hl|done|set_solver|done]).
Qed.

(** [m] is secured, and a success means its thread asked to be registered. *)
Definition enrolls {A X} (m : M (result A X)) : Prop := forall w s, w_registered w ⊆ s ->
  exists l s', w_log (m w).2 = w_log w ++ l /\ guarded s l = Some s' /\ s ⊆ s' /\
    w_registered (m w).2 ⊆ s' /\ w_tid (m w).2 = w_tid w /\ forall a, (m w).1 = Done (Ok a) -> w_tid w ∈ s'.

Lemma enrolls_secured {A X} (m : M (result A X)) : enrolls m -> secured false m.
Proof. intros Hm w s Hs _. destruct (Hm w s Hs) as (l & s' & ? & ? & ? & ? & ? & _). by exists l, s'. Qed.

Lemma enrolls_register {A X} (k : unit -> M (result A X)) :
  (forall u, secured true (k u)) -> enrolls (register_worker_thread ≫= k).
Proof.
  intros Hk w s Hs. destruct (registering w s Hs) as (w1 & l & Hrun & Hl & Hg & Hr & Ht).
  rewrite (bind_Done _ _ _ _ _ Hrun).
  destruct (Hk tt w1 ({[w_tid w]} ∪ s) Hr) as (k' & s2 & Hk' & Hg' & Hs2 & Hr2 & Ht2); [intros _; set_solver|].
  exists (l ++ k'), s2. rewrite Hk', Hl, guarded_app, Hg, app_assoc. split_and!; [done|done|set_solver|done|congruence|].
  intros _ _. set_solver.
Qed.

Lemma enrolls_err {A X} (e : X) : enrolls (mret (Err e) : M (result A X)).
Proof. intros w s Hs. exists [], s. rewrite app_nil_r. by split_and!. Qed.

Lemma enrolls_bind {A B X} (m : M A) (k : A -> M (result B X)) :
  secured false m -> (forall a, enrolls (k a)) -> enrolls (m ≫= k).
Proof.
  intros Hm Hk w s Hs. destruct (Hm w s Hs) as (l & s1 & Hl & Hg & Hs1 & Hr & Ht1); [done|].
  unfold mbind, M_bind. destruct (m w) as [[a| |] w1]; simpl in *; [|by exists l, s1; split_and!..].
  destruct (Hk a w1 s1 Hr) as (k' & s2 & Hk' & Hg' & Hs2 & Hr2 & Ht2 & Hok). exists (l ++ k'), s2.
  rewrite Hk', Hl, guarded_app, Hg, app_assoc. rewrite Ht1 in *. split_and!; [done|done|by etrans|done..].
Qed.

(** A success of [m] is handed on, an error gives way to [k]. *)
Lemma enrolls_or {A X} (m : M (result A X)) (k : X -> M (result A X)) :
  enrolls m -> (forall e, enrolls (k e)) ->
  enrolls (r ← m; match r with Ok a => mret (Ok a) | Err e => k e end).
Proof.
  intros Hm Hk w s Hs. destruct (Hm w s Hs) as (l & s1 & Hl & Hg & Hs1 & Hr & Ht1 & Hok).
  unfold mbind, M_bind. destruct (m w) as [[[a|e]| |] w1]; simpl in *; [by exists l, s1; split_and!; eauto| |by exists l, s1..].
  destruct (Hk e w1 s1 Hr) as (k' & s2 & Hk' & Hg' & Hs2 & Hr2 & Ht2 & Hok2). exists (l ++ k'), s2.
  rewrite Hk', Hl, guarded_app, Hg, app_assoc. rewrite Ht1 in *. split_and!; [done|done|by etrans|done..].
Qed.

(** What follows a success may use sessions. *)
Lemma secured_enrolled {A B X} (m : M (result A X)) (k : A -> M (result B X)) :
  enrolls m -> (forall a, secured true (k a)) -> secured false (try_bind m k).
Proof.
  intros Hm Hk w s Hs _. destruct (Hm w s Hs) as (l & s1 & Hl & Hg & Hs1 & Hr & Ht1 & Hok).
  unfold try_bind, mbind, M_bind. destruct (m w) as [[[a|e]| |] w1]; simpl in *; [|by exists l, s1..].
  destruct (Hk a w1 s1 Hr) as (k' & s2 & Hk' & Hg' & Hs2 & Hr2 & Ht2); [intros _; rewrite Ht1; by eapply Hok|].
  eapply secured_seq; try done. congruence.
Qed.
End Secured.

Create HintDb secured.

Ltac secured_go :=
  repeat first
    [ solve [auto 2 with secured]
    | lazymatch goal with
      | |- secured _ (mret _) => by apply secured_silent
      | |- secured _ panic => by apply secured_silent
      | |- secured _ cancelled => by apply secured_silent
      | |- secured _ (gets _) => by apply secured_silent
      | |- secured _ get_reactor => by apply secured_silent
      | |- secured _ (set_reactor _) => by apply secured_silent
      | |- secured _ (try_bind _ _) => apply secured_bind; [|intros []]
      | |- secured _ (_ ≫= _) => apply secured_bind; [|intros ?]
      | |- secured _ (finally _ _) => apply secured_finally
      | |- secured _ (unless_ok _ _) => apply secured_unless_ok
      | |- secured _ (loop _ _ _) => apply secured_loop; intros ?
      | |- secured true (do_call ?c) => exact (secured_call c)
      | |- secured _ (if ?b then _ else _) => destruct b
      | |- secured _ (let (_, _) := ?x in _) => destruct x
      | |- secured _ (match ?x with _ => _ end) => destruct x
      end ].

(** ** The operations *)

Section Operations.
Context `{E : Env}.

Lemma secured_notify_range ws evs i n : secured true (notify_range ws evs i n).
Proof. revert i. induction n as [|n IH]; intros i; cbn [notify_range]; secured_go. Qed.

Lemma secured_poll_select order n d : secured true (poll_select order n d).
Proof. induction order as [|[] order IH]; cbn [poll_select]; secured_go. Qed.

#[local] Hint Resolve secured_notify_range secured_poll_select : secured.

Lemma secured_wait fuel h m d : secured true (wait_event fuel h m d).
Proof.
  unfold wait_event, await, await_round, poll_wait, poll_wait_round, entry_or_insert, instant_add, drain_events,
    drain_events_with_inner, drain_round, yield_now. secured_go.
Qed.

Lemma secured_drop h : secured true (SessionHandle.drop h).
Proof. unfold SessionHandle.drop. secured_go. Qed.

Lemma secured_session_bind h a : secured true (SessionHandle.bind h a).
Proof. unfold SessionHandle.bind. secured_go. Qed.

Lemma secured_set_nodelay h : secured true (SessionHandle.set_nodelay h).
Proof. unfold SessionHandle.set_nodelay. secured_go. Qed.

Lemma secured_session_connect h a : secured true (SessionHandle.connect h a).
Proof. unfold SessionHandle.connect. secured_go. Qed.

Lemma secured_ep_register h : secured true (register h).
Proof. unfold register. secured_go. Qed.

#[local] Hint Resolve secured_wait secured_drop secured_session_bind secured_set_nodelay secured_session_connect
  secured_ep_register : secured.

Lemma secured_blocking_connect a : secured false (blocking_connect a).
Proof. apply enrolls_secured, enrolls_register. intros _. secured_go. Qed.

Lemma secured_stream_connect a source d : secured false (stream_connect a source d).
Proof.
  apply enrolls_secured, enrolls_register. intros _. unfold SessionHandle.create_tcp, bind_source, yield_now.
  pose proof (fun t => secured_on_thread true t _ (secured_blocking_connect a)). secured_go.
Qed.

Lemma connect_async_enrolls fuel a source d : enrolls (connect_async fuel a source d).
Proof.
  apply enrolls_register. intros _. unfold SessionHandle.create_tcp, bind_source, wait_writable. secured_go.
Qed.

Lemma secured_verify_bind fuel h a : secured true (verify_bind_or_err fuel h a).
Proof. unfold verify_bind_or_err, bind_drain, bind_drain_round, instant_add, SessionHandle.local_addr. secured_go. Qed.

#[local] Hint Resolve secured_verify_bind : secured.

Lemma secured_dgram_bind fuel a : secured false (dgram_bind fuel a).
Proof. apply enrolls_secured, enrolls_register. intros _. unfold SessionHandle.create_udp, SessionHandle.listen. secured_go. Qed.

Lemma secured_listener_bind fuel a : secured false (listener_bind fuel a).
Proof. apply enrolls_secured, enrolls_register. intros _. unfold SessionHandle.create_tcp, SessionHandle.listen. secured_go. Qed.

(** A call that uses no worker context is safe on any thread. *)
Lemma secured_free_call c : session_call c = false -> secured false (do_call c).
Proof.
  intros Hc w s Hs _. unfold do_call. destruct (env_step _ _ _) as [r x]. simpl.
  destruct (guarded s [Ev (w_tid w) c r]) as [s'|] eqn:Hg.
  - exists [Ev (w_tid w) c r], s'. split; [done|]. split; [done|].
    destruct c; simpl in Hg, Hc; try done; injection Hg as <-; split_and!; set_solver.
  - by destruct c.
Qed.

Lemma secured_bind_attempts fuel ip n e : secured false (bind_attempts fuel ip n e).
Proof.
  revert e. induction n as [|n IH]; intros e; cbn [bind_attempts]; [by apply secured_silent|].
  apply secured_bind; [by apply (secured_free_call (gen_range LOW HIGH))|]. intros p.
  destruct (parse_socket_addr _); [|by apply secured_silent].
  apply secured_bind; [apply secured_dgram_bind|]. intros [sock|e']; [by apply secured_silent|apply IH].
Qed.

Lemma secured_bind_retry h ip n : secured true (bind_retry h ip n).
Proof. induction n as [|n IH]; cbn [bind_retry]; secured_go. Qed.

#[local] Hint Resolve secured_bind_retry : secured.

Lemma secured_gen_ports n : secured false (gen_ports n).
Proof.
  induction n as [|n IH]; cbn [gen_ports]; [by apply secured_silent|].
  apply secured_bind; [by apply (secured_free_call (gen_range LOW HIGH))|]. intros p.
  apply secured_bind; [exact IH|]. intros ps. by apply secured_silent.
Qed.

Lemma connect_attempts_enroll fuel peer ip d t0 ports e : enrolls (connect_attempts fuel peer ip d t0 ports e).
Proof.
  revert e. induction ports as [|p ports IH]; intros e; cbn [connect_attempts]; [apply enrolls_err|].
  apply enrolls_bind; [by apply (secured_free_call instant_now)|]. intros now.
  destruct (_ =? 0); [apply enrolls_err|]. apply enrolls_or; [apply connect_async_enrolls|]. intros e'. apply IH.
Qed.

Lemma query_connect_enrolls fuel peer source d : enrolls (query_connect fuel peer source d).
Proof.
  unfold query_connect. apply enrolls_bind; [by apply (secured_free_call instant_now)|]. intros started.
  destruct source as [ip|]; [|apply connect_async_enrolls]. destruct (xorb _ _); [apply enrolls_err|].
  apply enrolls_bind; [apply secured_gen_ports|]. intros ports. apply connect_attempts_enroll.
Qed.

Lemma secured_query_tcp_async fuel peer source query d : secured false (query_tcp_dns_async fuel peer source query d).
Proof.
  apply secured_enrolled; [apply query_connect_enrolls|]. intros s.
  unfold dns_exchange, write_all, write_all_round, read_exact, read_exact_round, stream_read, read_round, decode_lenbuf,
    wait_readable, wait_writable, SessionHandle.read, SessionHandle.write, stream_drop, deregister. secured_go.
Qed.

Lemma secured_query_tcp_sync fuel peer source query d : secured false (query_tcp_dns_sync fuel peer source query d).
Proof.
  apply enrolls_secured, enrolls_register. intros _. unfold SessionHandle.create_tcp, sync_source_bind, sync_exchange,
    sync_send, sync_write_round, sync_read_prefix, sync_read_body, sync_read, sync_read_round, drain_mq, decode_lenbuf, instant_add, epoll_guard_drop,
    SessionHandle.read, SessionHandle.write. secured_go.
Qed.

Lemma secured_query_udp fuel peer source query d : secured false (query_udp_sync fuel peer source query d).
Proof.
  apply enrolls_secured, enrolls_register. intros _. unfold SessionHandle.create_udp, udp_bind_ip, parse_ip_unwrap,
    SessionHandle.listen, SessionHandle.sendto, instant_add, udp_poll_round, SessionHandle.recvfrom. secured_go.
Qed.

Lemma secured_probe peer : secured false (probe_local_source peer).
Proof.
  apply enrolls_secured, enrolls_register. intros _. unfold SessionHandle.create_udp, parse_ip_unwrap, SessionHandle.local_addr. secured_go.
Qed.

Lemma secured_udp_sync_bind source v6 : secured false (udp_sync_bind source v6).
Proof.
  apply enrolls_secured, enrolls_register. intros _. unfold SessionHandle.create_udp, udp_sync_ip, parse_ip_unwrap,
    SessionHandle.listen. secured_go.
Qed.

(** From any world, no session call of [m] comes before its thread asked to
    be registered. *)
Definition registers_first {A} (m : M A) : Prop := forall w,
  exists l, w_log (m w).2 = w_log w ++ l /\ is_Some (guarded (w_registered w) l).

Lemma secured_registers_first {A} (m : M A) : secured false m -> registers_first m.
Proof. intros Hm w. destruct (Hm w (w_registered w)) as (l & s & Hl & Hg & _); [done..|]. eauto. Qed.

(** C18. Every operation that creates a session asks libvppcom to register the
    thread before the first session or epoll call it makes there, unless the
    thread already is registered: both connects (the blocking one on the pool
    thread it moves to, too), the verified and the ephemeral binds of both
    families, the three queries, the probe and the long-lived UDP socket.
    These are all callers of [vppcom_session_create]; [accept], which is
    handed its session by libvppcom, is not among them (see
    [accept_never_registers]). *)
Theorem registration_precedes_use fuel addr source sip query d v6 :
  registers_first (stream_connect addr source d) /\ registers_first (connect_async fuel addr source d) /\
  registers_first (dgram_bind fuel addr) /\ registers_first (listener_bind fuel addr) /\
  registers_first (bind_ephemeral_v4 fuel) /\ registers_first (bind_ephemeral_v6 fuel) /\
  registers_first (query_tcp_dns_async fuel addr sip query d) /\
  registers_first (query_tcp_dns_sync fuel addr sip query d) /\ registers_first (query_udp_sync fuel addr sip query d) /\
  registers_first (probe_local_source addr) /\ registers_first (udp_sync_bind sip v6).
Proof.
  split_and!; apply secured_registers_first; auto using secured_stream_connect, enrolls_secured, connect_async_enrolls,
    secured_dgram_bind, secured_listener_bind, secured_query_tcp_async, secured_query_tcp_sync, secured_query_udp,
    secured_probe, secured_udp_sync_bind; apply secured_bind_attempts.
Qed.

(** *** Accepting

    The listener's [accept] does not register its thread: it starts with
    [vppcom_session_accept], and makes no registration call at all, so a
    thread other than the one that bound the listener has to be registered by
    its caller. *)

Definition no_registration (e : event) : Prop :=
  match e with Ev _ vppcom_worker_register _ => False | _ => True end.

Definition starts_with (e : event -> Prop) {A} t (m : M A) : Prop :=
  emits t m (fun _ l => Forall no_registration l /\ exists e0, head l = Some e0 /\ e e0).

Lemma starts_bind e {A B} t (m : M A) (k : A -> M B) :
  starts_with e t m -> (forall a, only no_registration (k a)) -> starts_with e t (m ≫= k).
Proof.
  intros Hm Hk. apply emits_bind. eapply emits_mono; [exact Hm|]. intros [a| |] l (Hl & e0 & Hh & He); [|by eauto..].
  eapply emits_mono; [apply Hk|]. intros o l' Hl'. split; [by apply Forall_app|]. exists e0.
  split; [by apply head_app_Some|done].
Qed.

Lemma wait_no_registration fuel h d : only no_registration (wait_readable fuel h d).
Proof. apply only_wait; [apply _|]. intros [t c r]. by destruct c. Qed.

#[local] Hint Resolve wait_no_registration : pool.

Definition accept_event t (h : Z) (e : event) : Prop :=
  exists r, e = Ev t (vppcom_session_accept h (endpt_for zero_ip_buf) 0) r.

Lemma accept_starts t h : starts_with (accept_event t h) t (SessionHandle.accept h).
Proof.
  eapply emits_mono; [by apply (accept_emits any_answer)|]. intros o l (rc & ep & _ & -> & _).
  split; [by repeat constructor|]. eexists. split; [done|]. by eexists.
Qed.

Lemma accept_round_starts fuel h u t : starts_with (accept_event t h) t (accept_round fuel h u).
Proof.
  apply starts_bind; [apply accept_starts|]. intros r. unfold from_accepted, register, SessionHandle.drop,
    SessionHandle.set_nonblocking, SessionHandle.set_nodelay. only_go.
Qed.

Lemma accept_never_registers fuel s t :
  starts_with (accept_event t (ls_handle s)) t (listener_accept (S fuel) s).
Proof.
  apply starts_bind; [apply accept_round_starts|]. intros [u|r]; [|apply only_ret].
  apply only_loop. intros u' t'. eapply emits_mono; [apply accept_round_starts|]. by intros o l [? _].
Qed.
End Operations.

(** ** A refused registration

    The comment in [register_worker_thread] says a session operation on a
    thread whose registration failed would segfault; the operations above do
    not look at the outcome. *)

(** libvppcom refuses the worker and has no index for the thread. *)
Definition refusing : script := fun _ c =>
  match c with
  | vppcom_worker_register => -17
  | vppcom_worker_index => -1
  | vppcom_session_create _ _ => 3
  | c => default_ret c
  end.

(** The bind goes on and creates its session on the unregistered thread. *)
Lemma refused_registration_proceeds :
  let w := snd (@dgram_bind (scripted refusing) 1 (SockV4 (replicate 4 Byte.x00) 53) (fresh_world refusing 7)) in
  w_registered w = ∅ /\
  take 6 (w_log w) =
    [Ev 7 vppcom_worker_register (-17); Ev 7 vppcom_worker_index (-1); Ev 7 thread_name None;
     Ev 7 vppcom_worker_unregister tt;
     Ev 7 (tracing Warn (Fmt "VCL worker registration failed — thread cannot use VCL sessions"
                           [AText "<unnamed>"; AInt (-17)])) tt;
     Ev 7 (vppcom_session_create VPPCOM_PROTO_UDP 1) 3].
Proof. vm_compute. split; reflexivity. Qed.
