(* ===== verification/Tests.v ===== *)
(** * The unit tests

    The [#[cfg(test)]] modules of src/error.rs, src/session.rs and
    src/dgram.rs, as boolean functions: [true] when no assertion fails.  They
    run against the definitions the theorems are about, so the model is held
    to the examples the authors held the code to. *)

From S2P Require Import Prelude Net Errors Ffi World Session Framing.

(** [assert_eq!]. *)
Definition assert_eq {A} `{EqDecision A} (a b : A) : bool := bool_decide (a = b).

(** [msg.contains(needle)], for a needle in the fixed text of the message. *)
Definition msg_contains (needle : string) (m : Message) : bool :=
  match m with Fmt text _ => match String.index 0 needle text with Some _ => true | None => false end end.

(** ** src/dgram.rs *)

(** The bytes 0 and 1, then the letters a to f. *)
Definition small_query : list u8 :=
  [Byte.x00; Byte.x01; Byte.x61; Byte.x62; Byte.x63; Byte.x64; Byte.x65; Byte.x66].

Definition frame_query_round_trips_small_payload : bool :=
  let q := small_query in
  match frame_tcp_dns_query q with
  | Ok framed =>
      assert_eq (len framed) (2 + len q) && assert_eq (take 2 framed) (to_be_bytes (as_u16 (len q)))
      && assert_eq (drop 2 framed) q
  | Err _ => false
  end.

Definition frame_query_accepts_max_u16 : bool :=
  let q := replicate (Z.to_nat U16_MAX) Byte.xaa in
  match frame_tcp_dns_query q with
  | Ok framed => assert_eq (take 2 framed) [Byte.xff; Byte.xff] && assert_eq (len framed) (2 + U16_MAX)
  | Err _ => false
  end.

Definition frame_query_rejects_oversize : bool :=
  match frame_tcp_dns_query (replicate (Z.to_nat (U16_MAX + 1)) Byte.x00) with
  | Err (Api msg code) => assert_eq code (-1) && msg_contains "too large" msg
  | _ => false
  end.

Definition decode_len_rejects_zero : bool :=
  match decode_tcp_dns_len Byte.x00 Byte.x00 with
  | Err (Api msg code) => assert_eq code (-1) && msg_contains "zero-length" msg
  | _ => false
  end.

(** [decode_tcp_dns_len([hi, lo]).unwrap() == n]. *)
Definition decodes_to (hi lo : u8) (n : Z) : bool :=
  match decode_tcp_dns_len hi lo with Ok m => assert_eq m n | Err _ => false end.

Definition decode_len_accepts_one : bool := decodes_to Byte.x00 Byte.x01 1.
Definition decode_len_accepts_max : bool := decodes_to Byte.xff Byte.xff 65535.
Definition decode_len_is_big_endian : bool := decodes_to Byte.x01 Byte.x00 256.

(** ** src/error.rs *)

Definition from_rc_classifies_retryable_vs_terminal (retval_str : Z -> option string) : bool :=
  forallb (fun rc => match from_rc_with retval_str rc with WouldBlock => true | _ => false end)
    [- EWOULDBLOCK; - EAGAIN; - EINPROGRESS] &&
  match from_rc_with retval_str (- ENOTCONN) with NotConnected => true | _ => false end &&
  forallb (fun rc => match from_rc_with retval_str rc with Closed => true | _ => false end)
    [- ECONNRESET; - EPIPE].

(** ** src/session.rs *)

Definition roundtrip (e : Endian) (addr : SocketAddr) (want_is_ip4 : Z) : bool :=
  let '(ep, ip_buf) := endpoint_into_buf_at e addr zero_ip_buf in
  assert_eq (ep_is_ip4 ep) want_is_ip4 && assert_eq (ep_port ep) (to_be e (Sock.port addr)) &&
  assert_eq (addr_from_endpoint_at e ep ip_buf) addr.

(** [roundtrip(text.parse().unwrap(), want)]. *)
Definition roundtrip_text (e : Endian) (text : string) (want_is_ip4 : Z) : bool :=
  match parse_socket_addr text with Some addr => roundtrip e addr want_is_ip4 | None => false end.

Definition endpoint_roundtrips_v4_and_v6 (e : Endian) : bool :=
  roundtrip_text e "192.0.2.7:179" 1 && roundtrip_text e "[2001:db8::1]:53" 0 &&
  roundtrip_text e "203.0.113.9:65000" 1.

(** ** They pass *)

(** Every unit test of the crate passes on the modelled functions, on either
    byte order and whatever texts libvppcom has for its return codes. *)
Theorem unit_tests_pass e retval_str :
  forallb id
    [frame_query_round_trips_small_payload; frame_query_accepts_max_u16; frame_query_rejects_oversize;
     decode_len_rejects_zero; decode_len_accepts_one; decode_len_accepts_max; decode_len_is_big_endian;
     from_rc_classifies_retryable_vs_terminal retval_str; endpoint_roundtrips_v4_and_v6 e] = true.
Proof. destruct e; vm_compute; reflexivity. Qed.

(** The round-trip helper passes for every well-formed address without a
    flow label or scope, not only for the three the test names. *)
Theorem roundtrip_always_passes e a :
  wf_addr a -> roundtrip e (without_scope a) (if Sock.is_ipv4 a then 1 else 0) = true.
Proof.
  intros [Hip Hp]. unfold roundtrip, endpoint_into_buf_at, addr_from_endpoint_at, without_scope.
  destruct a as [o p|o p fl sc]; simpl in *; rewrite from_be_to_be by done;
    rewrite !andb_true_iff; unfold assert_eq; rewrite !bool_decide_eq_true; (split; [done|]); f_equal.
  - assert (length zero_ip_buf = 16%nat) by done. rewrite take_fill by lia. by rewrite take_ge by lia.
  - by apply fill_all.
Qed.
