(* ===== verification/Witnesses.v ===== *)
(** * Concrete runs

    Each theorem of the development that assumes something of its
    environment, its arguments or its starting world is applied here to a
    concrete run of the modelled code: the environments below satisfy the
    assumptions, and the runs evaluate to the results shown. *)

From S2P Require Import Prelude Net Errors Ffi World Sim Session App Prewarm Reactor Replay Ownership Stream Channel Scheduler Dgram Mailbox Listener Echo Framing Query Agreement Deadline Typing.

(** ** A network that answers

    Sessions get handle 3 and epoll sets handle 4; a two-byte read delivers
    the length prefix 2, any other read as many stars as were asked for; writes
    are accepted whole; datagrams come from 127.0.0.1; the clock advances a
    millisecond per call; waits are notified at once. *)

Definition star : u8 := Byte.x2a.

Definition local_ep : vppcom_endpt_t :=
  mkEndpt 0 1 (Some ([Byte.x7f; Byte.x00; Byte.x00; Byte.x01] ++ replicate 12 Byte.x00)) 13568 0 0 None.

Definition lively : script := fun n c =>
  match c with
  | vppcom_session_create _ _ => 3
  | vppcom_epoll_create => 4
  | vppcom_session_read _ _ k => if k =? 2 then (2, [Byte.x00; Byte.x02]) else (k, replicate (Z.to_nat k) star)
  | vppcom_session_write _ _ k => k
  | vppcom_session_recvfrom _ _ k _ _ => (Z.min 3 k, replicate (Z.to_nat (Z.min 3 k)) star, local_ep)
  | vppcom_epoll_wait _ _ m _ => (Z.min 0 m, [])
  | instant_now => millis (Z.of_nat n)
  | poll_notified _ => true
  | c => default_ret c
  end.

Definition lively_env : Env := scripted lively.
Definition lively_world : @World lively_env := fresh_world lively 1.

Lemma len_replicate_max {A} (k : Z) (x : A) : len (replicate (Z.to_nat k) x) = Z.max 0 k.
Proof. unfold len. rewrite length_replicate. lia. Qed.

#[global] Instance lively_prompt : @EnvSat lively_env prompt_ok.
Proof.
  intros c t n. destruct c; try exact I; simpl.
  - destruct (_ =? 2) eqn:Hk; bool_to_prop; simpl; [subst; vm_compute; by repeat split|].
    rewrite len_replicate_max. lia.
  - lia.
Qed.

#[global] Instance lively_io : @EnvSat lively_env io_ok.
Proof. exact (@prompt_io_ok lively_env lively_prompt). Qed.

#[global] Instance lively_recv : @EnvSat lively_env recv_ok.
Proof.
  intros c t n. destruct c; try exact I. simpl. rewrite len_replicate_max. lia.
Qed.

#[global] Instance lively_rand : @EnvSat lively_env rand_ok.
Proof. intros c t n. destruct c; try exact I. simpl. lia. Qed.

#[global] Instance lively_epoll : @EnvSat lively_env epoll_ok.
Proof. intros c t n. destruct c; try exact I. simpl. lia. Qed.

Definition loopback : SocketAddr := SockV4 [Byte.x7f; Byte.x00; Byte.x00; Byte.x01] 53.

Definition stream3 : VclStream := mkStream 3 None None.

(** ** Streams *)

Lemma read_delivers_witness :
  let r := @stream_read lively_env 5 stream3 (replicate 4 Byte.x00) lively_world in
  fst r = Done (Ok 4, replicate 4 star) /\
  exists l, w_log (snd r) = l /\ read_post 3 (replicate 4 Byte.x00) (fst r) l.
Proof.
  split; [vm_compute; reflexivity|].
  destruct (@read_delivers lively_env _ 1 5 stream3 (replicate 4 Byte.x00) lively_world eq_refl)
    as (_ & l & Hl & Hq). exists l. split; [exact Hl|exact Hq].
Defined.

Lemma read_exact_fills_witness :
  let r := @read_exact lively_env 5 stream3 (replicate 3 Byte.x00) lively_world in
  fst r = Done (Ok tt, replicate 3 star) /\
  exists l, w_log (snd r) = l /\ read_exact_post 3 (replicate 3 Byte.x00) (fst r) l.
Proof.
  split; [vm_compute; reflexivity|].
  destruct (@read_exact_fills lively_env _ 1 5 stream3 (replicate 3 Byte.x00) lively_world eq_refl)
    as (_ & l & Hl & Hq). exists l. split; [exact Hl|exact Hq].
Defined.

Lemma write_all_writes_once_witness :
  let r := @write_all lively_env 5 stream3 [star; star] lively_world in
  fst r = Done (Ok tt) /\ exists l, w_log (snd r) = l /\ write_all_post 3 [star; star] (fst r) l.
Proof.
  split; [vm_compute; reflexivity|].
  destruct (@write_all_writes_once lively_env _ 1 5 stream3 [star; star] lively_world eq_refl)
    as (_ & l & Hl & Hq). exists l. split; [exact Hl|exact Hq].
Defined.

Lemma exact_io_terminates_witness :
  (let r := @read_exact lively_env 4 stream3 (replicate 3 Byte.x00) lively_world in
   exists l buf', w_log (snd r) = l /\ fst r = Done (Ok tt, buf') /\ buf' = received 3 l) /\
  (let r := @write_all lively_env 4 stream3 (replicate 3 Byte.x00) lively_world in
   exists l, w_log (snd r) = l /\ fst r = Done (Ok tt) /\ written 3 l = replicate 3 Byte.x00).
Proof.
  destruct (@exact_io_terminates lively_env _ 1 4 stream3 (replicate 3 Byte.x00) ltac:(simpl; lia)) as [Hr Hw].
  split.
  - destruct (Hr lively_world eq_refl) as (_ & l & Hl & buf' & Ho & _ & Hb).
    exists l, buf'. split; [exact Hl|]. split; [exact Ho|exact Hb].
  - destruct (Hw lively_world eq_refl) as (_ & l & Hl & Ho & Hb).
    exists l. split; [exact Hl|]. split; [exact Ho|exact Hb].
Defined.

(** A read resumed from a stored wait, into the second half of a buffer. *)
Lemma poll_read_contract_witness :
  let s := mkStream 3 (Some (WfStart 3 (secs 300))) None in
  let b := mkReadBuf [Byte.x41] (replicate 3 Byte.x00) in
  let r := @poll_read lively_env 5 s b lively_world in
  fst r = Done (Ready (Ok tt), stream3, mkReadBuf (Byte.x41 :: replicate 3 star) []) /\
  exists l, w_log (snd r) = l /\ poll_read_post s b (fst r) l.
Proof.
  split; [vm_compute; reflexivity|].
  destruct (@poll_read_contract lively_env _ 1 5 (mkStream 3 (Some (WfStart 3 (secs 300))) None)
    (mkReadBuf [Byte.x41] (replicate 3 Byte.x00)) lively_world eq_refl) as (_ & l & Hl & Hq).
  exists l. split; [exact Hl|exact Hq].
Defined.

Lemma poll_write_contract_witness :
  let s := mkStream 3 None (Some (WfStart 3 (secs 300))) in
  let r := @poll_write lively_env 5 s [star] lively_world in
  fst r = Done (Ready (Ok 1), stream3) /\
  exists l, w_log (snd r) = l /\ poll_write_post s [star] (fst r) l.
Proof.
  split; [vm_compute; reflexivity|].
  destruct (@poll_write_contract lively_env _ 1 5 (mkStream 3 None (Some (WfStart 3 (secs 300)))) [star]
    lively_world eq_refl) as (_ & l & Hl & Hq).
  exists l. split; [exact Hl|exact Hq].
Defined.

(** ** Datagrams and queries *)

Lemma recv_from_one_witness :
  let r := @recv_from lively_env 5 (mkDgram 3) (replicate 4 Byte.x00) lively_world in
  fst r = Done (Ok (3, loopback), [star; star; star; Byte.x00]) /\
  exists l, w_log (snd r) = l /\ @recv_post lively_env 3 (replicate 4 Byte.x00) (fst r) l.
Proof.
  split; [vm_compute; reflexivity|].
  destruct (@recv_from_one lively_env _ 1 5 (mkDgram 3) (replicate 4 Byte.x00) lively_world eq_refl)
    as (_ & l & Hl & Hq). exists l. split; [exact Hl|exact Hq].
Defined.

(** Two datagrams echoed, then the run is cut off. *)
Lemma echo_replies_witness :
  let r := @echo_loop lively_env 2 (mkDgram 3) lively_world in
  fst r = OutOfFuel /\ map fst (sent 3 (w_log (snd r))) = [[star; star; star]; [star; star; star]] /\
  exists l, w_log (snd r) = l /\ @echoed lively_env 3 l.
Proof.
  split; [vm_compute; reflexivity|]. split; [vm_compute; reflexivity|].
  destruct (@echo_replies lively_env _ 1 2 (mkDgram 3) lively_world eq_refl) as (_ & l & Hl & Hq).
  exists l. split; [exact Hl|exact Hq].
Defined.

(** The script of a bind that VPP confirms at the first port drawn. *)
Definition confirming : script := fun n c =>
  match c with
  | vppcom_session_attr_get _ _ ep _ => (0, mkEndpt 0 1 (ep_ip ep) 128 0 0 None)
  | instant_now => millis (Z.of_nat n * 100)
  | c => lively n c
  end.

#[global] Instance confirming_rand : @EnvSat (scripted confirming) rand_ok.
Proof. intros c t n. destruct c; try exact I. simpl. lia. Qed.

Lemma ephemeral_v4_ports_witness :
  let r := @bind_ephemeral_v4 (scripted confirming) 10 (fresh_world confirming 1) in
  fst r = Done (Ok (mkDgram 3)) /\ draws (w_log (snd r)) = [LOW] /\
  exists l, w_log (snd r) = l /\ @ephemeral_post (scripted confirming) 8 (fst r) l.
Proof.
  split; [vm_compute; reflexivity|]. split; [vm_compute; reflexivity|].
  destruct (@ephemeral_v4_ports (scripted confirming) _ 1 10 (fresh_world confirming 1) eq_refl)
    as (_ & l & Hl & Hq). exists l. split; [exact Hl|exact Hq].
Defined.

Lemma tcp_sync_answer_witness :
  let r := @query_tcp_dns_sync lively_env 9 loopback None [star] (secs 5) lively_world in
  fst r = Done (Ok [Byte.x00; Byte.x02]) /\
  exists l, w_log (snd r) = l /\ @answered lively_env 1 loopback [star] (fst r) l.
Proof.
  split; [vm_compute; reflexivity|].
  destruct (@tcp_sync_answer lively_env 1 _ 9 loopback None [star] (secs 5) lively_world eq_refl)
    as (_ & l & Hl & Hq). exists l. split; [exact Hl|exact Hq].
Defined.

Lemma tcp_async_answer_witness :
  let r := @query_tcp_dns_async lively_env 9 loopback (Some IPV4_UNSPECIFIED) [star] (secs 5) lively_world in
  fst r = Done (Ok [Byte.x00; Byte.x02]) /\
  exists l, w_log (snd r) = l /\ @answered lively_env 1 loopback [star] (fst r) l.
Proof.
  split; [vm_compute; reflexivity|].
  destruct (@tcp_async_answer lively_env 1 _ 9 loopback (Some IPV4_UNSPECIFIED) [star] (secs 5)
    lively_world eq_refl) as (_ & l & Hl & Hq). exists l. split; [exact Hl|exact Hq].
Defined.

Lemma udp_sync_query_peer_witness :
  let r := @udp_sync_query lively_env 5 (mkUdpSync 3) loopback [Byte.x41] (secs 1) lively_world in
  fst r = Done (Ok ([star; star; star], loopback)) /\
  exists l, w_log (snd r) = l /\
    sent 3 l = [([Byte.x41], fst (@SessionHandle.endpoint_into_buf lively_env loopback zero_ip_buf))].
Proof.
  split; [vm_compute; reflexivity|].
  destruct (@udp_sync_query_peer lively_env _ 1 5 (mkUdpSync 3) loopback [Byte.x41] (secs 1) lively_world eq_refl)
    as (_ & l & Hl & Hq). exists l. split; [exact Hl|].
  assert (fst (@udp_sync_query lively_env 5 (mkUdpSync 3) loopback [Byte.x41] (secs 1) lively_world)
    = Done (Ok ([star; star; star], loopback))) as Hr by (vm_compute; reflexivity).
  rewrite Hr in Hq. exact (proj1 Hq).
Defined.

Lemma udp_query_answer_witness :
  let r := @query_udp_sync lively_env 5 loopback None [Byte.x41] (secs 1) lively_world in
  fst r = Done (Ok ([star; star; star], loopback)) /\
  exists l, w_log (snd r) = l /\ @udp_answered lively_env loopback [Byte.x41] (secs 1) (fst r) l.
Proof.
  split; [vm_compute; reflexivity|].
  destruct (@udp_query_answer lively_env _ 1 5 loopback None [Byte.x41] (secs 1) lively_world eq_refl)
    as (_ & l & Hl & Hq). exists l. split; [exact Hl|exact Hq].
Defined.

(** An environment whose state is the time, in which nothing ever arrives and
    polling an epoll set takes a millisecond. *)
Definition clock_env : Env := {|
  ext := Z;
  env_step := fun c _ x =>
    match c return ret c * Z with
    | instant_now => (x, x)
    | thread_sleep n => (tt, x + Z.max 0 n)
    | vppcom_epoll_wait _ _ _ _ => ((0, []), x + millis 1)
    | vppcom_session_recvfrom _ _ _ _ ep => ((- EAGAIN, [], ep), x)
    | vppcom_session_read _ _ _ => ((- EAGAIN, []), x)
    | vppcom_session_write _ _ k => (k, x)
    | c => (default_ret c, x)
    end;
  retval_str := fun _ => None;
  endian := Little
|}.

#[global] Instance clock_env_clock : @SleepingClock clock_env (fun x => x).
Proof. split; [done| |]; intros; [destruct c; simpl; unfold millis; lia|simpl; lia]. Qed.

#[global] Instance clock_env_polls : @PollTakesTime clock_env (fun x => x) (millis 1).
Proof. split; [unfold millis; lia|]. intros. simpl. lia. Qed.

#[global] Instance clock_env_writes : @EnvSat clock_env write_moves_ok.
Proof. intros c t x. destruct c; try exact I. simpl. lia. Qed.

Definition clock_world : @World clock_env := @mkWorld clock_env 0 false ∅ 1 (mkReactor 100 ∅) [].

Lemma udp_query_terminates_witness :
  let r := @query_udp_sync clock_env 5 loopback None [star] (millis 12) clock_world in
  fst r <> OutOfFuel /\ fst r = Done (Err Timeout) /\ clocks (w_log (snd r)) = millis <$> [0; 0; 5; 10; 15].
Proof.
  split; [|vm_compute; split; reflexivity].
  apply (@udp_query_terminates clock_env (fun x => x) _ 5 loopback None [star] (millis 12)).
  vm_compute. lia.
Defined.

Lemma tcp_sync_query_terminates_witness :
  let r := @query_tcp_dns_sync clock_env (Z.to_nat 70000) loopback None [star] (millis 3) clock_world in
  fst r <> OutOfFuel /\ fst r = Done (Err Timeout) /\ clocks (w_log (snd r)) = millis <$> [0; 0; 0; 0; 1; 2; 3].
Proof.
  split; [|vm_compute; split; reflexivity].
  apply (@tcp_sync_query_terminates clock_env (fun x => x) _ (millis 1) _ _ (Z.to_nat 70000) loopback None [star] (millis 3)).
  vm_compute. reflexivity.
Defined.

Lemma verified_binds_terminate_witness :
  fst (@dgram_bind clock_env 210 loopback clock_world) <> OutOfFuel /\
  fst (@listener_bind clock_env 210 loopback clock_world) <> OutOfFuel.
Proof.
  destruct (@verified_binds_terminate clock_env (fun x => x) _ (millis 1) _ 210 loopback) as [Hd Hl].
  - vm_compute. reflexivity.
  - split; [apply Hd|apply Hl].
Defined.

(** ** Application and worker threads *)

(** Initialise, fail to initialise again, drop, initialise. *)
Definition app_w1 : @World lively_env := snd (app_init "a" lively_world).
Definition app_w2 : @World lively_env := snd (app_init "x" app_w1).
Definition app_w3 : @World lively_env := snd (app_drop app_w2).
Definition app_w4 : @World lively_env := snd (app_init "b" app_w3).

Lemma app_session : app_run lively_world 1 app_w4.
Proof.
  apply (run_init lively_world 0 app_w3 "b" (Ok tt)); [|vm_compute; reflexivity].
  apply (run_drop lively_world 0 app_w2); [|vm_compute; reflexivity].
  apply (run_init lively_world 1 app_w1 "x" (Err (Api (Lit "VCL already initialized") (-1))));
    [|vm_compute; reflexivity].
  apply (run_init lively_world 0 lively_world "a" (Ok tt)); [constructor|vm_compute; reflexivity].
Qed.

Lemma app_at_most_one_witness : (1 <= 1)%nat /\ (1%nat = 1%nat -> w_initialized app_w4 = true).
Proof. exact (@app_at_most_one lively_env lively_world 1 app_w4 eq_refl app_session). Defined.

Lemma register_idempotent_witness :
  let w' := snd (@register_worker_thread lively_env lively_world) in
  w_registered w' = {[1]} /\ @register_worker_thread lively_env w' = (Done tt, w').
Proof.
  split; [vm_compute; reflexivity|].
  destruct (@register_idempotent lively_env lively_world (Done tt)
    (snd (@register_worker_thread lively_env lively_world)) eq_refl) as [Hid _].
  { vm_compute. reflexivity. }
  exact Hid.
Defined.

(** *** Two tasks on the threads 11 and 12 of a pool of three *)

Definition pool3 : list Z := [10; 11; 12].
Definition prewarm_w1 : @World lively_env := snd (on_thread 11 register_worker_thread lively_world).
Definition prewarm_w2 : @World lively_env := snd (on_thread 12 register_worker_thread prewarm_w1).
Definition prewarm_w3 : @World lively_env :=
  snd (do_call (tracing Info (Fmt "VCL workers pre-warmed" [AInt 2])) prewarm_w2).

(** The first task starts before the second is spawned. *)
Lemma prewarm_run pool : 11 ∈ pool -> 12 ∈ pool ->
  rtc (@step lively_env pool false 2) (prewarm_start 2 lively_world)
    (Returned (Ok tt), [Finished 11; Finished 12], mkBarrier 0 1, prewarm_w3).
Proof.
  intros H11 H12.
  eapply rtc_l; [apply step_spawn; simpl; lia|].
  eapply rtc_l; [apply (step_start pool false 2 Spawning [] [] 11); set_solver|].
  eapply rtc_l; [apply step_spawn; simpl; lia|].
  eapply rtc_l; [by apply step_spawned|].
  eapply rtc_l; [apply (step_start pool false 2 (Joining 0) [Running 11] [] 12); set_solver|].
  eapply rtc_l; [apply (step_register pool false 2 _ [] [Running 12] 11 _ _ (Done tt) prewarm_w1); vm_compute; reflexivity|].
  eapply rtc_l; [apply (step_arrive pool false 2 _ [] [Running 12] 11)|].
  eapply rtc_l; [apply (step_register pool false 2 _ [Waiting 11 0] [] 12 _ _ (Done tt) prewarm_w2); vm_compute; reflexivity|].
  eapply rtc_l; [apply (step_arrive pool false 2 _ [Waiting 11 0] [] 12)|].
  eapply rtc_l; [by apply (step_leave pool false 2 _ [] [Waiting 12 0] 11 0)|].
  eapply rtc_l; [by eapply (step_join pool false 2 0)|].
  eapply rtc_l; [by apply (step_leave pool false 2 _ [Finished 11] [] 12 0)|].
  eapply rtc_l; [by eapply (step_join pool false 2 1)|].
  apply rtc_once, step_return. vm_compute. reflexivity.
Qed.

(** A runtime that shuts down before the task ran. *)
Lemma prewarm_cancelled_run :
  rtc (@step lively_env pool3 true 1) (prewarm_start 1 lively_world)
    (Returned (Err (join_error "task was cancelled")), [Aborted "task was cancelled"], Barrier_new, lively_world).
Proof.
  eapply rtc_l; [apply step_spawn; simpl; lia|].
  eapply rtc_l; [apply (step_abort pool3 true 1 Spawning [] [] "task was cancelled"); done|].
  eapply rtc_l; [by apply step_spawned|]. by apply rtc_once, step_join_err.
Qed.

Lemma prewarm_outcome_witness :
  (NoDup [11; 12] /\ length (threads [Finished 11; Finished 12]) = 2%nat /\
   forall t, t ∈ [11; 12] -> t ∈ pool3 /\ registered_or_refused prewarm_w3 t) /\
  true = true /\ exists msg, [Aborted "task was cancelled"] !! 0%nat = Some (Aborted msg) /\
    join_error "task was cancelled" = join_error msg.
Proof.
  split.
  - exact (@prewarm_outcome lively_env pool3 false 2 lively_world (Ok tt) [Finished 11; Finished 12] (mkBarrier 0 1) prewarm_w3
      (prewarm_run pool3 ltac:(set_solver) ltac:(set_solver))).
  - exact (@prewarm_outcome lively_env pool3 true 1 lively_world (Err (join_error "task was cancelled"))
      [Aborted "task was cancelled"] Barrier_new lively_world prewarm_cancelled_run).
Defined.

Lemma prewarm_terminates_witness :
  (exists s, @step lively_env pool3 false 2 (prewarm_start 2 lively_world) s) /\
  (measure 2 (@prewarm_start lively_env 2 lively_world) <= 14)%nat.
Proof.
  destruct (@prewarm_terminates lively_env pool3 false 2 lively_world (prewarm_start 2 lively_world))
    as ([Hj|Hs] & _ & Hm).
  - reflexivity.
  - vm_compute. repeat constructor; set_solver.
  - vm_compute. lia.
  - apply rtc_refl.
  - vm_compute in Hj. discriminate Hj.
  - split; [exact Hs|exact Hm].
Defined.

(** ** The reactor *)

(** An epoll set as a queue of events, with the permits of the notifies. *)
Record QueueState : Set := mkQueue { q_events : list epoll_event; q_permits : list nat }.

Definition queue_env : Env := {|
  ext := QueueState;
  env_step := fun c _ x =>
    match c return ret c * QueueState with
    | vppcom_epoll_wait _ _ m _ =>
        let evs := take (Z.to_nat m) (q_events x) in
        ((len evs, evs), mkQueue (drop (Z.to_nat m) (q_events x)) (q_permits x))
    | notify_one n => (tt, mkQueue (q_events x) (n :: q_permits x))
    | poll_notified n =>
        (bool_decide (n ∈ q_permits x), mkQueue (q_events x) (filter (fun k => k <> n) (q_permits x)))
    | c => (default_ret c, x)
    end;
  retval_str := fun _ => None;
  endian := Little
|}.

#[global] Instance queue_env_queue : @EpollQueue queue_env q_events.
Proof.
  split.
  - intros v es m t x n evs x' He. cbn in He. injection He as <- <- <-. done.
  - intros k t x r x' He. cbn in He. by injection He as _ <-.
Qed.

(** Seventy events pending, more than one batch. *)
Definition queue_world (n : nat) : @World queue_env :=
  @mkWorld queue_env (mkQueue (replicate n (mkEvent EPOLLIN 3)) []) false ∅ 1 (mkReactor 100 {[3 := 7%nat]}) [].

Lemma drain_empties_queue_witness :
  exists w' l, @drain_events_with_inner queue_env 2 (queue_world 70) = (Done tt, w') /\
    w_log w' = l /\ delivered l = replicate 70 (mkEvent EPOLLIN 3) /\ q_events (w_ext w') = [].
Proof.
  apply (@drain_empties_queue queue_env q_events _ 2 (queue_world 70)). vm_compute. lia.
Defined.

(** One event for a session with a waiter, one for a session without. *)
Definition two_events : script := fun n c =>
  match c with
  | vppcom_epoll_wait _ _ m _ =>
      if (m =? 64) && Nat.eqb n 0 then (2, [mkEvent EPOLLIN 3; mkEvent EPOLLOUT 9]) else (Z.min 0 m, [])
  | c => lively n c
  end.

#[global] Instance two_events_epoll : @EnvSat (scripted two_events) epoll_ok.
Proof.
  intros c t n. destruct c; try exact I. simpl.
  destruct (_ =? 64) eqn:Hm; simpl; bool_to_prop; [|lia]. destruct n; simpl; [unfold len; simpl; lia|lia].
Qed.

Definition two_events_world : @World (scripted two_events) :=
  @mkWorld (scripted two_events) 0%nat false ∅ 1 (mkReactor 100 {[3 := 7%nat; 4 := 8%nat]}) [].

Lemma drain_wakes_reported_witness :
  let r := @drain_events_with_inner (scripted two_events) 3 two_events_world in
  notified (w_log (snd r)) = [7%nat] /\
  exists l, w_log (snd r) = l /\ notified l = waiters_of {[3 := 7%nat; 4 := 8%nat]} (delivered l).
Proof.
  split; [vm_compute; reflexivity|].
  destruct (@drain_wakes_reported (scripted two_events) _ 3 two_events_world _ _ (surjective_pairing _))
    as (_ & _ & l & Hl & _ & Hn). exists l. split; [exact Hl|exact Hn].
Defined.

(** An environment in which the epoll set is always empty: draining takes
    one round. *)
Definition idle_env : Env := {|
  ext := list nat;
  env_step := fun c _ x =>
    match c return ret c * list nat with
    | notify_one n => (tt, n :: x)
    | poll_notified n => (bool_decide (n ∈ x), filter (fun k => k <> n) x)
    | instant_now => (secs 10, x)
    | c => (default_ret c, x)
    end;
  retval_str := fun _ => None;
  endian := Little
|}.

Definition idle_world : @World idle_env :=
  @mkWorld idle_env [] false ∅ 1 (mkReactor 100 {[3 := 7%nat]}) [].

Lemma idle_drains (fuel : nat) (w : @World idle_env) :
  (0 < fuel)%nat -> exists w', @drain_events_with_inner idle_env fuel w = (Done tt, w').
Proof. intros Hf. destruct fuel as [|fuel]; [lia|]. eexists. reflexivity. Qed.

#[global] Instance idle_permits : @NotifyPermits idle_env (fun x n => bool_decide (n ∈ x)).
Proof.
  split.
  - intros n t x r x' He. cbn in He. injection He as _ <-. apply bool_decide_eq_true. set_solver.
  - intros n t x b x' He. cbn in He. by injection He as <- _.
  - intros c t x r x' n He Hs Hp Hx. apply bool_decide_eq_true in Hx. apply bool_decide_eq_true.
    destruct c; cbn in He; injection He as _ <-; try exact Hx.
    + set_solver.
    + apply list_elem_of_filter. split; [congruence|exact Hx].
  - intros t x. cbn. set_solver.
Qed.

Lemma tick_unparks_waiters_witness :
  let w' := snd (@drainer_round idle_env 2 "vcl" (0, 0) idle_world) in
  exists r fut w'', @poll_wait idle_env 2 (WfSelect 7 (secs 99)) w' = (Done (Ready r, fut), w'').
Proof.
  apply (@tick_unparks_waiters idle_env (fun x n => bool_decide (n ∈ x)) _ 2 "vcl" (0, 0) idle_world
    (0, secs 10) (snd (@drainer_round idle_env 2 "vcl" (0, 0) idle_world)) 3 7%nat (secs 99)).
  - lia.
  - intros w. apply idle_drains. lia.
  - vm_compute. reflexivity.
  - vm_compute. reflexivity.
Defined.

(** ** A byte channel

    Session 3 carries the bytes [ch_in] to the caller, at most three at a
    time, and accepts at most two a write; the next [ch_stalls] reads or
    writes would block first.  Everything else succeeds, and the clock stands
    still. *)

Record ChannelState : Set := mkChannel { ch_in : list u8; ch_out : list u8; ch_stalls : nat }.

(** The longest read the channel serves. *)
Definition chunk (n : Z) : nat := Nat.min 3 (Z.to_nat n).
#[global] Arguments chunk : simpl never.

Definition channel_read (h n : Z) (x : ChannelState) : Z * list u8 * ChannelState :=
  if (h =? 3) && (0 <? n) then
    match ch_stalls x with
    | S k => (-11, [], mkChannel (ch_in x) (ch_out x) k)
    | O =>
        let data := take (chunk n) (ch_in x) in
        (len data, data, mkChannel (drop (chunk n) (ch_in x)) (ch_out x) 0)
    end
  else (Z.min 0 n, [], x).

Definition channel_write (h : Z) (buf : list u8) (n : Z) (x : ChannelState) : Z * ChannelState :=
  if (h =? 3) && (0 <? n) then
    match ch_stalls x with
    | S k => (-11, mkChannel (ch_in x) (ch_out x) k)
    | O =>
        let data := take (Nat.min 2 (Z.to_nat n)) buf in
        (len data, mkChannel (ch_in x) (ch_out x ++ data) 0)
    end
  else (Z.min 0 n, x).

Definition channel_env : Env := {|
  ext := ChannelState;
  env_step := fun c _ x =>
    match c return ret c * ChannelState with
    | vppcom_session_read h _ n => channel_read h n x
    | vppcom_session_write h buf n => channel_write h buf n x
    | vppcom_session_create _ _ => (3, x)
    | vppcom_epoll_create => (4, x)
    | poll_notified _ => (true, x)
    | c => (default_ret c, x)
    end;
  retval_str := fun _ => None;
  endian := Little
|}.

Definition channel_world (x : ChannelState) : @World channel_env :=
  @mkWorld channel_env x false ∅ 1 (mkReactor 100 ∅) [].

Lemma take_take_length {A} n (l : list A) : take (length (take n l)) l = take n l.
Proof. by rewrite length_take, <- take_take, firstn_all. Qed.

#[global] Instance channel_io : @EnvSat channel_env io_ok.
Proof.
  intros c t x. destruct c; try exact I; simpl.
  - unfold channel_read. destruct (_ && _) eqn:Hc; bool_to_prop; [|unfold len; simpl; lia].
    destruct (ch_stalls x); cbn [fst snd]; unfold len, chunk; rewrite ?length_take; cbn [length]; lia.
  - unfold channel_write. destruct (_ && _) eqn:Hc; bool_to_prop; [|cbn [fst]; lia].
    destruct (ch_stalls x); cbn [fst snd]; unfold len; rewrite ?length_take; lia.
Qed.

#[global] Instance channel_bytes : @ByteChannel channel_env 3 ch_in ch_out.
Proof.
  intros c t x r x' He. destruct c; cbn in He; try (injection He as _ <-; by rewrite app_nil_r).
  - destruct r as [rc data]. simpl. rewrite app_nil_r. unfold channel_read in He.
    destruct (h =? 3); cbn [andb] in *; [|by injection He as _ _ <-].
    destruct (0 <? n) eqn:Hn; bool_to_prop.
    2:{ injection He as <- <- <-. rewrite take_nil. by destruct (0 <=? Z.min 0 n). }
    destruct (ch_stalls x); injection He as <- <- <-; cbn [ch_in ch_out]; [|done].
    rewrite (proj2 (Z.leb_le _ _)) by apply len_nonneg. unfold len.
    rewrite Nat2Z.id, firstn_all, take_drop. done.
  - cbn [received_by written_by]. unfold channel_write in He.
    destruct (h =? 3); cbn [andb] in *; [|injection He as _ <-; by rewrite app_nil_r].
    destruct (0 <? n) eqn:Hn; bool_to_prop.
    2:{ injection He as <- <-. split; [done|]. destruct (0 <=? Z.min 0 n) eqn:H0; bool_to_prop; [|by rewrite app_nil_r].
        replace (Z.to_nat (Z.min 0 n)) with 0%nat by lia. by rewrite app_nil_r. }
    destruct (ch_stalls x); injection He as <- <-; cbn [ch_in ch_out]; [|by rewrite app_nil_r].
    rewrite (proj2 (Z.leb_le _ _)) by apply len_nonneg. unfold len.
    by rewrite Nat2Z.id, take_take_length.
Qed.

#[global] Instance channel_lively : @LivelyChannel channel_env 3 ch_in ch_out ch_stalls.
Proof.
  split; [apply _|..].
  - intros t buf n x rc data x' He Hn. cbn in He. unfold channel_read in He.
    rewrite (proj2 (Z.ltb_lt _ _)) in He by done. cbn [Z.eqb Pos.eqb andb] in He.
    destruct (ch_stalls x) as [|k] eqn:Hs; injection He as <- <- <-; [right|left; simpl; split_and!; (done || lia)].
    destruct (ch_in x) as [|b l]; [left; by rewrite take_nil|right].
    unfold len, chunk. rewrite length_take. cbn [length]. lia.
  - intros t buf n x rc x' He Hn. cbn in He. unfold channel_write in He.
    rewrite (proj2 (Z.ltb_lt _ _)) in He by lia. cbn [Z.eqb Pos.eqb andb] in He.
    destruct (ch_stalls x) as [|k] eqn:Hs; injection He as <- <-; [right|left; simpl; split_and!; (done || lia)].
    unfold len in *. rewrite length_take. destruct (Z.to_nat n) eqn:Hz; lia.
  - intros c t x r x' He. destruct c; cbn in He; try (injection He as _ <-; lia).
    + unfold channel_read in He. destruct (_ && _); [|injection He as _ <-; lia].
      destruct (ch_stalls x) eqn:Hs; injection He as _ <-; simpl; lia.
    + unfold channel_write in He. destruct (_ && _); [|injection He as _ <-; lia].
      destruct (ch_stalls x) eqn:Hs; injection He as _ <-; simpl; lia.
Qed.

#[global] Instance channel_smooth : @EnvSat channel_env (@smooth_ok channel_env 3 0 (secs 5)).
Proof.
  intros c t x. destruct c; cbn; try exact I; try lia; try reflexivity.
  - split; [lia|reflexivity].
  - unfold secs. lia.
  - set_solver.
Qed.

(** A peer that answers "hello", its stream cut after three bytes, with two
    stalls on the way. *)
Definition hello : list u8 := [Byte.x00; Byte.x05; Byte.x68; Byte.x65; Byte.x6c; Byte.x6c; Byte.x6f].

Lemma tcp_queries_agree_witness :
  let w := channel_world (mkChannel (hello ++ [star]) [] 2) in
  (exists w', @query_tcp_dns_async channel_env 12 loopback (Some IPV4_UNSPECIFIED) [star; star] (secs 5) w
     = (Done (Ok (drop 2 hello)), w') /\ ch_out (w_ext w') = [Byte.x00; Byte.x02; star; star]) /\
  (exists w', @query_tcp_dns_sync channel_env 12 loopback (Some IPV4_UNSPECIFIED) [star; star] (secs 5) w
     = (Done (Ok (drop 2 hello)), w') /\ ch_out (w_ext w') = [Byte.x00; Byte.x02; star; star]).
Proof.
  apply (@tcp_queries_agree channel_env 3 0 (secs 5) _ _ ch_in ch_out ch_stalls _ ltac:(vm_compute; congruence)
    12 loopback (Some IPV4_UNSPECIFIED) [star; star] (channel_world (mkChannel (hello ++ [star]) [] 2))).
  - split; vm_compute; lia.
  - reflexivity.
Defined.

(** A client that reads two bytes, then as many as those say, then writes. *)
Definition hello_client : client := fun hist =>
  match hist with
  | [] => Some (OpReadExact [Byte.x00; Byte.x00])
  | [AReadExact (Ok _) [hi; lo]] => Some (OpReadExact (replicate (Z.to_nat (from_be_bytes hi lo)) Byte.x00))
  | [_; _] => Some (OpWriteAll [star])
  | _ => None
  end.

Definition hello_w0 : @World channel_env := channel_world (mkChannel hello [] 1).
Definition hello_w1 : @World channel_env := snd (@run_op channel_env 9 stream3 (OpReadExact [Byte.x00; Byte.x00]) hello_w0).
Definition hello_w2 : @World channel_env := snd (@run_op channel_env 9 stream3 (OpReadExact (replicate 5 Byte.x00)) hello_w1).
Definition hello_w3 : @World channel_env := snd (@run_op channel_env 9 stream3 (OpWriteAll [star]) hello_w2).

Definition hello_hist : list answer :=
  [AReadExact (Ok tt) (take 2 hello); AReadExact (Ok tt) (drop 2 hello); AWriteAll (Ok tt)].

Lemma hello_run :
  rtc (@client_step channel_env hello_client) (mkConfig [] stream3 hello_w0) (mkConfig hello_hist stream3 hello_w3).
Proof.
  eapply rtc_l.
  { apply (client_ran hello_client [] stream3 hello_w0 (OpReadExact [Byte.x00; Byte.x00]) 9
      (AReadExact (Ok tt) (take 2 hello)) stream3 hello_w1); [done|vm_compute; reflexivity]. }
  eapply rtc_l.
  { apply (client_ran hello_client (take 1 hello_hist) stream3 hello_w1 (OpReadExact (replicate 5 Byte.x00)) 9
      (AReadExact (Ok tt) (drop 2 hello)) stream3 hello_w2); [done|vm_compute; reflexivity]. }
  apply rtc_once.
  apply (client_ran hello_client (take 2 hello_hist) stream3 hello_w2 (OpWriteAll [star]) 9
    (AWriteAll (Ok tt)) stream3 hello_w3); [done|vm_compute; reflexivity].
Qed.

Lemma stream_refines_pipe_witness :
  rtc (pipe_step hello_client) ([], mkPipe hello []) (hello_hist, mkPipe [] [star]).
Proof.
  exact (proj1 (@stream_refines_pipe channel_env _ 3 ch_in ch_out _ hello_client
    (mkConfig [] stream3 hello_w0) (mkConfig hello_hist stream3 hello_w3) eq_refl hello_run)).
Defined.

(** ** A mailbox

    Session 3 carries datagrams; a wait for more is always dropped. *)

Record PostState : Type := mkPost {
  po_in : list (list u8 * vppcom_endpt_t);
  po_out : list (list u8 * vppcom_endpt_t)
}.

Definition post_recv (h n : Z) (x : PostState) : (Z * list u8 * vppcom_endpt_t) * PostState :=
  match po_in x with
  | (d, ep) :: i =>
      if (h =? 3) && (len d <=? n) then ((len d, d, ep), mkPost i (po_out x))
      else ((Z.min (-11) n, [], local_ep), x)
  | [] => ((Z.min (-11) n, [], local_ep), x)
  end.

Definition post_send (h : Z) (buf : list u8) (n : Z) (ep : vppcom_endpt_t) (x : PostState) : Z * PostState :=
  if h =? 3 then (Z.max 0 n, mkPost (po_in x) (po_out x ++ [(take (Z.to_nat n) buf, ep)])) else (-1, x).

Definition post_env : Env := {|
  ext := PostState;
  env_step := fun c _ x =>
    match c return ret c * PostState with
    | vppcom_session_recvfrom h _ n _ _ => post_recv h n x
    | vppcom_session_sendto h buf n _ ep => post_send h buf n ep x
    | suspend r => ((Dropped, r), x)
    | c => (default_ret c, x)
    end;
  retval_str := fun _ => None;
  endian := Little
|}.

Definition post_inbox (x : PostState) : list letter := @posted_letter post_env <$> po_in x.
Definition post_outbox (x : PostState) : list letter := @posted_letter post_env <$> po_out x.

#[global] Instance post_recv_ok : @EnvSat post_env recv_ok.
Proof.
  intros c t x. destruct c; try exact I. simpl. unfold post_recv.
  destruct (po_in x) as [|[d ep0] i]; [|destruct (_ && _) eqn:Hc; bool_to_prop];
    pose proof (len_nonneg (A := u8)); unfold len in *; simpl; lia.
Qed.

#[global] Instance post_datagrams : @DatagramChannel post_env 3 post_inbox post_outbox.
Proof.
  intros c t x r x' He. destruct c; cbn in He; try (injection He as _ <-; by rewrite app_nil_r).
  - simpl. unfold post_send in He. destruct (h =? 3); cbn [andb] in *; [|injection He as <- <-; by rewrite app_nil_r].
    injection He as <- <-. rewrite (proj2 (Z.leb_le _ _)) by lia. unfold post_outbox. simpl. by rewrite fmap_app.
  - destruct r as [[rc data] ep']. simpl. rewrite app_nil_r. unfold post_recv in He. unfold post_inbox.
    destruct (po_in x) as [|[d ep0] i] eqn:Hin.
    { injection He as <- <- <- <-. rewrite (proj2 (Z.leb_gt _ _)), andb_false_r by lia. by rewrite Hin. }
    destruct (h =? 3); cbn [andb] in *; [destruct (len d <=? n)|]; injection He as <- <- <- <-; simpl.
    + rewrite (proj2 (Z.leb_le _ _)) by apply len_nonneg. done.
    + rewrite (proj2 (Z.leb_gt _ _)) by lia. by rewrite Hin.
    + by rewrite Hin.
Qed.

#[global] Instance post_prompt : @PromptMailbox post_env 3 post_inbox.
Proof.
  split.
  - intros t buf n fl ep x rc data ep' x' d a i He Hin Hfit. cbn in He. unfold post_recv in He.
    unfold post_inbox in Hin. destruct (po_in x) as [|[d0 ep0] i0]; [done|].
    injection Hin as -> _ _. cbn [Z.eqb Pos.eqb andb] in He. rewrite (proj2 (Z.leb_le _ _)) in He by done.
    injection He as <- _ _ _. apply len_nonneg.
  - intros t buf n fl ep x rc x' He. cbn in He. injection He as <- _. lia.
Qed.

(** Two letters from the host [local_ep] names. *)
Definition backlog : list (list u8 * vppcom_endpt_t) := [([star], local_ep); ([star; star], local_ep)].
Definition post_world (x : PostState) : @World post_env := @mkWorld post_env x false ∅ 1 (mkReactor 100 ∅) [].
Definition dgram3 : VclDgramSocket := mkDgram 3.

Lemma backlog_wf : Forall (@wf_letter) (post_inbox (mkPost backlog [])).
Proof. repeat constructor; vm_compute; congruence. Qed.

Lemma echo_mirrors_witness :
  let w := post_world (mkPost backlog []) in
  post_outbox (w_ext (@echo_loop post_env 1 dgram3 w).2) = [([star], loopback)] /\
  @mirrored post_env post_inbox post_outbox w (@echo_loop post_env 1 dgram3 w).2.
Proof.
  split; [vm_compute; reflexivity|].
  exact (@echo_mirrors post_env _ 3 post_inbox post_outbox _ 1 dgram3 (post_world (mkPost backlog [])) eq_refl backlog_wf).
Defined.

Lemma echo_serves_backlog_witness :
  post_outbox (w_ext (@echo_loop post_env 2 dgram3 (post_world (mkPost backlog []))).2) =
  [([star], loopback); ([star; star], loopback)].
Proof.
  rewrite (@echo_serves_backlog post_env _ 3 post_inbox post_outbox _ _ 2 dgram3
    (post_world (mkPost backlog [])) eq_refl backlog_wf ltac:(repeat constructor; vm_compute; congruence)).
  reflexivity.
Defined.

(** Receive, answer, look for more, then wait and give up. *)
Definition post_client : dclient := fun hist =>
  match hist with
  | [] => Some (DRecv [Byte.x00; Byte.x00])
  | [DReceived (Ok (n, from)) buf] => Some (DSend (take (Z.to_nat n) buf) from)
  | [_; _] => Some (DTryRecv [Byte.x00])
  | [_; _; _] => Some (DRecv [Byte.x00])
  | _ => None
  end.

Definition post_w0 : @World post_env := post_world (mkPost (take 1 backlog) []).
Definition post_hist : list danswer :=
  [DReceived (Ok (1, loopback)) [star; Byte.x00]; DSent (Ok 1); DTried (Ok None) [Byte.x00]; DCancelled].
Definition post_w1 : @World post_env := snd (@run_dop post_env 3 dgram3 (DRecv [Byte.x00; Byte.x00]) post_w0).
Definition post_w2 : @World post_env := snd (@run_dop post_env 3 dgram3 (DSend [star] loopback) post_w1).
Definition post_w3 : @World post_env := snd (@run_dop post_env 3 dgram3 (DTryRecv [Byte.x00]) post_w2).
Definition post_w4 : @World post_env := snd (@run_dop post_env 3 dgram3 (DRecv [Byte.x00]) post_w3).

Lemma post_run : rtc (@dclient_step post_env post_client dgram3) ([], post_w0) (post_hist, post_w4).
Proof.
  eapply (rtc_l _ _ (take 1 post_hist, post_w1)).
  { eapply (dclient_ran _ _ [] post_w0 (DRecv [Byte.x00; Byte.x00]) 3); [done|exact I|vm_compute; reflexivity|done]. }
  eapply (rtc_l _ _ (take 2 post_hist, post_w2)).
  { eapply (dclient_ran _ _ (take 1 post_hist) post_w1 (DSend [star] loopback) 3); [done| |vm_compute; reflexivity|done].
    repeat split; vm_compute; congruence. }
  eapply (rtc_l _ _ (take 3 post_hist, post_w3)).
  { eapply (dclient_ran _ _ (take 2 post_hist) post_w2 (DTryRecv [Byte.x00]) 3); [done|exact I|vm_compute; reflexivity|done]. }
  apply rtc_once.
  eapply (dclient_ran _ _ (take 3 post_hist) post_w3 (DRecv [Byte.x00]) 3); [done|exact I|vm_compute; reflexivity|done].
Qed.

Lemma dgram_refines_mailbox_witness :
  rtc (mailbox_step post_client) ([], mkMailbox [([star], loopback)] [])
    (post_hist, mkMailbox [] [([star], loopback)]).
Proof.
  exact (proj1 (@dgram_refines_mailbox post_env _ 3 post_inbox post_outbox _ post_client dgram3
    ([], post_w0) (post_hist, post_w4) eq_refl post_run)).
Defined.

(** ** A well-typed client *)

#[global] Instance lively_typed : @EnvSat lively_env typed_answer.
Proof.
  assert (wt_endpt local_ep) as Hep.
  { split; [simpl; lia|]. split; [by eexists|]. unfold is_u16. simpl. lia. }
  intros c t n Hc. destruct c; try exact I; try exact Hep; try apply Hc. simpl in *. lia.
Qed.

(** Connect, send a star, and let the stream go; the number of stars sent. *)
Definition star_client : @M lively_env Z :=
  r ← @connect_async lively_env 9 loopback None (secs 5);
  match r with
  | Ok s =>
      finally (r ← write_all 9 s [star]; match r with Ok _ => mret 1 | Err _ => mret 0 end) (stream_drop s)
  | Err _ => mret 0
  end.

Lemma star_client_program : @program lively_env Z star_client (fun n => 0 <= n <= 1).
Proof.
  eapply prog_bind; [apply prog_connect_async; [split; [reflexivity|by vm_compute]|exact I]|].
  intros [s|e] Hs; [|apply prog_ret; lia]. apply prog_finally; [|by apply prog_stream_drop].
  eapply prog_bind; [by apply prog_write_all|]. intros [] _; apply prog_ret; lia.
Qed.


(** ** Tasks on one reactor

    Notifies are numbered from 10 as they are created, epoll is always empty
    and the clock shows ten seconds. *)

Record TaskState : Set := mkTasks { tk_permits : list nat; tk_next : nat }.

Definition task_env : Env := {|
  ext := TaskState;
  env_step := fun c _ x =>
    match c return ret c * TaskState with
    | notify_new => (tk_next x, mkTasks (tk_permits x) (S (tk_next x)))
    | notify_one n => (tt, mkTasks (n :: tk_permits x) (tk_next x))
    | poll_notified n =>
        (bool_decide (n ∈ tk_permits x), mkTasks (filter (fun k => k <> n) (tk_permits x)) (tk_next x))
    | instant_now => (secs 10, x)
    | c => (default_ret c, x)
    end;
  retval_str := fun _ => None;
  endian := Little
|}.

Definition has_permit (x : TaskState) (n : nat) : bool := bool_decide (n ∈ tk_permits x).
Definition allocated (x : TaskState) : gset nat := list_to_set (seq 0 (tk_next x)).

#[global] Instance task_permits : @NotifyPermits task_env has_permit.
Proof.
  split.
  - intros n t x r x' He. cbn in He. injection He as _ <-. apply bool_decide_eq_true. set_solver.
  - intros n t x b x' He. cbn in He. by injection He as <- _.
  - intros c t x r x' n He Hs Hp Hx. apply bool_decide_eq_true in Hx. apply bool_decide_eq_true.
    destruct c; cbn in He; injection He as _ <-; try exact Hx.
    + set_solver.
    + apply list_elem_of_filter. split; [congruence|exact Hx].
  - intros t x. cbn. set_solver.
Qed.

#[global] Instance task_fresh : @FreshNotifies task_env allocated.
Proof.
  assert (forall x n, n ∈ allocated x <-> (n < tk_next x)%nat) as Hin.
  { intros x n. unfold allocated. rewrite elem_of_list_to_set, list_elem_of_In, in_seq. lia. }
  split.
  - intros t x n x' He. cbn in He. injection He as <- <-. rewrite !Hin. simpl. lia.
  - intros c t x r x' He n. rewrite !Hin. destruct c; cbn in He; injection He as _ <-; simpl; lia.
Qed.

#[global] Instance task_explicit : @EnvSat task_env explicit_ok.
Proof. intros c t x. by destruct c. Qed.

Lemma task_drains (fuel : nat) (w : @World task_env) :
  (0 < fuel)%nat -> exists w', @drain_events_with_inner task_env fuel w = (Done tt, w').
Proof. intros Hf. destruct fuel as [|fuel]; [lia|]. eexists. reflexivity. Qed.

(** Two tasks wait on the sessions 3 and 5. *)
Definition task_w0 : @World task_env := @mkWorld task_env (mkTasks [] 10) false ∅ 1 (mkReactor 100 ∅) [].
Definition task_w1 : @World task_env := snd (@poll_wait task_env 3 (WfStart 3 (secs 1)) task_w0).
Definition task_w2 : @World task_env := snd (@poll_wait task_env 3 (WfStart 5 (secs 1)) task_w1).
Definition task_w3 : @World task_env := snd (@drainer_round task_env 2 "vcl" (0, 0) task_w2).

Definition wait3 : waiting := mkWaiting 3 (WfSelect 10 (secs 11)).
Definition wait5 : waiting := mkWaiting 5 (WfSelect 11 (secs 11)).

Lemma task_start : @distinct task_env allocated task_w0.
Proof. split; simpl; intros *; by rewrite lookup_empty. Qed.

Lemma task_run : rtc (@sched_step task_env) (∅, task_w0) (<[1%nat := wait5]> {[0%nat := wait3]}, task_w2).
Proof.
  eapply rtc_l; [apply (sched_start ∅ task_w0 0 3 (secs 1)); reflexivity|].
  eapply rtc_l; [apply (sched_poll _ task_w0 0 (mkWaiting 3 (WfStart 3 (secs 1))) 3 Pending (WfSelect 10 (secs 11)) task_w1);
    [reflexivity|vm_compute; reflexivity]|]. cbn beta iota.
  eapply rtc_l; [apply (sched_start _ task_w1 1 5 (secs 1)); reflexivity|].
  eapply rtc_l; [apply (sched_poll _ task_w1 1 (mkWaiting 5 (WfStart 5 (secs 1))) 3 Pending (WfSelect 11 (secs 11)) task_w2);
    [reflexivity|vm_compute; reflexivity]|]. cbn beta iota.
  rewrite (insert_insert_eq _ 1%nat), (insert_insert_eq _ 0%nat). apply rtc_refl.
Qed.

Lemma no_wait_orphaned_witness :
  waiters (w_reactor task_w2) !! 3 = Some 10%nat /\ @attached task_env task_w2 wait5.
Proof.
  destruct (@no_wait_orphaned task_env allocated _ _ task_w0 _ task_w2 task_start task_run) as [_ Hatt].
  split; [exact (Hatt 0%nat wait3 eq_refl)|exact (Hatt 1%nat wait5 eq_refl)].
Defined.

(** A stream whose stored read wait is parked by its next poll. *)
Lemma polls_keep_own_waits_witness :
  let s := mkStream 3 (Some (WfStart 3 (secs 1))) None in
  let b := mkReadBuf [] [Byte.x00] in
  let r := @poll_read task_env 3 s b task_w0 in
  fst r = Done (Pending, mkStream 3 (Some (WfSelect 10 (secs 11))) None, b) /\
  @stream_attached task_env (snd r) (mkStream 3 (Some (WfSelect 10 (secs 11))) None).
Proof.
  split; [vm_compute; reflexivity|].
  destruct (@polls_keep_own_waits task_env allocated _ 3 (mkStream 3 (Some (WfStart 3 (secs 1))) None)
    (mkReadBuf [] [Byte.x00]) [] task_w0 task_start) as [[_ Hr] _].
  - split; intros fut; [intros [= <-]; reflexivity|discriminate].
  - apply (Hr Pending _ (mkReadBuf [] [Byte.x00])). vm_compute. reflexivity.
Defined.

Lemma tick_reaches_every_session_witness :
  exists ps w'', @poll_each task_env 2 [wt_fut wait5; wt_fut wait3] task_w3 = (Done ps, w'') /\
    forallb is_ready ps = true.
Proof.
  apply (@tick_reaches_every_session task_env allocated _ _ has_permit _ 2 "vcl" (0, 0) task_w0
    (<[1%nat := wait5]> {[0%nat := wait3]}) task_w2 (0, secs 10) task_w3 [wait5; wait3]).
  - lia.
  - intros w. apply task_drains. lia.
  - exact task_start.
  - exact task_run.
  - vm_compute. reflexivity.
  - repeat constructor; [by exists 1%nat|by exists 0%nat].
  - repeat constructor; by eexists.
  - vm_compute. repeat constructor; set_solver.
Defined.

(** Two waits on one session share its [Notify], and a tick leaves one permit
    there: the second wait polled is still pending. *)
Example shared_session_one_wake :
  fst (@poll_each task_env 2 [wt_fut wait3; wt_fut wait3] task_w3) = Done [Ready (Ok tt); Pending].
Proof. vm_compute. reflexivity. Qed.
