(* ===== verification/Schedules.v ===== *)
(** * Concrete schedules

    Runs of threads and tasks at which the theorems of Threads.v, Prewarm.v
    and Waits.v apply. *)

From stdpp Require Import functions.
From S2P Require Import Prelude Net Errors Ffi World Sim Session App Threads Prewarm Reactor Replay Ownership Stream Channel Dgram Listener Framing Query Deadline Waits Witnesses.

(** ** Threads *)

Definition obliging : script := fun _ c => default_ret c.
Definition idle_w0 : @World (scripted obliging) := fresh_world obliging 1.

(** Threads 11 and 12 come for the lock, 11 takes it and asks for a worker. *)
Definition two_blocked : Z -> activity := <[12 := Blocked]> (<[11 := Blocked]> (fun _ => Idle)).
Definition registering_w : @World (scripted obliging) := snd (on_thread 11 (do_call vppcom_worker_register) idle_w0).
Definition registering_11 : @system (scripted obliging) :=
  mkSystem (<[11 := Registering (RegIndex 0)]> (<[11 := Registering RegCall]> two_blocked)) (Some 11) 0 registering_w.

Definition one_blocked : Z -> activity := <[11 := Blocked]> (fun _ => Idle).

Lemma two_registrations : registrations idle_w0 [11] registering_11.
Proof.
  assert (registrations idle_w0 [] (mkSystem one_blocked None 0 idle_w0)) as H1.
  { apply (regs_step idle_w0 [] 11 (start idle_w0) (mkSystem one_blocked None 0 idle_w0)); [constructor|by apply reg_enter]. }
  assert (registrations idle_w0 [] (mkSystem two_blocked None 0 idle_w0)) as H2.
  { apply (regs_step idle_w0 [] 12 _ (mkSystem two_blocked None 0 idle_w0) H1). by apply reg_enter. }
  set (s3 := mkSystem (<[11 := Registering RegCall]> two_blocked) (Some 11) 0 idle_w0).
  assert (registrations idle_w0 [11] s3) as H3.
  { apply (regs_step idle_w0 [] 11 _ s3 H2). by apply reg_lock. }
  apply (regs_step idle_w0 [11] 11 s3 registering_11 H3). by eapply reg_access.
Qed.

Lemma registration_atomic_witness :
  exists s', rtc (reg_step 11) registering_11 s' /\ sy_lock s' = None /\ sy_world s' = serial idle_w0 [11].
Proof. exact (proj2 (@registration_atomic (scripted obliging) idle_w0 [11] registering_11 two_registrations)). Defined.

(** The same run, with a clock reading of thread 5 in between. *)
Definition busy_w : @World (scripted obliging) := snd (on_thread 5 (do_call instant_now) idle_w0).
Definition busy_registering : @system (scripted obliging) :=
  mkSystem (<[11 := Registering (RegIndex 0)]> (<[11 := Registering RegCall]> (<[11 := Blocked]> (fun _ => Idle))))
    (Some 11) 0 (snd (on_thread 11 (do_call vppcom_worker_register) busy_w)).

Lemma busy_run : rtc system_step (start idle_w0) busy_registering.
Proof.
  eapply rtc_l; [exists 11; left; by apply reg_enter|].
  eapply rtc_l; [exists 11; left; by apply reg_lock|].
  eapply rtc_l; [exists 5; right; right; by apply (other_call 5 instant_now 0 _ _ _ idle_w0 busy_w)|].
  apply rtc_once. exists 11. left. by eapply reg_access.
Qed.

Lemma registrations_serialised_witness :
  exists l, w_log (sy_world busy_registering) = w_log idle_w0 ++ l /\ is_Some (follows reg_protocol RegFree l).
Proof. exact (@registrations_serialised (scripted obliging) idle_w0 busy_registering busy_run). Defined.

(** Thread 1 initialises while thread 2 is refused. *)
Definition flagged : @World (scripted obliging) := with_initialized true idle_w0.
Definition created_w : @World (scripted obliging) := snd (on_thread 1 (app_next (InitCreate "a")) flagged).
Definition announced_w : @World (scripted obliging) := snd (on_thread 1 (app_next (InitLog "a")) created_w).

Lemma init_race_run : exists a, rtc system_step (start idle_w0) (mkSystem a None 1 announced_w).
Proof.
  eexists. eapply rtc_l; [exists 1; right; left; by apply (app_swap 1 "a")|].
  eapply rtc_l; [exists 2; right; left; by apply app_refused|].
  eapply rtc_l; [exists 1; right; left; by apply (app_access 1 _ _ _ _ (InitName "a") (InitCreate "a") flagged)|].
  eapply rtc_l; [exists 1; right; left; by apply (app_access 1 _ _ _ _ (InitCreate "a") (InitLog "a") created_w)|].
  eapply rtc_l; [exists 1; right; left; by apply (app_access 1 _ _ _ _ (InitLog "a") (InitReturn (Ok tt)) announced_w)|].
  apply rtc_once. exists 1. right. left. by apply (app_return 1 (Ok tt)).
Qed.

Lemma app_exclusive_witness :
  w_initialized announced_w = true /\
  exists l, w_log announced_w = w_log idle_w0 ++ l /\ is_Some (follows app_protocol false l).
Proof.
  destruct init_race_run as [a Hrun].
  destruct (@app_exclusive (scripted obliging) idle_w0 _ eq_refl Hrun) as (_ & Hset & Hl).
  split; [exact (Hset eq_refl)|exact Hl].
Defined.

(** ** A pool of exactly two threads *)

Definition accepted (e : event) : bool :=
  match e with Ev _ vppcom_worker_index idx => 0 <=? idx | _ => true end.

Lemma accepted_indices l : forallb accepted l = true -> forall t idx, Ev t vppcom_worker_index idx ∈ l -> 0 <= idx.
Proof.
  intros Hl t idx Hin. apply list_elem_of_In in Hin. pose proof (proj1 (forallb_forall _ _) Hl _ Hin) as Hi.
  by apply Z.leb_le in Hi.
Qed.

Lemma prewarm_quiesces_witness :
  on_thread 12 register_worker_thread prewarm_w3 = (Done tt, prewarm_w3).
Proof.
  refine (@prewarm_quiesces lively_env [11; 12] false 2 lively_world [Finished 11; Finished 12] (mkBarrier 0 1) prewarm_w3
    eq_refl (prewarm_run [11; 12] ltac:(set_solver) ltac:(set_solver)) _ 12 ltac:(set_solver)).
  apply accepted_indices. vm_compute. reflexivity.
Defined.

(** ** A runtime with timers

    The state is the time; a suspended task is polled again a millisecond
    later, and the network is silent. *)
Definition timer_env : Env := {|
  ext := Z;
  env_step := fun c _ x =>
    match c return ret c * Z with
    | instant_now => (x, x)
    | thread_sleep n => (tt, x + Z.max 0 n)
    | suspend r => ((Resumed, r), x + millis 1)
    | poll_sleep_until d => (d <=? x, x)
    | c => (default_ret c, x)
    end;
  retval_str := fun _ => None;
  endian := Little
|}.

Definition timer_world : @World timer_env := @mkWorld timer_env 0 false ∅ 1 (mkReactor 100 ∅) [].

#[global] Instance timer_runtime : @TimedRuntime timer_env (fun x => x) (millis 1) (fun _ => 0%nat).
Proof.
  split.
  - split.
    + intros t x. reflexivity.
    + intros c t x. destruct c; cbn; try lia. unfold millis. lia.
    + intros n t x. cbn. lia.
  - unfold millis. lia.
  - intros r t x. cbn. lia.
  - intros d t x. reflexivity.
  - intros t x. cbn. set_solver.
  - intros c t x. lia.
  - intros t x r x' He. discriminate He.
  - intros t x x' He. discriminate He.
  - intros v es n d t x k evs x' He Hk. injection He as <- <- <-. lia.
Qed.

Lemma waits_terminate_witness :
  fst (@wait_event timer_env 9 3 EPOLLIN (millis 3) timer_world) = Done (Err Timeout) /\
  fst (@connect_async timer_env 9 loopback None (millis 3) timer_world) <> OutOfFuel.
Proof.
  split; [vm_compute; reflexivity|].
  destruct (@waits_terminate timer_env (fun x => x) (millis 1) (fun _ => 0%nat) _ 9 (millis 3) timer_world)
    as (_ & Hc & _); [vm_compute; congruence|vm_compute; lia|]. exact (Hc loopback None).
Defined.

(** ** A silent peer *)

Definition silent_env : Env := {|
  ext := unit;
  env_step := fun c _ x =>
    match c return ret c * unit with
    | vppcom_session_read _ _ _ => ((- EAGAIN, []), x)
    | poll_notified _ => (true, x)
    | select_order => ([BrNotified; BrMq; BrDeadline], x)
    | vppcom_session_write _ buf _ => (len buf, x)
    | c => (default_ret c, x)
    end;
  retval_str := fun _ => None;
  endian := Little
|}.

#[global] Instance silent_env_ok : @EnvSat silent_env (@silent_ok silent_env).
Proof. intros c t x. destruct c; try exact I; cbn; [by split|apply len_nonneg|done|eauto]. Qed.

(** The peer takes the query and never answers. *)
Lemma silent_peer_example fuel w :
  forall r, fst (@dns_exchange silent_env fuel stream3 [star] w) <> Done r.
Proof.
  destruct (@silent_peer_holds_query silent_env _ (w_tid w) fuel stream3 [star] [Byte.x00; Byte.x01; star]
    eq_refl w eq_refl) as (_ & l & _ & Hr). exact Hr.
Qed.
